(* ===== verification/_CoqProject ===== *)
-Q . S2P
Prelude.v
Bytes.v
Limbs.v
Uint.v
CompactTarget.v
U3072.v
MuHash.v
Turnstile.v
Nullifier.v
NoteTree.v
Bundle.v
BundleVerify.v
ShieldedState.v
ShieldedManager.v
ShieldedReorg.v
PruningTransfer.v
Address.v
Transaction.v
Sighash.v
Mass.v
ScriptNum.v
TxIsolation.v
StateMonad.v
ScriptStack.v
Covenants.v
ScriptParse.v
ScriptMeter.v
ScriptState.v
ZkPrecompiles.v
ScriptOps.v
ScriptExec.v
ScriptSafety.v
ScriptVerdict.v
ScriptStandard.v
ScriptSpend.v
ScriptComplete.v
TxContext.v
Sign.v
Merkle.v
TxHash.v
UtxoDiff.v
Coinbase.v
Header.v
Pow.v
AuxPow.v
BlockBody.v
BodyPipeline.v
Wire.v
