(* ===== verification/Prelude.v ===== *)
(** * ZKas node: a verification development

    This library models the consensus core of the ZKas node, a fork of
    rusty-kaspa with a shielded pool (Orchard notes), covenants, zero-knowledge
    precompiles and merged mining, and proves what makes it correct.  Source
    paths are relative to the repository's [src/].

    ** The program and its parts

    A block comes from a peer (protocol/p2p).  Its header is hashed, its work is
    checked, natively or through a parent chain's block (consensus/core,
    consensus/pow).  Its body is checked by itself and against the header
    (consensus/src/pipeline/body_processor): the Merkle root, the coinbase, each
    transaction in isolation, the masses and lanes.  When the block is merged by
    the virtual chain, each transaction is checked against the UTXO set: amounts,
    maturity, locks, covenants and scripts (consensus/src/processes/
    transaction_validator, crypto/txscript), and shielded bundles change the
    state of the pool: note tree, nullifiers and the turnstile that accounts for
    the supply (shielded-core, consensus/src/processes/shielded.rs).  The
    coinbase pays the merged blocks by the emission schedule.

    ** The files

    Prelude, Bytes, StateMonad: results with panics ([res]), machine integers as
    [Z] with their wrap-around or overflow written out, little-endian encodings,
    prefix codes, and the state monad of methods on [&mut self].

    Arithmetic.  Limbs, Uint (math/src/uint.rs): the limb arithmetic of
    [construct_uint!].  CompactTarget (math/src/lib.rs): targets in 32 bits.
    U3072, MuHash (crypto/muhash): the field of the UTXO accumulator and the
    accumulator.

    The shielded pool.  Turnstile, Nullifier, NoteTree, Bundle, BundleVerify,
    ShieldedState (shielded-core/src): the ledger, the resolution of conflicting
    nullifiers, the note-commitment tree and the state root, the bundle format
    and its sighash, bundle verification, and the transition of the state.
    ShieldedManager, ShieldedReorg, PruningTransfer (consensus/src/processes/
    shielded.rs, model/stores/shielded.rs and the pruning-point transfer of
    processor.rs): the same transition over the stores, reorganisations, and
    the hand-over to a syncing node.

    Transactions.  Address (crypto/addresses); Transaction, Sighash, Mass, TxHash
    (consensus/core/src/{tx,hashing,mass}): the types, the signature hashes, the
    masses, the ids and hashes; TxIsolation, TxContext (transaction_validator):
    the rules; Sign (consensus/core/src/sign.rs): the signers; Merkle
    (crypto/merkle); UtxoDiff (consensus/core/src/utxo): diffs and views.

    Scripts (crypto/txscript/src).  ScriptNum, ScriptStack, Covenants, ScriptParse,
    ScriptMeter, ScriptState, ZkPrecompiles, ScriptOps, ScriptExec: the parts of the
    engine, one definition per opcode; ScriptSafety, ScriptVerdict: absence of
    panics, independence of caches, limits; ScriptStandard, ScriptSpend,
    ScriptComplete: the standard scripts and what spending them shows.

    Blocks.  Coinbase (consensus/src/processes/coinbase.rs), Header
    (consensus/core/src/header.rs, hashing/header.rs), Pow, AuxPow (consensus/pow,
    consensus/core/src/auxpow.rs), BlockBody, BodyPipeline (body_processor),
    Wire (protocol/p2p/src/convert).

    ** How code becomes definitions

    A function that can fail or panic returns [res E A]; the release profile has
    overflow checks on, so an overflow is a [Panic], and [debug_assert!] is off.
    A method on [&mut self] takes and returns the state.  Hash maps are [gmap]s;
    where the order of iteration shows, it is a parameter and the theorem is for
    every order.  Parallel loops are modelled by the order in which jobs finish.
    Code outside of the repository (BLAKE, Keccak, secp256k1, orchard, halo2,
    borsh, itertools, incrementalmerkletree, RocksDB) is a class of functions
    with its documented laws; every theorem that uses such laws has a witness at
    a concrete instance.  No law says that a hash has no collisions: theorems on
    commitments conclude "or, among the messages that were hashed for these very
    values, two have one digest or one has the zero digest" (Transaction.collides).

    ** What the theorems show

    The shielded pool: over every history the pool holds what was minted minus
    what was paid out, no nullifier is accepted twice, the stores refine the
    in-memory machine across reorganisations, and a syncing node gets the same
    state.  Transactions: the rules accept exactly their declarative description,
    without panics, and what is accepted in context is mature, balanced, signed
    and bound to its covenants.  Scripts: executing any bytes ends in a verdict
    within the limits, that no cache changes; the signature script that spends a
    standard output pushes the signatures it names, and a signed transaction is
    accepted.  Commitments:
    equal hashes mean equal transactions, headers, bundles, bodies.  Blocks: the
    body rules are exact, the body stores keep their invariant in every order of
    headers, ordinary and trusted bodies and decisions on the virtual chain (until
    blocks are pruned), a mark of invalidity is final, the gate of the proof of work is
    exact, and the coinbase pays what it should.  Codecs round trip.  The
    theorems named as errors show where the code does not do what it means to.

    ** Bounds and fuel

    Recursion follows the data wherever the code's loop does.  Fuel is used in
    few places: the merge-mining tag scan runs with the length of the payload,
    which the lemma on [scan] shows to be enough; the generation of the
    proof-of-work matrix draws until the rank is full and has no bound in the
    code, so its fuel is an argument, [None] means that it has not ended, and the
    gate's theorem has as a hypothesis that the draws given were enough (a
    witness evaluates the seed of the repository's own test).  Opcode iteration
    consumes at least a byte per step.  Lengths are bounded where a count is
    written at a width (2^32 leaves for the streaming Merkle tree, 255 levels of
    parents), as the theorems state.

    ** Not modelled

    GHOSTDAG colouring, reachability, windows and difficulty, header validation
    against the DAG, the selection of the virtual chain, pruning and its proof, the
    sparse Merkle tree of the lanes: parts of the DAG that the modelled ones take
    their data from, through parameters or as records.  The wallets, the mempool,
    RPC, flows, notifications, indexes, database and the programs around the node:
    input and output, policy or third-party code.  Of the modelled files, the
    serde, borsh, wasm and display code, tests and logging.  The deletions of the
    pruning processor and the tips that a move of the pruning point or a pruning
    proof sets are not steps of the node in BodyPipeline. *)

From stdpp Require Export base tactics list gmap sets fin_maps.
From Stdlib Require Export ZArith Lia.

#[global] Open Scope Z_scope.

(** ** Rust results and panics

    A fallible, possibly panicking Rust computation is a value of [res E A]:
    [Ok] and [Err] are the constructors of [Result], and [Panic] is an
    unwinding: an arithmetic overflow (the workspace builds its release
    profile with [overflow-checks = true]), an [expect] or [unwrap] on the
    wrong variant, or an index out of range. *)
Inductive res (E A : Type) : Type :=
| Ok (a : A)
| Err (e : E)
| Panic.

Arguments Ok {E A} a.
Arguments Err {E A} e.
Arguments Panic {E A}.

#[global] Instance res_mret {E} : MRet (res E) := λ _ a, Ok a.

#[global] Instance res_mbind {E} : MBind (res E) := λ _ _ f m,
  match m with
  | Ok a => f a
  | Err e => Err e
  | Panic => Panic
  end.

#[global] Instance res_fmap {E} : FMap (res E) := λ _ _ f m,
  match m with
  | Ok a => Ok (f a)
  | Err e => Err e
  | Panic => Panic
  end.

(** [map_err]: the [From] conversions that [?] inserts. *)
Definition map_err {E F A} (f : E → F) (m : res E A) : res F A :=
  match m with
  | Ok a => Ok a
  | Err e => Err (f e)
  | Panic => Panic
  end.

(** [Option::ok_or]. *)
Definition ok_or {E A} (e : E) (o : option A) : res E A :=
  match o with Some a => Ok a | None => Err e end.

(** [Option::unwrap], [Option::expect]. *)
Definition unwrap {E A} (o : option A) : res E A :=
  match o with Some a => Ok a | None => Panic end.

Definition is_ok {E A} (m : res E A) : bool :=
  match m with Ok _ => true | _ => false end.

Section res_lemmas.
Context {E F A B : Type}.

Lemma bind_Ok (m : res E A) (f : A → res E B) b :
  m ≫= f = Ok b ↔ ∃ a, m = Ok a ∧ f a = Ok b.
Proof. destruct m; split; naive_solver. Qed.

Lemma map_err_Ok (g : E → F) (m : res E A) a :
  map_err g m = Ok a ↔ m = Ok a.
Proof. destruct m; split; naive_solver. Qed.

Lemma ok_or_Ok (e : E) (o : option A) a : ok_or e o = Ok a ↔ o = Some a.
Proof. destruct o; split; naive_solver. Qed.

Lemma unwrap_Ok (o : option A) a : unwrap (E := E) o = Ok a ↔ o = Some a.
Proof. destruct o; split; naive_solver. Qed.

#[global] Instance Ok_inj : Inj (=) (=) (@Ok E A).
Proof. by intros x y [= ->]. Qed.

Lemma bind_ret_Ok (a : A) (f : A → res E B) : (Ok a : res E A) ≫= f = f a.
Proof. done. Qed.

Lemma is_ok_true (m : res E A) : is_ok m = true ↔ ∃ a, m = Ok a.
Proof. destruct m; split; naive_solver. Qed.
End res_lemmas.

(** [res_inv] opens a hypothesis [m ≫= f = Ok b] down to its leaves and turns
    the boolean tests met on the way into propositions. *)
Ltac res_inv_step :=
  match goal with
  | H : Ok _ = Ok _ |- _ => injection H as H
  | H : Err _ = Err _ |- _ => injection H as H
  | H : Ok _ = Err _ |- _ => discriminate H
  | H : Err _ = Ok _ |- _ => discriminate H
  | H : Panic = _ |- _ => discriminate H
  | H : _ = Panic |- _ => discriminate H
  | H : _ ≫= _ = Ok _ |- _ =>
      let x := fresh "x" in let Hx := fresh "Hx" in
      apply bind_Ok in H as (x & Hx & H)
  | H : map_err _ _ = Ok _ |- _ => apply map_err_Ok in H
  | H : ok_or _ _ = Ok _ |- _ => apply ok_or_Ok in H
  | H : unwrap _ = Ok _ |- _ => apply unwrap_Ok in H
  | H : mret _ = Ok _ |- _ => unfold mret, res_mret in H
  | H : (if ?b then _ else _) = Ok _ |- _ =>
      let Hb := fresh "Hb" in destruct b eqn:Hb
  end.
Ltac res_inv := repeat (res_inv_step; simpl in *; simplify_eq).

(** Code that does not panic. *)
Lemma bind_no_panic {E A B} (m : res E A) (f : A → res E B) :
  m ≠ Panic → (∀ a, m = Ok a → f a ≠ Panic) → (m ≫= f) ≠ Panic.
Proof. intros Hm Hf. destruct m as [a| |]; simpl; [by apply Hf|done|done]. Qed.
Lemma ok_or_no_panic {E A} (e : E) (o : option A) : ok_or e o ≠ Panic.
Proof. by destruct o. Qed.
Lemma map_err_no_panic {E E' A} (f : E → E') (m : res E A) : m ≠ Panic → map_err f m ≠ Panic.
Proof. by destruct m. Qed.

(** ** Machine integers

    A value of a [w]-bit unsigned type is a [Z] in [0, 2^w). *)
Definition in_u (w x : Z) : Prop := 0 ≤ x < 2 ^ w.
Definition in_ub (w x : Z) : bool := (0 <=? x) && (x <? 2 ^ w).
Definition U64_MAX : Z := 2 ^ 64 - 1.

Lemma in_ub_spec w x : in_ub w x = true ↔ in_u w x.
Proof. unfold in_ub, in_u. rewrite andb_true_iff, Z.leb_le, Z.ltb_lt. done. Qed.

#[global] Instance in_u_dec w x : Decision (in_u w x).
Proof. unfold in_u. apply _. Defined.

Lemma testbit_high w x i : in_u w x → 0 ≤ w ≤ i → Z.testbit x i = false.
Proof. intros Hx Hi. rewrite <- (Z.mod_small x (2 ^ w)) by done. by apply Z.mod_pow2_bits_high. Qed.

Lemma lxor_range w a b : 0 ≤ w → in_u w a → in_u w b → in_u w (Z.lxor a b).
Proof.
  intros Hw Ha Hb. assert (Z.lxor a b = Z.lxor a b mod 2 ^ w) as ->; [|apply Z.mod_pos_bound; lia].
  apply Z.bits_inj'. intros i Hi. destruct (decide (i < w)) as [Hlt|Hge]; [by rewrite Z.mod_pow2_bits_low|].
  rewrite Z.mod_pow2_bits_high by lia. rewrite Z.lxor_spec, (testbit_high w a), (testbit_high w b) by (done || lia). done.
Qed.

(** [checked_add] and [checked_sub] of the [w]-bit unsigned type. *)
Definition checked_add (w a b : Z) : option Z :=
  if a + b <? 2 ^ w then Some (a + b) else None.
Definition checked_sub (a b : Z) : option Z :=
  if b <=? a then Some (a - b) else None.

(** The operators [+], [-] and [*] under [overflow-checks = true]. *)
Definition add_p {E} (w a b : Z) : res E Z := unwrap (checked_add w a b).
Definition sub_p {E} (a b : Z) : res E Z := unwrap (checked_sub a b).
Definition mul_p {E} (w a b : Z) : res E Z :=
  if a * b <? 2 ^ w then Ok (a * b) else Panic.

Lemma checked_add_Some w a b c :
  checked_add w a b = Some c ↔ c = a + b ∧ a + b < 2 ^ w.
Proof. unfold checked_add. case_match; split; naive_solver lia. Qed.

Lemma checked_sub_Some a b c : checked_sub a b = Some c ↔ c = a - b ∧ b ≤ a.
Proof. unfold checked_sub. case_match; split; naive_solver lia. Qed.

Lemma add_p_Ok {E} w a b c :
  @add_p E w a b = Ok c ↔ c = a + b ∧ a + b < 2 ^ w.
Proof. unfold add_p. by rewrite unwrap_Ok, checked_add_Some. Qed.

Lemma sub_p_Ok {E} a b c : @sub_p E a b = Ok c ↔ c = a - b ∧ b ≤ a.
Proof. unfold sub_p. by rewrite unwrap_Ok, checked_sub_Some. Qed.

(** ** Loops and arrays

    [for i in lo..lo+n { .. }] over a loop state, and checked indexing. *)
Fixpoint for_loop {E St} (n i : nat) (body : nat → St → res E St) (s : St) : res E St :=
  match n with
  | O => Ok s
  | S n => s' ← body i s; for_loop n (S i) body s'
  end.

Definition idx {E A} (l : list A) (i : nat) : res E A := unwrap (l !! i).
Definition upd {E A} (l : list A) (i : nat) (x : A) : res E (list A) :=
  if (i <? length l)%nat then Ok (<[i := x]> l) else Panic.

(** [assert!]. *)
Definition assert_p {E} (b : bool) : res E unit := if b then Ok tt else Panic.

(** The loop rule: an invariant indexed by the loop counter. *)
Lemma for_loop_rule {E St} (I : nat → St → Prop) n i (body : nat → St → res E St) s :
  I i s →
  (∀ k s, (i ≤ k < i + n)%nat → I k s → ∃ s', body k s = Ok s' ∧ I (S k) s') →
  ∃ s', for_loop n i body s = Ok s' ∧ I (i + n)%nat s'.
Proof.
  revert i s; induction n as [|n IH]; intros i s Hi Hbody; simpl.
  { exists s. by rewrite Nat.add_0_r. }
  destruct (Hbody i s) as (s1 & -> & H1); [lia|done|]. simpl.
  replace (i + S n)%nat with (S i + n)%nat by lia. apply IH; [done|].
  intros k s' Hk. apply Hbody. lia.
Qed.

(** A length, as the [usize] that the code compares. *)
Definition zlen {A} (l : list A) : Z := Z.of_nat (length l).
Lemma zlen_nonneg {A} (l : list A) : 0 ≤ zlen l.
Proof. unfold zlen. lia. Qed.

(** ** Sums of integer lists *)
Definition sumZ (l : list Z) : Z := foldr Z.add 0 l.
Arguments sumZ : simpl never.

Lemma sumZ_cons x l : sumZ (x :: l) = x + sumZ l.
Proof. done. Qed.

Lemma sumZ_app l k : sumZ (l ++ k) = sumZ l + sumZ k.
Proof. induction l as [|x l IH]; simpl; [done|]. rewrite !sumZ_cons, IH. lia. Qed.

Lemma sumZ_nonneg l : Forall (λ x, 0 ≤ x) l → 0 ≤ sumZ l.
Proof. induction 1; [done|]. rewrite sumZ_cons. lia. Qed.

Lemma sumZ_bound l b :
  Forall (λ x, 0 ≤ x ≤ b) l → 0 ≤ sumZ l ≤ Z.of_nat (length l) * b.
Proof. induction 1; [done|]. rewrite sumZ_cons. simpl. lia. Qed.

#[global] Instance sumZ_perm : Proper ((≡ₚ) ==> (=)) sumZ.
Proof. induction 1; rewrite ?sumZ_cons; lia. Qed.

(** The sum of [f i] over [n] indices from [i]. *)
Fixpoint msum (n i : nat) (f : nat → Z) : Z :=
  match n with
  | O => 0
  | S n => f i + msum n (S i) f
  end.

Lemma msum_ext n i f g :
  (∀ k, (i ≤ k < i + n)%nat → f k = g k) → msum n i f = msum n i g.
Proof.
  revert i; induction n as [|n IH]; intros i Hfg; simpl; [done|].
  rewrite Hfg by lia. f_equal. apply IH. intros. apply Hfg. lia.
Qed.

Lemma msum_zero n i f : (∀ k, (i ≤ k < i + n)%nat → f k = 0) → msum n i f = 0.
Proof.
  revert i; induction n as [|n IH]; intros i Hf; simpl; [done|].
  rewrite Hf, IH by (intros; try apply Hf; lia). done.
Qed.

Lemma msum_split n m i f : msum (n + m) i f = msum n i f + msum m (i + n) f.
Proof.
  revert i; induction n as [|n IH]; intros i; simpl; [by rewrite Nat.add_0_r|].
  rewrite IH. replace (S i + n)%nat with (i + S n)%nat by lia. lia.
Qed.

Lemma msum_S_r n i f : msum (S n) i f = msum n i f + f (i + n)%nat.
Proof. replace (S n) with (n + 1)%nat by lia. rewrite msum_split. simpl. lia. Qed.

Lemma msum_add n i f g : msum n i (λ k, f k + g k) = msum n i f + msum n i g.
Proof. revert i; induction n as [|n IH]; intros i; simpl; [done|]. rewrite IH. lia. Qed.

Lemma msum_mul n i c f : msum n i (λ k, c * f k) = c * msum n i f.
Proof. revert i; induction n as [|n IH]; intros i; simpl; [lia|]. rewrite IH. lia. Qed.

Lemma msum_shift n i k f : msum n (i + k) f = msum n i (λ j, f (j + k)%nat).
Proof. revert i; induction n as [|n IH]; intros i; simpl; [done|]. by rewrite <- IH. Qed.

Lemma msum_bound n i f b :
  (∀ k, (i ≤ k < i + n)%nat → 0 ≤ f k ≤ b) → 0 ≤ msum n i f ≤ Z.of_nat n * b.
Proof.
  revert i; induction n as [|n IH]; intros i Hf; simpl; [lia|].
  pose proof (Hf i ltac:(lia)). pose proof (IH (S i) ltac:(intros; apply Hf; lia)). lia.
Qed.

Lemma idx_Ok {E A} (l : list A) i x : l !! i = Some x → @idx E A l i = Ok x.
Proof. intros H. unfold idx. by rewrite H. Qed.

Lemma upd_Ok {E A} (l : list A) i x : (i < length l)%nat → @upd E A l i x = Ok (<[i := x]> l).
Proof. intros H. unfold upd. by rewrite (proj2 (Nat.ltb_lt _ _)). Qed.

Lemma mul_p_Ok {E} w a b c : @mul_p E w a b = Ok c ↔ c = a * b ∧ a * b < 2 ^ w.
Proof. unfold mul_p. destruct (Z.ltb_spec (a * b) (2 ^ w)); split; naive_solver lia. Qed.
