(* ===== verification/Bytes.v ===== *)
(** * Bytes and fixed-width encodings

    Bytes are [Z] values in [0, 256).  [le_bytes] and [be_bytes] are
    [to_le_bytes] and [to_be_bytes] of Rust's unsigned integers, [of_le_bytes]
    and [of_be_bytes] their inverses.  The component files use them for wire
    formats and hash preimages. *)

From S2P Require Import Prelude.

Abbreviation bytes := (list Z).

(** Every element is a byte. *)
Definition is_bytes (l : bytes) : Prop := Forall (in_u 8) l.

(** [[u8; n]]: a byte list of length [n]. *)
Definition is_array (n : nat) (l : bytes) : Prop := length l = n ∧ is_bytes l.

Fixpoint le_bytes (n : nat) (x : Z) : bytes :=
  match n with
  | O => []
  | S n => x mod 256 :: le_bytes n (x / 256)
  end.

Fixpoint of_le_bytes (l : bytes) : Z :=
  match l with
  | [] => 0
  | b :: l => b + 256 * of_le_bytes l
  end.

Definition be_bytes (n : nat) (x : Z) : bytes := reverse (le_bytes n x).
Definition of_be_bytes (l : bytes) : Z := of_le_bytes (reverse l).

(** Two's complement views of a [w]-bit word. *)
Definition to_signed (w x : Z) : Z := if x <? 2 ^ (w - 1) then x else x - 2 ^ w.
Definition of_signed (w x : Z) : Z := x mod 2 ^ w.
Definition in_i (w x : Z) : Prop := - 2 ^ (w - 1) ≤ x < 2 ^ (w - 1).

Lemma is_bytes_nil : is_bytes [].
Proof. constructor. Qed.

Lemma is_bytes_app l k : is_bytes (l ++ k) ↔ is_bytes l ∧ is_bytes k.
Proof. apply Forall_app. Qed.

Lemma is_bytes_cons b l : is_bytes (b :: l) ↔ in_u 8 b ∧ is_bytes l.
Proof. apply Forall_cons. Qed.

Lemma is_bytes_take n l : is_bytes l → is_bytes (take n l).
Proof. apply Forall_take. Qed.

Lemma is_bytes_drop n l : is_bytes l → is_bytes (drop n l).
Proof. apply Forall_drop. Qed.

Lemma is_bytes_reverse l : is_bytes l → is_bytes (reverse l).
Proof. apply Forall_reverse. Qed.

Lemma length_le_bytes n x : length (le_bytes n x) = n.
Proof. revert x; induction n as [|n IH]; intros x; simpl; auto. Qed.

Lemma le_bytes_is_bytes n x : is_bytes (le_bytes n x).
Proof.
  revert x; induction n as [|n IH]; intros x; constructor; [|apply IH].
  unfold in_u. change (2 ^ 8) with 256. apply Z.mod_pos_bound; lia.
Qed.

Lemma of_le_bytes_bound l :
  is_bytes l → 0 ≤ of_le_bytes l < 2 ^ (8 * Z.of_nat (length l)).
Proof.
  induction 1 as [|b l Hb Hl IH]; simpl; [lia|].
  replace (8 * Z.of_nat (S (length l))) with (8 + 8 * Z.of_nat (length l)) by lia.
  rewrite Z.pow_add_r by lia. unfold in_u in Hb.
  change (2 ^ 8) with 256 in *. nia.
Qed.

Lemma of_le_bytes_app l k :
  of_le_bytes (l ++ k) = of_le_bytes l + 2 ^ (8 * Z.of_nat (length l)) * of_le_bytes k.
Proof.
  induction l as [|b l IH]; cbn [of_le_bytes app length]; [lia|]. rewrite IH.
  replace (8 * Z.of_nat (S (length l))) with (8 + 8 * Z.of_nat (length l)) by lia.
  rewrite Z.pow_add_r by lia. change (2 ^ 8) with 256. lia.
Qed.

Lemma of_le_bytes_le_bytes n x :
  in_u (8 * Z.of_nat n) x → of_le_bytes (le_bytes n x) = x.
Proof.
  unfold in_u. revert x; induction n as [|n IH]; intros x; simpl.
  { intros. lia. }
  replace (8 * Z.of_nat (S n)) with (8 + 8 * Z.of_nat n) by lia.
  rewrite Z.pow_add_r by lia. change (2 ^ 8) with 256. intros Hx.
  rewrite IH.
  - pose proof (Z.div_mod x 256). lia.
  - split; [apply Z.div_pos; lia|]. apply Z.div_lt_upper_bound; lia.
Qed.

Lemma le_bytes_of_le_bytes l :
  is_bytes l → le_bytes (length l) (of_le_bytes l) = l.
Proof.
  induction 1 as [|b l Hb Hl IH]; cbn [of_le_bytes length le_bytes]; [done|].
  unfold in_u in Hb. change (2 ^ 8) with 256 in Hb. f_equal.
  - rewrite (Z.mul_comm 256), Z.mod_add, Z.mod_small; lia.
  - rewrite (Z.mul_comm 256), Z.div_add, Z.div_small, Z.add_0_l; [done|lia..].
Qed.

Lemma le_bytes_inj n x y :
  in_u (8 * Z.of_nat n) x → in_u (8 * Z.of_nat n) y →
  le_bytes n x = le_bytes n y → x = y.
Proof.
  intros Hx Hy H. rewrite <- (of_le_bytes_le_bytes n x), <- (of_le_bytes_le_bytes n y) by done.
  by rewrite H.
Qed.

Lemma length_be_bytes n x : length (be_bytes n x) = n.
Proof. unfold be_bytes. rewrite length_reverse. apply length_le_bytes. Qed.

Lemma be_bytes_is_bytes n x : is_bytes (be_bytes n x).
Proof. apply is_bytes_reverse, le_bytes_is_bytes. Qed.

Lemma of_be_bytes_be_bytes n x :
  in_u (8 * Z.of_nat n) x → of_be_bytes (be_bytes n x) = x.
Proof.
  intros Hx. unfold of_be_bytes, be_bytes. rewrite reverse_involutive.
  by apply of_le_bytes_le_bytes.
Qed.

Lemma be_bytes_of_be_bytes l :
  is_bytes l → be_bytes (length l) (of_be_bytes l) = l.
Proof.
  intros Hl. unfold of_be_bytes, be_bytes.
  rewrite <- (length_reverse l), le_bytes_of_le_bytes by by apply is_bytes_reverse.
  apply reverse_involutive.
Qed.

Lemma of_be_bytes_bound l :
  is_bytes l → 0 ≤ of_be_bytes l < 2 ^ (8 * Z.of_nat (length l)).
Proof.
  intros Hl. unfold of_be_bytes. rewrite <- (length_reverse l).
  by apply of_le_bytes_bound, is_bytes_reverse.
Qed.

Lemma of_signed_range w x : 0 < w → in_u w (of_signed w x).
Proof. intros. apply Z.mod_pos_bound. lia. Qed.

Lemma pow2_half w : 0 < w → 2 ^ w = 2 * 2 ^ (w - 1).
Proof. intros. rewrite <- Z.pow_succ_r by lia. f_equal; lia. Qed.

Lemma to_signed_of_signed w x : 0 < w → in_i w x → to_signed w (of_signed w x) = x.
Proof.
  unfold in_i, to_signed, of_signed. intros Hw Hx. pose proof (pow2_half w Hw).
  destruct (decide (0 ≤ x)).
  - rewrite Z.mod_small by lia. case_match; lia.
  - replace (x mod 2 ^ w) with (x + 2 ^ w).
    2:{ rewrite <- (Z.mod_small (x + 2 ^ w) (2 ^ w)) by lia.
        by rewrite <- (Z.mod_add x 1 (2 ^ w)), Z.mul_1_l by lia. }
    case_match; lia.
Qed.

Lemma of_signed_to_signed w x : 0 < w → in_u w x → of_signed w (to_signed w x) = x.
Proof.
  unfold in_u, to_signed, of_signed. intros Hw Hx.
  case_match; [apply Z.mod_small; lia|].
  rewrite <- (Z.mod_add _ 1) by lia. rewrite Z.mul_1_l, Z.sub_add. apply Z.mod_small; lia.
Qed.

Lemma to_signed_range w x : 0 < w → in_u w x → in_i w (to_signed w x).
Proof.
  unfold in_u, to_signed, in_i. intros Hw Hx. pose proof (pow2_half w Hw).
  case_match; lia.
Qed.

Create HintDb bytes_db.
#[export] Hint Resolve is_bytes_nil is_bytes_take is_bytes_drop le_bytes_is_bytes
  be_bytes_is_bytes is_bytes_reverse : bytes_db.
#[export] Hint Rewrite length_le_bytes length_be_bytes : bytes_db.
