(* ===== verification/Limbs.v ===== *)
(** * Little-endian limb arrays

    The big integers of the node are arrays of 64-bit limbs, least significant
    first ([construct_uint!] in math/src/uint.rs, [U3072] in
    crypto/muhash/src/u3072.rs).  This file holds their value, indexing and
    bit-level lemmas, and the [for] loops that fill an array by index. *)

From S2P Require Import Prelude Bytes.

(** [[u64; n]]. *)
Definition is_limbs (n : nat) (l : list Z) : Prop := length l = n ∧ Forall (in_u 64) l.

(** The integer a limb array stands for. *)
Fixpoint uval (l : list Z) : Z :=
  match l with
  | [] => 0
  | x :: l => x + 2 ^ 64 * uval l
  end.
Arguments uval : simpl never.

(** [self.0[i]], at indices the loops keep within the array. *)
Definition limb (l : list Z) (i : nat) : Z := nth i l 0.

(** [for i in lo..hi { ret[i] = f(i, ret[i]) }]. *)
Definition fill (lo hi : nat) (f : nat → Z → Z) (ret : list Z) : list Z :=
  foldl (λ r i, <[i := f i (limb r i)]> r) ret (seq lo (hi - lo)).

Lemma uval_nil : uval [] = 0.
Proof. done. Qed.

Lemma uval_cons x l : uval (x :: l) = x + 2 ^ 64 * uval l.
Proof. done. Qed.

Lemma pow64_S n : 2 ^ (64 * Z.of_nat (S n)) = 2 ^ 64 * 2 ^ (64 * Z.of_nat n).
Proof. rewrite <- Z.pow_add_r by lia. f_equal. lia. Qed.

Lemma pow64_pos n : 0 < 2 ^ (64 * Z.of_nat n).
Proof. apply Z.pow_pos_nonneg; lia. Qed.

Lemma uval_bound l : Forall (in_u 64) l → 0 ≤ uval l < 2 ^ (64 * Z.of_nat (length l)).
Proof.
  induction 1 as [|x l Hx Hl IH]; [done|]. rewrite uval_cons. cbn [length].
  rewrite pow64_S. unfold in_u in Hx. set (2 ^ 64) in *. nia.
Qed.

Lemma uval_app l k : uval (l ++ k) = uval l + 2 ^ (64 * Z.of_nat (length l)) * uval k.
Proof.
  induction l as [|x l IH]; [by rewrite uval_nil; simpl; lia|].
  cbn [app length]. rewrite !uval_cons, IH, pow64_S. lia.
Qed.

Lemma uval_replicate n : uval (replicate n 0) = 0.
Proof. induction n as [|n IH]; [done|]. cbn [replicate]. by rewrite uval_cons, IH. Qed.

Lemma is_limbs_replicate n : is_limbs n (replicate n 0).
Proof.
  split; [apply length_replicate|]. apply Forall_replicate. unfold in_u. lia.
Qed.

Lemma limb_cons_S x l i : limb (x :: l) (S i) = limb l i.
Proof. done. Qed.

Lemma limb_range l i : Forall (in_u 64) l → in_u 64 (limb l i).
Proof.
  intros Hl. unfold limb. revert i; induction Hl; intros [|i]; simpl; try done; unfold in_u; lia.
Qed.

Lemma limb_ge l i : (length l ≤ i)%nat → limb l i = 0.
Proof. apply nth_overflow. Qed.

Lemma limb_lookup l i x : l !! i = Some x → limb l i = x.
Proof. intros H. unfold limb. rewrite nth_lookup, H. done. Qed.

Lemma lookup_limb l i : (i < length l)%nat → l !! i = Some (limb l i).
Proof.
  intros H. destruct (lookup_lt_is_Some_2 l i H) as [x Hx]. by rewrite (limb_lookup _ _ _ Hx).
Qed.

Lemma limb_insert l i j x :
  limb (<[i := x]> l) j = if bool_decide (i = j ∧ (i < length l)%nat) then x else limb l j.
Proof.
  unfold limb. rewrite !nth_lookup. case_bool_decide as H.
  - destruct H as [-> H]. by rewrite list_lookup_insert_eq.
  - destruct (decide (i = j)) as [->|]; [|by rewrite list_lookup_insert_ne].
    rewrite list_insert_ge by lia. done.
Qed.

Lemma is_limbs_insert n l i x : is_limbs n l → in_u 64 x → is_limbs n (<[i := x]> l).
Proof.
  intros [Hlen Hl] Hx. split; [by rewrite length_insert|]. by apply Forall_insert.
Qed.

Lemma uval_insert l i x :
  (i < length l)%nat → uval (<[i := x]> l) = uval l + (x - limb l i) * 2 ^ (64 * Z.of_nat i).
Proof.
  revert i; induction l as [|y l IH]; intros i Hi; simpl in Hi; [lia|].
  destruct i as [|i].
  - simpl. rewrite !uval_cons. unfold limb. simpl. lia.
  - change (<[S i := x]> (y :: l)) with (y :: <[i := x]> l).
    rewrite !uval_cons, IH, limb_cons_S, pow64_S by lia. lia.
Qed.

Lemma uval_inj l k :
  length l = length k → Forall (in_u 64) l → Forall (in_u 64) k → uval l = uval k → l = k.
Proof.
  intros Hlen Hl. revert k Hlen; induction Hl as [|x l Hx Hl IH]; intros [|y k] Hlen Hk; try done.
  apply Forall_cons in Hk as [Hy Hk]. rewrite !uval_cons. intros Heq.
  unfold in_u in *. pose proof (uval_bound l Hl). pose proof (uval_bound k Hk).
  assert (x = y ∧ uval l = uval k) as [-> Hlk] by (set (2 ^ 64) in *; nia).
  f_equal. apply IH; auto.
Qed.

Lemma uval_zero_iff l : Forall (in_u 64) l → uval l = 0 ↔ Forall (λ x, x = 0) l.
Proof.
  induction 1 as [|x l Hx Hl IH]; [done|]. rewrite uval_cons, Forall_cons, <- IH.
  unfold in_u in Hx. pose proof (uval_bound l Hl). lia.
Qed.

Lemma testbit_above v w k : 0 ≤ v < 2 ^ w → w ≤ k → Z.testbit v k = false.
Proof.
  intros [H0 H1] Hk. destruct (decide (v = 0)) as [->|]; [apply Z.testbit_0_l|].
  apply Z.bits_above_log2; [lia|].
  apply (Z.lt_le_trans _ w); [|done]. apply Z.log2_lt_pow2; [lia|done].
Qed.

(** Or-ing a value above [k] clear bits adds it. *)
Lemma lor_shiftl_add x y k :
  0 ≤ k → 0 ≤ x < 2 ^ k → Z.lor x (Z.shiftl y k) = x + 2 ^ k * y.
Proof.
  intros Hk Hx. rewrite (Z.mul_comm (2 ^ k)), <- Z.shiftl_mul_pow2 by lia.
  rewrite <- Z.lxor_lor, <- Z.add_nocarry_lxor; [done|..].
  all: apply Z.bits_inj'; intros n Hn; rewrite Z.land_spec, Z.bits_0, Z.shiftl_spec by lia;
    destruct (Z.ltb_spec n k);
    [rewrite (Z.testbit_neg_r y) by lia; apply andb_false_r|by rewrite (testbit_above x k)].
Qed.

(** Bit [k] of the value is bit [k mod 64] of limb [k / 64]. *)
Lemma uval_testbit l k :
  Forall (in_u 64) l → 0 ≤ k →
  Z.testbit (uval l) k = Z.testbit (limb l (Z.to_nat (k / 64))) (k mod 64).
Proof.
  intros Hl. revert k; induction Hl as [|x l Hx Hl IH]; intros k Hk.
  { rewrite uval_nil. unfold limb. rewrite nth_overflow by (simpl; lia). by rewrite !Z.testbit_0_l. }
  rewrite uval_cons. unfold in_u in Hx.
  rewrite <- (lor_shiftl_add x (uval l) 64) by lia.
  rewrite Z.lor_spec, Z.shiftl_spec by lia. destruct (Z.ltb_spec k 64).
  - rewrite (Z.testbit_neg_r (uval l)) by lia. rewrite orb_false_r.
    rewrite Z.div_small, Z.mod_small by lia. done.
  - rewrite IH, (testbit_high 64 x) by (done || lia).
    simpl. replace k with ((k - 64) + 1 * 64) at 3 4 by lia.
    rewrite Z.div_add, Z.mod_add by lia.
    replace (Z.to_nat ((k - 64) / 64 + 1)) with (S (Z.to_nat ((k - 64) / 64))); [done|].
    pose proof (Z.div_pos (k - 64) 64). lia.
Qed.

(** The length and elements a [fill] leaves. *)
Lemma length_fill lo hi f ret : length (fill lo hi f ret) = length ret.
Proof.
  unfold fill. generalize (seq lo (hi - lo)) as ix. intros ix. revert ret.
  induction ix as [|i ix IH]; intros ret; simpl; [done|]. by rewrite IH, length_insert.
Qed.

Lemma limb_fill lo hi f ret j :
  (hi ≤ length ret)%nat →
  limb (fill lo hi f ret) j =
  if bool_decide (lo ≤ j < hi)%nat then f j (limb ret j) else limb ret j.
Proof.
  unfold fill. intros Hhi. remember (hi - lo)%nat as n eqn:Hn.
  revert lo ret Hn Hhi; induction n as [|n IH]; intros lo ret Hn Hhi; simpl.
  { rewrite bool_decide_eq_false_2 by lia. done. }
  rewrite IH by (rewrite ?length_insert; lia). rewrite limb_insert.
  repeat case_bool_decide; try lia; try done; by replace j with lo by lia.
Qed.

Lemma fill_range lo hi f ret :
  Forall (in_u 64) ret → (∀ i x, in_u 64 x → in_u 64 (f i x)) →
  Forall (in_u 64) (fill lo hi f ret).
Proof.
  intros Hret Hf. unfold fill. generalize (seq lo (hi - lo)) as ix. intros ix. revert ret Hret.
  induction ix as [|i ix IH]; intros ret Hret; simpl; [done|]. apply IH, Forall_insert; [done|].
  apply Hf. by apply limb_range.
Qed.
