(* ===== verification/Uint.v ===== *)
(** * Fixed-width big integers (math/src/uint.rs)

    The operations [construct_uint!] generates, for any number [n] of 64-bit
    words ([Uint192], [Uint256], [Uint320] and [Uint3072] are the instances
    3, 4, 5 and 48), with their exact arithmetic meaning: the value an
    operation computes, and when its overflow flag is set. *)

From S2P Require Import Prelude Bytes Limbs.

(** ** [u64] primitives of the standard library *)

Definition oadd64 (a b : Z) : Z * bool := ((a + b) mod 2 ^ 64, 2 ^ 64 <=? a + b).
Definition osub64 (a b : Z) : Z * bool := ((a - b) mod 2 ^ 64, a <? b).
#[global] Arguments oadd64 : simpl never.
#[global] Arguments osub64 : simpl never.

Definition shl64 (a s : Z) : Z := Z.shiftl a s mod 2 ^ 64.
Definition lzcnt64 (a : Z) : Z := if a =? 0 then 64 else 63 - Z.log2 a.

Definition uint_max (n : nat) : list Z := replicate n (2 ^ 64 - 1).
Definition uint_zero (n : nat) : list Z := replicate n 0.

Definition uint_from_u64 (n : nat) (x : Z) : list Z := <[0%nat := x]> (uint_zero n).

Definition uint_from_u128 (n : nat) (x : Z) : list Z :=
  <[1%nat := Z.shiftr x 64]> (<[0%nat := x mod 2 ^ 64]> (uint_zero n)).

Definition uint_as_u128 (l : list Z) : Z := Z.lor (limb l 0) (Z.shiftl (limb l 1) 64).

Definition uint_as_u64 (l : list Z) : Z := limb l 0.

Definition uint_is_zero (l : list Z) : bool := forallb (λ a, a =? 0) l.

(** [bits]: the loop from the most significant word down. *)
Fixpoint bits_from (l : list Z) (i : nat) : Z :=
  match i with
  | O => 0
  | S i =>
      if negb (limb l i =? 0) then 64 * (Z.of_nat i + 1) - lzcnt64 (limb l i)
      else bits_from l i
  end.

Definition uint_bits (l : list Z) : Z := bits_from l (length l).

Definition uint_leading_zeros (l : list Z) : Z := 64 * Z.of_nat (length l) - uint_bits l.

Definition uint_overflowing_shl (l : list Z) (s : Z) : list Z * bool :=
  let n := length l in
  let BITS := 64 * Z.of_nat n in
  let overflows := BITS <=? s in
  let s := s mod BITS in
  let left_words := Z.to_nat (s / 64) in
  let left_shifts := s mod 64 in
  let ret := fill left_words n (λ i _, shl64 (limb l (i - left_words)) left_shifts) (uint_zero n) in
  let ret :=
    if 0 <? left_shifts then
      fill (left_words + 1) n
        (λ i x, Z.lor x (Z.shiftr (limb l (i - 1 - left_words)) (64 - left_shifts))) ret
    else ret in
  (ret, overflows).

(** The two loops write [ret[i - left_words]] and [ret[i - left_words - 1]];
    they are indexed here by the position written. *)
Definition uint_overflowing_shr (l : list Z) (s : Z) : list Z * bool :=
  let n := length l in
  let BITS := 64 * Z.of_nat n in
  let overflows := BITS <=? s in
  let s := s mod BITS in
  let left_words := Z.to_nat (s / 64) in
  let left_shifts := s mod 64 in
  let ret := fill 0 (n - left_words) (λ k _, Z.shiftr (limb l (k + left_words)) left_shifts) (uint_zero n) in
  let ret :=
    if 0 <? left_shifts then
      fill 0 (n - left_words - 1)
        (λ k x, Z.lor x (shl64 (limb l (k + left_words + 1)) (64 - left_shifts))) ret
    else ret in
  (ret, overflows).

Definition carrying_add_u64 (lhs rhs : Z) (carry : bool) : Z * bool :=
  let '(a, b) := oadd64 lhs rhs in
  let '(c, d) := oadd64 a (Z.b2z carry) in
  (c, xorb b d).

(** The carry loop over the limbs of two arrays of the same length. *)
Fixpoint add_limbs (l r : list Z) (carry : bool) : list Z * bool :=
  match l, r with
  | x :: l, y :: r =>
      let '(z, carry) := carrying_add_u64 x y carry in
      let '(zs, carry) := add_limbs l r carry in
      (z :: zs, carry)
  | _, _ => ([], carry)
  end.

Definition uint_overflowing_add (l r : list Z) : list Z * bool := add_limbs l r false.

(** The loop of [overflowing_add_u64] after the first limb: stop at the first
    limb that takes the carry. *)
Fixpoint inc_limbs (l : list Z) (carry : bool) : list Z * bool :=
  match l with
  | [] => ([], carry)
  | x :: l' =>
      if negb carry then (l, carry)
      else let '(z, carry) := oadd64 x 1 in
           let '(zs, carry) := inc_limbs l' carry in
           (z :: zs, carry)
  end.

Definition uint_overflowing_add_u64 (l : list Z) (other : Z) : list Z * bool :=
  match l with
  | [] => ([], false)
  | x :: l =>
      let '(z, carry) := oadd64 x other in
      let '(zs, carry) := inc_limbs l carry in
      (z :: zs, carry)
  end.

Definition borrowing_sub_u64 (lhs rhs : Z) (borrow : bool) : Z * bool :=
  let '(a, b) := osub64 lhs rhs in
  let '(c, d) := osub64 a (Z.b2z borrow) in
  (c, xorb b d).

Fixpoint sub_limbs (l r : list Z) (carry : bool) : list Z * bool :=
  match l, r with
  | x :: l, y :: r =>
      let '(z, carry) := borrowing_sub_u64 x y carry in
      let '(zs, carry) := sub_limbs l r carry in
      (z :: zs, carry)
  | _, _ => ([], carry)
  end.

Definition uint_overflowing_sub (l r : list Z) : list Z * bool := sub_limbs l r false.

Definition uint_saturating_sub (l r : list Z) : list Z :=
  let '(sum, carry) := uint_overflowing_sub l r in
  if carry then uint_zero (length l) else sum.

Definition uint_saturating_add (l r : list Z) : list Z :=
  let '(sum, carry) := uint_overflowing_add l r in
  if carry then uint_max (length l) else sum.

(** [let n = carry + other as u128 * self.0[i] as u128], a [u128] sum. *)
Fixpoint mul_u64_limbs (l : list Z) (other carry : Z) : list Z * Z :=
  match l with
  | [] => ([], carry)
  | x :: l =>
      let n := carry + other * x in
      let '(zs, carry) := mul_u64_limbs l other (Z.land (Z.shiftr n 64) (2 ^ 64 - 1)) in
      (n mod 2 ^ 64 :: zs, carry)
  end.

Definition uint_carrying_mul_u64 (l : list Z) (other : Z) : list Z * Z :=
  let '(r, carry) := mul_u64_limbs l other 0 in (r, carry mod 2 ^ 64).

Definition uint_overflowing_mul_u64 (l : list Z) (other : Z) : list Z * bool :=
  let '(r, carry) := uint_carrying_mul_u64 l other in (r, negb (carry =? 0)).

(** The inner [while i + j < LIMBS] loop: [res] is [result[j..]]. *)
Fixpoint mul_row (a : list Z) (bj : Z) (res : list Z) (carry : Z) {struct res} : list Z * Z :=
  match res, a with
  | r :: res, x :: a =>
      let n := x * bj + r + carry in
      let '(zs, c) := mul_row a bj res (Z.shiftr n 64) in
      (n mod 2 ^ 64 :: zs, c)
  | _, _ => (res, carry)
  end.

(** The outer [for j in 0..LIMBS] loop, with [bs] the limbs [other[j..]]. *)
Fixpoint mul_rows (a bs : list Z) (j : nat) (result : list Z) (carry_out : bool) : list Z * bool :=
  match bs with
  | [] => (result, carry_out)
  | bj :: bs =>
      let '(row, carry) := mul_row a bj (drop j result) 0 in
      mul_rows a bs (S j) (take j result ++ row) (carry_out || negb (carry =? 0))
  end.

Definition uint_overflowing_mul (l r : list Z) : list Z * bool :=
  mul_rows l r 0 (uint_zero (length l)) false.

(** The [n] little-endian words of a byte array. *)
Fixpoint words_of_bytes (of_bytes : bytes → Z) (n : nat) (bs : bytes) : list Z :=
  match n with
  | O => []
  | S n => of_bytes (take 8 bs) :: words_of_bytes of_bytes n (drop 8 bs)
  end.

Definition uint_from_le_bytes (n : nat) (bs : bytes) : list Z := words_of_bytes of_le_bytes n bs.
Definition uint_from_be_bytes (n : nat) (bs : bytes) : list Z :=
  reverse (words_of_bytes of_be_bytes n bs).
Definition uint_to_le_bytes (l : list Z) : bytes := concat (le_bytes 8 <$> l).
Definition uint_to_be_bytes (l : list Z) : bytes := concat (be_bytes 8 <$> reverse l).

(** [position(|b| b != 0).unwrap_or(len)], then the suffix from there. *)
Fixpoint skip_zeros (bs : bytes) : bytes :=
  match bs with
  | b :: bs' => if b =? 0 then skip_zeros bs' else bs
  | [] => []
  end.

Definition uint_to_be_bytes_var (l : list Z) : bytes := skip_zeros (uint_to_be_bytes l).

Inductive TryFromSliceError := TryFromSlice.

Definition uint_from_be_bytes_var (n : nat) (bs : bytes) : res TryFromSliceError (list Z) :=
  if (8 * n <? length bs)%nat then Err TryFromSlice
  else Ok (uint_from_be_bytes n (replicate (8 * n - length bs) 0 ++ bs)).

(** [div_rem_u64], from the most significant word; dividing by zero panics. *)
Fixpoint div_words (l : list Z) (other rem : Z) : list Z * Z :=
  match l with
  | [] => ([], rem)
  | d :: l =>
      let n := Z.lor (Z.shiftl rem 64) d in
      let '(q, r) := div_words l other (n mod other) in
      (n / other :: q, r)
  end.

Definition uint_div_rem_u64 (l : list Z) (other : Z) : res Empty_set (list Z * Z) :=
  if negb (length l =? 0)%nat && (other =? 0) then Panic
  else let '(q, r) := div_words (reverse l) other 0 in Ok (reverse q, r).

(** [Iterator::cmp] on the reversed words: lexicographic. *)
Fixpoint lex_cmp (l r : list Z) : comparison :=
  match l, r with
  | [], [] => Eq
  | [], _ => Lt
  | _, [] => Gt
  | x :: l, y :: r => match x ?= y with Eq => lex_cmp l r | c => c end
  end.

Definition uint_cmp (l r : list Z) : comparison := lex_cmp (reverse l) (reverse r).

Definition uint_geb (l r : list Z) : bool :=
  match uint_cmp l r with Lt => false | _ => true end.

(** The conditional subtraction in the loop of [div_rem]. *)
Definition div_step (shift : nat) (sub_copy shift_copy ret : list Z) : list Z * list Z :=
  if uint_geb sub_copy shift_copy then
    let i := (shift / 64)%nat in
    ((uint_overflowing_sub sub_copy shift_copy).1,
     <[i := Z.lor (limb ret i) (Z.shiftl 1 (Z.of_nat (shift mod 64)))]> ret)
  else (sub_copy, ret).

(** The [loop] of [div_rem], from the current [shift] down to zero. *)
Fixpoint div_loop (shift : nat) (sub_copy shift_copy ret : list Z) : list Z * list Z :=
  let '(sub_copy, ret) := div_step shift sub_copy shift_copy ret in
  let shift_copy := (uint_overflowing_shr shift_copy 1).1 in
  match shift with
  | O => (ret, sub_copy)
  | S shift => div_loop shift sub_copy shift_copy ret
  end.

Definition uint_div_rem (l other : list Z) : res Empty_set (list Z * list Z) :=
  let ret := uint_zero (length l) in
  let my_bits := uint_bits l in
  let your_bits := uint_bits other in
  if your_bits =? 0 then Panic
  else if my_bits <? your_bits then Ok (ret, l)
  else
    let shift := my_bits - your_bits in
    let shift_copy := (uint_overflowing_shl other shift).1 in
    Ok (div_loop (Z.to_nat shift) l shift_copy ret).

(** Comparison with [u64]. *)
Definition uint_eq_u64 (l : list Z) (x : Z) : bool :=
  negb (existsb (λ a, negb (a =? 0)) (drop 1 l)) && (limb l 0 =? x).

Definition uint_cmp_u64 (l : list Z) (x : Z) : comparison :=
  if existsb (λ a, negb (a =? 0)) (drop 1 l) then Gt else limb l 0 ?= x.

Definition uint_bitand (l r : list Z) : list Z := zip_with Z.land l r.
Definition uint_bitxor (l r : list Z) : list Z := zip_with Z.lxor l r.
Definition uint_bitor (l r : list Z) : list Z := zip_with Z.lor l r.
Definition uint_not (l : list Z) : list Z := (λ a, 2 ^ 64 - 1 - a) <$> l.

(** ** Carry chains *)

Lemma mod64_range x : in_u 64 (x mod 2 ^ 64).
Proof. apply Z.mod_pos_bound. lia. Qed.

#[export] Hint Resolve mod64_range : core.

Lemma oadd64_spec a b :
  in_u 64 a → in_u 64 b →
  in_u 64 (oadd64 a b).1 ∧ a + b = (oadd64 a b).1 + 2 ^ 64 * Z.b2z (oadd64 a b).2.
Proof.
  unfold in_u, oadd64. intros Ha Hb. cbn [fst snd].
  destruct (Z.leb_spec (2 ^ 64) (a + b)) as [H|H]; simpl.
  - assert (a + b = (a + b - 2 ^ 64) + 1 * 2 ^ 64) as -> by lia.
    rewrite Z.mod_add, Z.mod_small by lia. lia.
  - rewrite Z.mod_small by lia. lia.
Qed.

Lemma osub64_spec a b :
  in_u 64 a → in_u 64 b →
  in_u 64 (osub64 a b).1 ∧ a - b = (osub64 a b).1 - 2 ^ 64 * Z.b2z (osub64 a b).2.
Proof.
  unfold in_u, osub64. intros Ha Hb. cbn [fst snd].
  destruct (Z.ltb_spec a b) as [H|H]; simpl.
  - assert ((a - b) mod 2 ^ 64 = a - b + 2 ^ 64) as ->.
    { replace (a - b) with (a - b + 2 ^ 64 + (-1) * 2 ^ 64) by lia.
      rewrite Z.mod_add, Z.mod_small by lia. lia. }
    lia.
  - rewrite Z.mod_small by lia. lia.
Qed.

Lemma carrying_add_spec a b c :
  in_u 64 a → in_u 64 b →
  in_u 64 (carrying_add_u64 a b c).1 ∧
  a + b + Z.b2z c = (carrying_add_u64 a b c).1 + 2 ^ 64 * Z.b2z (carrying_add_u64 a b c).2.
Proof.
  intros Ha Hb. unfold carrying_add_u64.
  destruct (oadd64_spec a b Ha Hb) as [Hr He]. destruct (oadd64 a b) as [x f]; cbn [fst snd] in Hr, He.
  destruct (oadd64_spec x (Z.b2z c) Hr) as [Hr' He']; [unfold in_u; destruct c; simpl; lia|].
  destruct (oadd64 x (Z.b2z c)) as [y g]; simpl in *. split; [done|].
  unfold in_u in *. destruct c, f, g; simpl in *; lia.
Qed.

Lemma borrowing_sub_spec a b c :
  in_u 64 a → in_u 64 b →
  in_u 64 (borrowing_sub_u64 a b c).1 ∧
  a - b - Z.b2z c = (borrowing_sub_u64 a b c).1 - 2 ^ 64 * Z.b2z (borrowing_sub_u64 a b c).2.
Proof.
  intros Ha Hb. unfold borrowing_sub_u64.
  destruct (osub64_spec a b Ha Hb) as [Hr He]. destruct (osub64 a b) as [x f]; cbn [fst snd] in Hr, He.
  destruct (osub64_spec x (Z.b2z c) Hr) as [Hr' He']; [unfold in_u; destruct c; simpl; lia|].
  destruct (osub64 x (Z.b2z c)) as [y g]; simpl in *. split; [done|].
  unfold in_u in *. destruct c, f, g; simpl in *; lia.
Qed.

Lemma add_limbs_spec n l r c :
  is_limbs n l → is_limbs n r →
  is_limbs n (add_limbs l r c).1 ∧
  uval l + uval r + Z.b2z c =
    uval (add_limbs l r c).1 + 2 ^ (64 * Z.of_nat n) * Z.b2z (add_limbs l r c).2.
Proof.
  revert l r c; induction n as [|n IH]; intros l r c [Hl Fl] [Hr Fr].
  { destruct l, r; try done. simpl. split; [done|]. rewrite uval_nil. lia. }
  destruct l as [|x l], r as [|y r]; try done. injection Hl as Hl. injection Hr as Hr.
  apply Forall_cons in Fl as [Hx Fl]. apply Forall_cons in Fr as [Hy Fr]. cbn [add_limbs].
  destruct (carrying_add_spec x y c Hx Hy) as [Hz He].
  destruct (carrying_add_u64 x y c) as [z c1]; simpl in Hz, He.
  destruct (IH l r c1 (conj Hl Fl) (conj Hr Fr)) as [[Hlen Hf] He'].
  destruct (add_limbs l r c1) as [zs c2]; simpl in *. split.
  - split; simpl; [by rewrite Hlen|by constructor].
  - rewrite !uval_cons, pow64_S. lia.
Qed.

Lemma sub_limbs_spec n l r c :
  is_limbs n l → is_limbs n r →
  is_limbs n (sub_limbs l r c).1 ∧
  uval l - uval r - Z.b2z c =
    uval (sub_limbs l r c).1 - 2 ^ (64 * Z.of_nat n) * Z.b2z (sub_limbs l r c).2.
Proof.
  revert l r c; induction n as [|n IH]; intros l r c [Hl Fl] [Hr Fr].
  { destruct l, r; try done. simpl. split; [done|]. rewrite uval_nil. lia. }
  destruct l as [|x l], r as [|y r]; try done. injection Hl as Hl. injection Hr as Hr.
  apply Forall_cons in Fl as [Hx Fl]. apply Forall_cons in Fr as [Hy Fr]. cbn [sub_limbs].
  destruct (borrowing_sub_spec x y c Hx Hy) as [Hz He].
  destruct (borrowing_sub_u64 x y c) as [z c1]; simpl in Hz, He.
  destruct (IH l r c1 (conj Hl Fl) (conj Hr Fr)) as [[Hlen Hf] He'].
  destruct (sub_limbs l r c1) as [zs c2]; simpl in *. split.
  - split; simpl; [by rewrite Hlen|by constructor].
  - rewrite !uval_cons, pow64_S. lia.
Qed.

Lemma inc_limbs_spec n l c :
  is_limbs n l →
  is_limbs n (inc_limbs l c).1 ∧
  uval l + Z.b2z c = uval (inc_limbs l c).1 + 2 ^ (64 * Z.of_nat n) * Z.b2z (inc_limbs l c).2.
Proof.
  revert l c; induction n as [|n IH]; intros l c [Hl Fl].
  { destruct l; try done. simpl. split; [done|]. rewrite uval_nil. lia. }
  destruct l as [|x l]; try done. injection Hl as Hl.
  apply Forall_cons in Fl as [Hx Fl]. cbn [inc_limbs]. destruct c; simpl negb; cbn iota.
  2:{ split; [split; [by rewrite <- Hl|by constructor]|simpl; lia]. }
  destruct (oadd64_spec x 1 Hx) as [Hz He]; [unfold in_u; lia|].
  destruct (oadd64 x 1) as [z c1]; simpl in Hz, He.
  destruct (IH l c1 (conj Hl Fl)) as [[Hlen Hf] He'].
  destruct (inc_limbs l c1) as [zs c2]; simpl in *. split.
  - split; simpl; [by rewrite Hlen|by constructor].
  - rewrite !uval_cons, pow64_S. lia.
Qed.

(** A value and a flag that satisfy a carry equation are the wrapped result
    and the exact overflow condition. *)
Lemma carry_exact n v r (c : bool) :
  is_limbs n r → v = uval r + 2 ^ (64 * Z.of_nat n) * Z.b2z c →
  uval r = v mod 2 ^ (64 * Z.of_nat n) ∧ c = (2 ^ (64 * Z.of_nat n) <=? v).
Proof.
  intros [Hlen Hr] ->. pose proof (uval_bound r Hr) as Hb. rewrite Hlen in Hb. split.
  - rewrite Z.mul_comm, Z.mod_add, Z.mod_small by lia. done.
  - symmetry. destruct c; simpl; [apply Z.leb_le|apply Z.leb_gt]; lia.
Qed.

Lemma borrow_exact n v r (c : bool) :
  is_limbs n r → v = uval r - 2 ^ (64 * Z.of_nat n) * Z.b2z c →
  uval r = v mod 2 ^ (64 * Z.of_nat n) ∧ c = (v <? 0).
Proof.
  intros [Hlen Hr] ->. pose proof (uval_bound r Hr) as Hb. rewrite Hlen in Hb. split.
  - replace (uval r - 2 ^ (64 * Z.of_nat n) * Z.b2z c)
      with (uval r + (- Z.b2z c) * 2 ^ (64 * Z.of_nat n)) by lia.
    rewrite Z.mod_add, Z.mod_small by lia. done.
  - symmetry. destruct c; simpl; [apply Z.ltb_lt|apply Z.ltb_ge]; lia.
Qed.

Lemma overflowing_add_spec n l r :
  is_limbs n l → is_limbs n r →
  let '(s, c) := uint_overflowing_add l r in
  is_limbs n s ∧ uval s = (uval l + uval r) mod 2 ^ (64 * Z.of_nat n) ∧
  c = (2 ^ (64 * Z.of_nat n) <=? uval l + uval r).
Proof.
  intros Hl Hr. unfold uint_overflowing_add.
  destruct (add_limbs_spec n l r false Hl Hr) as [Hs He].
  destruct (add_limbs l r false) as [s c]; simpl in *. split; [done|].
  apply carry_exact; [done|lia].
Qed.

Lemma overflowing_sub_spec n l r :
  is_limbs n l → is_limbs n r →
  let '(s, c) := uint_overflowing_sub l r in
  is_limbs n s ∧ uval s = (uval l - uval r) mod 2 ^ (64 * Z.of_nat n) ∧
  c = (uval l <? uval r).
Proof.
  intros Hl Hr. unfold uint_overflowing_sub.
  destruct (sub_limbs_spec n l r false Hl Hr) as [Hs He].
  destruct (sub_limbs l r false) as [s c]; simpl in *. split; [done|].
  destruct (borrow_exact n (uval l - uval r) s c Hs) as [H1 H2]; [lia|]. split; [done|].
  rewrite H2. destruct (Z.ltb_spec (uval l - uval r) 0), (Z.ltb_spec (uval l) (uval r)); lia.
Qed.

Lemma overflowing_add_u64_spec n l x :
  is_limbs (S n) l → in_u 64 x →
  let '(s, c) := uint_overflowing_add_u64 l x in
  is_limbs (S n) s ∧ uval s = (uval l + x) mod 2 ^ (64 * Z.of_nat (S n)) ∧
  c = (2 ^ (64 * Z.of_nat (S n)) <=? uval l + x).
Proof.
  intros [Hl Fl] Hx. destruct l as [|y l]; [done|]. injection Hl as Hl.
  apply Forall_cons in Fl as [Hy Fl]. unfold uint_overflowing_add_u64.
  destruct (oadd64_spec y x Hy Hx) as [Hz He]. destruct (oadd64 y x) as [z c1]; simpl in Hz, He.
  destruct (inc_limbs_spec n l c1 (conj Hl Fl)) as [[Hlen Hf] He'].
  destruct (inc_limbs l c1) as [zs c2]; simpl in *.
  assert (is_limbs (S n) (z :: zs)) as Hs by (split; simpl; [by rewrite Hlen|by constructor]).
  split; [done|]. apply carry_exact; [done|]. rewrite !uval_cons, pow64_S. lia.
Qed.

(** ** Multiplication *)

Lemma shiftr64_bound x : 0 ≤ x < 2 ^ 128 → in_u 64 (Z.shiftr x 64).
Proof.
  intros Hx. rewrite Z.shiftr_div_pow2 by lia. split; [apply Z.div_pos; lia|].
  apply Z.div_lt_upper_bound; [lia|]. rewrite <- Z.pow_add_r by lia. apply Hx.
Qed.

Lemma split64 x : x = x mod 2 ^ 64 + 2 ^ 64 * Z.shiftr x 64.
Proof. rewrite Z.shiftr_div_pow2 by lia. pose proof (Z.div_mod x (2 ^ 64)). lia. Qed.

Lemma muladd_bound a b c d :
  in_u 64 a → in_u 64 b → in_u 64 c → in_u 64 d → 0 ≤ a * b + c + d < 2 ^ 128.
Proof.
  unfold in_u. intros. change (2 ^ 128) with (2 ^ 64 * 2 ^ 64). set (2 ^ 64) in *. nia.
Qed.

Lemma mul_u64_limbs_spec n l x c :
  is_limbs n l → in_u 64 x → in_u 64 c →
  is_limbs n (mul_u64_limbs l x c).1 ∧ in_u 64 (mul_u64_limbs l x c).2 ∧
  uval l * x + c =
    uval (mul_u64_limbs l x c).1 + 2 ^ (64 * Z.of_nat n) * (mul_u64_limbs l x c).2.
Proof.
  intros Hl Hx. revert l c Hl; induction n as [|n IH]; intros l c [Hl Fl] Hc.
  { destruct l; try done. simpl. split_and!; [done|done|]. rewrite uval_nil. lia. }
  destruct l as [|y l]; try done. injection Hl as Hl.
  apply Forall_cons in Fl as [Hy Fl]. cbn [mul_u64_limbs].
  pose proof (muladd_bound x y c 0 Hx Hy Hc) as Hb. specialize (Hb ltac:(unfold in_u; lia)).
  assert (Z.land (Z.shiftr (c + x * y) 64) (2 ^ 64 - 1) = Z.shiftr (c + x * y) 64) as Hland.
  { replace (2 ^ 64 - 1) with (Z.ones 64) by done. rewrite Z.land_ones by lia.
    apply Z.mod_small, shiftr64_bound. lia. }
  rewrite Hland.
  destruct (IH l (Z.shiftr (c + x * y) 64) (conj Hl Fl)) as (Hs & Hc' & He).
  { apply shiftr64_bound. lia. }
  destruct (mul_u64_limbs l x _) as [zs c']; simpl in *. split_and!; [|done|].
  - destruct Hs as [Hlen Hf]. split; simpl; [by rewrite Hlen|by constructor].
  - rewrite !uval_cons, pow64_S. pose proof (split64 (c + x * y)). lia.
Qed.

Lemma carrying_mul_u64_spec n l x :
  is_limbs n l → in_u 64 x →
  let '(r, c) := uint_carrying_mul_u64 l x in
  is_limbs n r ∧ in_u 64 c ∧ uval l * x = uval r + 2 ^ (64 * Z.of_nat n) * c.
Proof.
  intros Hl Hx. unfold uint_carrying_mul_u64.
  destruct (mul_u64_limbs_spec n l x 0 Hl Hx) as (Hs & Hc & He); [unfold in_u; lia|].
  destruct (mul_u64_limbs l x 0) as [r c]; simpl in *. rewrite Z.mod_small by done.
  split_and!; [done|done|lia].
Qed.

Lemma overflowing_mul_u64_spec n l x :
  is_limbs n l → in_u 64 x →
  let '(r, c) := uint_overflowing_mul_u64 l x in
  is_limbs n r ∧ uval r = (uval l * x) mod 2 ^ (64 * Z.of_nat n) ∧
  c = (2 ^ (64 * Z.of_nat n) <=? uval l * x).
Proof.
  intros Hl Hx. unfold uint_overflowing_mul_u64.
  pose proof (carrying_mul_u64_spec n l x Hl Hx) as Hs.
  destruct (uint_carrying_mul_u64 l x) as [r c]. destruct Hs as (Hr & Hc & ->).
  split; [done|]. pose proof (uval_bound r (proj2 Hr)) as Hb. rewrite (proj1 Hr) in Hb.
  unfold in_u in Hc. split.
  - rewrite Z.mul_comm, Z.mod_add, Z.mod_small by lia. done.
  - symmetry. destruct (Z.eqb_spec c 0) as [->|]; simpl; [apply Z.leb_gt|apply Z.leb_le]; nia.
Qed.

Lemma mul_row_spec a bj r c :
  Forall (in_u 64) a → Forall (in_u 64) r → in_u 64 bj → in_u 64 c →
  (length r ≤ length a)%nat →
  is_limbs (length r) (mul_row a bj r c).1 ∧ in_u 64 (mul_row a bj r c).2 ∧
  uval r + uval (take (length r) a) * bj + c =
    uval (mul_row a bj r c).1 + 2 ^ (64 * Z.of_nat (length r)) * (mul_row a bj r c).2.
Proof.
  intros Ha Hr Hb. revert a c Ha; induction Hr as [|y r Hy Hr IH]; intros a c Ha Hc Hlen.
  { simpl. split_and!; [done|done|]. rewrite take_0, uval_nil. lia. }
  destruct a as [|x a]; [simpl in Hlen; lia|]. apply Forall_cons in Ha as [Hx Ha].
  cbn [mul_row length take].
  pose proof (muladd_bound x bj y c Hx Hb Hy Hc) as Hn.
  destruct (IH a (Z.shiftr (x * bj + y + c) 64) Ha) as (Hs & Hc' & He).
  { by apply shiftr64_bound. } { simpl in Hlen. lia. }
  destruct (mul_row a bj r _) as [zs c']; simpl in *. split_and!; [|done|].
  - destruct Hs as [Hl Hf]. split; simpl; [by rewrite Hl|by constructor].
  - rewrite !uval_cons, pow64_S. pose proof (split64 (x * bj + y + c)). lia.
Qed.

(** One row adds [2^(64 j) * a * bj] to the result, up to multiples of the
    width of which the returned carry is a part. *)
Lemma mul_row_update n a b j result :
  is_limbs n a → is_limbs n result → in_u 64 b → (j ≤ n)%nat →
  let '(row, carry) := mul_row a b (drop j result) 0 in
  is_limbs n (take j result ++ row) ∧ 0 ≤ carry ∧
  ∃ k, 0 ≤ k ∧ uval (take j result ++ row) + 2 ^ (64 * Z.of_nat n) * (carry + k) =
               uval result + 2 ^ (64 * Z.of_nat j) * (uval a * b).
Proof.
  intros [Hal Ha] [Hlen Hres] Hb Hj.
  assert (length (drop j result) = n - j)%nat as Hdl by (rewrite length_drop; lia).
  assert (length (take j result) = j) as Htl by (rewrite length_take; lia).
  destruct (mul_row_spec a b (drop j result) 0 Ha) as ([Hrl Hrow] & Hc & He);
    [by apply Forall_drop|done|unfold in_u; lia|lia|].
  destruct (mul_row a b (drop j result) 0) as [row carry]; simpl in Hrl, Hrow, Hc, He.
  unfold in_u in *. split_and!; [|lia|].
  { split; [rewrite length_app; lia|]. apply Forall_app. by split; [apply Forall_take|]. }
  assert (0 ≤ uval (drop (n - j) a)) by (apply uval_bound; by apply Forall_drop).
  exists (uval (drop (n - j) a) * b). split; [nia|].
  pose proof (uval_app (take j result) (drop j result)) as Hsplit.
  pose proof (uval_app (take j result) row) as Hsplit'.
  pose proof (uval_app (take (n - j) a) (drop (n - j) a)) as Hasplit.
  rewrite take_drop, Htl in Hsplit. rewrite Htl in Hsplit'. rewrite Hdl in He.
  rewrite take_drop, length_take, Hal, Nat.min_l in Hasplit by lia.
  assert (2 ^ (64 * Z.of_nat n) = 2 ^ (64 * Z.of_nat j) * 2 ^ (64 * Z.of_nat (n - j))) as ->.
  { rewrite <- Z.pow_add_r by lia. f_equal. lia. }
  rewrite Hsplit, Hsplit', Hasplit.
  transitivity (uval (take j result) + 2 ^ (64 * Z.of_nat j) *
    (uval row + 2 ^ (64 * Z.of_nat (n - j)) * carry) +
    2 ^ (64 * Z.of_nat j) * 2 ^ (64 * Z.of_nat (n - j)) * uval (drop (n - j) a) * b); [ring|].
  rewrite <- He. ring.
Qed.

(** The product modulo the width; the flag is only raised by a true overflow. *)
Lemma mul_rows_spec n a bs j result co :
  is_limbs n a → Forall (in_u 64) bs → is_limbs n result → (j + length bs = n)%nat →
  let '(r, c) := mul_rows a bs j result co in
  is_limbs n r ∧
  uval r = (uval result + 2 ^ (64 * Z.of_nat j) * (uval a * uval bs)) mod 2 ^ (64 * Z.of_nat n) ∧
  (c = true → co = true ∨
     2 ^ (64 * Z.of_nat n) ≤ uval result + 2 ^ (64 * Z.of_nat j) * (uval a * uval bs)).
Proof.
  intros Ha Hbs. revert j result co; induction Hbs as [|b bs Hb Hbs IH];
    intros j result co Hres Hj; cbn [mul_rows].
  { split_and!; [done| |auto]. pose proof (uval_bound result (proj2 Hres)) as Hbd.
    rewrite (proj1 Hres) in Hbd. rewrite uval_nil, !Z.mul_0_r, Z.add_0_r, Z.mod_small by lia. done. }
  simpl in Hj. pose proof (mul_row_update n a b j result Ha Hres Hb ltac:(lia)) as Hstep.
  destruct (mul_row a b (drop j result) 0) as [row carry]. destruct Hstep as (Hnew & Hc & k & Hk & He).
  specialize (IH (S j) (take j result ++ row) (co || negb (carry =? 0)) Hnew ltac:(lia)).
  destruct (mul_rows _ _ _ _ _) as [r c]. destruct IH as (Hr & Hv & Hflag).
  rewrite pow64_S in Hv, Hflag. rewrite uval_cons.
  replace (uval result + 2 ^ (64 * Z.of_nat j) * (uval a * (b + 2 ^ 64 * uval bs)))
    with (uval (take j result ++ row) + 2 ^ 64 * 2 ^ (64 * Z.of_nat j) * (uval a * uval bs) +
          (carry + k) * 2 ^ (64 * Z.of_nat n)) by lia.
  pose proof (pow64_pos n). split_and!; [done|by rewrite Z.mod_add by lia|].
  intros Ht. pose proof (pow64_pos j).
  assert (0 ≤ uval bs) by (by apply uval_bound).
  assert (0 ≤ uval a) by (apply uval_bound, Ha).
  assert (0 ≤ uval (take j result ++ row)) by (apply uval_bound, Hnew).
  assert (0 ≤ 2 ^ 64 * 2 ^ (64 * Z.of_nat j) * (uval a * uval bs)) by nia.
  destruct (Hflag Ht) as [Hor|Hge]; [|right; nia].
  apply orb_true_iff in Hor as [->|Hcarry]; [by left|right].
  apply negb_true_iff, Z.eqb_neq in Hcarry. nia.
Qed.

Lemma overflowing_mul_spec n l r :
  is_limbs n l → is_limbs n r →
  let '(p, c) := uint_overflowing_mul l r in
  is_limbs n p ∧ uval p = (uval l * uval r) mod 2 ^ (64 * Z.of_nat n) ∧
  (c = true → 2 ^ (64 * Z.of_nat n) ≤ uval l * uval r).
Proof.
  intros Hl [Hlen Hr]. unfold uint_overflowing_mul, uint_zero. rewrite (proj1 Hl).
  pose proof (mul_rows_spec n l r 0 (replicate n 0) false Hl Hr (is_limbs_replicate n) Hlen) as Hs.
  destruct (mul_rows l r 0 (replicate n 0) false) as [p c]. rewrite uval_replicate in Hs.
  replace (0 + 2 ^ (64 * Z.of_nat 0) * (uval l * uval r)) with (uval l * uval r) in Hs by lia.
  destruct Hs as (? & ? & Hf). split_and!; [done|done|]. intros ->. naive_solver.
Qed.

(** ** Shifts *)

Lemma shl64_range x s : in_u 64 (shl64 x s).
Proof. apply mod64_range. Qed.

Lemma shr64_range x s : in_u 64 x → 0 ≤ s → in_u 64 (Z.shiftr x s).
Proof.
  intros [H0 H1] Hs. rewrite Z.shiftr_div_pow2 by done. split.
  - apply Z.div_pos; [done|]. apply Z.pow_pos_nonneg; lia.
  - apply Z.div_lt_upper_bound; [apply Z.pow_pos_nonneg; lia|].
    pose proof (Z.pow_pos_nonneg 2 s ltac:(lia) Hs). nia.
Qed.

Lemma lor64_range x y : in_u 64 x → in_u 64 y → in_u 64 (Z.lor x y).
Proof.
  intros [Hx0 Hx1] [Hy0 Hy1]. split; [by apply Z.lor_nonneg|].
  destruct (decide (Z.lor x y = 0)) as [->|Hne]; [lia|].
  pose proof (proj2 (Z.lor_nonneg x y) (conj Hx0 Hy0)) as Hnn.
  apply Z.log2_lt_pow2; [apply Z.le_neq; split; [exact Hnn|congruence]|].
  rewrite Z.log2_lor by done. apply Z.max_lub_lt.
  - destruct (decide (x = 0)) as [->|]; [simpl; lia|]. by apply Z.log2_lt_pow2; [lia|].
  - destruct (decide (y = 0)) as [->|]; [simpl; lia|]. by apply Z.log2_lt_pow2; [lia|].
Qed.

#[export] Hint Resolve shl64_range shr64_range lor64_range limb_range : core.

Lemma testbit_shl64 x s k :
  0 ≤ k < 64 → Z.testbit (shl64 x s) k = Z.testbit x (k - s).
Proof.
  intros Hk. unfold shl64. rewrite Z.mod_pow2_bits_low by lia. by rewrite Z.shiftl_spec by lia.
Qed.

(** Two values of [n] limbs with the same bits are equal. *)
Lemma uval_bits n l v :
  is_limbs n l → 0 ≤ v < 2 ^ (64 * Z.of_nat n) →
  (∀ i b, (i < n)%nat → 0 ≤ b < 64 →
    Z.testbit (limb l i) b = Z.testbit v (64 * Z.of_nat i + b)) →
  uval l = v.
Proof.
  intros [Hlen Hl] Hv Hbits. apply Z.bits_inj'. intros k Hk.
  pose proof (Z.div_mod k 64 ltac:(lia)) as Hdm.
  pose proof (Z.mod_pos_bound k 64 ltac:(lia)) as Hm.
  pose proof (Z.div_pos k 64 Hk ltac:(lia)) as Hd.
  rewrite uval_testbit by done. destruct (decide (Z.to_nat (k / 64) < n)%nat) as [Hlt|Hge].
  - rewrite Hbits by done. f_equal. lia.
  - rewrite limb_ge by lia. rewrite Z.testbit_0_l. symmetry.
    apply (testbit_above v (64 * Z.of_nat n)); [done|lia].
Qed.

Lemma testbit_uval l i b :
  Forall (in_u 64) l → 0 ≤ b < 64 →
  Z.testbit (uval l) (64 * Z.of_nat i + b) = Z.testbit (limb l i) b.
Proof.
  intros Hl Hb. rewrite uval_testbit by (done || lia).
  replace (64 * Z.of_nat i + b) with (b + Z.of_nat i * 64) by lia.
  rewrite Z.div_add, Z.mod_add, Z.div_small, Z.mod_small by lia. by rewrite Z.add_0_l, Nat2Z.id.
Qed.

(** A shift amount split into words and bits. *)
Lemma shift_split s : 0 ≤ s → s = 64 * Z.of_nat (Z.to_nat (s / 64)) + s mod 64 ∧ 0 ≤ s mod 64 < 64.
Proof.
  intros Hs. pose proof (Z.div_pos s 64 Hs ltac:(lia)). pose proof (Z.div_mod s 64 ltac:(lia)).
  pose proof (Z.mod_pos_bound s 64 ltac:(lia)). rewrite Z2Nat.id by done. lia.
Qed.

Lemma length_zero n : length (uint_zero n) = n.
Proof. apply length_replicate. Qed.

Lemma limb_zero n i : limb (uint_zero n) i = 0.
Proof.
  unfold limb, uint_zero. rewrite nth_lookup. destruct (replicate n 0 !! i) eqn:H; [|done].
  by apply lookup_replicate in H as [-> _].
Qed.

Lemma testbit_uval_neg l k : k < 0 → Z.testbit (uval l) k = false.
Proof. by apply Z.testbit_neg_r. Qed.

(** The limb at [i] of the left shift by [64 * w + s] bits. *)
Definition shl_limb (l : list Z) (w : nat) (s : Z) (i : nat) : Z :=
  Z.lor (if bool_decide (w ≤ i)%nat then shl64 (limb l (i - w)) s else 0)
        (if (0 <? s) && bool_decide (w + 1 ≤ i)%nat then Z.shiftr (limb l (i - 1 - w)) (64 - s) else 0).

Lemma shl_limb_testbit l w s i b :
  Forall (in_u 64) l → 0 ≤ s < 64 → 0 ≤ b < 64 →
  Z.testbit (shl_limb l w s i) b =
  Z.testbit (uval l) (64 * Z.of_nat i + b - (64 * Z.of_nat w + s)).
Proof.
  intros Hl Hs Hb. unfold shl_limb. rewrite Z.lor_spec. destruct (decide (s ≤ b)).
  - assert (Z.testbit (if (0 <? s) && bool_decide (w + 1 ≤ i)%nat
              then Z.shiftr (limb l (i - 1 - w)) (64 - s) else 0) b = false) as ->.
    { destruct (_ && _); [|apply Z.testbit_0_l]. rewrite Z.shiftr_spec by lia.
      apply (testbit_high 64); [auto|lia]. }
    rewrite orb_false_r. case_bool_decide.
    + rewrite testbit_shl64 by lia.
      replace (64 * Z.of_nat i + b - (64 * Z.of_nat w + s)) with (64 * Z.of_nat (i - w) + (b - s)) by lia.
      by rewrite testbit_uval by (done || lia).
    + rewrite Z.testbit_0_l, testbit_uval_neg by lia. done.
  - assert (Z.testbit (if bool_decide (w ≤ i)%nat then shl64 (limb l (i - w)) s else 0) b = false) as ->.
    { case_bool_decide; [|apply Z.testbit_0_l]. rewrite testbit_shl64 by lia.
      apply Z.testbit_neg_r. lia. }
    rewrite orb_false_l. rewrite (proj2 (Z.ltb_lt 0 s)) by lia. simpl. case_bool_decide.
    + rewrite Z.shiftr_spec by lia.
      replace (64 * Z.of_nat i + b - (64 * Z.of_nat w + s))
        with (64 * Z.of_nat (i - 1 - w) + (b + (64 - s))) by lia.
      by rewrite testbit_uval by (done || lia).
    + rewrite Z.testbit_0_l, testbit_uval_neg by lia. done.
Qed.

Lemma overflowing_shl_spec n l s :
  is_limbs n l → (0 < n)%nat → 0 ≤ s →
  let '(r, o) := uint_overflowing_shl l s in
  is_limbs n r ∧ o = (64 * Z.of_nat n <=? s) ∧
  uval r = (uval l * 2 ^ (s mod (64 * Z.of_nat n))) mod 2 ^ (64 * Z.of_nat n).
Proof.
  intros [Hlen Hl] Hn Hs. unfold uint_overflowing_shl. rewrite Hlen.
  pose proof (Z.mod_pos_bound s (64 * Z.of_nat n) ltac:(lia)) as Hsm.
  destruct (shift_split (s mod (64 * Z.of_nat n))) as [Hsplit Hls]; [lia|].
  set (w := Z.to_nat (s mod (64 * Z.of_nat n) / 64)) in *.
  set (ls := s mod (64 * Z.of_nat n) mod 64) in *.
  set (ret := if 0 <? ls then _ else _).
  assert (is_limbs n ret ∧ ∀ i, (i < n)%nat → limb ret i = shl_limb l w ls i) as [Hret Hlimb].
  { subst ret. split.
    - destruct (0 <? ls); (split; [by rewrite !length_fill, length_zero|]);
        repeat (apply fill_range; [|intros; auto 6 with lia]); apply is_limbs_replicate.
    - intros i Hi. unfold shl_limb. destruct (0 <? ls); simpl;
        rewrite ?limb_fill by (rewrite ?length_fill, length_zero; lia); rewrite ?limb_zero;
        repeat case_bool_decide; try lia; rewrite ?Z.lor_0_r, ?Z.lor_0_l; try done. }
  split_and!; [done|done|].
  apply (uval_bits n); [done|apply Z.mod_pos_bound, pow64_pos|].
  intros i b Hi Hb. rewrite Hlimb, shl_limb_testbit by done.
  rewrite Z.mod_pow2_bits_low by lia. rewrite Hsplit.
  by rewrite Z.mul_pow2_bits by lia.
Qed.

(** The limb at [k] of the right shift by [64 * w + s] bits. *)
Definition shr_limb (l : list Z) (w : nat) (s : Z) (k : nat) : Z :=
  Z.lor (Z.shiftr (limb l (k + w)) s)
        (if 0 <? s then shl64 (limb l (k + w + 1)) (64 - s) else 0).

Lemma shr_limb_testbit l w s k b :
  Forall (in_u 64) l → 0 ≤ s < 64 → 0 ≤ b < 64 →
  Z.testbit (shr_limb l w s k) b =
  Z.testbit (uval l) (64 * Z.of_nat k + b + (64 * Z.of_nat w + s)).
Proof.
  intros Hl Hs Hb. unfold shr_limb. rewrite Z.lor_spec, Z.shiftr_spec by lia.
  destruct (decide (b + s < 64)).
  - assert (Z.testbit (if 0 <? s then shl64 (limb l (k + w + 1)) (64 - s) else 0) b = false) as ->.
    { destruct (0 <? s); [|apply Z.testbit_0_l]. rewrite testbit_shl64 by lia.
      apply Z.testbit_neg_r. lia. }
    rewrite orb_false_r.
    replace (64 * Z.of_nat k + b + (64 * Z.of_nat w + s)) with (64 * Z.of_nat (k + w) + (b + s)) by lia.
    by rewrite testbit_uval by (done || lia).
  - rewrite (testbit_high 64) by (auto || lia). rewrite orb_false_l.
    rewrite (proj2 (Z.ltb_lt 0 s)) by lia. rewrite testbit_shl64 by lia.
    replace (64 * Z.of_nat k + b + (64 * Z.of_nat w + s))
      with (64 * Z.of_nat (k + w + 1) + (b - (64 - s))) by lia.
    by rewrite testbit_uval by (done || lia).
Qed.

Lemma overflowing_shr_spec n l s :
  is_limbs n l → (0 < n)%nat → 0 ≤ s →
  let '(r, o) := uint_overflowing_shr l s in
  is_limbs n r ∧ o = (64 * Z.of_nat n <=? s) ∧
  uval r = uval l / 2 ^ (s mod (64 * Z.of_nat n)).
Proof.
  intros [Hlen Hl] Hn Hs. unfold uint_overflowing_shr. rewrite Hlen.
  pose proof (Z.mod_pos_bound s (64 * Z.of_nat n) ltac:(lia)) as Hsm.
  destruct (shift_split (s mod (64 * Z.of_nat n))) as [Hsplit Hls]; [lia|].
  set (w := Z.to_nat (s mod (64 * Z.of_nat n) / 64)) in *.
  set (ls := s mod (64 * Z.of_nat n) mod 64) in *.
  set (ret := if 0 <? ls then _ else _).
  assert (is_limbs n ret ∧ ∀ i, (i < n)%nat → limb ret i = shr_limb l w ls i) as [Hret Hlimb].
  { subst ret. split.
    - destruct (0 <? ls); (split; [by rewrite !length_fill, length_zero|]);
        repeat (apply fill_range; [|intros; auto 6 with lia]); apply is_limbs_replicate.
    - intros i Hi. unfold shr_limb. destruct (0 <? ls); simpl;
        rewrite ?limb_fill by (rewrite ?length_fill, length_zero; lia); rewrite ?limb_zero;
        repeat case_bool_decide; try lia; try done;
        rewrite ?(limb_ge l (i + w)), ?(limb_ge l (i + w + 1)) by lia;
        unfold shl64; rewrite ?Z.shiftr_0_l, ?Z.shiftl_0_l, ?Z.lor_0_r; done. }
  pose proof (uval_bound l Hl) as Hub. rewrite Hlen in Hub.
  pose proof (Z.pow_pos_nonneg 2 (s mod (64 * Z.of_nat n)) ltac:(lia) ltac:(lia)).
  split_and!; [done|done|].
  apply (uval_bits n); [done| |].
  - split; [apply Z.div_pos; lia|]. apply Z.div_lt_upper_bound; [lia|]. nia.
  - intros i b Hi Hb. rewrite Hlimb, shr_limb_testbit by done. rewrite Hsplit.
    rewrite <- Z.shiftr_div_pow2 by lia. by rewrite Z.shiftr_spec by lia.
Qed.

(** ** Bit length and order *)

(** The number of bits needed for [v]. *)
Definition bit_length (v : Z) : Z := if v =? 0 then 0 else Z.log2 v + 1.

Lemma bit_length_bounds v : 0 < v → 2 ^ (bit_length v - 1) ≤ v < 2 ^ bit_length v.
Proof.
  intros Hv. unfold bit_length. rewrite (proj2 (Z.eqb_neq v 0)) by lia.
  rewrite Z.add_simpl_r. by apply Z.log2_spec.
Qed.

Lemma bit_length_pos v : 0 < v → 0 < bit_length v.
Proof.
  intros Hv. unfold bit_length. rewrite (proj2 (Z.eqb_neq v 0)) by lia.
  pose proof (Z.log2_nonneg v). lia.
Qed.

Lemma bit_length_le v w : 0 ≤ w → 0 ≤ v < 2 ^ w → bit_length v ≤ w.
Proof.
  intros Hw Hv. unfold bit_length. destruct (Z.eqb_spec v 0); [done|].
  pose proof (proj1 (Z.log2_lt_pow2 v w ltac:(lia))). lia.
Qed.

Lemma take_S_limb l i : (i < length l)%nat → take (S i) l = take i l ++ [limb l i].
Proof. intros Hi. apply take_S_r. by apply lookup_limb. Qed.

Lemma log2_top x v k : 0 < x → 0 ≤ k → 0 ≤ v < 2 ^ k → Z.log2 (v + 2 ^ k * x) = Z.log2 x + k.
Proof.
  intros Hx Hk Hv. apply Z.log2_unique; [pose proof (Z.log2_nonneg x); lia|].
  pose proof (Z.log2_spec x Hx) as [H1 H2]. pose proof (Z.log2_nonneg x).
  rewrite <- Z.add_succ_l, !Z.pow_add_r by lia. nia.
Qed.

Lemma bits_from_spec l i :
  Forall (in_u 64) l → (i ≤ length l)%nat → bits_from l i = bit_length (uval (take i l)).
Proof.
  intros Hl. induction i as [|i IH]; intros Hi; [done|]. cbn [bits_from].
  rewrite take_S_limb by lia. rewrite uval_app, length_take, Nat.min_l by lia.
  rewrite uval_cons, uval_nil, Z.mul_0_r, Z.add_0_r.
  pose proof (uval_bound (take i l) (Forall_take _ _ _ Hl)) as Hb.
  rewrite length_take, Nat.min_l in Hb by lia.
  destruct (Z.eqb_spec (limb l i) 0) as [->|Hne]; simpl negb; cbn iota.
  { rewrite IH by lia. by rewrite Z.mul_0_r, Z.add_0_r. }
  pose proof (limb_range l i Hl) as Hr. unfold in_u in Hr.
  pose proof (pow64_pos i). unfold bit_length, lzcnt64.
  rewrite (proj2 (Z.eqb_neq (limb l i) 0)) by done. rewrite (proj2 (Z.eqb_neq _ 0)) by nia.
  rewrite log2_top by lia. lia.
Qed.

Lemma uint_bits_spec n l : is_limbs n l → uint_bits l = bit_length (uval l).
Proof.
  intros [Hlen Hl]. unfold uint_bits. rewrite bits_from_spec by done. by rewrite firstn_all.
Qed.

Lemma lex_cmp_spec l r :
  length l = length r → Forall (in_u 64) l → Forall (in_u 64) r →
  lex_cmp l r = (uval (reverse l) ?= uval (reverse r)).
Proof.
  intros Hlen Hl. revert r Hlen; induction Hl as [|x l Hx Hl IH]; intros [|y r] Hlen Hr; try done.
  apply Forall_cons in Hr as [Hy Hr]. simpl in Hlen. injection Hlen as Hlen.
  cbn [lex_cmp]. rewrite !reverse_cons, !uval_app, !uval_cons, !uval_nil, !length_reverse, <- Hlen.
  pose proof (uval_bound _ (proj2 (Forall_reverse _ l) Hl)) as Hbl.
  pose proof (uval_bound _ (proj2 (Forall_reverse _ r) Hr)) as Hbr.
  rewrite length_reverse in Hbl, Hbr. rewrite <- Hlen in Hbr. rewrite IH by done.
  pose proof (pow64_pos (length l)). set (2 ^ (64 * Z.of_nat (length l))) in *.
  destruct (Z.compare_spec x y) as [->|Hlt|Hgt]; symmetry.
  - destruct (Z.compare_spec (uval (reverse l)) (uval (reverse r)));
      [apply Z.compare_eq_iff|apply Z.compare_lt_iff|apply Z.compare_gt_iff]; nia.
  - apply Z.compare_lt_iff. nia.
  - apply Z.compare_gt_iff. nia.
Qed.

Lemma uint_cmp_spec n l r :
  is_limbs n l → is_limbs n r → uint_cmp l r = (uval l ?= uval r).
Proof.
  intros [Hl Fl] [Hr Fr]. unfold uint_cmp.
  rewrite lex_cmp_spec by (rewrite ?length_reverse; congruence || by apply Forall_reverse).
  by rewrite !reverse_involutive.
Qed.

Lemma uint_geb_spec n l r :
  is_limbs n l → is_limbs n r → uint_geb l r = (uval r <=? uval l).
Proof.
  intros Hl Hr. unfold uint_geb. rewrite (uint_cmp_spec n) by done. unfold Z.leb.
  rewrite (Z.compare_antisym (uval l) (uval r)). by destruct (uval l ?= uval r).
Qed.

(** ** Long division *)

Lemma lor_pow2_add x k : 0 ≤ k → Z.testbit x k = false → Z.lor x (Z.shiftl 1 k) = x + 2 ^ k.
Proof.
  intros Hk Hbit. rewrite Z.shiftl_1_l. rewrite <- Z.lxor_lor, <- Z.add_nocarry_lxor; [done|..].
  all: apply Z.bits_inj'; intros n Hn; rewrite Z.land_spec, Z.bits_0, Z.pow2_bits_eqb by lia;
    destruct (Z.eqb_spec k n) as [->|]; [by rewrite Hbit|apply andb_false_r].
Qed.

Lemma testbit_multiple v s : 0 ≤ s → v mod 2 ^ (s + 1) = 0 → Z.testbit v s = false.
Proof.
  intros Hs Hm. rewrite <- (Z.mod_pow2_bits_low v (s + 1)) by lia. by rewrite Hm, Z.testbit_0_l.
Qed.

(** Setting bit [s] of an array that is a multiple of [2^(s+1)] adds [2^s]. *)
Lemma set_bit_spec n ret (s : nat) :
  is_limbs n ret → (s < 64 * n)%nat → uval ret mod 2 ^ (Z.of_nat s + 1) = 0 →
  let i := (s / 64)%nat in
  let ret' := <[i := Z.lor (limb ret i) (Z.shiftl 1 (Z.of_nat (s mod 64)))]> ret in
  is_limbs n ret' ∧ uval ret' = uval ret + 2 ^ Z.of_nat s.
Proof.
  intros [Hlen Hret] Hs Hm i ret'. pose proof (Nat.div_mod s 64 ltac:(lia)) as Hdm.
  pose proof (Nat.mod_upper_bound s 64 ltac:(lia)).
  assert (i < n)%nat as Hi by (apply Nat.Div0.div_lt_upper_bound; lia).
  apply testbit_multiple in Hm; [|lia].
  replace (Z.of_nat s) with (64 * Z.of_nat i + Z.of_nat (s mod 64)) in Hm by (unfold i; lia).
  rewrite testbit_uval in Hm by (done || lia). split.
  - apply is_limbs_insert; [done|]. apply lor64_range; [auto|]. rewrite Z.shiftl_1_l. split; [lia|].
    apply Z.pow_lt_mono_r; lia.
  - subst ret'. rewrite uval_insert, lor_pow2_add by (done || lia).
    rewrite Z.add_simpl_l, <- Z.pow_add_r by lia. do 2 f_equal. unfold i. lia.
Qed.

(** One step: [ret * d + sub] is kept, [sub] drops below [d * 2^s] and [ret]
    stays a multiple of [2^s]. *)
Lemma div_step_spec n d s sub sc ret :
  is_limbs n sub → is_limbs n sc → is_limbs n ret → (s < 64 * n)%nat →
  uval sc = d * 2 ^ Z.of_nat s → uval sub < 2 * uval sc →
  uval ret mod 2 ^ (Z.of_nat s + 1) = 0 →
  let '(sub', ret') := div_step s sub sc ret in
  is_limbs n sub' ∧ is_limbs n ret' ∧ 0 ≤ uval sub' < uval sc ∧
  uval ret' mod 2 ^ Z.of_nat s = 0 ∧ uval ret' * d + uval sub' = uval ret * d + uval sub.
Proof.
  intros Hsub Hsc Hret Hs Hscv Hlt Hm. unfold div_step. rewrite (uint_geb_spec n) by done.
  pose proof (overflowing_sub_spec n sub sc Hsub Hsc) as Hs'.
  destruct (uint_overflowing_sub sub sc) as [sub' o']; destruct Hs' as (Hsub' & Hsub'v & _); simpl fst.
  pose proof (uval_bound sub (proj2 Hsub)) as Hbs; rewrite (proj1 Hsub) in Hbs.
  pose proof (uval_bound sc (proj2 Hsc)) as Hbc.
  assert (0 < 2 ^ Z.of_nat s) by (apply Z.pow_pos_nonneg; lia).
  assert (uval ret mod 2 ^ Z.of_nat s = 0) as Hm'.
  { apply Z.mod_divide; [lia|]. apply Z.mod_divide in Hm; [|lia].
    etrans; [|exact Hm]. rewrite Z.pow_add_r by lia. by exists (2 ^ 1); lia. }
  destruct (Z.leb_spec (uval sc) (uval sub)) as [Hge|Hl].
  - destruct (set_bit_spec n ret s Hret Hs Hm) as [Hr' Hr'v].
    rewrite Z.mod_small in Hsub'v by lia. split_and!; [done|done|lia..| |].
    + rewrite Hr'v. by rewrite <- Z.add_mod_idemp_r, Z.mod_same, Z.add_0_r by lia.
    + rewrite Hr'v. lia.
  - split_and!; [done|done|lia..|done|done].
Qed.

(** The loop invariant: [ret * d + sub] is the dividend, [ret] a multiple of
    [2^(s+1)], [shift_copy] is [d * 2^s], and the rest is below twice that. *)
Lemma div_loop_spec n d s sub sc ret :
  is_limbs n sub → is_limbs n sc → is_limbs n ret → (s < 64 * n)%nat → (0 < n)%nat →
  0 < d → uval sc = d * 2 ^ Z.of_nat s → uval sub < 2 * uval sc →
  uval ret mod 2 ^ (Z.of_nat s + 1) = 0 →
  let '(q, r) := div_loop s sub sc ret in
  is_limbs n q ∧ is_limbs n r ∧ uval q * d + uval r = uval ret * d + uval sub ∧ 0 ≤ uval r < d.
Proof.
  revert sub sc ret. induction s as [|s IH]; intros sub sc ret Hsub Hsc Hret Hs Hn Hd Hscv Hlt Hm.
  all: cbn [div_loop]; match type of Hs with (?k < _)%nat =>
      pose proof (div_step_spec n d k sub sc ret Hsub Hsc Hret Hs Hscv Hlt Hm) as Hst;
      destruct (div_step k sub sc ret) as [sub' ret'] end.
  all: destruct Hst as (Hsub' & Hret' & Hr & Hm' & He).
  - simpl in Hscv. split_and!; [done|done|done|lia..].
  - pose proof (overflowing_shr_spec n sc 1 Hsc Hn ltac:(lia)) as Hshr.
    destruct (uint_overflowing_shr sc 1) as [sc' o]; destruct Hshr as (Hsc' & _ & Hsc'v).
    rewrite (Z.mod_small 1) in Hsc'v by lia.
    assert (uval sc = uval sc' * 2 ∧ uval sc' = d * 2 ^ Z.of_nat s) as [Hhalf Hsc'd].
    { rewrite Hsc'v, Hscv, Nat2Z.inj_succ, Z.pow_succ_r by lia. change (2 ^ 1) with 2.
      replace (d * (2 * 2 ^ Z.of_nat s)) with (d * 2 ^ Z.of_nat s * 2) by lia.
      rewrite Z.div_mul; lia. }
    rewrite <- He. replace (Z.of_nat (S s)) with (Z.of_nat s + 1) in Hm' by lia.
    apply IH; simpl fst; try done; lia.
Qed.

Lemma bit_length_lt a b : 0 ≤ a → 0 < b → bit_length a < bit_length b → a < b.
Proof.
  intros Ha Hb Hlt. destruct (decide (a = 0)); [lia|].
  pose proof (bit_length_bounds a ltac:(lia)). pose proof (bit_length_bounds b Hb).
  assert (2 ^ bit_length a ≤ 2 ^ (bit_length b - 1)) by (apply Z.pow_le_mono_r; lia). lia.
Qed.

(** Aligning the divisor's top bit with the dividend's loses no bit. *)
Lemma align_bounds a b :
  0 ≤ a → 0 < b → bit_length b ≤ bit_length a →
  let sh := bit_length a - bit_length b in
  a < 2 * (b * 2 ^ sh) ∧ b * 2 ^ sh < 2 ^ bit_length a.
Proof.
  intros Ha Hb Hle sh. pose proof (bit_length_pos b Hb).
  assert (0 < a) as Hpos by (destruct (decide (a = 0)) as [->|]; [change (bit_length 0) with 0 in *|]; lia).
  pose proof (bit_length_bounds a Hpos). pose proof (bit_length_bounds b Hb).
  assert (2 ^ bit_length a = 2 ^ bit_length b * 2 ^ sh) as Hpow.
  { rewrite <- Z.pow_add_r by lia. f_equal. lia. }
  assert (2 ^ bit_length b = 2 * 2 ^ (bit_length b - 1)).
  { rewrite <- Z.pow_succ_r by lia. f_equal. lia. }
  assert (0 < 2 ^ sh) by (apply Z.pow_pos_nonneg; lia). nia.
Qed.

Lemma uint_div_rem_spec n l other :
  is_limbs n l → is_limbs n other → (0 < n)%nat →
  if uval other =? 0 then uint_div_rem l other = Panic
  else ∃ q r, uint_div_rem l other = Ok (q, r) ∧ is_limbs n q ∧ is_limbs n r ∧
              uval q = uval l / uval other ∧ uval r = uval l mod uval other.
Proof.
  intros Hl Ho Hn. unfold uint_div_rem. rewrite !(uint_bits_spec n) by done.
  pose proof (uval_bound l (proj2 Hl)) as Hbl. rewrite (proj1 Hl) in *.
  pose proof (uval_bound other (proj2 Ho)) as Hbo.
  destruct (Z.eqb_spec (uval other) 0) as [->|Hne]; [done|].
  pose proof (bit_length_pos (uval other) ltac:(lia)) as Hop.
  rewrite (proj2 (Z.eqb_neq (bit_length _) 0)) by lia.
  destruct (Z.ltb_spec (bit_length (uval l)) (bit_length (uval other))) as [Hlt|Hge].
  { apply bit_length_lt in Hlt; [|lia..]. eexists _, _.
    split_and!; [done|apply is_limbs_replicate|done|..].
    - rewrite Z.div_small by lia. apply uval_replicate.
    - by rewrite Z.mod_small by lia. }
  pose proof (bit_length_le (uval l) (64 * Z.of_nat n) ltac:(lia) ltac:(lia)) as Hll.
  pose proof (align_bounds (uval l) (uval other) ltac:(lia) ltac:(lia) Hge) as [Hal1 Hal2].
  set (sh := bit_length (uval l) - bit_length (uval other)) in *.
  pose proof (overflowing_shl_spec n other sh Ho Hn ltac:(lia)) as Hshl.
  destruct (uint_overflowing_shl other sh) as [sc o]. destruct Hshl as (Hsc & _ & Hscv).
  assert (2 ^ bit_length (uval l) ≤ 2 ^ (64 * Z.of_nat n)) by (apply Z.pow_le_mono_r; lia).
  assert (0 < 2 ^ sh) by (apply Z.pow_pos_nonneg; lia).
  rewrite (Z.mod_small sh), Z.mod_small in Hscv by nia. simpl fst.
  pose proof (div_loop_spec n (uval other) (Z.to_nat sh) l sc (uint_zero n) Hl Hsc
    (is_limbs_replicate n)) as Hdl. unfold uint_zero in *.
  rewrite uval_replicate, Z.mod_0_l, Z2Nat.id in Hdl by first [apply Z.pow_nonzero; lia|lia].
  specialize (Hdl ltac:(lia) Hn ltac:(lia) Hscv ltac:(lia) eq_refl).
  destruct (div_loop _ _ _ _) as [q r]. destruct Hdl as (Hq & Hr & He & Hrb).
  exists q, r. split_and!; [done|done|done|..].
  - apply (Z.div_unique_pos _ _ _ (uval r)); lia.
  - apply (Z.mod_unique_pos _ _ (uval q)); lia.
Qed.

(** ** Byte encodings *)

Lemma bytes_inj l k :
  is_bytes l → is_bytes k → length l = length k → of_le_bytes l = of_le_bytes k → l = k.
Proof.
  intros Hl Hk Hlen He. rewrite <- (le_bytes_of_le_bytes l), <- (le_bytes_of_le_bytes k) by done.
  by rewrite He, Hlen.
Qed.

Lemma of_le_bytes_word x l :
  in_u 64 x → of_le_bytes (le_bytes 8 x ++ l) = x + 2 ^ 64 * of_le_bytes l.
Proof.
  intros Hx. rewrite of_le_bytes_app, of_le_bytes_le_bytes by done.
  by rewrite length_le_bytes.
Qed.

Lemma uint_to_le_bytes_spec n l : is_limbs n l → uint_to_le_bytes l = le_bytes (8 * n) (uval l).
Proof.
  intros [<- Hl]. unfold uint_to_le_bytes.
  assert (length (concat (le_bytes 8 <$> l)) = 8 * length l)%nat as Hlen.
  { clear Hl. induction l as [|x l IH]; [done|].
    rewrite fmap_cons, concat_cons, length_app, IH, length_le_bytes. cbn [length]. lia. }
  assert (is_bytes (concat (le_bytes 8 <$> l))) as Hb.
  { clear Hl Hlen. induction l as [|x l IH]; [constructor|].
    rewrite fmap_cons, concat_cons. apply is_bytes_app. split; [apply le_bytes_is_bytes|done]. }
  rewrite <- Hlen. rewrite <- (le_bytes_of_le_bytes (concat (le_bytes 8 <$> l))) at 1 by done.
  f_equal. clear Hlen Hb. induction Hl as [|x l Hx Hl IH]; [done|].
  rewrite fmap_cons, concat_cons, uval_cons, of_le_bytes_word by done. by rewrite IH.
Qed.

Lemma reverse_concat_map {A B} (f : A → list B) l :
  concat ((λ x, reverse (f x)) <$> reverse l) = reverse (concat (f <$> l)).
Proof.
  induction l as [|x l IH]; [done|]. rewrite reverse_cons, fmap_app, concat_app, IH.
  csimpl. by rewrite app_nil_r, reverse_app.
Qed.

Lemma uint_to_be_bytes_spec n l : is_limbs n l → uint_to_be_bytes l = be_bytes (8 * n) (uval l).
Proof.
  intros Hl. unfold uint_to_be_bytes, be_bytes at 2. rewrite <- uint_to_le_bytes_spec by done.
  apply reverse_concat_map.
Qed.

Lemma words_of_le_bytes n bs :
  is_array (8 * n) bs →
  is_limbs n (words_of_bytes of_le_bytes n bs) ∧
  uval (words_of_bytes of_le_bytes n bs) = of_le_bytes bs.
Proof.
  revert bs; induction n as [|n IH]; intros bs [Hlen Hb].
  { by destruct bs. }
  cbn [words_of_bytes]. destruct (IH (drop 8 bs)) as [[Hl Hf] Hv].
  { split; [rewrite length_drop; lia|by apply is_bytes_drop]. }
  assert (length (take 8 bs) = 8%nat) as Ht by (rewrite length_take; lia).
  pose proof (of_le_bytes_bound (take 8 bs) (is_bytes_take 8 bs Hb)) as Hr. rewrite Ht in Hr.
  split; [split; simpl; [by rewrite Hl|by constructor]|].
  rewrite uval_cons, Hv. rewrite <- (take_drop 8 bs) at 3. by rewrite of_le_bytes_app, Ht.
Qed.

Lemma words_of_be_bytes n bs :
  is_array (8 * n) bs →
  is_limbs n (uint_from_be_bytes n bs) ∧ uval (uint_from_be_bytes n bs) = of_be_bytes bs.
Proof.
  unfold uint_from_be_bytes. revert bs; induction n as [|n IH]; intros bs [Hlen Hb].
  { by destruct bs. }
  cbn [words_of_bytes]. destruct (IH (drop 8 bs)) as [[Hl Hf] Hv].
  { split; [rewrite length_drop; lia|by apply is_bytes_drop]. }
  assert (length (take 8 bs) = 8%nat) as Ht by (rewrite length_take; lia).
  pose proof (of_be_bytes_bound (take 8 bs) (is_bytes_take 8 bs Hb)) as Hr. rewrite Ht in Hr.
  rewrite reverse_cons. split.
  - split; [rewrite length_app, Hl; simpl; lia|]. apply Forall_app. split; [done|by constructor].
  - rewrite uval_app, Hv, uval_cons, uval_nil, Hl. rewrite <- (take_drop 8 bs) at 3.
    unfold of_be_bytes. rewrite reverse_app, of_le_bytes_app, length_reverse, length_drop, Hlen.
    replace (8 * Z.of_nat (8 * S n - 8)) with (64 * Z.of_nat n) by lia. lia.
Qed.

(** ** Division by a word *)

Lemma div_words_spec l x rem :
  Forall (in_u 64) l → in_u 64 x → 0 ≤ rem < x →
  let '(q, r) := div_words l x rem in
  length q = length l ∧ Forall (in_u 64) q ∧ 0 ≤ r < x ∧
  rem * 2 ^ (64 * Z.of_nat (length l)) + uval (reverse l) = uval (reverse q) * x + r.
Proof.
  intros Hl Hx. revert rem; induction Hl as [|d l Hd Hl IH]; intros rem Hrem; cbn [div_words].
  { rewrite reverse_nil, uval_nil. split_and!; [done|apply Forall_nil_2|lia|lia|simpl; lia]. }
  unfold in_u in *.
  rewrite Z.lor_comm, lor_shiftl_add by lia.
  replace (d + 2 ^ 64 * rem) with (rem * 2 ^ 64 + d) by lia.
  set (m := rem * 2 ^ 64 + d) in *.
  pose proof (Z.mod_pos_bound m x ltac:(lia)) as Hm.
  pose proof (Z.div_mod m x ltac:(lia)) as Hdm.
  specialize (IH (m mod x) Hm). destruct (div_words l x (m mod x)) as [q r].
  destruct IH as (Hlen & Hq & Hr & He). rewrite !reverse_cons, !uval_app, !uval_cons, !uval_nil.
  rewrite !length_reverse. cbn [length]. rewrite pow64_S, Hlen.
  split_and!; [done| |lia..|].
  - constructor; [|done]. split; [apply Z.div_pos; lia|]. apply Z.div_lt_upper_bound; [lia|]. nia.
  - transitivity (m * 2 ^ (64 * Z.of_nat (length l)) + uval (reverse l)); [subst m; lia|].
    rewrite Hdm at 1. lia.
Qed.

Lemma uint_div_rem_u64_spec n l x :
  is_limbs n l → in_u 64 x → 0 < x →
  ∃ q, uint_div_rem_u64 l x = Ok (q, uval l mod x) ∧ is_limbs n q ∧ uval q = uval l / x.
Proof.
  intros [Hlen Hl] Hx Hpos. unfold uint_div_rem_u64. rewrite (proj2 (Z.eqb_neq x 0)), andb_false_r by lia.
  pose proof (div_words_spec (reverse l) x 0 (proj2 (Forall_reverse _ l) Hl) Hx ltac:(lia)) as Hs.
  destruct (div_words (reverse l) x 0) as [q r]. destruct Hs as (Hq & Fq & Hr & He).
  rewrite reverse_involutive, length_reverse in *. exists (reverse q). split_and!.
  - do 2 f_equal. apply (Z.mod_unique_pos _ _ (uval (reverse q))); lia.
  - split; [by rewrite length_reverse, Hq|]. by apply Forall_reverse.
  - apply (Z.div_unique_pos _ _ _ r); lia.
Qed.

(** ** Conversions *)

Lemma uint_from_u64_spec n x :
  in_u 64 x → is_limbs (S n) (uint_from_u64 (S n) x) ∧ uval (uint_from_u64 (S n) x) = x.
Proof.
  intros Hx. unfold uint_from_u64, uint_zero. split.
  - apply is_limbs_insert; [apply is_limbs_replicate|done].
  - rewrite uval_insert by (rewrite length_replicate; lia). rewrite uval_replicate.
    unfold limb. simpl. lia.
Qed.

Lemma uint_from_u128_spec n x :
  in_u 128 x → is_limbs (S (S n)) (uint_from_u128 (S (S n)) x) ∧
  uval (uint_from_u128 (S (S n)) x) = x.
Proof.
  intros Hx. pose proof (shiftr64_bound x Hx). unfold uint_from_u128, uint_zero. split.
  - by repeat apply is_limbs_insert; [apply is_limbs_replicate|..].
  - rewrite !uval_insert by (rewrite ?length_insert, length_replicate; lia).
    rewrite uval_replicate, limb_insert. unfold limb. simpl nth.
    rewrite bool_decide_eq_false_2 by lia. rewrite (split64 x) at 3. simpl. lia.
Qed.

Lemma uint_as_u128_spec l :
  Forall (in_u 64) l → uint_as_u128 l = uval l mod 2 ^ 128.
Proof.
  intros Hl. unfold uint_as_u128. apply Z.bits_inj'. intros k Hk.
  rewrite Z.lor_spec, Z.shiftl_spec by done. destruct (decide (k < 64)).
  - rewrite (Z.testbit_neg_r (limb l 1)) by lia. rewrite orb_false_r, Z.mod_pow2_bits_low by lia.
    by rewrite <- (testbit_uval l 0 k) by (done || lia).
  - rewrite (testbit_high 64 (limb l 0)) by (auto || lia). rewrite orb_false_l.
    destruct (decide (k < 128)).
    + rewrite Z.mod_pow2_bits_low by lia.
      rewrite <- (testbit_uval l 1 (k - 64)) by (done || lia). f_equal. lia.
    + rewrite Z.mod_pow2_bits_high by lia. apply (testbit_high 64); [auto|lia].
Qed.

Lemma uint_as_u64_spec l : Forall (in_u 64) l → uint_as_u64 l = uval l mod 2 ^ 64.
Proof.
  intros Hl. destruct Hl as [|x l Hx Hl]; [done|]. rewrite uval_cons. unfold uint_as_u64, limb.
  rewrite Z.mul_comm, Z.mod_add by lia. by rewrite Z.mod_small.
Qed.

Lemma skip_zeros_value l : of_be_bytes (skip_zeros l) = of_be_bytes l.
Proof.
  induction l as [|b l IH]; simpl; [done|]. destruct (Z.eqb_spec b 0) as [->|]; [|done].
  rewrite IH. unfold of_be_bytes. rewrite reverse_cons, of_le_bytes_app. simpl. lia.
Qed.

Lemma skip_zeros_sub l : is_bytes l → is_bytes (skip_zeros l) ∧ (length (skip_zeros l) ≤ length l)%nat.
Proof.
  induction 1 as [|b l Hb Hl [IH1 IH2]]; simpl; [split; [constructor|lia]|].
  destruct (Z.eqb_spec b 0); simpl; (split; [|lia]); [done|by constructor].
Qed.

Lemma of_be_bytes_pad k l : of_be_bytes (replicate k 0 ++ l) = of_be_bytes l.
Proof.
  induction k as [|k IH]; simpl; [done|]. rewrite <- IH. unfold of_be_bytes.
  rewrite reverse_cons, of_le_bytes_app. simpl. lia.
Qed.

Lemma uval_max n : uval (uint_max n) = 2 ^ (64 * Z.of_nat n) - 1.
Proof.
  unfold uint_max. induction n as [|n IH]; [done|]. cbn [replicate]. rewrite uval_cons, IH, pow64_S. lia.
Qed.

(** ** Theorems *)

(** Machine arithmetic of the big integers is exact: for any width the
    sum, difference, product by a word and full product are those of the
    integers modulo 2^(64 n); the overflow flags of addition, subtraction and
    word multiplication are raised exactly on overflow, and the saturating
    operations clamp to 0 and to the maximum. *)
Theorem uint_arith_exact n l r x :
  is_limbs (S n) l → is_limbs (S n) r → in_u 64 x →
  let M := 2 ^ (64 * Z.of_nat (S n)) in
  uval (uint_overflowing_add l r).1 = (uval l + uval r) mod M ∧
  ((uint_overflowing_add l r).2 = true ↔ M ≤ uval l + uval r) ∧
  uval (uint_overflowing_add_u64 l x).1 = (uval l + x) mod M ∧
  ((uint_overflowing_add_u64 l x).2 = true ↔ M ≤ uval l + x) ∧
  uval (uint_overflowing_sub l r).1 = (uval l - uval r) mod M ∧
  ((uint_overflowing_sub l r).2 = true ↔ uval l < uval r) ∧
  uval (uint_saturating_add l r) = Z.min (M - 1) (uval l + uval r) ∧
  uval (uint_saturating_sub l r) = Z.max 0 (uval l - uval r) ∧
  uval (uint_overflowing_mul_u64 l x).1 = (uval l * x) mod M ∧
  ((uint_overflowing_mul_u64 l x).2 = true ↔ M ≤ uval l * x) ∧
  uval (uint_overflowing_mul l r).1 = (uval l * uval r) mod M.
Proof.
  intros Hl Hr Hx M. unfold uint_saturating_add, uint_saturating_sub.
  pose proof (overflowing_add_spec _ _ _ Hl Hr) as Ha.
  pose proof (overflowing_add_u64_spec _ _ _ Hl Hx) as Hau.
  pose proof (overflowing_sub_spec _ _ _ Hl Hr) as Hs.
  pose proof (overflowing_mul_u64_spec _ _ _ Hl Hx) as Hmu.
  pose proof (overflowing_mul_spec _ _ _ Hl Hr) as Hm.
  destruct (uint_overflowing_add l r) as [a ca], (uint_overflowing_add_u64 l x) as [au cau],
    (uint_overflowing_sub l r) as [s cs], (uint_overflowing_mul_u64 l x) as [mu cmu],
    (uint_overflowing_mul l r) as [m cm].
  destruct Ha as (_ & Ha & ->), Hau as (_ & Hau & ->), Hs as (_ & Hs & ->),
    Hmu as (_ & Hmu & ->), Hm as (_ & Hm & _). simpl. fold M in Ha, Hau, Hs, Hmu, Hm |- *.
  pose proof (uval_bound l (proj2 Hl)) as Hbl. pose proof (uval_bound r (proj2 Hr)) as Hbr.
  rewrite (proj1 Hl) in Hbl. rewrite (proj1 Hr) in Hbr. fold M in Hbl, Hbr.
  rewrite !Z.leb_le, Z.ltb_lt. split_and!; try done.
  - destruct (Z.leb_spec M (uval l + uval r)).
    + rewrite uval_max, (proj1 Hl). fold M. lia.
    + rewrite Ha, Z.mod_small by lia. lia.
  - destruct (Z.ltb_spec (uval l) (uval r)).
    + unfold uint_zero. rewrite uval_replicate. lia.
    + rewrite Hs, Z.mod_small by lia. lia.
Qed.

(** Long division is division: over arrays of [n] words, [div_rem] panics
    exactly on a zero divisor and otherwise returns the quotient and the
    remainder, and so does [div_rem_u64] for a non-zero word. *)
Theorem uint_div_rem_correct n l d x :
  is_limbs n l → is_limbs n d → (0 < n)%nat → in_u 64 x → 0 < x →
  (uint_div_rem l d = Panic ↔ uval d = 0) ∧
  (uval d ≠ 0 → ∃ q r, uint_div_rem l d = Ok (q, r) ∧ is_limbs n q ∧ is_limbs n r ∧
                       uval q = uval l / uval d ∧ uval r = uval l mod uval d) ∧
  (∃ q, uint_div_rem_u64 l x = Ok (q, uval l mod x) ∧ is_limbs n q ∧ uval q = uval l / x).
Proof.
  intros Hl Hd Hn Hx Hpos. pose proof (uint_div_rem_spec n l d Hl Hd Hn) as Hs.
  split_and!.
  - destruct (Z.eqb_spec (uval d) 0); [done|]. destruct Hs as (q & r & -> & _). done.
  - intros Hne. by rewrite (proj2 (Z.eqb_neq _ 0)) in Hs.
  - by apply uint_div_rem_u64_spec.
Qed.

(** Shifts and bit counts: a left shift multiplies by the power of two
    modulo the width, a right shift divides, both by the amount reduced modulo
    the width and flagged when it was reduced; [bits] is the bit length; the
    order of the arrays is the order of their values. *)
Theorem uint_shift_order_correct n l r s :
  is_limbs n l → is_limbs n r → (0 < n)%nat → 0 ≤ s →
  let W := 64 * Z.of_nat n in
  uint_overflowing_shl l s = ((uint_overflowing_shl l s).1, W <=? s) ∧
  uint_overflowing_shr l s = ((uint_overflowing_shr l s).1, W <=? s) ∧
  uval (uint_overflowing_shl l s).1 = (uval l * 2 ^ (s mod W)) mod 2 ^ W ∧
  uval (uint_overflowing_shr l s).1 = uval l / 2 ^ (s mod W) ∧
  uint_bits l = bit_length (uval l) ∧
  uint_cmp l r = (uval l ?= uval r).
Proof.
  intros Hl Hr Hn Hs W. pose proof (overflowing_shl_spec n l s Hl Hn Hs) as Hshl.
  pose proof (overflowing_shr_spec n l s Hl Hn Hs) as Hshr.
  destruct (uint_overflowing_shl l s), (uint_overflowing_shr l s). simpl.
  destruct Hshl as (_ & -> & ?), Hshr as (_ & -> & ?).
  split_and!; try done; [by eapply uint_bits_spec|by eapply uint_cmp_spec].
Qed.

(** Byte encodings round trip: the little- and big-endian encodings are
    those of the value, decoding inverts encoding, and the variable-length
    big-endian form without leading zeros decodes back. *)
Theorem uint_bytes_roundtrip n l :
  is_limbs n l →
  uint_to_le_bytes l = le_bytes (8 * n) (uval l) ∧
  uint_to_be_bytes l = be_bytes (8 * n) (uval l) ∧
  uint_from_le_bytes n (uint_to_le_bytes l) = l ∧
  uint_from_be_bytes n (uint_to_be_bytes l) = l ∧
  uint_from_be_bytes_var n (uint_to_be_bytes_var l) = Ok l.
Proof.
  intros Hl. pose proof (uval_bound l (proj2 Hl)) as Hb. rewrite (proj1 Hl) in Hb.
  assert (in_u (8 * Z.of_nat (8 * n)) (uval l)) as Hu.
  { unfold in_u. by replace (8 * Z.of_nat (8 * n)) with (64 * Z.of_nat n) by lia. }
  rewrite (uint_to_le_bytes_spec n), (uint_to_be_bytes_spec n) by done.
  assert (is_array (8 * n) (be_bytes (8 * n) (uval l))) as Hbe
    by (split; [apply length_be_bytes|apply be_bytes_is_bytes]).
  assert (∀ k, is_limbs n k → uval k = uval l → k = l) as Hinj.
  { intros k [Hk Fk] He. destruct Hl as [Hl Fl]. by apply uval_inj; [congruence|..]. }
  split_and!; try done.
  - destruct (words_of_le_bytes n (le_bytes (8 * n) (uval l))) as [Hk Hv].
    { split; [apply length_le_bytes|apply le_bytes_is_bytes]. }
    apply Hinj; [done|]. unfold uint_from_le_bytes. by rewrite Hv, of_le_bytes_le_bytes.
  - destruct (words_of_be_bytes n _ Hbe) as [Hk Hv]. apply Hinj; [done|].
    by rewrite Hv, of_be_bytes_be_bytes.
  - unfold uint_from_be_bytes_var, uint_to_be_bytes_var. rewrite (uint_to_be_bytes_spec n) by done.
    destruct (skip_zeros_sub _ (proj2 Hbe)) as [Hsb Hsl]. rewrite (proj1 Hbe) in Hsl.
    rewrite (proj2 (Nat.ltb_ge _ _)) by done. f_equal.
    destruct (words_of_be_bytes n (replicate (8 * n - length (skip_zeros (be_bytes (8 * n) (uval l)))) 0 ++
      skip_zeros (be_bytes (8 * n) (uval l)))) as [Hk Hv].
    { split; [rewrite length_app, length_replicate; lia|]. apply is_bytes_app. split; [|done].
      apply Forall_replicate. unfold in_u. lia. }
    apply Hinj; [done|]. by rewrite Hv, of_be_bytes_pad, skip_zeros_value, of_be_bytes_be_bytes.
Qed.

(** The flag of the full product is not an overflow test: multiplying
    2^192 by 2^64 as 256-bit integers overflows, yet [overflowing_mul] returns
    zero with the flag clear, because limb products beyond the width are never
    formed. A raised flag, though, always means overflow. *)
Theorem overflowing_mul_misses_overflow :
  uint_overflowing_mul [0; 0; 0; 1] [0; 1; 0; 0] = ([0; 0; 0; 0], false) ∧
  uval [0; 0; 0; 1] * uval [0; 1; 0; 0] = 2 ^ 256 ∧
  ∀ n l r, is_limbs n l → is_limbs n r →
    (uint_overflowing_mul l r).2 = true → 2 ^ (64 * Z.of_nat n) ≤ uval l * uval r.
Proof.
  split_and!; [done|done|]. intros n l r Hl Hr Hf. pose proof (overflowing_mul_spec n l r Hl Hr) as Hs.
  destruct (uint_overflowing_mul l r) as [p c]. naive_solver.
Qed.

(** Witnesses at 256 bits. *)
Lemma limbs4 a b c d :
  in_u 64 a → in_u 64 b → in_u 64 c → in_u 64 d → is_limbs 4 [a; b; c; d].
Proof. split; [done|]. by rewrite !Forall_cons, Forall_nil. Qed.

Lemma uint_arith_exact_witness :
  uval (uint_saturating_add [2 ^ 64 - 1; 2 ^ 64 - 1; 2 ^ 64 - 1; 2 ^ 64 - 1] [2; 0; 0; 0]) = 2 ^ 256 - 1.
Proof.
  assert (is_limbs 4 [2 ^ 64 - 1; 2 ^ 64 - 1; 2 ^ 64 - 1; 2 ^ 64 - 1]) as H1
    by (apply limbs4; unfold in_u; lia).
  assert (is_limbs 4 [2; 0; 0; 0]) as H2 by (apply limbs4; unfold in_u; lia).
  destruct (uint_arith_exact 3 _ _ 5 H1 H2 ltac:(unfold in_u; lia)) as (_ & _ & _ & _ & _ & _ & Hs & _).
  rewrite Hs. reflexivity.
Defined.

Lemma uint_div_rem_correct_witness :
  ∃ q r, uint_div_rem [7; 0; 1; 0] [10; 0; 0; 0] = Ok (q, r) ∧ is_limbs 4 q ∧ is_limbs 4 r ∧
         uval q = (7 + 2 ^ 128) / 10 ∧ uval r = (7 + 2 ^ 128) mod 10.
Proof.
  apply (uint_div_rem_correct 4 [7; 0; 1; 0] [10; 0; 0; 0] 3);
    [apply limbs4; unfold in_u; lia|apply limbs4; unfold in_u; lia|lia|unfold in_u; lia|lia|done].
Defined.

Lemma uint_shift_order_correct_witness :
  uint_bits [0; 0; 5; 0] = 131 ∧ uint_cmp [0; 0; 5; 0] [9; 9; 4; 0] = Gt.
Proof.
  apply (uint_shift_order_correct 4 [0; 0; 5; 0] [9; 9; 4; 0] 70);
    [apply limbs4; unfold in_u; lia|apply limbs4; unfold in_u; lia|lia|lia].
Defined.

Lemma uint_bytes_roundtrip_witness :
  uint_from_be_bytes_var 4 (uint_to_be_bytes_var [300; 1; 0; 0]) = Ok [300; 1; 0; 0].
Proof. apply (uint_bytes_roundtrip 4). apply limbs4; unfold in_u; lia. Defined.
