(* ===== verification/CompactTarget.v ===== *)
(** * Compact difficulty targets (math/src/lib.rs)

    The 32-bit floating encoding of 256-bit targets in block headers, over the
    [Uint256] of [Uint]: what decoding an encoded target loses, and that
    re-encoding is stable. *)

From S2P Require Import Prelude Bytes Limbs Uint.

(** [Uint256] is [construct_uint!(Uint256, 4)]. *)
Definition LIMBS256 : nat := 4.

Definition compact_parts (bits : Z) : Z * Z :=
  let unshifted_expt := Z.shiftr bits 24 in
  if unshifted_expt <=? 3
  then (Z.shiftr (Z.land bits 0xFFFFFF) (8 * (3 - unshifted_expt)), 0)
  else (Z.land bits 0xFFFFFF, 8 * (Z.shiftr bits 24 - 3)).

(** [<<] keeps the low 256 bits of a shift by the amount modulo 256. *)
Definition from_compact_target_bits (bits : Z) : list Z :=
  let '(mant, expt) := compact_parts bits in
  if 0x7FFFFF <? mant then uint_zero LIMBS256
  else (uint_overflowing_shl (uint_from_u64 LIMBS256 mant) expt).1.

Definition div_ceil (a b : Z) : Z := let d := a / b in if 0 <? a mod b then d + 1 else d.

Definition compact_target_bits (self : list Z) : Z :=
  let size := div_ceil (uint_bits self) 8 in
  let compact :=
    if size <=? 3 then shl64 (uint_as_u64 self) (8 * (3 - size)) mod 2 ^ 32
    else uint_as_u64 (uint_overflowing_shr self (8 * (size - 3))).1 mod 2 ^ 32 in
  let '(compact, size) :=
    if negb (Z.land compact 0x00800000 =? 0) then (Z.shiftr compact 8, size + 1)
    else (compact, size) in
  Z.lor compact (Z.shiftl size 24).

(** ** The encoding in terms of values *)

(** The size in bytes the encoding uses: one more than the byte length when
    the top bit of the leading byte is set. *)
Definition compact_size (v : Z) : Z := bit_length v / 8 + 1.

(** [v] with its bytes below the three-byte mantissa cleared. *)
Definition compact_floor (v : Z) : Z :=
  let k := 8 * Z.max 0 (compact_size v - 3) in v / 2 ^ k * 2 ^ k.

(** The mantissa the encoding stores. *)
Definition compact_mantissa (v : Z) : Z :=
  if compact_size v <=? 3 then v * 2 ^ (8 * (3 - compact_size v))
  else v / 2 ^ (8 * (compact_size v - 3)).

Lemma land_bit23 c : 0 ≤ c < 2 ^ 24 → (Z.land c 0x00800000 =? 0) = (c <? 2 ^ 23).
Proof.
  intros Hc. change 0x00800000 with (2 ^ 23).
  assert (Z.testbit c 23 = negb (c <? 2 ^ 23)) as Hbit.
  { destruct (Z.ltb_spec c (2 ^ 23)); cbn [negb].
    - apply (testbit_above c 23); lia.
    - apply Z.testbit_true; [lia|]. replace (c / 2 ^ 23) with 1; [done|].
      apply (Z.div_unique_pos _ _ _ (c - 2 ^ 23)); lia. }
  destruct (Z.ltb_spec c (2 ^ 23)); cbn [negb] in Hbit.
  - apply Z.eqb_eq, Z.bits_inj'. intros n Hn. rewrite Z.land_spec, Z.pow2_bits_eqb, Z.bits_0 by lia.
    destruct (Z.eqb_spec 23 n) as [<-|]; [by rewrite Hbit|apply andb_false_r].
  - apply Z.eqb_neq. intros H0. assert (Z.testbit (Z.land c (2 ^ 23)) 23 = true) as Ht.
    { by rewrite Z.land_spec, Hbit, Z.pow2_bits_true. }
    by rewrite H0, Z.testbit_0_l in Ht.
Qed.

(** A value of bit length [b] scaled to [t] bits lies in the top half of [2^t]. *)
Lemma scaled_bounds v t :
  0 < v → 0 < t →
  let b := bit_length v in
  let m := if b <=? t then v * 2 ^ (t - b) else v / 2 ^ (b - t) in
  2 ^ (t - 1) ≤ m < 2 ^ t.
Proof.
  intros Hv Ht b m. pose proof (bit_length_bounds v Hv) as Hb. fold b in Hb.
  pose proof (bit_length_pos v Hv) as Hp. fold b in Hp.
  subst m. destruct (Z.leb_spec b t).
  - assert (0 < 2 ^ (t - b)) by (apply Z.pow_pos_nonneg; lia).
    replace (2 ^ (t - 1)) with (2 ^ (b - 1) * 2 ^ (t - b))
      by (rewrite <- Z.pow_add_r by lia; f_equal; lia).
    replace (2 ^ t) with (2 ^ b * 2 ^ (t - b)) by (rewrite <- Z.pow_add_r by lia; f_equal; lia). nia.
  - assert (0 < 2 ^ (b - t)) by (apply Z.pow_pos_nonneg; lia). split.
    + apply Z.div_le_lower_bound; [lia|]. rewrite <- Z.pow_add_r by lia.
      replace (b - t + (t - 1)) with (b - 1) by lia. lia.
    + apply Z.div_lt_upper_bound; [lia|]. rewrite <- Z.pow_add_r by lia.
      replace (b - t + t) with b by lia. lia.
Qed.

Lemma compact_mantissa_bounds v : 0 < v → 2 ^ 15 ≤ compact_mantissa v < 2 ^ 23.
Proof.
  intros Hv. set (t := 16 + bit_length v mod 8).
  pose proof (Z.mod_pos_bound (bit_length v) 8 ltac:(lia)) as Hm.
  pose proof (Z.div_mod (bit_length v) 8 ltac:(lia)) as Hdm.
  pose proof (scaled_bounds v t Hv ltac:(lia)) as Hb. cbn zeta in Hb.
  assert (compact_mantissa v = if bit_length v <=? t then v * 2 ^ (t - bit_length v)
                               else v / 2 ^ (bit_length v - t)) as ->.
  { unfold compact_mantissa, compact_size.
    destruct (Z.leb_spec (bit_length v / 8 + 1) 3), (Z.leb_spec (bit_length v) t); try lia;
      repeat f_equal; lia. }
  assert (2 ^ 15 ≤ 2 ^ (t - 1)) by (apply Z.pow_le_mono_r; lia).
  assert (2 ^ t ≤ 2 ^ 23) by (apply Z.pow_le_mono_r; lia). lia.
Qed.

(** The three-byte window before the sign adjustment. *)
Definition compact_window (v size : Z) : Z :=
  if size <=? 3 then v * 2 ^ (8 * (3 - size)) else v / 2 ^ (8 * (size - 3)).

Lemma compact_window_code l size :
  is_limbs 4 l → 0 ≤ size → 0 ≤ compact_window (uval l) size < 2 ^ 24 → 8 * (size - 3) < 256 →
  (if size <=? 3 then shl64 (uint_as_u64 l) (8 * (3 - size)) mod 2 ^ 32
   else uint_as_u64 (uint_overflowing_shr l (8 * (size - 3))).1 mod 2 ^ 32) =
  compact_window (uval l) size.
Proof.
  intros Hl Hs Hb Hlt. unfold compact_window in *. destruct (Z.leb_spec size 3).
  - rewrite uint_as_u64_spec by apply Hl. unfold shl64. rewrite Z.shiftl_mul_pow2 by lia.
    rewrite Z.mul_mod_idemp_l by lia.
    rewrite (Z.mod_small (uval l * _)) by lia. apply Z.mod_small. lia.
  - pose proof (overflowing_shr_spec 4 l (8 * (size - 3)) Hl ltac:(lia) ltac:(lia)) as Hshr.
    destruct (uint_overflowing_shr l (8 * (size - 3))) as [r o]. destruct Hshr as (Hr & _ & Hv).
    simpl fst. rewrite uint_as_u64_spec, Hv by apply Hr.
    rewrite (Z.mod_small (8 * (size - 3))) by lia. rewrite (Z.mod_small (uval l / _)) by lia.
    apply Z.mod_small. lia.
Qed.

Lemma div_ceil_8 b : div_ceil b 8 = if b mod 8 =? 0 then b / 8 else b / 8 + 1.
Proof.
  unfold div_ceil. pose proof (Z.mod_pos_bound b 8 ltac:(lia)).
  destruct (Z.ltb_spec 0 (b mod 8)), (Z.eqb_spec (b mod 8) 0); lia.
Qed.

Lemma compact_window_bounds v :
  0 < v → let size := div_ceil (bit_length v) 8 in
  0 ≤ compact_window v size < 2 ^ 24 ∧
  (compact_window v size <? 2 ^ 23) = negb (bit_length v mod 8 =? 0).
Proof.
  intros Hv size. subst size. rewrite div_ceil_8.
  pose proof (Z.mod_pos_bound (bit_length v) 8 ltac:(lia)).
  pose proof (Z.div_mod (bit_length v) 8 ltac:(lia)).
  set (size := if bit_length v mod 8 =? 0 then bit_length v / 8 else _).
  set (t := bit_length v - 8 * (size - 3)).
  assert (17 ≤ t ≤ 24 ∧ (bit_length v mod 8 = 0 ↔ t = 24)) as [Ht Hiff]
    by (subst t size; destruct (Z.eqb_spec (bit_length v mod 8) 0); lia).
  pose proof (scaled_bounds v t Hv ltac:(lia)) as Hb. cbn zeta in Hb.
  assert (compact_window v size = if bit_length v <=? t then v * 2 ^ (t - bit_length v)
                                  else v / 2 ^ (bit_length v - t)) as ->.
  { unfold compact_window. destruct (Z.leb_spec size 3), (Z.leb_spec (bit_length v) t); try lia;
      repeat f_equal; lia. }
  assert (2 ^ t ≤ 2 ^ 24) by (apply Z.pow_le_mono_r; lia).
  assert (0 < 2 ^ (t - 1)) by (apply Z.pow_pos_nonneg; lia).
  split; [lia|]. destruct (Z.eqb_spec (bit_length v mod 8) 0) as [Hz|Hz]; cbn [negb].
  - apply Z.ltb_ge. replace t with 24 in * by lia. change (24 - 1) with 23 in Hb. lia.
  - apply Z.ltb_lt. assert (2 ^ t ≤ 2 ^ 23) by (apply Z.pow_le_mono_r; lia). lia.
Qed.

Lemma compact_window_shift v :
  0 < v → bit_length v mod 8 = 0 →
  Z.shiftr (compact_window v (bit_length v / 8)) 8 = compact_mantissa v.
Proof.
  intros Hv Hz. rewrite Z.shiftr_div_pow2 by lia. unfold compact_window, compact_mantissa, compact_size.
  set (s := bit_length v / 8). destruct (Z.leb_spec s 3), (Z.leb_spec (s + 1) 3); try lia.
  - replace (8 * (3 - s)) with (8 * (3 - (s + 1)) + 8) by lia. rewrite Z.pow_add_r by lia.
    by rewrite Z.mul_assoc, Z.div_mul by lia.
  - replace s with 3 by lia. simpl. by rewrite Z.mul_1_r.
  - rewrite Z.div_div by (try apply Z.pow_pos_nonneg; lia). rewrite <- Z.pow_add_r by lia.
    f_equal. f_equal. lia.
Qed.

(** The encoder, in terms of the value. *)
Lemma compact_target_bits_spec l :
  is_limbs 4 l →
  compact_target_bits l =
  if uval l =? 0 then 0 else compact_mantissa (uval l) + 2 ^ 24 * compact_size (uval l).
Proof.
  intros Hl. unfold compact_target_bits. rewrite (uint_bits_spec 4) by done.
  pose proof (uval_bound l (proj2 Hl)) as Hb. rewrite (proj1 Hl) in Hb.
  destruct (Z.eqb_spec (uval l) 0) as [Hz|Hnz].
  { rewrite Hz. change (bit_length 0) with 0. change (div_ceil 0 8) with 0. simpl.
    by rewrite uint_as_u64_spec, Hz by apply Hl. }
  assert (0 < uval l) as Hv by lia. set (v := uval l) in *.
  pose proof (bit_length_le v 256 ltac:(lia) ltac:(simpl in Hb; lia)) as Hbl.
  pose proof (bit_length_pos v Hv). pose proof (compact_window_bounds v Hv) as [Hw Hbit].
  pose proof (Z.mod_pos_bound (bit_length v) 8 ltac:(lia)).
  pose proof (Z.div_mod (bit_length v) 8 ltac:(lia)).
  rewrite div_ceil_8 in *. set (size := if bit_length v mod 8 =? 0 then _ else _) in *.
  assert (0 ≤ size ≤ 32) by (subst size; destruct (Z.eqb_spec (bit_length v mod 8) 0); lia).
  rewrite compact_window_code by (done || lia). fold v. rewrite land_bit23, Hbit, negb_involutive by done.
  pose proof (compact_mantissa_bounds v Hv) as Hmb. subst size.
  destruct (Z.eqb_spec (bit_length v mod 8) 0) as [Hz|Hz].
  - rewrite compact_window_shift by done. rewrite lor_shiftl_add by lia. done.
  - rewrite lor_shiftl_add by lia. done.
Qed.

(** ** The decoder in terms of values *)

Lemma compact_parts_spec m s :
  0 ≤ m < 2 ^ 24 → 0 ≤ s < 2 ^ 8 →
  compact_parts (m + 2 ^ 24 * s) =
  if s <=? 3 then (m / 2 ^ (8 * (3 - s)), 0) else (m, 8 * (s - 3)).
Proof.
  intros Hm Hs. unfold compact_parts.
  assert (Z.shiftr (m + 2 ^ 24 * s) 24 = s) as ->.
  { rewrite Z.shiftr_div_pow2, Z.mul_comm, Z.div_add, Z.div_small by lia. lia. }
  assert (Z.land (m + 2 ^ 24 * s) 0xFFFFFF = m) as ->.
  { change 0xFFFFFF with (Z.ones 24). rewrite Z.land_ones, Z.mul_comm, Z.mod_add by lia.
    by apply Z.mod_small. }
  destruct (Z.leb_spec s 3); [|done]. by rewrite Z.shiftr_div_pow2 by lia.
Qed.

Lemma from_compact_value bits :
  let '(mant, expt) := compact_parts bits in
  0 ≤ mant < 2 ^ 24 → 0 ≤ expt →
  is_limbs 4 (from_compact_target_bits bits) ∧
  uval (from_compact_target_bits bits) =
  if 0x7FFFFF <? mant then 0 else (mant * 2 ^ (expt mod 256)) mod 2 ^ 256.
Proof.
  unfold from_compact_target_bits. destruct (compact_parts bits) as [mant expt]. intros Hm He.
  destruct (Z.ltb_spec 0x7FFFFF mant).
  { split; [apply is_limbs_replicate|apply uval_replicate]. }
  destruct (uint_from_u64_spec 3 mant) as [Hl Hv]; [unfold in_u; lia|].
  pose proof (overflowing_shl_spec 4 _ expt Hl ltac:(lia) He) as Hs. unfold LIMBS256.
  destruct (uint_overflowing_shl (uint_from_u64 4 mant) expt) as [r o].
  destruct Hs as (Hr & _ & Hrv). rewrite Hv in Hrv. done.
Qed.

Lemma compact_size_range v : 0 < v < 2 ^ 256 → 1 ≤ compact_size v ≤ 33.
Proof.
  intros Hv. unfold compact_size. pose proof (bit_length_pos v ltac:(lia)).
  pose proof (bit_length_le v 256 ltac:(lia) ltac:(lia)).
  assert (0 ≤ bit_length v / 8) by (apply Z.div_pos; lia).
  assert (bit_length v / 8 < 33) by (apply Z.div_lt_upper_bound; lia). lia.
Qed.

(** The mantissa is worth [compact_floor v]. *)
Lemma compact_floor_mantissa v :
  0 < v → compact_floor v =
  if compact_size v <=? 3 then v else compact_mantissa v * 2 ^ (8 * (compact_size v - 3)).
Proof.
  intros Hv. unfold compact_floor, compact_mantissa. destruct (Z.leb_spec (compact_size v) 3).
  - rewrite Z.max_l by lia. simpl. by rewrite Z.div_1_r, Z.mul_1_r.
  - by rewrite Z.max_r by lia.
Qed.

Lemma compact_floor_bounds v :
  0 < v → 0 < compact_floor v ≤ v ∧ v * 2 ^ 15 < compact_floor v * (2 ^ 15 + 1).
Proof.
  intros Hv. pose proof (compact_mantissa_bounds v Hv) as Hm. unfold compact_floor.
  set (k := 8 * Z.max 0 (compact_size v - 3)).
  assert (0 < 2 ^ k) by (apply Z.pow_pos_nonneg; lia).
  pose proof (Z.div_mod v (2 ^ k) ltac:(lia)). pose proof (Z.mod_pos_bound v (2 ^ k) ltac:(lia)).
  unfold compact_mantissa in Hm. destruct (Z.leb_spec (compact_size v) 3).
  - assert (k = 0) as -> by lia. simpl in *. rewrite Z.div_1_r. lia.
  - assert (8 * (compact_size v - 3) = k) as Hk by lia. rewrite Hk in Hm. nia.
Qed.

(** Clearing the low bytes keeps the bit length, hence size and mantissa. *)
Lemma compact_floor_bit_length v : 0 < v → bit_length (compact_floor v) = bit_length v.
Proof.
  intros Hv. pose proof (compact_floor_bounds v Hv) as [Hf _].
  pose proof (bit_length_bounds v Hv) as Hb. pose proof (bit_length_pos v Hv).
  assert (2 ^ (bit_length v - 1) ≤ compact_floor v) as Hlow.
  { unfold compact_floor. set (k := 8 * Z.max 0 (compact_size v - 3)).
    assert (0 ≤ k ≤ bit_length v - 1).
    { unfold k, compact_size. pose proof (Z.div_mod (bit_length v) 8 ltac:(lia)).
      pose proof (Z.mod_pos_bound (bit_length v) 8 ltac:(lia)). lia. }
    replace (2 ^ (bit_length v - 1)) with (2 ^ (bit_length v - 1 - k) * 2 ^ k)
      by (rewrite <- Z.pow_add_r by lia; f_equal; lia).
    apply Z.mul_le_mono_nonneg_r; [apply Z.pow_nonneg; lia|].
    apply Z.div_le_lower_bound; [apply Z.pow_pos_nonneg; lia|].
    rewrite <- Z.pow_add_r by lia. replace (k + (bit_length v - 1 - k)) with (bit_length v - 1) by lia. lia. }
  unfold bit_length at 1. rewrite (proj2 (Z.eqb_neq _ 0)) by lia.
  rewrite (Z.log2_unique (compact_floor v) (bit_length v - 1)); [lia|lia|].
  replace (Z.succ (bit_length v - 1)) with (bit_length v) by lia. lia.
Qed.

Lemma compact_floor_mantissa_eq v : 0 < v → compact_mantissa (compact_floor v) = compact_mantissa v.
Proof.
  intros Hv. assert (compact_size (compact_floor v) = compact_size v) as Hs.
  { unfold compact_size. by rewrite compact_floor_bit_length. }
  pose proof (compact_floor_mantissa v Hv) as Hf. unfold compact_mantissa in *. rewrite Hs, Hf.
  destruct (Z.leb_spec (compact_size v) 3); [done|].
  apply Z.div_mul, Z.pow_nonzero; lia.
Qed.

Lemma decode_encode_value l :
  is_limbs 4 l →
  is_limbs 4 (from_compact_target_bits (compact_target_bits l)) ∧
  uval (from_compact_target_bits (compact_target_bits l)) = compact_floor (uval l).
Proof.
  intros Hl. pose proof (uval_bound l (proj2 Hl)) as Hb. rewrite (proj1 Hl) in Hb.
  rewrite compact_target_bits_spec by done. set (v := uval l) in *.
  destruct (Z.eqb_spec v 0) as [->|Hnz]; [split; [|done]; apply (is_limbs_replicate 4)|].
  assert (0 < v < 2 ^ 256) as Hv by (simpl in Hb; lia).
  pose proof (compact_mantissa_bounds v ltac:(lia)) as Hm.
  pose proof (compact_size_range v Hv) as Hs.
  pose proof (compact_floor_bounds v ltac:(lia)) as [Hfb _].
  pose proof (compact_floor_mantissa v ltac:(lia)) as Hfm.
  pose proof (from_compact_value (compact_mantissa v + 2 ^ 24 * compact_size v)) as Hf.
  rewrite compact_parts_spec in Hf by lia.
  destruct (Z.leb_spec (compact_size v) 3).
  - assert (compact_mantissa v / 2 ^ (8 * (3 - compact_size v)) = v) as Hdiv.
    { unfold compact_mantissa. rewrite (proj2 (Z.leb_le _ 3)) by done.
      apply Z.div_mul, Z.pow_nonzero; lia. }
    assert (v < 2 ^ 23).
    { unfold compact_mantissa in Hm. rewrite (proj2 (Z.leb_le _ 3)) in Hm by done.
      assert (0 < 2 ^ (8 * (3 - compact_size v))) by (apply Z.pow_pos_nonneg; lia). nia. }
    rewrite Hdiv in Hf. destruct Hf as [Hr ->]; [lia..|]. split; [done|].
    rewrite (proj2 (Z.ltb_ge _ _)) by lia. change (2 ^ (0 mod 256)) with 1. rewrite Z.mod_small; lia.
  - destruct Hf as [Hr ->]; [lia..|]. split; [done|].
    rewrite (proj2 (Z.ltb_ge _ _)) by lia. rewrite (Z.mod_small (8 * _)) by lia.
    rewrite <- Hfm. apply Z.mod_small. lia.
Qed.

(** ** Theorems *)

(** Encoding a 256-bit target and decoding it back clears exactly the
    bytes below its three-byte mantissa: the result never exceeds the target
    and is within a factor 1 + 2^-15 of it, and encoding again gives the same
    32 bits, so a header's bits are a stable representative of the target. *)
Theorem compact_target_roundtrip l :
  is_limbs 4 l →
  let l' := from_compact_target_bits (compact_target_bits l) in
  uval l' = compact_floor (uval l) ∧ uval l' ≤ uval l ∧
  uval l * 2 ^ 15 ≤ uval l' * (2 ^ 15 + 1) ∧
  compact_target_bits l' = compact_target_bits l.
Proof.
  intros Hl l'. destruct (decode_encode_value l Hl) as [Hl' Hv]. fold l' in Hl', Hv.
  pose proof (uval_bound l (proj2 Hl)). rewrite Hv. destruct (decide (uval l = 0)) as [Hz|Hnz].
  { rewrite Hz in *. split_and!; [done|done|done|].
    rewrite !compact_target_bits_spec by done. by rewrite Hv, Hz. }
  pose proof (compact_floor_bounds (uval l) ltac:(lia)). split_and!; [done|lia..|].
  rewrite !compact_target_bits_spec by done. rewrite Hv.
  rewrite !(proj2 (Z.eqb_neq _ 0)) by lia. rewrite compact_floor_mantissa_eq by lia.
  unfold compact_size. by rewrite compact_floor_bit_length by lia.
Qed.

(** Decoding on every 32-bit input: with mantissa [m] and exponent byte
    [s], the target is zero when the (shifted) mantissa has its sign bit set,
    [m] shifted right for [s <= 3], and otherwise [m * 2^(8 (s - 3))] with the
    shift amount reduced modulo 256: an exponent byte of 35 or more wraps
    around to a small target instead of saturating or failing. *)
Theorem from_compact_target_bits_total m s :
  0 ≤ m < 2 ^ 24 → 0 ≤ s < 2 ^ 8 →
  uval (from_compact_target_bits (m + 2 ^ 24 * s)) =
  if s <=? 3 then m / 2 ^ (8 * (3 - s)) * Z.b2z (m / 2 ^ (8 * (3 - s)) <? 2 ^ 23)
  else if m <? 2 ^ 23 then (m * 2 ^ (8 * (s - 3) mod 256)) mod 2 ^ 256 else 0.
Proof.
  intros Hm Hs. pose proof (from_compact_value (m + 2 ^ 24 * s)) as Hf.
  rewrite compact_parts_spec in Hf by done. change (2 ^ 23) with (0x7FFFFF + 1).
  destruct (Z.leb_spec s 3).
  - assert (0 < 2 ^ (8 * (3 - s))) by (apply Z.pow_pos_nonneg; lia).
    assert (0 ≤ m / 2 ^ (8 * (3 - s)) ≤ m) as Hdb.
    { split; [apply Z.div_pos; lia|]. apply Z.div_le_upper_bound; [lia|]. nia. }
    destruct Hf as [_ ->]; [lia..|]. set (d := m / 2 ^ (8 * (3 - s))) in *.
    destruct (Z.ltb_spec 0x7FFFFF d), (Z.ltb_spec d (0x7FFFFF + 1)); simpl Z.b2z; try lia.
    change (2 ^ (0 mod 256)) with 1. rewrite Z.mod_small; lia.
  - destruct Hf as [_ ->]; [lia..|].
    destruct (Z.ltb_spec 0x7FFFFF m), (Z.ltb_spec m (0x7FFFFF + 1)); try lia; done.
Qed.

Lemma compact_target_roundtrip_witness :
  let l := [0; 0; 0x123456789; 0] in
  compact_target_bits (from_compact_target_bits (compact_target_bits l)) = compact_target_bits l.
Proof. apply compact_target_roundtrip. apply limbs4; unfold in_u; lia. Defined.

Lemma from_compact_target_bits_total_witness :
  uval (from_compact_target_bits (1 + 2 ^ 24 * 35)) = 1.
Proof. rewrite from_compact_target_bits_total by lia. reflexivity. Defined.
