(* ===== verification/U3072.v ===== *)
(** * The 3072-bit field of MuHash (crypto/muhash/src/u3072.rs)

    Arithmetic modulo the prime 2^3072 - 1103717 on 48 limbs of 64 bits: the
    comba multiplication with its interleaved reductions, the lazily reduced
    representation, inversion and division.  Every arithmetic operation that
    [overflow-checks] guards and every [assert!] is kept, so the theorems
    include that none of them ever fires. *)

From S2P Require Import Prelude Bytes Limbs Uint.

Definition U3072_LIMBS : nat := 48.
Definition PRIME_DIFF : Z := 1103717.

Definition u3072_zero : list Z := replicate U3072_LIMBS 0.
Definition u3072_one : list Z := <[0%nat := 1]> u3072_zero.

(** [UINT_PRIME]: all ones, less [PRIME_DIFF - 1] in the lowest limb. *)
Definition UINT_PRIME : list Z :=
  <[0%nat := (2 ^ 64 - 1) - (PRIME_DIFF - 1)]> (replicate U3072_LIMBS (2 ^ 64 - 1)).

Definition is_overflow (self : list Z) : bool :=
  if limb self 0 <=? (2 ^ 64 - 1) - PRIME_DIFF then false
  else forallb (λ l, l =? 2 ^ 64 - 1) (drop 1 self).

Definition u3072_from_le_bytes (bs : bytes) : list Z := words_of_bytes of_le_bytes U3072_LIMBS bs.
Definition u3072_to_le_bytes (self : list Z) : bytes := concat (le_bytes 8 <$> self).

(** The carry loop of [full_reduce], and of the second reduction of [mul]:
    add the two-limb number [c0 + 2^64 c1] into the limbs. *)
Fixpoint add_two_limbs (l : list Z) (c0 c1 : Z) : list Z * Z * Z :=
  match l with
  | [] => ([], c0, c1)
  | x :: l =>
      let '(z, overflow) := oadd64 c0 x in
      let '(c1', overflow) := oadd64 c1 (Z.b2z overflow) in
      let '(zs, d0, d1) := add_two_limbs l c1' (Z.b2z overflow) in
      (z :: zs, d0, d1)
  end.

Definition full_reduce (self : list Z) : list Z := (add_two_limbs self PRIME_DIFF 0).1.1.

Definition mul_wide (a b : Z) : Z * Z := let t := a * b in (t mod 2 ^ 64, Z.shiftr t 64).

Definition mulnadd3 (c0 c1 d0 d1 d2 n : Z) : res Empty_set (Z * Z * Z) :=
  p ← mul_p 128 d0 n;
  t ← add_p 128 p c0;
  let c0 := t mod 2 ^ 64 in
  let t := Z.shiftr t 64 in
  p ← mul_p 128 d1 n;
  p ← add_p 128 p c1;
  t ← add_p 128 t p;
  let c1 := t mod 2 ^ 64 in
  let t := Z.shiftr t 64 in
  p ← mul_p 64 d2 n;
  c2 ← add_p 64 (t mod 2 ^ 64) p;
  Ok (c0, c1, c2).

Definition muladd3 (a b low high carry : Z) : res Empty_set (Z * Z * Z) :=
  let '(tl, th) := mul_wide a b in
  let '(low, overflow) := oadd64 low tl in
  th ← add_p 64 th (Z.b2z overflow);
  let '(high, overflow) := oadd64 high th in
  carry ← add_p 64 carry (Z.b2z overflow);
  Ok (low, high, carry).

Definition muln2 (low high n : Z) : res Empty_set (Z * Z) :=
  tmp ← mul_p 128 low n;
  let low := tmp mod 2 ^ 64 in
  let tmp := Z.shiftr tmp 64 in
  p ← mul_p 128 high n;
  tmp ← add_p 128 tmp p;
  Ok (low, tmp mod 2 ^ 64).

(** [for i in lo..lo+n { (low, high, carry) = muladd3(a[i], b[k - i], ..) }]. *)
Definition mac_loop (a b : list Z) (n lo k : nat) (acc : Z * Z * Z) : res Empty_set (Z * Z * Z) :=
  for_loop n lo
    (λ i '(low, high, carry),
      x ← idx a i;
      y ← idx b (k - i);
      muladd3 x y low high carry)
    acc.

(** One iteration of the outer loop of [mul]: limb [j] of the product, with
    the part of the product above the width folded in times [PRIME_DIFF]. *)
Definition mul_outer (self other : list Z) (j : nat) (st : Z * Z * Z * list Z)
    : res Empty_set (Z * Z * Z * list Z) :=
  let '(carry_low, carry_high, _, tmp) := st in
  x ← idx self (j + 1);
  y ← idx other (U3072_LIMBS + j - (1 + j));
  let '(low, high) := mul_wide x y in
  '(low, high, carry) ←
    mac_loop self other (U3072_LIMBS - (2 + j)) (2 + j) (U3072_LIMBS + j) (low, high, 0);
  '(carry_low, carry_high, carry_highest) ←
    mulnadd3 carry_low carry_high low high carry PRIME_DIFF;
  '(carry_low, carry_high, carry_highest) ←
    mac_loop self other (j + 1) 0 j (carry_low, carry_high, carry_highest);
  tmp ← upd tmp j carry_low;
  Ok (carry_high, carry_highest, 0, tmp).

(** The first half of [mul]: the 48 limbs of the once-folded product and the
    carry left above them. *)
Definition mul_columns (self other : list Z) : res Empty_set (list Z * Z * Z) :=
  '(carry_low, carry_high, carry_highest, tmp) ←
    for_loop (U3072_LIMBS - 1) 0 (mul_outer self other) (0, 0, 0, u3072_one);
  _ ← assert_p (carry_highest =? 0);
  '(carry_low, carry_high, carry_highest) ←
    mac_loop self other U3072_LIMBS 0 (U3072_LIMBS - 1) (carry_low, carry_high, carry_highest);
  tmp ← upd tmp (U3072_LIMBS - 1) carry_low;
  Ok (tmp, carry_high, carry_highest).

Definition u3072_mul (self other : list Z) : res Empty_set (list Z) :=
  if bool_decide (self = u3072_one) then Ok other
  else
    '(tmp, carry_low, carry_high) ← mul_columns self other;
    '(carry_low, carry_high) ← muln2 carry_low carry_high PRIME_DIFF;
    let '(self, carry_low, carry_high) := add_two_limbs tmp carry_low carry_high in
    _ ← assert_p (carry_high =? 0);
    _ ← assert_p ((carry_low =? 0) || (carry_low =? 1));
    let self := if is_overflow self then full_reduce self else self in
    let self := if negb (carry_low =? 0) then full_reduce self else self in
    Ok self.

(** [Natural::mod_inverse] of the malachite crate: defined for [0 < x < m],
    the inverse of [x] modulo [m] when they are coprime, nothing otherwise. *)
Class ModInverse := nat_mod_inverse : Z → Z → option Z.

Class ModInverseLaws `(ModInverse) := {
  mod_inverse_Some x m y :
    0 < x < m → nat_mod_inverse x m = Some y → 0 < y < m ∧ (x * y) mod m = 1;
  mod_inverse_coprime x m : 0 < x < m → Z.gcd x m = 1 → is_Some (nat_mod_inverse x m);
}.

(** The little-endian limbs of a natural, as many as it needs, copied into
    the fixed array. *)
Fixpoint limbs_of (n : nat) (v : Z) : list Z :=
  match n with
  | O => []
  | S n => v mod 2 ^ 64 :: limbs_of n (v / 2 ^ 64)
  end.

Section Inverse.
Context `{ModInverse}.

(** [Uint3072::mod_inverse]. *)
Definition uint_mod_inverse (x p : list Z) : option (list Z) :=
  limbs_of (length x) <$> nat_mod_inverse (uval x) (uval p).

Definition u3072_inverse (self : list Z) : res Empty_set (list Z) :=
  let a := if is_overflow self then full_reduce self else self in
  if bool_decide (a = u3072_zero) then Ok a
  else unwrap (uint_mod_inverse a UINT_PRIME).

Definition u3072_div (self other : list Z) : res Empty_set (list Z) :=
  inv ← (if is_overflow other then u3072_inverse (full_reduce other) else u3072_inverse other);
  let self := if is_overflow self then full_reduce self else self in
  self ← u3072_mul self inv;
  Ok (if is_overflow self then full_reduce self else self).
End Inverse.

(** ** Convolutions *)

(** Coefficient [k] of the product of two limb arrays. *)
Fixpoint conv (a b : list Z) (k : nat) : Z :=
  match a with
  | [] => 0
  | x :: a => x * limb b k + match k with O => 0 | S k => conv a b k end
  end.

Lemma uval_msum l m :
  (length l ≤ m)%nat → uval l = msum m 0 (λ k, 2 ^ (64 * Z.of_nat k) * limb l k).
Proof.
  revert m; induction l as [|x l IH]; intros m Hm.
  { rewrite uval_nil. symmetry. apply msum_zero. intros. rewrite limb_ge by (simpl; lia). lia. }
  destruct m as [|m]; simpl in Hm; [lia|]. cbn [msum]. rewrite uval_cons, (IH m) by lia.
  change 1%nat with (0 + 1)%nat. rewrite msum_shift, <- msum_mul. f_equal; [unfold limb; simpl; lia|].
  apply msum_ext. intros k Hk. rewrite Nat.add_1_r, pow64_S, limb_cons_S. lia.
Qed.

Lemma conv_product a b m :
  (length a + length b ≤ m)%nat →
  msum m 0 (λ k, 2 ^ (64 * Z.of_nat k) * conv a b k) = uval a * uval b.
Proof.
  revert m; induction a as [|x a IH]; intros m Hm.
  { rewrite uval_nil. apply msum_zero. intros. simpl. lia. }
  simpl in Hm. destruct m as [|m]; [lia|]. rewrite uval_cons.
  rewrite (msum_ext _ _ _ (λ k, x * (2 ^ (64 * Z.of_nat k) * limb b k) +
    2 ^ (64 * Z.of_nat k) * match k with O => 0 | S k => conv a b k end)) by (intros; simpl; lia).
  rewrite msum_add, msum_mul, <- (uval_msum b (S m)) by lia. cbn [msum].
  change 1%nat with (0 + 1)%nat. rewrite msum_shift.
  rewrite (msum_ext _ _ _ (λ k, 2 ^ 64 * (2 ^ (64 * Z.of_nat k) * conv a b k))).
  - rewrite msum_mul, IH by lia. lia.
  - intros k _. rewrite Nat.add_1_r, pow64_S. lia.
Qed.

(** The coefficient as the sum the loops compute. *)
Lemma conv_msum a b k :
  conv a b k = msum (Nat.min (S k) (length a)) 0 (λ i, limb a i * limb b (k - i)).
Proof.
  revert k; induction a as [|x a IH]; intros k; [by rewrite Nat.min_0_r|].
  cbn [conv length]. rewrite <- Nat.succ_min_distr. cbn [msum]. rewrite Nat.sub_0_r.
  change (limb (x :: a) 0) with x. f_equal. destruct k as [|k]; [done|].
  rewrite IH. change 1%nat with (0 + 1)%nat. rewrite msum_shift. apply msum_ext.
  intros i _. rewrite Nat.add_1_r, limb_cons_S. done.
Qed.

Section Conv.
Context (n : nat) (a b : list Z) (Ha : length a = n) (Hb : length b = n).

(** The low coefficient [j] and the high coefficient [n + j], as summed by the
    two inner loops. *)
Definition conv_low (j : nat) : Z := msum (S j) 0 (λ i, limb a i * limb b (j - i)).
Definition conv_high (j : nat) : Z := msum (n - S j) (S j) (λ i, limb a i * limb b (n + j - i)).

Lemma conv_low_spec j : (j < n)%nat → conv a b j = conv_low j.
Proof. intros Hj. rewrite conv_msum, Ha, Nat.min_l by lia. done. Qed.

Lemma conv_high_spec j : (j < n)%nat → conv a b (n + j) = conv_high j.
Proof.
  intros Hj. rewrite conv_msum, Ha, Nat.min_r by lia. unfold conv_high.
  replace n with (S j + (n - S j))%nat at 1 by lia. rewrite msum_split.
  rewrite msum_zero; [done|]. intros i Hi. rewrite (limb_ge b) by lia. lia.
Qed.

(** The product split at the width. *)
Lemma product_split :
  (0 < n)%nat →
  uval a * uval b =
  msum (n - 1) 0 (λ j, 2 ^ (64 * Z.of_nat j) * conv_low j) +
  2 ^ (64 * Z.of_nat (n - 1)) * conv_low (n - 1) +
  2 ^ (64 * Z.of_nat n) * msum (n - 1) 0 (λ j, 2 ^ (64 * Z.of_nat j) * conv_high j).
Proof.
  intros Hn. rewrite <- (conv_product a b (n + n)) by lia. rewrite msum_split. f_equal.
  - replace n with (S (n - 1)) at 1 by lia. rewrite msum_S_r. f_equal.
    + apply msum_ext. intros j Hj. by rewrite conv_low_spec by lia.
    + simpl. by rewrite conv_low_spec by lia.
  - rewrite msum_shift. replace n with (S (n - 1)) at 1 by lia. rewrite msum_S_r.
    assert (conv a b (0 + (n - 1) + n) = 0) as ->.
    { rewrite Nat.add_comm, conv_high_spec by lia. unfold conv_high.
      by replace (n - S (0 + (n - 1)))%nat with 0%nat by lia. }
    rewrite Z.mul_0_r, Z.add_0_r, <- msum_mul. apply msum_ext. intros j Hj.
    rewrite (Nat.add_comm j n), conv_high_spec by lia.
    rewrite Nat2Z.inj_add, Z.mul_add_distr_l, Z.pow_add_r by lia. lia.
Qed.
End Conv.

(** ** Multiply-accumulate *)

(** The value of a three-limb accumulator. *)
Definition val3 (acc : Z * Z * Z) : Z :=
  let '(low, high, carry) := acc in low + 2 ^ 64 * high + 2 ^ 128 * carry.

Definition acc_wf (acc : Z * Z * Z) : Prop :=
  let '(low, high, carry) := acc in in_u 64 low ∧ in_u 64 high ∧ in_u 64 carry.

Lemma mul64_bound a b : in_u 64 a → in_u 64 b → 0 ≤ a * b ≤ 2 ^ 128 - 2 * 2 ^ 64 + 1.
Proof.
  unfold in_u. intros Ha Hb. change (2 ^ 128) with (2 ^ 64 * 2 ^ 64). set (2 ^ 64) in *. nia.
Qed.

Lemma muladd3_spec a b low high carry :
  in_u 64 a → in_u 64 b → acc_wf (low, high, carry) →
  val3 (low, high, carry) + a * b < 2 ^ 192 →
  ∃ acc, muladd3 a b low high carry = Ok acc ∧ acc_wf acc ∧
         val3 acc = val3 (low, high, carry) + a * b.
Proof.
  intros Ha Hb (Hl & Hh & Hc) Hlt. unfold muladd3, mul_wide.
  pose proof (mul64_bound a b Ha Hb) as Hab. pose proof (split64 (a * b)) as Hs.
  pose proof (mod64_range (a * b)) as Htl.
  set (tl := (a * b) mod 2 ^ 64) in *. set (th := Z.shiftr (a * b) 64) in *.
  destruct (oadd64_spec low tl Hl Htl) as [Hlow Hlv].
  destruct (oadd64 low tl) as [low' o1]; simpl fst in *; simpl snd in *.
  change (2 ^ 128) with (2 ^ 64 * 2 ^ 64) in *. change (2 ^ 192) with (2 ^ 64 * 2 ^ 64 * 2 ^ 64) in *.
  unfold in_u, val3 in *. change (2 ^ 128) with (2 ^ 64 * 2 ^ 64) in *.
  assert (0 ≤ th + Z.b2z o1 < 2 ^ 64) as Hth by (set (2 ^ 64) in *; destruct o1; simpl in *; nia).
  assert (add_p (E := Empty_set) 64 th (Z.b2z o1) = Ok (th + Z.b2z o1)) as ->
    by (apply add_p_Ok; lia).
  cbn [mbind res_mbind].
  destruct (oadd64_spec high (th + Z.b2z o1) Hh Hth) as [Hhigh Hhv].
  destruct (oadd64 high (th + Z.b2z o1)) as [high' o2]; simpl fst in *; simpl snd in *.
  unfold in_u in *.
  assert (carry + Z.b2z o2 < 2 ^ 64) as Hcarry.
  { set (2 ^ 64) in *. destruct o2; simpl in *; nia. }
  assert (add_p (E := Empty_set) 64 carry (Z.b2z o2) = Ok (carry + Z.b2z o2)) as ->
    by (apply add_p_Ok; lia).
  cbn [mbind res_mbind]. eexists. split; [done|]. split.
  - unfold acc_wf, in_u. destruct o2; simpl in *; lia.
  - set (2 ^ 64) in *. nia.
Qed.

Lemma mac_loop_spec a b n lo k acc :
  Forall (in_u 64) a → Forall (in_u 64) b → acc_wf acc →
  (lo + n ≤ length a)%nat → (k - lo < length b)%nat →
  val3 acc + msum n lo (λ i, limb a i * limb b (k - i)) < 2 ^ 192 →
  ∃ acc', mac_loop a b n lo k acc = Ok acc' ∧ acc_wf acc' ∧
          val3 acc' = val3 acc + msum n lo (λ i, limb a i * limb b (k - i)).
Proof.
  intros Ha Hb. unfold mac_loop. revert lo acc; induction n as [|n IH]; intros lo acc Hacc Hla Hlb Hlt;
    cbn [for_loop msum] in *.
  { exists acc. split_and!; [done|done|lia]. }
  destruct acc as [[low high] carry].
  rewrite (idx_Ok a lo (limb a lo)) by (apply lookup_limb; lia).
  rewrite (idx_Ok b (k - lo) (limb b (k - lo))) by (apply lookup_limb; lia).
  cbn [mbind res_mbind].
  pose proof (limb_range a lo Ha) as Hx. pose proof (limb_range b (k - lo) Hb) as Hy.
  pose proof (mul64_bound _ _ Hx Hy).
  assert (0 ≤ msum n (S lo) (λ i, limb a i * limb b (k - i))).
  { apply (msum_bound _ _ _ (2 ^ 128 - 2 * 2 ^ 64 + 1)). intros. apply mul64_bound; auto. }
  destruct (muladd3_spec (limb a lo) (limb b (k - lo)) low high carry) as (acc & -> & Hwf & Hv);
    [done|done|done|lia|].
  cbn [mbind res_mbind]. destruct (IH (S lo) acc Hwf) as (acc' & -> & Hwf' & Hv'); [lia|lia|lia|].
  exists acc'. split_and!; [done|done|lia].
Qed.

Lemma shiftr64_div x : Z.shiftr x 64 = x / 2 ^ 64.
Proof. by rewrite Z.shiftr_div_pow2. Qed.

Lemma mulnadd3_spec c0 c1 d0 d1 d2 n :
  in_u 64 c0 → in_u 64 c1 → acc_wf (d0, d1, d2) → in_u 64 n →
  c0 + 2 ^ 64 * c1 + n * val3 (d0, d1, d2) < 2 ^ 192 →
  ∃ acc, mulnadd3 c0 c1 d0 d1 d2 n = Ok acc ∧ acc_wf acc ∧
         val3 acc = c0 + 2 ^ 64 * c1 + n * val3 (d0, d1, d2).
Proof.
  intros Hc0 Hc1 (Hd0 & Hd1 & Hd2) Hn Hlt. unfold mulnadd3.
  pose proof (mul64_bound d0 n Hd0 Hn) as H0. pose proof (mul64_bound d1 n Hd1 Hn) as H1.
  unfold in_u, val3 in *. change (2 ^ 192) with (2 ^ 128 * 2 ^ 64) in *.
  assert (@mul_p Empty_set 128 d0 n = Ok (d0 * n)) as -> by (apply mul_p_Ok; lia).
  cbn [mbind res_mbind].
  assert (@add_p Empty_set 128 (d0 * n) c0 = Ok (d0 * n + c0)) as -> by (apply add_p_Ok; lia).
  cbn [mbind res_mbind].
  assert (@mul_p Empty_set 128 d1 n = Ok (d1 * n)) as -> by (apply mul_p_Ok; lia).
  cbn [mbind res_mbind].
  assert (@add_p Empty_set 128 (d1 * n) c1 = Ok (d1 * n + c1)) as -> by (apply add_p_Ok; lia).
  cbn [mbind res_mbind].
  pose proof (shiftr64_bound (d0 * n + c0) ltac:(lia)) as Ht1.
  pose proof (split64 (d0 * n + c0)) as Hs1. pose proof (mod64_range (d0 * n + c0)) as Hm1.
  set (t1 := Z.shiftr (d0 * n + c0) 64) in *. set (r0 := (d0 * n + c0) mod 2 ^ 64) in *.
  unfold in_u in Ht1, Hm1.
  assert (@add_p Empty_set 128 t1 (d1 * n + c1) = Ok (t1 + (d1 * n + c1))) as -> by (apply add_p_Ok; lia).
  cbn [mbind res_mbind].
  pose proof (shiftr64_bound (t1 + (d1 * n + c1)) ltac:(lia)) as Ht2.
  pose proof (split64 (t1 + (d1 * n + c1))) as Hs2.
  pose proof (mod64_range (t1 + (d1 * n + c1))) as Hm2.
  set (t2 := Z.shiftr (t1 + (d1 * n + c1)) 64) in *. set (r1 := (t1 + (d1 * n + c1)) mod 2 ^ 64) in *.
  unfold in_u in Ht2, Hm2. rewrite (Z.mod_small t2) by lia.
  assert (c0 + 2 ^ 64 * c1 + n * (d0 + 2 ^ 64 * d1 + 2 ^ 128 * d2) =
          r0 + 2 ^ 64 * r1 + 2 ^ 128 * (t2 + d2 * n)) as Hsum.
  { change (2 ^ 128) with (2 ^ 64 * 2 ^ 64) in *. lia. }
  assert (0 ≤ d2 * n) by nia. assert (t2 + d2 * n < 2 ^ 64) by lia.
  assert (@mul_p Empty_set 64 d2 n = Ok (d2 * n)) as -> by (apply mul_p_Ok; lia).
  cbn [mbind res_mbind].
  assert (@add_p Empty_set 64 t2 (d2 * n) = Ok (t2 + d2 * n)) as -> by (apply add_p_Ok; lia).
  cbn [mbind res_mbind]. eexists. split; [done|]. unfold acc_wf, in_u. split; [lia|]. lia.
Qed.

Lemma muln2_spec low high n :
  in_u 64 low → in_u 64 high → in_u 64 n → (low + 2 ^ 64 * high) * n < 2 ^ 128 →
  ∃ l h, muln2 low high n = Ok (l, h) ∧ in_u 64 l ∧ in_u 64 h ∧
         l + 2 ^ 64 * h = (low + 2 ^ 64 * high) * n.
Proof.
  intros Hl Hh Hn Hlt. unfold muln2.
  pose proof (mul64_bound low n Hl Hn) as H0. pose proof (mul64_bound high n Hh Hn) as H1.
  unfold in_u in *.
  assert (@mul_p Empty_set 128 low n = Ok (low * n)) as -> by (apply mul_p_Ok; lia).
  cbn [mbind res_mbind].
  assert (@mul_p Empty_set 128 high n = Ok (high * n)) as -> by (apply mul_p_Ok; lia).
  cbn [mbind res_mbind].
  pose proof (shiftr64_bound (low * n) ltac:(lia)) as Ht1. unfold in_u in Ht1.
  pose proof (split64 (low * n)) as Hs1. pose proof (mod64_range (low * n)) as Hm1.
  set (t1 := Z.shiftr (low * n) 64) in *. set (r0 := (low * n) mod 2 ^ 64) in *.
  assert (@add_p Empty_set 128 t1 (high * n) = Ok (t1 + high * n)) as -> by (apply add_p_Ok; lia).
  cbn [mbind res_mbind]. unfold in_u in Hm1.
  assert ((low + 2 ^ 64 * high) * n = r0 + 2 ^ 64 * (t1 + high * n)) as Hsum by lia.
  assert (t1 + high * n < 2 ^ 64) by (change (2 ^ 128) with (2 ^ 64 * 2 ^ 64) in *; lia).
  rewrite (Z.mod_small (t1 + high * n)) by lia. eexists _, _. split; [done|]. split_and!; lia.
Qed.

Lemma add_two_limbs_spec n l c0 c1 :
  is_limbs n l → in_u 64 c0 → in_u 64 c1 →
  let '(r, d0, d1) := add_two_limbs l c0 c1 in
  is_limbs n r ∧ in_u 64 d0 ∧ in_u 64 d1 ∧
  uval l + (c0 + 2 ^ 64 * c1) = uval r + 2 ^ (64 * Z.of_nat n) * (d0 + 2 ^ 64 * d1).
Proof.
  revert l c0 c1; induction n as [|n IH]; intros l c0 c1 [Hlen Hl] H0 H1.
  { destruct l; [|done]. simpl. rewrite uval_nil. split_and!; try done. lia. }
  destruct l as [|x l]; [done|]. injection Hlen as Hlen. apply Forall_cons in Hl as [Hx Hl].
  cbn [add_two_limbs]. destruct (oadd64_spec c0 x H0 Hx) as [Hz Hzv].
  destruct (oadd64 c0 x) as [z o]; simpl fst in *; simpl snd in *.
  destruct (oadd64_spec c1 (Z.b2z o) H1) as [Hd Hdv]; [unfold in_u; destruct o; simpl; lia|].
  destruct (oadd64 c1 (Z.b2z o)) as [c1' o']; simpl fst in *; simpl snd in *.
  specialize (IH l c1' (Z.b2z o') (conj Hlen Hl) Hd ltac:(unfold in_u; destruct o'; simpl; lia)).
  destruct (add_two_limbs l c1' (Z.b2z o')) as [[zs d0] d1]. destruct IH as ([Hzl Hzs] & Hd0 & Hd1 & He).
  split_and!; try done; [by split; [simpl; rewrite Hzl|constructor]|].
  rewrite !uval_cons, pow64_S. lia.
Qed.

(** ** Multiplication *)

Lemma uval_take_insert l j x :
  (j < length l)%nat →
  uval (take (S j) (<[j := x]> l)) = uval (take j l) + 2 ^ (64 * Z.of_nat j) * x.
Proof.
  intros Hj. rewrite take_S_limb by (by rewrite length_insert).
  rewrite take_insert_ge by lia. rewrite limb_insert, bool_decide_eq_true_2 by done.
  rewrite uval_app, length_take, Nat.min_l, uval_cons, uval_nil by lia. lia.
Qed.

Section Mul.
Context (a b : list Z) (Ha : is_limbs U3072_LIMBS a) (Hb : is_limbs U3072_LIMBS b).

Abbreviation L := (conv_low a b).
Abbreviation H := (conv_high U3072_LIMBS a b).

Lemma conv_bound n i k :
  0 ≤ msum n i (λ t, limb a t * limb b (k - t)) ≤ Z.of_nat n * 2 ^ 128.
Proof.
  apply msum_bound. intros t _.
  pose proof (mul64_bound (limb a t) (limb b (k - t)) (limb_range _ _ (proj2 Ha)) (limb_range _ _ (proj2 Hb))).
  lia.
Qed.

Lemma high_bound j : 0 ≤ H j ≤ 48 * 2 ^ 128.
Proof.
  unfold conv_high. pose proof (conv_bound (U3072_LIMBS - S j) (S j) (U3072_LIMBS + j)).
  unfold U3072_LIMBS in *. lia.
Qed.

Lemma low_bound j : (j < 48)%nat → 0 ≤ L j ≤ 48 * 2 ^ 128.
Proof. intros Hj. unfold conv_low. pose proof (conv_bound (S j) 0 j). lia. Qed.

(** The first inner loop computes the high coefficient. *)
Lemma high_loop_spec j :
  (j < U3072_LIMBS - 1)%nat →
  ∃ acc,
    (let '(low, high) := mul_wide (limb a (j + 1)) (limb b (U3072_LIMBS + j - (1 + j))) in
     mac_loop a b (U3072_LIMBS - (2 + j)) (2 + j) (U3072_LIMBS + j) (low, high, 0)) = Ok acc ∧
    acc_wf acc ∧ val3 acc = H j.
Proof.
  intros Hj. unfold mul_wide. pose proof (proj2 Ha) as Fa. pose proof (proj2 Hb) as Fb.
  pose proof (mul64_bound (limb a (j + 1)) (limb b (U3072_LIMBS + j - (1 + j)))
    (limb_range _ _ Fa) (limb_range _ _ Fb)) as Hab.
  assert (H j = limb a (j + 1) * limb b (U3072_LIMBS + j - (1 + j)) +
    msum (U3072_LIMBS - (2 + j)) (2 + j) (λ i, limb a i * limb b (U3072_LIMBS + j - i))) as HH.
  { unfold conv_high. replace (U3072_LIMBS - S j)%nat with (S (U3072_LIMBS - (2 + j))) by lia.
    cbn [msum]. by replace (j + 1)%nat with (S j) by lia. }
  pose proof (high_bound j) as Hhb.
  pose proof (split64 (limb a (j + 1) * limb b (U3072_LIMBS + j - (1 + j)))) as Hs.
  pose proof (mod64_range (limb a (j + 1) * limb b (U3072_LIMBS + j - (1 + j)))).
  pose proof (shiftr64_bound (limb a (j + 1) * limb b (U3072_LIMBS + j - (1 + j))) ltac:(lia)).
  set (p := limb a (j + 1) * limb b (U3072_LIMBS + j - (1 + j))) in *.
  assert (acc_wf (p mod 2 ^ 64, Z.shiftr p 64, 0)) as Hwf by (unfold acc_wf, in_u in *; lia).
  assert (val3 (p mod 2 ^ 64, Z.shiftr p 64, 0) = p) as Hv by (unfold val3; lia).
  destruct (mac_loop_spec a b (U3072_LIMBS - (2 + j)) (2 + j) (U3072_LIMBS + j) _ Fa Fb Hwf)
    as (acc & He & Hacc & Hval).
  - rewrite (proj1 Ha). lia.
  - rewrite (proj1 Hb). lia.
  - rewrite Hv. lia.
  - exists acc. split_and!; [done|done|]. lia.
Qed.

(** The invariant of the outer loop: the limbs done so far and the carry are
    the folded sum of the coefficients done so far. *)
Definition outer_inv (j : nat) (st : Z * Z * Z * list Z) : Prop :=
  let '(c0, c1, c2, tmp) := st in
  c2 = 0 ∧ in_u 64 c0 ∧ in_u 64 c1 ∧ c0 + 2 ^ 64 * c1 < 2 ^ 93 ∧ is_limbs U3072_LIMBS tmp ∧
  uval (take j tmp) + 2 ^ (64 * Z.of_nat j) * (c0 + 2 ^ 64 * c1) =
  msum j 0 (λ t, 2 ^ (64 * Z.of_nat t) * (L t + PRIME_DIFF * H t)).

Lemma mul_outer_spec j st :
  (j < U3072_LIMBS - 1)%nat → outer_inv j st →
  ∃ st', mul_outer a b j st = Ok st' ∧ outer_inv (S j) st'.
Proof.
  destruct st as [[[c0 c1] c2] tmp]. intros Hj (-> & Hc0 & Hc1 & Hcb & Htmp & Hinv).
  pose proof (proj2 Ha) as Fa. pose proof (proj2 Hb) as Fb. unfold mul_outer.
  rewrite (idx_Ok a (j + 1) (limb a (j + 1))) by (apply lookup_limb; rewrite (proj1 Ha); lia).
  rewrite (idx_Ok b _ (limb b (U3072_LIMBS + j - (1 + j))))
    by (apply lookup_limb; rewrite (proj1 Hb); lia).
  cbn [mbind res_mbind].
  destruct (high_loop_spec j Hj) as ([[l h] c] & Hh & Hacc & Hval).
  destruct (mul_wide _ _) as [l0 h0]. rewrite Hh. cbn [mbind res_mbind].
  pose proof (high_bound j) as HHb. pose proof (low_bound j ltac:(unfold U3072_LIMBS in *; lia)) as HLb.
  destruct (mulnadd3_spec c0 c1 l h c PRIME_DIFF) as ([[l1 h1] k1] & -> & Hacc1 & Hval1);
    [done|done|done|unfold PRIME_DIFF, in_u; lia|rewrite Hval; unfold PRIME_DIFF; lia|].
  cbn [mbind res_mbind]. rewrite Hval in Hval1. unfold in_u in Hc0, Hc1.
  destruct (mac_loop_spec a b (j + 1) 0 j (l1, h1, k1) Fa Fb Hacc1) as ([[l2 h2] k2] & -> & Hacc2 & Hval2).
  - rewrite (proj1 Ha). lia.
  - rewrite (proj1 Hb). lia.
  - rewrite Hval1, Nat.add_1_r. change (msum (S j) 0 _) with (L j). unfold PRIME_DIFF. lia.
  - cbn [mbind res_mbind]. rewrite upd_Ok by (rewrite (proj1 Htmp); lia).
    cbn [mbind res_mbind]. eexists. split; [done|].
    rewrite Nat.add_1_r in Hval2. change (msum (S j) 0 _) with (L j) in Hval2.
    destruct Hacc2 as (Hl2 & Hh2 & Hk2). unfold val3 in Hval2 at 1. rewrite Hval1 in Hval2.
    unfold in_u in *. unfold outer_inv, in_u. split_and!; [done|lia..| | |].
    + unfold PRIME_DIFF in *. change (2 ^ 128) with (2 ^ 64 * 2 ^ 64) in *. lia.
    + by apply is_limbs_insert.
    + rewrite uval_take_insert by (rewrite (proj1 Htmp); lia).
      rewrite msum_S_r, <- Hinv, pow64_S. simpl Nat.add.
      replace (L j + PRIME_DIFF * H j) with (l2 + 2 ^ 64 * (h2 + 2 ^ 64 * k2) - (c0 + 2 ^ 64 * c1))
        by (change (2 ^ 128) with (2 ^ 64 * 2 ^ 64) in *; lia). ring.
Qed.
End Mul.

(** ** Reduction *)

(** The radix and the prime. *)
Definition R3072 : Z := 2 ^ (64 * Z.of_nat U3072_LIMBS).
Definition P3072 : Z := R3072 - PRIME_DIFF.

Lemma R3072_large : 2 ^ 128 * 2 ^ 128 ≤ R3072.
Proof. apply Z.leb_le. vm_compute. reflexivity. Qed.

Lemma P3072_large : PRIME_DIFF < 2 ^ 21 ∧ 2 ^ 200 < P3072 < R3072.
Proof. pose proof R3072_large. unfold P3072, PRIME_DIFF. lia. Qed.

Lemma forallb_max l :
  Forall (in_u 64) l →
  forallb (λ x, x =? 2 ^ 64 - 1) l = (uval l =? 2 ^ (64 * Z.of_nat (length l)) - 1).
Proof.
  induction 1 as [|x l Hx Hl IH]; [done|]. cbn [forallb length]. rewrite IH, uval_cons, pow64_S.
  unfold in_u in Hx. pose proof (uval_bound l Hl) as Hb.
  set (M := 2 ^ (64 * Z.of_nat (length l))) in *.
  destruct (Z.eqb_spec x (2 ^ 64 - 1)), (Z.eqb_spec (uval l) (M - 1)),
    (Z.eqb_spec (x + 2 ^ 64 * uval l) (2 ^ 64 * M - 1)); simpl; lia.
Qed.

Lemma is_overflow_spec l : is_limbs U3072_LIMBS l → is_overflow l = (P3072 <=? uval l).
Proof.
  intros [Hlen Hl]. unfold is_overflow. destruct l as [|x l]; [done|].
  apply Forall_cons in Hl as [Hx Hl]. injection Hlen as Hlen. change (drop 1 (x :: l)) with (drop 0 l). rewrite drop_0.
  change (limb (x :: l) 0) with x. rewrite forallb_max by done. rewrite uval_cons.
  pose proof (uval_bound l Hl) as Hb. unfold P3072, R3072, U3072_LIMBS.
  rewrite pow64_S, <- Hlen. set (M := 2 ^ (64 * Z.of_nat (length l))) in *.
  unfold in_u, PRIME_DIFF in *.
  destruct (Z.leb_spec x (2 ^ 64 - 1 - 1103717)), (Z.eqb_spec (uval l) (M - 1)),
    (Z.leb_spec (2 ^ 64 * M - 1103717) (x + 2 ^ 64 * uval l)); lia.
Qed.

Lemma full_reduce_spec l :
  is_limbs U3072_LIMBS l →
  is_limbs U3072_LIMBS (full_reduce l) ∧ uval (full_reduce l) = (uval l + PRIME_DIFF) mod R3072.
Proof.
  intros Hl. unfold full_reduce.
  pose proof (add_two_limbs_spec U3072_LIMBS l PRIME_DIFF 0 Hl ltac:(unfold in_u, PRIME_DIFF; lia)
    ltac:(unfold in_u; lia)) as Hs.
  destruct (add_two_limbs l PRIME_DIFF 0) as [[r d0] d1]. destruct Hs as (Hr & _ & _ & He). simpl.
  split; [done|]. fold R3072 in He. pose proof (uval_bound r (proj2 Hr)) as Hb.
  rewrite (proj1 Hr) in Hb. fold R3072 in Hb.
  replace (uval l + PRIME_DIFF) with (uval r + (d0 + 2 ^ 64 * d1) * R3072) by lia.
  rewrite Z.mod_add, Z.mod_small by lia. done.
Qed.

(** Reducing an overflown value subtracts the prime once. *)
Definition reduce_once (l : list Z) : list Z := if is_overflow l then full_reduce l else l.

Lemma reduce_once_spec l :
  is_limbs U3072_LIMBS l →
  is_limbs U3072_LIMBS (reduce_once l) ∧ uval (reduce_once l) = uval l mod P3072.
Proof.
  intros Hl. unfold reduce_once. rewrite is_overflow_spec by done.
  pose proof (uval_bound l (proj2 Hl)) as Hb. rewrite (proj1 Hl) in Hb. fold R3072 in Hb.
  pose proof P3072_large. destruct (full_reduce_spec l Hl) as [Hr Hv]. unfold P3072 in *.
  destruct (Z.leb_spec (R3072 - PRIME_DIFF) (uval l)).
  - split; [done|]. rewrite Hv.
    replace (uval l + PRIME_DIFF) with (uval l - (R3072 - PRIME_DIFF) + 1 * R3072) by lia.
    rewrite Z.mod_add, Z.mod_small by lia.
    apply (Z.mod_unique_pos _ _ 1); lia.
  - split; [done|]. by rewrite Z.mod_small by lia.
Qed.

(** The last two conditional reductions bring [s + k R] below the prime. *)
Lemma final_reduce_spec s k :
  is_limbs U3072_LIMBS s → k = 0 ∨ (k = 1 ∧ uval s < 2 ^ 128) →
  let s1 := if is_overflow s then full_reduce s else s in
  let s2 := if negb (k =? 0) then full_reduce s1 else s1 in
  is_limbs U3072_LIMBS s2 ∧ uval s2 = (uval s + R3072 * k) mod P3072.
Proof.
  intros Hs Hk. fold (reduce_once s). destruct (reduce_once_spec s Hs) as [H1 Hv1].
  pose proof P3072_large as [HPD HP]. destruct Hk as [->|[-> Hsm]]; simpl negb; cbn iota zeta.
  - split; [done|]. by rewrite Hv1, Z.mul_0_r, Z.add_0_r.
  - destruct (full_reduce_spec (reduce_once s) H1) as [H2 Hv2]. split; [done|].
    pose proof (uval_bound s (proj2 Hs)). rewrite Hv2, Hv1, (Z.mod_small (uval s)) by lia.
    rewrite Z.mod_small by (unfold P3072, PRIME_DIFF in *; lia).
    apply (Z.mod_unique_pos _ _ 1); unfold P3072, PRIME_DIFF in *; lia.
Qed.

Lemma u3072_one_spec : is_limbs U3072_LIMBS u3072_one ∧ uval u3072_one = 1.
Proof.
  split; [|done]. apply is_limbs_insert; [apply is_limbs_replicate|unfold in_u; lia].
Qed.

(** Folding the high half: the product is congruent to the folded sum. *)
Lemma fold_congruence a b T c :
  is_limbs U3072_LIMBS a → is_limbs U3072_LIMBS b →
  T + R3072 * c =
    msum (U3072_LIMBS - 1) 0
      (λ t, 2 ^ (64 * Z.of_nat t) * (conv_low a b t + PRIME_DIFF * conv_high U3072_LIMBS a b t)) +
    2 ^ (64 * Z.of_nat (U3072_LIMBS - 1)) * conv_low a b (U3072_LIMBS - 1) →
  (T + c * PRIME_DIFF) mod P3072 = (uval a * uval b) mod P3072.
Proof.
  intros Ha Hb HT.
  pose proof (product_split U3072_LIMBS a b (proj1 Ha) (proj1 Hb) ltac:(unfold U3072_LIMBS; lia)) as Hp.
  fold R3072 in Hp.
  set (HS := msum (U3072_LIMBS - 1) 0 (λ j, 2 ^ (64 * Z.of_nat j) * conv_high U3072_LIMBS a b j)) in *.
  rewrite (msum_ext _ _ _ (λ t, 2 ^ (64 * Z.of_nat t) * conv_low a b t +
    PRIME_DIFF * (2 ^ (64 * Z.of_nat t) * conv_high U3072_LIMBS a b t))) in HT by (intros; lia).
  rewrite msum_add, msum_mul in HT. fold HS in HT.
  assert (uval a * uval b = T + c * PRIME_DIFF + (HS + c) * P3072) as ->.
  { rewrite Hp. unfold P3072. lia. }
  rewrite Z.mod_add; [done|]. pose proof P3072_large. lia.
Qed.

(** The last limb joins the invariant of the outer loop into the folded sum. *)
Lemma last_limb_spec a b c0 c1 tmp l h k :
  is_limbs U3072_LIMBS tmp → outer_inv a b (U3072_LIMBS - 1) (c0, c1, 0, tmp) → in_u 64 l →
  val3 (l, h, k) = c0 + 2 ^ 64 * c1 + conv_low a b (U3072_LIMBS - 1) →
  let tmp' := <[(U3072_LIMBS - 1)%nat := l]> tmp in
  is_limbs U3072_LIMBS tmp' ∧
  uval tmp' + R3072 * (h + 2 ^ 64 * k) = msum (U3072_LIMBS - 1) 0
      (λ t, 2 ^ (64 * Z.of_nat t) * (conv_low a b t + PRIME_DIFF * conv_high U3072_LIMBS a b t)) +
    2 ^ (64 * Z.of_nat (U3072_LIMBS - 1)) * conv_low a b (U3072_LIMBS - 1).
Proof.
  intros Htmp (_ & _ & _ & _ & _ & Hinv) Hl Hval tmp'.
  assert (is_limbs U3072_LIMBS tmp') as Htmp' by (by apply is_limbs_insert).
  split; [done|]. rewrite <- Hinv.
  assert (uval tmp' = uval (take (U3072_LIMBS - 1) tmp) + 2 ^ (64 * Z.of_nat (U3072_LIMBS - 1)) * l) as ->.
  { rewrite <- uval_take_insert by (rewrite (proj1 Htmp); unfold U3072_LIMBS; lia).
    f_equal. symmetry. apply take_ge. rewrite (proj1 Htmp'). unfold U3072_LIMBS. lia. }
  unfold R3072. change U3072_LIMBS with (S (U3072_LIMBS - 1)) at 3. rewrite pow64_S.
  unfold val3 in Hval. change (2 ^ 128) with (2 ^ 64 * 2 ^ 64) in Hval.
  replace (conv_low a b (U3072_LIMBS - 1)) with (l + 2 ^ 64 * (h + 2 ^ 64 * k) - (c0 + 2 ^ 64 * c1))
    by lia. ring.
Qed.

Lemma mul_columns_spec a b :
  is_limbs U3072_LIMBS a → is_limbs U3072_LIMBS b →
  ∃ tmp h k, mul_columns a b = Ok (tmp, h, k) ∧ is_limbs U3072_LIMBS tmp ∧
    in_u 64 h ∧ in_u 64 k ∧ h + 2 ^ 64 * k < 2 ^ 93 ∧
    (uval tmp + (h + 2 ^ 64 * k) * PRIME_DIFF) mod P3072 = (uval a * uval b) mod P3072.
Proof.
  intros Ha Hb. unfold mul_columns.
  destruct (for_loop_rule (outer_inv a b) (U3072_LIMBS - 1) 0 (mul_outer a b) (0, 0, 0, u3072_one))
    as ([[[c0 c1] c2] tmp] & -> & Hinv).
  { destruct u3072_one_spec. unfold outer_inv, in_u. split_and!; try done; lia. }
  { intros j st Hj. apply mul_outer_spec; [done|done|lia]. }
  rewrite Nat.add_0_l in Hinv. pose proof Hinv as (-> & Hc0 & Hc1 & Hcb & Htmp & _).
  cbn [mbind res_mbind assert_p Z.eqb]. unfold in_u in Hc0, Hc1.
  pose proof (low_bound a b Ha Hb (U3072_LIMBS - 1) ltac:(unfold U3072_LIMBS; lia)) as HLb.
  destruct (mac_loop_spec a b U3072_LIMBS 0 (U3072_LIMBS - 1) (c0, c1, 0) (proj2 Ha) (proj2 Hb))
    as ([[l h] k] & -> & (Hl & Hh & Hk) & Hval).
  { unfold acc_wf, in_u. lia. } { rewrite (proj1 Ha). lia. }
  { rewrite (proj1 Hb). unfold U3072_LIMBS. lia. }
  { change (msum U3072_LIMBS 0 _) with (conv_low a b (U3072_LIMBS - 1)). unfold val3. lia. }
  change (msum U3072_LIMBS 0 _) with (conv_low a b (U3072_LIMBS - 1)) in Hval.
  cbn [mbind res_mbind].
  rewrite upd_Ok by (rewrite (proj1 Htmp); unfold U3072_LIMBS; lia). cbn [mbind res_mbind].
  destruct (last_limb_spec a b c0 c1 tmp l h k Htmp Hinv Hl) as [Htmp' HT].
  { rewrite Hval. unfold val3. lia. }
  apply fold_congruence in HT; [|done|done]. eexists _, _, _. split; [done|].
  split_and!; try done. unfold val3, in_u in *.
  change (2 ^ 128) with (2 ^ 64 * 2 ^ 64) in *. lia.
Qed.

Lemma u3072_mul_spec a b :
  is_limbs U3072_LIMBS a → is_limbs U3072_LIMBS b → a ≠ u3072_one →
  ∃ r, u3072_mul a b = Ok r ∧ is_limbs U3072_LIMBS r ∧ uval r = (uval a * uval b) mod P3072.
Proof.
  intros Ha Hb Hne. unfold u3072_mul. rewrite bool_decide_eq_false_2 by done.
  destruct (mul_columns_spec a b Ha Hb) as (tmp & h & k & -> & Htmp & Hh & Hk & Hcb & <-).
  cbn [mbind res_mbind].
  destruct (muln2_spec h k PRIME_DIFF) as (m0 & m1 & -> & Hm0 & Hm1 & Hmv);
    [done|done|unfold in_u, PRIME_DIFF; lia|unfold PRIME_DIFF; lia|].
  cbn [mbind res_mbind].
  pose proof (add_two_limbs_spec U3072_LIMBS tmp m0 m1 Htmp Hm0 Hm1) as Hadd.
  destruct (add_two_limbs tmp m0 m1) as [[s d0] d1]. destruct Hadd as (Hs & Hd0 & Hd1 & He).
  fold R3072 in He. rewrite Hmv in He.
  pose proof (uval_bound tmp (proj2 Htmp)) as Htb. rewrite (proj1 Htmp) in Htb. fold R3072 in Htb.
  pose proof (uval_bound s (proj2 Hs)) as Hsb. pose proof R3072_large. unfold in_u in *.
  assert ((h + 2 ^ 64 * k) * PRIME_DIFF < 2 ^ 128) by (unfold PRIME_DIFF; lia).
  assert (d1 = 0 ∧ (d0 = 0 ∨ d0 = 1 ∧ uval s < 2 ^ 128)) as [-> Hd] by nia.
  cbn [assert_p Z.eqb mbind res_mbind].
  assert ((d0 =? 0) || (d0 =? 1) = true) as -> by (destruct Hd as [->|[-> _]]; done).
  cbn [assert_p mbind res_mbind].
  destruct (final_reduce_spec s d0 Hs Hd) as [Hr Hrv]. eexists. split; [done|]. split; [done|].
  rewrite Hrv. f_equal. lia.
Qed.

(** The short-circuit for a left operand of one makes the product exact only
    up to congruence. *)
Lemma u3072_mul_total a b :
  is_limbs U3072_LIMBS a → is_limbs U3072_LIMBS b →
  ∃ r, u3072_mul a b = Ok r ∧ is_limbs U3072_LIMBS r ∧
       uval r mod P3072 = (uval a * uval b) mod P3072.
Proof.
  intros Ha Hb. destruct (decide (a = u3072_one)) as [->|Hne].
  - exists b. unfold u3072_mul. rewrite bool_decide_eq_true_2 by done.
    rewrite (proj2 u3072_one_spec), Z.mul_1_l. done.
  - destruct (u3072_mul_spec a b Ha Hb Hne) as (r & Hr & Hl & Hv). exists r. split_and!; [done|done|].
    rewrite Hv. apply Z.mod_mod. pose proof P3072_large. lia.
Qed.

(** ** Inversion and division *)

Lemma limbs_of_spec n v :
  0 ≤ v < 2 ^ (64 * Z.of_nat n) → is_limbs n (limbs_of n v) ∧ uval (limbs_of n v) = v.
Proof.
  revert v; induction n as [|n IH]; intros v Hv; cbn [limbs_of].
  { rewrite uval_nil. simpl in Hv. split; [done|lia]. }
  rewrite pow64_S in Hv. destruct (IH (v / 2 ^ 64)) as [[Hlen Hl] He].
  { split; [apply Z.div_pos; lia|]. apply Z.div_lt_upper_bound; lia. }
  split; [split; [simpl; by rewrite Hlen|by constructor]|].
  rewrite uval_cons, He. pose proof (Z.div_mod v (2 ^ 64)). lia.
Qed.

Lemma UINT_PRIME_value : uval UINT_PRIME = P3072.
Proof. apply Z.eqb_eq. vm_compute. reflexivity. Qed.

Lemma u3072_zero_iff l : is_limbs U3072_LIMBS l → l = u3072_zero ↔ uval l = 0.
Proof.
  intros [Hlen Hl]. split; [intros ->; apply uval_replicate|]. intros H0.
  apply uval_inj; [by rewrite Hlen|done|apply is_limbs_replicate|].
  rewrite H0. symmetry. apply uval_replicate.
Qed.

Section InverseLemmas.
Context `{HL : ModInverseLaws}.

Lemma u3072_inverse_spec x :
  is_limbs U3072_LIMBS x → Z.gcd (uval x) P3072 = 1 →
  ∃ r, u3072_inverse x = Ok r ∧ is_limbs U3072_LIMBS r ∧ 0 < uval r < P3072 ∧
       (uval x * uval r) mod P3072 = 1.
Proof.
  intros Hx Hg. pose proof P3072_large as [_ HP]. unfold u3072_inverse. fold (reduce_once x).
  destruct (reduce_once_spec x Hx) as [Ha Hav]. set (a := reduce_once x) in *.
  assert (Z.gcd (uval a) P3072 = 1) as Hga.
  { rewrite Hav. rewrite Z.gcd_mod by lia. by rewrite Z.gcd_comm. }
  assert (0 < uval a < P3072) as Hab.
  { pose proof (Z.mod_pos_bound (uval x) P3072 ltac:(lia)). destruct (decide (uval a = 0)) as [Hz|]; [|lia].
    rewrite Hz, Z.gcd_0_l, Z.abs_eq in Hga by lia. lia. }
  rewrite bool_decide_eq_false_2 by (rewrite u3072_zero_iff by done; lia).
  unfold uint_mod_inverse. rewrite UINT_PRIME_value, (proj1 Ha).
  destruct (mod_inverse_coprime (uval a) P3072 Hab Hga) as [y Hy]. rewrite Hy.
  cbn [fmap option_fmap option_map unwrap].
  apply mod_inverse_Some in Hy as [Hyb Hyv]; [|done].
  destruct (limbs_of_spec U3072_LIMBS y) as [Hl Hlv]; [fold R3072; lia|].
  eexists. split; [done|]. rewrite Hlv. split_and!; try done; try lia.
  rewrite Hav, Z.mul_mod_idemp_l in Hyv by lia. done.
Qed.

Lemma gcd_full_reduce x :
  is_limbs U3072_LIMBS x →
  (if is_overflow x then u3072_inverse (full_reduce x) else u3072_inverse x) =
  u3072_inverse (reduce_once x).
Proof. intros Hx. unfold reduce_once. by destruct (is_overflow x). Qed.

Lemma u3072_div_spec x y :
  is_limbs U3072_LIMBS x → is_limbs U3072_LIMBS y → Z.gcd (uval y) P3072 = 1 →
  ∃ r, u3072_div x y = Ok r ∧ is_limbs U3072_LIMBS r ∧ 0 ≤ uval r < P3072 ∧
       (uval r * uval y) mod P3072 = uval x mod P3072.
Proof.
  intros Hx Hy Hg. pose proof P3072_large as [_ HP]. unfold u3072_div. rewrite gcd_full_reduce by done.
  destruct (reduce_once_spec y Hy) as [Hy' Hyv'].
  destruct (u3072_inverse_spec (reduce_once y) Hy') as (i & -> & Hi & Hib & Hiv).
  { rewrite Hyv', Z.gcd_mod by lia. by rewrite Z.gcd_comm. }
  rewrite Hyv', Z.mul_mod_idemp_l in Hiv by lia.
  cbn [mbind res_mbind]. fold (reduce_once x). destruct (reduce_once_spec x Hx) as [Hx' Hxv'].
  destruct (u3072_mul_total (reduce_once x) i Hx' Hi) as (r & -> & Hr & Hrv).
  cbn [mbind res_mbind]. fold (reduce_once r). destruct (reduce_once_spec r Hr) as [Hr' Hrv'].
  eexists. split; [done|]. split; [done|]. rewrite Hrv'.
  pose proof (Z.mod_pos_bound (uval r) P3072 ltac:(lia)). split; [lia|].
  rewrite Hrv, Hxv', Z.mul_mod_idemp_l, <- Z.mul_assoc, Z.mul_mod_idemp_l by lia.
  rewrite (Z.mul_comm (uval i)).
  rewrite <- Z.mul_mod_idemp_r, Hiv, Z.mul_1_r by lia. done.
Qed.
End InverseLemmas.

(** ** Theorems *)

(** The limb multiplication is multiplication in the field: on any two
    arrays of 48 limbs, reduced or not, [mul] runs without an overflow panic
    or a failed assertion and returns 48 limbs congruent to the product modulo
    2^3072 - 1103717; and, unless the left operand is one (whose short-circuit
    returns the right operand as it is), the result is the canonical
    representative below the prime. *)
Theorem u3072_mul_correct a b :
  is_limbs U3072_LIMBS a → is_limbs U3072_LIMBS b →
  ∃ r, u3072_mul a b = Ok r ∧ is_limbs U3072_LIMBS r ∧
       uval r mod (2 ^ 3072 - PRIME_DIFF) = (uval a * uval b) mod (2 ^ 3072 - PRIME_DIFF) ∧
       (a ≠ u3072_one → uval r < 2 ^ 3072 - PRIME_DIFF).
Proof.
  intros Ha Hb. change (2 ^ 3072 - PRIME_DIFF) with P3072.
  destruct (u3072_mul_total a b Ha Hb) as (r & Hr & Hl & Hv). exists r. split_and!; try done.
  intros Hne. destruct (u3072_mul_spec a b Ha Hb Hne) as (r' & Hr' & _ & Hv').
  assert (r' = r) as <- by congruence. rewrite Hv'. apply Z.mod_pos_bound.
  pose proof P3072_large. lia.
Qed.

(** Division inverts multiplication: for a divisor coprime to the modulus
    (every non-zero residue, the modulus being prime), [div] succeeds with the
    canonical quotient, the unique value below the prime that times the
    divisor gives the dividend back. *)
Theorem u3072_div_correct `{ModInverseLaws} x y :
  is_limbs U3072_LIMBS x → is_limbs U3072_LIMBS y → Z.gcd (uval y) P3072 = 1 →
  ∃ r, u3072_div x y = Ok r ∧ is_limbs U3072_LIMBS r ∧ 0 ≤ uval r < P3072 ∧
       (uval r * uval y) mod P3072 = uval x mod P3072.
Proof. apply u3072_div_spec. Qed.

(** The extended Euclidean algorithm, for the witnesses: [r0] and [r1] stay
    congruent to [s0 * x] and [s1 * x]. *)
Fixpoint egcd (fuel : nat) (r0 s0 r1 s1 : Z) : Z * Z :=
  match fuel with
  | O => (r0, s0)
  | S fuel =>
      if r1 =? 0 then (r0, s0) else egcd fuel r1 s1 (r0 mod r1) (s0 - r0 / r1 * s1)
  end.

Definition euclid_inverse : ModInverse := λ x m,
  let '(g, s) := egcd (Z.to_nat (2 * Z.log2_up m)) m 0 x 1 in
  if g =? 1 then Some (s mod m) else None.

Lemma egcd_spec fuel x m r0 s0 r1 s1 :
  0 < m → 0 ≤ r1 < r0 → r0 * r1 < 2 ^ Z.of_nat fuel →
  r0 mod m = (s0 * x) mod m → r1 mod m = (s1 * x) mod m →
  let '(g, s) := egcd fuel r0 s0 r1 s1 in g = Z.gcd r0 r1 ∧ g mod m = (s * x) mod m.
Proof.
  intros Hm. revert r0 s0 r1 s1; induction fuel as [|fuel IH]; intros r0 s0 r1 s1 Hr Hf H0 H1.
  - assert (r1 = 0) as -> by (simpl in Hf; nia). simpl. rewrite Z.gcd_0_r, Z.abs_eq by lia. done.
  - simpl. destruct (Z.eqb_spec r1 0) as [->|Hnz].
    { rewrite Z.gcd_0_r, Z.abs_eq by lia. done. }
    pose proof (Z.mod_pos_bound r0 r1 ltac:(lia)) as Hb.
    pose proof (Z.div_mod r0 r1 ltac:(lia)) as Hdm. pose proof (Z.div_str_pos r0 r1 ltac:(lia)).
    rewrite Nat2Z.inj_succ, Z.pow_succ_r in Hf by lia.
    specialize (IH r1 s1 (r0 mod r1) (s0 - r0 / r1 * s1) Hb ltac:(nia) H1).
    destruct (egcd _ _ _ _ _) as [g s]. rewrite (Z.gcd_comm r0 r1), <- (Z.gcd_mod r0 r1) by lia.
    rewrite (Z.gcd_comm (r0 mod r1)). apply IH.
    replace (r0 mod r1) with (r0 - r0 / r1 * r1) by lia.
    assert ((r0 / r1 * r1) mod m = (r0 / r1 * (s1 * x)) mod m) as Hq
      by (rewrite <- (Z.mul_mod_idemp_r _ r1), H1, Z.mul_mod_idemp_r by lia; done).
    rewrite Zminus_mod, H0, Hq, <- Zminus_mod. f_equal. lia.
Qed.

Lemma euclid_inverse_laws : ModInverseLaws euclid_inverse.
Proof.
  assert (∀ x m, 0 < x < m → ∃ s, egcd (Z.to_nat (2 * Z.log2_up m)) m 0 x 1 = (Z.gcd m x, s) ∧
    Z.gcd m x mod m = (s * x) mod m) as Hspec.
  { intros x m Hx. pose proof (egcd_spec (Z.to_nat (2 * Z.log2_up m)) x m m 0 x 1) as Hs.
    destruct (egcd _ _ _ _ _) as [g s]. exists s. destruct Hs as [-> Hs]; try done; try lia.
    - pose proof (Z.log2_up_nonneg m). rewrite Z2Nat.id by lia.
      pose proof (Z.log2_up_spec m ltac:(lia)) as [_ Hle].
      replace (2 * Z.log2_up m) with (Z.log2_up m + Z.log2_up m) by lia. rewrite Z.pow_add_r by lia. nia.
    - rewrite Z.mod_same, Z.mod_0_l; lia.
    - f_equal. lia. }
  split; unfold nat_mod_inverse, euclid_inverse; intros x m.
  - intros y Hx. destruct (Hspec x m Hx) as (s & -> & Hs).
    destruct (Z.eqb_spec (Z.gcd m x) 1) as [Hg|]; [|done]. intros [= <-]. rewrite Hg in Hs.
    rewrite Z.mod_1_l in Hs by lia. rewrite Z.mul_mod_idemp_r, (Z.mul_comm x) by lia.
    split; [|by rewrite <- Hs]. pose proof (Z.mod_pos_bound s m ltac:(lia)).
    destruct (decide (s mod m = 0)) as [Hz|]; [|lia].
    rewrite <- Z.mul_mod_idemp_l, Hz, Z.mod_0_l in Hs; lia.
  - intros Hx Hg. destruct (Hspec x m Hx) as (s & -> & _). rewrite Z.gcd_comm, Hg. simpl. eauto.
Qed.

Definition max_limbs : list Z := replicate U3072_LIMBS (2 ^ 64 - 1).

Lemma max_limbs_wf : is_limbs U3072_LIMBS max_limbs.
Proof. split; [done|]. apply Forall_replicate. unfold in_u. lia. Qed.

Lemma u3072_mul_correct_witness :
  ∃ r, u3072_mul max_limbs max_limbs = Ok r ∧ is_limbs U3072_LIMBS r ∧
       uval r mod (2 ^ 3072 - PRIME_DIFF) =
         (uval max_limbs * uval max_limbs) mod (2 ^ 3072 - PRIME_DIFF) ∧
       (max_limbs ≠ u3072_one → uval r < 2 ^ 3072 - PRIME_DIFF).
Proof. apply (u3072_mul_correct max_limbs max_limbs max_limbs_wf max_limbs_wf). Defined.

Lemma u3072_div_correct_witness :
  ∃ r, @u3072_div euclid_inverse max_limbs u3072_one = Ok r ∧ is_limbs U3072_LIMBS r ∧
       0 ≤ uval r < P3072 ∧ (uval r * uval u3072_one) mod P3072 = uval max_limbs mod P3072.
Proof.
  apply (@u3072_div_correct euclid_inverse euclid_inverse_laws);
    [apply max_limbs_wf|apply u3072_one_spec|].
  rewrite (proj2 u3072_one_spec). apply Z.gcd_1_l.
Defined.
