(* ===== verification/MuHash.v ===== *)
(** * MuHash: the multiset hash (crypto/muhash/src/lib.rs)

    A fraction of 3072-bit field elements ([U3072]): adding an element
    multiplies the numerator, removing one the denominator, and the hash is
    taken of the quotient.  The theorems say the result depends only on the
    multiset: not on the order of the operations, and not on elements that
    were added and removed again.

    The keyed BLAKE2b hashes and the ChaCha20 stream are parameters. *)

From S2P Require Import Prelude Bytes Limbs Uint U3072.

Definition ELEMENT_BYTE_SIZE : nat := 384.

(** [MuHashElementHash::hash], [ChaCha20Rng::from_seed(..).fill_bytes] over an
    [ELEMENT_BYTE_SIZE] buffer, and [MuHashFinalizeHash::hash]. *)
Class MuHashOracles := {
  element_hash : bytes → bytes;
  chacha_fill : bytes → bytes;
  finalize_hash : bytes → bytes;
}.

Class MuHashOraclesLaws `(MuHashOracles) := {
  chacha_fill_array seed : is_array ELEMENT_BYTE_SIZE (chacha_fill seed);
}.

Record MuHash := mkMuHash { numerator : list Z; denominator : list Z }.

Inductive OverflowError := MuHashOverflow.
Inductive MuHashError := NonNormalizedValue.

Definition muhash_new : MuHash := mkMuHash u3072_one u3072_one.

Section Ops.
Context `{MuHashOracles, ModInverse}.

Definition data_to_element (data : bytes) : list Z :=
  let hash := element_hash data in
  let stream := chacha_fill hash in
  u3072_from_le_bytes stream.

Definition add_element (m : MuHash) (data : bytes) : res Empty_set MuHash :=
  n ← u3072_mul (numerator m) (data_to_element data);
  Ok (mkMuHash n (denominator m)).

Definition remove_element (m : MuHash) (data : bytes) : res Empty_set MuHash :=
  d ← u3072_mul (denominator m) (data_to_element data);
  Ok (mkMuHash (numerator m) d).

Definition muhash_combine (m other : MuHash) : res Empty_set MuHash :=
  n ← u3072_mul (numerator m) (numerator other);
  d ← u3072_mul (denominator m) (denominator other);
  Ok (mkMuHash n d).

Definition muhash_normalize (m : MuHash) : res Empty_set MuHash :=
  n ← u3072_div (numerator m) (denominator m);
  Ok (mkMuHash n u3072_one).

(** [serialize] and [finalize] normalize in place: they return the new state. *)
Definition muhash_serialize (m : MuHash) : res Empty_set (MuHash * bytes) :=
  m ← muhash_normalize m;
  Ok (m, u3072_to_le_bytes (numerator m)).

Definition muhash_finalize (m : MuHash) : res Empty_set (MuHash * bytes) :=
  '(m, serialized) ← muhash_serialize m;
  Ok (m, finalize_hash serialized).

Definition muhash_deserialize (data : bytes) : res OverflowError MuHash :=
  let n := u3072_from_le_bytes data in
  if is_overflow n then Err MuHashOverflow else Ok (mkMuHash n u3072_one).

(** [TryFrom<MuHash> for Uint3072] and back: the stored form. *)
Definition muhash_try_into (m : MuHash) : res MuHashError (list Z) :=
  if bool_decide (denominator m = u3072_one) then Ok (numerator m) else Err NonNormalizedValue.

Definition muhash_from_uint (u : list Z) : MuHash := mkMuHash u u3072_one.
End Ops.

(** ** Specification *)

Definition muhash_wf (m : MuHash) : Prop :=
  is_limbs U3072_LIMBS (numerator m) ∧ is_limbs U3072_LIMBS (denominator m).

(** An operation on a multiset hash. *)
Inductive mu_op := MuAdd (data : bytes) | MuRemove (data : bytes).

Section Spec.
Context `{HO : MuHashOraclesLaws, HI : ModInverseLaws}.

(** The residue an element stands for. *)
Definition elem (data : bytes) : Z := of_le_bytes (chacha_fill (element_hash data)).

Lemma data_to_element_spec data :
  is_limbs U3072_LIMBS (data_to_element data) ∧ uval (data_to_element data) = elem data.
Proof. apply words_of_le_bytes. apply chacha_fill_array. Qed.

Definition mu_step (m : MuHash) (op : mu_op) : res Empty_set MuHash :=
  match op with MuAdd d => add_element m d | MuRemove d => remove_element m d end.

Fixpoint mu_run (m : MuHash) (ops : list mu_op) : res Empty_set MuHash :=
  match ops with
  | [] => Ok m
  | op :: ops => m' ← mu_step m op; mu_run m' ops
  end.

(** The products of the added and of the removed elements. *)
Definition added (ops : list mu_op) : Z :=
  foldr (λ op acc, match op with MuAdd d => elem d * acc | MuRemove _ => acc end) 1 ops.
Definition removed (ops : list mu_op) : Z :=
  foldr (λ op acc, match op with MuAdd _ => acc | MuRemove d => elem d * acc end) 1 ops.

Lemma mod_mul_congr a b c : a mod P3072 = b mod P3072 → (a * c) mod P3072 = (b * c) mod P3072.
Proof.
  intros Hab. pose proof P3072_large.
  rewrite <- (Z.mul_mod_idemp_l a), <- (Z.mul_mod_idemp_l b) by lia. by rewrite Hab.
Qed.

Lemma mu_step_spec m op :
  muhash_wf m → ∃ m', mu_step m op = Ok m' ∧ muhash_wf m' ∧
    uval (numerator m') mod P3072 = (uval (numerator m) * added [op]) mod P3072 ∧
    uval (denominator m') mod P3072 = (uval (denominator m) * removed [op]) mod P3072 ∧
    (∀ d, op = MuAdd d → denominator m' = denominator m).
Proof.
  intros [Hn Hd]. destruct op as [d|d]; cbn [mu_step]; unfold add_element, remove_element.
  all: destruct (data_to_element_spec d) as [He Hev].
  - destruct (u3072_mul_total (numerator m) (data_to_element d) Hn He) as (r & -> & Hr & Hrv).
    eexists. split; [done|]. simpl. rewrite Hrv, Hev, !Z.mul_1_r.
    split_and!; [by split|done..|by intros ? [=]].
  - destruct (u3072_mul_total (denominator m) (data_to_element d) Hd He) as (r & -> & Hr & Hrv).
    eexists. split; [done|]. simpl. rewrite Hrv, Hev, !Z.mul_1_r.
    split_and!; [by split|done..|by intros ? [=]].
Qed.

Lemma added_cons op ops : added (op :: ops) = added [op] * added ops.
Proof. destruct op; simpl; lia. Qed.

Lemma removed_cons op ops : removed (op :: ops) = removed [op] * removed ops.
Proof. destruct op; simpl; lia. Qed.

Lemma mu_run_spec m ops :
  muhash_wf m → ∃ m', mu_run m ops = Ok m' ∧ muhash_wf m' ∧
    uval (numerator m') mod P3072 = (uval (numerator m) * added ops) mod P3072 ∧
    uval (denominator m') mod P3072 = (uval (denominator m) * removed ops) mod P3072 ∧
    (Forall (λ op, ∃ d, op = MuAdd d) ops → denominator m' = denominator m).
Proof.
  revert m; induction ops as [|op ops IH]; intros m Hm; cbn [mu_run].
  { exists m. simpl. rewrite !Z.mul_1_r. done. }
  destruct (mu_step_spec m op Hm) as (m1 & -> & Hm1 & Hn1 & Hd1 & Ha1). cbn [mbind res_mbind].
  destruct (IH m1 Hm1) as (m' & -> & Hm' & Hn' & Hd' & Ha'). exists m'. split; [done|].
  split; [done|]. rewrite added_cons, removed_cons, Hn', Hd'.
  split_and!.
  - rewrite (mod_mul_congr _ _ _ Hn1). f_equal. ring.
  - rewrite (mod_mul_congr _ _ _ Hd1). f_equal. ring.
  - intros [[d ->] Hrest]%Forall_cons. rewrite Ha' by done. by apply (Ha1 d).
Qed.

Lemma muhash_new_wf : muhash_wf muhash_new.
Proof. split; apply u3072_one_spec. Qed.

(** Serialization of a fraction with an invertible denominator. *)
Lemma muhash_serialize_spec m :
  muhash_wf m → Z.gcd (uval (denominator m)) P3072 = 1 →
  ∃ m' v, muhash_serialize m = Ok (m', le_bytes ELEMENT_BYTE_SIZE v) ∧ muhash_wf m' ∧
    denominator m' = u3072_one ∧ uval (numerator m') = v ∧ 0 ≤ v < P3072 ∧
    (v * uval (denominator m)) mod P3072 = uval (numerator m) mod P3072.
Proof.
  intros [Hn Hd] Hg. unfold muhash_serialize, muhash_normalize.
  destruct (u3072_div_spec _ _ Hn Hd Hg) as (r & -> & Hr & Hb & Hv). cbn [mbind res_mbind].
  eexists _, (uval r). split; [do 2 f_equal; apply (uint_to_le_bytes_spec U3072_LIMBS r Hr)|].
  split_and!; try done; try lia. split; [done|]. apply u3072_one_spec.
Qed.

(** The quotient is determined by the fraction. *)
Lemma quotient_unique v w d :
  Z.gcd d P3072 = 1 → 0 ≤ v < P3072 → 0 ≤ w < P3072 →
  (v * d) mod P3072 = (w * d) mod P3072 → v = w.
Proof.
  intros Hg Hv Hw He. pose proof P3072_large as HP.
  assert ((P3072 | (v - w) * d)) as Hdiv.
  { apply Z.mod_divide; [lia|]. rewrite Z.mul_sub_distr_r, Zminus_mod, He, Z.sub_diag.
    apply Z.mod_0_l. lia. }
  rewrite Z.mul_comm in Hdiv. apply Z.gauss in Hdiv; [|by rewrite Z.gcd_comm].
  destruct Hdiv as [k Hk]. clear HP He Hg. generalize dependent P3072. intros p Hv Hw Hk.
  assert (k = 0) as -> by nia. lia.
Qed.

(** Equal fractions have equal serializations. *)
Lemma muhash_serialize_congr m1 m2 :
  muhash_wf m1 → muhash_wf m2 →
  Z.gcd (uval (denominator m1)) P3072 = 1 → Z.gcd (uval (denominator m2)) P3072 = 1 →
  (uval (numerator m1) * uval (denominator m2)) mod P3072 =
  (uval (numerator m2) * uval (denominator m1)) mod P3072 →
  muhash_finalize m1 = muhash_finalize m2.
Proof.
  intros H1 H2 Hg1 Hg2 Hx. unfold muhash_finalize.
  destruct (muhash_serialize_spec m1 H1 Hg1) as (m1' & v & -> & Hw1 & Hd1 & Hn1 & Hv & Hvd).
  destruct (muhash_serialize_spec m2 H2 Hg2) as (m2' & w & -> & Hw2 & Hd2 & Hn2 & Hw & Hwd).
  set (d1 := uval (denominator m1)) in *. set (d2 := uval (denominator m2)) in *.
  assert (v = w) as <-.
  { apply (quotient_unique v w (d1 * d2)); [|done|done|].
    - by apply Z.coprime_mul_l.
    - pose proof (mod_mul_congr _ _ d2 Hvd) as E1. pose proof (mod_mul_congr _ _ d1 Hwd) as E2.
      replace (v * (d1 * d2)) with (v * d1 * d2) by ring.
      replace (w * (d1 * d2)) with (w * d2 * d1) by ring. congruence. }
  assert (m1' = m2') as ->; [|done].
  destruct m1' as [n1 e1], m2' as [n2 e2]; simpl in *. subst e1 e2. f_equal.
  destruct Hw1 as [[Hl1 F1] _], Hw2 as [[Hl2 F2] _]. simpl in *. apply uval_inj; [congruence|done|done|congruence].
Qed.

(** An add-only accumulator finalizes to the hash of its residue. *)
Definition mu_root (v : Z) : bytes := finalize_hash (le_bytes ELEMENT_BYTE_SIZE (v mod P3072)).

Lemma muhash_finalize_add_only m :
  muhash_wf m → denominator m = u3072_one →
  ∃ m', muhash_finalize m = Ok (m', mu_root (uval (numerator m))).
Proof.
  intros Hm Hd. pose proof P3072_large. unfold muhash_finalize.
  destruct (muhash_serialize_spec m Hm) as (m' & v & -> & _ & _ & _ & Hv & Hvd).
  { rewrite Hd, (proj2 u3072_one_spec). apply Z.gcd_1_l. }
  rewrite Hd, (proj2 u3072_one_spec), Z.mul_1_r, Z.mod_small in Hvd by done.
  exists m'. unfold mu_root. by rewrite <- Hvd.
Qed.

(** Removed elements are invertible. *)
Definition removes_ok (ops : list mu_op) : Prop := Z.gcd (removed ops) P3072 = 1.

Lemma mu_run_new ops :
  ∃ m, mu_run muhash_new ops = Ok m ∧ muhash_wf m ∧
    uval (numerator m) mod P3072 = added ops mod P3072 ∧
    uval (denominator m) mod P3072 = removed ops mod P3072.
Proof.
  destruct (mu_run_spec muhash_new ops muhash_new_wf) as (m & Hm & Hwf & Hn & Hd & _).
  exists m. simpl in Hn, Hd. rewrite (proj2 u3072_one_spec), Z.mul_1_l in Hn, Hd. done.
Qed.

Lemma gcd_congr a b : a mod P3072 = b mod P3072 → Z.gcd a P3072 = Z.gcd b P3072.
Proof.
  intros Hab. pose proof P3072_large.
  rewrite <- (Z.gcd_comm P3072 a), <- (Z.gcd_comm P3072 b), <- (Z.gcd_mod a), <- (Z.gcd_mod b) by lia.
  by rewrite Hab.
Qed.

(** Two runs whose fractions agree finalize alike. *)
Lemma mu_run_finalize_congr ops ops' :
  removes_ok ops → removes_ok ops' →
  added ops * removed ops' = added ops' * removed ops →
  ∃ m m' out, mu_run muhash_new ops = Ok m ∧ mu_run muhash_new ops' = Ok m' ∧
    muhash_finalize m = Ok out ∧ muhash_finalize m' = Ok out.
Proof.
  intros Hg Hg' Hx.
  destruct (mu_run_new ops) as (m & Hm & Hwf & Hn & Hd).
  destruct (mu_run_new ops') as (m' & Hm' & Hwf' & Hn' & Hd').
  apply gcd_congr in Hd as Hgd. apply gcd_congr in Hd' as Hgd'.
  unfold removes_ok in *. rewrite Hg in Hgd. rewrite Hg' in Hgd'.
  assert (muhash_finalize m = muhash_finalize m') as He.
  { apply muhash_serialize_congr; try done.
    rewrite (mod_mul_congr _ _ _ Hn), (mod_mul_congr _ _ _ Hn').
    rewrite !(Z.mul_comm (added _)), (mod_mul_congr _ _ _ Hd), (mod_mul_congr _ _ _ Hd').
    f_equal. lia. }
  destruct (muhash_serialize_spec m Hwf Hgd) as (m1 & v & Hs & _).
  exists m, m'. unfold muhash_finalize in *. rewrite Hs in *. eexists. by split_and!.
Qed.

Lemma added_removed_perm ops ops' :
  ops ≡ₚ ops' → added ops = added ops' ∧ removed ops = removed ops'.
Proof.
  induction 1 as [|op ops ops' _ [IH1 IH2]|o1 o2 ops|a b c _ [H1 H2] _ [H3 H4]]; [done| | |].
  - by rewrite added_cons, (added_cons op ops'), removed_cons, (removed_cons op ops'), IH1, IH2.
  - destruct o1, o2; simpl; split; ring.
  - split; congruence.
Qed.

(** C35. MuHash is a multiset hash: running the same additions and removals in
    any order, from the empty hash, never panics and ends in the same
    finalized hash and the same normalized state, as long as the removed
    elements are invertible in the field. *)
Theorem muhash_order_independent ops ops' :
  ops ≡ₚ ops' → removes_ok ops →
  ∃ m m' out, mu_run muhash_new ops = Ok m ∧ mu_run muhash_new ops' = Ok m' ∧
    muhash_finalize m = Ok out ∧ muhash_finalize m' = Ok out.
Proof.
  intros [Ha Hr]%added_removed_perm Hok.
  apply mu_run_finalize_congr; unfold removes_ok in *; [done|congruence|congruence].
Qed.

(** Removing an added element leaves no trace: a run that, in whatever
    order, contains an addition and a removal of the same data finalizes to
    the hash of the run without the two. *)
Theorem muhash_add_remove_cancel ops ops' d :
  ops ≡ₚ MuAdd d :: MuRemove d :: ops' → removes_ok ops →
  ∃ m m' out, mu_run muhash_new ops = Ok m ∧ mu_run muhash_new ops' = Ok m' ∧
    muhash_finalize m = Ok out ∧ muhash_finalize m' = Ok out.
Proof.
  intros [Ha Hr]%added_removed_perm Hok. simpl in Ha, Hr. unfold removes_ok in *.
  apply mu_run_finalize_congr; unfold removes_ok; [done| |rewrite Ha, Hr; ring].
  rewrite Hr in Hok. apply Z.bezout_1_gcd. apply Z.gcd_bezout in Hok as (u & v & Huv).
  exists (u * elem d), v. lia.
Qed.

(** Serialization round trip: the 384 bytes of a finalized hash decode to
    the normalized state they came from, and the decoder refuses exactly the
    byte strings whose value is not below the prime. *)
Theorem muhash_serialize_roundtrip m :
  muhash_wf m → Z.gcd (uval (denominator m)) P3072 = 1 →
  (∃ m' bs, muhash_serialize m = Ok (m', bs) ∧ muhash_deserialize bs = Ok m') ∧
  ∀ data, is_array ELEMENT_BYTE_SIZE data →
    muhash_deserialize data = Err MuHashOverflow ↔ P3072 ≤ of_le_bytes data.
Proof.
  intros Hm Hg. assert (∀ data, is_array ELEMENT_BYTE_SIZE data →
    is_limbs U3072_LIMBS (u3072_from_le_bytes data) ∧
    uval (u3072_from_le_bytes data) = of_le_bytes data) as Hof by (intros; by apply words_of_le_bytes).
  split.
  - destruct (muhash_serialize_spec m Hm Hg) as (m' & v & -> & [[Hl Hf] _] & Hd & Hn & Hv & _).
    pose proof P3072_large. eexists _, _. split; [done|]. unfold muhash_deserialize.
    destruct (Hof (le_bytes ELEMENT_BYTE_SIZE v)) as [Hl' Hv'].
    { split; [apply length_le_bytes|apply le_bytes_is_bytes]. }
    rewrite of_le_bytes_le_bytes in Hv' by (unfold in_u; change (2 ^ _) with R3072; lia).
    rewrite is_overflow_spec, Hv', (proj2 (Z.leb_gt _ _)) by (done || lia). f_equal.
    destruct m' as [n d]; cbn [numerator denominator] in *. subst d. f_equal.
    apply uval_inj; [destruct Hl'; congruence|apply Hl'|done|congruence].
  - intros data Hd. destruct (Hof data Hd) as [Hl Hv]. unfold muhash_deserialize.
    rewrite is_overflow_spec, Hv by done. destruct (Z.leb_spec P3072 (of_le_bytes data)); split; try done; lia.
Qed.
End Spec.

(** ** Witnesses *)

(** Oracles that stretch the data to an element. *)
Definition plain_oracles : MuHashOracles := {|
  element_hash := λ d, d;
  chacha_fill := λ s, le_bytes ELEMENT_BYTE_SIZE (of_le_bytes s);
  finalize_hash := λ b, b;
|}.

Lemma plain_oracles_laws : MuHashOraclesLaws plain_oracles.
Proof.
  split. intros. split; [apply length_le_bytes|apply le_bytes_is_bytes].
Qed.

Lemma muhash_order_independent_witness :
  ∃ m m' out,
    @mu_run plain_oracles muhash_new [MuAdd [5]; MuAdd [7]] = Ok m ∧
    @mu_run plain_oracles muhash_new [MuAdd [7]; MuAdd [5]] = Ok m' ∧
    @muhash_finalize plain_oracles euclid_inverse m = Ok out ∧
    @muhash_finalize plain_oracles euclid_inverse m' = Ok out.
Proof.
  apply (@muhash_order_independent plain_oracles plain_oracles_laws euclid_inverse euclid_inverse_laws
    [MuAdd [5]; MuAdd [7]] [MuAdd [7]; MuAdd [5]]).
  - apply Permutation_swap.
  - apply Z.gcd_1_l.
Defined.

Lemma muhash_add_remove_cancel_witness :
  ∃ m m' out,
    @mu_run plain_oracles muhash_new [MuRemove [1]; MuAdd [7]; MuAdd [1]] = Ok m ∧
    @mu_run plain_oracles muhash_new [MuAdd [7]] = Ok m' ∧
    @muhash_finalize plain_oracles euclid_inverse m = Ok out ∧
    @muhash_finalize plain_oracles euclid_inverse m' = Ok out.
Proof.
  apply (@muhash_add_remove_cancel plain_oracles plain_oracles_laws euclid_inverse euclid_inverse_laws
    [MuRemove [1]; MuAdd [7]; MuAdd [1]] [MuAdd [7]] [1]).
  - by apply (Permutation_app_comm [MuRemove [1]; MuAdd [7]] [MuAdd [1]]).
  - apply Z.gcd_1_l.
Defined.

Lemma muhash_serialize_roundtrip_witness :
  (∃ m' bs, @muhash_serialize euclid_inverse muhash_new = Ok (m', bs) ∧
            muhash_deserialize bs = Ok m') ∧
  ∀ data, is_array ELEMENT_BYTE_SIZE data →
    muhash_deserialize data = Err MuHashOverflow ↔ P3072 ≤ of_le_bytes data.
Proof.
  apply (@muhash_serialize_roundtrip euclid_inverse euclid_inverse_laws muhash_new).
  - apply muhash_new_wf.
  - apply Z.gcd_1_l.
Defined.
