(* ===== verification/Turnstile.v ===== *)
(** * The turnstile supply ledger (shielded-core/src/turnstile.rs)

    The public accounting of value entering (coinbase) and leaving (fees) the
    shielded pool, and the homomorphic value-commitment reference check.  The
    Pedersen commitments themselves are the orchard crate's: they are the
    fields of the class [ValueCommitScheme], with the algebraic laws the
    source relies on in [ValueCommitLaws]. *)

From S2P Require Import Prelude Bytes.

Inductive TurnstileViolation :=
| PoolUnderflow (coinbase fees : Z)
| Overflow
| CommitmentMismatch.

Record SupplyLedger := mkSupplyLedger {
  cumulative_coinbase : Z;
  cumulative_fees : Z;
}.

Definition ledger_new : SupplyLedger := mkSupplyLedger 0 0.

Definition from_totals (cb fees : Z) : SupplyLedger := mkSupplyLedger cb fees.

(** [self.cumulative_coinbase.checked_add(subsidy as u128).ok_or(Overflow)?] *)
Definition mint_coinbase (l : SupplyLedger) (subsidy : Z) : res TurnstileViolation SupplyLedger :=
  c ← ok_or Overflow (checked_add 128 (cumulative_coinbase l) subsidy);
  Ok (mkSupplyLedger c (cumulative_fees l)).

Definition collect_fees (l : SupplyLedger) (fee : Z) : res TurnstileViolation SupplyLedger :=
  f ← ok_or Overflow (checked_add 128 (cumulative_fees l) fee);
  Ok (mkSupplyLedger (cumulative_coinbase l) f).

Definition pool_value (l : SupplyLedger) : res TurnstileViolation Z :=
  ok_or (PoolUnderflow (cumulative_coinbase l) (cumulative_fees l))
        (checked_sub (cumulative_coinbase l) (cumulative_fees l)).

Definition ledger_check (l : SupplyLedger) : res TurnstileViolation unit :=
  _ ← pool_value l; Ok tt.

(** The ledger's type invariant: both totals are [u128] values. *)
Definition ledger_wf (l : SupplyLedger) : Prop :=
  in_u 128 (cumulative_coinbase l) ∧ in_u 128 (cumulative_fees l).

(** The supply invariant: the pool never holds a negative value. *)
Definition ledger_sound (l : SupplyLedger) : Prop :=
  ledger_wf l ∧ cumulative_fees l ≤ cumulative_coinbase l.

Lemma ledger_new_sound : ledger_sound ledger_new.
Proof. repeat split; simpl; lia. Qed.

Lemma mint_coinbase_Ok l s l' :
  mint_coinbase l s = Ok l' ↔
  l' = mkSupplyLedger (cumulative_coinbase l + s) (cumulative_fees l) ∧
  cumulative_coinbase l + s < 2 ^ 128.
Proof.
  unfold mint_coinbase. split.
  - intros H. res_inv. apply checked_add_Some in Hx as [-> ?]. done.
  - intros [-> H]. assert (checked_add 128 (cumulative_coinbase l) s = Some (cumulative_coinbase l + s)) as ->;
      [by apply checked_add_Some|done].
Qed.

Lemma collect_fees_Ok l s l' :
  collect_fees l s = Ok l' ↔
  l' = mkSupplyLedger (cumulative_coinbase l) (cumulative_fees l + s) ∧
  cumulative_fees l + s < 2 ^ 128.
Proof.
  unfold collect_fees. split.
  - intros H. res_inv. apply checked_add_Some in Hx as [-> ?]. done.
  - intros [-> H]. assert (checked_add 128 (cumulative_fees l) s = Some (cumulative_fees l + s)) as ->;
      [by apply checked_add_Some|done].
Qed.

Lemma pool_value_Ok l v :
  pool_value l = Ok v ↔
  v = cumulative_coinbase l - cumulative_fees l ∧ cumulative_fees l ≤ cumulative_coinbase l.
Proof. unfold pool_value. by rewrite ok_or_Ok, checked_sub_Some. Qed.

Lemma ledger_check_Ok l :
  ledger_check l = Ok tt ↔ cumulative_fees l ≤ cumulative_coinbase l.
Proof.
  unfold ledger_check. rewrite bind_Ok. setoid_rewrite pool_value_Ok.
  split; [naive_solver|]. intros. eexists; eauto.
Qed.

Lemma ledger_check_cases l :
  ledger_check l = Ok tt ∨
  ledger_check l = Err (PoolUnderflow (cumulative_coinbase l) (cumulative_fees l)).
Proof.
  unfold ledger_check, pool_value, checked_sub. case_match; simpl; auto.
Qed.

(** ** Value commitments *)

(** The orchard value-commitment types and operations the module calls. *)
Class ValueCommitScheme := {
  ValueCommitment : Type;
  Trapdoor : Type;
  ValueSum : Type;
  note_value_sub : Z → Z → ValueSum;
  derive : ValueSum → Trapdoor → ValueCommitment;
  vc_add : ValueCommitment → ValueCommitment → ValueCommitment;
  vc_to_bytes : ValueCommitment → bytes;
  trapdoor_from_bytes : bytes → option Trapdoor;
  trapdoor_add : Trapdoor → Trapdoor → Trapdoor;
}.

Section Commitments.
Context `{ValueCommitScheme}.

Definition zero_trapdoor : res Empty_set Trapdoor :=
  unwrap (trapdoor_from_bytes (replicate 32 0)).

(** [NoteValue] is [u64]; [NoteValue - NoteValue] yields the exact difference. *)
Definition value_sum (v : Z) : ValueSum :=
  if 0 <=? v then note_value_sub v 0 else note_value_sub 0 (Z.abs v).

Definition commit (value : Z) (rcv : Trapdoor) : ValueCommitment := derive (value_sum value) rcv.

Record ValueCommitmentAccumulator := mkAccumulator { acc_sum : ValueCommitment }.

Definition accumulator_new : res Empty_set ValueCommitmentAccumulator :=
  z ← zero_trapdoor; Ok (mkAccumulator (commit 0 z)).

Definition accumulator_add (a : ValueCommitmentAccumulator) (cv : ValueCommitment)
    : ValueCommitmentAccumulator := mkAccumulator (vc_add (acc_sum a) cv).

Definition accumulator_total (a : ValueCommitmentAccumulator) : ValueCommitment := acc_sum a.

(** [-pool_value] is an [i64] negation: it overflows on [i64::MIN]. *)
Definition reconcile (sum_cv : ValueCommitment) (pool : Z) (aggregate : Trapdoor)
    : res TurnstileViolation unit :=
  if pool =? - 2 ^ 63 then Panic else
  let expected := commit (- pool) aggregate in
  if bool_decide (vc_to_bytes sum_cv = vc_to_bytes expected) then Ok tt
  else Err CommitmentMismatch.
End Commitments.

(** What the module relies on: the difference of two note values only depends
    on their integer difference, commitments add in value and trapdoor, the
    all-zero encoding is the neutral trapdoor, and a commitment's encoding
    determines its value for a fixed trapdoor. *)
Class ValueCommitLaws `(ValueCommitScheme) := {
  sum_of : Z → ValueSum;
  note_value_sub_spec a b : note_value_sub a b = sum_of (a - b);
  derive_add x y r s :
    vc_add (derive (sum_of x) r) (derive (sum_of y) s) =
    derive (sum_of (x + y)) (trapdoor_add r s);
  zero_trapdoor_canonical :
    ∃ z, trapdoor_from_bytes (replicate 32 0) = Some z ∧ ∀ r, trapdoor_add z r = r;
  commitment_binding x y r :
    in_i 64 x → in_i 64 y →
    vc_to_bytes (derive (sum_of x) r) = vc_to_bytes (derive (sum_of y) r) → x = y;
}.

Section CommitmentLemmas.
Context `{HL : ValueCommitLaws}.

Lemma value_sum_spec v : value_sum v = sum_of v.
Proof.
  unfold value_sum. destruct (Z.leb_spec 0 v); rewrite note_value_sub_spec; f_equal; lia.
Qed.

Lemma commit_add x y r s : vc_add (commit x r) (commit y s) = commit (x + y) (trapdoor_add r s).
Proof. unfold commit. rewrite !value_sum_spec. apply derive_add. Qed.

(** The accumulator loop over the net commitments of a batch of actions. *)
Definition accumulate (actions : list (Z * Trapdoor)) (a : ValueCommitmentAccumulator)
    : ValueCommitmentAccumulator :=
  foldl (λ a '(v, r), accumulator_add a (commit v r)) a actions.

Lemma accumulate_spec actions v0 r0 :
  acc_sum (accumulate actions (mkAccumulator (commit v0 r0))) =
  commit (v0 + sumZ (actions.*1)) (foldl trapdoor_add r0 (actions.*2)).
Proof.
  unfold accumulate.
  revert v0 r0; induction actions as [|[v r] l IH]; intros v0 r0; cbn [foldl].
  { simpl. by rewrite Z.add_0_r. }
  change (accumulator_add (mkAccumulator (commit v0 r0)) (commit v r))
    with (mkAccumulator (vc_add (commit v0 r0) (commit v r))).
  rewrite commit_add, IH. csimpl. rewrite sumZ_cons. f_equal. lia.
Qed.

Lemma reconcile_commit v r pool :
  in_i 64 v → in_i 64 pool → pool ≠ - 2 ^ 63 →
  reconcile (commit v r) pool r = if bool_decide (pool = - v) then Ok tt else Err CommitmentMismatch.
Proof.
  intros Hv Hp Hmin. unfold reconcile. rewrite (proj2 (Z.eqb_neq _ _)) by done.
  assert (vc_to_bytes (commit v r) = vc_to_bytes (commit (- pool) r) ↔ pool = - v) as Hiff.
  { split; [|by intros ->; rewrite Z.opp_involutive]. unfold commit.
    rewrite !value_sum_spec. intros Heq. apply commitment_binding in Heq; [lia|done|].
    unfold in_i in *. lia. }
  by rewrite (bool_decide_ext _ _ Hiff).
Qed.

(** Reconciliation: after summing the net value commitments of any batch
    of actions, the check against a public pool value under the aggregate
    trapdoor passes exactly when the pool value is the negated sum of the
    actions' net values, and fails with [CommitmentMismatch] otherwise. *)
Theorem reconcile_detects_inflation (actions : list (Z * Trapdoor)) (pool : Z) :
  in_i 64 (sumZ (actions.*1)) → in_i 64 pool → pool ≠ - 2 ^ 63 →
  ∃ z a, zero_trapdoor = Ok z ∧ accumulator_new = Ok a ∧
    reconcile (accumulator_total (accumulate actions a)) pool
              (foldl trapdoor_add z (actions.*2)) =
    if bool_decide (pool = - sumZ (actions.*1)) then Ok tt else Err CommitmentMismatch.
Proof.
  intros Hv Hp Hmin. destruct zero_trapdoor_canonical as (z & Hz & _).
  exists z, (mkAccumulator (commit 0 z)).
  unfold accumulator_new, zero_trapdoor. rewrite Hz. repeat split.
  unfold accumulator_total. rewrite accumulate_spec. by apply reconcile_commit.
Qed.
End CommitmentLemmas.

(** A concrete scheme: the commitment to [v] under [r] is the pair itself. *)
Definition pair_scheme : ValueCommitScheme := {|
  ValueCommitment := Z * Z;
  Trapdoor := Z;
  ValueSum := Z;
  note_value_sub := Z.sub;
  derive v r := (v, r);
  vc_add '(v, r) '(w, s) := (v + w, r + s);
  vc_to_bytes '(v, r) := [v; r];
  trapdoor_from_bytes l := Some (of_le_bytes l);
  trapdoor_add := Z.add;
|}.

Definition pair_scheme_laws : ValueCommitLaws pair_scheme.
Proof.
  refine {| sum_of := (λ x, x) : Z → @ValueSum pair_scheme |}; try done.
  - exists 0. by split.
  - simpl. intros x y r _ _ Heq. by simplify_eq.
Defined.

Lemma reconcile_detects_inflation_witness :
  ∃ z a, @zero_trapdoor pair_scheme = Ok z ∧ @accumulator_new pair_scheme = Ok a ∧
    @reconcile pair_scheme
      (@accumulator_total pair_scheme (@accumulate pair_scheme [(10, 1); (-3, 2)] a)) (-7)
      (foldl (@trapdoor_add pair_scheme) z [1; 2]) = Ok tt.
Proof.
  apply (@reconcile_detects_inflation pair_scheme pair_scheme_laws [(10, 1); (-3, 2)] (-7));
    unfold in_i; vm_compute; done.
Defined.
