(* ===== verification/Nullifier.v ===== *)
(** * Nullifier conflict resolution (shielded-core/src/nullifier.rs)

    The spent-nullifier set, and the resolver that walks transactions in
    GHOSTDAG accepted order and lets the first transaction revealing a
    nullifier win.  The trait [NullifierSet] is a type class, with the
    in-memory set as the reference instance; the finalized set of the resolver
    is any instance of it. *)

From S2P Require Import Prelude Bytes.

(** [NullifierBytes = [u8; 32]]. *)
Abbreviation NullifierBytes := (list Z).

(** [trait NullifierSet]. *)
Class NullifierSet (T : Type) := contains : T → NullifierBytes → bool.

(** The set a [NullifierSet] denotes, as a predicate. *)
Definition spent `{NullifierSet T} (s : T) (nf : NullifierBytes) : Prop := contains s nf = true.

Record MemNullifierSet := mkMem { mem_set : gset NullifierBytes }.

Definition mem_new : MemNullifierSet := mkMem ∅.

(** [HashSet::insert] returns whether the value was newly inserted. *)
Definition mem_insert (s : MemNullifierSet) (nf : NullifierBytes) : MemNullifierSet * bool :=
  (mkMem ({[nf]} ∪ mem_set s), bool_decide (nf ∉ mem_set s)).

Definition mem_extend (s : MemNullifierSet) (nfs : list NullifierBytes) : MemNullifierSet :=
  mkMem (foldl (λ m nf, {[nf]} ∪ m) (mem_set s) nfs).

Definition mem_len (s : MemNullifierSet) : nat := size (mem_set s).

Definition mem_is_empty (s : MemNullifierSet) : bool := bool_decide (mem_set s = ∅).

#[global] Instance mem_contains : NullifierSet MemNullifierSet :=
  λ s nf, bool_decide (nf ∈ mem_set s).

Inductive NullifierConflict :=
| AlreadySpent (nf : NullifierBytes)
| DuplicateWithinTx (nf : NullifierBytes).

Section Resolver.
Context {T : Type} `{HS : NullifierSet T}.

Record NullifierConflictResolver := mkResolver {
  finalized : T;
  seen : gset NullifierBytes;
  accepted_nfs : list NullifierBytes;
}.

Definition resolver_new (f : T) : NullifierConflictResolver := mkResolver f ∅ [].

Definition conflicts (r : NullifierConflictResolver) (nf : NullifierBytes) : bool :=
  contains (finalized r) nf || bool_decide (nf ∈ seen r).

(** The checking loop of [try_accept]: [within_tx.insert] fails first, then
    the conflict with the finalized or already seen nullifiers. *)
Fixpoint first_conflict (r : NullifierConflictResolver) (within_tx : gset NullifierBytes)
    (nfs : list NullifierBytes) : option NullifierConflict :=
  match nfs with
  | [] => None
  | nf :: nfs =>
      if bool_decide (nf ∈ within_tx) then Some (DuplicateWithinTx nf)
      else if conflicts r nf then Some (AlreadySpent nf)
      else first_conflict r ({[nf]} ∪ within_tx) nfs
  end.

(** The recording loop of [try_accept]. *)
Definition record_nullifiers (r : NullifierConflictResolver) (nfs : list NullifierBytes)
    : NullifierConflictResolver :=
  foldl (λ r nf, mkResolver (finalized r) ({[nf]} ∪ seen r) (accepted_nfs r ++ [nf])) r nfs.

(** [&mut self] is passed and returned explicitly, on the error path too. *)
Definition try_accept (r : NullifierConflictResolver) (nfs : list NullifierBytes)
    : NullifierConflictResolver * res NullifierConflict unit :=
  match first_conflict r ∅ nfs with
  | Some e => (r, Err e)
  | None => (record_nullifiers r nfs, Ok tt)
  end.

Definition into_accepted (r : NullifierConflictResolver) : list NullifierBytes := accepted_nfs r.

(** ** Lemmas *)

Lemma first_conflict_None r w nfs :
  first_conflict r w nfs = None ↔
  NoDup nfs ∧ Forall (λ nf, nf ∉ w ∧ conflicts r nf = false) nfs.
Proof.
  revert w; induction nfs as [|nf nfs IH]; intros w; simpl.
  { split; [by repeat constructor|done]. }
  case_bool_decide as Hw; [split; [done|]; rewrite Forall_cons; naive_solver|].
  destruct (conflicts r nf) eqn:Hc.
  { split; [done|]. rewrite Forall_cons. intros (_ & [_ ?] & _). congruence. }
  rewrite IH, NoDup_cons, Forall_cons, !Forall_forall. set_solver.
Qed.

Lemma record_nullifiers_spec r nfs :
  record_nullifiers r nfs =
  mkResolver (finalized r) (list_to_set nfs ∪ seen r) (accepted_nfs r ++ nfs).
Proof.
  unfold record_nullifiers. revert r; induction nfs as [|nf nfs IH]; intros r; simpl.
  { destruct r; simpl. rewrite app_nil_r. f_equal. set_solver. }
  rewrite IH. simpl. rewrite <- (assoc_L (++)). f_equal. set_solver.
Qed.

Lemma try_accept_Ok r nfs r' :
  try_accept r nfs = (r', Ok tt) ↔
  NoDup nfs ∧ Forall (λ nf, conflicts r nf = false) nfs ∧ r' = record_nullifiers r nfs.
Proof.
  unfold try_accept. destruct (first_conflict r ∅ nfs) eqn:Hf.
  - split; [by intros [=]|]. intros (Hnd & Hall & _). exfalso.
    assert (first_conflict r ∅ nfs = None) by
      (apply first_conflict_None; split; [done|]; eapply Forall_impl; [done|]; set_solver).
    congruence.
  - apply first_conflict_None in Hf as [Hnd Hall].
    split; [intros [= <-]|intros (_ & _ & ->); done].
    split_and!; [done| |done]. eapply Forall_impl; [done|]. naive_solver.
Qed.

Lemma try_accept_Err r nfs r' e :
  try_accept r nfs = (r', Err e) → r' = r ∧ first_conflict r ∅ nfs = Some e.
Proof. unfold try_accept. case_match; naive_solver. Qed.

Lemma try_accept_cases r nfs :
  (∃ e, try_accept r nfs = (r, Err e)) ∨
  (NoDup nfs ∧ Forall (λ nf, conflicts r nf = false) nfs ∧
   try_accept r nfs = (record_nullifiers r nfs, Ok tt)).
Proof.
  destruct (try_accept r nfs) as [r' [[]|e|]] eqn:H.
  - right. apply try_accept_Ok in H as (?&?&->). auto.
  - left. apply try_accept_Err in H as [-> ?]. eauto.
  - unfold try_accept in H. by case_match.
Qed.

(** The resolver's invariant: what it accepted is duplicate free, is exactly
    what it has seen, and was not finalized before. *)
Definition resolver_wf (r : NullifierConflictResolver) : Prop :=
  NoDup (accepted_nfs r) ∧ seen r = list_to_set (accepted_nfs r) ∧
  Forall (λ nf, contains (finalized r) nf = false) (accepted_nfs r).

Lemma resolver_new_wf f : resolver_wf (resolver_new f).
Proof. repeat constructor. Qed.

Lemma conflicts_spec r nf :
  resolver_wf r →
  conflicts r nf = true ↔ contains (finalized r) nf = true ∨ nf ∈ accepted_nfs r.
Proof.
  intros (_ & Hseen & _). unfold conflicts.
  rewrite orb_true_iff, bool_decide_eq_true, Hseen, elem_of_list_to_set. done.
Qed.

Lemma conflicts_false r nf :
  resolver_wf r →
  conflicts r nf = false ↔ contains (finalized r) nf = false ∧ nf ∉ accepted_nfs r.
Proof.
  intros Hwf. rewrite <- !not_true_iff_false, conflicts_spec by done. naive_solver.
Qed.

Lemma record_nullifiers_wf r nfs :
  resolver_wf r → NoDup nfs → Forall (λ nf, conflicts r nf = false) nfs →
  resolver_wf (record_nullifiers r nfs).
Proof.
  intros Hwf Hnd Hall. rewrite record_nullifiers_spec.
  rewrite Forall_forall in Hall. setoid_rewrite conflicts_false in Hall; [|done].
  destruct Hwf as (Hr & Hseen & Hfin). split_and!; simpl.
  - apply NoDup_app; split_and!; [done| |done]. naive_solver.
  - rewrite Hseen, list_to_set_app_L. set_solver.
  - apply Forall_app; split; [done|]. apply Forall_forall. naive_solver.
Qed.

Lemma try_accept_wf r nfs : resolver_wf r → resolver_wf (try_accept r nfs).1.
Proof.
  intros Hwf. destruct (try_accept_cases r nfs) as [[e ->]|(?&?&->)]; [done|].
  by apply record_nullifiers_wf.
Qed.

Lemma try_accept_finalized r nfs : finalized (try_accept r nfs).1 = finalized r.
Proof.
  destruct (try_accept_cases r nfs) as [[e ->]|(?&?&->)]; [done|].
  by rewrite record_nullifiers_spec.
Qed.
End Resolver.

Arguments NullifierConflictResolver T : clear implicits.
#[export] Hint Resolve resolver_new_wf try_accept_wf : core.

(** ** Resolution of a whole batch *)

Lemma mem_extend_set m nfs :
  mem_set (mem_extend (mkMem m) nfs) = m ∪ list_to_set nfs.
Proof.
  unfold mem_extend. simpl. revert m.
  induction nfs as [|nf nfs IH]; intros m; simpl; [set_solver|]. rewrite IH. set_solver.
Qed.

Section Batch.
Context {T : Type} `{HS : NullifierSet T}.

(** [try_accept] over a list of transactions' nullifiers, in accepted order;
    the booleans say which transactions were accepted. *)
Fixpoint resolve_batch (r : NullifierConflictResolver T) (txs : list (list NullifierBytes))
    : NullifierConflictResolver T * list bool :=
  match txs with
  | [] => (r, [])
  | nfs :: txs =>
      let '(r', o) := try_accept r nfs in
      let '(r'', keep) := resolve_batch r' txs in
      (r'', is_ok o :: keep)
  end.

(** The specification of first-in-accepted-order resolution: with [spent0]
    the nullifiers spent before, transaction [i] survives iff its own
    nullifiers are distinct and none is in [spent0] or revealed by a surviving
    earlier transaction. *)
Fixpoint first_wins (spent0 : NullifierBytes → Prop) (txs : list (list NullifierBytes))
    (keep : list bool) : Prop :=
  match txs, keep with
  | [], [] => True
  | nfs :: txs, k :: keep =>
      (k = true ↔ NoDup nfs ∧ ∀ nf, nf ∈ nfs → ¬ spent0 nf) ∧
      first_wins (λ nf, spent0 nf ∨ (k = true ∧ nf ∈ nfs)) txs keep
  | _, _ => False
  end.

Lemma first_wins_proper P Q txs keep :
  (∀ nf, P nf ↔ Q nf) → first_wins P txs keep → first_wins Q txs keep.
Proof.
  revert P Q keep; induction txs as [|nfs txs IH]; intros P Q [|k keep] Heq; simpl; try done.
  intros [Hk Hrest]. split.
  - rewrite Hk. by setoid_rewrite Heq.
  - eapply IH; [|done]. intros nf. simpl. by rewrite Heq.
Qed.

Lemma resolve_batch_wf r txs : resolver_wf r → resolver_wf (resolve_batch r txs).1.
Proof.
  revert r; induction txs as [|nfs txs IH]; intros r Hwf; simpl; [done|].
  pose proof (try_accept_wf r nfs Hwf) as Hwf'. destruct (try_accept r nfs) as [r' o].
  specialize (IH r' Hwf'). by destruct (resolve_batch r' txs).
Qed.

Lemma resolve_batch_first_wins r txs :
  resolver_wf r →
  first_wins (λ nf, contains (finalized r) nf = true ∨ nf ∈ accepted_nfs r) txs
             (resolve_batch r txs).2.
Proof.
  revert r; induction txs as [|nfs txs IH]; intros r Hwf; simpl; [done|].
  pose proof (try_accept_wf r nfs Hwf) as Hwf'.
  destruct (try_accept_cases r nfs) as [[e He]|(Hnd & Hall & He)]; rewrite He in *; simpl in *.
  - specialize (IH r Hwf). destruct (resolve_batch r txs) as [r'' keep]; simpl in *. split.
    + split; [done|]. intros [Hnd Hns]. exfalso.
      assert (try_accept r nfs = (record_nullifiers r nfs, Ok tt)) as Hok.
      { apply try_accept_Ok. split_and!; [done| |done]. apply Forall_forall. intros nf Hin.
        apply not_true_iff_false. rewrite conflicts_spec by done. auto. }
      congruence.
    + eapply first_wins_proper; [|done]. naive_solver.
  - specialize (IH _ Hwf'). destruct (resolve_batch _ txs) as [r'' keep]; simpl in *. split.
    + split; [|done]. intros _. split; [done|]. intros nf Hin. rewrite <- conflicts_spec by done.
      rewrite Forall_forall in Hall. by rewrite Hall.
    + eapply first_wins_proper; [|done]. intros nf. rewrite record_nullifiers_spec. simpl.
      rewrite elem_of_app. naive_solver.
Qed.
End Batch.

Section BatchTheorems.
Context {T : Type} `{HS : NullifierSet T}.

(** The transactions a keep-mask selects. *)
Fixpoint kept {A} (keep : list bool) (txs : list A) : list A :=
  match keep, txs with
  | k :: keep, x :: txs => if k then x :: kept keep txs else kept keep txs
  | _, _ => []
  end.

Lemma resolve_batch_accepted (r : NullifierConflictResolver T) txs :
  finalized (resolve_batch r txs).1 = finalized r ∧
  accepted_nfs (resolve_batch r txs).1 =
    accepted_nfs r ++ concat (kept (resolve_batch r txs).2 txs).
Proof.
  revert r; induction txs as [|nfs txs IH]; intros r; simpl.
  { by rewrite app_nil_r. }
  destruct (try_accept_cases r nfs) as [[e He]|(Hnd & Hall & He)]; rewrite He.
  - destruct (IH r) as [IH1 IH2]. destruct (resolve_batch r txs) as [r'' keep]; simpl in *.
    done.
  - destruct (IH (record_nullifiers r nfs)) as [IH1 IH2].
    destruct (resolve_batch _ txs) as [r'' keep]; simpl in *.
    rewrite record_nullifiers_spec in *; simpl in *. rewrite IH2.
    by rewrite <- app_assoc.
Qed.

Lemma resolve_batch_length (r : NullifierConflictResolver T) txs :
  length (resolve_batch r txs).2 = length txs.
Proof.
  revert r; induction txs as [|nfs txs IH]; intros r; simpl; [done|].
  destruct (try_accept r nfs) as [r' o]. specialize (IH r').
  destruct (resolve_batch r' txs). simpl in *. by f_equal.
Qed.

Lemma resolve_batch_spec (f : T) (txs : list (list NullifierBytes)) :
  let '(r, keep) := resolve_batch (resolver_new f) txs in
  first_wins (spent f) txs keep ∧
  into_accepted r = concat (kept keep txs) ∧
  NoDup (into_accepted r) ∧
  Forall (λ nf, ¬ spent f nf) (into_accepted r).
Proof.
  pose proof (resolve_batch_first_wins (resolver_new f) txs (resolver_new_wf f)) as Hfw.
  pose proof (resolve_batch_wf (resolver_new f) txs (resolver_new_wf f)) as (Hnd & _ & Hfin).
  pose proof (resolve_batch_accepted (resolver_new f) txs) as [Hf Hacc].
  destruct (resolve_batch (resolver_new f) txs) as [r keep]; simpl in *.
  split_and!; [|done|done|].
  - eapply first_wins_proper; [|done]. unfold spent. set_solver.
  - rewrite Hf in Hfin. eapply Forall_impl; [exact Hfin|]. unfold spent. simpl. congruence.
Qed.

(** No double spend: resolving any batch of transactions in accepted order
    against a finalized set keeps a transaction exactly when its nullifiers
    are distinct and neither finalized nor revealed by an earlier kept
    transaction; the nullifiers handed over for insertion are those of the
    kept transactions, in order, without duplicates, none of them spent
    before. *)
Theorem resolve_batch_no_double_spend (f : T) (txs : list (list NullifierBytes)) :
  let '(r, keep) := resolve_batch (resolver_new f) txs in
  first_wins (spent f) txs keep ∧
  into_accepted r = concat (kept keep txs) ∧
  NoDup (into_accepted r) ∧
  Forall (λ nf, ¬ spent f nf) (into_accepted r).
Proof. exact (resolve_batch_spec f txs). Qed.

Lemma first_conflict_Some (r : NullifierConflictResolver T) w nfs e :
  first_conflict r w nfs = Some e →
  ∃ pre nf post, nfs = pre ++ nf :: post ∧ first_conflict r w pre = None ∧
    ((e = DuplicateWithinTx nf ∧ (nf ∈ w ∨ nf ∈ pre)) ∨
     (e = AlreadySpent nf ∧ nf ∉ w ∧ nf ∉ pre ∧ conflicts r nf = true)).
Proof.
  revert w; induction nfs as [|nf nfs IH]; intros w; cbn [first_conflict]; [done|].
  case_bool_decide as Hw.
  { intros [= <-]. exists [], nf, nfs. naive_solver. }
  destruct (conflicts r nf) eqn:Hc.
  { intros [= <-]. exists [], nf, nfs. set_solver. }
  intros (pre & nf' & post & -> & Hpre & Hcase)%IH.
  exists (nf :: pre), nf', post. cbn [first_conflict].
  rewrite bool_decide_eq_false_2, Hc by done. set_solver.
Qed.

(** Rejection is all-or-nothing and names the first offender: a rejected
    transaction leaves the resolver unchanged, and the reported nullifier is
    the first of the transaction that repeats an earlier one of the same
    transaction ([DuplicateWithinTx]) or is already spent ([AlreadySpent]). *)
Theorem try_accept_reject (r r' : NullifierConflictResolver T) nfs e :
  try_accept r nfs = (r', Err e) →
  r' = r ∧
  ∃ pre nf post, nfs = pre ++ nf :: post ∧
    NoDup pre ∧ Forall (λ x, conflicts r x = false) pre ∧
    ((e = DuplicateWithinTx nf ∧ nf ∈ pre) ∨
     (e = AlreadySpent nf ∧ nf ∉ pre ∧ conflicts r nf = true)).
Proof.
  intros [-> H]%try_accept_Err. split; [done|].
  apply first_conflict_Some in H as (pre & nf & post & -> & Hpre & Hcase).
  apply first_conflict_None in Hpre as [Hnd Hall].
  exists pre, nf, post. split_and!; [done|done| |set_solver].
  eapply Forall_impl; [done|]. naive_solver.
Qed.
End BatchTheorems.

Lemma try_accept_reject_witness :
  let r := resolver_new (mkMem {[ [5] ]}) in
  try_accept r [[1]; [5]] = (r, Err (AlreadySpent [5])) ∧
  ∃ pre nf post, [[1]; [5]] = pre ++ nf :: post ∧
    NoDup pre ∧ Forall (λ x, conflicts r x = false) pre ∧
    ((AlreadySpent [5] = DuplicateWithinTx nf ∧ nf ∈ pre) ∨
     (AlreadySpent [5] = AlreadySpent nf ∧ nf ∉ pre ∧ conflicts r nf = true)).
Proof.
  intros r. split; [by vm_compute|].
  apply (try_accept_reject r r [[1]; [5]] (AlreadySpent [5])). by vm_compute.
Defined.
