(* ===== verification/NoteTree.v ===== *)
(** * The note-commitment tree and the state root
      (shielded-core/src/tree.rs, shielded-core/src/commitment.rs)

    [GlobalTree] wraps the frontier of the incrementalmerkletree crate over
    Orchard's node type; both crates are outside the repository and are the
    fields of the class [OrchardTree].  [OrchardTreeLaws] states their
    documented behaviour, and [list_tree] is a concrete instance. *)

From S2P Require Import Prelude Bytes.

(** The parts of a non-empty frontier. *)
Record NonEmptyFrontier (Node : Type) := mkNonEmpty {
  position : Z;
  leaf : Node;
  ommers : list Node;
}.
Arguments mkNonEmpty {Node} position leaf ommers.
Arguments position {Node} _.
Arguments leaf {Node} _.
Arguments ommers {Node} _.

Class OrchardTree := {
  Cmx : Type;
  Node : Type;
  Frontier : Type;
  Anchor : Type;
  frontier_empty : Frontier;
  frontier_append : Frontier → Node → Frontier * bool;
  frontier_value : Frontier → option (NonEmptyFrontier Node);
  frontier_root : Frontier → Node;
  frontier_from_parts : Z → Node → list Node → option Frontier;
  node_from_cmx : Cmx → Node;
  node_to_bytes : Node → bytes;
  node_of_bytes : bytes → option Node;
  cmx_from_bytes : bytes → option Cmx;
  anchor_empty_tree : Anchor;
  anchor_from_node : Node → Anchor;
  anchor_to_bytes : Anchor → bytes;
}.

Inductive TreeFull := TreeFullError.

Inductive TreeStateError := NonCanonicalNode | Inconsistent.

(** [FrontierState]: the persisted snapshot. *)
Record FrontierState := mkFrontierState {
  fs_size : Z;
  fs_leaf : option bytes;
  fs_ommers : list bytes;
}.

Definition frontier_state_default : FrontierState := mkFrontierState 0 None [].

Section Tree.
Context `{OrchardTree}.

Record ChainBlockSubtree := mkSubtree { commitments : list Cmx }.

Definition subtree_new : ChainBlockSubtree := mkSubtree [].

Definition subtree_push (s : ChainBlockSubtree) (c : Cmx) : ChainBlockSubtree :=
  mkSubtree (commitments s ++ [c]).

Definition subtree_len (s : ChainBlockSubtree) : nat := length (commitments s).

Record GlobalTree := mkTree {
  frontier : Frontier;
  tree_size : Z;
}.

Definition tree_new : GlobalTree := mkTree frontier_empty 0.

(** [NoteCommitmentTree::append]: the tree is returned on the error path too,
    with whatever the frontier's own [append] left in it. *)
Definition tree_append (t : GlobalTree) (cmx : Cmx) : GlobalTree * res TreeFull unit :=
  let '(f, ok) := frontier_append (frontier t) (node_from_cmx cmx) in
  if ok then
    match add_p (E := TreeFull) 64 (tree_size t) 1 with
    | Ok s => (mkTree f s, Ok tt)
    | Err e => (t, Err e)
    | Panic => (t, Panic)
    end
  else (mkTree f (tree_size t), Err TreeFullError).

Fixpoint append_leaves (t : GlobalTree) (cs : list Cmx) : GlobalTree * res TreeFull unit :=
  match cs with
  | [] => (t, Ok tt)
  | c :: cs =>
      match tree_append t c with
      | (t', Ok _) => append_leaves t' cs
      | (t', e) => (t', e)
      end
  end.

Definition append_subtree (t : GlobalTree) (s : ChainBlockSubtree) : GlobalTree * res TreeFull unit :=
  append_leaves t (commitments s).

Definition tree_anchor (t : GlobalTree) : Anchor :=
  match frontier_value (frontier t) with
  | None => anchor_empty_tree
  | Some _ => anchor_from_node (frontier_root (frontier t))
  end.

Definition to_state (t : GlobalTree) : FrontierState :=
  match frontier_value (frontier t) with
  | None => mkFrontierState 0 None []
  | Some nef =>
      mkFrontierState (tree_size t) (Some (node_to_bytes (leaf nef)))
                      (node_to_bytes <$> ommers nef)
  end.

Definition node_from_bytes (b : bytes) : res TreeStateError Node :=
  ok_or NonCanonicalNode (node_of_bytes b).

(** [iter().map(node_from_bytes).collect::<Result<Vec<_>, _>>()]. *)
Fixpoint nodes_from_bytes (l : list bytes) : res TreeStateError (list Node) :=
  match l with
  | [] => Ok []
  | b :: l => n ← node_from_bytes b; ns ← nodes_from_bytes l; Ok (n :: ns)
  end.

Definition from_state (s : FrontierState) : res TreeStateError GlobalTree :=
  if fs_size s =? 0 then Ok tree_new else
  lb ← ok_or Inconsistent (fs_leaf s);
  lf ← node_from_bytes lb;
  om ← nodes_from_bytes (fs_ommers s);
  pos ← sub_p (fs_size s) 1;
  f ← ok_or Inconsistent (frontier_from_parts pos lf om);
  Ok (mkTree f (fs_size s)).
End Tree.

(** Number of leaves a frontier holds. *)
Definition frontier_leaves `{OrchardTree} (f : Frontier) : Z :=
  match frontier_value f with None => 0 | Some nef => position nef + 1 end.

(** The frontier's documented behaviour: [append] succeeds until the tree of
    depth 32 is full and puts the new leaf at the next position, the parts of
    a frontier rebuild it, and node encodings are canonical. *)
Class OrchardTreeLaws `(OrchardTree) := {
  value_empty : frontier_value frontier_empty = None;
  value_None f : frontier_value f = None → f = frontier_empty;
  value_position f nef : frontier_value f = Some nef → 0 ≤ position nef < 2 ^ 32;
  append_ok f n : (frontier_append f n).2 = true ↔ frontier_leaves f < 2 ^ 32;
  append_value f n f' :
    frontier_append f n = (f', true) →
    ∃ om, frontier_value f' = Some (mkNonEmpty (frontier_leaves f) n om);
  parts_value f nef :
    frontier_value f = Some nef →
    frontier_from_parts (position nef) (leaf nef) (ommers nef) = Some f;
  node_roundtrip n : node_of_bytes (node_to_bytes n) = Some n;
}.

Section TreeLemmas.
Context `{HL : OrchardTreeLaws}.

(** The tree's invariant: [size] counts the leaves of the frontier. *)
Definition tree_wf (t : GlobalTree) : Prop := tree_size t = frontier_leaves (frontier t).

Lemma tree_new_wf : tree_wf tree_new.
Proof. unfold tree_wf, frontier_leaves. simpl. by rewrite value_empty. Qed.

Lemma frontier_leaves_range f : 0 ≤ frontier_leaves f ≤ 2 ^ 32.
Proof.
  unfold frontier_leaves. destruct (frontier_value f) eqn:Hf; [|lia].
  apply value_position in Hf. lia.
Qed.

Lemma append_leaves_count f n f' :
  frontier_append f n = (f', true) → frontier_leaves f' = frontier_leaves f + 1.
Proof. intros (om & Hv)%append_value. unfold frontier_leaves at 1. by rewrite Hv. Qed.

Lemma tree_append_spec t c :
  tree_wf t →
  if bool_decide (tree_size t < 2 ^ 32) then
    ∃ t', tree_append t c = (t', Ok tt) ∧ tree_wf t' ∧ tree_size t' = tree_size t + 1
  else (tree_append t c).2 = Err TreeFullError ∧ tree_size (tree_append t c).1 = tree_size t.
Proof.
  unfold tree_wf. intros Hwf. rewrite Hwf. unfold tree_append.
  destruct (frontier_append (frontier t) (node_from_cmx c)) as [f ok] eqn:Hf.
  pose proof (append_ok (frontier t) (node_from_cmx c)) as Hok. rewrite Hf in Hok. simpl in Hok.
  case_bool_decide as Hlt.
  - rewrite (proj2 Hok Hlt) in *. pose proof (frontier_leaves_range (frontier t)).
    assert (add_p (E := TreeFull) 64 (tree_size t) 1 = Ok (tree_size t + 1)) as ->
      by (apply add_p_Ok; lia).
    eexists; split_and!; [done| |by simpl; rewrite Hwf].
    simpl. rewrite Hwf. symmetry. by eapply append_leaves_count.
  - destruct ok; [naive_solver|]. simpl. by rewrite Hwf.
Qed.

Lemma append_leaves_spec t cs :
  tree_wf t →
  if bool_decide (tree_size t + Z.of_nat (length cs) ≤ 2 ^ 32) then
    ∃ t', append_leaves t cs = (t', Ok tt) ∧ tree_wf t' ∧
          tree_size t' = tree_size t + Z.of_nat (length cs)
  else (append_leaves t cs).2 = Err TreeFullError ∧ tree_size (append_leaves t cs).1 = 2 ^ 32.
Proof.
  revert t; induction cs as [|c cs IH]; intros t Hwf; cbn [append_leaves length].
  { pose proof (frontier_leaves_range (frontier t)). unfold tree_wf in Hwf.
    rewrite bool_decide_eq_true_2 by lia. exists t. split_and!; [done|done|simpl; lia]. }
  pose proof (tree_append_spec t c Hwf) as Hs. case_bool_decide as Hlt.
  - destruct Hs as (t' & -> & Hwf' & Hsz). specialize (IH t' Hwf'). rewrite Hsz in IH.
    replace (tree_size t + 1 + Z.of_nat (length cs)) with (tree_size t + Z.of_nat (S (length cs)))
      in IH by lia. done.
  - destruct (tree_append t c) as [t' [|e|]]; simpl in Hs; destruct Hs as [Hs Hsz]; try done.
    pose proof (frontier_leaves_range (frontier t)). unfold tree_wf in Hwf.
    rewrite bool_decide_eq_false_2 by lia. simpl. split; [done|lia].
Qed.

Lemma nodes_roundtrip l : nodes_from_bytes (node_to_bytes <$> l) = Ok l.
Proof.
  induction l as [|n l IH]; csimpl; [done|].
  unfold node_from_bytes. rewrite node_roundtrip. simpl. by rewrite IH.
Qed.

Lemma from_state_to_state t : tree_wf t → from_state (to_state t) = Ok t.
Proof.
  destruct t as [f s]. unfold tree_wf, from_state, to_state, frontier_leaves; simpl.
  destruct (frontier_value f) as [nef|] eqn:Hv; intros ->; simpl.
  - pose proof (value_position f nef Hv). rewrite (proj2 (Z.eqb_neq _ _)) by lia.
    unfold node_from_bytes. rewrite node_roundtrip; simpl. rewrite nodes_roundtrip; simpl.
    assert (sub_p (E := TreeStateError) (position nef + 1) 1 = Ok (position nef)) as ->
      by (apply sub_p_Ok; lia).
    simpl. by rewrite (parts_value f nef Hv).
  - by rewrite (value_None f Hv).
Qed.

Lemma to_state_size t : tree_wf t → fs_size (to_state t) = tree_size t.
Proof.
  unfold tree_wf, to_state, frontier_leaves. intros ->. by destruct (frontier_value _).
Qed.

Lemma to_state_zero t : tree_wf t → tree_size t = 0 → to_state t = frontier_state_default.
Proof.
  unfold tree_wf, to_state, frontier_leaves. intros -> H0.
  destruct (frontier_value (frontier t)) as [nef|] eqn:Hv; [|done].
  apply value_position in Hv. lia.
Qed.
End TreeLemmas.

#[export] Hint Resolve tree_new_wf : core.

(** ** The state root *)

(** [blake2b_simd] hashes the concatenation of the [update]s under a
    personalization; the hash itself is a parameter. *)
Class Blake2b := blake2b : bytes → bytes → bytes.

(** [b"zkas_state_root0"]. *)
Definition STATE_ROOT_PERSONAL : bytes :=
  [122; 107; 97; 115; 95; 115; 116; 97; 116; 101; 95; 114; 111; 111; 116; 48].

Definition state_root_preimage (anchor nullifier_root : bytes) (cb fees : Z) : bytes :=
  anchor ++ nullifier_root ++ le_bytes 16 cb ++ le_bytes 16 fees.

Definition shielded_state_root `{Blake2b} (anchor nullifier_root : bytes) (cb fees : Z) : bytes :=
  blake2b STATE_ROOT_PERSONAL (state_root_preimage anchor nullifier_root cb fees).

Lemma state_root_preimage_inj a n cb fees a' n' cb' fees' :
  length a = 32%nat → length n = 32%nat → length a' = 32%nat → length n' = 32%nat →
  in_u 128 cb → in_u 128 fees → in_u 128 cb' → in_u 128 fees' →
  state_root_preimage a n cb fees = state_root_preimage a' n' cb' fees' →
  a = a' ∧ n = n' ∧ cb = cb' ∧ fees = fees'.
Proof.
  unfold state_root_preimage. intros Ha Hn Ha' Hn' ? ? ? ? Heq.
  apply app_inj_1 in Heq as [-> Heq]; [|congruence].
  apply app_inj_1 in Heq as [-> Heq]; [|congruence].
  apply app_inj_1 in Heq as [Hc Hf]; [|by rewrite !length_le_bytes].
  apply le_bytes_inj in Hc, Hf; auto.
Qed.

(** ** A concrete tree

    The frontier that keeps every leaf (newest first): enough to show that the
    laws can hold. *)
Definition fits (l : list Z) : bool := Z.of_nat (length l) <=? 2 ^ 32.

Record LeafList := mkLeafList { leaves : list Z; leaves_fit : fits leaves = true }.

Lemma leaf_list_eq f g : leaves f = leaves g → f = g.
Proof. destruct f, g; simpl. intros ->. f_equal. apply eq_pi. apply _. Qed.

Definition make_leaves (l : list Z) : option LeafList :=
  match decide (fits l = true) with
  | left Hf => Some (mkLeafList l Hf)
  | right _ => None
  end.

Lemma make_leaves_cases l :
  (∃ Hf, make_leaves l = Some (mkLeafList l Hf)) ∨ (make_leaves l = None ∧ fits l ≠ true).
Proof. unfold make_leaves. case_decide; eauto. Qed.

Lemma make_leaves_Some f : make_leaves (leaves f) = Some f.
Proof.
  destruct (make_leaves_cases (leaves f)) as [[Hf ->]|[_ Hf]].
  - f_equal. by apply leaf_list_eq.
  - by destruct (Hf (leaves_fit f)).
Qed.

Lemma make_leaves_inv l f : make_leaves l = Some f → leaves f = l.
Proof. destruct (make_leaves_cases l) as [[Hf ->]|[-> _]]; [by intros [= <-]|done]. Qed.

Lemma make_leaves_is_Some l : is_Some (make_leaves l) ↔ fits l = true.
Proof.
  split.
  - intros [f Hf]. rewrite <- (make_leaves_inv l f Hf). apply leaves_fit.
  - intros Hf. exists (mkLeafList l Hf). apply (make_leaves_Some (mkLeafList l Hf)).
Qed.

Definition list_append (f : LeafList) (n : Z) : LeafList * bool :=
  match make_leaves (n :: leaves f) with Some f' => (f', true) | None => (f, false) end.

Definition list_value (l : list Z) : option (NonEmptyFrontier Z) :=
  match l with [] => None | n :: l => Some (mkNonEmpty (Z.of_nat (length l)) n l) end.

Definition list_from_parts (pos n : Z) (om : list Z) : option LeafList :=
  if pos =? Z.of_nat (length om) then make_leaves (n :: om) else None.

Definition list_tree : OrchardTree := {|
  Cmx := Z;
  Node := Z;
  Frontier := LeafList;
  Anchor := Z;
  frontier_empty := mkLeafList [] eq_refl;
  frontier_append := list_append;
  frontier_value f := list_value (leaves f);
  frontier_root f := foldr (λ n acc, n + 257 * acc) 1 (leaves f);
  frontier_from_parts := list_from_parts;
  node_from_cmx c := c;
  node_to_bytes n := [n];
  node_of_bytes b := match b with [n] => Some n | _ => None end;
  cmx_from_bytes b := match b with [n] => Some n | _ => None end;
  anchor_empty_tree := 0;
  anchor_from_node n := n;
  anchor_to_bytes a := a :: replicate 31 0;
|}.

Definition list_tree_laws : OrchardTreeLaws list_tree.
Proof.
  split; unfold frontier_leaves; simpl.
  - done.
  - intros f Hv. apply leaf_list_eq. by destruct (leaves f).
  - intros [l Hl] nef; simpl. unfold fits in Hl. apply Z.leb_le in Hl.
    destruct l as [|n l]; [done|]. intros [= <-]; simpl in *. lia.
  - intros f n. unfold list_append.
    pose proof (make_leaves_is_Some (n :: leaves f)) as Hs. unfold fits in Hs.
    rewrite Z.leb_le in Hs. destruct (make_leaves (n :: leaves f)) as [f'|]; simpl in *.
    + split; [|done]. intros _. pose proof (proj1 Hs ltac:(eauto)).
      destruct (leaves f); simpl in *; lia.
    + split; [done|]. intros Hlt. destruct (proj2 Hs); [|done].
      destruct (leaves f); simpl in *; lia.
  - intros f n f'. unfold list_append. destruct (make_leaves (n :: leaves f)) as [g|] eqn:Hg;
      intros [= <-]. rewrite (make_leaves_inv _ _ Hg). simpl.
    exists (leaves f). f_equal. f_equal. by destruct (leaves f); simpl; lia.
  - intros f nef. destruct (leaves f) as [|n l] eqn:Hl; [done|]. intros [= <-]; simpl.
    unfold list_from_parts. rewrite Z.eqb_refl, <- Hl. apply make_leaves_Some.
  - done.
Defined.

Section TreeTheorems.
Context `{HL : OrchardTreeLaws}.

(** Snapshot round trip: a tree built from genesis by appending note
    commitments is rebuilt exactly by [from_state] from the snapshot
    [to_state] persists, and its size is the number of commitments. *)
Theorem tree_snapshot_roundtrip cs (t : GlobalTree) :
  append_leaves tree_new cs = (t, Ok tt) →
  from_state (to_state t) = Ok t ∧ tree_size t = Z.of_nat (length cs).
Proof.
  intros Happ. pose proof (append_leaves_spec tree_new cs tree_new_wf) as Hs.
  rewrite Happ in Hs. case_bool_decide; [|by destruct Hs as [[=] _]].
  destruct Hs as (t' & [= <-] & Hwf & Hsz). split; [by apply from_state_to_state|].
  rewrite Hsz. simpl. lia.
Qed.

(** Capacity: appending a block's subtree to a well-formed tree succeeds
    exactly while the leaves fit in 2^32 and then advances the size by the
    subtree's length; otherwise it fails with [TreeFull], having filled the
    tree to exactly 2^32 leaves, and never panics. *)
Theorem append_subtree_capacity (t : GlobalTree) (s : ChainBlockSubtree) :
  tree_wf t →
  if bool_decide (tree_size t + Z.of_nat (subtree_len s) ≤ 2 ^ 32) then
    ∃ t', append_subtree t s = (t', Ok tt) ∧ tree_wf t' ∧
          tree_size t' = tree_size t + Z.of_nat (subtree_len s)
  else (append_subtree t s).2 = Err TreeFullError ∧
       tree_size (append_subtree t s).1 = 2 ^ 32.
Proof. apply append_leaves_spec. Qed.
End TreeTheorems.

(** C31. The state root commits to every field: two shielded states with the
    same root have the same anchor, nullifier root and turnstile totals, or
    the two preimages are an explicit collision of the hash. *)
Theorem state_root_binding `{Blake2b} a n cb fees a' n' cb' fees' :
  length a = 32%nat → length n = 32%nat → length a' = 32%nat → length n' = 32%nat →
  in_u 128 cb → in_u 128 fees → in_u 128 cb' → in_u 128 fees' →
  shielded_state_root a n cb fees = shielded_state_root a' n' cb' fees' →
  (a = a' ∧ n = n' ∧ cb = cb' ∧ fees = fees') ∨
  (state_root_preimage a n cb fees ≠ state_root_preimage a' n' cb' fees' ∧
   blake2b STATE_ROOT_PERSONAL (state_root_preimage a n cb fees) =
   blake2b STATE_ROOT_PERSONAL (state_root_preimage a' n' cb' fees')).
Proof.
  intros. destruct (decide (state_root_preimage a n cb fees = state_root_preimage a' n' cb' fees')).
  - left. by apply state_root_preimage_inj.
  - by right.
Qed.

Lemma tree_snapshot_roundtrip_witness :
  ∃ t : @GlobalTree list_tree,
    @append_leaves list_tree tree_new [7; 8; 9] = (t, Ok tt) ∧
    from_state (to_state t) = Ok t ∧ tree_size t = 3.
Proof.
  exists (@append_leaves list_tree tree_new [7; 8; 9]).1.
  split; [reflexivity|].
  apply (@tree_snapshot_roundtrip list_tree list_tree_laws [7; 8; 9]). reflexivity.
Defined.

Lemma append_subtree_capacity_witness :
  ∃ t', @append_subtree list_tree tree_new (@mkSubtree list_tree [4; 5]) = (t', Ok tt) ∧
        @tree_wf list_tree t' ∧ tree_size t' = 0 + 2.
Proof.
  apply (@append_subtree_capacity list_tree list_tree_laws tree_new (@mkSubtree list_tree [4; 5])).
  reflexivity.
Defined.

Lemma state_root_binding_witness :
  let z := replicate 32 0 in
  (z = z ∧ z = z ∧ 7 = 7 ∧ 3 = 3) ∨
  (state_root_preimage z z 7 3 ≠ state_root_preimage z z 7 3 ∧
   state_root_preimage z z 7 3 = state_root_preimage z z 7 3).
Proof.
  apply (@state_root_binding (λ _ m, m)); first [reflexivity | by vm_compute].
Defined.
