(* ===== verification/Bundle.v ===== *)
(** * The on-wire Orchard bundle (shielded-core/src/bundle.rs, the sighash of
      shielded-core/src/verify.rs)

    The canonical byte encoding of a shielded bundle carried in a transaction
    payload: the writer and reader primitives, [to_bytes] and [from_bytes],
    the header-only action count, and the digest preimage that the bundle's
    signatures commit to. *)

From S2P Require Import Prelude Bytes NoteTree.

Module sizes.
Definition FIELD : nat := 32.
Definition ENC_CIPHERTEXT : nat := 580.
Definition OUT_CIPHERTEXT : nat := 80.
Definition SIG : nat := 64.
End sizes.

Definition MAX_ACTIONS_PER_BUNDLE : Z := 512.

Record ActionWire := mkAction {
  nullifier : bytes;
  rk : bytes;
  cmx : bytes;
  cv_net : bytes;
  ephemeral_key : bytes;
  enc_ciphertext : bytes;
  out_ciphertext : bytes;
  spend_auth_sig : bytes;
}.

Definition SERIALIZED_LEN : nat :=
  sizes.FIELD * 5 + sizes.ENC_CIPHERTEXT + sizes.OUT_CIPHERTEXT + sizes.SIG.

Definition expected_proof_len (n_actions : Z) : Z := 2720 + 2272 * n_actions.

Definition expected_wire_len (n_actions : Z) : Z :=
  117 + n_actions * Z.of_nat SERIALIZED_LEN + expected_proof_len n_actions.

Record ShieldedBundle := mkBundle {
  actions : list ActionWire;
  flags : Z;
  value_balance : Z;
  bundle_anchor : bytes;
  proof : bytes;
  binding_sig : bytes;
}.

Inductive BundleDecodeError := UnexpectedEof | LengthOverflow | TrailingBytes | TooManyActions.

(** ** Writer *)
Definition w_bytes (w b : bytes) : bytes := w ++ b.
Definition w_u8 (w : bytes) (v : Z) : bytes := w ++ [v].
Definition w_u32 (w : bytes) (v : Z) : bytes := w ++ be_bytes 4 v.
Definition w_i64 (w : bytes) (v : Z) : bytes := w ++ be_bytes 8 (of_signed 64 v).
Definition w_var (w b : bytes) : bytes := w_bytes (w_u32 w (Z.of_nat (length b) mod 2 ^ 32)) b.

(** ** Reader *)
Record Reader := mkReader { buf : bytes; pos : Z }.

Definition reader_new (b : bytes) : Reader := mkReader b 0.

Definition r_take (r : Reader) (n : Z) : res BundleDecodeError (bytes * Reader) :=
  e ← ok_or LengthOverflow (checked_add 64 (pos r) n);
  if Z.of_nat (length (buf r)) <? e then Err UnexpectedEof
  else Ok (take (Z.to_nat n) (drop (Z.to_nat (pos r)) (buf r)), mkReader (buf r) e).

Definition r_array (N : nat) (r : Reader) : res BundleDecodeError (bytes * Reader) :=
  r_take r (Z.of_nat N).

Definition r_u8 (r : Reader) : res BundleDecodeError (Z * Reader) :=
  '(s, r) ← r_take r 1;
  b ← unwrap (s !! 0%nat);
  Ok (b, r).

Definition r_u32 (r : Reader) : res BundleDecodeError (Z * Reader) :=
  '(s, r) ← r_array 4 r;
  Ok (of_be_bytes s, r).

Definition r_i64 (r : Reader) : res BundleDecodeError (Z * Reader) :=
  '(s, r) ← r_array 8 r;
  Ok (to_signed 64 (of_be_bytes s), r).

Definition r_var (r : Reader) : res BundleDecodeError (bytes * Reader) :=
  '(n, r) ← r_u32 r;
  r_take r n.

Definition r_finished (r : Reader) : bool := pos r =? Z.of_nat (length (buf r)).

(** ** The bundle *)
Definition w_action (w : bytes) (a : ActionWire) : bytes :=
  let w := w_bytes w (nullifier a) in
  let w := w_bytes w (rk a) in
  let w := w_bytes w (cmx a) in
  let w := w_bytes w (cv_net a) in
  let w := w_bytes w (ephemeral_key a) in
  let w := w_bytes w (enc_ciphertext a) in
  let w := w_bytes w (out_ciphertext a) in
  w_bytes w (spend_auth_sig a).

Definition to_bytes (b : ShieldedBundle) : bytes :=
  let w := w_u8 [] (flags b) in
  let w := w_i64 w (value_balance b) in
  let w := w_bytes w (bundle_anchor b) in
  let w := w_var w (binding_sig b) in
  let w := w_u32 w (Z.of_nat (length (actions b)) mod 2 ^ 32) in
  let w := foldl w_action w (actions b) in
  w_var w (proof b).

Definition r_action (r : Reader) : res BundleDecodeError (ActionWire * Reader) :=
  '(nf, r) ← r_array sizes.FIELD r;
  '(k, r) ← r_array sizes.FIELD r;
  '(c, r) ← r_array sizes.FIELD r;
  '(v, r) ← r_array sizes.FIELD r;
  '(e, r) ← r_array sizes.FIELD r;
  '(enc, r) ← r_array sizes.ENC_CIPHERTEXT r;
  '(out, r) ← r_array sizes.OUT_CIPHERTEXT r;
  '(sig, r) ← r_array sizes.SIG r;
  Ok (mkAction nf k c v e enc out sig, r).

(** [for _ in 0..n_actions { actions.push(..) }]. *)
Fixpoint r_actions (n : nat) (acc : list ActionWire) (r : Reader)
    : res BundleDecodeError (list ActionWire * Reader) :=
  match n with
  | O => Ok (acc, r)
  | S n => '(a, r) ← r_action r; r_actions n (acc ++ [a]) r
  end.

Definition from_bytes (b : bytes) : res BundleDecodeError ShieldedBundle :=
  let r := reader_new b in
  '(fl, r) ← r_u8 r;
  '(vb, r) ← r_i64 r;
  '(an, r) ← r_array sizes.FIELD r;
  '(sig, r) ← r_var r;
  if negb (bool_decide (length sig = sizes.SIG)) then Err UnexpectedEof else
  '(n, r) ← r_u32 r;
  if MAX_ACTIONS_PER_BUNDLE <? n then Err TooManyActions else
  '(acts, r) ← r_actions (Z.to_nat n) [] r;
  '(pf, r) ← r_var r;
  if negb (r_finished r) then Err TrailingBytes
  else Ok (mkBundle acts fl vb an pf sig).

Definition ok {E A} (m : res E A) : option A :=
  match m with Ok a => Some a | _ => None end.

Definition action_count_from_bytes (b : bytes) : option Z :=
  let r := reader_new b in
  '(_, r) ← ok (r_u8 r);
  '(_, r) ← ok (r_i64 r);
  '(_, r) ← ok (r_array sizes.FIELD r);
  '(_, r) ← ok (r_var r);
  '(n, _) ← ok (r_u32 r);
  if MAX_ACTIONS_PER_BUNDLE <? n then None else Some n.

Definition bundle_nullifiers (b : ShieldedBundle) : list bytes := nullifier <$> actions b.

(** ** The signed effects *)

(** [b"zkas_tx_sighash0"]. *)
Definition SIGHASH_PERSONALIZATION : bytes :=
  [122; 107; 97; 115; 95; 116; 120; 95; 115; 105; 103; 104; 97; 115; 104; 48].

Definition action_effects (a : ActionWire) : bytes :=
  nullifier a ++ rk a ++ cmx a ++ cv_net a ++ ephemeral_key a ++
  enc_ciphertext a ++ out_ciphertext a.

Definition sighash_preimage (b : ShieldedBundle) (network_domain tx_context : bytes) : bytes :=
  network_domain ++ [flags b] ++ le_bytes 8 (of_signed 64 (value_balance b)) ++
  bundle_anchor b ++ le_bytes 4 (Z.of_nat (length (actions b)) mod 2 ^ 32) ++
  concat (action_effects <$> actions b) ++
  le_bytes 4 (Z.of_nat (length tx_context) mod 2 ^ 32) ++ tx_context.

Definition sighash `{Blake2b} (b : ShieldedBundle) (network_domain tx_context : bytes) : bytes :=
  blake2b SIGHASH_PERSONALIZATION (sighash_preimage b network_domain tx_context).

(** ** Type invariants *)

Definition action_wf (a : ActionWire) : Prop :=
  is_array sizes.FIELD (nullifier a) ∧ is_array sizes.FIELD (rk a) ∧
  is_array sizes.FIELD (cmx a) ∧ is_array sizes.FIELD (cv_net a) ∧
  is_array sizes.FIELD (ephemeral_key a) ∧ is_array sizes.ENC_CIPHERTEXT (enc_ciphertext a) ∧
  is_array sizes.OUT_CIPHERTEXT (out_ciphertext a) ∧ is_array sizes.SIG (spend_auth_sig a).

(** A [ShieldedBundle] value within the decoder's limits. *)
Definition bundle_wf (b : ShieldedBundle) : Prop :=
  Forall action_wf (actions b) ∧ Z.of_nat (length (actions b)) ≤ MAX_ACTIONS_PER_BUNDLE ∧
  in_u 8 (flags b) ∧ in_i 64 (value_balance b) ∧
  is_array sizes.FIELD (bundle_anchor b) ∧ is_array sizes.SIG (binding_sig b) ∧
  is_bytes (proof b) ∧ Z.of_nat (length (proof b)) < 2 ^ 32.

(** ** Reader lemmas

    Every reader primitive is a codec: it succeeds with a value exactly when
    the unread input starts with that value's encoding. *)

Definition rem (r : Reader) : bytes := drop (Z.to_nat (pos r)) (buf r).

(** Slices are at most [isize::MAX] bytes long. *)
Definition reader_wf (r : Reader) : Prop :=
  0 ≤ pos r ≤ Z.of_nat (length (buf r)) ∧ Z.of_nat (length (buf r)) < 2 ^ 63 ∧ is_bytes (buf r).

Definition codec {A} (p : Reader → res BundleDecodeError (A * Reader))
    (enc : A → bytes) (wf : A → Prop) : Prop :=
  ∀ r v r', reader_wf r →
    p r = Ok (v, r') ↔ wf v ∧ reader_wf r' ∧ buf r' = buf r ∧ rem r = enc v ++ rem r'.

Lemma reader_new_wf b : is_bytes b → Z.of_nat (length b) < 2 ^ 63 → reader_wf (reader_new b).
Proof. intros. split; simpl; [lia|done]. Qed.

Lemma length_rem r : reader_wf r → Z.of_nat (length (rem r)) = Z.of_nat (length (buf r)) - pos r.
Proof. intros [? _]. unfold rem. rewrite length_drop. lia. Qed.

Lemma rem_bytes r : reader_wf r → is_bytes (rem r).
Proof. intros (_ & _ & ?). by apply is_bytes_drop. Qed.

Lemma finished_rem r : reader_wf r → r_finished r = true ↔ rem r = [].
Proof.
  intros Hwf. unfold r_finished. rewrite Z.eqb_eq, <- length_zero_iff_nil.
  pose proof (length_rem r Hwf). lia.
Qed.

Lemma codec_run {A} p (enc : A → bytes) wf r v rest :
  codec p enc wf → reader_wf r → wf v → rem r = enc v ++ rest →
  ∃ r', p r = Ok (v, r') ∧ reader_wf r' ∧ rem r' = rest.
Proof.
  intros Hc Hwf Hv Hrem.
  set (r' := mkReader (buf r) (pos r + Z.of_nat (length (enc v)))).
  assert (rem r' = rest) as Hr'.
  { unfold rem, r'; simpl. rewrite Z2Nat.inj_add by (destruct Hwf; lia).
    rewrite Nat2Z.id, <- drop_drop. fold (rem r). rewrite Hrem. apply drop_app_length. }
  assert (reader_wf r') as Hwf'.
  { pose proof (length_rem r Hwf) as Hlen. rewrite Hrem, length_app in Hlen.
    destruct Hwf as (? & ? & ?). split_and!; simpl; [lia|lia|done..]. }
  exists r'. split_and!; [|done|done]. apply Hc; [done|]. by rewrite Hr'.
Qed.

Lemma codec_run_ok {A} p (enc : A → bytes) wf r v rest :
  codec p enc wf → reader_wf r → wf v → rem r = enc v ++ rest →
  ∃ r', ok (p r) = Some (v, r') ∧ reader_wf r' ∧ rem r' = rest.
Proof.
  intros Hc Hr Hv Hre. destruct (codec_run p enc wf r v rest Hc Hr Hv Hre) as (r' & -> & ?). eauto.
Qed.

Lemma r_take_codec n :
  (n < 2 ^ 32)%Z → 0 ≤ n →
  codec (λ r, r_take r n) (λ s, s) (λ s, Z.of_nat (length s) = n ∧ is_bytes s).
Proof.
  intros Hn Hn0 r v r' Hwf. pose proof (length_rem r Hwf) as Hlen.
  pose proof Hwf as (Hpos & Hbuf & Hb).
  unfold r_take. rewrite (proj2 (checked_add_Some 64 (pos r) n (pos r + n))) by lia. simpl.
  case_match eqn:Hlt.
  - apply Z.ltb_lt in Hlt. split; [done|]. intros ([Hl _] & Hwf' & Hbf & Hrem). exfalso.
    pose proof (length_rem r' Hwf') as Hlen'. rewrite Hrem, length_app, Hbf in *.
    destruct Hwf' as [? _]. lia.
  - apply Z.ltb_ge in Hlt. fold (rem r). split.
    + intros [= <- <-]. rewrite length_take. split_and!; simpl.
      * lia.
      * by apply is_bytes_take, rem_bytes.
      * split_and!; simpl; [lia|lia|done..].
      * done.
      * unfold rem at 3; simpl. rewrite Z2Nat.inj_add, <- drop_drop by lia.
        fold (rem r). by rewrite take_drop.
    + intros ([Hl _] & Hwf' & Hbf & Hrem).
      pose proof (length_rem r' Hwf') as Hlen'. rewrite Hrem, length_app in Hlen.
      assert (pos r' = pos r + n) as Hp by (rewrite Hbf in *; lia).
      rewrite Hrem, take_app_length' by lia. destruct r' as [bf p']; simpl in *. by subst.
Qed.

Lemma r_array_codec N :
  Z.of_nat N < 2 ^ 32 → codec (r_array N) (λ s, s) (is_array N).
Proof.
  intros HN r v r' Hwf. unfold r_array, is_array.
  pose proof (r_take_codec (Z.of_nat N) HN ltac:(lia) r v r' Hwf) as Ht. cbn beta in Ht.
  by rewrite Ht, Nat2Z.inj_iff.
Qed.

Lemma r_u8_codec : codec r_u8 (λ v, [v]) (in_u 8).
Proof.
  intros r v r' Hwf. unfold r_u8. rewrite bind_Ok. split.
  - intros ([s r''] & Ht & Hk). apply r_take_codec in Ht as ([Hl Hs] & ? & ? & ?); [|lia|lia|done].
    destruct s as [|b [|]]; simpl in *; try lia. simplify_eq.
    apply is_bytes_cons in Hs as [? _]. done.
  - intros (Hv & ? & ? & ?). exists ([v], r'). split; [|done].
    apply r_take_codec; [lia|lia|done|]. split_and!; try done. by apply Forall_singleton.
Qed.

(** An integer read from [n] bytes through a bijection with the [n]-byte words. *)
Lemma r_word_codec n (f g : Z → Z) (wf : Z → Prop) :
  Z.of_nat n < 2 ^ 32 →
  (∀ x, in_u (8 * Z.of_nat n) x → wf (f x) ∧ g (f x) = x) →
  (∀ v, wf v → in_u (8 * Z.of_nat n) (g v) ∧ f (g v) = v) →
  codec (λ r, '(s, r) ← r_array n r; Ok (f (of_be_bytes s), r)) (λ v, be_bytes n (g v)) wf.
Proof.
  intros Hn Hfg Hgf r v r' Hwf. rewrite bind_Ok. split.
  - intros ([s r''] & Ht & Hk). apply r_array_codec in Ht as ([Hl Hs] & ? & ? & Hrem); [|lia|done].
    simplify_eq. destruct (Hfg (of_be_bytes s)) as [? ->];
      [by pose proof (of_be_bytes_bound s Hs)|].
    by rewrite be_bytes_of_be_bytes.
  - intros (Hv & ? & ? & ?). destruct (Hgf v Hv) as [Hin Hinv].
    exists (be_bytes n (g v), r'). split.
    + apply r_array_codec; [lia|done|]. split_and!; try done.
      split; [apply length_be_bytes|apply be_bytes_is_bytes].
    + by rewrite of_be_bytes_be_bytes, Hinv.
Qed.

Lemma r_u32_codec : codec r_u32 (be_bytes 4) (in_u 32).
Proof. apply (r_word_codec 4 (λ x, x) (λ x, x) (in_u 32)); [done|by split..]. Qed.

Lemma r_i64_codec : codec r_i64 (λ v, be_bytes 8 (of_signed 64 v)) (in_i 64).
Proof.
  apply (r_word_codec 8 (to_signed 64) (of_signed 64) (in_i 64)); [done|..].
  - intros x Hx. split; [by apply to_signed_range|by apply of_signed_to_signed].
  - intros v Hv. split; [by apply of_signed_range|by apply to_signed_of_signed].
Qed.

Definition enc_var (b : bytes) : bytes := be_bytes 4 (Z.of_nat (length b)) ++ b.

Lemma r_var_codec :
  codec r_var enc_var (λ b, is_bytes b ∧ Z.of_nat (length b) < 2 ^ 32).
Proof.
  intros r v r' Hwf. unfold r_var, enc_var. rewrite bind_Ok. split.
  - intros ([n r''] & Hn & Ht). apply r_u32_codec in Hn as (Hn & Hwf'' & Hb & Hrem); [|done].
    unfold in_u in Hn. apply r_take_codec in Ht as ([Hl Hs] & ? & ? & Hrem'); [|lia|lia|done].
    rewrite Hl, <- (assoc_L (++)), <- Hrem'. split_and!; [done|lia|done|congruence|done].
  - intros ([Hs Hlen] & Hwf' & Hb & Hrem). rewrite <- (assoc_L (++)) in Hrem.
    destruct (codec_run r_u32 _ _ r (Z.of_nat (length v)) _ r_u32_codec Hwf
      ltac:(unfold in_u; lia) Hrem) as (r1 & Hr1 & Hwf1 & Hrem1).
    exists (Z.of_nat (length v), r1). split; [done|].
    apply r_take_codec; [lia|lia|done|]. split_and!; try done.
    apply r_u32_codec in Hr1 as (_ & _ & Hb1 & _); [|done]. congruence.
Qed.

(** ** The bundle codec *)

(** Invert, or run, one array read. *)
Ltac array_inv :=
  match goal with
  | H : r_array _ _ = Ok (_, _) |- _ =>
      apply r_array_codec in H as (? & ? & ? & ?); [|by vm_compute|done]
  end.
Ltac array_run :=
  match goal with
  | Hwf : reader_wf ?r, Ha : is_array ?N ?v, Hrem : rem ?r = ?v ++ ?rest |- context [r_array ?N ?r] =>
      let r1 := fresh "r" in let Hr1 := fresh "Hr" in
      let Hwf1 := fresh "Hwf" in let Hrem1 := fresh "Hrem" in
      destruct (codec_run (r_array N) _ _ r v rest (r_array_codec N ltac:(by vm_compute)) Hwf Ha Hrem)
        as (r1 & Hr1 & Hwf1 & Hrem1);
      rewrite Hr1; cbn [mbind res_mbind]; clear Hr1 Hrem
  end.

Definition enc_action (a : ActionWire) : bytes :=
  nullifier a ++ rk a ++ cmx a ++ cv_net a ++ ephemeral_key a ++
  enc_ciphertext a ++ out_ciphertext a ++ spend_auth_sig a.

Lemma w_action_spec w a : w_action w a = w ++ enc_action a.
Proof. unfold w_action, w_bytes, enc_action. by rewrite <- !app_assoc. Qed.

Lemma w_actions_spec w l : foldl w_action w l = w ++ concat (enc_action <$> l).
Proof.
  revert w; induction l as [|a l IH]; intros w; csimpl; [by rewrite app_nil_r|].
  by rewrite IH, w_action_spec, <- app_assoc.
Qed.

(** A reader is determined by its buffer and its unread input. *)
Lemma reader_eq r r' : reader_wf r → reader_wf r' → buf r = buf r' → rem r = rem r' → r = r'.
Proof.
  intros Hwf Hwf' Hb Hr. pose proof (length_rem r Hwf). pose proof (length_rem r' Hwf').
  rewrite Hr, Hb in *. destruct r, r'; simpl in *. f_equal; [done|lia].
Qed.

Lemma codec_buf {A} p (enc : A → bytes) wf r v r' :
  codec p enc wf → reader_wf r → p r = Ok (v, r') → buf r' = buf r.
Proof. intros Hc Hwf H. apply Hc in H; naive_solver. Qed.

Lemma codec_intro {A} p (enc : A → bytes) wf :
  (∀ r v r', reader_wf r → p r = Ok (v, r') →
     wf v ∧ reader_wf r' ∧ buf r' = buf r ∧ rem r = enc v ++ rem r') →
  (∀ r v rest, reader_wf r → wf v → rem r = enc v ++ rest →
     ∃ r', p r = Ok (v, r') ∧ rem r' = rest) →
  codec p enc wf.
Proof.
  intros Hinv Hrun r v r' Hwf. split; [by apply Hinv|].
  intros (Hv & Hwf' & Hb & Hrem). destruct (Hrun r v (rem r') Hwf Hv Hrem) as (r2 & Hr2 & Hrem2).
  rewrite Hr2. destruct (Hinv r v r2 Hwf Hr2) as (_ & Hwf2 & Hb2 & _).
  by rewrite (reader_eq r2 r') by congruence.
Qed.

Lemma r_action_codec : codec r_action enc_action action_wf.
Proof.
  apply codec_intro.
  - intros r v r' Hwf H. unfold r_action in H.
    repeat (apply bind_Ok in H as ([??] & ? & H); array_inv). simplify_eq.
    unfold enc_action, action_wf; simpl. split_and!; try done; [congruence|].
    rewrite <- !app_assoc. congruence.
  - intros r [nf k c v e enc out sig] rest Hwf (?&?&?&?&?&?&?&?) Hrem; simpl in *.
    unfold enc_action in Hrem; simpl in Hrem. rewrite <- !app_assoc in Hrem.
    unfold r_action. do 8 array_run. eexists; split; [done|]. done.
Qed.

Lemma r_actions_codec n acc :
  codec (r_actions n acc) (λ l, concat (enc_action <$> drop (length acc) l))
        (λ l, ∃ l', l = acc ++ l' ∧ length l' = n ∧ Forall action_wf l').
Proof.
  revert acc; induction n as [|n IH]; intros acc; apply codec_intro; cbn [r_actions].
  - intros r v r' Hwf [= <- <-]. rewrite drop_all. simpl. split_and!; try done.
    exists []. by rewrite app_nil_r.
  - intros r v rest Hwf (l' & -> & Hl & _) Hrem. apply length_zero_iff_nil in Hl as ->.
    rewrite app_nil_r, drop_all in *. simpl in Hrem. eauto.
  - intros r v r' Hwf H. apply bind_Ok in H as ([a r1] & Ha & H).
    apply r_action_codec in Ha as (Hwa & Hwf1 & Hb1 & Hrem1); [|done].
    apply IH in H as ((l' & -> & Hl & Hall) & Hwf' & Hb' & Hrem'); [|done].
    rewrite Hrem1, Hrem', Hb', Hb1. split_and!; [|done|done|].
    + exists (a :: l'). rewrite <- app_assoc. simpl. auto.
    + rewrite drop_app_length, <- app_assoc, drop_app_length. csimpl. by rewrite <- app_assoc.
  - intros r v rest Hwf (l' & -> & Hl & Hall) Hrem. destruct l' as [|a l']; [done|].
    apply Forall_cons in Hall as [Ha Hall]. rewrite drop_app_length in Hrem. csimpl in *.
    rewrite <- app_assoc in Hrem.
    destruct (codec_run _ _ _ r a _ r_action_codec Hwf Ha Hrem) as (r1 & Hr1 & Hwf1 & Hrem1).
    rewrite Hr1. cbn [mbind res_mbind].
    destruct (codec_run _ _ _ r1 ((acc ++ [a]) ++ l') rest (IH (acc ++ [a])) Hwf1)
      as (r2 & Hr2 & Hwf2 & Hrem2).
    { exists l'. auto with lia. }
    { by rewrite drop_app_length. }
    rewrite <- app_assoc in Hr2. eauto.
Qed.

Definition enc_bundle (b : ShieldedBundle) : bytes :=
  [flags b] ++ be_bytes 8 (of_signed 64 (value_balance b)) ++ bundle_anchor b ++
  enc_var (binding_sig b) ++ be_bytes 4 (Z.of_nat (length (actions b))) ++
  concat (enc_action <$> actions b) ++ enc_var (proof b).

Lemma w_var_spec w b : Z.of_nat (length b) < 2 ^ 32 → w_var w b = w ++ enc_var b.
Proof.
  intros Hb. unfold w_var, w_bytes, w_u32, enc_var.
  rewrite Z.mod_small by lia. by rewrite <- app_assoc.
Qed.

Lemma to_bytes_spec b : bundle_wf b → to_bytes b = enc_bundle b.
Proof.
  intros (_ & Hn & _ & _ & _ & [Hsig _] & _ & Hpf). unfold to_bytes, enc_bundle.
  assert (Z.of_nat sizes.SIG < 2 ^ 32) by (by vm_compute).
  rewrite w_var_spec, w_actions_spec, w_var_spec by (rewrite ?Hsig; done).
  unfold w_u32, w_bytes, w_i64, w_u8, MAX_ACTIONS_PER_BUNDLE in *.
  rewrite Z.mod_small by lia. by rewrite <- !app_assoc.
Qed.

Lemma field_codec : codec (r_array sizes.FIELD) (λ s, s) (is_array sizes.FIELD).
Proof. by apply r_array_codec. Qed.

(** Open one read at the head of a successful decode. *)
Ltac read_inv H lem :=
  let v := fresh "v" in let r := fresh "r" in let Hs := fresh "Hs" in
  let Hv := fresh "Hv" in let Hw := fresh "Hw" in let Hb := fresh "Hb" in let E := fresh "E" in
  apply bind_Ok in H as ([v r] & Hs & H);
  apply lem in Hs as (Hv & Hw & Hb & E); [|first [done | by apply reader_new_wf]].

(** Run one read whose value heads the unread input. *)
Ltac read_run lem v :=
  match goal with
  | Hwf : reader_wf ?r, Hrem : rem ?r = ?e ++ ?rest |- context [mbind _ (?p ?r)] =>
      let r1 := fresh "r" in let Hr1 := fresh "Hr" in
      let Hwf1 := fresh "Hwf" in let Hrem1 := fresh "Hrem" in
      destruct (codec_run p _ _ r v rest lem Hwf) as (r1 & Hr1 & Hwf1 & Hrem1);
      [try done|exact Hrem|rewrite Hr1; cbn [mbind res_mbind]; clear Hr1 Hrem]
  end.

Lemma from_bytes_inv l b :
  is_bytes l → Z.of_nat (length l) < 2 ^ 63 → from_bytes l = Ok b →
  bundle_wf b ∧ l = enc_bundle b.
Proof.
  intros Hl Hlen H. unfold from_bytes in H. cbv zeta in H.
  read_inv H r_u8_codec. read_inv H r_i64_codec. read_inv H field_codec.
  read_inv H r_var_codec. case_bool_decide as Hsig; [|done]; cbn [negb] in H.
  read_inv H r_u32_codec. destruct (Z.ltb_spec MAX_ACTIONS_PER_BUNDLE v3); [done|].
  read_inv H r_actions_codec. destruct Hv4 as (l' & -> & Hn & Hacts). cbn [app drop length] in *.
  read_inv H r_var_codec.
  destruct (r_finished r5) eqn:Hfin; [|done]. cbn [negb] in H. injection H as <-.
  apply finished_rem in Hfin; [|done]. destruct Hv2 as [? _], Hv4 as [? ?].
  assert (Z.of_nat (length l') = v3) as Hn' by (unfold in_u in *; lia).
  split; [unfold bundle_wf; simpl; split_and!; try done; lia|].
  unfold enc_bundle; simpl. rewrite Hn'. change l with (rem (reader_new l)).
  by rewrite E, E0, E1, E2, E3, E4, E5, Hfin, app_nil_r.
Qed.

Lemma from_bytes_run b :
  bundle_wf b → Z.of_nat (length (enc_bundle b)) < 2 ^ 63 → is_bytes (enc_bundle b) →
  from_bytes (enc_bundle b) = Ok b.
Proof.
  intros (Hacts & Hn & Hfl & Hvb & Han & Hsig & Hpf & Hpfl) Hlen Hl. unfold from_bytes.
  pose proof (reader_new_wf _ Hl Hlen) as Hwf.
  assert (rem (reader_new (enc_bundle b)) = enc_bundle b) as Hrem by done.
  unfold enc_bundle in Hrem at 2. destruct Hsig as [Hsl Hsb]. cbv zeta.
  read_run r_u8_codec (flags b). read_run r_i64_codec (value_balance b).
  read_run field_codec (bundle_anchor b). read_run r_var_codec (binding_sig b).
  { rewrite Hsl. by vm_compute. }
  rewrite bool_decide_eq_true_2 by done. cbn [negb].
  read_run r_u32_codec (Z.of_nat (length (actions b))).
  { unfold in_u, MAX_ACTIONS_PER_BUNDLE in *. lia. }
  rewrite (proj2 (Z.ltb_ge _ _)) by done. rewrite Nat2Z.id.
  read_run (r_actions_codec (length (actions b)) []) (actions b).
  { exists (actions b). auto. }
  rewrite <- (app_nil_r (enc_var (proof b))) in Hrem.
  read_run r_var_codec (proof b).
  rewrite (proj2 (finished_rem _ ltac:(done))) by done. by destruct b.
Qed.

Lemma length_enc_action a : action_wf a → length (enc_action a) = SERIALIZED_LEN.
Proof.
  intros ([E1 _] & [E2 _] & [E3 _] & [E4 _] & [E5 _] & [E6 _] & [E7 _] & [E8 _]).
  unfold enc_action. rewrite !length_app, E1, E2, E3, E4, E5, E6, E7, E8. reflexivity.
Qed.

Lemma enc_action_bytes a : action_wf a → is_bytes (enc_action a).
Proof. unfold enc_action, action_wf, is_array. rewrite !is_bytes_app. naive_solver. Qed.

Lemma length_enc_actions l :
  Forall action_wf l → length (concat (enc_action <$> l)) = (length l * SERIALIZED_LEN)%nat.
Proof.
  induction 1 as [|a l Ha Hl IH]; csimpl; [done|]. by rewrite length_app, IH, length_enc_action.
Qed.

Lemma enc_actions_bytes l : Forall action_wf l → is_bytes (concat (enc_action <$> l)).
Proof.
  induction 1 as [|a l Ha Hl IH]; csimpl; [constructor|].
  apply is_bytes_app. split; [by apply enc_action_bytes|done].
Qed.

Lemma length_enc_bundle b :
  bundle_wf b →
  Z.of_nat (length (enc_bundle b)) =
  117 + Z.of_nat (length (actions b)) * Z.of_nat SERIALIZED_LEN + Z.of_nat (length (proof b)).
Proof.
  intros (Hacts & _ & _ & _ & [Han _] & [Hsig _] & _ & _). unfold enc_bundle, enc_var.
  rewrite !length_app, !length_be_bytes, length_enc_actions, Han, Hsig by done.
  rewrite !Nat2Z.inj_add, Nat2Z.inj_mul. change (Z.of_nat sizes.FIELD) with 32.
  change (Z.of_nat sizes.SIG) with 64. simpl length. lia.
Qed.

Lemma enc_bundle_bytes b : bundle_wf b → is_bytes (enc_bundle b).
Proof.
  intros (Hacts & _ & Hfl & _ & [_ ?] & [_ ?] & ? & _). unfold enc_bundle, enc_var.
  rewrite !is_bytes_app. split_and!; auto using be_bytes_is_bytes, enc_actions_bytes.
  by apply Forall_singleton.
Qed.

Lemma enc_bundle_fits b : bundle_wf b → Z.of_nat (length (enc_bundle b)) < 2 ^ 63.
Proof.
  intros Hwf. rewrite length_enc_bundle by done. change (Z.of_nat SERIALIZED_LEN) with 884.
  destruct Hwf as (_ & Hn & _ & _ & _ & _ & _ & Hp). unfold MAX_ACTIONS_PER_BUNDLE in Hn. lia.
Qed.

(** The decoder returns or fails with an error. *)
Lemma r_take_no_panic r n : r_take r n ≠ Panic.
Proof. unfold r_take. apply bind_no_panic; [apply ok_or_no_panic|]. intros e _. by destruct (_ <? _). Qed.
Lemma r_u8_no_panic r : 0 ≤ pos r → r_u8 r ≠ Panic.
Proof.
  intros Hp. unfold r_u8. apply bind_no_panic; [apply r_take_no_panic|]. intros [s r'] Ht. unfold r_take in Ht.
  destruct (checked_add _ _ _) as [e|] eqn:He; [|done]. apply checked_add_Some in He as [-> _]. cbn [ok_or mbind res_mbind] in Ht.
  destruct (Z.ltb_spec (Z.of_nat (length (buf r))) (pos r + 1)); [done|]. injection Ht as <- <-.
  rewrite lookup_take_lt, lookup_drop by (simpl; lia).
  destruct (lookup_lt_is_Some_2 (buf r) (Z.to_nat (pos r) + 0)) as [x ->]; [lia|done].
Qed.
Lemma r_u32_no_panic r : r_u32 r ≠ Panic.
Proof. unfold r_u32, r_array. apply bind_no_panic; [apply r_take_no_panic|]. by intros []. Qed.
Lemma r_var_no_panic r : r_var r ≠ Panic.
Proof. unfold r_var. apply bind_no_panic; [apply r_u32_no_panic|]. intros [] _. apply r_take_no_panic. Qed.
Lemma r_action_no_panic r : r_action r ≠ Panic.
Proof. unfold r_action, r_array. repeat (apply bind_no_panic; [apply r_take_no_panic|]; intros [] _). done. Qed.
Lemma r_actions_no_panic n acc r : r_actions n acc r ≠ Panic.
Proof.
  revert acc r. induction n as [|n IH]; intros acc r; cbn [r_actions]; [done|].
  apply bind_no_panic; [apply r_action_no_panic|]. intros [] _. apply IH.
Qed.
Lemma from_bytes_no_panic b : from_bytes b ≠ Panic.
Proof.
  unfold from_bytes. apply bind_no_panic; [by apply r_u8_no_panic|]. intros [] _.
  unfold r_i64, r_array. repeat (apply bind_no_panic; [apply bind_no_panic; [apply r_take_no_panic|by intros []]|]; intros [] _).
  apply bind_no_panic; [apply r_take_no_panic|]. intros [] _.
  apply bind_no_panic; [apply r_var_no_panic|]. intros [] _. destruct (negb _); [done|].
  apply bind_no_panic; [apply r_u32_no_panic|]. intros [] _. destruct (_ <? _); [done|].
  apply bind_no_panic; [apply r_actions_no_panic|]. intros [] _.
  apply bind_no_panic; [apply r_var_no_panic|]. intros [] _. by destruct (negb _).
Qed.

(** Encode then decode: every well-formed bundle is decoded from its
    canonical bytes exactly, and those bytes have the length the wallet's size
    estimate gives when the proof has its standard length. *)
Theorem bundle_roundtrip b :
  bundle_wf b →
  from_bytes (to_bytes b) = Ok b ∧
  (Z.of_nat (length (proof b)) = expected_proof_len (Z.of_nat (length (actions b))) →
   Z.of_nat (length (to_bytes b)) = expected_wire_len (Z.of_nat (length (actions b)))).
Proof.
  intros Hwf. rewrite to_bytes_spec by done. split.
  - apply from_bytes_run; auto using enc_bundle_fits, enc_bundle_bytes.
  - intros Hp. rewrite length_enc_bundle, Hp by done. unfold expected_wire_len. lia.
Qed.

(** C32. Canonical encoding: on any byte string, the decoder accepts exactly the
    canonical encodings of well-formed bundles.  So no bundle has two accepted
    encodings (no malleability), trailing bytes and oversized action counts
    are rejected, and a decoded bundle satisfies the type invariants. *)
Theorem from_bytes_canonical l b :
  is_bytes l → Z.of_nat (length l) < 2 ^ 63 →
  from_bytes l = Ok b ↔ bundle_wf b ∧ l = to_bytes b.
Proof.
  intros Hl Hlen. split.
  - intros [Hwf ->]%from_bytes_inv; [|done..]. by rewrite to_bytes_spec.
  - intros [Hwf ->]. rewrite to_bytes_spec in * by done. by apply from_bytes_run.
Qed.

(** The header-only action count used by the mass calculator agrees with
    the full decoder on every byte string the decoder accepts. *)
Theorem action_count_agrees l b :
  is_bytes l → Z.of_nat (length l) < 2 ^ 63 → from_bytes l = Ok b →
  action_count_from_bytes l = Some (Z.of_nat (length (actions b))).
Proof.
  intros Hl Hlen Hb. destruct (from_bytes_inv l b Hl Hlen Hb) as [Hwf ->].
  destruct Hwf as (Hacts & Hn & Hfl & Hvb & Han & [Hsl Hsb] & Hpf & Hpfl).
  pose proof (reader_new_wf _ Hl Hlen) as Hwf.
  assert (rem (reader_new (enc_bundle b)) = enc_bundle b) as Hrem by done.
  unfold enc_bundle in Hrem at 2. unfold action_count_from_bytes. cbv zeta.
  destruct (codec_run_ok _ _ _ _ (flags b) _ r_u8_codec Hwf Hfl Hrem) as (r1 & -> & Hw1 & E1).
  destruct (codec_run_ok _ _ _ _ (value_balance b) _ r_i64_codec Hw1 Hvb E1) as (r2 & Hr2 & Hw2 & E2).
  cbn [mbind option_bind]. rewrite Hr2. cbn [mbind option_bind].
  destruct (codec_run_ok _ _ _ _ (bundle_anchor b) _ field_codec Hw2 Han E2) as (r3 & -> & Hw3 & E3).
  cbn [mbind option_bind].
  destruct (codec_run_ok _ _ _ _ (binding_sig b) _ r_var_codec Hw3
    ltac:(split; [done|rewrite Hsl; by vm_compute]) E3) as (r4 & -> & Hw4 & E4).
  cbn [mbind option_bind].
  destruct (codec_run_ok _ _ _ _ (Z.of_nat (length (actions b))) _ r_u32_codec Hw4
    ltac:(unfold in_u, MAX_ACTIONS_PER_BUNDLE in *; lia) E4) as (r5 & -> & Hw5 & E5).
  cbn [mbind option_bind]. by rewrite (proj2 (Z.ltb_ge _ _)).
Qed.

Definition sample_action : ActionWire :=
  mkAction (replicate 32 1) (replicate 32 2) (replicate 32 3) (replicate 32 4)
           (replicate 32 5) (replicate 580 6) (replicate 80 7) (replicate 64 8).

Definition sample_bundle : ShieldedBundle :=
  mkBundle [sample_action] 3 (-5) (replicate 32 9) [1; 2; 3] (replicate 64 10).

Lemma replicate_array n b : in_u 8 b → is_array n (replicate n b).
Proof. intros Hb. split; [apply length_replicate|]. by apply Forall_replicate. Qed.

Lemma sample_bundle_wf : bundle_wf sample_bundle.
Proof.
  unfold bundle_wf, sample_bundle, sample_action; cbn -[replicate Z.pow in_u in_i].
  split_and!; try by (unfold in_i, in_u; vm_compute).
  - apply Forall_singleton. unfold action_wf; cbn -[replicate].
    split_and!; apply replicate_array; by vm_compute.
  - apply replicate_array; by vm_compute.
  - apply replicate_array; by vm_compute.
  - repeat (apply is_bytes_cons; split; [by vm_compute|]). constructor.
Qed.

Lemma bundle_roundtrip_witness :
  from_bytes (to_bytes sample_bundle) = Ok sample_bundle ∧
  (Z.of_nat (length (proof sample_bundle)) = expected_proof_len 1 →
   Z.of_nat (length (to_bytes sample_bundle)) = expected_wire_len 1).
Proof. exact (bundle_roundtrip sample_bundle sample_bundle_wf). Defined.

Lemma sample_bytes_wf :
  is_bytes (to_bytes sample_bundle) ∧ Z.of_nat (length (to_bytes sample_bundle)) < 2 ^ 63.
Proof.
  rewrite to_bytes_spec by apply sample_bundle_wf.
  split; [apply enc_bundle_bytes|apply enc_bundle_fits]; apply sample_bundle_wf.
Qed.

Lemma from_bytes_canonical_witness :
  from_bytes (to_bytes sample_bundle) = Ok sample_bundle ↔
  bundle_wf sample_bundle ∧ to_bytes sample_bundle = to_bytes sample_bundle.
Proof.
  apply (from_bytes_canonical (to_bytes sample_bundle) sample_bundle); apply sample_bytes_wf.
Defined.

Lemma action_count_agrees_witness :
  action_count_from_bytes (to_bytes sample_bundle) = Some 1.
Proof.
  apply (action_count_agrees (to_bytes sample_bundle) sample_bundle);
    [apply sample_bytes_wf..|by vm_compute].
Defined.

(** ** What a signature commits to *)

(** An action without the signature over the digest. *)
Definition unsigned (a : ActionWire) : ActionWire :=
  mkAction (nullifier a) (rk a) (cmx a) (cv_net a) (ephemeral_key a)
           (enc_ciphertext a) (out_ciphertext a) [].

Lemma action_effects_app_inj a a' l l' :
  action_wf a → action_wf a' → action_effects a ++ l = action_effects a' ++ l' →
  unsigned a = unsigned a' ∧ l = l'.
Proof.
  intros ([? _] & [? _] & [? _] & [? _] & [? _] & [? _] & [? _] & _).
  intros ([? _] & [? _] & [? _] & [? _] & [? _] & [? _] & [? _] & _).
  unfold action_effects, unsigned. rewrite <- !app_assoc. intros Heq.
  do 7 (apply app_inj_1 in Heq as [? Heq]; [|congruence]). split; congruence.
Qed.

Lemma effects_inj l l' rest rest' :
  Forall action_wf l → Forall action_wf l' → length l = length l' →
  concat (action_effects <$> l) ++ rest = concat (action_effects <$> l') ++ rest' →
  unsigned <$> l = unsigned <$> l' ∧ rest = rest'.
Proof.
  intros Hl. revert l'; induction Hl as [|a l Ha Hl IH]; intros [|a' l'] Hl' Hlen Heq; try done.
  apply Forall_cons in Hl' as [Ha' Hl']. csimpl in *. rewrite <- !app_assoc in Heq.
  apply action_effects_app_inj in Heq as [-> Heq]; [|done..].
  apply IH in Heq as [-> ->]; auto with lia.
Qed.

Lemma sighash_preimage_inj b d c b' d' c' :
  bundle_wf b → bundle_wf b' → length d = 32%nat → length d' = 32%nat →
  Z.of_nat (length c) < 2 ^ 32 → Z.of_nat (length c') < 2 ^ 32 →
  sighash_preimage b d c = sighash_preimage b' d' c' →
  d = d' ∧ c = c' ∧ flags b = flags b' ∧ value_balance b = value_balance b' ∧
  bundle_anchor b = bundle_anchor b' ∧ unsigned <$> actions b = unsigned <$> actions b'.
Proof.
  intros (Ha & Hn & Hf & Hv & [Han _] & _) (Ha' & Hn' & Hf' & Hv' & [Han' _] & _).
  intros Hd Hd' Hc Hc' Heq. unfold sighash_preimage, MAX_ACTIONS_PER_BUNDLE in *.
  apply app_inj_1 in Heq as [-> Heq]; [|congruence].
  apply app_inj_1 in Heq as [[= Hfl] Heq]; [|done].
  apply app_inj_1 in Heq as [Hvb Heq]; [|by rewrite !length_le_bytes].
  apply app_inj_1 in Heq as [Hanc Heq]; [|congruence].
  apply app_inj_1 in Heq as [Hln Heq]; [|by rewrite !length_le_bytes].
  rewrite !Z.mod_small in * by lia.
  apply le_bytes_inj in Hvb; [|by apply of_signed_range..].
  apply le_bytes_inj in Hln; [|unfold in_u; lia..].
  apply effects_inj in Heq as [Hacts Heq]; [|done|done|lia].
  apply app_inj_1 in Heq as [_ Heq]; [|by rewrite !length_le_bytes].
  split_and!; try done.
  rewrite <- (to_signed_of_signed 64 (value_balance b)), Hvb by done.
  by apply to_signed_of_signed.
Qed.

(** C30. The signed digest binds the effects: two bundles with the same sighash
    agree on the network domain, the transaction context, the flags, the value
    balance, the anchor and every action up to its own signature, or their
    preimages are an explicit collision of the hash. *)
Theorem sighash_binding `{Blake2b} b d c b' d' c' :
  bundle_wf b → bundle_wf b' → length d = 32%nat → length d' = 32%nat →
  Z.of_nat (length c) < 2 ^ 32 → Z.of_nat (length c') < 2 ^ 32 →
  sighash b d c = sighash b' d' c' →
  (d = d' ∧ c = c' ∧ flags b = flags b' ∧ value_balance b = value_balance b' ∧
   bundle_anchor b = bundle_anchor b' ∧ unsigned <$> actions b = unsigned <$> actions b') ∨
  (sighash_preimage b d c ≠ sighash_preimage b' d' c' ∧
   blake2b SIGHASH_PERSONALIZATION (sighash_preimage b d c) =
   blake2b SIGHASH_PERSONALIZATION (sighash_preimage b' d' c')).
Proof.
  intros. destruct (decide (sighash_preimage b d c = sighash_preimage b' d' c')).
  - left. by apply sighash_preimage_inj.
  - by right.
Qed.

Lemma sighash_binding_witness :
  let d := replicate 32 0 in let c := [1; 2] in
  (d = d ∧ c = c ∧ 3 = 3 ∧ -5 = -5 ∧
   bundle_anchor sample_bundle = bundle_anchor sample_bundle ∧
   unsigned <$> actions sample_bundle = unsigned <$> actions sample_bundle) ∨
  (sighash_preimage sample_bundle d c ≠ sighash_preimage sample_bundle d c ∧
   [42] = [42]).
Proof.
  intros d c.
  apply (@sighash_binding (λ _ _, [42]) sample_bundle d c sample_bundle d c);
    first [apply sample_bundle_wf | reflexivity | by vm_compute].
Defined.
