(* ===== verification/BundleVerify.v ===== *)
(** * Verification of a shielded bundle (shielded-core/src/verify.rs)

    The three checks that make a bundle sound: the Halo 2 proof over the instances of
    its actions, the binding signature under the key that is left of the value
    commitments, and the spend authorization of every action; with the rules on
    encodings that come before them.  The orchard crate's types and checks are a
    class; the value commitments are those of the turnstile. *)

From S2P Require Import Prelude Bytes NoteTree Turnstile Bundle.

(** What [verify_bundle] calls of orchard, redpallas and pasta_curves. *)
Class OrchardVerifier `{ValueCommitScheme} := {
  Anchor : Type; NullifierPoint : Type; ExtractedNoteCommitment : Type; SpendAuthKey : Type; BindingKey : Type;
  PallasPoint : Type; Instance_ : Type; VerifyingKey : Type;
  verifying_key : VerifyingKey;
  anchor_from_bytes : bytes → option Anchor;
  nullifier_from_bytes : bytes → option NullifierPoint;
  cmx_from_bytes : bytes → option ExtractedNoteCommitment;
  vc_from_bytes : bytes → option ValueCommitment;
  vc_sub : ValueCommitment → ValueCommitment → ValueCommitment;
  rk_try_from : bytes → option SpendAuthKey;
  rk_is_identity : SpendAuthKey → bool;
  rk_verify : SpendAuthKey → bytes → bytes → bool;
  point_from_bytes : bytes → option PallasPoint;
  point_is_identity : PallasPoint → bool;
  instance_from_parts : Anchor → ValueCommitment → NullifierPoint → SpendAuthKey → ExtractedNoteCommitment →
    bool → bool → option Instance_;
  expected_proof_size : nat → nat;
  proof_verify : VerifyingKey → bytes → list Instance_ → bool;
  bvk_try_from : bytes → option BindingKey;
  bvk_verify : BindingKey → bytes → bytes → bool;
}.

Inductive Field := FieldAnchor | FieldNullifier | FieldCmx | FieldCvNet | FieldRk | FieldEpk.

Inductive BundleVerifyError :=
| NoActions
| NonCanonicalField (f : Field)
| IdentityRk
| IdentityEpk
| NonCanonicalFlags
| BadProofLength (expected got : nat)
| ProofInvalid
| BindingSigInvalid
| SpendAuthSigInvalid (i : nat).

Section verify.
Context `{OrchardVerifier}.
Abbreviation vres := (res BundleVerifyError).

(** The fields of an action, decoded, with the rules on their encodings. *)
Definition parse_action (anchor : Anchor) (enable_spend enable_output : bool) (a : ActionWire) :
    vres (Instance_ * SpendAuthKey * ValueCommitment) :=
  nf ← ok_or (NonCanonicalField FieldNullifier) (nullifier_from_bytes (nullifier a));
  cmx ← ok_or (NonCanonicalField FieldCmx) (cmx_from_bytes (cmx a));
  cv_net ← ok_or (NonCanonicalField FieldCvNet) (vc_from_bytes (cv_net a));
  rk ← ok_or (NonCanonicalField FieldRk) (rk_try_from (rk a));
  if rk_is_identity rk then Err IdentityRk
  else
    epk ← ok_or (NonCanonicalField FieldEpk) (point_from_bytes (ephemeral_key a));
    if point_is_identity epk then Err IdentityEpk
    else
      i ← ok_or IdentityRk (instance_from_parts anchor cv_net nf rk cmx enable_spend enable_output);
      Ok (i, rk, cv_net).

(** The loop over the actions, with its three accumulators. *)
Fixpoint parse_actions (anchor : Anchor) (enable_spend enable_output : bool) (acts : list ActionWire)
    (instances : list Instance_) (rks : list SpendAuthKey) (cv_sum : option ValueCommitment) :
    vres (list Instance_ * list SpendAuthKey * option ValueCommitment) :=
  match acts with
  | [] => Ok (instances, rks, cv_sum)
  | a :: acts =>
      '(i, rk, cv) ← parse_action anchor enable_spend enable_output a;
      parse_actions anchor enable_spend enable_output acts (instances ++ [i]) (rks ++ [rk])
        (Some (match cv_sum with None => cv | Some acc => vc_add acc cv end))
  end.

(** The loop over the spend authorizations, from the [i]-th action. *)
Fixpoint verify_spend_auths (sighash : bytes) (i : nat) (l : list (ActionWire * SpendAuthKey)) : vres () :=
  match l with
  | [] => Ok tt
  | (a, rk) :: l =>
      if rk_verify rk sighash (spend_auth_sig a) then verify_spend_auths sighash (S i) l else Err (SpendAuthSigInvalid i)
  end.

Definition verify_bundle_with_vk (b : ShieldedBundle) (sighash : bytes) (vk : VerifyingKey) : vres () :=
  if (length (actions b) =? 0)%nat then Err NoActions
  else
    anchor ← ok_or (NonCanonicalField FieldAnchor) (anchor_from_bytes (bundle_anchor b));
    if negb (Z.land (flags b) (Z.lnot 3 mod 2 ^ 8) =? 0) then Err NonCanonicalFlags
    else
      let enable_spend := negb (Z.land (flags b) 1 =? 0) in
      let enable_output := negb (Z.land (flags b) 2 =? 0) in
      '(instances, rks, cv_sum) ← parse_actions anchor enable_spend enable_output (actions b) [] [] None;
      let expected := expected_proof_size (length (actions b)) in
      if negb (length (proof b) =? expected)%nat then Err (BadProofLength expected (length (proof b)))
      else if negb (proof_verify vk (proof b) instances) then Err ProofInvalid
      else
        cv_sum ← unwrap cv_sum;
        rcv ← match zero_trapdoor with Ok z => Ok z | _ => Panic end;
        let bvk_point := vc_sub cv_sum (commit (value_balance b) rcv) in
        bvk ← ok_or BindingSigInvalid (bvk_try_from (vc_to_bytes bvk_point));
        if negb (bvk_verify bvk sighash (binding_sig b)) then Err BindingSigInvalid
        else verify_spend_auths sighash 0 (zip (actions b) rks).

Definition verify_bundle (b : ShieldedBundle) (sighash : bytes) : vres () := verify_bundle_with_vk b sighash verifying_key.
End verify.

(** What is relied on: commitments are a group, so that subtraction cancels. *)
Class OrchardVerifierLaws `{HL : ValueCommitLaws} `{!OrchardVerifier} := {
  vc_sub_add a b : vc_sub (vc_add a b) a = b;
}.

Section sound.
Context `{OrchardVerifierLaws}.
Abbreviation parsed := (Instance_ * SpendAuthKey * ValueCommitment)%type.

(** The sum of the commitments, in the order of the loop. *)
Definition cv_total (cvs : list ValueCommitment) : option ValueCommitment :=
  match cvs with [] => None | cv :: cvs => Some (foldl vc_add cv cvs) end.

Lemma parse_actions_spec anchor es eo acts instances rks sum out :
  parse_actions anchor es eo acts instances rks sum = Ok out ↔
  ∃ xs : list parsed, Forall2 (λ a x, parse_action anchor es eo a = Ok x) acts xs ∧
    out = (instances ++ ((λ x, x.1.1) <$> xs), rks ++ ((λ x, x.1.2) <$> xs),
           match sum with
           | None => cv_total (snd <$> xs)
           | Some s => Some (foldl vc_add s (snd <$> xs))
           end).
Proof.
  revert instances rks sum. induction acts as [|a acts IH]; intros instances rks sum; cbn [parse_actions].
  - split.
    + intros [= <-]. exists []. split; [constructor|]. csimpl. rewrite !app_nil_r. by destruct sum.
    + intros (xs & Hxs & ->). inversion Hxs; subst. csimpl. rewrite !app_nil_r. by destruct sum.
  - split.
    + intros Hp. apply bind_Ok in Hp as ([[i r] cv] & Ha & Hp). apply IH in Hp as (xs & Hxs & ->).
      exists ((i, r, cv) :: xs). split; [by constructor|]. csimpl. rewrite <- !app_assoc. by destruct sum.
    + intros (xs & Hxs & ->). inversion Hxs as [|? [[i r] cv] ? xs' Ha Hxs']; subst. rewrite Ha. cbn [mbind res_mbind].
      apply IH. exists xs'. split; [done|]. csimpl. rewrite <- !app_assoc. by destruct sum.
Qed.

Lemma verify_spend_auths_spec sighash i l :
  verify_spend_auths sighash i l = Ok tt ↔ Forall (λ x, rk_verify x.2 sighash (spend_auth_sig x.1) = true) l.
Proof.
  revert i. induction l as [|[a rk] l IH]; intros i; cbn [verify_spend_auths]; [by split|].
  rewrite Forall_cons. cbn [fst snd]. destruct (rk_verify rk sighash (spend_auth_sig a)); [rewrite IH; naive_solver|].
  split; [done|by intros [??]].
Qed.

(** A sound bundle: canonical encodings, a proof over the instances of all actions, a
    binding signature under what is left of the commitments, and an authorization of
    every spend. *)
Definition bundle_sound (b : ShieldedBundle) (sighash : bytes) (vk : VerifyingKey) : Prop :=
  ∃ anchor (xs : list parsed) z total bvk,
    anchor_from_bytes (bundle_anchor b) = Some anchor ∧ Z.land (flags b) 252 = 0 ∧
    Forall2 (λ a x, parse_action anchor (negb (Z.land (flags b) 1 =? 0)) (negb (Z.land (flags b) 2 =? 0)) a = Ok x)
      (actions b) xs ∧
    length (proof b) = expected_proof_size (length (actions b)) ∧
    proof_verify vk (proof b) ((λ x, x.1.1) <$> xs) = true ∧
    zero_trapdoor = Ok z ∧ cv_total (snd <$> xs) = Some total ∧
    bvk_try_from (vc_to_bytes (vc_sub total (commit (value_balance b) z))) = Some bvk ∧
    bvk_verify bvk sighash (binding_sig b) = true ∧
    Forall2 (λ a x, rk_verify x.1.2 sighash (spend_auth_sig a) = true) (actions b) xs.

Lemma zip_auths sighash acts (xs : list parsed) :
  length acts = length xs →
  Forall (λ x, rk_verify x.2 sighash (spend_auth_sig x.1) = true) (zip acts ((λ x, x.1.2) <$> xs)) ↔
  Forall2 (λ a x, rk_verify x.1.2 sighash (spend_auth_sig a) = true) acts xs.
Proof.
  revert xs. induction acts as [|a acts IH]; intros [|x xs] Hlen; [by split; constructor|done..|].
  csimpl. rewrite Forall_cons, Forall2_cons, IH by (by injection Hlen). done.
Qed.

(** The loop over the actions fails only with errors. *)
Lemma parse_action_no_panic anchor es eo a : parse_action anchor es eo a ≠ Panic.
Proof.
  unfold parse_action, ok_or. repeat (case_match; try done; cbn [mbind res_mbind]).
Qed.
Lemma parse_actions_no_panic anchor es eo acts instances rks sum : parse_actions anchor es eo acts instances rks sum ≠ Panic.
Proof.
  revert instances rks sum. induction acts as [|a acts IH]; intros instances rks sum; cbn [parse_actions]; [done|].
  pose proof (parse_action_no_panic anchor es eo a). destruct (parse_action anchor es eo a) as [[[i r] cv]| |]; [|done..]. apply IH.
Qed.
Lemma verify_spend_auths_no_panic sighash i l : verify_spend_auths sighash i l ≠ Panic.
Proof. revert i. induction l as [|[a rk] l IH]; intros i; cbn [verify_spend_auths]; [done|]. by destruct (rk_verify _ _ _). Qed.

Lemma cv_total_nonempty (l : list ValueCommitment) : l ≠ [] → ∃ t, cv_total l = Some t.
Proof. destruct l; [done|]. by eexists. Qed.

Lemma zero_trapdoor_ok : ∃ z, zero_trapdoor = Ok z ∧ ∀ r, trapdoor_add z r = r.
Proof. destruct zero_trapdoor_canonical as (z & Hz & Hn). exists z. unfold zero_trapdoor. by rewrite Hz. Qed.

(** The sum of commitments commits to the sum. *)
Lemma cv_total_commit z (vrs : list (Z * Trapdoor)) total :
  (∀ r, trapdoor_add z r = r) → cv_total ((λ vr, commit vr.1 vr.2) <$> vrs) = Some total →
  total = commit (sumZ vrs.*1) (foldl trapdoor_add z vrs.*2).
Proof.
  intros Hz. destruct vrs as [|[v r] vrs]; [done|]. csimpl. intros [= <-]. rewrite Hz. clear Hz.
  revert v r. induction vrs as [|[v' r'] vrs IH]; intros v r; csimpl; [by rewrite sumZ_cons, Z.add_0_r|].
  rewrite commit_add, IH. f_equal. rewrite !sumZ_cons. lia.
Qed.

Lemma commit_excess z v r vb : (∀ r, trapdoor_add z r = r) → vc_sub (commit v r) (commit vb z) = commit (v - vb) r.
Proof.
  intros Hz. rewrite <- (vc_sub_add (commit vb z) (commit (v - vb) r)). rewrite commit_add, Hz. do 2 f_equal. lia.
Qed.

Lemma verify_bundle_sound_iff b sighash vk : verify_bundle_with_vk b sighash vk = Ok tt ↔ bundle_sound b sighash vk.
Proof.
  destruct zero_trapdoor_ok as (z & Hz & _). unfold verify_bundle_with_vk. change (Z.lnot 3 mod 2 ^ 8) with 252. split.
  - destruct (Nat.eqb_spec (length (actions b)) 0) as [|Hne]; [done|].
    intros (anchor & Hanchor%ok_or_Ok & Hv)%bind_Ok.
    destruct (Z.eqb_spec (Z.land (flags b) 252) 0) as [Hfl|]; [|done]. cbn [negb] in Hv.
    apply bind_Ok in Hv as ([[ins rks] sum] & Hp & Hv). apply parse_actions_spec in Hp as (xs & Hxs & [= -> -> ->]).
    destruct (Nat.eqb_spec (length (proof b)) (expected_proof_size (length (actions b)))) as [Hlen|]; [|done].
    cbn [negb] in Hv. destruct (proof_verify _ _ _) eqn:Hproof; [|done]. cbn [negb] in Hv.
    apply bind_Ok in Hv as (total & Htotal & Hv). rewrite Hz in Hv. cbn [mbind res_mbind] in Hv.
    apply bind_Ok in Hv as (bvk & Hbvk%ok_or_Ok & Hv). destruct (bvk_verify _ _ _) eqn:Hbind; [|done]. cbn [negb] in Hv.
    apply verify_spend_auths_spec, zip_auths in Hv; [|by eapply Forall2_length].
    exists anchor, xs, z, total, bvk. split_and!; try done. by destruct (cv_total _); [injection Htotal as ->|].
  - intros (anchor & xs & z' & total & bvk & Hanchor & Hfl & Hxs & Hlen & Hproof & Hz' & Htotal & Hbvk & Hbind & Hauth).
    rewrite Hz in Hz'. injection Hz' as <-.
    destruct (Nat.eqb_spec (length (actions b)) 0) as [He|_].
    { destruct (actions b); [|done]. inversion Hxs; subst. done. }
    rewrite Hanchor. cbn [ok_or mbind res_mbind]. rewrite Hfl. cbn [Z.eqb negb].
    rewrite (proj2 (parse_actions_spec _ _ _ _ [] [] None _) (ex_intro _ xs (conj Hxs eq_refl))). cbn [mbind res_mbind app].
    rewrite (proj2 (Nat.eqb_eq _ _) Hlen), Hproof. cbn [negb]. rewrite Htotal. cbn [unwrap mbind res_mbind].
    rewrite Hz. cbn [mbind res_mbind]. rewrite Hbvk. cbn [ok_or mbind res_mbind]. rewrite Hbind. cbn [negb].
    apply verify_spend_auths_spec, zip_auths; [by eapply Forall2_length|done].
Qed.

Lemma verify_bundle_no_panic b sighash vk : verify_bundle_with_vk b sighash vk ≠ Panic.
Proof.
  unfold verify_bundle_with_vk, ok_or. destruct (_ =? 0)%nat eqn:Hne; [done|].
  destruct (anchor_from_bytes _); [|done]. cbn [mbind res_mbind]. destruct (negb _); [done|].
  match goal with |- context [parse_actions ?a ?b ?c ?d ?e ?f ?g] =>
    pose proof (parse_actions_no_panic a b c d e f g); destruct (parse_actions a b c d e f g) as [[[ins rks] sum]| |] eqn:Hp end;
    cbn [mbind res_mbind]; [|done..].
  destruct (negb (_ =? _)%nat); [done|]. destruct (negb (proof_verify _ _ _)); [done|].
  apply parse_actions_spec in Hp as (xs & Hxs & [= _ _ ->]). destruct (cv_total_nonempty (snd <$> xs)) as [t Ht].
  { intros ->%fmap_nil_inv. apply Forall2_length in Hxs. by rewrite Hxs in Hne. }
  destruct zero_trapdoor_ok as (z & Hz & _). rewrite Ht, Hz. cbn [unwrap mbind res_mbind].
  destruct (bvk_try_from _); [|done]. cbn [mbind res_mbind]. destruct (negb (bvk_verify _ _ _)); [done|]. apply verify_spend_auths_no_panic.
Qed.

(** C19. A bundle is verified exactly when it is sound, and verification never panics.
    When the value commitments of its actions open to values and trapdoors, the key that
    the binding signature is checked under is a commitment to the sum of the values minus
    the value balance, under the sum of the trapdoors: it is a commitment to zero exactly
    when the bundle balances. *)
Theorem verify_bundle_exact b sighash vk :
  (verify_bundle_with_vk b sighash vk = Ok tt ↔ bundle_sound b sighash vk) ∧
  verify_bundle_with_vk b sighash vk ≠ Panic ∧
  ∃ z, zero_trapdoor = Ok z ∧
    ∀ vrs total, cv_total ((λ vr, commit vr.1 vr.2) <$> vrs) = Some total →
      let rcv := foldl trapdoor_add z vrs.*2 in
      vc_sub total (commit (value_balance b) z) = commit (sumZ vrs.*1 - value_balance b) rcv ∧
      (in_i 64 (sumZ vrs.*1 - value_balance b) →
       vc_to_bytes (vc_sub total (commit (value_balance b) z)) = vc_to_bytes (commit 0 rcv) ↔
       sumZ vrs.*1 = value_balance b).
Proof.
  split; [apply verify_bundle_sound_iff|]. split; [apply verify_bundle_no_panic|].
  destruct zero_trapdoor_ok as (z & Hz & Hneutral). exists z. split; [done|]. intros vrs total Htotal rcv.
  apply (cv_total_commit z) in Htotal as ->; [|done]. rewrite (commit_excess z) by done. split; [done|]. intros Hr.
  split; [|intros ->; by rewrite Z.sub_diag]. unfold commit. rewrite !value_sum_spec.
  intros Heq%commitment_binding; [lia|done|by unfold in_i].
Qed.
End sound.

(** ** A toy verifier, to show that the laws can hold *)
Module SampleVerifier.
#[export] Existing Instance pair_scheme.
#[export] Instance verifier : OrchardVerifier := {|
  Anchor := bytes; NullifierPoint := bytes; ExtractedNoteCommitment := bytes; SpendAuthKey := bytes; BindingKey := bytes;
  PallasPoint := bytes; Instance_ := bytes; VerifyingKey := unit; verifying_key := tt;
  anchor_from_bytes := Some; nullifier_from_bytes := Some; cmx_from_bytes := Some;
  vc_from_bytes b := Some (of_le_bytes b, 0) : option (@ValueCommitment pair_scheme);
  vc_sub '(v, r) '(w, s) := (v - w, r - s);
  rk_try_from := Some; rk_is_identity b := bool_decide (b = replicate 32 0); rk_verify rk sh sig := bool_decide (sig = rk ++ sh);
  point_from_bytes := Some; point_is_identity b := bool_decide (b = replicate 32 0);
  instance_from_parts _ _ nf _ _ _ _ := Some nf; expected_proof_size n := n; proof_verify _ _ _ := true;
  bvk_try_from := Some; bvk_verify bvk sh sig := bool_decide (bvk = [0; 0]);
|}.
#[export] Instance laws : @OrchardVerifierLaws pair_scheme pair_scheme_laws verifier.
Proof. constructor. intros [v r] [w s]. simpl. f_equal; lia. Qed.
Definition sample (sighash : bytes) : ShieldedBundle :=
  let a := mkAction (replicate 32 1) (replicate 32 2) (replicate 32 3) (replicate 32 0) (replicate 32 4) [] [] (replicate 32 2 ++ sighash) in
  mkBundle [a] 3 0 (replicate 32 5) [7] [].
End SampleVerifier.

Lemma verify_bundle_exact_witness :
  @bundle_sound pair_scheme SampleVerifier.verifier (SampleVerifier.sample [9]) [9] tt.
Proof.
  apply (proj1 (@verify_bundle_exact pair_scheme pair_scheme_laws SampleVerifier.verifier SampleVerifier.laws
    (SampleVerifier.sample [9]) [9] tt)). vm_compute. reflexivity.
Defined.
