(* ===== verification/ShieldedState.v ===== *)
(** * The shielded state transition (shielded-core/src/state.rs)

    One accepted chain block's update of the nullifier set, the global
    note-commitment tree and the turnstile ledger, composed from the component
    models of [Nullifier], [NoteTree] and [Turnstile] the way
    [apply_chain_block_to] composes them, and the invariants of every state
    reachable from genesis. *)

From S2P Require Import Prelude Bytes Turnstile Nullifier NoteTree Bundle.

Inductive BundleExtractError := NonCanonicalCommitment | MintingValueBalance.

Inductive ShieldedStateError :=
| TurnstileError (v : TurnstileViolation)
| TreeFullErr.

(** [impl From<TreeFull> for ShieldedStateError]. *)
Definition from_tree_full (_ : TreeFull) : ShieldedStateError := TreeFullErr.

Section State.
Context `{OrchardTree}.

Record ShieldedTx := mkShieldedTx {
  tx_nullifiers : list NullifierBytes;
  tx_commitments : list Cmx;
  fee : Z;
  tx_anchor : bytes;
}.

(** The loop of [from_bundle] over the actions' commitments. *)
Fixpoint extract_commitments (acts : list ActionWire) : res BundleExtractError (list Cmx) :=
  match acts with
  | [] => Ok []
  | a :: acts =>
      c ← ok_or NonCanonicalCommitment (cmx_from_bytes (cmx a));
      cs ← extract_commitments acts;
      Ok (c :: cs)
  end.

Definition from_bundle (b : ShieldedBundle) : res BundleExtractError ShieldedTx :=
  cs ← extract_commitments (actions b);
  let nfs := nullifier <$> actions b in
  if value_balance b <? 0 then Err MintingValueBalance
  else Ok (mkShieldedTx nfs cs (value_balance b mod 2 ^ 64) (bundle_anchor b)).

Record CoinbaseNote := mkCoinbaseNote { note_value : Z; note_commitment : Cmx }.

Record CoinbaseMint := mkMint { notes : list CoinbaseNote }.

(** [iter().map(|n| n.value as u128).sum()]: a checked [u128] sum. *)
Definition total_value (m : CoinbaseMint) : res Empty_set Z :=
  foldl (λ acc n, a ← acc; add_p 128 a (note_value n)) (Ok 0) (notes m).

Record BlockShieldedOutcome := mkOutcome {
  accepted : list nat;
  new_nullifiers : list NullifierBytes;
  subtree : ChainBlockSubtree;
  outcome_anchor : Anchor;
}.

Record ShieldedState := mkState {
  nullifiers : MemNullifierSet;
  tree : GlobalTree;
  supply : SupplyLedger;
}.

Definition state_new : ShieldedState := mkState mem_new tree_new ledger_new.

Definition state_anchor (s : ShieldedState) : Anchor := tree_anchor (tree s).

(** Phase 1, coinbase: [total_mint += note.value as u128; subtree.push(..)]. *)
Fixpoint gather_notes (ns : list CoinbaseNote) (mint : Z) (sub : ChainBlockSubtree)
    : res ShieldedStateError (Z * ChainBlockSubtree) :=
  match ns with
  | [] => Ok (mint, sub)
  | n :: ns =>
      m ← add_p 128 mint (note_value n);
      gather_notes ns m (subtree_push sub (note_commitment n))
  end.

(** Phase 1, transactions: the enumerated loop over [txs]. *)
Fixpoint gather_txs `{NullifierSet T} (txs : list ShieldedTx) (i : nat)
    (r : NullifierConflictResolver T) (sub : ChainBlockSubtree) (fees : Z) (acc : list nat)
    : res ShieldedStateError
        (NullifierConflictResolver T * ChainBlockSubtree * Z * list nat) :=
  match txs with
  | [] => Ok (r, sub, fees, acc)
  | tx :: txs =>
      match try_accept r (tx_nullifiers tx) with
      | (r', Ok _) =>
          let sub' := foldl subtree_push sub (tx_commitments tx) in
          fees' ← add_p 128 fees (fee tx);
          gather_txs txs (S i) r' sub' fees' (acc ++ [i])
      | (r', _) => gather_txs txs (S i) r' sub fees acc
      end
  end.

(** [u64::try_from(x).map_err(|_| TurnstileViolation::Overflow)]. *)
Definition try_u64 (x : Z) : res TurnstileViolation Z :=
  if x <? 2 ^ 64 then Ok x else Err Overflow.

(** The body of [apply_chain_block_to] up to the final swap: the working
    copies of the tree and the ledger, and the outcome. *)
Definition transition `{NullifierSet T} (fin : T) (t : GlobalTree) (sup : SupplyLedger)
    (coinbase : option CoinbaseMint) (txs : list ShieldedTx)
    : res ShieldedStateError (GlobalTree * SupplyLedger * BlockShieldedOutcome) :=
  '(total_mint, sub) ←
    match coinbase with
    | Some cb => gather_notes (notes cb) 0 subtree_new
    | None => Ok (0, subtree_new)
    end;
  '(r, sub, total_fees, acc) ← gather_txs txs 0 (resolver_new fin) sub 0 [];
  let new_nfs := into_accepted r in
  sup1 ← (if 0 <? total_mint then
            map_err TurnstileError (m ← try_u64 total_mint; mint_coinbase sup m)
          else Ok sup);
  sup2 ← (if 0 <? total_fees then
            map_err TurnstileError (f ← try_u64 total_fees; collect_fees sup1 f)
          else Ok sup1);
  let '(t', o) := append_subtree t sub in
  _ ← map_err from_tree_full o;
  _ ← map_err TurnstileError (ledger_check sup2);
  Ok (t', sup2, mkOutcome acc new_nfs sub (tree_anchor t')).

(** [&mut tree] and [&mut supply] are returned on every path. *)
Definition apply_chain_block_to `{NullifierSet T} (fin : T) (t : GlobalTree) (sup : SupplyLedger)
    (coinbase : option CoinbaseMint) (txs : list ShieldedTx)
    : GlobalTree * SupplyLedger * res ShieldedStateError BlockShieldedOutcome :=
  match transition fin t sup coinbase txs with
  | Ok (t', sup', out) => (t', sup', Ok out)
  | Err e => (t, sup, Err e)
  | Panic => (t, sup, Panic)
  end.

Definition apply_chain_block (s : ShieldedState) (coinbase : option CoinbaseMint)
    (txs : list ShieldedTx) : ShieldedState * res ShieldedStateError BlockShieldedOutcome :=
  let '(t, sup, o) := apply_chain_block_to (nullifiers s) (tree s) (supply s) coinbase txs in
  match o with
  | Ok out => (mkState (mem_extend (nullifiers s) (new_nullifiers out)) t sup, Ok out)
  | e => (mkState (nullifiers s) t sup, e)
  end.

(** ** Closed forms *)

Definition minted (coinbase : option CoinbaseMint) : Z :=
  match coinbase with Some cb => sumZ (note_value <$> notes cb) | None => 0 end.

Definition coinbase_leaves (coinbase : option CoinbaseMint) : list Cmx :=
  match coinbase with Some cb => note_commitment <$> notes cb | None => [] end.

(** The indices a keep-mask selects, counted from [i]. *)
Fixpoint kept_indices (i : nat) (keep : list bool) : list nat :=
  match keep with
  | [] => []
  | k :: keep => if k then i :: kept_indices (S i) keep else kept_indices (S i) keep
  end.

(** Type invariants of the inputs: values and fees are [u64], and a block
    carries fewer than 2^63 notes and transactions. *)
Definition coinbase_wf (coinbase : option CoinbaseMint) : Prop :=
  match coinbase with
  | Some cb => Forall (λ n, in_u 64 (note_value n)) (notes cb) ∧
               Z.of_nat (length (notes cb)) < 2 ^ 63
  | None => True
  end.

Definition txs_wf (txs : list ShieldedTx) : Prop :=
  Forall (λ tx, in_u 64 (fee tx)) txs ∧ Z.of_nat (length txs) < 2 ^ 63.
End State.

Section StateLemmas.
Context `{HL : OrchardTreeLaws}.

Lemma foldl_push sub cs : foldl subtree_push sub cs = mkSubtree (commitments sub ++ cs).
Proof.
  revert sub; induction cs as [|c cs IH]; intros [l]; simpl; [by rewrite app_nil_r|].
  rewrite IH. simpl. by rewrite <- app_assoc.
Qed.

Lemma gather_notes_spec ns mint sub :
  Forall (λ n, in_u 64 (note_value n)) ns → 0 ≤ mint →
  mint + Z.of_nat (length ns) * 2 ^ 64 < 2 ^ 128 →
  gather_notes ns mint sub =
  Ok (mint + sumZ (note_value <$> ns), mkSubtree (commitments sub ++ (note_commitment <$> ns))).
Proof.
  intros Hns. revert mint sub; induction Hns as [|n ns Hn Hns IH]; intros mint sub Hm Hb;
    csimpl; cbn [gather_notes length] in *.
  { destruct sub; simpl. by rewrite Z.add_0_r, app_nil_r. }
  unfold in_u in Hn.
  assert (@add_p ShieldedStateError 128 mint (note_value n) = Ok (mint + note_value n)) as ->
    by (apply add_p_Ok; lia).
  cbn [mbind res_mbind]. rewrite IH by lia. rewrite sumZ_cons. simpl.
  rewrite <- app_assoc. by rewrite Z.add_assoc.
Qed.

Lemma gather_txs_spec `{NullifierSet T} txs i (r : NullifierConflictResolver T) sub fees acc :
  Forall (λ tx, in_u 64 (fee tx)) txs → 0 ≤ fees →
  fees + Z.of_nat (length txs) * 2 ^ 64 < 2 ^ 128 →
  let '(r', keep) := resolve_batch r (tx_nullifiers <$> txs) in
  gather_txs txs i r sub fees acc =
  Ok (r', mkSubtree (commitments sub ++ concat (tx_commitments <$> kept keep txs)),
      fees + sumZ (fee <$> kept keep txs), acc ++ kept_indices i keep).
Proof.
  intros Htxs. revert i r sub fees acc; induction Htxs as [|tx txs Htx Htxs IH];
    intros i r sub fees acc Hf Hb; csimpl; cbn [gather_txs resolve_batch length] in *.
  { destruct sub; simpl. by rewrite Z.add_0_r, !app_nil_r. }
  unfold in_u in Htx.
  destruct (try_accept_cases r (tx_nullifiers tx)) as [[e ->]|(_ & _ & ->)].
  - specialize (IH (S i) r sub fees acc Hf ltac:(lia)).
    destruct (resolve_batch r (tx_nullifiers <$> txs)) as [r' keep]. simpl. by rewrite IH.
  - assert (@add_p ShieldedStateError 128 fees (fee tx) = Ok (fees + fee tx)) as ->
      by (apply add_p_Ok; lia).
    cbn [mbind res_mbind]. rewrite foldl_push.
    specialize (IH (S i) (record_nullifiers r (tx_nullifiers tx))
      (mkSubtree (commitments sub ++ tx_commitments tx)) (fees + fee tx) (acc ++ [i])
      ltac:(lia) ltac:(lia)).
    destruct (resolve_batch _ (tx_nullifiers <$> txs)) as [r' keep].
    rewrite IH. csimpl. rewrite sumZ_cons, <- !app_assoc. by rewrite Z.add_assoc.
Qed.

(** The kept transactions of a block, as conflict resolution decides them. *)
Definition keep_mask `{NullifierSet T} (fin : T) (txs : list ShieldedTx) : list bool :=
  (resolve_batch (resolver_new fin) (tx_nullifiers <$> txs)).2.

Definition kept_txs `{NullifierSet T} (fin : T) (txs : list ShieldedTx) : list ShieldedTx :=
  kept (keep_mask fin txs) txs.

Definition block_leaves `{NullifierSet T} (fin : T) (coinbase : option CoinbaseMint)
    (txs : list ShieldedTx) : list Cmx :=
  coinbase_leaves coinbase ++ concat (tx_commitments <$> kept_txs fin txs).

Definition block_fees `{NullifierSet T} (fin : T) (txs : list ShieldedTx) : Z :=
  sumZ (fee <$> kept_txs fin txs).

Lemma concat_kept {A} (f : ShieldedTx → list A) keep txs :
  concat (kept keep (f <$> txs)) = concat (f <$> kept keep txs).
Proof.
  revert txs; induction keep as [|k keep IH]; intros [|tx txs]; csimpl; try done.
  destruct k; csimpl; [by rewrite IH|done].
Qed.

Lemma kept_Forall {A} (P : A → Prop) keep l : Forall P l → Forall P (kept keep l).
Proof.
  intros Hl. revert keep; induction Hl; intros [|[] keep]; simpl; auto using Forall_nil_2.
Qed.

Lemma minted_bound coinbase :
  coinbase_wf coinbase → 0 ≤ minted coinbase.
Proof.
  destruct coinbase as [cb|]; [|done]. intros [Hn _]. simpl. apply sumZ_nonneg.
  apply Forall_fmap. eapply Forall_impl; [done|]. intros n ?. unfold in_u in *. simpl. lia.
Qed.

Lemma block_fees_bound `{NullifierSet T} (fin : T) txs : txs_wf txs → 0 ≤ block_fees fin txs.
Proof.
  intros [Htx _]. apply sumZ_nonneg, Forall_fmap. eapply Forall_impl; [by apply kept_Forall|].
  intros tx ?. unfold in_u in *. simpl. lia.
Qed.

Lemma gather_coinbase_spec coinbase :
  coinbase_wf coinbase →
  match coinbase with
  | Some cb => gather_notes (notes cb) 0 subtree_new
  | None => Ok (0, subtree_new)
  end = Ok (minted coinbase, mkSubtree (coinbase_leaves coinbase)).
Proof.
  destruct coinbase as [cb|]; [|done]. intros [Hn Hlen].
  by rewrite gather_notes_spec by (done || lia).
Qed.

Lemma gather_block_spec `{NullifierSet T} (fin : T) coinbase txs :
  txs_wf txs →
  gather_txs txs 0 (resolver_new fin) (mkSubtree (coinbase_leaves coinbase)) 0 [] =
  Ok ((resolve_batch (resolver_new fin) (tx_nullifiers <$> txs)).1,
      mkSubtree (block_leaves fin coinbase txs), block_fees fin txs,
      kept_indices 0 (keep_mask fin txs)).
Proof.
  intros [Htx Hlen].
  pose proof (gather_txs_spec txs 0 (resolver_new fin) (mkSubtree (coinbase_leaves coinbase)) 0 []
    Htx ltac:(lia) ltac:(lia)) as Hg.
  unfold block_leaves, block_fees, kept_txs, keep_mask.
  destruct (resolve_batch (resolver_new fin) (tx_nullifiers <$> txs)) as [r keep].
  by rewrite Hg.
Qed.

(** A ledger update of phase 2: skipped at zero, checked at [u64], then at [u128]. *)
Lemma mint_step sup m :
  ledger_wf sup → 0 ≤ m →
  (if 0 <? m then map_err TurnstileError (x ← try_u64 m; mint_coinbase sup x) else Ok sup) =
  if bool_decide (m < 2 ^ 64 ∧ cumulative_coinbase sup + m < 2 ^ 128)
  then Ok (mkSupplyLedger (cumulative_coinbase sup + m) (cumulative_fees sup))
  else Err (TurnstileError Overflow).
Proof.
  intros [[? ?] _] Hm. destruct (Z.ltb_spec 0 m).
  - unfold try_u64. destruct (Z.ltb_spec m (2 ^ 64)); simpl.
    + unfold mint_coinbase, checked_add. case_bool_decide;
        destruct (Z.ltb_spec (cumulative_coinbase sup + m) (2 ^ 128)); naive_solver lia.
    + rewrite bool_decide_eq_false_2 by lia. done.
  - assert (m = 0) as -> by lia. rewrite bool_decide_eq_true_2 by lia.
    rewrite Z.add_0_r. by destruct sup.
Qed.

Lemma fee_step sup f :
  ledger_wf sup → 0 ≤ f →
  (if 0 <? f then map_err TurnstileError (x ← try_u64 f; collect_fees sup x) else Ok sup) =
  if bool_decide (f < 2 ^ 64 ∧ cumulative_fees sup + f < 2 ^ 128)
  then Ok (mkSupplyLedger (cumulative_coinbase sup) (cumulative_fees sup + f))
  else Err (TurnstileError Overflow).
Proof.
  intros [_ [? ?]] Hf. destruct (Z.ltb_spec 0 f).
  - unfold try_u64. destruct (Z.ltb_spec f (2 ^ 64)); simpl.
    + unfold collect_fees, checked_add. case_bool_decide;
        destruct (Z.ltb_spec (cumulative_fees sup + f) (2 ^ 128)); naive_solver lia.
    + rewrite bool_decide_eq_false_2 by lia. done.
  - assert (f = 0) as -> by lia. rewrite bool_decide_eq_true_2 by lia.
    rewrite Z.add_0_r. by destruct sup.
Qed.

(** What a block yields when every check passes. *)
Definition next_ledger `{NullifierSet T} (fin : T) (sup : SupplyLedger)
    (coinbase : option CoinbaseMint) (txs : list ShieldedTx) : SupplyLedger :=
  mkSupplyLedger (cumulative_coinbase sup + minted coinbase)
                 (cumulative_fees sup + block_fees fin txs).

Definition next_tree `{NullifierSet T} (fin : T) (t : GlobalTree)
    (coinbase : option CoinbaseMint) (txs : list ShieldedTx) : GlobalTree :=
  (append_leaves t (block_leaves fin coinbase txs)).1.

Definition block_outcome `{NullifierSet T} (fin : T) (t : GlobalTree)
    (coinbase : option CoinbaseMint) (txs : list ShieldedTx) : BlockShieldedOutcome :=
  mkOutcome (kept_indices 0 (keep_mask fin txs)) (concat (tx_nullifiers <$> kept_txs fin txs))
    (mkSubtree (block_leaves fin coinbase txs)) (tree_anchor (next_tree fin t coinbase txs)).

(** The block's totals fit the widths the ledger is updated at. *)
Definition totals_fit `{NullifierSet T} (fin : T) (sup : SupplyLedger)
    (coinbase : option CoinbaseMint) (txs : list ShieldedTx) : Prop :=
  (minted coinbase < 2 ^ 64 ∧ cumulative_coinbase sup + minted coinbase < 2 ^ 128) ∧
  (block_fees fin txs < 2 ^ 64 ∧ cumulative_fees sup + block_fees fin txs < 2 ^ 128).

#[global] Instance totals_fit_dec `{NullifierSet T} (fin : T) sup coinbase txs :
  Decision (totals_fit fin sup coinbase txs).
Proof. unfold totals_fit. apply _. Defined.

Lemma new_nullifiers_spec `{NullifierSet T} (fin : T) txs :
  into_accepted (resolve_batch (resolver_new fin) (tx_nullifiers <$> txs)).1 =
  concat (tx_nullifiers <$> kept_txs fin txs).
Proof.
  pose proof (resolve_batch_spec fin (tx_nullifiers <$> txs)) as Hs.
  unfold kept_txs, keep_mask.
  destruct (resolve_batch (resolver_new fin) (tx_nullifiers <$> txs)) as [r keep].
  destruct Hs as (_ & Hs & _). simpl. by rewrite Hs, concat_kept.
Qed.

Lemma transition_spec `{NullifierSet T} (fin : T) t sup coinbase txs :
  tree_wf t → ledger_wf sup → coinbase_wf coinbase → txs_wf txs →
  transition fin t sup coinbase txs =
  let sup' := next_ledger fin sup coinbase txs in
  if bool_decide (totals_fit fin sup coinbase txs) then
    if bool_decide (tree_size t + Z.of_nat (length (block_leaves fin coinbase txs)) ≤ 2 ^ 32) then
      if bool_decide (cumulative_fees sup' ≤ cumulative_coinbase sup') then
        Ok (next_tree fin t coinbase txs, sup', block_outcome fin t coinbase txs)
      else Err (TurnstileError (PoolUnderflow (cumulative_coinbase sup') (cumulative_fees sup')))
    else Err TreeFullErr
  else Err (TurnstileError Overflow).
Proof.
  intros Ht Hsup Hcb Htxs. unfold transition. rewrite gather_coinbase_spec by done.
  cbn [mbind res_mbind]. rewrite gather_block_spec by done. cbn [mbind res_mbind].
  rewrite new_nullifiers_spec.
  pose proof (minted_bound coinbase Hcb) as HM.
  pose proof (block_fees_bound fin txs Htxs) as HF.
  rewrite mint_step by done. unfold totals_fit.
  destruct (decide (minted coinbase < 2 ^ 64 ∧ cumulative_coinbase sup + minted coinbase < 2 ^ 128))
    as [HMM|HMM].
  2:{ rewrite (bool_decide_eq_false_2 _ HMM), bool_decide_eq_false_2 by tauto. done. }
  rewrite (bool_decide_eq_true_2 _ HMM). cbn [mbind res_mbind].
  rewrite fee_step; [|unfold ledger_wf, in_u in *; simpl; lia|done].
  simpl cumulative_fees. simpl cumulative_coinbase.
  destruct (decide (block_fees fin txs < 2 ^ 64 ∧ cumulative_fees sup + block_fees fin txs < 2 ^ 128))
    as [HFF|HFF].
  2:{ rewrite (bool_decide_eq_false_2 _ HFF), bool_decide_eq_false_2 by tauto. done. }
  rewrite (bool_decide_eq_true_2 _ HFF), (bool_decide_eq_true_2 (_ ∧ _)) by done.
  cbn [mbind res_mbind]. unfold append_subtree, block_outcome, next_tree. simpl commitments.
  pose proof (append_leaves_spec t (block_leaves fin coinbase txs) Ht) as Happ.
  case_bool_decide as Hfull.
  - destruct Happ as (t' & -> & _). simpl.
    unfold ledger_check, pool_value, checked_sub. simpl.
    case_bool_decide as Hpool; destruct (Z.leb_spec (cumulative_fees sup + block_fees fin txs)
      (cumulative_coinbase sup + minted coinbase)); try lia; done.
  - destruct (append_leaves _ _) as [t' o]. destruct Happ as [Ho _]. simpl in Ho. by subst o.
Qed.
End StateLemmas.

(** ** Histories *)

Section History.
Context `{HL : OrchardTreeLaws}.

(** One accepted block of a history: its inputs and its outcome. *)
Record BlockRecord := mkBlock {
  blk_coinbase : option CoinbaseMint;
  blk_txs : list ShieldedTx;
  blk_outcome : BlockShieldedOutcome;
}.

(** The states reachable from genesis: accepted blocks extend the history,
    rejected ones leave whatever state [apply_chain_block] returns. *)
Inductive chain : list BlockRecord → ShieldedState → Prop :=
| chain_genesis : chain [] state_new
| chain_accept h s coinbase txs s' out :
    chain h s → coinbase_wf coinbase → txs_wf txs →
    apply_chain_block s coinbase txs = (s', Ok out) →
    chain (h ++ [mkBlock coinbase txs out]) s'
| chain_reject h s coinbase txs s' e :
    chain h s → coinbase_wf coinbase → txs_wf txs →
    apply_chain_block s coinbase txs = (s', Err e) →
    chain h s'.

(** The transactions an outcome accepted, by index into the block's list. *)
Definition accepted_txs (b : BlockRecord) : list ShieldedTx :=
  omap (λ i, blk_txs b !! i) (accepted (blk_outcome b)).

Definition minted_total (h : list BlockRecord) : Z :=
  sumZ ((λ b, minted (blk_coinbase b)) <$> h).

Definition fees_total (h : list BlockRecord) : Z :=
  sumZ ((λ b, sumZ (fee <$> accepted_txs b)) <$> h).

Definition history_leaves (h : list BlockRecord) : list Cmx :=
  concat ((λ b, coinbase_leaves (blk_coinbase b) ++ concat (tx_commitments <$> accepted_txs b)) <$> h).

Definition history_nullifiers (h : list BlockRecord) : list NullifierBytes :=
  concat ((λ b, concat (tx_nullifiers <$> accepted_txs b)) <$> h).

Lemma omap_kept_indices {A} (l : list A) pre keep :
  length keep = length l →
  omap (λ i, (pre ++ l) !! i) (kept_indices (length pre) keep) = kept keep l.
Proof.
  revert pre keep; induction l as [|x l IH]; intros pre [|k keep]; simpl; try done.
  intros [= Hlen]. specialize (IH (pre ++ [x]) keep Hlen).
  rewrite length_app, <- app_assoc in IH. simpl in IH. rewrite Nat.add_1_r in IH.
  destruct k; csimpl; [|done].
  rewrite lookup_app_r, Nat.sub_diag by lia. simpl. by f_equal.
Qed.

Lemma accepted_txs_spec `{NullifierSet T} (fin : T) t coinbase txs :
  accepted_txs (mkBlock coinbase txs (block_outcome fin t coinbase txs)) = kept_txs fin txs.
Proof.
  unfold accepted_txs, kept_txs. simpl.
  apply (omap_kept_indices txs []). unfold keep_mask. by rewrite resolve_batch_length, length_fmap.
Qed.

(** The state invariant: component invariants and a solvent pool. *)
Definition state_wf (s : ShieldedState) : Prop :=
  tree_wf (tree s) ∧ ledger_sound (supply s).

Lemma apply_chain_block_inv s coinbase txs :
  state_wf s → coinbase_wf coinbase → txs_wf txs →
  let fin := nullifiers s in
  (∃ e, apply_chain_block s coinbase txs = (s, Err e)) ∨
  (apply_chain_block s coinbase txs =
     (mkState (mem_extend fin (concat (tx_nullifiers <$> kept_txs fin txs)))
        (next_tree fin (tree s) coinbase txs) (next_ledger fin (supply s) coinbase txs),
      Ok (block_outcome fin (tree s) coinbase txs)) ∧
   totals_fit fin (supply s) coinbase txs ∧
   tree_size (tree s) + Z.of_nat (length (block_leaves fin coinbase txs)) ≤ 2 ^ 32 ∧
   ledger_sound (next_ledger fin (supply s) coinbase txs)).
Proof.
  intros [Ht [Hl Hs]] Hcb Htxs fin. unfold apply_chain_block, apply_chain_block_to.
  rewrite transition_spec by done. fold fin. simpl.
  pose proof (minted_bound coinbase Hcb). pose proof (block_fees_bound fin txs Htxs).
  repeat case_bool_decide; simpl; try (left; unfold fin; destruct s; eauto; fail).
  clearbody fin. right. split_and!; [done..|]. unfold totals_fit, ledger_sound, ledger_wf, in_u in *.
  simpl in *. lia.
Qed.

Lemma next_tree_wf `{NullifierSet T} (fin : T) t coinbase txs :
  tree_wf t → tree_size t + Z.of_nat (length (block_leaves fin coinbase txs)) ≤ 2 ^ 32 →
  append_leaves t (block_leaves fin coinbase txs) = (next_tree fin t coinbase txs, Ok tt) ∧
  tree_wf (next_tree fin t coinbase txs).
Proof.
  intros Ht Hle. pose proof (append_leaves_spec t (block_leaves fin coinbase txs) Ht) as Hs.
  rewrite bool_decide_eq_true_2 in Hs by done. unfold next_tree.
  destruct Hs as (t' & -> & ? & _). done.
Qed.

Lemma append_leaves_app t cs t' cs' :
  append_leaves t cs = (t', Ok tt) → append_leaves t (cs ++ cs') = append_leaves t' cs'.
Proof.
  revert t; induction cs as [|c cs IH]; intros t; simpl; [by intros [= ->]|].
  destruct (tree_append t c) as [t1 [[]|e|]]; [apply IH|done..].
Qed.

Lemma concat_snoc {A B} (f : A → list B) l x : concat (f <$> (l ++ [x])) = concat (f <$> l) ++ f x.
Proof. rewrite fmap_app, concat_app. simpl. by rewrite app_nil_r. Qed.

Lemma sumZ_snoc {A} (f : A → Z) l x : sumZ (f <$> (l ++ [x])) = sumZ (f <$> l) + f x.
Proof. rewrite fmap_app, sumZ_app. csimpl. rewrite sumZ_cons. unfold sumZ. simpl. lia. Qed.

(** What a history says of the state it reaches. *)
Record history_inv (h : list BlockRecord) (s : ShieldedState) : Prop := {
  inv_wf : state_wf s;
  inv_coinbase : cumulative_coinbase (supply s) = minted_total h;
  inv_fees : cumulative_fees (supply s) = fees_total h;
  inv_tree : append_leaves tree_new (history_leaves h) = (tree s, Ok tt);
  inv_nullifiers : mem_set (nullifiers s) = list_to_set (history_nullifiers h);
  inv_nodup : NoDup (history_nullifiers h);
}.

Lemma kept_nullifiers_fresh `{NullifierSet T} (fin : T) txs :
  NoDup (concat (tx_nullifiers <$> kept_txs fin txs)) ∧
  Forall (λ nf, ¬ spent fin nf) (concat (tx_nullifiers <$> kept_txs fin txs)).
Proof.
  rewrite <- new_nullifiers_spec.
  pose proof (resolve_batch_spec fin (tx_nullifiers <$> txs)) as Hs.
  destruct (resolve_batch (resolver_new fin) (tx_nullifiers <$> txs)) as [r keep].
  by destruct Hs as (_ & _ & ? & ?).
Qed.

Lemma chain_history_inv h s : chain h s → history_inv h s.
Proof.
  induction 1 as [|h s coinbase txs s' out Hc IH Hcb Htxs Happ|h s coinbase txs s' e Hc IH Hcb Htxs Happ].
  - split; try done; [by split; [apply tree_new_wf|apply ledger_new_sound]|constructor].
  - destruct IH as [[Ht Hs] HC HF HT HN HND].
    destruct (apply_chain_block_inv s coinbase txs (conj Ht Hs) Hcb Htxs)
      as [[e He]|(He & Hfit & Hle & Hs')]; [congruence|].
    rewrite He in Happ. injection Happ as <- <-.
    destruct (next_tree_wf (nullifiers s) (tree s) coinbase txs Ht Hle) as [Hnt Hntwf].
    destruct (kept_nullifiers_fresh (nullifiers s) txs) as [Hnd Hfresh].
    split; unfold minted_total, fees_total, history_leaves, history_nullifiers in *;
      simpl; rewrite ?concat_snoc, ?sumZ_snoc, ?accepted_txs_spec; simpl.
    + by split.
    + by rewrite HC.
    + by rewrite HF.
    + by rewrite (append_leaves_app _ _ _ _ HT).
    + rewrite HN. etrans; [apply mem_extend_set|]. by rewrite list_to_set_app_L.
    + apply NoDup_app. split_and!; [done| |done]. intros nf Hin Hin'.
      rewrite Forall_forall in Hfresh. apply (Hfresh nf Hin').
      unfold spent, contains, mem_contains. rewrite HN. apply bool_decide_eq_true_2. set_solver.
  - destruct IH as [Hwf HC HF HT HN HND].
    destruct (apply_chain_block_inv s coinbase txs Hwf Hcb Htxs) as [[e' He]|(He & _)];
      [|congruence].
    rewrite He in Happ. by injection Happ as <- _.
Qed.

(** The state transition, on every branch: over a well-formed tree and
    ledger, [apply_chain_block_to] rejects with [Overflow], [TreeFull] or
    [PoolUnderflow] exactly when, in that order, a total exceeds its width,
    the leaves exceed the tree's capacity, or the fees exceed the coinbase
    total, and then changes nothing; otherwise it advances the tree by the
    coinbase notes and the kept transactions' commitments in accepted order,
    the ledger by the minted value and the kept fees, and reports exactly the
    kept transactions and their nullifiers. It never panics. *)
Theorem apply_chain_block_to_functional `{NullifierSet T} (fin : T) t sup coinbase txs :
  tree_wf t → ledger_wf sup → coinbase_wf coinbase → txs_wf txs →
  let sup' := next_ledger fin sup coinbase txs in
  apply_chain_block_to fin t sup coinbase txs =
  if bool_decide (totals_fit fin sup coinbase txs) then
    if bool_decide (tree_size t + Z.of_nat (length (block_leaves fin coinbase txs)) ≤ 2 ^ 32) then
      if bool_decide (cumulative_fees sup' ≤ cumulative_coinbase sup') then
        (next_tree fin t coinbase txs, sup', Ok (block_outcome fin t coinbase txs))
      else (t, sup, Err (TurnstileError
              (PoolUnderflow (cumulative_coinbase sup') (cumulative_fees sup'))))
    else (t, sup, Err TreeFullErr)
  else (t, sup, Err (TurnstileError Overflow)).
Proof.
  intros. unfold apply_chain_block_to. rewrite transition_spec by done. simpl.
  by repeat case_bool_decide.
Qed.

(** C36. Supply conservation: in every state reachable from genesis through
    accepted and rejected blocks, the pool value is defined and equals
    exactly everything the coinbases minted minus the fees of the accepted
    transactions; it is never negative. *)
Theorem chain_supply_conserved h s :
  chain h s →
  pool_value (supply s) = Ok (minted_total h - fees_total h) ∧
  0 ≤ minted_total h - fees_total h.
Proof.
  intros [[_ [_ Hle]] HC HF _ _ _]%chain_history_inv.
  rewrite pool_value_Ok, <- HC, <- HF. lia.
Qed.

(** C39. No double spend over the whole history: the nullifiers of all
    transactions accepted since genesis are pairwise distinct, and the
    nullifier set of the state is exactly the set of them. *)
Theorem chain_no_double_spend h s :
  chain h s →
  NoDup (history_nullifiers h) ∧
  ∀ nf, contains (nullifiers s) nf = true ↔ nf ∈ history_nullifiers h.
Proof.
  intros [_ _ _ _ HN HND]%chain_history_inv. split; [done|]. intros nf.
  unfold contains, mem_contains. rewrite HN, bool_decide_eq_true. set_solver.
Qed.

(** The note-commitment tree is the linear history: the tree of a
    reachable state is the one obtained by appending, from the empty tree,
    every coinbase note and every accepted transaction's commitments in
    accepted order, so its size is their number and its anchor is determined
    by that sequence alone. *)
Theorem chain_tree_linear h s :
  chain h s →
  append_leaves tree_new (history_leaves h) = (tree s, Ok tt) ∧
  tree_size (tree s) = Z.of_nat (length (history_leaves h)) ∧
  state_anchor s = tree_anchor (append_leaves tree_new (history_leaves h)).1.
Proof.
  intros [_ _ _ HT _ _]%chain_history_inv. unfold state_anchor. rewrite HT.
  split_and!; [done| |done].
  pose proof (append_leaves_spec tree_new (history_leaves h) tree_new_wf) as Hs.
  rewrite HT in Hs. case_bool_decide; [|by destruct Hs as [[=] _]].
  destruct Hs as (? & [= <-] & _ & ->). simpl. lia.
Qed.

Lemma extract_commitments_Ok acts cs :
  extract_commitments acts = Ok cs ↔ Forall2 (λ a c, cmx_from_bytes (cmx a) = Some c) acts cs.
Proof.
  split.
  - revert cs; induction acts as [|a acts IH]; intros cs Hc; simpl in Hc;
      [injection Hc as <-; constructor|].
    res_inv. constructor; auto.
  - induction 1 as [|a c acts cs Ha Hacts IH]; simpl; [done|]. rewrite Ha. simpl. by rewrite IH.
Qed.

(** Extraction of the consensus effects of a bundle: it succeeds exactly
    when every commitment is canonical and the value balance is not negative,
    and then the fee is the value balance itself and the nullifiers and
    commitments are the actions' own, in order; a negative balance, which
    would mint from the pool, is refused. *)
Theorem from_bundle_sound (b : ShieldedBundle) (tx : ShieldedTx) :
  in_i 64 (value_balance b) →
  from_bundle b = Ok tx ↔
  0 ≤ value_balance b ∧ fee tx = value_balance b ∧ tx_anchor tx = bundle_anchor b ∧
  tx_nullifiers tx = bundle_nullifiers b ∧
  Forall2 (λ a c, cmx_from_bytes (cmx a) = Some c) (actions b) (tx_commitments tx).
Proof.
  unfold in_i. intros Hi. unfold from_bundle, bundle_nullifiers.
  rewrite bind_Ok. setoid_rewrite extract_commitments_Ok.
  split.
  - intros (cs & Hcs & Htx). destruct (Z.ltb_spec (value_balance b) 0); [done|].
    injection Htx as <-. simpl. rewrite Z.mod_small by lia. done.
  - destruct tx as [nfs cs f a]; simpl. intros (Hnn & -> & -> & -> & Hcs). exists cs.
    split; [done|]. rewrite (proj2 (Z.ltb_ge _ _)) by done. rewrite Z.mod_small by lia. done.
Qed.
End History.

(** ** A sample history over the list tree *)

Module Sample.
Existing Instance list_tree.
Existing Instance list_tree_laws.

Definition mint10 : option CoinbaseMint := Some (mkMint [mkCoinbaseNote 10 7]).
Definition spend1 : ShieldedTx := mkShieldedTx [[1]] [8] 3 [].

Definition outcome_of (r : ShieldedState * res ShieldedStateError BlockShieldedOutcome)
    : BlockShieldedOutcome :=
  match r.2 with Ok o => o | _ => mkOutcome [] [] subtree_new (tree_anchor tree_new) end.

(** A block that mints 10, then one whose second transaction double-spends. *)
Definition step1 := apply_chain_block state_new mint10 [].
Definition step2 := apply_chain_block step1.1 None [spend1; spend1].
Definition history : list BlockRecord :=
  [mkBlock mint10 [] (outcome_of step1); mkBlock None [spend1; spend1] (outcome_of step2)].

Lemma sample_wf : coinbase_wf mint10 ∧ txs_wf [spend1; spend1] ∧ txs_wf [] ∧ coinbase_wf None.
Proof. unfold txs_wf, in_u. simpl. repeat (constructor; simpl; try lia). Qed.

Lemma sample_chain : chain history step2.1.
Proof.
  destruct sample_wf as (? & ? & ? & ?).
  apply (chain_accept [mkBlock mint10 [] (outcome_of step1)] step1.1); [|done|done|reflexivity].
  apply (chain_accept [] state_new); [constructor|done|done|reflexivity].
Qed.
End Sample.

Lemma apply_chain_block_to_functional_witness :
  (@apply_chain_block_to list_tree _ _ mem_new tree_new ledger_new Sample.mint10 [Sample.spend1]).2 =
  Ok (@block_outcome list_tree _ _ mem_new tree_new Sample.mint10 [Sample.spend1]).
Proof.
  rewrite (@apply_chain_block_to_functional list_tree list_tree_laws _ _
    mem_new tree_new ledger_new Sample.mint10 [Sample.spend1]);
    [reflexivity|exact (@tree_new_wf list_tree list_tree_laws)|by apply ledger_new_sound|apply Sample.sample_wf|].
  split; [repeat constructor; simpl; lia|simpl; lia].
Defined.

Lemma chain_supply_conserved_witness :
  pool_value (supply Sample.step2.1) = Ok (10 - 3) ∧ 0 ≤ 10 - 3.
Proof. exact (@chain_supply_conserved list_tree list_tree_laws Sample.history _ Sample.sample_chain). Defined.

Lemma chain_no_double_spend_witness :
  NoDup (@history_nullifiers list_tree Sample.history) ∧
  ∀ nf, contains (nullifiers Sample.step2.1) nf = true ↔
        nf ∈ @history_nullifiers list_tree Sample.history.
Proof. exact (@chain_no_double_spend list_tree list_tree_laws Sample.history _ Sample.sample_chain). Defined.

Lemma chain_tree_linear_witness :
  @append_leaves list_tree tree_new [7; 8] = (tree Sample.step2.1, Ok tt) ∧
  tree_size (tree Sample.step2.1) = 2 ∧
  state_anchor Sample.step2.1 = tree_anchor (@append_leaves list_tree tree_new [7; 8]).1.
Proof. exact (@chain_tree_linear list_tree list_tree_laws Sample.history _ Sample.sample_chain). Defined.

Lemma from_bundle_sound_witness :
  let b := mkBundle [] 0 5 (replicate 32 0) [] (replicate 64 0) in
  @from_bundle list_tree b = Ok (mkShieldedTx [] [] 5 (replicate 32 0)).
Proof.
  intros b. apply (@from_bundle_sound list_tree b).
  - unfold in_i. simpl. lia.
  - simpl. split_and!; [lia|done|done|done|constructor].
Defined.
