(* ===== verification/ShieldedManager.v ===== *)
(** * The persistent shielded state (consensus/src/processes/shielded.rs and
    consensus/src/model/stores/shielded.rs)

    The database stores of the shielded pool, the manager that computes a chain
    block's transition from its selected parent's snapshots and persists it,
    the nullifier-set maintenance of reorgs, and the transfer of the state at a
    pruning point.  A store is a finite map; a write batch is the sequence of
    its writes, visible to later reads. *)

From S2P Require Import Prelude Bytes Limbs Uint U3072 MuHash.
From S2P Require Import Turnstile Nullifier NoteTree Bundle ShieldedState.

Abbreviation Hash := bytes.

Record SupplyTotals := mkTotals { tot_coinbase : Z; tot_fees : Z }.

Record ShieldedScanTx := mkScanTx { scan_txid : Hash; scan_action_bytes : bytes }.

Record ShieldedScanBlockData := mkScan {
  scan_blue_score : Z;
  scan_daa_score : Z;
  scan_timestamp : Z;
  scan_coinbase_txid : Hash;
  scan_coinbase_outputs : list (bytes * Z);
  scan_accepted : list ShieldedScanTx;
}.

(** ** The stores *)

(** One field per store of [ShieldedStateManager], keyed as on disk. *)
Record Stores := mkStores {
  st_nullifiers : gset NullifierBytes;
  st_diffs : gmap Hash (list NullifierBytes);
  st_tree : gmap Hash FrontierState;
  st_supply : gmap Hash SupplyTotals;
  st_muhash : gmap Hash (list Z);
  st_anchors : gmap bytes Hash;
  st_scan : gmap Hash ShieldedScanBlockData;
}.

Definition stores_new : Stores := mkStores ∅ ∅ ∅ ∅ ∅ ∅ ∅.

Definition nullifier_contains (st : Stores) (nf : NullifierBytes) : bool :=
  bool_decide (nf ∈ st_nullifiers st).

Definition nullifier_insert (st : Stores) (nf : NullifierBytes) : Stores :=
  mkStores ({[nf]} ∪ st_nullifiers st) (st_diffs st) (st_tree st) (st_supply st) (st_muhash st)
    (st_anchors st) (st_scan st).

Definition nullifier_delete (st : Stores) (nf : NullifierBytes) : Stores :=
  mkStores (st_nullifiers st ∖ {[nf]}) (st_diffs st) (st_tree st) (st_supply st) (st_muhash st)
    (st_anchors st) (st_scan st).

Definition diff_get (st : Stores) (block : Hash) : list NullifierBytes :=
  default [] (st_diffs st !! block).

Definition diff_set (st : Stores) (block : Hash) (nfs : list NullifierBytes) : Stores :=
  mkStores (st_nullifiers st) (<[block := nfs]> (st_diffs st)) (st_tree st) (st_supply st)
    (st_muhash st) (st_anchors st) (st_scan st).

Definition tree_get (st : Stores) (block : Hash) : FrontierState :=
  default frontier_state_default (st_tree st !! block).

Definition tree_set (st : Stores) (block : Hash) (s : FrontierState) : Stores :=
  mkStores (st_nullifiers st) (st_diffs st) (<[block := s]> (st_tree st)) (st_supply st)
    (st_muhash st) (st_anchors st) (st_scan st).

Definition supply_get (st : Stores) (block : Hash) : SupplyTotals :=
  default (mkTotals 0 0) (st_supply st !! block).

Definition supply_set (st : Stores) (block : Hash) (t : SupplyTotals) : Stores :=
  mkStores (st_nullifiers st) (st_diffs st) (st_tree st) (<[block := t]> (st_supply st))
    (st_muhash st) (st_anchors st) (st_scan st).

Definition muhash_get (st : Stores) (block : Hash) : MuHash :=
  match st_muhash st !! block with
  | Some u => muhash_from_uint u
  | None => muhash_new
  end.

(** [muhash.try_into().expect("nullifier muhash is add-only, so finalizes")]. *)
Definition muhash_set {E} (st : Stores) (block : Hash) (m : MuHash) : res E Stores :=
  match muhash_try_into m with
  | Ok u => Ok (mkStores (st_nullifiers st) (st_diffs st) (st_tree st) (st_supply st)
                  (<[block := u]> (st_muhash st)) (st_anchors st) (st_scan st))
  | _ => Panic
  end.

Definition anchor_get (st : Stores) (anchor : bytes) : option Hash := st_anchors st !! anchor.

Definition anchor_set (st : Stores) (anchor : bytes) (block : Hash) : Stores :=
  mkStores (st_nullifiers st) (st_diffs st) (st_tree st) (st_supply st) (st_muhash st)
    (<[anchor := block]> (st_anchors st)) (st_scan st).

Definition scan_get (st : Stores) (block : Hash) : option ShieldedScanBlockData := st_scan st !! block.

Definition scan_set (st : Stores) (block : Hash) (d : ShieldedScanBlockData) : Stores :=
  mkStores (st_nullifiers st) (st_diffs st) (st_tree st) (st_supply st) (st_muhash st)
    (st_anchors st) (<[block := d]> (st_scan st)).

(** ** The manager *)

(** The persisted set plus the nullifiers accepted earlier in the run. *)
Record LayeredNullifierSet := mkLayered { layer_store : Stores; layer_pending : MemNullifierSet }.

#[global] Instance layered_contains : NullifierSet LayeredNullifierSet :=
  λ s nf, contains (layer_pending s) nf || nullifier_contains (layer_store s) nf.

(** Empty-set MuHash constant [kaspa_muhash::EMPTY_MUHASH]. *)
Definition EMPTY_MUHASH : bytes :=
  [0x54; 0x4e; 0xb3; 0x14; 0x2c; 0x0; 0xf; 0xa; 0xd2; 0xc7; 0x6a; 0xc4; 0x1f; 0x42; 0x22; 0xab;
   0xba; 0xba; 0xbe; 0xd8; 0x30; 0xee; 0xaf; 0xee; 0x4b; 0x6d; 0xc5; 0x6b; 0x52; 0xd5; 0xca; 0xc0].

(** The [Store] variant, a database failure, is not modelled. *)
Inductive ShieldedManagerError :=
| StateError (e : ShieldedStateError)
| MalformedCoinbaseNote.

Definition no_err {E A} (m : res Empty_set A) : res E A := map_err (Empty_set_rect (λ _, E)) m.

Section Manager.
Context `{OrchardTree, Blake2b, MuHashOracles, ModInverse}.

Record ComputedBlockShielded := mkComputed {
  frontier_state : FrontierState;
  supply_totals : SupplyTotals;
  nullifier_muhash : MuHash;
  outcome : BlockShieldedOutcome;
  scan_block : option ShieldedScanBlockData;
}.

(** [finalize] on a clone: only the hash is kept. *)
Definition muhash_root {E} (m : MuHash) : res E bytes := no_err (snd <$> muhash_finalize m).

Definition computed_anchor (c : ComputedBlockShielded) : bytes :=
  anchor_to_bytes (outcome_anchor (outcome c)).

Definition computed_nullifier_root {E} (c : ComputedBlockShielded) : res E bytes :=
  muhash_root (nullifier_muhash c).

Definition computed_state_root {E} (c : ComputedBlockShielded) : res E bytes :=
  nr ← computed_nullifier_root c;
  Ok (shielded_state_root (computed_anchor c) nr (tot_coinbase (supply_totals c))
        (tot_fees (supply_totals c))).

Definition load_tree {E} (st : Stores) (block : Hash) : res E GlobalTree :=
  match from_state (tree_get st block) with Ok t => Ok t | _ => Panic end.

Definition load_supply (st : Stores) (block : Hash) : SupplyLedger :=
  let t := supply_get st block in from_totals (tot_coinbase t) (tot_fees t).

Definition anchor_at {E} (st : Stores) (block : Hash) : res E bytes :=
  t ← load_tree st block; Ok (anchor_to_bytes (tree_anchor t)).

Definition state_root_at {E} (st : Stores) (block : Hash) : res E bytes :=
  anchor ← anchor_at st block;
  nullifier_root ← muhash_root (muhash_get st block);
  let t := supply_get st block in
  Ok (shielded_state_root anchor nullifier_root (tot_coinbase t) (tot_fees t)).

(** The [map] of [partition_applied]: the resolver is only consulted, and only
    advanced, past the anchor test. *)
Fixpoint partition_loop (anchor_final : ShieldedTx → bool)
    (r : NullifierConflictResolver LayeredNullifierSet) (txs : list ShieldedTx) : list bool :=
  match txs with
  | [] => []
  | stx :: txs =>
      if bool_decide (tx_nullifiers stx = []) || anchor_final stx then
        let '(r', o) := try_accept r (tx_nullifiers stx) in
        is_ok o :: partition_loop anchor_final r' txs
      else false :: partition_loop anchor_final r txs
  end.

Definition partition_applied (st : Stores) (txs : list ShieldedTx) (anchor_final : ShieldedTx → bool)
    : list bool :=
  partition_loop anchor_final (resolver_new (mkLayered st mem_new)) txs.

Fixpoint add_elements (m : MuHash) (nfs : list NullifierBytes) : res Empty_set MuHash :=
  match nfs with
  | [] => Ok m
  | nf :: nfs => m' ← add_element m nf; add_elements m' nfs
  end.

Definition compute (st : Stores) (selected_parent : Hash) (coinbase : option CoinbaseMint)
    (txs : list ShieldedTx) : res ShieldedManagerError ComputedBlockShielded :=
  tree ← load_tree st selected_parent;
  let supply := load_supply st selected_parent in
  let '(tree, supply, o) :=
    apply_chain_block_to (mkLayered st mem_new) tree supply coinbase txs in
  out ← map_err StateError o;
  m ← no_err (add_elements (muhash_get st selected_parent) (new_nullifiers out));
  Ok (mkComputed (to_state tree)
        (mkTotals (cumulative_coinbase supply) (cumulative_fees supply)) m out None).

Definition insert_all (st : Stores) (nfs : list NullifierBytes) : Stores :=
  foldl nullifier_insert st nfs.
Definition delete_all (st : Stores) (nfs : list NullifierBytes) : Stores :=
  foldl nullifier_delete st nfs.

(** The five conditional writes of [persist], in its order. *)
Definition persist_tree (st : Stores) (block : Hash) (c : ComputedBlockShielded) : Stores :=
  if 0 <? fs_size (frontier_state c) then
    anchor_set (tree_set st block (frontier_state c)) (computed_anchor c) block
  else st.

Definition persist_supply (st : Stores) (block : Hash) (t : SupplyTotals) : Stores :=
  if (0 <? tot_coinbase t) || (0 <? tot_fees t) then supply_set st block t else st.

Definition persist_nullifiers (st : Stores) (block : Hash) (nfs : list NullifierBytes) : Stores :=
  if bool_decide (nfs = []) then st else insert_all (diff_set st block nfs) nfs.

Definition persist_muhash {E} (st : Stores) (block : Hash) (m : MuHash) : res E Stores :=
  root ← muhash_root m;
  if bool_decide (root = EMPTY_MUHASH) then Ok st else muhash_set st block m.

Definition persist_scan (st : Stores) (block : Hash) (scan : option ShieldedScanBlockData) : Stores :=
  match scan with
  | Some scan =>
      if negb (bool_decide (scan_coinbase_outputs scan = [])) ||
         negb (bool_decide (scan_accepted scan = []))
      then scan_set st block scan else st
  | None => st
  end.

Definition persist (st : Stores) (block : Hash) (c : ComputedBlockShielded)
    : res ShieldedManagerError Stores :=
  let st := persist_tree st block c in
  let st := persist_supply st block (supply_totals c) in
  let st := persist_nullifiers st block (new_nullifiers (outcome c)) in
  st ← persist_muhash st block (nullifier_muhash c);
  Ok (persist_scan st block (scan_block c)).

Definition apply_nullifiers_from_store (st : Stores) (block : Hash) : Stores :=
  insert_all st (diff_get st block).

Definition revert_nullifiers_from_store (st : Stores) (block : Hash) : Stores :=
  delete_all st (diff_get st block).

(** ** Pruning-point transfer *)

Record PruningPointShieldedMetadata := mkPPMeta {
  md_frontier : FrontierState;
  md_supply : SupplyTotals;
  md_muhash : MuHash;
  md_state_root : bytes;
}.

(** The error strings of verification and of the virtual processor's import. *)
Inductive PPError :=
| AccumulatorMismatch (count : nat)
| RootMismatch
| MalformedMetadata
| CountMismatch (declared : Z) (streamed : nat).

(** [GlobalTree::from_state(frontier).expect("frontier corrupt")]. *)
Definition recompute_state_root {E} (f : FrontierState) (s : SupplyTotals) (m : MuHash) : res E bytes :=
  t ← match from_state f with Ok t => Ok t | _ => Panic end;
  nullifier_root ← muhash_root m;
  Ok (shielded_state_root (anchor_to_bytes (tree_anchor t)) nullifier_root
        (tot_coinbase s) (tot_fees s)).

Definition export_pruning_point_shielded {E} (st : Stores) (block : Hash)
    : res E (option PruningPointShieldedMetadata) :=
  let frontier := tree_get st block in
  if fs_size frontier =? 0 then Ok None
  else
    let supply := supply_get st block in
    let m := muhash_get st block in
    root ← recompute_state_root frontier supply m;
    Ok (Some (mkPPMeta frontier supply m root)).

Definition verify_pruning_point_shielded (md : PruningPointShieldedMetadata)
    (nfs : list NullifierBytes) : res PPError nat :=
  acc ← no_err (add_elements muhash_new nfs);
  let count := length nfs in
  root ← muhash_root acc;
  md_root ← muhash_root (md_muhash md);
  if negb (bool_decide (root = md_root)) then Err (AccumulatorMismatch count)
  else
    recomputed ← recompute_state_root (md_frontier md) (md_supply md) (md_muhash md);
    if negb (bool_decide (recomputed = md_state_root md)) then Err RootMismatch
    else Ok count.

Definition seed_pruning_point_shielded (st : Stores) (block : Hash)
    (md : PruningPointShieldedMetadata) (nfs : list NullifierBytes) : res PPError Stores :=
  let st := tree_set st block (md_frontier md) in
  t ← match from_state (md_frontier md) with Ok t => Ok t | _ => Panic end;
  let st := anchor_set st (anchor_to_bytes (tree_anchor t)) block in
  let st := persist_supply st block (md_supply md) in
  st ← persist_muhash st block (md_muhash md);
  Ok (insert_all st nfs).
End Manager.

(** ** Snapshots *)

(** The constant is the hash of the empty accumulator. *)
Class EmptyMuHashLaw `(MuHashOracles) :=
  empty_muhash : finalize_hash (le_bytes ELEMENT_BYTE_SIZE 1) = EMPTY_MUHASH.

(** The conflict-resolution view [compute] opens on the stores. *)
Abbreviation layer st := (mkLayered st mem_new).

Section ManagerLemmas.
Context `{HT : OrchardTreeLaws, HB : Blake2b, HO : MuHashOraclesLaws, HI : ModInverseLaws}.
Context `{HE : !EmptyMuHashLaw _}.

(** The product of a list of nullifiers in the field of the accumulator. *)
Definition elem_prod (nfs : list NullifierBytes) : Z := added (MuAdd <$> nfs).

Lemma elem_prod_app l k : elem_prod (l ++ k) = elem_prod l * elem_prod k.
Proof.
  unfold elem_prod. induction l as [|x l IH]; [simpl; lia|].
  rewrite <- app_comm_cons, !fmap_cons, added_cons, (added_cons _ (MuAdd <$> l)), IH. lia.
Qed.

Lemma elem_prod_perm l k : l ≡ₚ k → elem_prod l = elem_prod k.
Proof. intros Hp. apply added_removed_perm. by rewrite Hp. Qed.

Lemma add_elements_run m nfs : add_elements m nfs = mu_run m (MuAdd <$> nfs).
Proof.
  revert m; induction nfs as [|nf nfs IH]; intros m; [done|]. cbn.
  destruct (add_element m nf); cbn; [apply IH|done..].
Qed.

(** An accumulator that stands for the product [p]. *)
Definition mu_snap (m : MuHash) (p : Z) : Prop :=
  muhash_wf m ∧ denominator m = u3072_one ∧ uval (numerator m) mod P3072 = p mod P3072.

Lemma mu_snap_new : mu_snap muhash_new 1.
Proof. split; [apply muhash_new_wf|]. split; [done|]. simpl. by rewrite (proj2 u3072_one_spec). Qed.

Lemma add_elements_spec m p nfs :
  mu_snap m p → ∃ m', add_elements m nfs = Ok m' ∧ mu_snap m' (p * elem_prod nfs).
Proof.
  intros (Hwf & Hd & Hn). rewrite add_elements_run.
  destruct (mu_run_spec m (MuAdd <$> nfs) Hwf) as (m' & -> & Hwf' & Hn' & _ & Hd').
  exists m'. split; [done|]. split; [done|]. split.
  - rewrite Hd'; [done|]. apply Forall_fmap, Forall_true. intros nf. by exists nf.
  - rewrite Hn'. by apply mod_mul_congr.
Qed.

Lemma mu_root_congr a b : a mod P3072 = b mod P3072 → mu_root a = mu_root b.
Proof. unfold mu_root. by intros ->. Qed.

Lemma muhash_root_spec {E} m p : mu_snap m p → @muhash_root _ _ E m = Ok (mu_root p).
Proof.
  intros (Hwf & Hd & Hn). unfold muhash_root.
  destruct (muhash_finalize_add_only m Hwf Hd) as [m' ->]. simpl. f_equal. by apply mu_root_congr.
Qed.

Lemma mu_root_one : mu_root 1 = EMPTY_MUHASH.
Proof.
  unfold mu_root. rewrite Z.mod_small by (pose proof P3072_large; lia). apply empty_muhash.
Qed.

(** What a block's stored snapshots say: its tree, ledger and accumulator. *)
Record snap (st : Stores) (b : Hash) (t : GlobalTree) (sup : SupplyLedger) (p : Z) : Prop := {
  snap_tree : tree_get st b = to_state t;
  snap_tree_wf : tree_wf t;
  snap_supply : load_supply st b = sup;
  snap_sound : ledger_sound sup;
  snap_mu : mu_snap (muhash_get st b) p;
}.

Lemma snap_load_tree {E} st b t sup p : snap st b t sup p → @load_tree _ E st b = Ok t.
Proof. intros [Ht Hwf _ _ _]. unfold load_tree. by rewrite Ht, from_state_to_state. Qed.

(** The root a snapshot commits to. *)
Definition root_of (t : GlobalTree) (sup : SupplyLedger) (p : Z) : bytes :=
  shielded_state_root (anchor_to_bytes (tree_anchor t)) (mu_root p)
    (cumulative_coinbase sup) (cumulative_fees sup).

Lemma snap_state_root {E} st b t sup p :
  snap st b t sup p → @state_root_at _ _ _ _ E st b = Ok (root_of t sup p).
Proof.
  intros Hs. unfold state_root_at, anchor_at. rewrite (snap_load_tree _ _ _ _ _ Hs). simpl.
  rewrite (muhash_root_spec _ p) by apply Hs. simpl. unfold root_of.
  rewrite <- (snap_supply _ _ _ _ _ Hs). done.
Qed.

Lemma to_state_empty : to_state tree_new = frontier_state_default.
Proof. apply to_state_zero; [apply tree_new_wf|done]. Qed.

(** A block the stores know nothing of has the empty snapshot. *)
Definition fresh (st : Stores) (b : Hash) : Prop :=
  st_tree st !! b = None ∧ st_supply st !! b = None ∧ st_muhash st !! b = None ∧
  st_diffs st !! b = None.

Lemma fresh_snap st b : fresh st b → snap st b tree_new ledger_new 1.
Proof.
  intros (Ht & Hs & Hm & _). split.
  - unfold tree_get. rewrite Ht. simpl. by rewrite to_state_empty.
  - apply tree_new_wf.
  - unfold load_supply, supply_get. by rewrite Hs.
  - apply ledger_new_sound.
  - unfold muhash_get. rewrite Hm. apply mu_snap_new.
Qed.

(** ** [compute] *)


Definition computed_of (st : Stores) (t : GlobalTree) (sup : SupplyLedger) (m : MuHash)
    (coinbase : option CoinbaseMint) (txs : list ShieldedTx) : ComputedBlockShielded :=
  let sup' := next_ledger (layer st) sup coinbase txs in
  mkComputed (to_state (next_tree (layer st) t coinbase txs))
    (mkTotals (cumulative_coinbase sup') (cumulative_fees sup')) m
    (block_outcome (layer st) t coinbase txs) None.

Lemma compute_spec st sp t sup p coinbase txs :
  snap st sp t sup p → coinbase_wf coinbase → txs_wf txs →
  let sup' := next_ledger (layer st) sup coinbase txs in
  let leaves := block_leaves (layer st) coinbase txs in
  if bool_decide (totals_fit (layer st) sup coinbase txs) then
    if bool_decide (tree_size t + Z.of_nat (length leaves) ≤ 2 ^ 32) then
      if bool_decide (cumulative_fees sup' ≤ cumulative_coinbase sup') then
        ∃ m, compute st sp coinbase txs = Ok (computed_of st t sup m coinbase txs) ∧
             mu_snap m (p * elem_prod (concat (tx_nullifiers <$> kept_txs (layer st) txs)))
      else compute st sp coinbase txs = Err (StateError (TurnstileError
             (PoolUnderflow (cumulative_coinbase sup') (cumulative_fees sup'))))
    else compute st sp coinbase txs = Err (StateError TreeFullErr)
  else compute st sp coinbase txs = Err (StateError (TurnstileError Overflow)).
Proof.
  intros Hs Hcb Htxs sup' leaves. unfold compute.
  rewrite (snap_load_tree _ _ _ _ _ Hs), (snap_supply _ _ _ _ _ Hs). cbn [mbind res_mbind].
  unfold apply_chain_block_to. rewrite transition_spec by (done || apply Hs).
  fold sup' leaves. cbn zeta. repeat case_bool_decide; cbn [map_err mbind res_mbind]; try done.
  destruct (add_elements_spec _ _ (concat (tx_nullifiers <$> kept_txs (layer st) txs))
    (snap_mu _ _ _ _ _ Hs)) as (m & Hm & Hsnap).
  simpl new_nullifiers. rewrite Hm. eexists. split; done.
Qed.

(** ** [persist] *)

(** [insert_all] and [delete_all] touch the nullifier set only. *)
Lemma insert_all_spec st nfs :
  insert_all st nfs = mkStores (st_nullifiers st ∪ list_to_set nfs) (st_diffs st) (st_tree st)
    (st_supply st) (st_muhash st) (st_anchors st) (st_scan st).
Proof.
  unfold insert_all. revert st; induction nfs as [|nf nfs IH]; intros st; simpl.
  - destruct st; simpl. f_equal. set_solver.
  - rewrite IH. unfold nullifier_insert; simpl. f_equal. set_solver.
Qed.

Lemma delete_all_spec st nfs :
  delete_all st nfs = mkStores (st_nullifiers st ∖ list_to_set nfs) (st_diffs st) (st_tree st)
    (st_supply st) (st_muhash st) (st_anchors st) (st_scan st).
Proof.
  unfold delete_all. revert st; induction nfs as [|nf nfs IH]; intros st; simpl.
  - destruct st; simpl. f_equal. set_solver.
  - rewrite IH. unfold nullifier_delete; simpl. f_equal. set_solver.
Qed.

Lemma persist_supply_spec st b t :
  persist_supply st b t = mkStores (st_nullifiers st) (st_diffs st) (st_tree st)
    (if (0 <? tot_coinbase t) || (0 <? tot_fees t) then <[b := t]> (st_supply st) else st_supply st)
    (st_muhash st) (st_anchors st) (st_scan st).
Proof. unfold persist_supply. destruct (_ || _); [done|by destruct st]. Qed.

Lemma persist_muhash_spec {E} st b m p :
  mu_snap m p →
  @persist_muhash _ _ E st b m = Ok (mkStores (st_nullifiers st) (st_diffs st) (st_tree st) (st_supply st)
    (if bool_decide (mu_root p = EMPTY_MUHASH) then st_muhash st else <[b := numerator m]> (st_muhash st))
    (st_anchors st) (st_scan st)).
Proof.
  intros Hm. unfold persist_muhash. rewrite (muhash_root_spec _ p Hm). cbn [mbind res_mbind].
  unfold muhash_set, muhash_try_into. rewrite (bool_decide_eq_true_2 (denominator _ = _)) by apply Hm.
  case_bool_decide; [by destruct st|done].
Qed.

Lemma persist_tree_spec st b c :
  persist_tree st b c = mkStores (st_nullifiers st) (st_diffs st)
    (if 0 <? fs_size (frontier_state c) then <[b := frontier_state c]> (st_tree st) else st_tree st)
    (st_supply st) (st_muhash st)
    (if 0 <? fs_size (frontier_state c) then <[computed_anchor c := b]> (st_anchors st) else st_anchors st)
    (st_scan st).
Proof. unfold persist_tree. destruct (0 <? _); [done|by destruct st]. Qed.

Lemma persist_nullifiers_spec st b nfs :
  persist_nullifiers st b nfs = mkStores (st_nullifiers st ∪ list_to_set nfs)
    (if bool_decide (nfs = []) then st_diffs st else <[b := nfs]> (st_diffs st))
    (st_tree st) (st_supply st) (st_muhash st) (st_anchors st) (st_scan st).
Proof.
  unfold persist_nullifiers. case_bool_decide as Hnil; [|by rewrite insert_all_spec].
  subst nfs. destruct st; simpl. f_equal. set_solver.
Qed.

Lemma persist_scan_fields st b d :
  let st' := persist_scan st b d in
  st_nullifiers st' = st_nullifiers st ∧ st_diffs st' = st_diffs st ∧ st_tree st' = st_tree st ∧
  st_supply st' = st_supply st ∧ st_muhash st' = st_muhash st ∧ st_anchors st' = st_anchors st.
Proof. unfold persist_scan. destruct d as [scan|]; [destruct (_ || _)|]; done. Qed.

Lemma persist_fields st b c p :
  mu_snap (nullifier_muhash c) p →
  let nfs := new_nullifiers (outcome c) in
  ∃ st', persist st b c = Ok st' ∧
    st_nullifiers st' = st_nullifiers st ∪ list_to_set nfs ∧
    st_diffs st' = (if bool_decide (nfs = []) then st_diffs st else <[b := nfs]> (st_diffs st)) ∧
    st_tree st' = (if 0 <? fs_size (frontier_state c) then <[b := frontier_state c]> (st_tree st)
                   else st_tree st) ∧
    st_supply st' =
      (if (0 <? tot_coinbase (supply_totals c)) || (0 <? tot_fees (supply_totals c))
       then <[b := supply_totals c]> (st_supply st) else st_supply st) ∧
    st_muhash st' = (if bool_decide (mu_root p = EMPTY_MUHASH) then st_muhash st
                     else <[b := numerator (nullifier_muhash c)]> (st_muhash st)) ∧
    st_anchors st' = (if 0 <? fs_size (frontier_state c) then <[computed_anchor c := b]> (st_anchors st)
                      else st_anchors st).
Proof.
  intros Hm nfs. unfold persist. rewrite persist_tree_spec.
  rewrite persist_supply_spec. cbn [st_nullifiers st_diffs st_tree st_supply st_muhash st_anchors st_scan].
  rewrite persist_nullifiers_spec. cbn [st_nullifiers st_diffs st_tree st_supply st_muhash st_anchors st_scan].
  rewrite (persist_muhash_spec _ _ _ p Hm).
  cbn [mbind res_mbind st_nullifiers st_diffs st_tree st_supply st_muhash st_anchors st_scan].
  eexists. split; [done|].
  match goal with |- context [persist_scan ?s b ?d] =>
    destruct (persist_scan_fields s b d) as (-> & -> & -> & -> & -> & ->) end.
  split_and!; reflexivity.
Qed.

(** A product other than one whose hash is the empty-set constant. *)
Definition taken_for_empty (v : Z) : Prop := v mod P3072 ≠ 1 ∧ mu_root v = EMPTY_MUHASH.

(** The conditional writes, read back under a fresh key. *)
Lemma supply_written (st : Stores) (b : Hash) (t : SupplyTotals) (sup : SupplyLedger)
    (M : gmap Hash SupplyTotals) :
  st_supply st = (if (0 <? tot_coinbase t) || (0 <? tot_fees t) then <[b := t]> M else M) →
  M !! b = None → t = mkTotals (cumulative_coinbase sup) (cumulative_fees sup) → ledger_sound sup →
  load_supply st b = sup.
Proof.
  intros Hsu Fs -> Hs. unfold load_supply, supply_get. rewrite Hsu. simpl.
  destruct Hs as [[? ?] ?]. unfold in_u in *. destruct sup as [cb fe]; simpl in *.
  destruct (Z.ltb_spec 0 cb), (Z.ltb_spec 0 fe); simpl; rewrite ?lookup_insert_eq, ?Fs; simpl; try done.
  unfold from_totals. f_equal; lia.
Qed.

Lemma muhash_written (st : Stores) (b : Hash) (m : MuHash) (p : Z) (M : gmap Hash (list Z)) :
  st_muhash st = (if bool_decide (mu_root p = EMPTY_MUHASH) then M else <[b := numerator m]> M) →
  M !! b = None → mu_snap m p →
  ∃ p', mu_snap (muhash_get st b) p' ∧ mu_root p' = mu_root p ∧
        (taken_for_empty p ∨ p' mod P3072 = p mod P3072).
Proof.
  intros Hmu Fm Hm. unfold muhash_get. rewrite Hmu. case_bool_decide as He.
  - rewrite Fm. exists 1. rewrite mu_root_one. split; [apply mu_snap_new|]. split; [done|].
    destruct (decide (p mod P3072 = 1)) as [Hp|]; [right|by left].
    rewrite Hp. apply Z.mod_small. pose proof P3072_large. lia.
  - rewrite lookup_insert_eq. exists p. split; [|by auto]. destruct Hm as ([Hn Hd] & Hden & Hv).
    split; [split; [done|]; apply u3072_one_spec|done].
Qed.

(** Persisting under a fresh key stores exactly the computed snapshot. *)
Lemma persist_snap st b c t sup p :
  fresh st b → mu_snap (nullifier_muhash c) p → frontier_state c = to_state t → tree_wf t →
  supply_totals c = mkTotals (cumulative_coinbase sup) (cumulative_fees sup) → ledger_sound sup →
  ∃ st' p', persist st b c = Ok st' ∧ snap st' b t sup p' ∧ mu_root p' = mu_root p ∧
    (taken_for_empty p ∨ p' mod P3072 = p mod P3072) ∧
    diff_get st' b = new_nullifiers (outcome c).
Proof.
  intros (Ft & Fs & Fm & Fd) Hm Hfs Ht Hsup Hs.
  destruct (persist_fields st b c p Hm) as (st' & -> & _ & Hdi & Htr & Hsu & Hmu & _).
  assert (tree_get st' b = to_state t) as Hgt.
  { unfold tree_get. rewrite Htr, Hfs. destruct (Z.ltb_spec 0 (fs_size (to_state t))).
    - by rewrite lookup_insert_eq.
    - rewrite Ft. simpl. symmetry. apply to_state_zero; [done|].
      rewrite to_state_size in * by done. pose proof (frontier_leaves_range (frontier t)).
      unfold tree_wf in Ht. lia. }
  pose proof (supply_written _ _ _ _ _ Hsu Fs Hsup Hs) as Hgs.
  destruct (muhash_written _ _ _ _ _ Hmu Fm Hm) as (p' & Hgm & Hroot & Hcol).
  exists st', p'. split_and!; [done|by split|done|done|].
  unfold diff_get. rewrite Hdi. clear Hmu Hgm. case_bool_decide as He.
  - by rewrite Fd, He.
  - by rewrite lookup_insert_eq.
Qed.

(** Persisting a block leaves every other block's entries alone. *)
Lemma persist_frame st b c p st' b' :
  mu_snap (nullifier_muhash c) p → persist st b c = Ok st' → b' ≠ b →
  tree_get st' b' = tree_get st b' ∧ supply_get st' b' = supply_get st b' ∧
  muhash_get st' b' = muhash_get st b' ∧ diff_get st' b' = diff_get st b' ∧
  (fresh st b' → fresh st' b').
Proof.
  intros Hm Hp Hne. destruct (persist_fields st b c p Hm) as (st1 & Hp1 & _ & Hd & Ht & Hs & Hmu & _).
  assert (st1 = st') as -> by congruence. clear Hp Hp1.
  unfold tree_get, supply_get, muhash_get, diff_get, fresh. rewrite Hd, Ht, Hs, Hmu.
  repeat match goal with |- context [if ?x then _ else _] => destruct x end;
    rewrite ?lookup_insert_ne by done; done.
Qed.

(** ** Conflict resolution only depends on membership *)

Lemma resolve_batch_ext {T U} `{NullifierSet T, NullifierSet U} (r : NullifierConflictResolver T)
    (q : NullifierConflictResolver U) txs :
  (∀ nf, contains (finalized r) nf = contains (finalized q) nf) →
  seen r = seen q → accepted_nfs r = accepted_nfs q →
  (resolve_batch r txs).2 = (resolve_batch q txs).2.
Proof.
  intros Hc. revert r q Hc; induction txs as [|nfs txs IH]; intros r q Hc Hs Ha; simpl; [done|].
  assert (∀ w l, first_conflict r w l = first_conflict q w l) as Hfc.
  { intros w l. revert w; induction l as [|nf l IHl]; intros w; simpl; [done|].
    unfold conflicts. rewrite Hc, Hs. by rewrite IHl. }
  destruct (try_accept_cases r nfs) as [[e He]|(Hnd & Hall & He)]; rewrite He.
  - assert (try_accept q nfs = (q, Err e)) as ->.
    { apply try_accept_Err in He as [_ He]. unfold try_accept. rewrite <- Hfc, He. done. }
    specialize (IH r q Hc Hs Ha). destruct (resolve_batch r txs), (resolve_batch q txs).
    simpl in *. by rewrite IH.
  - assert (try_accept q nfs = (record_nullifiers q nfs, Ok tt)) as ->.
    { unfold try_accept in *. rewrite <- Hfc. by destruct (first_conflict r ∅ nfs). }
    specialize (IH (record_nullifiers r nfs) (record_nullifiers q nfs)).
    rewrite !record_nullifiers_spec in *. simpl in IH.
    rewrite Hs, Ha in *. specialize (IH Hc eq_refl eq_refl).
    destruct (resolve_batch _ txs), (resolve_batch _ txs). simpl in *. by rewrite IH.
Qed.

Lemma keep_mask_ext {T U} `{NullifierSet T, NullifierSet U} (f : T) (g : U) txs :
  (∀ nf, contains f nf = contains g nf) → keep_mask f txs = keep_mask g txs.
Proof. intros Hc. by apply resolve_batch_ext. Qed.

Lemma layer_contains st nf : contains (layer st) nf = bool_decide (nf ∈ st_nullifiers st).
Proof. unfold contains at 1, layered_contains. unfold nullifier_contains. simpl. done. Qed.

Lemma compute_ok_inv st sp t sup p coinbase txs c :
  snap st sp t sup p → coinbase_wf coinbase → txs_wf txs → compute st sp coinbase txs = Ok c →
  ∃ m, c = computed_of st t sup m coinbase txs ∧
    mu_snap m (p * elem_prod (concat (tx_nullifiers <$> kept_txs (layer st) txs))) ∧
    totals_fit (layer st) sup coinbase txs ∧
    tree_size t + Z.of_nat (length (block_leaves (layer st) coinbase txs)) ≤ 2 ^ 32 ∧
    ledger_sound (next_ledger (layer st) sup coinbase txs).
Proof.
  intros Hs Hcb Htxs Hc. pose proof (compute_spec st sp t sup p coinbase txs Hs Hcb Htxs) as Hspec.
  cbn zeta in Hspec. repeat case_bool_decide; try congruence. destruct Hspec as (m & Hm & Hsnap).
  exists m. split_and!; [congruence|done|done|done|].
  pose proof (minted_bound coinbase Hcb). pose proof (block_fees_bound (layer st) txs Htxs).
  destruct (snap_sound _ _ _ _ _ Hs) as [[? ?] ?].
  unfold totals_fit, ledger_sound, ledger_wf, in_u in *. simpl in *. lia.
Qed.

(** ** [partition_applied] agrees with [compute] *)

Lemma kept_replicate_true {A} (l : list A) : kept (replicate (length l) true) l = l.
Proof. induction l; simpl; congruence. Qed.

Lemma kept_length_le {A} keep (l : list A) : (length (kept keep l) ≤ length l)%nat.
Proof.
  revert keep; induction l as [|x l IH]; intros [|[] keep]; simpl; try lia;
    specialize (IH keep); lia.
Qed.

Lemma kept_indices_replicate i n : kept_indices i (replicate n true) = seq i n.
Proof. revert i; induction n; intros i; simpl; congruence. Qed.

Lemma partition_loop_spec final (r : NullifierConflictResolver LayeredNullifierSet) txs :
  let retained := kept (partition_loop final r txs) txs in
  (resolve_batch r (tx_nullifiers <$> retained)).2 = replicate (length retained) true ∧
  length (partition_loop final r txs) = length txs ∧
  Forall (λ tx, tx_nullifiers tx = [] ∨ final tx = true) retained.
Proof.
  revert r; induction txs as [|tx txs IH]; intros r; cbn [partition_loop]; [by split|].
  destruct (bool_decide (tx_nullifiers tx = []) || final tx) eqn:Hfin.
  2:{ simpl. destruct (IH r) as (? & ? & ?). split_and!; [done|lia|done]. }
  destruct (try_accept_cases r (tx_nullifiers tx)) as [[e He]|(_ & _ & He)]; rewrite He.
  - destruct (IH r) as (? & ? & ?). simpl. split_and!; [done|lia|done].
  - destruct (IH (record_nullifiers r (tx_nullifiers tx))) as (IH1 & ? & ?). csimpl.
    rewrite He. destruct (resolve_batch _ _) as [r' keep]. simpl in IH1 |- *.
    split_and!; [by rewrite IH1|lia|]. constructor; [|done].
    apply orb_true_iff in Hfin as [Hfin%bool_decide_eq_true|]; auto.
Qed.

(** C28. The mask the virtual processor keeps transactions by and the decisions
    of [compute] agree: of the transactions [partition_applied] retains (all of
    them with a final anchor, or none to check), [compute] accepts every one,
    records their nullifiers in order, and advances the fee total by exactly
    the fees of the retained transactions and the coinbase total by the mint,
    so the fees paid to miners and the fees taken from the pool are the same. *)
Theorem partition_compute_agree st sp t sup p coinbase txs final c :
  snap st sp t sup p → coinbase_wf coinbase → txs_wf txs →
  let retained := kept (partition_applied st txs final) txs in
  compute st sp coinbase retained = Ok c →
  accepted (outcome c) = seq 0 (length retained) ∧
  new_nullifiers (outcome c) = concat (tx_nullifiers <$> retained) ∧
  tot_fees (supply_totals c) = cumulative_fees sup + sumZ (fee <$> retained) ∧
  tot_coinbase (supply_totals c) = cumulative_coinbase sup + minted coinbase ∧
  Forall (λ tx, tx_nullifiers tx = [] ∨ final tx = true) retained.
Proof.
  intros Hs Hcb Htxs retained Hc.
  destruct (partition_loop_spec final (resolver_new (layer st)) txs) as (Hk & _ & Hfin).
  fold (partition_applied st txs final) in Hk, Hfin. fold retained in Hk, Hfin.
  assert (txs_wf retained) as Hwf.
  { destruct Htxs as [Hf Hl]. split; [by apply kept_Forall|].
    assert (length retained ≤ length txs)%nat by apply kept_length_le. lia. }
  destruct (compute_ok_inv _ _ _ _ _ _ _ _ Hs Hcb Hwf Hc) as (m & -> & _).
  assert (kept_txs (layer st) retained = retained) as Hkept.
  { unfold kept_txs, keep_mask. rewrite Hk. apply kept_replicate_true. }
  simpl. unfold block_fees. rewrite Hkept. unfold keep_mask. rewrite Hk, kept_indices_replicate. done.
Qed.

(** C29. What validation committed to is what the database answers: for a parent
    with stored snapshots and a block without entries, a successful [compute]
    can be persisted, and then the state root and the anchor read back from the
    stores are the computed ones, other blocks read as before, and the anchor
    of a non-empty tree resolves to the block. *)
Theorem compute_persist_readback st sp t sup p coinbase txs c b :
  snap st sp t sup p → coinbase_wf coinbase → txs_wf txs → fresh st b →
  compute st sp coinbase txs = Ok c →
  ∃ st', persist st b c = Ok st' ∧
    state_root_at (E := Empty_set) st' b = computed_state_root c ∧
    anchor_at (E := Empty_set) st' b = Ok (computed_anchor c) ∧
    (∀ b', b' ≠ b → state_root_at (E := Empty_set) st' b' = state_root_at st b') ∧
    (0 < fs_size (frontier_state c) → anchor_get st' (computed_anchor c) = Some b) ∧
    st_nullifiers st' = st_nullifiers st ∪ list_to_set (new_nullifiers (outcome c)).
Proof.
  intros Hs Hcb Htxs Hf Hc.
  destruct (compute_ok_inv _ _ _ _ _ _ _ _ Hs Hcb Htxs Hc) as (m & Heq & Hm & _ & Hle & Hsound).
  destruct (next_tree_wf (layer st) t coinbase txs (snap_tree_wf _ _ _ _ _ Hs) Hle) as [_ Hwf].
  assert (mu_snap (nullifier_muhash c) (p * elem_prod (concat (tx_nullifiers <$> kept_txs (layer st) txs))))
    as Hm' by (by rewrite Heq).
  destruct (persist_snap st b c (next_tree (layer st) t coinbase txs) (next_ledger (layer st) sup coinbase txs)
    _ Hf Hm') as (st' & p' & Hp & Hsn & Hroot & _ & _); [by rewrite Heq|done|by rewrite Heq|done|].
  destruct (persist_fields st b c _ Hm') as (st1 & Hp1 & HN & _ & _ & _ & _ & Ha).
  assert (st1 = st') as -> by congruence.
  exists st'. split_and!; [done| | | | |done].
  - rewrite (snap_state_root _ _ _ _ _ Hsn). unfold computed_state_root, computed_nullifier_root.
    rewrite (muhash_root_spec _ _ Hm'). cbn [mbind res_mbind]. unfold root_of. rewrite Hroot. by rewrite Heq.
  - unfold anchor_at. rewrite (snap_load_tree _ _ _ _ _ Hsn). cbn [mbind res_mbind]. by rewrite Heq.
  - intros b' Hne. destruct (persist_frame _ _ _ _ _ b' Hm' Hp Hne) as (Ht' & Hs' & Hmu' & _).
    unfold state_root_at, anchor_at, load_tree. by rewrite Ht', Hs', Hmu'.
  - intros Hsz. unfold anchor_get. rewrite Ha. destruct (Z.ltb_spec 0 (fs_size (frontier_state c))); [|lia].
    by rewrite lookup_insert_eq.
Qed.
End ManagerLemmas.

(** ** A sample node *)

(** Oracles that stretch the data and print the element, except for the empty
    accumulator. *)
Definition tagged_oracles : MuHashOracles := {|
  element_hash := λ d, d;
  chacha_fill := λ s, le_bytes ELEMENT_BYTE_SIZE (of_le_bytes s);
  finalize_hash := λ b, if bool_decide (b = le_bytes ELEMENT_BYTE_SIZE 1) then EMPTY_MUHASH else b;
|}.

Lemma tagged_oracles_laws : MuHashOraclesLaws tagged_oracles.
Proof. split. intros. split; [apply length_le_bytes|apply le_bytes_is_bytes]. Qed.

Lemma tagged_empty : EmptyMuHashLaw tagged_oracles.
Proof.
  unfold EmptyMuHashLaw. cbn [finalize_hash tagged_oracles]. by rewrite bool_decide_eq_true_2.
Qed.

Module Node.
Existing Instance list_tree.
Existing Instance list_tree_laws.
Existing Instance tagged_oracles.
Existing Instance tagged_oracles_laws.
Existing Instance euclid_inverse.
Existing Instance euclid_inverse_laws.
Existing Instance tagged_empty.

#[export] Instance plain_blake2b : Blake2b := λ _ d, d.

Definition force {E A} (d : A) (r : res E A) : A := match r with Ok x => x | _ => d end.

Lemma force_ok {E A} (d : A) (r : res E A) : is_ok r = true → r = Ok (force d r).
Proof. by destruct r. Qed.

Definition dummy : ComputedBlockShielded :=
  mkComputed frontier_state_default (mkTotals 0 0) muhash_new
    (mkOutcome [] [] subtree_new (tree_anchor tree_new)) None.

Lemma genesis_snap : snap stores_new [0] tree_new ledger_new 1.
Proof. apply fresh_snap. split_and!; apply lookup_empty. Qed.

(** A block that mints 10 on genesis and spends a note twice. *)
Definition c1 := force dummy (compute stores_new [0] Sample.mint10 [Sample.spend1; Sample.spend1]).

Lemma c1_ok : compute stores_new [0] Sample.mint10 [Sample.spend1; Sample.spend1] = Ok c1.
Proof. apply force_ok. vm_compute. reflexivity. Qed.

(** The same transactions and one whose anchor is not final, partitioned. *)
Definition late : ShieldedTx := mkShieldedTx [[2]] [9] 4 [1].
Definition batch : list ShieldedTx := [Sample.spend1; late; Sample.spend1].
Definition final (tx : ShieldedTx) : bool := bool_decide (tx_anchor tx = []).
Definition retained : list ShieldedTx := kept (partition_applied stores_new batch final) batch.
Definition c2 := force dummy (compute stores_new [0] Sample.mint10 retained).

Lemma c2_ok : compute stores_new [0] Sample.mint10 retained = Ok c2.
Proof. apply force_ok. vm_compute. reflexivity. Qed.

Lemma batch_wf : txs_wf batch.
Proof. unfold txs_wf, in_u. simpl. repeat (constructor; simpl; try lia). Qed.

Definition new_block_fresh : fresh stores_new [1].
Proof. split_and!; apply lookup_empty. Defined.
End Node.

#[local] Existing Instances list_tree list_tree_laws tagged_oracles tagged_oracles_laws
  euclid_inverse euclid_inverse_laws tagged_empty Node.plain_blake2b.

Lemma partition_compute_agree_witness :
  accepted (outcome Node.c2) = [0%nat] ∧ tot_fees (supply_totals Node.c2) = 0 + 3.
Proof.
  destruct (partition_compute_agree stores_new [0] tree_new ledger_new 1 Sample.mint10 Node.batch
    Node.final Node.c2 Node.genesis_snap (proj1 Sample.sample_wf) Node.batch_wf Node.c2_ok)
    as (Ha & _ & Hf & _).
  split; [exact Ha|exact Hf].
Defined.

Lemma compute_persist_readback_witness :
  ∃ st', persist stores_new [1] Node.c1 = Ok st' ∧
    anchor_at (E := Empty_set) st' [1] = Ok (computed_anchor Node.c1).
Proof.
  destruct (compute_persist_readback stores_new [0] tree_new ledger_new 1
    Sample.mint10 [Sample.spend1; Sample.spend1] Node.c1 [1] Node.genesis_snap (proj1 Sample.sample_wf)
    (proj1 (proj2 Sample.sample_wf)) Node.new_block_fresh Node.c1_ok) as (st' & Hp & _ & Ha & _).
  exists st'. split; [exact Hp|exact Ha].
Defined.
