(* ===== verification/ShieldedReorg.v ===== *)
(** * Reorganizations of the shielded state (consensus/src/processes/shielded.rs, driven by
    consensus/src/pipeline/virtual_processor/processor.rs)

    The virtual processor moves over the block DAG: it validates and commits
    children of the selected tip, reverts blocks on the way down to a common
    ancestor and re-applies validated blocks on the way up.  The reachable
    stores are related to the in-memory state machine of ShieldedState. *)

From S2P Require Import Prelude Bytes Limbs Uint U3072 MuHash.
From S2P Require Import Turnstile Nullifier NoteTree Bundle ShieldedState ShieldedManager.

Section Reorg.
Context `{HT : OrchardTreeLaws, HB : Blake2b, HO : MuHashOraclesLaws, HI : ModInverseLaws}.
Context `{HE : !EmptyMuHashLaw _}.

(** The computed block with the scan record the virtual processor attaches. *)
Definition with_scan (c : ComputedBlockShielded) (scan : option ShieldedScanBlockData)
    : ComputedBlockShielded :=
  mkComputed (frontier_state c) (supply_totals c) (nullifier_muhash c) (outcome c) scan.

(** The stores, every validated block with the chain it was validated on (tip
    first) and what it contained, and the selected chain. *)
Record World := mkWorld {
  w_st : Stores;
  w_paths : gmap Hash (list Hash);
  w_recs : gmap Hash BlockRecord;
  w_chain : list Hash;
}.

Definition world_genesis (g : Hash) : World := mkWorld stores_new {[g := [g]]} ∅ [g].

(** The reorganization steps: down from the tip, and back up to a block
    validated earlier. *)
Inductive rstep : World → World → Prop :=
| rstep_down w b b' rest :
    w_chain w = b :: b' :: rest →
    rstep w (mkWorld (revert_nullifiers_from_store (w_st w) b) (w_paths w) (w_recs w) (b' :: rest))
| rstep_up w b :
    w_paths w !! b = Some (b :: w_chain w) →
    rstep w (mkWorld (apply_nullifiers_from_store (w_st w) b) (w_paths w) (w_recs w) (b :: w_chain w)).

(** Any step: validate and commit a child of the tip, or reorganize. *)
Inductive wstep : World → World → Prop :=
| wstep_extend w tip b coinbase txs c scan st' :
    head (w_chain w) = Some tip → w_paths w !! b = None →
    coinbase_wf coinbase → txs_wf txs →
    compute (w_st w) tip coinbase txs = Ok c →
    persist (w_st w) b (with_scan c scan) = Ok st' →
    wstep w (mkWorld st' (<[b := b :: w_chain w]> (w_paths w))
               (<[b := mkBlock coinbase txs (outcome c)]> (w_recs w)) (b :: w_chain w))
| wstep_reorg w w' : rstep w w' → wstep w w'.

Inductive reachable (g : Hash) : World → Prop :=
| reachable_genesis : reachable g (world_genesis g)
| reachable_step w w' : reachable g w → wstep w w' → reachable g w'.

(** The nullifiers recorded along a path, and the blocks along it. *)
Definition path_nullifiers (st : Stores) (path : list Hash) : list NullifierBytes :=
  concat (diff_get st <$> path).

Definition path_history (recs : gmap Hash BlockRecord) (path : list Hash) : list BlockRecord :=
  omap (λ b, recs !! b) (reverse path).

(** The nullifiers of some block of a path, multiplied, hash to the empty-set constant. *)
Definition empty_collision (st : Stores) (path : list Hash) : Prop :=
  ∃ l, l `suffix_of` path ∧ taken_for_empty (elem_prod (path_nullifiers st l)).

(** A block's snapshots are the in-memory state over its history, and the
    diffs along its path are that state's nullifiers. *)
Definition refines (st : Stores) (recs : gmap Hash BlockRecord) (b : Hash) (path : list Hash) : Prop :=
  ∃ s p, chain (path_history recs path) s ∧ snap st b (tree s) (supply s) p ∧
    mem_set (nullifiers s) = list_to_set (path_nullifiers st path) ∧
    NoDup (path_nullifiers st path) ∧
    (empty_collision st path ∨ p mod P3072 = elem_prod (path_nullifiers st path) mod P3072).

Record world_inv (w : World) : Prop := {
  wi_tip : ∃ tip, head (w_chain w) = Some tip ∧ w_paths w !! tip = Some (w_chain w);
  wi_fresh : ∀ b, w_paths w !! b = None → fresh (w_st w) b ∧ w_recs w !! b = None;
  wi_path : ∀ b path, w_paths w !! b = Some path →
    (∃ rest, path = b :: rest ∧ (rest = [] ∨ ∃ b', head rest = Some b' ∧ w_paths w !! b' = Some rest)) ∧
    Forall (λ x, is_Some (w_paths w !! x)) path ∧ refines (w_st w) (w_recs w) b path;
  wi_set : st_nullifiers (w_st w) = list_to_set (path_nullifiers (w_st w) (w_chain w));
}.

Lemma path_nullifiers_cons st b path :
  path_nullifiers st (b :: path) = diff_get st b ++ path_nullifiers st path.
Proof. done. Qed.

Lemma path_nullifiers_ext st st' path :
  (∀ b, b ∈ path → diff_get st' b = diff_get st b) → path_nullifiers st' path = path_nullifiers st path.
Proof.
  unfold path_nullifiers. induction path as [|b path IH]; intros Hd; csimpl; [done|].
  rewrite Hd by set_solver. rewrite IH; [done|]. intros. apply Hd. set_solver.
Qed.

Lemma taken_for_empty_congr v v' : v mod P3072 = v' mod P3072 → taken_for_empty v → taken_for_empty v'.
Proof. intros Heq [Hne Hr]. split; [by rewrite <- Heq|]. by rewrite <- (mu_root_congr _ _ Heq). Qed.

Lemma empty_collision_ext st st' path path' :
  path `suffix_of` path' → (∀ b, b ∈ path → diff_get st' b = diff_get st b) → empty_collision st path → empty_collision st' path'.
Proof.
  intros Hsuf Hd (l & Hl & Hc). exists l. split; [by etrans|]. rewrite (path_nullifiers_ext st); [done|].
  intros b Hb. apply Hd. destruct Hl as [k ->]. set_solver.
Qed.

Lemma omap_ext_elem {A B} (f g : A → option B) (l : list A) :
  (∀ x, x ∈ l → f x = g x) → omap f l = omap g l.
Proof.
  induction l as [|x l IH]; intros Hfg; csimpl; [done|]. rewrite Hfg by set_solver.
  rewrite IH; [done|]. intros. apply Hfg. set_solver.
Qed.

Lemma path_history_snoc recs b r path :
  b ∉ path → path_history (<[b := r]> recs) (b :: path) = path_history recs path ++ [r].
Proof.
  intros Hb. unfold path_history. rewrite reverse_cons, omap_app. f_equal.
  - apply omap_ext_elem. intros x Hx%elem_of_reverse. apply lookup_insert_ne. set_solver.
  - csimpl. by rewrite lookup_insert_eq.
Qed.

Lemma path_history_insert recs b r path :
  b ∉ path → path_history (<[b := r]> recs) path = path_history recs path.
Proof.
  intros Hb. unfold path_history. apply omap_ext_elem. intros x Hx%elem_of_reverse.
  apply lookup_insert_ne. set_solver.
Qed.

Lemma snap_ext st st' b t sup p :
  tree_get st' b = tree_get st b → supply_get st' b = supply_get st b →
  muhash_get st' b = muhash_get st b → snap st b t sup p → snap st' b t sup p.
Proof.
  intros Ht Hs Hm [? ? ? ? ?]. split; unfold load_supply in *; congruence.
Qed.

(** Entries that agree on the block and its path give the same refinement. *)
Lemma refines_ext st st' recs recs' b path :
  tree_get st' b = tree_get st b → supply_get st' b = supply_get st b →
  muhash_get st' b = muhash_get st b → (∀ x, x ∈ path → diff_get st' x = diff_get st x) →
  path_history recs' path = path_history recs path →
  refines st recs b path → refines st' recs' b path.
Proof.
  intros ? ? ? Hd Hh (s & p & Hch & Hs & Hrest). exists s, p. rewrite Hh.
  rewrite (path_nullifiers_ext st) by done. split; [done|]. split; [by apply (snap_ext st)|].
  destruct Hrest as (? & ? & [Hc|?]); split_and!; auto. left. by eapply empty_collision_ext.
Qed.

Lemma genesis_inv g : world_inv (world_genesis g).
Proof.
  assert (∀ b, fresh stores_new b) as Hf by (intros b; split_and!; apply lookup_empty).
  assert (∀ st b, fresh st b → path_nullifiers st [b] = []) as Hnil.
  { intros st b (_ & _ & _ & Hd). unfold path_nullifiers, diff_get. csimpl. by rewrite Hd. }
  split; simpl.
  - exists g. split; [done|]. by rewrite lookup_singleton_eq.
  - intros b _. split; [done|apply lookup_empty].
  - intros b path [-> <-]%lookup_singleton_Some. split; [by eauto|]. split.
    + constructor; [|constructor]. rewrite lookup_singleton_eq. eauto.
    + exists state_new, 1. split; [constructor|]. split; [by apply fresh_snap|].
      rewrite Hnil by done. split_and!; [done|constructor|by right].
  - by rewrite Hnil.
Qed.

(** Conflict resolution against the persisted set of a chain agrees with the
    in-memory set, so a block's transition does. *)
Lemma block_ext {T U} `{NullifierSet T, NullifierSet U} (f : T) (g : U) t sup coinbase txs :
  (∀ nf, contains f nf = contains g nf) →
  kept_txs f txs = kept_txs g txs ∧ block_leaves f coinbase txs = block_leaves g coinbase txs ∧
  next_tree f t coinbase txs = next_tree g t coinbase txs ∧
  next_ledger f sup coinbase txs = next_ledger g sup coinbase txs ∧
  block_outcome f t coinbase txs = block_outcome g t coinbase txs ∧
  (totals_fit f sup coinbase txs ↔ totals_fit g sup coinbase txs).
Proof.
  intros Hc. pose proof (keep_mask_ext f g txs Hc) as Hk.
  assert (kept_txs f txs = kept_txs g txs) as Hkt by (unfold kept_txs; by rewrite Hk).
  unfold totals_fit, block_outcome, next_ledger, next_tree, block_leaves, block_fees.
  by rewrite Hk, Hkt.
Qed.

Lemma apply_chain_block_ok s coinbase txs :
  state_wf s → coinbase_wf coinbase → txs_wf txs →
  let fin := nullifiers s in
  totals_fit fin (supply s) coinbase txs →
  tree_size (tree s) + Z.of_nat (length (block_leaves fin coinbase txs)) ≤ 2 ^ 32 →
  ledger_sound (next_ledger fin (supply s) coinbase txs) →
  apply_chain_block s coinbase txs =
    (mkState (mem_extend fin (concat (tx_nullifiers <$> kept_txs fin txs)))
       (next_tree fin (tree s) coinbase txs) (next_ledger fin (supply s) coinbase txs),
     Ok (block_outcome fin (tree s) coinbase txs)).
Proof.
  intros [Ht [Hl Hs]] Hcb Htxs fin Hfit Hle Hs'. unfold apply_chain_block, apply_chain_block_to.
  rewrite transition_spec by done. fold fin. simpl.
  by rewrite (bool_decide_eq_true_2 _ Hfit), (bool_decide_eq_true_2 _ Hle), bool_decide_eq_true_2
    by apply Hs'.
Qed.

(** Computing and persisting a child of a refined block gives a refined block. *)
Lemma extend_refines st recs tip path b coinbase txs c scan st' :
  refines st recs tip path → st_nullifiers st = list_to_set (path_nullifiers st path) →
  fresh st b → b ∉ path → coinbase_wf coinbase → txs_wf txs →
  compute st tip coinbase txs = Ok c → persist st b (with_scan c scan) = Ok st' →
  refines st' (<[b := mkBlock coinbase txs (outcome c)]> recs) b (b :: path) ∧
  st_nullifiers st' = list_to_set (path_nullifiers st' (b :: path)) ∧
  ∀ x, x ≠ b → tree_get st' x = tree_get st x ∧ supply_get st' x = supply_get st x ∧
    muhash_get st' x = muhash_get st x ∧ diff_get st' x = diff_get st x ∧
    (fresh st x → fresh st' x).
Proof.
  intros (s & p & Hch & Hsn & Hset & Hnd & Hp) HN Hf Hb Hcb Htxs Hc Hpers.
  destruct (compute_ok_inv _ _ _ _ _ _ _ _ Hsn Hcb Htxs Hc) as (m & -> & Hm & Hfit & Hle & Hsound).
  assert (∀ nf, contains (layer st) nf = contains (nullifiers s) nf) as Hcont.
  { intros nf. rewrite layer_contains. unfold contains, mem_contains. by rewrite HN, Hset. }
  destruct (block_ext (layer st) (nullifiers s) (tree s) (supply s) coinbase txs Hcont)
    as (Hk & Hbl & Hnt & Hnl & Hbo & Htf).
  pose proof (inv_wf _ _ (chain_history_inv _ _ Hch)) as Hwf.
  pose proof (proj1 Htf Hfit) as Hfit'. rewrite Hbl in Hle. rewrite Hnl in Hsound.
  pose proof (apply_chain_block_ok s coinbase txs Hwf Hcb Htxs Hfit' Hle Hsound) as Happ.
  assert (chain (path_history recs path ++ [mkBlock coinbase txs
    (block_outcome (nullifiers s) (tree s) coinbase txs)]) _) as Hch' by (by eapply chain_accept).
  destruct (next_tree_wf _ _ _ _ (proj1 Hwf) Hle) as [_ Hntwf].
  set (c := with_scan (computed_of st (tree s) (supply s) m coinbase txs) scan) in *.
  change (mu_snap (nullifier_muhash c)
    (p * elem_prod (concat (tx_nullifiers <$> kept_txs (layer st) txs)))) in Hm.
  destruct (persist_snap st b c (next_tree (nullifiers s) (tree s) coinbase txs)
    (next_ledger (nullifiers s) (supply s) coinbase txs) _ Hf Hm)
    as (st1 & p' & Hpers1 & Hsn' & _ & Hcol & Hdiff); try done.
  { cbn [c with_scan computed_of frontier_state]. by rewrite Hnt. }
  { cbn [c with_scan computed_of supply_totals]. by rewrite Hnl. }
  rewrite Hpers in Hpers1. injection Hpers1 as <-.
  assert (∀ x, x ≠ b → _) as Hframe by (intros x Hx; exact (persist_frame _ _ _ _ _ x Hm Hpers Hx)).
  destruct (persist_fields st b c _ Hm) as (st1 & Hpers1 & HN' & _).
  rewrite Hpers in Hpers1. injection Hpers1 as <-.
  simpl in HN', Hdiff. rewrite Hk in *.
  destruct (kept_nullifiers_fresh (nullifiers s) txs) as [Hndn Hfr].
  set (new := concat (tx_nullifiers <$> kept_txs (nullifiers s) txs)) in *.
  assert (path_nullifiers st' (b :: path) = new ++ path_nullifiers st path) as Hpn.
  { rewrite path_nullifiers_cons, Hdiff. f_equal. apply path_nullifiers_ext.
    intros x Hx. apply Hframe. set_solver. }
  split; [|split]; [| |done].
  - eexists _, p'. rewrite path_history_snoc by done. simpl. rewrite Hbo. split; [exact Hch'|].
    split; [exact Hsn'|]. rewrite Hpn. cbn [nullifiers].
    split_and!.
    + destruct (nullifiers s) as [set]. rewrite mem_extend_set, list_to_set_app_L.
      simpl in Hset. rewrite Hset. apply union_comm_L.
    + apply NoDup_app. split_and!; [done| |done]. intros x Hx Hx'.
      rewrite Forall_forall in Hfr. apply (Hfr x Hx). unfold spent, contains, mem_contains.
      rewrite Hset. apply bool_decide_eq_true. set_solver.
    + destruct Hp as [Hcp|Hp].
      { left. eapply (empty_collision_ext st st' path); [by apply suffix_cons_r| |done]. intros x Hx. apply Hframe. set_solver. }
      assert ((p * elem_prod new) mod P3072 = elem_prod (new ++ path_nullifiers st path) mod P3072) as Hprod
        by (rewrite elem_prod_app, (Z.mul_comm (elem_prod new)); by apply mod_mul_congr).
      destruct Hcol as [Hcol|Hcol]; [left|right; by rewrite Hcol].
      exists (b :: path). split; [done|]. rewrite Hpn. by apply (taken_for_empty_congr (p * elem_prod new)).
  - rewrite Hpn, HN', HN, list_to_set_app_L. apply union_comm_L.
Qed.

(** Stepping down removes exactly the tip's nullifiers; stepping up adds them. *)
Lemma set_step_down {A} `{Countable A} (l k : list A) :
  NoDup (l ++ k) → (list_to_set (l ++ k) : gset A) ∖ list_to_set l = list_to_set k.
Proof.
  intros (_ & Hd & _)%NoDup_app. rewrite list_to_set_app_L. apply set_eq. intros x.
  rewrite elem_of_difference, elem_of_union, !elem_of_list_to_set. naive_solver.
Qed.

Lemma extend_inv w tip b coinbase txs c scan st' :
  world_inv w → head (w_chain w) = Some tip → w_paths w !! b = None →
  coinbase_wf coinbase → txs_wf txs →
  compute (w_st w) tip coinbase txs = Ok c → persist (w_st w) b (with_scan c scan) = Ok st' →
  world_inv (mkWorld st' (<[b := b :: w_chain w]> (w_paths w))
               (<[b := mkBlock coinbase txs (outcome c)]> (w_recs w)) (b :: w_chain w)).
Proof.
  intros [(tip' & Htip & Hpt) Hfresh Hpath Hset] Ht' Hb Hcb Htxs Hc Hp.
  assert (tip' = tip) as -> by congruence. destruct (Hpath _ _ Hpt) as (_ & Hin & Href).
  assert (∀ x path, w_paths w !! x = Some path → x ≠ b ∧ b ∉ path) as Hne.
  { intros x path Hx. split; [congruence|]. intros Hbp. destruct (Hpath _ _ Hx) as (_ & Hall & _).
    rewrite Forall_forall in Hall. destruct (Hall b Hbp). congruence. }
  destruct (Hfresh b Hb) as [Hfb Hrb].
  destruct (extend_refines _ _ _ _ _ _ _ _ _ _ Href Hset Hfb (proj2 (Hne _ _ Hpt)) Hcb Htxs Hc Hp)
    as (Href' & Hset' & Hframe).
  split; cbn [w_st w_paths w_recs w_chain].
  + exists b. by rewrite lookup_insert_eq.
  + intros x [Hx Hbx]%lookup_insert_None. destruct (Hfresh x Hx). split; [by apply Hframe|].
    by rewrite lookup_insert_ne.
  + intros x path [[<- <-]|[Hbx Hx]]%lookup_insert_Some.
    * split_and!; [|constructor; [rewrite lookup_insert_eq; eauto|]|done].
      -- eexists. split; [done|]. right. exists tip. by rewrite lookup_insert_ne by congruence.
      -- eapply Forall_impl; [done|]. intros y [z Hy]. rewrite lookup_insert_is_Some. naive_solver.
    * destruct (Hpath _ _ Hx) as ((rest & -> & Hrest) & Hall & Hr). destruct (Hne _ _ Hx) as [Hxb Hbp].
      split_and!.
      -- exists rest. split; [done|]. destruct Hrest as [?|(y & Hy & Hyp)]; [by left|right].
         exists y. by rewrite lookup_insert_ne by (intros ->; congruence).
      -- eapply Forall_impl; [done|]. intros y [z Hy]. rewrite lookup_insert_is_Some.
         destruct (decide (b = y)); naive_solver.
      -- destruct (Hframe x Hxb) as (? & ? & ? & _). eapply refines_ext; [done..| | |exact Hr].
         ++ intros y Hy. apply Hframe. congruence.
         ++ by apply path_history_insert.
  + done.
Qed.

(** Reorg steps only rewrite the nullifier set. *)
Lemma set_chain_inv w N chain' :
  world_inv w → (∃ tip, head chain' = Some tip ∧ w_paths w !! tip = Some chain') →
  N = list_to_set (path_nullifiers (w_st w) chain') →
  let st := w_st w in
  world_inv (mkWorld (mkStores N (st_diffs st) (st_tree st) (st_supply st) (st_muhash st) (st_anchors st)
                        (st_scan st)) (w_paths w) (w_recs w) chain').
Proof.
  intros [_ Hfresh Hpath _] Htip -> st. split; [done|exact Hfresh| |done].
  intros b path Hb. destruct (Hpath b path Hb) as (? & ? & Hr). split_and!; [done|done|].
  by eapply refines_ext; [..|exact Hr].
Qed.

Lemma rstep_inv w w' : world_inv w → rstep w w' → world_inv w'.
Proof.
  intros Hinv Hstep. pose proof Hinv as [(tip & Htip & Hpt) _ Hpath Hset].
  destruct Hstep as [w b b' rest Hch|w b Hb].
  - rewrite Hch in *. injection Htip as <-.
    destruct (Hpath _ _ Hpt) as ((r & [= <-] & Hr) & _ & Href).
    destruct Hr as [?|(x & [= <-] & Hx)]; [done|]. destruct Href as (_ & _ & _ & _ & _ & Hnd & _).
    unfold revert_nullifiers_from_store. rewrite delete_all_spec.
    apply set_chain_inv; [done|by exists b'|]. rewrite Hset, path_nullifiers_cons.
    by apply set_step_down.
  - unfold apply_nullifiers_from_store. rewrite insert_all_spec.
    apply set_chain_inv; [done|by exists b|].
    by rewrite Hset, path_nullifiers_cons, list_to_set_app_L, union_comm_L.
Qed.

Lemma wstep_inv w w' : world_inv w → wstep w w' → world_inv w'.
Proof.
  intros Hinv Hstep. destruct Hstep as [w tip b coinbase txs c scan st' Ht' Hb Hcb Htxs Hc Hp|w w' Hr].
  - exact (extend_inv _ _ _ _ _ _ _ _ Hinv Ht' Hb Hcb Htxs Hc Hp).
  - exact (rstep_inv _ _ Hinv Hr).
Qed.

(** Reorganization steps touch nothing but the nullifier set and the chain. *)
Lemma rstep_frame w w' :
  rstep w w' →
  w_paths w' = w_paths w ∧ w_recs w' = w_recs w ∧
  w_st w' = mkStores (st_nullifiers (w_st w')) (st_diffs (w_st w)) (st_tree (w_st w))
    (st_supply (w_st w)) (st_muhash (w_st w)) (st_anchors (w_st w)) (st_scan (w_st w)).
Proof.
  intros Hstep. destruct Hstep as [w b b' rest _|w b _]; cbn [w_st w_paths w_recs];
    unfold apply_nullifiers_from_store, revert_nullifiers_from_store;
    rewrite ?insert_all_spec, ?delete_all_spec; done.
Qed.

Lemma reachable_inv g w : reachable g w → world_inv w.
Proof. induction 1; eauto using genesis_inv, wstep_inv. Qed.

Lemma refines_nullifiers st recs b path :
  refines st recs b path → path_nullifiers st path ≡ₚ history_nullifiers (path_history recs path).
Proof.
  intros (s & p & Hch & _ & Hset & Hnd & _). destruct (chain_history_inv _ _ Hch) as [_ _ _ _ HN HND].
  apply NoDup_Permutation; [done..|]. intros x.
  assert (x ∈ mem_set (nullifiers s) ↔ x ∈ path_nullifiers st path) as <-
    by (rewrite Hset; apply elem_of_list_to_set).
  rewrite HN. apply elem_of_list_to_set.
Qed.

(** C20. The persistent state refines the in-memory state machine across
    reorganizations.  In every world reachable by committing blocks, reverting
    and re-applying them in any order, the snapshots stored under a validated
    block are the tree and the ledger the state machine of state.rs reaches on
    that block's own history, and its state root commits to that tree, that
    ledger and the nullifiers of that history (unless for that block or one
    below it the product of the nullifiers is not one but hashes to the
    empty-set constant, which [persist] treats as absent); and the persisted nullifier set is exactly the
    nullifiers of the selected chain, pairwise distinct. *)
Theorem reorg_refinement g w :
  reachable g w →
  (∀ b path, w_paths w !! b = Some path →
     let h := path_history (w_recs w) path in
     ∃ s, chain h s ∧
       load_tree (E := Empty_set) (w_st w) b = Ok (tree s) ∧ load_supply (w_st w) b = supply s ∧
       (empty_collision (w_st w) path ∨ state_root_at (E := Empty_set) (w_st w) b =
          Ok (shielded_state_root (anchor_to_bytes (state_anchor s)) (mu_root (elem_prod (history_nullifiers h)))
                (cumulative_coinbase (supply s)) (cumulative_fees (supply s))))) ∧
  NoDup (history_nullifiers (path_history (w_recs w) (w_chain w))) ∧
  (∀ nf, nullifier_contains (w_st w) nf = true ↔
         nf ∈ history_nullifiers (path_history (w_recs w) (w_chain w))).
Proof.
  intros Hinv%reachable_inv. destruct Hinv as [(tip & _ & Htip) _ Hpath Hset].
  split.
  - intros b path Hb h. destruct (Hpath b path Hb) as (_ & _ & Href).
    pose proof (refines_nullifiers _ _ _ _ Href) as Hperm.
    destruct Href as (s & p & Hch & Hsn & _ & _ & Hp). exists s.
    split_and!; [done|by eapply snap_load_tree|apply Hsn|].
    destruct Hp as [?|Hp]; [by left|right]. rewrite (snap_state_root _ _ _ _ _ Hsn). unfold root_of.
    by rewrite (mu_root_congr _ _ Hp), (elem_prod_perm _ _ Hperm).
  - destruct (Hpath _ _ Htip) as (_ & _ & Href). pose proof (refines_nullifiers _ _ _ _ Href) as Hperm.
    split; [by destruct Href as (s & p & Hch & _); apply (chain_history_inv _ _ Hch)|].
    intros nf. unfold nullifier_contains. rewrite bool_decide_eq_true, Hset, elem_of_list_to_set.
    by rewrite Hperm.
Qed.

(** C27. Reorganizing is path independent: any sequence of reverts and
    re-applications that ends on the chain it started from restores the stores
    exactly, and more generally two such sequences ending on the same chain
    leave the same stores. *)
Theorem reorg_path_independent g w w1 w2 :
  reachable g w → rtc rstep w w1 → rtc rstep w w2 → w_chain w1 = w_chain w2 → w_st w1 = w_st w2.
Proof.
  intros Hinv%reachable_inv Hr1 Hr2 Hch.
  assert (∀ u, rtc rstep w u → world_inv u ∧
    w_st u = mkStores (st_nullifiers (w_st u)) (st_diffs (w_st w)) (st_tree (w_st w))
      (st_supply (w_st w)) (st_muhash (w_st w)) (st_anchors (w_st w)) (st_scan (w_st w))) as Hall.
  { apply rtc_ind_r; [by destruct w as [[]]|].
    intros x y _ Hstep [Hx Hst]. split; [by eapply rstep_inv|].
    destruct (rstep_frame _ _ Hstep) as (_ & _ & ->). by rewrite Hst. }
  destruct (Hall _ Hr1) as [[_ _ _ Hs1] E1], (Hall _ Hr2) as [[_ _ _ Hs2] E2].
  rewrite E1, E2. f_equal. rewrite Hs1, Hs2, Hch. f_equal. rewrite E1, E2. done.
Qed.

(** A step leaves the entries of every validated block alone. *)
Lemma wstep_frame w w' b path :
  world_inv w → wstep w w' → w_paths w !! b = Some path →
  w_paths w' !! b = Some path ∧
  tree_get (w_st w') b = tree_get (w_st w) b ∧ supply_get (w_st w') b = supply_get (w_st w) b ∧
  muhash_get (w_st w') b = muhash_get (w_st w) b ∧ diff_get (w_st w') b = diff_get (w_st w) b.
Proof.
  intros Hinv Hstep Hb. pose proof Hinv as [(tip' & Htip & Hpt) Hfresh Hpath Hset].
  destruct Hstep as [w tip b' coinbase txs c scan st' Ht' Hb' Hcb Htxs Hc Hp|w w' Hr].
  - assert (tip' = tip) as -> by congruence. destruct (Hpath _ _ Hpt) as (_ & Hin & Href).
    assert (b' ∉ w_chain w) as Hnin.
    { intros Hbp. rewrite Forall_forall in Hin. destruct (Hin b' Hbp). congruence. }
    destruct (extend_refines _ _ _ _ _ _ _ _ _ _ Href Hset (proj1 (Hfresh b' Hb')) Hnin Hcb Htxs Hc Hp)
      as (_ & _ & Hframe).
    assert (b ≠ b') as Hne by congruence. cbn [w_st w_paths].
    rewrite lookup_insert_ne by done. destruct (Hframe b Hne) as (? & ? & ? & ? & _). done.
  - destruct (rstep_frame _ _ Hr) as (-> & _ & ->). done.
Qed.

(** Snapshots are immutable: once a block is validated, no later commit,
    revert or re-application of any blocks changes its stored frontier,
    totals, accumulator or nullifier diff, nor therefore its state root. *)
Theorem validated_snapshot_immutable g w w' b path :
  reachable g w → rtc wstep w w' → w_paths w !! b = Some path →
  tree_get (w_st w') b = tree_get (w_st w) b ∧ supply_get (w_st w') b = supply_get (w_st w) b ∧
  muhash_get (w_st w') b = muhash_get (w_st w) b ∧ diff_get (w_st w') b = diff_get (w_st w) b ∧
  state_root_at (E := Empty_set) (w_st w') b = state_root_at (w_st w) b.
Proof.
  intros Hinv%reachable_inv Hsteps Hb.
  assert (tree_get (w_st w') b = tree_get (w_st w) b ∧ supply_get (w_st w') b = supply_get (w_st w) b ∧
    muhash_get (w_st w') b = muhash_get (w_st w) b ∧ diff_get (w_st w') b = diff_get (w_st w) b)
    as (Ht & Hs & Hm & Hd).
  { induction Hsteps as [w|w w1 w2 Hst Hsts IH]; [done|].
    destruct (wstep_frame _ _ _ _ Hinv Hst Hb) as (Hb1 & <- & <- & <- & <-).
    apply IH; [by eapply wstep_inv|done]. }
  split_and!; [done..|]. unfold state_root_at, anchor_at, load_tree. by rewrite Ht, Hs, Hm.
Qed.
End Reorg.

(** ** A sample reorganization *)

Module Fork.
Existing Instances list_tree list_tree_laws tagged_oracles tagged_oracles_laws
  euclid_inverse euclid_inverse_laws tagged_empty Node.plain_blake2b.

Definition spend5 : ShieldedTx := mkShieldedTx [[5]] [8] 3 [].

Lemma spends_wf : txs_wf [spend5; spend5].
Proof. unfold txs_wf, in_u. simpl. repeat (constructor; simpl; try lia). Qed.

(** Block 1 mints 10 on genesis; block 2 spends on top of it, and is then
    reverted and applied again. *)
Definition ca := Node.force Node.dummy (compute stores_new [0] Sample.mint10 []).
Definition sta := Node.force stores_new (persist stores_new [1] (with_scan ca None)).
Definition cb := Node.force Node.dummy (compute sta [1] None [spend5; spend5]).
Definition stb := Node.force stores_new (persist sta [2] (with_scan cb None)).

Definition w0 := world_genesis [0].
Definition w1 := mkWorld sta (<[[1] := [[1]; [0]]]> (w_paths w0))
  (<[[1] := mkBlock Sample.mint10 [] (outcome ca)]> (w_recs w0)) [[1]; [0]].
Definition w2 := mkWorld stb (<[[2] := [[2]; [1]; [0]]]> (w_paths w1))
  (<[[2] := mkBlock None [spend5; spend5] (outcome cb)]> (w_recs w1)) [[2]; [1]; [0]].
Definition w3 := mkWorld (revert_nullifiers_from_store stb [2]) (w_paths w2) (w_recs w2) [[1]; [0]].
Definition w4 := mkWorld (apply_nullifiers_from_store (w_st w3) [2]) (w_paths w2) (w_recs w2)
  [[2]; [1]; [0]].

Lemma step01 : wstep w0 w1.
Proof.
  destruct Sample.sample_wf as (? & ? & ? & ?).
  apply (wstep_extend w0 [0] [1] Sample.mint10 [] ca None sta); [done|done|done|done| |];
    apply Node.force_ok; vm_compute; reflexivity.
Qed.

Lemma step12 : wstep w1 w2.
Proof.
  pose proof spends_wf. destruct Sample.sample_wf as (? & ? & ? & ?).
  apply (wstep_extend w1 [1] [2] None [spend5; spend5] cb None stb);
    [done|done|done|done| |]; apply Node.force_ok; vm_compute; reflexivity.
Qed.

Lemma step23 : rstep w2 w3.
Proof. by apply (rstep_down w2 [2] [1] [[0]]). Qed.

Lemma step34 : rstep w3 w4.
Proof. by apply (rstep_up w3 [2]). Qed.

Lemma same_chain : w_chain w4 = w_chain w2.
Proof. reflexivity. Qed.

Lemma path1 : w_paths w2 !! [1] = Some [[1]; [0]].
Proof. reflexivity. Qed.

Lemma reach2 : reachable [0] w2.
Proof.
  eapply reachable_step; [|exact step12]. eapply reachable_step; [|exact step01]. constructor.
Qed.
End Fork.

#[local] Existing Instances list_tree list_tree_laws tagged_oracles tagged_oracles_laws
  euclid_inverse euclid_inverse_laws tagged_empty Node.plain_blake2b.

Lemma reorg_refinement_witness :
  nullifier_contains Fork.stb [5] = true ∧
  ∃ s, chain (path_history (w_recs Fork.w2) [[2]; [1]; [0]]) s ∧ load_supply Fork.stb [2] = supply s.
Proof.
  destruct (reorg_refinement [0] Fork.w2 Fork.reach2) as (Hp & _ & Hset). split.
  - apply Hset. vm_compute. left.
  - destruct (Hp [2] [[2]; [1]; [0]] eq_refl) as (s & Hch & _ & Hs & _). exists s. split; [exact Hch|exact Hs].
Defined.

Lemma reorg_path_independent_witness : w_st Fork.w4 = w_st Fork.w2.
Proof.
  apply (reorg_path_independent [0] Fork.w2 Fork.w4 Fork.w2 Fork.reach2).
  - eapply rtc_l; [exact Fork.step23|]. eapply rtc_l; [exact Fork.step34|]. apply rtc_refl.
  - apply rtc_refl.
  - exact Fork.same_chain.
Defined.

Lemma validated_snapshot_immutable_witness :
  tree_get (w_st Fork.w3) [1] = tree_get (w_st Fork.w2) [1].
Proof.
  destruct (validated_snapshot_immutable [0] Fork.w2 Fork.w3 [1] [[1]; [0]] Fork.reach2
    (rtc_once _ _ (wstep_reorg _ _ Fork.step23)) Fork.path1) as (Ht & _). exact Ht.
Defined.
