(* ===== verification/PruningTransfer.v ===== *)
(** * Pruning-point transfer of the shielded state
    (consensus/src/processes/shielded.rs: export_, verify_ and
    seed_pruning_point_shielded)

    What a syncing node obtains from an exporting one, and what the receiver's
    checks accept and reject. *)

From S2P Require Import Prelude Bytes Limbs Uint U3072 MuHash.
From S2P Require Import Turnstile Nullifier NoteTree Bundle ShieldedState ShieldedManager ShieldedReorg.

(** The bincode encoding of the metadata. *)
Class WireCodec := {
  to_wire_bytes : PruningPointShieldedMetadata → bytes;
  from_wire_bytes : bytes → option PruningPointShieldedMetadata;
}.

Class WireCodecLaws `(WireCodec) :=
  from_to_wire md : from_wire_bytes (to_wire_bytes md) = Some md.

Record ShieldedExportMetadata := mkExport { data : bytes; nullifier_count : Z }.

(** ** The virtual processor's two sides *)

Section Processor.
Context `{OrchardTree, Blake2b, MuHashOracles, ModInverse, WireCodec}.

(** [usize as u64]. *)
Definition processor_export {E} (st : Stores) (pp : Hash) : res E (option ShieldedExportMetadata) :=
  o ← export_pruning_point_shielded st pp;
  match o with
  | None => Ok None
  | Some md => Ok (Some (mkExport (to_wire_bytes md) (Z.of_nat (size (st_nullifiers st)) mod 2 ^ 64)))
  end.

Definition collect_pruning_point_nullifiers (st : Stores) : list NullifierBytes :=
  elements (st_nullifiers st).

Definition processor_seed (st : Stores) (pp : Hash) (metadata : ShieldedExportMetadata)
    (nfs : list NullifierBytes) : res PPError Stores :=
  md ← match from_wire_bytes (data metadata) with Some md => Ok md | None => Err MalformedMetadata end;
  n ← verify_pruning_point_shielded md nfs;
  if negb (Z.of_nat n mod 2 ^ 64 =? nullifier_count metadata)
  then Err (CountMismatch (nullifier_count metadata) n)
  else seed_pruning_point_shielded st pp md nfs.
End Processor.

Section Transfer.
Context `{HT : OrchardTreeLaws, HB : Blake2b, HO : MuHashOraclesLaws, HI : ModInverseLaws}.
Context `{HE : !EmptyMuHashLaw _, HW : WireCodecLaws}.

Definition totals_of (sup : SupplyLedger) : SupplyTotals :=
  mkTotals (cumulative_coinbase sup) (cumulative_fees sup).

(** Metadata that carries the tree [t], the totals of [sup] and an accumulator
    of the product [p]. *)
Definition md_carries (md : PruningPointShieldedMetadata) (t : GlobalTree) (sup : SupplyLedger) (p : Z)
    : Prop :=
  md_frontier md = to_state t ∧ tree_wf t ∧ md_supply md = totals_of sup ∧ ledger_sound sup ∧
  mu_snap (md_muhash md) p.

Lemma recompute_state_root_spec {E} f s m t sup p :
  f = to_state t → tree_wf t → s = totals_of sup → mu_snap m p →
  @recompute_state_root _ _ _ _ E f s m = Ok (root_of t sup p).
Proof.
  intros -> Ht -> Hm. unfold recompute_state_root. rewrite from_state_to_state by done.
  cbn [mbind res_mbind]. by rewrite (muhash_root_spec _ _ Hm).
Qed.

Lemma streamed_root nfs :
  ∃ m, add_elements muhash_new nfs = Ok m ∧ mu_snap m (elem_prod nfs).
Proof.
  destruct (add_elements_spec muhash_new 1 nfs mu_snap_new) as (m & Hm & Hs).
  exists m. split; [done|]. by rewrite Z.mul_1_l in Hs.
Qed.

(** The receiver's checks on metadata that carries a tree, a ledger and an
    accumulator. *)
Lemma verify_spec md nfs t sup p :
  md_carries md t sup p →
  verify_pruning_point_shielded md nfs =
  if bool_decide (mu_root (elem_prod nfs) = mu_root p) then
    if bool_decide (root_of t sup p = md_state_root md) then Ok (length nfs) else Err RootMismatch
  else Err (AccumulatorMismatch (length nfs)).
Proof.
  intros (Hf & Ht & Hsup & _ & Hm). unfold verify_pruning_point_shielded.
  destruct (streamed_root nfs) as (m & -> & Hs). cbn [no_err map_err mbind res_mbind].
  rewrite (muhash_root_spec _ _ Hs), (muhash_root_spec _ _ Hm). cbn [mbind res_mbind].
  case_bool_decide; simpl; [|done].
  rewrite (recompute_state_root_spec _ _ _ t sup p) by done. cbn [mbind res_mbind].
  case_bool_decide; done.
Qed.

Lemma export_spec {E} st b t sup p :
  snap st b t sup p → 0 < tree_size t →
  ∃ md, export_pruning_point_shielded (E := E) st b = Ok (Some md) ∧
        md_carries md t sup p ∧ md_state_root md = root_of t sup p.
Proof.
  intros Hs Hsz. unfold export_pruning_point_shielded. rewrite (snap_tree _ _ _ _ _ Hs).
  pose proof (snap_tree_wf _ _ _ _ _ Hs) as Ht.
  destruct (Z.eqb_spec (fs_size (to_state t)) 0) as [Hz|]; [rewrite to_state_size in Hz by done; lia|].
  assert (supply_get st b = totals_of sup) as Hsup.
  { rewrite <- (snap_supply _ _ _ _ _ Hs). unfold load_supply, totals_of. simpl. by destruct (supply_get st b). }
  rewrite (recompute_state_root_spec _ _ _ t sup p) by (done || apply Hs). cbn [mbind res_mbind].
  eexists. split; [done|]. split; [|done]. split_and!; simpl; [done|done|done|apply Hs..].
Qed.

Lemma seed_spec st b md nfs t sup p :
  fresh st b → md_carries md t sup p →
  ∃ st' p', seed_pruning_point_shielded st b md nfs = Ok st' ∧ snap st' b t sup p' ∧
    mu_root p' = mu_root p ∧ st_nullifiers st' = st_nullifiers st ∪ list_to_set nfs ∧
    anchor_get st' (anchor_to_bytes (tree_anchor t)) = Some b.
Proof.
  intros (Ft & Fs & Fm & Fd) (Hf & Ht & Hsup & Hsound & Hm). unfold seed_pruning_point_shielded.
  rewrite Hf, from_state_to_state by done. cbn [mbind res_mbind].
  rewrite persist_supply_spec, (persist_muhash_spec _ _ _ p Hm). cbn [mbind res_mbind].
  rewrite insert_all_spec.
  cbn [st_nullifiers st_diffs st_tree st_supply st_muhash st_anchors st_scan tree_set anchor_set].
  set (st' := mkStores _ _ _ _ _ _ _).
  destruct (muhash_written st' b _ _ _ eq_refl Fm Hm) as (p' & Hgm & Hroot & _).
  exists st', p'. split_and!; [done| |done|done|].
  - split; [|done| |done|done].
    + unfold tree_get, st'. simpl. by rewrite lookup_insert_eq.
    + by apply (supply_written st' b (md_supply md) sup (st_supply st)).
  - unfold anchor_get, st'. simpl. by rewrite lookup_insert_eq.
Qed.

(** C34. Pruning transfer at the tip: when the exporting node's pruning point is
    the tip of its selected chain, its pool is not empty and no nullifier product
    along that chain hashes to the empty-set constant by accident, the metadata it
    exports and the nullifier set it streams, in any order, pass the importing
    node's checks, and seeding a node without entries for that block gives it
    the exporter's state root, tree and ledger, the streamed nullifiers, and
    the anchor resolving to the pruning point. *)
Theorem pruning_transfer_at_tip g w b t st nfs :
  reachable g w → head (w_chain w) = Some b → ¬ empty_collision (w_st w) (w_chain w) →
  load_tree (E := Empty_set) (w_st w) b = Ok t → 0 < tree_size t →
  fresh st b → nfs ≡ₚ collect_pruning_point_nullifiers (w_st w) →
  ∃ md st', processor_export (E := Empty_set) (w_st w) b = Ok (Some md) ∧
    processor_seed st b md nfs = Ok st' ∧
    state_root_at (E := Empty_set) st' b = state_root_at (w_st w) b ∧
    load_tree (E := Empty_set) st' b = Ok t ∧ load_supply st' b = load_supply (w_st w) b ∧
    st_nullifiers st' = st_nullifiers st ∪ st_nullifiers (w_st w) ∧
    anchor_get st' (anchor_to_bytes (tree_anchor t)) = Some b.
Proof.
  intros Hinv%reachable_inv Htip Hcol Hlt Hsz Hf Hnfs.
  destruct Hinv as [(tip & Htip' & Hpt) _ Hpath Hset]. assert (tip = b) as -> by congruence.
  destruct (Hpath _ _ Hpt) as (_ & _ & s & p & _ & Hsn & _ & Hnd & [?|Hp]); [done|].
  rewrite (snap_load_tree _ _ _ _ _ Hsn) in Hlt. injection Hlt as Hlt. rewrite <- Hlt in *. clear t Hlt.
  destruct (export_spec (E := Empty_set) _ _ _ _ _ Hsn Hsz) as (md & Hex & Hmd & Hroot).
  assert (nfs ≡ₚ path_nullifiers (w_st w) (w_chain w)) as Hperm.
  { rewrite Hnfs. unfold collect_pruning_point_nullifiers. rewrite Hset.
    by apply elements_list_to_set. }
  destruct (seed_spec st b md nfs _ _ _ Hf Hmd) as (st' & p' & Hseed & Hsn' & Hroot' & Hn' & Ha).
  eexists _, st'. unfold processor_export. rewrite Hex. cbn [mbind res_mbind]. split; [done|].
  split_and!; [| |by eapply snap_load_tree| | |done].
  - unfold processor_seed. cbn [data nullifier_count]. rewrite from_to_wire. cbn [mbind res_mbind].
    rewrite (verify_spec _ _ _ _ _ Hmd), !bool_decide_eq_true_2; [|done|].
    + cbn [mbind res_mbind]. rewrite (Permutation_length Hnfs).
      replace (length (collect_pruning_point_nullifiers (w_st w)))
        with (size (st_nullifiers (w_st w))) by done. by rewrite Z.eqb_refl.
    + apply mu_root_congr. by rewrite (elem_prod_perm _ _ Hperm).
  - rewrite (snap_state_root _ _ _ _ _ Hsn), (snap_state_root _ _ _ _ _ Hsn'). unfold root_of.
    by rewrite Hroot'.
  - by rewrite (snap_supply _ _ _ _ _ Hsn), (snap_supply _ _ _ _ _ Hsn').
  - rewrite Hn'. f_equal. rewrite Hset. by apply list_to_set_perm_L.
Qed.

(** Pruning transfer below the tip: the exporter streams the nullifiers of
    its whole selected chain with the accumulator of the pruning point, so the
    importing node accepts exactly when the two products hash alike; spending
    any note above the pruning point makes an honest export be refused. *)
Theorem pruning_transfer_below_tip g w b path t :
  reachable g w → w_paths w !! b = Some path → ¬ empty_collision (w_st w) path →
  load_tree (E := Empty_set) (w_st w) b = Ok t → 0 < tree_size t →
  let nfs := collect_pruning_point_nullifiers (w_st w) in
  let above := history_nullifiers (path_history (w_recs w) (w_chain w)) in
  let at_pp := history_nullifiers (path_history (w_recs w) path) in
  ∃ md, export_pruning_point_shielded (E := Empty_set) (w_st w) b = Ok (Some md) ∧
    verify_pruning_point_shielded md nfs =
    if bool_decide (mu_root (elem_prod above) = mu_root (elem_prod at_pp)) then Ok (length nfs)
    else Err (AccumulatorMismatch (length nfs)).
Proof.
  intros Hinv%reachable_inv Hb Hcol Hlt Hsz nfs above at_pp.
  destruct Hinv as [(tip & _ & Hpt) _ Hpath Hset].
  destruct (Hpath _ _ Hpt) as (_ & _ & Htip).
  assert (nfs ≡ₚ above) as Hnfs.
  { etrans; [|exact (refines_nullifiers _ _ _ _ Htip)]. unfold nfs, collect_pruning_point_nullifiers.
    rewrite Hset. apply elements_list_to_set. by destruct Htip as (_ & _ & _ & _ & _ & ? & _). }
  destruct (Hpath _ _ Hb) as (_ & _ & Href). pose proof (refines_nullifiers _ _ _ _ Href) as Hperm.
  destruct Href as (s & p & _ & Hsn & _ & _ & [?|Hp]); [done|].
  rewrite (snap_load_tree _ _ _ _ _ Hsn) in Hlt. injection Hlt as Hlt. rewrite <- Hlt in *. clear t Hlt.
  destruct (export_spec (E := Empty_set) _ _ _ _ _ Hsn Hsz) as (md & Hex & Hmd & Hroot).
  exists md. split; [done|].
  rewrite (verify_spec _ _ _ _ _ Hmd), (elem_prod_perm _ _ Hnfs), (mu_root_congr _ _ Hp),
    (elem_prod_perm _ _ Hperm).
  by rewrite (bool_decide_eq_true_2 (root_of _ _ _ = _)).
Qed.

(** C33. Import of hostile metadata aborts the process instead of returning an
    error: a frontier the tree rejects makes verification panic once the
    streamed set reproduces the accumulator, and an accumulator stored as a
    fraction passes verification, which compares finalized values, but makes
    seeding panic, whatever the (non-empty) set. *)
Theorem hostile_metadata_panics md nfs e st b t :
  muhash_root (E := PPError) (md_muhash md) = Ok (mu_root (elem_prod nfs)) →
  (from_state (md_frontier md) = Err e → verify_pruning_point_shielded md nfs = Panic) ∧
  (from_state (md_frontier md) = Ok t → denominator (md_muhash md) ≠ u3072_one →
   mu_root (elem_prod nfs) ≠ EMPTY_MUHASH →
   recompute_state_root (E := PPError) (md_frontier md) (md_supply md) (md_muhash md) = Ok (md_state_root md) →
   verify_pruning_point_shielded md nfs = Ok (length nfs) ∧
   seed_pruning_point_shielded st b md nfs = Panic).
Proof.
  intros Hm. destruct (streamed_root nfs) as (m & Hadd & Hs).
  assert (verify_pruning_point_shielded md nfs =
    (recomputed ← recompute_state_root (md_frontier md) (md_supply md) (md_muhash md);
     if negb (bool_decide (recomputed = md_state_root md)) then Err RootMismatch else Ok (length nfs)))
    as Hver.
  { unfold verify_pruning_point_shielded. rewrite Hadd. cbn [no_err map_err mbind res_mbind].
    rewrite (muhash_root_spec _ _ Hs), Hm. cbn [mbind res_mbind]. by rewrite bool_decide_eq_true_2. }
  split.
  - intros He. rewrite Hver. unfold recompute_state_root. by rewrite He.
  - intros Ht Hd Hne Hrec. rewrite Hver, Hrec. cbn [mbind res_mbind]. rewrite bool_decide_eq_true_2 by done.
    split; [done|]. unfold seed_pruning_point_shielded. rewrite Ht. cbn [mbind res_mbind].
    unfold persist_muhash, muhash_set, muhash_try_into. rewrite Hm. cbn [mbind res_mbind].
    by rewrite (bool_decide_eq_false_2 (denominator _ = _)), bool_decide_eq_false_2.
Qed.
End Transfer.

(** ** A sample transfer *)

Module Wire.
Definition md_tuple (md : PruningPointShieldedMetadata) :=
  (fs_size (md_frontier md), fs_leaf (md_frontier md), fs_ommers (md_frontier md),
   (tot_coinbase (md_supply md), tot_fees (md_supply md)),
   (numerator (md_muhash md), denominator (md_muhash md)), md_state_root md).

Definition md_of_tuple '(n, l, o, (c, f), (x, y), r) : PruningPointShieldedMetadata :=
  mkPPMeta (mkFrontierState n l o) (mkTotals c f) (mkMuHash x y) r.

(** Any injective numbering of the metadata serves as an encoding. *)
#[export] Instance number_codec : WireCodec := {|
  to_wire_bytes md := [Zpos (encode (md_tuple md))];
  from_wire_bytes b :=
    match b with [Zpos n] => md_of_tuple <$> decode n | _ => None end;
|}.

#[export] Instance number_codec_laws : WireCodecLaws number_codec.
Proof.
  intros [[n l o] [c f] [x y] r]. unfold from_wire_bytes, to_wire_bytes, number_codec.
  rewrite decode_encode. done.
Qed.
End Wire.

#[local] Existing Instances list_tree list_tree_laws tagged_oracles tagged_oracles_laws
  euclid_inverse euclid_inverse_laws tagged_empty Node.plain_blake2b Wire.number_codec
  Wire.number_codec_laws.

Lemma mu_root_finalize `{MuHashOracles} v :
  mu_root v = finalize_hash (le_bytes ELEMENT_BYTE_SIZE (v mod P3072)).
Proof. reflexivity. Qed.

Lemma tagged_finalize b :
  @finalize_hash tagged_oracles b =
  if bool_decide (b = le_bytes ELEMENT_BYTE_SIZE 1) then EMPTY_MUHASH else b.
Proof. reflexivity. Qed.

Lemma le_bytes_one n v : (0 < n)%nat → in_u (8 * Z.of_nat n) v → le_bytes n v = le_bytes n 1 → v = 1.
Proof.
  intros Hn Hv. apply le_bytes_inj; [done|]. split; [done|].
  apply Z.pow_gt_1; lia.
Qed.

Lemma no_empty_collision st path : ¬ empty_collision st path.
Proof.
  intros (l & _ & Hne & Hroot). generalize dependent (elem_prod (path_nullifiers st l)). intros v Hne Hroot. rewrite mu_root_finalize, tagged_finalize in Hroot.
  pose proof P3072_large. pose proof (Z.mod_pos_bound v P3072 ltac:(lia)).
  case_bool_decide as Hb.
  - apply Hne. apply (le_bytes_one ELEMENT_BYTE_SIZE); [apply Nat.ltb_lt; reflexivity| |exact Hb].
    split; [lia|]. assert (P3072 < 2 ^ (8 * Z.of_nat ELEMENT_BYTE_SIZE)) by done. lia.
  - apply (f_equal length) in Hroot. rewrite length_le_bytes in Hroot. discriminate Hroot.
Qed.

Definition sample_tree (b : Hash) : GlobalTree :=
  Node.force tree_new (load_tree (E := Empty_set) Fork.stb b).

Lemma sample_tree_ok b :
  is_ok (load_tree (E := Empty_set) Fork.stb b) = true →
  load_tree (E := Empty_set) (w_st Fork.w2) b = Ok (sample_tree b).
Proof. exact (Node.force_ok tree_new (load_tree (E := Empty_set) Fork.stb b)). Qed.

Lemma loads2 : is_ok (load_tree (E := Empty_set) Fork.stb [2]) = true.
Proof. vm_compute. reflexivity. Qed.

Lemma loads1 : is_ok (load_tree (E := Empty_set) Fork.stb [1]) = true.
Proof. vm_compute. reflexivity. Qed.

Lemma sizes : 0 < tree_size (sample_tree [2]) ∧ 0 < tree_size (sample_tree [1]).
Proof. vm_compute. split; reflexivity. Qed.

Lemma none_fresh b : fresh stores_new b.
Proof. split_and!; apply lookup_empty. Qed.

Lemma pruning_transfer_at_tip_witness :
  ∃ md st', processor_export (E := Empty_set) (w_st Fork.w2) [2] = Ok (Some md) ∧
    processor_seed stores_new [2] md (collect_pruning_point_nullifiers (w_st Fork.w2)) = Ok st' ∧
    state_root_at (E := Empty_set) st' [2] = state_root_at (w_st Fork.w2) [2].
Proof.
  destruct (pruning_transfer_at_tip [0] Fork.w2 [2] (sample_tree [2]) stores_new
    (collect_pruning_point_nullifiers (w_st Fork.w2)) Fork.reach2 eq_refl (no_empty_collision _ _)
    (sample_tree_ok [2] loads2) (proj1 sizes) (none_fresh [2]) (Permutation_refl _))
    as (md & st' & Hex & Hseed & Hroot & _).
  exists md, st'. split; [exact Hex|]. split; [exact Hseed|exact Hroot].
Defined.

(** The set above block 1 is {5}; the one at it is empty. *)
Lemma above_below :
  history_nullifiers (path_history (w_recs Fork.w2) (w_chain Fork.w2)) = [[5]] ∧
  history_nullifiers (path_history (w_recs Fork.w2) [[1]; [0]]) = [] ∧
  length (collect_pruning_point_nullifiers (w_st Fork.w2)) = 1%nat.
Proof. vm_compute. split_and!; reflexivity. Qed.

Lemma roots_differ : mu_root (elem_prod [[5]]) ≠ mu_root (elem_prod []).
Proof.
  intros Heq. apply (f_equal (λ b, nth 0 b 0)) in Heq. vm_compute in Heq. discriminate Heq.
Qed.

Lemma pruning_transfer_below_tip_witness :
  ∃ md, export_pruning_point_shielded (E := Empty_set) (w_st Fork.w2) [1] = Ok (Some md) ∧
    verify_pruning_point_shielded md (collect_pruning_point_nullifiers (w_st Fork.w2)) =
    Err (AccumulatorMismatch 1).
Proof.
  destruct (pruning_transfer_below_tip [0] Fork.w2 [1] [[1]; [0]] (sample_tree [1]) Fork.reach2 Fork.path1
    (no_empty_collision _ _) (sample_tree_ok [1] loads1) (proj2 sizes)) as (md & Hex & Hver).
  exists md. split; [exact Hex|]. destruct above_below as (Ha & Hb & Hl).
  rewrite Ha, Hb, Hl in Hver. rewrite bool_decide_eq_false_2 in Hver by exact roots_differ. exact Hver.
Defined.

(** Metadata with a well-formed tree and the accumulator 10 / 2 of the set {5}. *)
Definition fraction : MuHash := mkMuHash (10 :: replicate 47 0) (2 :: replicate 47 0).
Definition bad_root : bytes :=
  Node.force [] (recompute_state_root (E := PPError) (to_state tree_new) (mkTotals 0 0) fraction).
Definition bad_md : PruningPointShieldedMetadata :=
  mkPPMeta (to_state tree_new) (mkTotals 0 0) fraction bad_root.

Lemma bad_md_root : recompute_state_root (E := PPError) (md_frontier bad_md) (md_supply bad_md)
  (md_muhash bad_md) = Ok (md_state_root bad_md).
Proof. vm_compute. reflexivity. Qed.

Lemma bad_md_facts :
  muhash_root (E := PPError) (md_muhash bad_md) = Ok (mu_root (elem_prod [[5]])) ∧
  from_state (md_frontier bad_md) = Ok tree_new ∧
  denominator (md_muhash bad_md) ≠ u3072_one ∧ mu_root (elem_prod [[5]]) ≠ EMPTY_MUHASH.
Proof.
  split; [vm_compute; reflexivity|]. split; [reflexivity|].
  split; intros Heq; apply (f_equal (λ b, nth 0 b 0)) in Heq; vm_compute in Heq; discriminate Heq.
Qed.

Lemma hostile_metadata_panics_witness :
  verify_pruning_point_shielded bad_md [[5]] = Ok 1%nat ∧
  seed_pruning_point_shielded stores_new [1] bad_md [[5]] = Panic.
Proof.
  destruct bad_md_facts as (Hm & Hf & Hd & He).
  destruct (hostile_metadata_panics bad_md [[5]] Inconsistent stores_new [1] tree_new Hm) as [_ Hp].
  exact (Hp Hf Hd He bad_md_root).
Defined.
