(* ===== verification/Address.v ===== *)
(** * Addresses (crypto/addresses/src: lib.rs, bech32.rs)

    The address type and its text form: the prefix of the network, a colon, and the
    version and payload in groups of five bits with a 40-bit checksum.  Text is its
    list of bytes. *)

From stdpp Require Import strings.
From S2P Require Import Prelude Bytes.
#[local] Open Scope Z_scope.

Definition text (s : string) : bytes :=
  (λ a, Z.of_N (Ascii.N_of_ascii a)) <$> String.list_ascii_of_string s.

Inductive AddressError :=
| InvalidPrefix (prefix : bytes)
| MissingPrefix
| InvalidVersion (value : Z)
| InvalidVersionString (value : bytes)
| DecodingError (c : Z)
| BadChecksumSize
| BadChecksum
| BadPayload
| InvalidAddress
| InvalidAddressArray
| WASM (message : bytes).

Inductive Prefix := Mainnet | Testnet | Simnet | Devnet | KaspaMainnet.

Definition prefix_as_str (p : Prefix) : bytes :=
  match p with
  | Mainnet => text "zkas"
  | Testnet => text "zkastest"
  | Simnet => text "zkassim"
  | Devnet => text "zkasdev"
  | KaspaMainnet => text "kaspa"
  end.

Definition prefix_try_from (prefix : bytes) : res AddressError Prefix :=
  if bool_decide (prefix = text "zkas" ∨ prefix = text "firecash") then Ok Mainnet
  else if bool_decide (prefix = text "zkastest" ∨ prefix = text "firecashtest") then Ok Testnet
  else if bool_decide (prefix = text "zkassim" ∨ prefix = text "firecashsim") then Ok Simnet
  else if bool_decide (prefix = text "zkasdev" ∨ prefix = text "firecashdev") then Ok Devnet
  else if bool_decide (prefix = text "kaspa") then Ok KaspaMainnet
  else Err (InvalidPrefix prefix).

Inductive Version := V_PubKey | V_PubKeyECDSA | V_ScriptHash | V_ShieldedOrchard.

Definition version_byte (v : Version) : Z :=
  match v with V_PubKey => 0 | V_PubKeyECDSA => 1 | V_ScriptHash => 8 | V_ShieldedOrchard => 9 end.

Definition public_key_len (v : Version) : nat :=
  match v with V_PubKey => 32 | V_PubKeyECDSA => 33 | V_ScriptHash => 32 | V_ShieldedOrchard => 43 end.

Definition version_is_shielded (v : Version) : bool :=
  match v with V_ShieldedOrchard => true | _ => false end.

Definition version_try_from (value : Z) : res AddressError Version :=
  match value with
  | 0 => Ok V_PubKey
  | 1 => Ok V_PubKeyECDSA
  | 8 => Ok V_ScriptHash
  | 9 => Ok V_ShieldedOrchard
  | _ => Err (InvalidVersion value)
  end.

Record Address := mkAddress { prefix : Prefix; version : Version; payload : bytes }.

(** Outside of tests no prefix is exempt from the length check. *)
Definition address_new {E} (p : Prefix) (v : Version) (pl : bytes) : res E Address :=
  _ ← assert_p (length pl =? public_key_len v)%nat;
  Ok (mkAddress p v pl).

(** ** The checksum *)

Definition CHARSET : bytes := text "qpzry9x8gf2tvdw0s3jn54khce6mua7l".
Definition REV_CHARSET : list Z :=
  replicate 48 100 ++ [15; 100; 10; 17; 21; 20; 26; 30; 7; 5] ++ replicate 39 100 ++
  [29; 100; 24; 13; 25; 9; 8; 23; 100; 18; 22; 31; 27; 19; 100; 1; 0; 3; 16; 11; 28; 12; 14; 6; 4; 2].

Definition polymod_step (c d : Z) : Z :=
  let c0 := Z.shiftr c 35 in
  let c := Z.lxor (Z.shiftl (Z.land c 0x07ffffffff) 5) d in
  let c := if Z.land c0 0x01 =? 0 then c else Z.lxor c 0x98f2bc8e61 in
  let c := if Z.land c0 0x02 =? 0 then c else Z.lxor c 0x79b76d99e2 in
  let c := if Z.land c0 0x04 =? 0 then c else Z.lxor c 0xf33e5fb3c4 in
  let c := if Z.land c0 0x08 =? 0 then c else Z.lxor c 0xae2eabe2a8 in
  if Z.land c0 0x10 =? 0 then c else Z.lxor c 0x1e4f43e470.

Definition polymod (values : list Z) : Z := Z.lxor (foldl polymod_step 1 values) 1.

Definition checksum (payload prefix : list Z) : Z := polymod (prefix ++ [0] ++ payload ++ replicate 8 0).

(** ** Regrouping bits

    Both conversions are the same loop: a buffer takes in groups of [from] bits and
    gives out groups of [to] bits, which are written to a vector of known length. *)

Record Regroup := mkRegroup { g_out : bytes; g_idx : nat; g_buff : Z; g_bits : nat }.

(** [while bits >= to]; the fuel is the number of bits. *)
Fixpoint give {E} (to fuel : nat) (g : Regroup) : res E Regroup :=
  match fuel with
  | O => Ok g
  | S fuel =>
      if (to <=? g_bits g)%nat then
        let bits := (g_bits g - to)%nat in
        out ← upd (g_out g) (g_idx g) (Z.shiftr (g_buff g) (Z.of_nat bits) mod 2 ^ 8);
        give to fuel (mkRegroup out (S (g_idx g)) (Z.land (g_buff g) (Z.shiftl 1 (Z.of_nat bits) - 1)) bits)
      else Ok g
  end.

Fixpoint regroup {E} (from to : nat) (payload : bytes) (g : Regroup) : res E Regroup :=
  match payload with
  | [] => Ok g
  | c :: payload =>
      let buff := Z.lor (Z.shiftl (g_buff g) (Z.of_nat from) mod 2 ^ 16) c in
      let bits := (g_bits g + from)%nat in
      g ← give to bits (mkRegroup (g_out g) (g_idx g) buff bits);
      regroup from to payload g
  end.

Definition conv8to5 {E} (payload : bytes) : res E bytes :=
  let padding := if (length payload mod 5 =? 0)%nat then 0%nat else 1%nat in
  g ← regroup 8 5 payload (mkRegroup (replicate (length payload * 8 / 5 + padding) 0) 0 0 0);
  if (0 <? g_bits g)%nat
  then upd (g_out g) (g_idx g) (Z.shiftl (g_buff g) (Z.of_nat (5 - g_bits g)) mod 2 ^ 16 mod 2 ^ 8)
  else Ok (g_out g).

Definition conv5to8 {E} (payload : bytes) : res E bytes :=
  g ← regroup 5 8 payload (mkRegroup (replicate (length payload * 5 / 8) 0) 0 0 0);
  Ok (g_out g).

(** ** Text *)

Definition fivebit (s : bytes) : list Z := (λ c, Z.land c 0x1f) <$> s.

(** [.map(|c| CHARSET[*c as usize])]. *)
Fixpoint to_chars {E} (l : list Z) : res E bytes :=
  match l with
  | [] => Ok []
  | c :: l =>
      ch ← idx CHARSET (Z.to_nat c);
      rest ← to_chars l;
      Ok (ch :: rest)
  end.

Definition encode_payload {E} (a : Address) : res E bytes :=
  fivebit_payload ← conv8to5 (version_byte (version a) :: payload a);
  let sum := checksum fivebit_payload (fivebit (prefix_as_str (prefix a))) in
  tail ← conv8to5 (drop 3 (be_bytes 8 sum));
  to_chars (fivebit_payload ++ tail).

(** The letters as numbers, up to the first one that is not of the alphabet. *)
Fixpoint from_chars (s : bytes) : res AddressError (list Z) :=
  match s with
  | [] => Ok []
  | b :: s =>
      let i := default 100 (REV_CHARSET !! Z.to_nat b) in
      if i =? 100 then Err (DecodingError b)
      else
        rest ← from_chars s;
        Ok (i :: rest)
  end.

Definition decode_payload (p : Prefix) (hrp address : bytes) : res AddressError Address :=
  address_u5 ← from_chars address;
  if (length address <? 8)%nat then Err BadPayload
  else
    let payload_u5 := take (length address - 8) address_u5 in
    let checksum_u5 := drop (length address - 8) address_u5 in
    sum ← conv5to8 checksum_u5;
    if negb (length (replicate 3 0%Z ++ sum) =? 8)%nat then Err BadChecksumSize
    else if negb (checksum payload_u5 (fivebit hrp) =? of_be_bytes (replicate 3 0%Z ++ sum)) then Err BadChecksum
    else
      payload_u8 ← conv5to8 payload_u5;
      v ← idx payload_u8 0;
      v ← version_try_from v;
      address_new p v (drop 1 payload_u8).

(** [String::from(&Address)]. *)
Definition address_to_string {E} (a : Address) : res E bytes :=
  s ← encode_payload a;
  Ok (prefix_as_str (prefix a) ++ text ":" ++ s).

(** [split_once(':')]. *)
Fixpoint split_colon (s : bytes) : option (bytes * bytes) :=
  match s with
  | [] => None
  | c :: s =>
      if c =? 58 then Some ([], s)
      else
        match split_colon s with
        | Some (a, b) => Some (c :: a, b)
        | None => None
        end
  end.

Definition address_try_from (value : bytes) : res AddressError Address :=
  match split_colon value with
  | Some (prefix, payload) =>
      p ← prefix_try_from prefix;
      decode_payload p prefix payload
  | None => Err MissingPrefix
  end.

(** ** Streams of bits *)

(** The [w] low bits, the highest first. *)
Fixpoint bitsof (w : nat) (x : Z) : list bool :=
  match w with O => [] | S w => Z.testbit x (Z.of_nat w) :: bitsof w x end.
Definition stream (w : nat) (l : list Z) : list bool := concat (bitsof w <$> l).

Lemma length_bitsof w x : length (bitsof w x) = w.
Proof. induction w; simpl; [done|by f_equal]. Qed.

Lemma length_stream w l : length (stream w l) = (w * length l)%nat.
Proof.
  unfold stream. induction l as [|x l IH]; [simpl; lia|]. rewrite fmap_cons. simpl.
  rewrite length_app, length_bitsof, IH. lia.
Qed.

Lemma stream_app w l k : stream w (l ++ k) = stream w l ++ stream w k.
Proof. unfold stream. by rewrite fmap_app, concat_app. Qed.

Lemma stream_one w x : stream w [x] = bitsof w x.
Proof. unfold stream. simpl. apply app_nil_r. Qed.

Lemma bitsof_app a b x : bitsof (a + b) x = bitsof a (Z.shiftr x (Z.of_nat b)) ++ bitsof b x.
Proof.
  induction a as [|a IH]; simpl; [done|]. rewrite IH. f_equal. rewrite Z.shiftr_spec by lia. f_equal. lia.
Qed.

Lemma bitsof_ext w x y : (∀ i, 0 ≤ i < Z.of_nat w → Z.testbit x i = Z.testbit y i) → bitsof w x = bitsof w y.
Proof. induction w as [|w IH]; intros Hi; simpl; [done|]. f_equal; [apply Hi; lia|]. apply IH. intros. apply Hi. lia. Qed.

Lemma bitsof_testbit w x y i : bitsof w x = bitsof w y → 0 ≤ i < Z.of_nat w → Z.testbit x i = Z.testbit y i.
Proof.
  induction w as [|w IH]; simpl; [lia|]. intros [= Hh Ht] Hi.
  destruct (Z.eq_dec i (Z.of_nat w)) as [->|]; [done|]. apply IH; [done|lia].
Qed.

Lemma bitsof_inj w x y : in_u (Z.of_nat w) x → in_u (Z.of_nat w) y → bitsof w x = bitsof w y → x = y.
Proof.
  intros Hx Hy Heq. apply Z.bits_inj'. intros i Hi.
  destruct (Z.lt_ge_cases i (Z.of_nat w)); [by eapply bitsof_testbit|].
  rewrite (testbit_high _ x i Hx), (testbit_high _ y i Hy) by lia. done.
Qed.

Lemma stream_inj w l k r s :
  Forall (in_u (Z.of_nat w)) l → Forall (in_u (Z.of_nat w)) k → length l = length k →
  stream w l ++ r = stream w k ++ s → l = k.
Proof.
  intros Hl. revert k. induction Hl as [|x l Hx Hl IH]; intros [|y k] Hk Hlen Heq; try done.
  apply Forall_cons in Hk as [Hy Hk]. unfold stream in Heq. rewrite !fmap_cons in Heq. cbn [concat] in Heq.
  rewrite <- !(assoc_L (++)) in Heq. apply app_inj_1 in Heq as [H1 H2]; [|by rewrite !length_bitsof].
  f_equal; [by apply (bitsof_inj w)|]. apply IH; [done|by injection Hlen|done].
Qed.

Lemma shiftl_in_u a b x : in_u (Z.of_nat a) x → in_u (Z.of_nat (a + b)) (Z.shiftl x (Z.of_nat b)).
Proof.
  unfold in_u. intros Hx. rewrite Z.shiftl_mul_pow2, Nat2Z.inj_add, Z.pow_add_r by lia. nia.
Qed.

(** The buffer takes in a group. *)
Lemma push_bits a b x y :
  in_u (Z.of_nat a) x → in_u (Z.of_nat b) y →
  in_u (Z.of_nat (a + b)) (Z.lor (Z.shiftl x (Z.of_nat b)) y) ∧
  bitsof (a + b) (Z.lor (Z.shiftl x (Z.of_nat b)) y) = bitsof a x ++ bitsof b y.
Proof.
  intros Hx Hy. split.
  - rewrite <- Z.add_nocarry_lor.
    + pose proof (shiftl_in_u a b x Hx) as Hs. unfold in_u in *. rewrite Z.shiftl_mul_pow2 in * by lia.
      rewrite Nat2Z.inj_add, Z.pow_add_r in * by lia. nia.
    + apply Z.bits_inj'. intros i Hi. rewrite Z.land_spec, Z.bits_0.
      destruct (Z.lt_ge_cases i (Z.of_nat b)); [by rewrite Z.shiftl_spec_low|].
      rewrite (testbit_high _ y i Hy) by lia. apply andb_false_r.
  - rewrite bitsof_app. f_equal; apply bitsof_ext; intros i Hi.
    + rewrite Z.shiftr_spec, Z.lor_spec, Z.shiftl_spec, (testbit_high _ y) by (done || lia).
      rewrite orb_false_r. f_equal. lia.
    + by rewrite Z.lor_spec, Z.shiftl_spec_low by lia.
Qed.

(** The buffer gives out a group. *)
Lemma take_bits a b x :
  (a ≤ 8)%nat → in_u (Z.of_nat (a + b)) x →
  let y := Z.shiftr x (Z.of_nat b) mod 2 ^ 8 in let r := Z.land x (Z.shiftl 1 (Z.of_nat b) - 1) in
  in_u (Z.of_nat a) y ∧ in_u (Z.of_nat b) r ∧ bitsof (a + b) x = bitsof a y ++ bitsof b r.
Proof.
  intros Ha Hx. cbn zeta. rewrite Z.shiftl_1_l.
  replace (2 ^ Z.of_nat b - 1) with (Z.ones (Z.of_nat b)) by (rewrite Z.ones_equiv; lia).
  assert (in_u (Z.of_nat a) (Z.shiftr x (Z.of_nat b))) as Hs.
  { unfold in_u in *. rewrite Z.shiftr_div_pow2, Nat2Z.inj_add, Z.pow_add_r in * by lia.
    split; [apply Z.div_pos; lia|]. apply Z.div_lt_upper_bound; lia. }
  assert (2 ^ Z.of_nat a ≤ 2 ^ 8) by (apply Z.pow_le_mono_r; lia).
  rewrite Z.mod_small by (unfold in_u in *; lia). split; [done|].
  rewrite Z.land_ones by lia. split; [apply Z.mod_pos_bound; lia|].
  rewrite bitsof_app. f_equal. apply bitsof_ext. intros i Hi. by rewrite Z.mod_pow2_bits_low by lia.
Qed.

(** ** The loop *)

(** From [g], groups [e] were written and [stream] is what went through the buffer. *)
Definition gave (to : nat) (g g' : Regroup) (e : list Z) (inp : list bool) : Prop :=
  g_out g' = take (g_idx g) (g_out g) ++ e ++ drop (g_idx g + length e) (g_out g) ∧
  g_idx g' = (g_idx g + length e)%nat ∧ (g_bits g' < to)%nat ∧ in_u (Z.of_nat (g_bits g')) (g_buff g') ∧
  Forall (in_u (Z.of_nat to)) e ∧ stream to e ++ bitsof (g_bits g') (g_buff g') = inp.

Lemma gave_length to g g' e inp : gave to g g' e inp → (to * length e + g_bits g' = length inp)%nat.
Proof. intros (_ & _ & _ & _ & _ & <-). by rewrite length_app, length_stream, length_bitsof. Qed.

Lemma gave_nil to g :
  (g_bits g < to)%nat → in_u (Z.of_nat (g_bits g)) (g_buff g) → gave to g g [] (bitsof (g_bits g) (g_buff g)).
Proof.
  intros Hb Hf. unfold gave. simpl. rewrite Nat.add_0_r, take_drop.
  split; [done|]. split; [done|]. split; [done|]. split; [done|]. split; [constructor|done].
Qed.

Lemma insert_window {A} (l e : list A) i x :
  (i < length l)%nat →
  take (S i) (<[i := x]> l) ++ e ++ drop (S i + length e) (<[i := x]> l) =
  take i l ++ (x :: e) ++ drop (i + length (x :: e)) l.
Proof.
  intros Hi. rewrite (take_S_r _ i x) by (apply list_lookup_insert_eq; lia).
  rewrite take_insert_ge by lia. rewrite drop_insert_lt by lia. simpl.
  replace (i + S (length e))%nat with (S (i + length e)) by lia. by rewrite <- (assoc_L (++)).
Qed.

Lemma give_spec {E} to fuel g :
  (0 < to ≤ 8)%nat → (g_bits g ≤ fuel)%nat → in_u (Z.of_nat (g_bits g)) (g_buff g) →
  (g_idx g ≤ length (g_out g))%nat → (g_idx g * to + g_bits g ≤ length (g_out g) * to + (to - 1))%nat →
  ∃ g' e, @give E to fuel g = Ok g' ∧ gave to g g' e (bitsof (g_bits g) (g_buff g)).
Proof.
  intros Hto. revert g. induction fuel as [|fuel IH]; intros g Hf Hb Hi Hsp; cbn [give].
  { exists g, []. split; [done|]. apply gave_nil; [lia|done]. }
  destruct (Nat.leb_spec to (g_bits g)) as [Hle|Hlt].
  2:{ exists g, []. split; [done|]. by apply gave_nil. }
  set (b := (g_bits g - to)%nat). assert (g_bits g = to + b)%nat as Hbits by lia.
  rewrite Hbits in Hb. destruct (take_bits to b (g_buff g)) as (Hy & Hr & Hst); [lia|done|].
  assert (g_idx g < length (g_out g))%nat as Hidx by nia.
  unfold upd. rewrite (proj2 (Nat.ltb_lt _ _) Hidx). cbn [mbind res_mbind].
  set (x := Z.shiftr (g_buff g) (Z.of_nat b) mod 2 ^ 8) in *.
  destruct (IH (mkRegroup (<[g_idx g := x]> (g_out g)) (S (g_idx g))
    (Z.land (g_buff g) (Z.shiftl 1 (Z.of_nat b) - 1)) b)) as (g' & e & Hg & Hout & Hix & Hbt & Hbf & He & Hs);
    cbn [g_out g_idx g_buff g_bits]; rewrite ?length_insert; [lia|done|lia|lia|].
  exists g', (x :: e). split; [exact Hg|]. cbn [g_out g_idx g_buff g_bits] in *.
  split; [by rewrite Hout, insert_window|]. split; [simpl; lia|]. split; [done|]. split; [done|].
  split; [by constructor|]. rewrite Hbits, Hst. unfold stream. rewrite fmap_cons. cbn [concat].
  rewrite <- (assoc_L (++)). f_equal. exact Hs.
Qed.

Lemma gave_trans to g1 g2 g3 e1 e2 i1 i2 :
  (g_idx g1 + length e1 ≤ length (g_out g1))%nat →
  gave to g1 g2 e1 i1 → gave to g2 g3 e2 (bitsof (g_bits g2) (g_buff g2) ++ i2) → gave to g1 g3 (e1 ++ e2) (i1 ++ i2).
Proof.
  intros Hl (Ho1 & Hx1 & Hb1 & Hf1 & He1 & Hs1) (Ho2 & Hx2 & Hb2 & Hf2 & He2 & Hs2).
  assert (length (take (g_idx g1) (g_out g1)) = g_idx g1) as Ht by (rewrite length_take; lia).
  split; [|split; [rewrite length_app; lia|split; [done|split; [done|split; [by apply Forall_app|]]]]].
  - rewrite Ho2, Ho1, Hx1, length_app, !(assoc_L (++)).
    assert (length (take (g_idx g1) (g_out g1) ++ e1) = (g_idx g1 + length e1)%nat) as Hte by (rewrite length_app; lia).
    rewrite take_app_length' by done. rewrite <- Hte, drop_app_add, Hte, drop_drop. do 2 f_equal. lia.
  - rewrite stream_app, <- (assoc_L (++)), Hs2, (assoc_L (++)), Hs1. done.
Qed.

Lemma regroup_spec {E} from to l g :
  (0 < to ≤ 8)%nat → (from + to ≤ 16)%nat → Forall (in_u (Z.of_nat from)) l →
  (g_bits g < to)%nat → in_u (Z.of_nat (g_bits g)) (g_buff g) → (g_idx g ≤ length (g_out g))%nat →
  (g_idx g * to + g_bits g + from * length l ≤ length (g_out g) * to + (to - 1))%nat →
  ∃ g' e, @regroup E from to l g = Ok g' ∧ gave to g g' e (bitsof (g_bits g) (g_buff g) ++ stream from l).
Proof.
  intros Hto Hw Hl. revert g. induction Hl as [|c l Hc Hl IH]; intros g Hb Hbf Hi Hsp; cbn [regroup].
  { exists g, []. split; [done|]. unfold stream. simpl. rewrite app_nil_r. by apply gave_nil. }
  assert (in_u 16 (Z.shiftl (g_buff g) (Z.of_nat from))) as Hsh.
  { pose proof (shiftl_in_u _ from _ Hbf) as Hs. unfold in_u in *.
    assert (2 ^ Z.of_nat (g_bits g + from) ≤ 2 ^ 16) by (apply Z.pow_le_mono_r; lia). lia. }
  rewrite (Z.mod_small _ (2 ^ 16)) by exact Hsh.
  destruct (push_bits (g_bits g) from (g_buff g) c Hbf Hc) as [Hr Hp].
  cbn [length] in Hsp.
  destruct (give_spec (E := E) to (g_bits g + from) (mkRegroup (g_out g) (g_idx g)
    (Z.lor (Z.shiftl (g_buff g) (Z.of_nat from)) c) (g_bits g + from))) as (g1 & e1 & -> & Hg1);
    cbn [g_out g_idx g_buff g_bits]; [done|lia|done|done|nia|].
  cbn [mbind res_mbind]. pose proof (gave_length _ _ _ _ _ Hg1) as Hlen. cbn [g_bits g_buff] in Hlen.
  rewrite length_bitsof in Hlen. pose proof Hg1 as (Ho & Hx & Hb1 & Hf1 & _). cbn [g_out g_idx] in Ho, Hx.
  assert (g_idx g + length e1 ≤ length (g_out g))%nat as Hfit by nia.
  assert (length (g_out g1) = length (g_out g)) as Hlo.
  { rewrite Ho, !length_app, length_take, length_drop. lia. }
  destruct (IH g1) as (g' & e2 & -> & Hg2); [done|done|lia|nia|].
  exists g', (e1 ++ e2). split; [done|].
  unfold stream. rewrite fmap_cons. cbn [concat]. rewrite (assoc_L (++)). rewrite <- Hp.
  exact (gave_trans to (mkRegroup _ _ _ _) g1 g' e1 e2 _ _ Hfit Hg1 Hg2).
Qed.

(** What [conv8to5] returns: the bits of the bytes with less than five zeros after them. *)
Lemma conv8to5_spec {E} l :
  is_bytes l →
  ∃ e k, @conv8to5 E l = Ok e ∧ Forall (in_u 5) e ∧ (k < 5)%nat ∧ stream 5 e = stream 8 l ++ replicate k false.
Proof.
  intros Hl. unfold conv8to5. set (out := replicate _ _).
  pose proof (Nat.div_mod_eq (length l * 8) 5) as Hdm. pose proof (Nat.mod_upper_bound (length l * 8) 5) as Hmb.
  pose proof (Nat.div_mod_eq (length l) 5) as Hdl. pose proof (Nat.mod_upper_bound (length l) 5) as Hml.
  assert (length out = length l * 8 / 5 + (if decide (length l mod 5 = 0)%nat then 0 else 1))%nat as Hout.
  { unfold out. rewrite length_replicate. by destruct (Nat.eqb_spec (length l mod 5) 0), (decide (length l mod 5 = 0)%nat). }
  destruct (regroup_spec (E := E) 8 5 l (mkRegroup out 0 0 0)) as (g & e & -> & Hg);
    cbn [g_out g_idx g_buff g_bits]; [lia|lia|done|lia|by unfold in_u|lia| |].
  { case_decide; lia. }
  cbn [mbind res_mbind]. pose proof (gave_length _ _ _ _ _ Hg) as Hlen. cbn [g_bits g_buff bitsof app] in Hlen.
  rewrite length_stream in Hlen. destruct Hg as (Ho & Hx & Hb & Hbf & He & Hs). cbn [g_out g_idx] in Ho, Hx.
  rewrite take_0 in Ho. cbn [app] in Ho. cbn [g_bits bitsof app] in Hs.
  destruct (Nat.ltb_spec 0 (g_bits g)) as [Hpos|Hz].
  - assert (length out = S (length e)) as Hlo by (case_decide; lia).
    unfold upd. rewrite (proj2 (Nat.ltb_lt _ _)).
    2:{ rewrite Hx, Ho, length_app, length_drop. lia. }
    set (b := g_bits g) in *. set (x := Z.shiftl (g_buff g) (Z.of_nat (5 - b)) mod 2 ^ 16 mod 2 ^ 8).
    assert (x = Z.lor (Z.shiftl (g_buff g) (Z.of_nat (5 - b))) 0) as Hxv.
    { rewrite Z.lor_0_r. pose proof (shiftl_in_u b (5 - b) _ Hbf) as Hs5. replace (b + (5 - b))%nat with 5%nat in Hs5 by lia.
      unfold in_u in Hs5. unfold x. change (2 ^ Z.of_nat 5) with 32 in Hs5. rewrite (Z.mod_small _ (2 ^ 16)), (Z.mod_small _ (2 ^ 8)) by lia. done. }
    destruct (push_bits b (5 - b) (g_buff g) 0 Hbf) as [Hr Hp]; [split; [lia|apply Z.pow_pos_nonneg; lia]|].
    rewrite <- Hxv in Hr, Hp. replace (b + (5 - b))%nat with 5%nat in Hr, Hp by lia.
    exists (e ++ [x]), (5 - b)%nat. split.
    { f_equal. rewrite Hx, Ho. cbn [Nat.add]. rewrite insert_app_r_alt by lia. rewrite Nat.sub_diag. f_equal.
      destruct (drop (length e) out) as [|y r] eqn:Hd; apply (f_equal length) in Hd; rewrite length_drop in Hd; simpl in Hd; [lia|].
      destruct r; [done|simpl in Hd; lia]. }
    split; [apply Forall_app; split; [exact He|by constructor]|]. split; [lia|].
    rewrite stream_app, <- Hs, <- (assoc_L (++)). f_equal. rewrite stream_one, Hp. f_equal.
    clear. induction (5 - b)%nat as [|n IH]; simpl; [done|]. by rewrite IH, Z.bits_0.
  - exists e, 0%nat. assert (g_bits g = 0)%nat as Hb0 by lia.
    assert (length out = length e) as Hlo by (case_decide; lia).
    split; [f_equal; rewrite Ho; cbn [Nat.add]; rewrite drop_ge by lia; apply app_nil_r|]. split; [exact He|]. split; [lia|].
    rewrite Hb0 in Hs. simpl in *. by rewrite app_nil_r in *.
Qed.

Lemma conv5to8_spec {E} l :
  Forall (in_u 5) l →
  ∃ e r, @conv5to8 E l = Ok e ∧ is_bytes e ∧ (length r < 8)%nat ∧ stream 8 e ++ r = stream 5 l.
Proof.
  intros Hl. unfold conv5to8. set (out := replicate _ _).
  pose proof (Nat.div_mod_eq (length l * 5) 8) as Hdm. pose proof (Nat.mod_upper_bound (length l * 5) 8) as Hmb.
  assert (length out = length l * 5 / 8)%nat as Hout by apply length_replicate.
  destruct (regroup_spec (E := E) 5 8 l (mkRegroup out 0 0 0)) as (g & e & -> & Hg);
    cbn [g_out g_idx g_buff g_bits]; [lia|lia|done|lia|by unfold in_u|lia|lia|].
  pose proof (gave_length _ _ _ _ _ Hg) as Hlen. cbn [g_bits g_buff bitsof app] in Hlen.
  rewrite length_stream in Hlen. destruct Hg as (Ho & Hx & Hb & Hbf & He & Hs). cbn [g_out g_idx] in Ho, Hx.
  exists e, (bitsof (g_bits g) (g_buff g)). split.
  { cbn [mbind res_mbind]. f_equal. rewrite Ho, take_0. cbn [app Nat.add]. rewrite drop_ge by lia. apply app_nil_r. }
  split; [exact He|]. split; [by rewrite length_bitsof|exact Hs].
Qed.

Lemma conv_roundtrip {E} l e : is_bytes l → @conv8to5 E l = Ok e → Forall (in_u 5) e ∧ @conv5to8 E e = Ok l.
Proof.
  intros Hl He. destruct (conv8to5_spec (E := E) l Hl) as (e' & k & He' & Hf & Hk & Hs).
  rewrite He in He'. injection He' as <-. split; [done|].
  destruct (conv5to8_spec (E := E) e Hf) as (d & r & -> & Hd & Hr & Hs'). f_equal.
  rewrite Hs in Hs'. pose proof (f_equal length Hs') as Hlen. rewrite !length_app, !length_stream, length_replicate in Hlen.
  apply (stream_inj 8 d l r (replicate k false)); [done|done|lia|done].
Qed.

Lemma conv5to8_inj {E} a b d :
  Forall (in_u 5) a → Forall (in_u 5) b → length a = 8%nat → length b = 8%nat →
  @conv5to8 E a = Ok d → @conv5to8 E b = Ok d → a = b.
Proof.
  intros Ha Hb Hla Hlb Hda Hdb. destruct (conv5to8_spec (E := E) a Ha) as (d1 & r1 & H1 & _ & Hr1 & Hs1).
  destruct (conv5to8_spec (E := E) b Hb) as (d2 & r2 & H2 & _ & Hr2 & Hs2). simplify_eq.
  pose proof (f_equal length Hs1) as Hn1. pose proof (f_equal length Hs2) as Hn2.
  rewrite length_app, !length_stream in Hn1, Hn2.
  assert (r1 = []) as -> by (apply length_zero_iff_nil; lia). assert (r2 = []) as -> by (apply length_zero_iff_nil; lia).
  apply (stream_inj 5 a b [] []); [done|done|lia|]. rewrite !app_nil_r. congruence.
Qed.

(** ** The checksum step is injective *)

Lemma lxor_in_u w a b : 0 ≤ w → in_u w a → in_u w b → in_u w (Z.lxor a b).
Proof.
  intros Hw Ha Hb. assert (Z.lxor a b = Z.lxor a b mod 2 ^ w) as ->; [|apply Z.mod_pos_bound; lia].
  apply Z.bits_inj'. intros i Hi. destruct (Z.lt_ge_cases i w); [by rewrite Z.mod_pow2_bits_low|].
  rewrite Z.mod_pow2_bits_high, Z.lxor_spec, (testbit_high w a), (testbit_high w b) by (done || lia). done.
Qed.

Lemma lxor_cancel_r a b c : Z.lxor a c = Z.lxor b c → a = b.
Proof. intros Heq. apply (f_equal (λ x, Z.lxor x c)) in Heq. by rewrite !Z.lxor_assoc, Z.lxor_nilpotent, !Z.lxor_0_r in Heq. Qed.

(** What the bits shifted out bring in. *)
Definition feedback (k : Z) : Z :=
  Z.lxor (if Z.land k 0x01 =? 0 then 0 else 0x98f2bc8e61)
  (Z.lxor (if Z.land k 0x02 =? 0 then 0 else 0x79b76d99e2)
  (Z.lxor (if Z.land k 0x04 =? 0 then 0 else 0xf33e5fb3c4)
  (Z.lxor (if Z.land k 0x08 =? 0 then 0 else 0xae2eabe2a8)
    (if Z.land k 0x10 =? 0 then 0 else 0x1e4f43e470)))).

Lemma polymod_step_feedback c d :
  polymod_step c d =
  Z.lxor (Z.lxor (Z.shiftl (Z.land c 0x07ffffffff) 5) d) (feedback (Z.shiftr c 35)).
Proof.
  unfold polymod_step, feedback. repeat case_match; rewrite ?Z.lxor_0_l, ?Z.lxor_0_r, ?Z.lxor_assoc; done.
Qed.

Lemma feedback_low k : in_u 5 k → in_u 40 (feedback k) ∧ Z.land (feedback k) (Z.ones 5) = k.
Proof.
  intros Hk. assert (Forall (λ k, in_u 40 (feedback k) ∧ Z.land (feedback k) (Z.ones 5) = k) (seqZ 0 32)) as Hall.
  { apply (bool_decide_unpack _). vm_compute. done. }
  rewrite Forall_forall in Hall. apply Hall, elem_of_seqZ. unfold in_u in Hk. lia.
Qed.

Lemma top_bits c : in_u 40 c → in_u 5 (Z.shiftr c 35).
Proof.
  unfold in_u. intros Hc. rewrite Z.shiftr_div_pow2 by lia. split; [apply Z.div_pos; lia|].
  apply Z.div_lt_upper_bound; lia.
Qed.

Lemma low_bits c : 0 ≤ c → Z.land c 0x07ffffffff = c mod 2 ^ 35.
Proof. intros Hc. change 0x07ffffffff with (Z.ones 35). by apply Z.land_ones. Qed.

Lemma polymod_step_range c d : in_u 40 c → in_u 5 d → in_u 40 (polymod_step c d).
Proof.
  intros Hc Hd. rewrite polymod_step_feedback. apply lxor_in_u; [done| |by apply feedback_low, top_bits].
  apply lxor_in_u; [done| |unfold in_u in *; lia]. unfold in_u in *. rewrite low_bits, Z.shiftl_mul_pow2 by lia.
  pose proof (Z.mod_pos_bound c (2 ^ 35)). lia.
Qed.

(** The low bits of the result give the bits that were shifted out. *)
Lemma polymod_step_low c d :
  in_u 40 c → in_u 5 d → Z.land (polymod_step c d) (Z.ones 5) = Z.lxor d (Z.shiftr c 35).
Proof.
  intros Hc Hd. rewrite polymod_step_feedback. destruct (feedback_low _ (top_bits c Hc)) as [_ Hf].
  rewrite <- Hf at 2. apply Z.bits_inj'. intros i Hi. rewrite !Z.land_spec, !Z.lxor_spec, Z.land_spec.
  destruct (Z.lt_ge_cases i 5).
  - rewrite Z.shiftl_spec_low by done. by rewrite Z.ones_spec_low, !andb_true_r, xorb_false_l by lia.
  - rewrite Z.ones_spec_high, !andb_false_r by lia. by rewrite (testbit_high 5 d i) by (done || lia).
Qed.

Lemma polymod_step_inj c c' d : in_u 40 c → in_u 40 c' → in_u 5 d → polymod_step c d = polymod_step c' d → c = c'.
Proof.
  intros Hc Hc' Hd Heq. pose proof (f_equal (λ x, Z.land x (Z.ones 5)) Heq) as Hk. cbn beta in Hk.
  rewrite !polymod_step_low in Hk by done. rewrite !(Z.lxor_comm d) in Hk. apply lxor_cancel_r in Hk.
  rewrite !polymod_step_feedback, Hk in Heq. do 2 apply lxor_cancel_r in Heq.
  unfold in_u in *. rewrite !low_bits, !Z.shiftl_mul_pow2 in Heq by lia. rewrite !Z.shiftr_div_pow2 in Hk by lia.
  pose proof (Z.div_mod c (2 ^ 35)). pose proof (Z.div_mod c' (2 ^ 35)). lia.
Qed.

Lemma polymod_step_inj_r c d d' : polymod_step c d = polymod_step c d' → d = d'.
Proof.
  rewrite !polymod_step_feedback. intros Heq%lxor_cancel_r. rewrite !(Z.lxor_comm (Z.shiftl _ _)) in Heq.
  by apply lxor_cancel_r in Heq.
Qed.

Lemma polymod_fold_inj l c c' :
  Forall (in_u 5) l → in_u 40 c → in_u 40 c' → foldl polymod_step c l = foldl polymod_step c' l → c = c'.
Proof.
  intros Hl. revert c c'. induction Hl as [|d l Hd Hl IH]; intros c c' Hc Hc'; simpl; [done|].
  intros Heq. apply IH in Heq; [|by apply polymod_step_range..]. by apply polymod_step_inj in Heq.
Qed.

Lemma polymod_fold_range l c : Forall (in_u 5) l → in_u 40 c → in_u 40 (foldl polymod_step c l).
Proof. intros Hl. revert c. induction Hl; intros c Hc; simpl; [done|]. by apply IHHl, polymod_step_range. Qed.

Lemma polymod_range l : Forall (in_u 5) l → in_u 40 (polymod l).
Proof. intros Hl. apply lxor_in_u; [done|by apply polymod_fold_range|done]. Qed.

(** One changed symbol changes the checksum. *)
Lemma polymod_one a b x y :
  Forall (in_u 5) (a ++ x :: b) → in_u 5 y → polymod (a ++ x :: b) = polymod (a ++ y :: b) → x = y.
Proof.
  intros Hl Hy. apply Forall_app in Hl as [Ha Hb]. apply Forall_cons in Hb as [Hx Hb].
  unfold polymod. intros Heq%lxor_cancel_r. rewrite !foldl_app in Heq. simpl in Heq.
  assert (in_u 40 (foldl polymod_step 1 a)) as Hc by (by apply polymod_fold_range).
  apply polymod_fold_inj in Heq; [|done|by apply polymod_step_range..]. by apply polymod_step_inj_r in Heq.
Qed.

Lemma checksum_one a b x y p :
  Forall (in_u 5) (a ++ x :: b) → in_u 5 y → Forall (in_u 5) p →
  checksum (a ++ x :: b) p = checksum (a ++ y :: b) p → x = y.
Proof.
  intros Hl Hy Hp. unfold checksum. rewrite !(assoc_L (++)).
  rewrite <- !(assoc_L (++) ((p ++ [0]) ++ a)). cbn [app].
  apply polymod_one; [|done]. apply Forall_app in Hl as [Ha Hb]. rewrite !Forall_app.
  split; [split; [split; [done|by constructor]|done]|]. apply Forall_cons in Hb as [Hx Hb].
  constructor; [done|]. apply Forall_app. split; [done|]. by apply Forall_replicate.
Qed.

(** ** Letters *)

Definition rev_char (b : Z) : Z := default 100 (REV_CHARSET !! Z.to_nat b).

Lemma rev_char_ok b : in_u 8 b → rev_char b ≠ 100 → in_u 5 (rev_char b) ∧ CHARSET !! Z.to_nat (rev_char b) = Some b.
Proof.
  intros Hb Hr.
  assert (Forall (λ b, rev_char b = 100 ∨ in_u 5 (rev_char b) ∧ CHARSET !! Z.to_nat (rev_char b) = Some b) (seqZ 0 256)) as Hall.
  { apply (bool_decide_unpack _). vm_compute. done. }
  rewrite Forall_forall in Hall. destruct (Hall b) as [|?]; [apply elem_of_seqZ; unfold in_u in Hb; lia|done|done].
Qed.

Lemma charset_ok c : in_u 5 c → ∃ b, CHARSET !! Z.to_nat c = Some b ∧ in_u 8 b ∧ rev_char b = c ∧ b ≠ 58.
Proof.
  intros Hc.
  set (b c := default 0 (CHARSET !! Z.to_nat c)).
  assert (Forall (λ c, CHARSET !! Z.to_nat c = Some (b c) ∧ in_u 8 (b c) ∧ rev_char (b c) = c ∧ b c ≠ 58) (seqZ 0 32)) as Hall.
  { apply (bool_decide_unpack _). vm_compute. done. }
  rewrite Forall_forall in Hall. eexists. apply Hall, elem_of_seqZ. unfold in_u in Hc. lia.
Qed.

Lemma from_chars_app a b :
  from_chars (a ++ b) = la ← from_chars a; lb ← from_chars b; Ok (la ++ lb).
Proof.
  induction a as [|c a IH]; simpl; [by destruct (from_chars b)|]. destruct (_ =? 100); [done|].
  rewrite IH. destruct (from_chars a); simpl; [|done..]. by destruct (from_chars b).
Qed.

Lemma from_chars_range s l : is_bytes s → from_chars s = Ok l → Forall (in_u 5) l ∧ length l = length s.
Proof.
  intros Hs. revert l. induction Hs as [|b s Hb Hs IH]; intros l; simpl; [by intros [= <-]|].
  fold (rev_char b). destruct (Z.eqb_spec (rev_char b) 100); [done|]. destruct (from_chars s) as [r| |]; [|done..].
  intros [= <-]. destruct (IH r eq_refl). split; [constructor; [by apply rev_char_ok|done]|simpl; by f_equal].
Qed.

Lemma to_chars_ok {E} l : Forall (in_u 5) l →
  ∃ s, @to_chars E l = Ok s ∧ length s = length l ∧ is_bytes s ∧ from_chars s = Ok l.
Proof.
  induction 1 as [|c l Hc Hl IH]; simpl; [exists []; split; [done|]; split; [done|]; by split; [constructor|]|].
  destruct (charset_ok c Hc) as (b & Hb & Hu & Hr & _). destruct IH as (s & Hs & Hlen & Hsb & Hf).
  unfold idx. rewrite Hb. simpl. rewrite Hs. simpl. exists (b :: s). split; [done|]. split; [simpl; by f_equal|].
  split; [by apply is_bytes_cons|]. simpl. fold (rev_char b). rewrite Hr. unfold in_u in Hc.
  rewrite (proj2 (Z.eqb_neq c 100)) by lia. by rewrite Hf.
Qed.

Lemma fivebit_range s : Forall (in_u 5) (fivebit s).
Proof.
  unfold fivebit. apply Forall_fmap, Forall_true. intros x. unfold compose.
  change 0x1f with (Z.ones 5). rewrite Z.land_ones by lia. apply Z.mod_pos_bound. lia.
Qed.

Lemma checksum_range l p : Forall (in_u 5) l → Forall (in_u 5) p → in_u 40 (checksum l p).
Proof.
  intros Hl Hp. apply polymod_range. rewrite !Forall_app. split; [done|]. split; [by repeat constructor|].
  split; [done|]. by apply Forall_replicate.
Qed.

(** The bytes after the first three of a 40-bit number. *)
Lemma be_bytes_tail x : in_u 40 x → replicate 3 0 ++ drop 3 (be_bytes 8 x) = be_bytes 8 x.
Proof.
  intros Hx. rewrite <- (take_drop 3 (be_bytes 8 x)) at 2. f_equal. unfold in_u in Hx. unfold be_bytes.
  cbn [le_bytes]. repeat (rewrite Z.div_div by lia). unfold reverse. cbn [rev_append take].
  rewrite !(Z.div_small x) by lia. done.
Qed.

(** ** Encoded bytes *)

(** The text of any bytes under a human-readable part, with its checksum. *)
Definition encode_raw {E} (hrp l : bytes) : res E bytes :=
  fivebit_payload ← conv8to5 l;
  tail ← conv8to5 (drop 3 (be_bytes 8 (checksum fivebit_payload (fivebit hrp))));
  to_chars (fivebit_payload ++ tail).

(** How such a text is decoded. *)
Definition decode_raw (p : Prefix) (l : bytes) : res AddressError Address :=
  match l with
  | [] => Panic
  | v :: pl =>
      v ← version_try_from v;
      address_new p v pl
  end.

Lemma conv_len8 {E} l e : is_bytes l → length l = 5%nat → @conv8to5 E l = Ok e → length e = 8%nat.
Proof.
  intros Hl Hn He. destruct (conv8to5_spec (E := E) l Hl) as (e' & k & He' & _ & Hk & Hs).
  rewrite He in He'. injection He' as <-. apply (f_equal length) in Hs.
  rewrite length_app, !length_stream, length_replicate in Hs. lia.
Qed.

Lemma decode_encoded p hrp l :
  is_bytes l →
  ∃ s, encode_raw (E := AddressError) hrp l = Ok s ∧ is_bytes s ∧ decode_payload p hrp s = decode_raw p l.
Proof.
  intros Hl. unfold encode_raw. destruct (conv8to5_spec (E := AddressError) l Hl) as (e & k & He & Hf & _ & _).
  rewrite He. cbn [mbind res_mbind]. set (sum := checksum e (fivebit hrp)).
  assert (in_u 40 sum) as Hsum by (apply checksum_range; [done|apply fivebit_range]).
  set (t := drop 3 (be_bytes 8 sum)). assert (is_bytes t) as Ht by (apply is_bytes_drop, be_bytes_is_bytes).
  destruct (conv8to5_spec (E := AddressError) t Ht) as (u & k' & Hu & Huf & _ & _). rewrite Hu. cbn [mbind res_mbind].
  destruct (to_chars_ok (E := AddressError) (e ++ u)) as (s & Hs & Hlen & Hsb & Hfr); [apply Forall_app; exact (conj Hf Huf)|].
  exists s. split; [exact Hs|]. split; [exact Hsb|].
  assert (length u = 8%nat) as Hu8.
  { eapply conv_len8; [exact Ht| |exact Hu]. unfold t. by rewrite length_drop, length_be_bytes. }
  rewrite length_app in Hlen. unfold decode_payload. rewrite Hfr. cbn [mbind res_mbind].
  rewrite (proj2 (Nat.ltb_ge _ _)) by lia.
  replace (length s - 8)%nat with (length e) by lia. rewrite take_app_length, drop_app_length.
  destruct (conv_roundtrip t u Ht Hu) as [_ ->]. destruct (conv_roundtrip l e Hl He) as [_ ->].
  cbn [mbind res_mbind]. unfold t. rewrite (be_bytes_tail sum Hsum), length_be_bytes.
  rewrite of_be_bytes_be_bytes by (unfold in_u in *; simpl; lia). fold sum. rewrite Z.eqb_refl. cbn [negb Nat.eqb].
  destruct l as [|v pl]; [done|]. done.
Qed.

Lemma split_colon_app hrp s : 58 ∉ hrp → split_colon (hrp ++ text ":" ++ s) = Some (hrp, s).
Proof.
  induction hrp as [|c hrp IH]; intros Hn; [done|]. apply not_elem_of_cons in Hn as [Hc Hn].
  cbn [app split_colon]. rewrite (proj2 (Z.eqb_neq c 58)) by done. by rewrite IH.
Qed.

Lemma prefix_no_colon hrp p : prefix_try_from hrp = Ok p → 58 ∉ hrp.
Proof.
  unfold prefix_try_from. repeat case_bool_decide; intros Hp; try discriminate Hp; clear Hp; destruct_or?; subst;
    apply (bool_decide_unpack _); vm_compute; done.
Qed.

Lemma prefix_roundtrip p : prefix_try_from (prefix_as_str p) = Ok p.
Proof. by destruct p. Qed.

Lemma version_roundtrip v : version_try_from (version_byte v) = Ok v.
Proof. by destruct v. Qed.

Lemma try_from_app hrp p s : prefix_try_from hrp = Ok p → address_try_from (hrp ++ text ":" ++ s) = decode_payload p hrp s.
Proof.
  intros Hp. unfold address_try_from. rewrite split_colon_app by (by eapply prefix_no_colon). by rewrite Hp.
Qed.

(** The part of the decoder that comes before the payload is looked at. *)
Definition checksum_ok (hrp : bytes) (n : nat) (l : list Z) : Prop :=
  ∃ sum, conv5to8 (E := AddressError) (drop (n - 8) l) = Ok sum ∧ length sum = 5%nat ∧
    checksum (take (n - 8) l) (fivebit hrp) = of_be_bytes (replicate 3 0 ++ sum).

Lemma decode_inv p hrp s a :
  decode_payload p hrp s = Ok a →
  ∃ l, from_chars s = Ok l ∧ (8 ≤ length s)%nat ∧ checksum_ok hrp (length s) l.
Proof.
  unfold decode_payload. destruct (from_chars s) as [l| |]; [|done..]. cbn [mbind res_mbind].
  destruct (Nat.ltb_spec (length s) 8); [done|]. destruct (conv5to8 (drop (length s - 8) l)) as [sum| |] eqn:Hc; [|done..]. cbn [mbind res_mbind].
  destruct (Nat.eqb_spec (length (replicate 3 0%Z ++ sum)) 8) as [Hn|]; [|done]. cbn [negb].
  destruct (Z.eqb_spec (checksum (take (length s - 8) l) (fivebit hrp)) (of_be_bytes (replicate 3 0 ++ sum))); [|done].
  intros _. exists l. split; [done|]. split; [done|]. exists sum. split; [done|]. split; [|done].
  rewrite length_app in Hn. simpl in Hn. lia.
Qed.

Lemma conv_tail_ok l :
  Forall (in_u 5) l → (8 ≤ length l)%nat →
  ∃ sum, conv5to8 (E := AddressError) (drop (length l - 8) l) = Ok sum ∧ is_bytes sum ∧ length sum = 5%nat.
Proof.
  intros Hl Hn. destruct (conv5to8_spec (E := AddressError) (drop (length l - 8) l)) as (sum & r & Hc & Hb & Hr & Hs).
  { by apply Forall_drop. }
  exists sum. split; [done|]. split; [done|]. apply (f_equal length) in Hs.
  rewrite length_app, !length_stream, length_drop in Hs. lia.
Qed.

Lemma be_value_inj a b : is_bytes a → is_bytes b → length a = length b → of_be_bytes a = of_be_bytes b → a = b.
Proof. intros Ha Hb Hl Heq. rewrite <- (be_bytes_of_be_bytes a), <- (be_bytes_of_be_bytes b) by done. congruence. Qed.

(** Two lists of groups that differ in one place do not both have a right checksum. *)
Lemma checksum_typo hrp la lb u v :
  Forall (in_u 5) (la ++ u :: lb) → in_u 5 v → (8 ≤ length (la ++ u :: lb))%nat →
  checksum_ok hrp (length (la ++ u :: lb)) (la ++ u :: lb) →
  checksum_ok hrp (length (la ++ u :: lb)) (la ++ v :: lb) → u = v.
Proof.
  intros Hl Hv H8 (sum & Hc & Hn & Hk) (sum' & Hc' & Hn' & Hk').
  set (n := (length (la ++ u :: lb) - 8)%nat) in *. assert (length (la ++ u :: lb) = n + 8)%nat as Hlen by lia.
  assert (Forall (in_u 5) (la ++ v :: lb)) as Hl'.
  { apply Forall_app in Hl as [? [? ?]%Forall_cons]. apply Forall_app. split; [done|]. by constructor. }
  assert (length (la ++ v :: lb) = n + 8)%nat as Hlen' by (rewrite length_app in *; simpl in *; lia).
  destruct (Nat.lt_ge_cases (length la) n) as [Hlt|Hge].
  - set (m := (n - length la - 1)%nat). assert (∀ w, take n (la ++ w :: lb) = la ++ w :: take m lb) as Ht.
    { intros w. rewrite take_app_ge by lia. f_equal. replace (n - length la)%nat with (S m) by lia. done. }
    assert (∀ w, drop n (la ++ w :: lb) = drop m lb) as Hd.
    { intros w. rewrite drop_app_ge by lia. replace (n - length la)%nat with (S m) by lia. done. }
    rewrite Hd in Hc, Hc'. rewrite Hc in Hc'. injection Hc' as <-. rewrite Ht in Hk, Hk'.
    apply (checksum_one la (take m lb) u v (fivebit hrp)); [|done|apply fivebit_range|congruence].
    rewrite <- Ht. by apply Forall_take.
  - rewrite !take_app_le in Hk, Hk' by lia. rewrite Hk in Hk'.
    destruct (conv_tail_ok _ Hl) as (s1 & H1 & Hb1 & _); [done|]. fold n in H1. rewrite Hc in H1. injection H1 as <-.
    destruct (conv_tail_ok _ Hl') as (s2 & H2 & Hb2 & _); [lia|].
    replace (length (la ++ v :: lb) - 8)%nat with n in H2 by lia. rewrite Hc' in H2. injection H2 as <-.
    apply be_value_inj in Hk'; [|by apply is_bytes_app; split; [repeat constructor|]..|by rewrite !length_app, Hn, Hn'].
    apply app_inv_head in Hk' as <-.
    assert (drop n (la ++ u :: lb) = drop n (la ++ v :: lb)) as Heq.
    { apply (conv5to8_inj (E := AddressError) _ _ sum); [by apply Forall_drop..| | |done|done]; rewrite length_drop; lia. }
    rewrite !drop_app_le in Heq by lia. apply app_inj_1 in Heq as [_ Heq]; [by injection Heq|done].
Qed.

Lemma decode_bad_checksum p hrp s l :
  is_bytes s → from_chars s = Ok l → (8 ≤ length s)%nat → ¬ checksum_ok hrp (length s) l →
  decode_payload p hrp s = Err BadChecksum.
Proof.
  intros Hs Hl Hn Hk. destruct (from_chars_range s l Hs Hl) as [Hf Hlen]. unfold decode_payload. rewrite Hl.
  cbn [mbind res_mbind]. rewrite (proj2 (Nat.ltb_ge _ _)) by lia.
  destruct (conv_tail_ok l Hf) as (sum & Hc & Hb & Hsl); [lia|]. rewrite Hlen in Hc. rewrite Hc. cbn [mbind res_mbind].
  rewrite length_app, length_replicate, Hsl. cbn [Nat.add Nat.eqb negb].
  destruct (Z.eqb_spec (checksum (take (length s - 8) l) (fivebit hrp)) (of_be_bytes (replicate 3 0 ++ sum))); [|done].
  destruct Hk. by exists sum.
Qed.

Lemma decode_typo p hrp a b x y l :
  is_bytes (a ++ x :: b) → in_u 8 y → x ≠ y → from_chars (a ++ x :: b) = Ok l →
  (8 ≤ length (a ++ x :: b))%nat → checksum_ok hrp (length (a ++ x :: b)) l →
  decode_payload p hrp (a ++ y :: b) = Err BadChecksum ∨ decode_payload p hrp (a ++ y :: b) = Err (DecodingError y).
Proof.
  intros Hs Hy Hxy Hl H8 Hk. pose proof (from_chars_range _ _ Hs Hl) as [Hf Hlen].
  assert (is_bytes (a ++ y :: b)) as Hs'.
  { apply is_bytes_app in Hs as [? Hs]. apply is_bytes_cons in Hs as [? ?]. apply is_bytes_app. split; [done|]. by apply is_bytes_cons. }
  assert (length (a ++ y :: b) = length (a ++ x :: b)) as Hsl by (rewrite !length_app; done).
  rewrite from_chars_app in Hl. destruct (from_chars a) as [la| |] eqn:Ha; [|done..]. cbn [mbind res_mbind from_chars] in Hl.
  fold (rev_char x) in Hl. destruct (Z.eqb_spec (rev_char x) 100) as [|Hx]; [done|].
  destruct (from_chars b) as [lb| |] eqn:Hb; [|done..]. cbn [mbind res_mbind] in Hl. injection Hl as <-.
  destruct (Z.eqb_spec (rev_char y) 100) as [Hy1|Hy1].
  { right. unfold decode_payload. rewrite from_chars_app, Ha. cbn [mbind res_mbind from_chars]. fold (rev_char y).
    by rewrite Hy1. }
  left. apply (decode_bad_checksum p hrp _ (la ++ rev_char y :: lb)); [done| |lia|].
  { rewrite from_chars_app, Ha. cbn [mbind res_mbind from_chars]. fold (rev_char y). rewrite (proj2 (Z.eqb_neq _ _)) by done.
    by rewrite Hb. }
  rewrite Hsl, <- Hlen in *. intros Hk'. destruct Hxy.
  assert (in_u 8 x) as Hx8 by (apply is_bytes_app in Hs as [_ Hs]; by apply is_bytes_cons in Hs as [? _]).
  destruct (rev_char_ok x Hx8 Hx) as [_ Hcx]. destruct (rev_char_ok y Hy Hy1) as [Hy5 Hcy].
  assert (rev_char x = rev_char y) as Heq by (by eapply checksum_typo). rewrite Heq in Hcx. congruence.
Qed.

(** ** Correctness *)

Definition address_wf (a : Address) : Prop := is_bytes (payload a) ∧ length (payload a) = public_key_len (version a).

(** The text of a well-formed address is read back as that address. *)
Theorem address_roundtrip a :
  address_wf a → ∃ s, address_to_string (E := AddressError) a = Ok s ∧ address_try_from s = Ok a.
Proof.
  intros [Hb Hl]. assert (is_bytes (version_byte (version a) :: payload a)) as Hv.
  { apply is_bytes_cons. split; [by destruct (version a)|done]. }
  destruct (decode_encoded (prefix a) (prefix_as_str (prefix a)) _ Hv) as (s & Hs & _ & Hd).
  exists (prefix_as_str (prefix a) ++ text ":" ++ s).
  unfold address_to_string. change (encode_payload a) with (encode_raw (E := AddressError) (prefix_as_str (prefix a))
    (version_byte (version a) :: payload a)). rewrite Hs. split; [done|].
  rewrite (try_from_app _ _ _ (prefix_roundtrip _)), Hd. unfold decode_raw. rewrite version_roundtrip. simpl.
  unfold address_new, assert_p. rewrite (proj2 (Nat.eqb_eq _ _)) by done. by destruct a.
Qed.

(** A mistyped letter is detected: in a text that is read as an address, replacing
    any one character after the colon gives a text that is refused, because of that
    character or of the checksum. *)
Theorem address_typo_detected hrp a b x y addr :
  is_bytes (a ++ x :: b) → in_u 8 y → 58 ∉ hrp → x ≠ y →
  address_try_from (hrp ++ text ":" ++ a ++ x :: b) = Ok addr →
  address_try_from (hrp ++ text ":" ++ a ++ y :: b) = Err BadChecksum ∨
  address_try_from (hrp ++ text ":" ++ a ++ y :: b) = Err (DecodingError y).
Proof.
  intros Hs Hy Hn Hxy. unfold address_try_from. rewrite !split_colon_app by done.
  destruct (prefix_try_from hrp) as [p| |]; [|done..]. cbn [mbind res_mbind].
  intros (l & Hl & H8 & Hsum)%decode_inv. destruct (decode_typo p hrp a b x y l Hs Hy Hxy Hl H8 Hsum) as [->| ->]; auto.
Qed.

(** Text from outside can stop the process: for any bytes that are empty, or whose
    first is a version that their number does not fit, there is a text with a right
    checksum on which parsing panics instead of returning an error. *)
Theorem address_decode_panics hrp p l :
  prefix_try_from hrp = Ok p → is_bytes l →
  match l with
  | [] => True
  | v :: pl => ∃ w, version_try_from v = Ok w ∧ length pl ≠ public_key_len w
  end →
  ∃ s, encode_raw (E := AddressError) hrp l = Ok s ∧ address_try_from (hrp ++ text ":" ++ s) = Panic.
Proof.
  intros Hp Hl Hbad. destruct (decode_encoded p hrp l Hl) as (s & Hs & _ & Hd). exists s. split; [done|].
  rewrite (try_from_app _ _ _ Hp), Hd. unfold decode_raw. destruct l as [|v pl]; [done|].
  destruct Hbad as (w & -> & Hw). cbn [mbind res_mbind]. unfold address_new, assert_p.
  by rewrite (proj2 (Nat.eqb_neq _ _)).
Qed.

(** ** Witnesses *)
Module SampleAddress.
Definition addr : Address := mkAddress Mainnet V_PubKey (seqZ 0 32).
End SampleAddress.

Lemma address_roundtrip_witness :
  ∃ s, address_to_string (E := AddressError) SampleAddress.addr = Ok s ∧ address_try_from s = Ok SampleAddress.addr.
Proof. apply address_roundtrip. split; [apply (bool_decide_unpack _); vm_compute; done|done]. Defined.

(** The fifth letter of the sample address is a z; with a p it is refused. *)
Definition sample_rest : bytes := text "qsrqszsvpcgpy9qkrqdpc83qygjzv2p29shrqv35xcur50p756e85a0k".
Lemma address_typo_detected_witness :
  address_try_from (text "zkas" ++ text ":" ++ text "qqqq" ++ 122 :: sample_rest) = Ok SampleAddress.addr ∧
  (address_try_from (text "zkas" ++ text ":" ++ text "qqqq" ++ 112 :: sample_rest) = Err BadChecksum ∨
   address_try_from (text "zkas" ++ text ":" ++ text "qqqq" ++ 112 :: sample_rest) = Err (DecodingError 112)).
Proof.
  assert (address_try_from (text "zkas" ++ text ":" ++ text "qqqq" ++ 122 :: sample_rest) = Ok SampleAddress.addr) as Ha
    by (vm_compute; reflexivity).
  split; [exact Ha|]. apply (address_typo_detected (text "zkas") (text "qqqq") sample_rest 122 112 SampleAddress.addr);
    [clear; apply (bool_decide_unpack _); vm_compute; done|clear; by split
    |clear; apply (bool_decide_unpack _); vm_compute; done|clear; lia|exact Ha].
Defined.

Lemma address_decode_panics_witness :
  ∃ s, encode_raw (E := AddressError) (text "zkas") [] = Ok s ∧ address_try_from (text "zkas" ++ text ":" ++ s) = Panic.
Proof. apply (address_decode_panics (text "zkas") Mainnet []); [done|constructor|done]. Defined.
