(* ===== verification/Transaction.v ===== *)
(** * Transactions (consensus/core/src/tx.rs, utxo/utxo_entry.rs,
    tx/script_public_key.rs, mass/units.rs)

    The data the script engine, the signature hash and the UTXO code share: a
    transaction with its inputs and outputs, the UTXO entries it spends, and
    the units its computation is priced in.  Integers are [Z] at the width of
    their Rust type; hashes, subnetwork ids and scripts are byte lists. *)

From S2P Require Import Prelude Bytes.

Abbreviation Hash := bytes.

Definition ZERO_HASH : Hash := replicate 32 0.

(** What "unless a collision has been found" means in the binding theorems: among the
    messages of a given finite list, two have one digest, or one has the zero digest. *)
Definition collides {M} (digest : M → Hash) (L : list M) : Prop :=
  (∃ m m', m ∈ L ∧ m' ∈ L ∧ m ≠ m' ∧ digest m = digest m') ∨ ∃ m, m ∈ L ∧ digest m = ZERO_HASH.

Lemma collides_mono {M} (digest : M → Hash) L L' : L ⊆ L' → collides digest L → collides digest L'.
Proof. intros Hs [(m & m' & ? & ? & ? & ?)|(m & ? & ?)]; [left; exists m, m'|right; exists m]; split_and!; auto. Qed.
Lemma collides_eq {M} `{EqDecision M} (digest : M → Hash) L m m' :
  m ∈ L → m' ∈ L → digest m = digest m' → collides digest L ∨ m = m'.
Proof. intros Hm Hm' Heq. destruct (decide (m = m')); [by right|]. left. left. by exists m, m'. Qed.
Lemma collides_zero {M} (digest : M → Hash) L m : m ∈ L → digest m = ZERO_HASH → collides digest L.
Proof. right. by exists m. Qed.
Lemma collides_fmap {M N} (digest : M → Hash) (digest' : N → Hash) (f : M → N) `{!Inj (=) (=) f} L :
  (∀ m, digest' (f m) = digest m) → collides digest L → collides digest' (f <$> L).
Proof.
  intros Hf [(m & m' & Hm & Hm' & Hne & Heq)|(m & Hm & Hz)].
  - left. exists (f m), (f m'). rewrite !Hf. split_and!; [by apply list_elem_of_fmap_2..| |done]. intros ?%(inj f). done.
  - right. exists (f m). rewrite Hf. split; [by apply list_elem_of_fmap_2|done].
Qed.

Record TransactionOutpoint := mkOutpoint { transaction_id : Hash; outpoint_index : Z }.

#[global] Instance outpoint_eq_dec : EqDecision TransactionOutpoint.
Proof. solve_decision. Defined.

#[global] Instance outpoint_countable : Countable TransactionOutpoint.
Proof.
  apply (inj_countable' (λ o, (transaction_id o, outpoint_index o)) (λ p, mkOutpoint p.1 p.2)).
  by intros [].
Defined.

(** [ScriptUnits], [Gram], [SigopCount] and [ComputeBudget] are newtypes of
    [u64], [u64], [u8] and [u16]. *)
Abbreviation SCRIPT_UNITS_PER_GRAM := (100)%Z (only parsing).
Definition SCRIPT_UNITS_PER_COMPUTE_BUDGET_UNIT : Z := 100 * SCRIPT_UNITS_PER_GRAM.
Definition SCRIPT_UNITS_PER_SIGOP_COUNT_UNIT : Z := 1000 * SCRIPT_UNITS_PER_GRAM.

Definition free_script_units_per_input : Z := SCRIPT_UNITS_PER_COMPUTE_BUDGET_UNIT - 1.

Definition sat_add64 (a b : Z) : Z := Z.min (a + b) (2 ^ 64 - 1).
Definition sat_sub64 (a b : Z) : Z := Z.max (a - b) 0.
Definition sat_mul64 (a b : Z) : Z := Z.min (a * b) (2 ^ 64 - 1).

(** [ScriptUnits::from(Gram)]. *)
Definition gram_to_units {E} (g : Z) : res E Z := mul_p 64 g SCRIPT_UNITS_PER_GRAM.

Inductive ComputeCommit :=
| SigopCount (n : Z)
| ComputeBudget (n : Z).

#[global] Instance compute_commit_eq_dec : EqDecision ComputeCommit.
Proof. solve_decision. Defined.

Definition sig_op_count (c : ComputeCommit) : option Z :=
  match c with SigopCount n => Some n | ComputeBudget _ => None end.

Definition compute_budget (c : ComputeCommit) : option Z :=
  match c with ComputeBudget n => Some n | SigopCount _ => None end.

Definition commit_script_units (c : ComputeCommit) : Z :=
  match c with
  | SigopCount n => n * SCRIPT_UNITS_PER_SIGOP_COUNT_UNIT
  | ComputeBudget n => n * SCRIPT_UNITS_PER_COMPUTE_BUDGET_UNIT
  end.

Definition allowed_script_units (c : ComputeCommit) : Z :=
  sat_add64 (commit_script_units c) free_script_units_per_input.

(** [u64::div_ceil]. *)
Definition div_ceil64 (a b : Z) : Z := if 0 <? a mod b then a / b + 1 else a / b.

(** [ComputeBudget::try_from(ScriptUnits)]. *)
Definition budget_from_units (units : Z) : option Z :=
  let scaled := div_ceil64 units SCRIPT_UNITS_PER_COMPUTE_BUDGET_UNIT in
  if scaled <? 2 ^ 16 then Some scaled else None.

Definition checked_covering_script_units (required : Z) : option Z :=
  budget_from_units (sat_sub64 required free_script_units_per_input).

Record TransactionInput := mkInput {
  previous_outpoint : TransactionOutpoint;
  signature_script : bytes;
  sequence : Z;
  compute_commit : ComputeCommit;
}.

Record ScriptPublicKey := mkSpk { spk_version : Z; spk_script : bytes }.

#[global] Instance spk_eq_dec : EqDecision ScriptPublicKey.
Proof. solve_decision. Defined.

Record CovenantBinding := mkBinding { authorizing_input : Z; binding_covenant_id : Hash }.

Record TransactionOutput := mkOutput {
  out_value : Z;
  out_spk : ScriptPublicKey;
  out_covenant : option CovenantBinding;
}.

(** The [id] field, a cache of the transaction's hash, is not carried. *)
Record Transaction := mkTx {
  version : Z;
  inputs : list TransactionInput;
  outputs : list TransactionOutput;
  lock_time : Z;
  subnetwork_id : bytes;
  gas : Z;
  payload : bytes;
  storage_mass : Z;
}.

Record UtxoEntry := mkEntry {
  amount : Z;
  entry_spk : ScriptPublicKey;
  block_daa_score : Z;
  is_coinbase_entry : bool;
  entry_covenant_id : option Hash;
}.

#[global] Instance utxo_entry_eq_dec : EqDecision UtxoEntry.
Proof. solve_decision. Defined.

(** [VerifiableTransaction]: a transaction with its UTXO entries. *)
Record PopulatedTransaction := mkPopulated { ptx : Transaction; entries : list UtxoEntry }.

Definition utxo (p : PopulatedTransaction) (i : nat) : option UtxoEntry := entries p !! i.

Definition populated_input {E} (p : PopulatedTransaction) (i : nat) : res E (TransactionInput * UtxoEntry) :=
  inp ← idx (inputs (ptx p)) i;
  e ← idx (entries p) i;
  Ok (inp, e).

Definition SUBNETWORK_ID_NATIVE : bytes := replicate 20 0.
Definition SUBNETWORK_ID_COINBASE : bytes := 1 :: replicate 19 0.
Definition is_native (s : bytes) : bool := bool_decide (s = SUBNETWORK_ID_NATIVE).
Abbreviation TX_VERSION_SHIELDED := (2)%Z (only parsing).

Definition is_coinbase (t : Transaction) : bool := bool_decide (subnetwork_id t = SUBNETWORK_ID_COINBASE).
Definition is_shielded (t : Transaction) : bool :=
  (version t =? TX_VERSION_SHIELDED) && negb (is_coinbase t).

Definition shielded_sighash_context (t : Transaction) : bytes :=
  le_bytes 2 (version t) ++ subnetwork_id t ++ le_bytes 8 (lock_time t) ++ le_bytes 8 (gas t).

(** ** Widths *)

Definition spk_wf (s : ScriptPublicKey) : Prop :=
  in_u 16 (spk_version s) ∧ is_bytes (spk_script s) ∧ Z.of_nat (length (spk_script s)) < 2 ^ 32.

Definition commit_wf (c : ComputeCommit) : Prop :=
  match c with SigopCount n => in_u 8 n | ComputeBudget n => in_u 16 n end.

Definition outpoint_wf (o : TransactionOutpoint) : Prop :=
  is_array 32 (transaction_id o) ∧ in_u 32 (outpoint_index o).

Definition input_wf (i : TransactionInput) : Prop :=
  outpoint_wf (previous_outpoint i) ∧ is_bytes (signature_script i) ∧
  Z.of_nat (length (signature_script i)) < 2 ^ 32 ∧ in_u 64 (sequence i) ∧ commit_wf (compute_commit i).

Definition binding_wf (b : CovenantBinding) : Prop :=
  in_u 16 (authorizing_input b) ∧ is_array 32 (binding_covenant_id b).

Definition output_wf (o : TransactionOutput) : Prop :=
  in_u 64 (out_value o) ∧ spk_wf (out_spk o) ∧
  match out_covenant o with Some b => binding_wf b | None => True end.

Definition tx_wf (t : Transaction) : Prop :=
  in_u 16 (version t) ∧ Forall input_wf (inputs t) ∧ Forall output_wf (outputs t) ∧
  in_u 64 (lock_time t) ∧ is_array 20 (subnetwork_id t) ∧ in_u 64 (gas t) ∧
  is_bytes (payload t) ∧ Z.of_nat (length (payload t)) < 2 ^ 32 ∧
  Z.of_nat (length (inputs t)) < 2 ^ 31 ∧ Z.of_nat (length (outputs t)) < 2 ^ 31.

Definition entry_wf (e : UtxoEntry) : Prop :=
  in_u 64 (amount e) ∧ spk_wf (entry_spk e) ∧ in_u 64 (block_daa_score e) ∧
  match entry_covenant_id e with Some h => is_array 32 h | None => True end.

Definition populated_wf (p : PopulatedTransaction) : Prop :=
  tx_wf (ptx p) ∧ Forall entry_wf (entries p) ∧ length (entries p) = length (inputs (ptx p)).

Lemma populated_input_Ok {E} p i :
  populated_wf p → (i < length (inputs (ptx p)))%nat →
  ∃ inp e, @populated_input E p i = Ok (inp, e) ∧ inputs (ptx p) !! i = Some inp ∧
    entries p !! i = Some e ∧ input_wf inp ∧ entry_wf e.
Proof.
  intros ((_ & Hin & _) & He & Hlen) Hi.
  destruct (lookup_lt_is_Some_2 (inputs (ptx p)) i Hi) as [inp Hinp].
  destruct (lookup_lt_is_Some_2 (entries p) i ltac:(lia)) as [e Hent].
  exists inp, e. unfold populated_input, idx. rewrite Hinp, Hent. simpl.
  split_and!; [done..|by eapply Forall_lookup_1|by eapply Forall_lookup_1].
Qed.

(** The covering budget is the least one whose allowance suffices. *)
Lemma covering_budget_least required n :
  0 ≤ required → checked_covering_script_units required = Some n →
  required ≤ allowed_script_units (ComputeBudget n) ∧
  ∀ m, 0 ≤ m → required ≤ allowed_script_units (ComputeBudget m) → n ≤ m.
Proof.
  unfold checked_covering_script_units, budget_from_units, allowed_script_units, commit_script_units,
    div_ceil64, sat_add64, sat_sub64, free_script_units_per_input, SCRIPT_UNITS_PER_COMPUTE_BUDGET_UNIT.
  intros Hr. change (100 * 100) with 10000. set (c := Z.max (required - (10000 - 1)) 0).
  pose proof (Z.div_mod c 10000 ltac:(lia)) as Hdm. pose proof (Z.mod_pos_bound c 10000 ltac:(lia)).
  set (q := if 0 <? c mod 10000 then c / 10000 + 1 else c / 10000).
  assert (q * 10000 < c + 10000 ∧ c ≤ q * 10000) as [Hlo Hhi].
  { unfold q. destruct (Z.ltb_spec 0 (c mod 10000)); lia. }
  clearbody q. destruct (Z.ltb_spec q (2 ^ 16)); [|done]. intros [= <-].
  split; [lia|]. intros m Hm. lia.
Qed.
