(* ===== verification/Sighash.v ===== *)
(** * Signature hashes (consensus/core/src/hashing/sighash.rs,
    sighash_type.rs, mod.rs)

    What an input's signature commits to, with the five sub-hashes that are
    shared by the inputs of a transaction and computed once.  A hasher is the
    list of the bytes written to it; the two domain-separated hash functions
    are a class. *)

From S2P Require Import Prelude Bytes Transaction.

(** [TransactionSigningHash] (keyed BLAKE2b) and [TransactionSigningHashECDSA]
    (prefixed SHA-256). *)
Class SigningHashes := {
  signing_hash : bytes → Hash;
  signing_hash_ecdsa : bytes → Hash;
}.

(** ** [HasherExtensions] *)

Definition write_len (h : bytes) (len : nat) : bytes := h ++ le_bytes 8 (Z.of_nat len).
Definition write_bool (h : bytes) (b : bool) : bytes := h ++ (if b then [1] else [0]).
Definition write_u8 (h : bytes) (x : Z) : bytes := h ++ le_bytes 1 x.
Definition write_u16 (h : bytes) (x : Z) : bytes := h ++ le_bytes 2 x.
Definition write_u32 (h : bytes) (x : Z) : bytes := h ++ le_bytes 4 x.
Definition write_u64 (h : bytes) (x : Z) : bytes := h ++ le_bytes 8 x.
Definition write_var_bytes (h : bytes) (b : bytes) : bytes := write_len h (length b) ++ b.

(** ** Hash types *)

Abbreviation SIG_HASH_ALL := (1)%Z (only parsing).
Abbreviation SIG_HASH_NONE := (2)%Z (only parsing).
Abbreviation SIG_HASH_SINGLE := (4)%Z (only parsing).
Abbreviation SIG_HASH_ANY_ONE_CAN_PAY := (128)%Z (only parsing).
Abbreviation SIG_HASH_MASK := (7)%Z (only parsing).

Definition ALLOWED_SIG_HASH_TYPES_VALUES : list Z :=
  [SIG_HASH_ALL; SIG_HASH_NONE; SIG_HASH_SINGLE;
   Z.lor SIG_HASH_ALL SIG_HASH_ANY_ONE_CAN_PAY;
   Z.lor SIG_HASH_NONE SIG_HASH_ANY_ONE_CAN_PAY;
   Z.lor SIG_HASH_SINGLE SIG_HASH_ANY_ONE_CAN_PAY].

Definition is_sighash_none (t : Z) : bool := Z.land t SIG_HASH_MASK =? SIG_HASH_NONE.
Definition is_sighash_single (t : Z) : bool := Z.land t SIG_HASH_MASK =? SIG_HASH_SINGLE.
Definition is_sighash_anyone_can_pay (t : Z) : bool :=
  Z.land t SIG_HASH_ANY_ONE_CAN_PAY =? SIG_HASH_ANY_ONE_CAN_PAY.

Definition sighash_type_from_u8 (val : Z) : option Z :=
  if bool_decide (val ∈ ALLOWED_SIG_HASH_TYPES_VALUES) then Some val else None.

(** ** Reused values *)

Record SigHashReusedValues := mkReused {
  r_previous_outputs_hash : option Hash;
  r_sequences_hash : option Hash;
  r_sig_op_counts_hash : option Hash;
  r_outputs_hash : option Hash;
  r_payload_hash : option Hash;
}.

Definition reused_new : SigHashReusedValues := mkReused None None None None None.

Definition reuse_previous_outputs_hash (r : SigHashReusedValues) (set : Hash) : Hash * SigHashReusedValues :=
  match r_previous_outputs_hash r with
  | Some h => (h, r)
  | None => (set, mkReused (Some set) (r_sequences_hash r) (r_sig_op_counts_hash r) (r_outputs_hash r)
                    (r_payload_hash r))
  end.

Definition reuse_sequences_hash (r : SigHashReusedValues) (set : Hash) : Hash * SigHashReusedValues :=
  match r_sequences_hash r with
  | Some h => (h, r)
  | None => (set, mkReused (r_previous_outputs_hash r) (Some set) (r_sig_op_counts_hash r)
                    (r_outputs_hash r) (r_payload_hash r))
  end.

Definition reuse_sig_op_counts_hash (r : SigHashReusedValues) (set : Hash) : Hash * SigHashReusedValues :=
  match r_sig_op_counts_hash r with
  | Some h => (h, r)
  | None => (set, mkReused (r_previous_outputs_hash r) (r_sequences_hash r) (Some set)
                    (r_outputs_hash r) (r_payload_hash r))
  end.

Definition reuse_outputs_hash (r : SigHashReusedValues) (set : Hash) : Hash * SigHashReusedValues :=
  match r_outputs_hash r with
  | Some h => (h, r)
  | None => (set, mkReused (r_previous_outputs_hash r) (r_sequences_hash r) (r_sig_op_counts_hash r)
                    (Some set) (r_payload_hash r))
  end.

Definition reuse_payload_hash (r : SigHashReusedValues) (set : Hash) : Hash * SigHashReusedValues :=
  match r_payload_hash r with
  | Some h => (h, r)
  | None => (set, mkReused (r_previous_outputs_hash r) (r_sequences_hash r) (r_sig_op_counts_hash r)
                    (r_outputs_hash r) (Some set))
  end.

Section Sighash.
Context `{SigningHashes}.

Definition hash_outpoint (h : bytes) (o : TransactionOutpoint) : bytes :=
  write_u32 (h ++ transaction_id o) (outpoint_index o).

Definition hash_script_public_key (h : bytes) (s : ScriptPublicKey) : bytes :=
  write_var_bytes (write_u16 h (spk_version s)) (spk_script s).

Definition hash_output (h : bytes) (o : TransactionOutput) (version : Z) : bytes :=
  let h := write_u64 h (out_value o) in
  let h := hash_script_public_key h (out_spk o) in
  if 1 <=? version then
    match out_covenant o with
    | Some c => write_u16 (write_bool h true) (authorizing_input c) ++ binding_covenant_id c
    | None => write_bool h false
    end
  else h.

Definition previous_outputs_hash (t : Transaction) (hash_type : Z) (r : SigHashReusedValues)
    : Hash * SigHashReusedValues :=
  if is_sighash_anyone_can_pay hash_type then (ZERO_HASH, r)
  else reuse_previous_outputs_hash r
         (signing_hash (foldl (λ h i, hash_outpoint h (previous_outpoint i)) [] (inputs t))).

Definition sequences_hash (t : Transaction) (hash_type : Z) (r : SigHashReusedValues)
    : Hash * SigHashReusedValues :=
  if is_sighash_single hash_type || is_sighash_anyone_can_pay hash_type || is_sighash_none hash_type
  then (ZERO_HASH, r)
  else reuse_sequences_hash r (signing_hash (foldl (λ h i, write_u64 h (sequence i)) [] (inputs t))).

Definition sig_op_counts_hash (t : Transaction) (hash_type : Z) (r : SigHashReusedValues)
    : Hash * SigHashReusedValues :=
  if is_sighash_anyone_can_pay hash_type then (ZERO_HASH, r)
  else reuse_sig_op_counts_hash r
         (signing_hash (foldl (λ h i, write_u8 h (default 0 (sig_op_count (compute_commit i)))) [] (inputs t))).

Definition payload_hash (t : Transaction) (r : SigHashReusedValues) : Hash * SigHashReusedValues :=
  if is_native (subnetwork_id t) && bool_decide (payload t = []) then (ZERO_HASH, r)
  else reuse_payload_hash r (signing_hash (write_var_bytes [] (payload t))).

Definition outputs_hash (t : Transaction) (hash_type : Z) (r : SigHashReusedValues) (input_index : nat)
    : Hash * SigHashReusedValues :=
  if is_sighash_none hash_type then (ZERO_HASH, r)
  else if is_sighash_single hash_type then
    match outputs t !! input_index with
    | None => (ZERO_HASH, r)
    | Some o => (signing_hash (hash_output [] o (version t)), r)
    end
  else reuse_outputs_hash r
         (signing_hash (foldl (λ h o, hash_output h o (version t)) [] (outputs t))).

Definition calc_schnorr_signature_hash {E} (p : PopulatedTransaction) (input_index : nat) (hash_type : Z)
    (r : SigHashReusedValues) : res E (Hash * SigHashReusedValues) :=
  '(inp, e) ← populated_input p input_index;
  let t := ptx p in
  let h := write_u16 [] (version t) in
  let '(ph, r) := previous_outputs_hash t hash_type r in
  let '(sh, r) := sequences_hash t hash_type r in
  let h := h ++ ph ++ sh in
  let '(h, r) :=
    if version t <? 1 then
      let '(oh, r) := sig_op_counts_hash t hash_type r in (h ++ oh, r)
    else (h, r) in
  let h := hash_outpoint h (previous_outpoint inp) in
  let h := hash_script_public_key h (entry_spk e) in
  let h := write_u64 (write_u64 h (amount e)) (sequence inp) in
  let h := if version t <? 1 then write_u8 h (default 0 (sig_op_count (compute_commit inp))) else h in
  let '(oh, r) := outputs_hash t hash_type r input_index in
  let h := write_u64 (h ++ oh) (lock_time t) in
  let h := write_u64 (h ++ subnetwork_id t) (gas t) in
  let '(plh, r) := payload_hash t r in
  Ok (signing_hash (write_u8 (h ++ plh) hash_type), r).

Definition calc_ecdsa_signature_hash {E} (p : PopulatedTransaction) (input_index : nat) (hash_type : Z)
    (r : SigHashReusedValues) : res E (Hash * SigHashReusedValues) :=
  '(h, r) ← calc_schnorr_signature_hash p input_index hash_type r;
  Ok (signing_hash_ecdsa h, r).
End Sighash.

(** ** What a signature commits to *)

(** An encoding that can be read off the front of a byte string: equal strings
    that start with encodings have equal keys and equal rests. *)
Definition prefix_code {A K} (P : A → Prop) (enc : A → bytes) (key : A → K) : Prop :=
  ∀ x y k k', P x → P y → enc x ++ k = enc y ++ k' → key x = key y ∧ k = k'.

Lemma prefix_code_concat {A K} (P : A → Prop) (enc : A → bytes) (key : A → K) l l' :
  prefix_code P enc key → (∀ x, enc x ≠ []) → Forall P l → Forall P l' →
  concat (enc <$> l) = concat (enc <$> l') → key <$> l = key <$> l'.
Proof.
  intros Hpc Hne. revert l'; induction l as [|x l IH]; intros [|y l'] Hl Hl'; csimpl; intros Heq.
  - done.
  - symmetry in Heq. apply app_nil in Heq as [? _]. by destruct (Hne y).
  - apply app_nil in Heq as [? _]. by destruct (Hne x).
  - apply Forall_cons in Hl as [Hx Hl]. apply Forall_cons in Hl' as [Hy Hl'].
    destruct (Hpc _ _ _ _ Hx Hy Heq) as [-> Hk]. by rewrite (IH l').
Qed.

Lemma fixed_prefix (a b k k' : bytes) : length a = length b → a ++ k = b ++ k' → a = b ∧ k = k'.
Proof. apply app_inj_1. Qed.

Lemma int_prefix n x y k k' :
  in_u (8 * Z.of_nat n) x → in_u (8 * Z.of_nat n) y →
  le_bytes n x ++ k = le_bytes n y ++ k' → x = y ∧ k = k'.
Proof.
  intros Hx Hy Heq. apply fixed_prefix in Heq as [Heq ->]; [|by rewrite !length_le_bytes].
  split; [|done]. by apply le_bytes_inj in Heq.
Qed.

Lemma var_prefix (a b k k' : bytes) :
  Z.of_nat (length a) < 2 ^ 64 → Z.of_nat (length b) < 2 ^ 64 →
  le_bytes 8 (Z.of_nat (length a)) ++ a ++ k = le_bytes 8 (Z.of_nat (length b)) ++ b ++ k' →
  a = b ∧ k = k'.
Proof.
  intros Ha Hb Heq. apply int_prefix in Heq as [Hl Heq]; [|unfold in_u; lia..].
  apply fixed_prefix; [lia|done].
Qed.

Definition enc_outpoint (o : TransactionOutpoint) : bytes := transaction_id o ++ le_bytes 4 (outpoint_index o).

Definition enc_spk (s : ScriptPublicKey) : bytes :=
  le_bytes 2 (spk_version s) ++ le_bytes 8 (Z.of_nat (length (spk_script s))) ++ spk_script s.

Definition enc_covenant (c : option CovenantBinding) : bytes :=
  match c with
  | Some c => 1 :: le_bytes 2 (authorizing_input c) ++ binding_covenant_id c
  | None => [0]
  end.

Definition enc_output (v : Z) (o : TransactionOutput) : bytes :=
  le_bytes 8 (out_value o) ++ enc_spk (out_spk o) ++ (if 1 <=? v then enc_covenant (out_covenant o) else []).

(** What an output's encoding determines. *)
Definition output_key (v : Z) (o : TransactionOutput) : Z * ScriptPublicKey * option (option CovenantBinding) :=
  (out_value o, out_spk o, if 1 <=? v then Some (out_covenant o) else None).

Lemma outpoint_prefix : prefix_code outpoint_wf enc_outpoint id.
Proof.
  intros [h i] [h' i'] k k' [[Hh _] Hi] [[Hh' _] Hi'] Heq. unfold enc_outpoint in Heq.
  cbn [transaction_id outpoint_index] in *.
  rewrite <- !app_assoc in Heq. apply fixed_prefix in Heq as [-> Heq]; [|congruence].
  by apply int_prefix in Heq as [-> ->].
Qed.

Lemma spk_prefix : prefix_code spk_wf enc_spk id.
Proof.
  intros [v s] [v' s'] k k' (Hv & _ & Hs) (Hv' & _ & Hs') Heq. unfold enc_spk in Heq.
  cbn [spk_version spk_script] in *.
  rewrite <- !app_assoc in Heq. apply int_prefix in Heq as [-> Heq]; [|done..].
  by apply var_prefix in Heq as [-> ->]; [|lia..].
Qed.

Lemma covenant_prefix :
  prefix_code (λ c, match c with Some b => binding_wf b | None => True end) enc_covenant id.
Proof.
  intros [[a h]|] [[a' h']|] k k' Hc Hc' Heq; cbn [enc_covenant authorizing_input binding_covenant_id] in Heq;
    [|discriminate Heq..|by injection Heq].
  destruct Hc as [Ha [Hh _]], Hc' as [Ha' [Hh' _]]. cbn [authorizing_input binding_covenant_id] in *.
  change ([1] ++ (le_bytes 2 a ++ h) ++ k = [1] ++ (le_bytes 2 a' ++ h') ++ k') in Heq.
  apply fixed_prefix in Heq as [_ Heq]; [|done]. rewrite <- !app_assoc in Heq.
  apply int_prefix in Heq as [-> Heq]; [|done..].
  by apply fixed_prefix in Heq as [-> ->]; [|congruence].
Qed.

Lemma output_prefix v : prefix_code output_wf (enc_output v) (output_key v).
Proof.
  intros o o' k k' (Hv & Hs & Hc) (Hv' & Hs' & Hc') Heq. unfold enc_output, output_key in *.
  rewrite <- !app_assoc in Heq. apply int_prefix in Heq as [-> Heq]; [|done..].
  apply spk_prefix in Heq as [Hspk Heq]; [|done..]. unfold id in Hspk. rewrite Hspk. destruct (1 <=? v); [|done].
  apply covenant_prefix in Heq as [Hcov ->]; [|done..]. unfold id in Hcov. by rewrite Hcov.
Qed.

Section SighashLemmas.
Context `{SigningHashes}.

(** The full sub-hashes, computed from scratch. *)
Definition full_previous_outputs (t : Transaction) : Hash :=
  signing_hash (concat ((λ i, enc_outpoint (previous_outpoint i)) <$> inputs t)).
Definition full_sequences (t : Transaction) : Hash :=
  signing_hash (concat ((λ i, le_bytes 8 (sequence i)) <$> inputs t)).
Definition full_sig_op_counts (t : Transaction) : Hash :=
  signing_hash (concat ((λ i, le_bytes 1 (default 0 (sig_op_count (compute_commit i)))) <$> inputs t)).
Definition full_outputs (t : Transaction) : Hash :=
  signing_hash (concat (enc_output (version t) <$> outputs t)).
Definition full_payload (t : Transaction) : Hash :=
  signing_hash (le_bytes 8 (Z.of_nat (length (payload t))) ++ payload t).

(** A memo that belongs to the transaction. *)
Definition reused_ok (t : Transaction) (r : SigHashReusedValues) : Prop :=
  (∀ h, r_previous_outputs_hash r = Some h → h = full_previous_outputs t) ∧
  (∀ h, r_sequences_hash r = Some h → h = full_sequences t) ∧
  (∀ h, r_sig_op_counts_hash r = Some h → h = full_sig_op_counts t) ∧
  (∀ h, r_outputs_hash r = Some h → h = full_outputs t) ∧
  (∀ h, r_payload_hash r = Some h → h = full_payload t).

Lemma reused_new_ok t : reused_ok t reused_new.
Proof. by split_and!. Qed.

(** The sub-hash each hash type selects. *)
Definition sub_previous_outputs (t : Transaction) (ty : Z) : Hash :=
  if is_sighash_anyone_can_pay ty then ZERO_HASH else full_previous_outputs t.
Definition sub_sequences (t : Transaction) (ty : Z) : Hash :=
  if is_sighash_single ty || is_sighash_anyone_can_pay ty || is_sighash_none ty then ZERO_HASH
  else full_sequences t.
Definition sub_sig_op_counts (t : Transaction) (ty : Z) : Hash :=
  if is_sighash_anyone_can_pay ty then ZERO_HASH else full_sig_op_counts t.
Definition sub_outputs (t : Transaction) (ty : Z) (i : nat) : Hash :=
  if is_sighash_none ty then ZERO_HASH
  else if is_sighash_single ty then
    from_option (λ o, signing_hash (enc_output (version t) o)) ZERO_HASH (outputs t !! i)
  else full_outputs t.
Definition sub_payload (t : Transaction) : Hash :=
  if is_native (subnetwork_id t) && bool_decide (payload t = []) then ZERO_HASH else full_payload t.

Definition signature_preimage (t : Transaction) (inp : TransactionInput) (e : UtxoEntry) (i : nat) (ty : Z)
    : bytes :=
  le_bytes 2 (version t) ++ sub_previous_outputs t ty ++ sub_sequences t ty ++
  (if version t <? 1 then sub_sig_op_counts t ty else []) ++
  enc_outpoint (previous_outpoint inp) ++ enc_spk (entry_spk e) ++
  le_bytes 8 (amount e) ++ le_bytes 8 (sequence inp) ++
  (if version t <? 1 then le_bytes 1 (default 0 (sig_op_count (compute_commit inp))) else []) ++
  sub_outputs t ty i ++ le_bytes 8 (lock_time t) ++ subnetwork_id t ++ le_bytes 8 (gas t) ++
  sub_payload t ++ le_bytes 1 ty.

Lemma foldl_concat {A} (f : bytes → A → bytes) (enc : A → bytes) l h :
  (∀ h x, f h x = h ++ enc x) → foldl f h l = h ++ concat (enc <$> l).
Proof.
  intros Hf. revert h; induction l as [|x l IH]; intros h; csimpl; [by rewrite app_nil_r|].
  by rewrite IH, Hf, <- app_assoc.
Qed.

Lemma hash_output_enc h o v : hash_output h o v = h ++ enc_output v o.
Proof.
  unfold hash_output, enc_output, hash_script_public_key, enc_spk, write_var_bytes, write_len, write_bool,
    write_u64, write_u16. destruct (1 <=? v), (out_covenant o); cbn [enc_covenant];
    rewrite ?app_nil_r, <- ?app_assoc, <- ?app_comm_cons; done.
Qed.

Lemma hash_outpoint_enc h o : hash_outpoint h o = h ++ enc_outpoint o.
Proof. unfold hash_outpoint, enc_outpoint, write_u32. by rewrite <- app_assoc. Qed.

Lemma previous_outputs_hash_spec t ty r :
  reused_ok t r → ∃ r', previous_outputs_hash t ty r = (sub_previous_outputs t ty, r') ∧ reused_ok t r'.
Proof.
  intros Hr. unfold previous_outputs_hash, sub_previous_outputs. destruct (is_sighash_anyone_can_pay ty); [eauto|].
  rewrite (foldl_concat _ (λ i, enc_outpoint (previous_outpoint i))) by (intros; apply hash_outpoint_enc).
  rewrite app_nil_l. fold (full_previous_outputs t). unfold reuse_previous_outputs_hash.
  pose proof Hr as (Hp & Hrest). destruct (r_previous_outputs_hash r) as [h|] eqn:Hh.
  - exists r. by rewrite (Hp h eq_refl).
  - eexists. split; [done|]. split; simpl; [naive_solver|done].
Qed.

Lemma sequences_hash_spec t ty r :
  reused_ok t r → ∃ r', sequences_hash t ty r = (sub_sequences t ty, r') ∧ reused_ok t r'.
Proof.
  intros Hr. unfold sequences_hash, sub_sequences. destruct (_ || _ || _); [eauto|].
  rewrite (foldl_concat _ (λ i, le_bytes 8 (sequence i))) by done.
  rewrite app_nil_l. fold (full_sequences t). unfold reuse_sequences_hash.
  pose proof Hr as (? & Hp & Hrest). destruct (r_sequences_hash r) as [h|] eqn:Hh.
  - exists r. by rewrite (Hp h eq_refl).
  - eexists. split; [done|]. split_and!; simpl; [done|naive_solver|apply Hrest..].
Qed.

Lemma sig_op_counts_hash_spec t ty r :
  reused_ok t r → ∃ r', sig_op_counts_hash t ty r = (sub_sig_op_counts t ty, r') ∧ reused_ok t r'.
Proof.
  intros Hr. unfold sig_op_counts_hash, sub_sig_op_counts. destruct (is_sighash_anyone_can_pay ty); [eauto|].
  rewrite (foldl_concat _ (λ i, le_bytes 1 (default 0 (sig_op_count (compute_commit i))))) by done.
  rewrite app_nil_l. fold (full_sig_op_counts t). unfold reuse_sig_op_counts_hash.
  pose proof Hr as (? & ? & Hp & Hrest). destruct (r_sig_op_counts_hash r) as [h|] eqn:Hh.
  - exists r. by rewrite (Hp h eq_refl).
  - eexists. split; [done|]. split_and!; simpl; [done|done|naive_solver|apply Hrest..].
Qed.

Lemma outputs_hash_spec t ty i r :
  reused_ok t r → ∃ r', outputs_hash t ty r i = (sub_outputs t ty i, r') ∧ reused_ok t r'.
Proof.
  intros Hr. unfold outputs_hash, sub_outputs. destruct (is_sighash_none ty); [eauto|].
  destruct (is_sighash_single ty).
  { destruct (outputs t !! i) as [o|]; simpl; [rewrite hash_output_enc, app_nil_l|]; eauto. }
  rewrite (foldl_concat _ (enc_output (version t))) by (intros; apply hash_output_enc).
  rewrite app_nil_l. fold (full_outputs t). unfold reuse_outputs_hash.
  pose proof Hr as (? & ? & ? & Hp & Hrest). destruct (r_outputs_hash r) as [h|] eqn:Hh.
  - exists r. by rewrite (Hp h eq_refl).
  - eexists. split; [done|]. split_and!; simpl; [done|done|done|naive_solver|apply Hrest].
Qed.

Lemma payload_hash_spec t r :
  reused_ok t r → ∃ r', payload_hash t r = (sub_payload t, r') ∧ reused_ok t r'.
Proof.
  intros Hr. unfold payload_hash, sub_payload. destruct (_ && _); [eauto|].
  unfold write_var_bytes, write_len. rewrite app_nil_l. fold (full_payload t). unfold reuse_payload_hash.
  pose proof Hr as (? & ? & ? & ? & Hp). destruct (r_payload_hash r) as [h|] eqn:Hh.
  - exists r. by rewrite (Hp h eq_refl).
  - eexists. split; [done|]. split_and!; simpl; [done..|naive_solver].
Qed.

Lemma calc_schnorr_spec {E} p i ty r :
  populated_wf p → (i < length (inputs (ptx p)))%nat → reused_ok (ptx p) r →
  ∃ inp e r', inputs (ptx p) !! i = Some inp ∧ entries p !! i = Some e ∧ input_wf inp ∧ entry_wf e ∧
    calc_schnorr_signature_hash (E := E) p i ty r =
      Ok (signing_hash (signature_preimage (ptx p) inp e i ty), r') ∧ reused_ok (ptx p) r'.
Proof.
  intros Hwf Hi Hr. destruct (populated_input_Ok (E := E) p i Hwf Hi) as (inp & e & Hpi & Hinp & He & Hw & Hw').
  unfold calc_schnorr_signature_hash. rewrite Hpi. cbn [mbind res_mbind].
  destruct (previous_outputs_hash_spec (ptx p) ty r Hr) as (r1 & -> & Hr1).
  destruct (sequences_hash_spec (ptx p) ty r1 Hr1) as (r2 & -> & Hr2).
  assert (∃ r3, reused_ok (ptx p) r3 ∧
    (if version (ptx p) <? 1 then
       let '(oh, r) := sig_op_counts_hash (ptx p) ty r2 in
       ((write_u16 [] (version (ptx p)) ++ sub_previous_outputs (ptx p) ty ++ sub_sequences (ptx p) ty) ++ oh, r)
     else (write_u16 [] (version (ptx p)) ++ sub_previous_outputs (ptx p) ty ++ sub_sequences (ptx p) ty, r2)) =
    ((write_u16 [] (version (ptx p)) ++ sub_previous_outputs (ptx p) ty ++ sub_sequences (ptx p) ty) ++
     (if version (ptx p) <? 1 then sub_sig_op_counts (ptx p) ty else []), r3)) as (r3 & Hr3 & ->).
  { destruct (version (ptx p) <? 1).
    - destruct (sig_op_counts_hash_spec (ptx p) ty r2 Hr2) as (r3 & -> & Hr3). eauto.
    - exists r2. by rewrite app_nil_r. }
  destruct (outputs_hash_spec (ptx p) ty i r3 Hr3) as (r4 & -> & Hr4).
  destruct (payload_hash_spec (ptx p) r4 Hr4) as (r5 & -> & Hr5).
  exists inp, e, r5. split_and!; try done. f_equal. f_equal. f_equal.
  unfold signature_preimage. rewrite hash_outpoint_enc.
  unfold hash_script_public_key, enc_spk, write_var_bytes, write_len, write_u8, write_u16, write_u64.
  destruct (version (ptx p) <? 1); rewrite ?app_nil_l, <- ?app_assoc; done.
Qed.
End SighashLemmas.

Class SigningHashesLaws `{SigningHashes} : Prop := {
  signing_hash_length m : length (signing_hash m) = 32%nat;
}.

Section SighashBinding.
Context `{SigningHashesLaws}.

(** The messages behind the sub-hashes that a hash type selects, and all that are hashed
    for an input. *)
Definition sub_messages (t : Transaction) (ty : Z) (i : nat) : list bytes :=
  (if is_sighash_anyone_can_pay ty then [] else [concat ((λ i, enc_outpoint (previous_outpoint i)) <$> inputs t)]) ++
  (if is_sighash_single ty || is_sighash_anyone_can_pay ty || is_sighash_none ty then []
   else [concat ((λ i, le_bytes 8 (sequence i)) <$> inputs t)]) ++
  (if (version t <? 1) && negb (is_sighash_anyone_can_pay ty)
   then [concat ((λ i, le_bytes 1 (default 0 (sig_op_count (compute_commit i)))) <$> inputs t)] else []) ++
  (if is_sighash_none ty then []
   else if is_sighash_single ty then option_list (enc_output (version t) <$> outputs t !! i)
   else [concat (enc_output (version t) <$> outputs t)]) ++
  (if is_native (subnetwork_id t) && bool_decide (payload t = []) then []
   else [le_bytes 8 (Z.of_nat (length (payload t))) ++ payload t]).
Definition signing_messages (p : PopulatedTransaction) (i : nat) (ty : Z) : list bytes :=
  match inputs (ptx p) !! i, entries p !! i with
  | Some inp, Some e => signature_preimage (ptx p) inp e i ty :: sub_messages (ptx p) ty i
  | _, _ => []
  end.

(** Two of the messages [L] have one digest, or one has the all-zero digest. *)
Definition signing_collision (L : list bytes) : Prop := collides signing_hash L.

Lemma signing_hash_inj_or L m m' :
  m ∈ L → m' ∈ L → signing_hash m = signing_hash m' → signing_collision L ∨ m = m'.
Proof. apply collides_eq. Qed.
Lemma signing_hash_zero L m : m ∈ L → ZERO_HASH = signing_hash m → signing_collision L.
Proof. intros Hm Hz. by apply (collides_zero _ _ m). Qed.

(** What the outputs' sub-hash covers: nothing, the output beside the input, or all of them. *)
Definition outputs_view (t : Transaction) (ty : Z) (i : nat) :=
  if is_sighash_none ty then []
  else if is_sighash_single ty then option_list (output_key (version t) <$> outputs t !! i)
  else output_key (version t) <$> outputs t.

(** What a signature of an input with hash type [ty] covers. *)
Record SignedView := mkView {
  v_version : Z; v_hash_type : Z;
  v_outpoints : list TransactionOutpoint; v_sequences : list Z; v_sig_ops : list Z;
  v_outpoint : TransactionOutpoint; v_spk : ScriptPublicKey; v_amount : Z; v_sequence : Z; v_sig_op : Z;
  v_outputs : list (Z * ScriptPublicKey * option (option CovenantBinding));
  v_lock_time : Z; v_subnetwork : bytes; v_gas : Z; v_payload : bytes;
}.

Definition signed_view (t : Transaction) (inp : TransactionInput) (e : UtxoEntry) (i : nat) (ty : Z)
    : SignedView :=
  let ops i := default 0 (sig_op_count (compute_commit i)) in
  {| v_version := version t; v_hash_type := ty;
     v_outpoints := if is_sighash_anyone_can_pay ty then [] else previous_outpoint <$> inputs t;
     v_sequences := if is_sighash_single ty || is_sighash_anyone_can_pay ty || is_sighash_none ty then []
                    else sequence <$> inputs t;
     v_sig_ops := if (version t <? 1) && negb (is_sighash_anyone_can_pay ty) then ops <$> inputs t else [];
     v_outpoint := previous_outpoint inp; v_spk := entry_spk e; v_amount := amount e;
     v_sequence := sequence inp; v_sig_op := if version t <? 1 then ops inp else 0;
     v_outputs := outputs_view t ty i; v_lock_time := lock_time t; v_subnetwork := subnetwork_id t;
     v_gas := gas t; v_payload := payload t |}.

Lemma input_sig_op_u8 i : input_wf i → in_u 8 (default 0 (sig_op_count (compute_commit i))).
Proof. intros (_ & _ & _ & _ & Hc). destruct (compute_commit i); [done|]. unfold in_u. simpl. lia. Qed.

Lemma length_ZERO_HASH : length ZERO_HASH = 32%nat.
Proof. done. Qed.

Lemma sub_lengths t ty i :
  length (sub_previous_outputs t ty) = 32%nat ∧ length (sub_sequences t ty) = 32%nat ∧
  length (sub_sig_op_counts t ty) = 32%nat ∧ length (sub_outputs t ty i) = 32%nat ∧
  length (sub_payload t) = 32%nat.
Proof.
  unfold sub_previous_outputs, sub_sequences, sub_sig_op_counts, sub_outputs, sub_payload.
  split_and!; repeat case_match; try done; try apply signing_hash_length.
  destruct (outputs t !! i); simpl; [apply signing_hash_length|done].
Qed.

Lemma inputs_concat_inj {K} (P : K → Prop) (enc : K → bytes) (f : TransactionInput → K) L l l' :
  concat ((λ i, enc (f i)) <$> l) ∈ L → concat ((λ i, enc (f i)) <$> l') ∈ L →
  prefix_code P enc id → (∀ x, enc x ≠ []) → (∀ i, input_wf i → P (f i)) →
  Forall input_wf l → Forall input_wf l' →
  signing_hash (concat ((λ i, enc (f i)) <$> l)) = signing_hash (concat ((λ i, enc (f i)) <$> l')) →
  signing_collision L ∨ f <$> l = f <$> l'.
Proof.
  intros Hm Hm' Hpc Hne HP Hl Hl' Heq. apply (signing_hash_inj_or L) in Heq as [?|Heq]; [by left| |done..]. right.
  rewrite !(list_fmap_compose f enc) in Heq.
  apply (prefix_code_concat P enc id) in Heq; [by rewrite !list_fmap_id in Heq|done|done|..];
    apply Forall_fmap; eapply Forall_impl; eauto.
Qed.

Lemma le_bytes_prefix_code n : prefix_code (in_u (8 * Z.of_nat n)) (le_bytes n) id.
Proof. intros x y k k' Hx Hy Heq. by apply int_prefix in Heq. Qed.

Lemma le_bytes_ne n x : (0 < n)%nat → le_bytes n x ≠ [].
Proof. intros Hn Heq. apply (f_equal length) in Heq. rewrite length_le_bytes in Heq. simpl in Heq. lia. Qed.

Lemma app_ne_r (a b : bytes) : b ≠ [] → a ++ b ≠ [].
Proof. by destruct a. Qed.

Lemma enc_output_ne v o : enc_output v o ≠ [].
Proof. unfold enc_output. intros Heq. apply app_nil in Heq as [Heq _]. by apply le_bytes_ne in Heq; [|lia]. Qed.

Lemma outputs_sub_inj L t t' ty i i' :
  sub_messages t ty i ⊆ L → sub_messages t' ty i' ⊆ L →
  tx_wf t → tx_wf t' → version t = version t' → sub_outputs t ty i = sub_outputs t' ty i' →
  signing_collision L ∨ outputs_view t ty i = outputs_view t' ty i'.
Proof.
  intros Hs Hs' (_ & _ & Ho & _) (_ & _ & Ho' & _) Hv. unfold sub_messages in Hs, Hs'.
  do 3 apply list_subseteq_app_iff_l in Hs as [_ Hs]. do 3 apply list_subseteq_app_iff_l in Hs' as [_ Hs'].
  apply list_subseteq_app_iff_l in Hs as [Hs _], Hs' as [Hs' _].
  unfold sub_outputs, outputs_view. rewrite Hv in *.
  destruct (is_sighash_none ty); [by right|]. destruct (is_sighash_single ty).
  - destruct (outputs t !! i) as [o|] eqn:Hl, (outputs t' !! i') as [o'|] eqn:Hl'; simpl in *; intros Heq;
      [|left; eapply signing_hash_zero; [|by symmetry]; set_solver|left; eapply signing_hash_zero; [|done]; set_solver|by right].
    apply (signing_hash_inj_or L) in Heq as [?|Heq]; [by left| |set_solver..]. right.
    assert (enc_output (version t') o ++ [] = enc_output (version t') o' ++ []) as Heq2 by by rewrite Heq.
    apply output_prefix in Heq2 as [-> _];
      [done|exact (Forall_lookup_1 _ _ _ _ Ho Hl)|exact (Forall_lookup_1 _ _ _ _ Ho' Hl')].
  - unfold full_outputs. rewrite Hv. intros Heq. apply (signing_hash_inj_or L) in Heq as [?|Heq]; [by left| |set_solver..]. right.
    eapply prefix_code_concat; [apply output_prefix|apply enc_output_ne|done..].
Qed.

Lemma payload_sub_inj L t t' ty i ty' i' :
  sub_messages t ty i ⊆ L → sub_messages t' ty' i' ⊆ L →
  tx_wf t → tx_wf t' → sub_payload t = sub_payload t' → signing_collision L ∨ payload t = payload t'.
Proof.
  intros Hs Hs' (_ & _ & _ & _ & _ & _ & _ & Hp & _) (_ & _ & _ & _ & _ & _ & _ & Hp' & _).
  unfold sub_messages in Hs, Hs'. unfold sub_payload.
  do 4 apply list_subseteq_app_iff_l in Hs as [_ Hs]. do 4 apply list_subseteq_app_iff_l in Hs' as [_ Hs'].
  destruct (is_native (subnetwork_id t) && bool_decide (payload t = [])) eqn:Hn,
    (is_native (subnetwork_id t') && bool_decide (payload t' = [])) eqn:Hn'; intros Heq.
  - apply andb_true_iff in Hn as [_ Hn%bool_decide_eq_true], Hn' as [_ Hn'%bool_decide_eq_true].
    right. congruence.
  - left. eapply signing_hash_zero; [|exact Heq]. set_solver.
  - left. eapply signing_hash_zero; [|symmetry; exact Heq]. set_solver.
  - apply (signing_hash_inj_or L) in Heq as [?|Heq]; [by left| |set_solver..]. right.
    rewrite <- (app_nil_r (payload t)), <- (app_nil_r (payload t')) in Heq at 2.
    by apply var_prefix in Heq as [? _]; [|lia..].
Qed.
Lemma or_and_intro (P A B : Prop) : P ∨ A → P ∨ B → P ∨ A ∧ B.
Proof. tauto. Qed.

Lemma signed_lists_inj L t t' ty i i' :
  sub_messages t ty i ⊆ L → sub_messages t' ty i' ⊆ L → version t = version t' →
  tx_wf t → tx_wf t' → sub_previous_outputs t ty = sub_previous_outputs t' ty →
  sub_sequences t ty = sub_sequences t' ty →
  (version t <? 1 = true → sub_sig_op_counts t ty = sub_sig_op_counts t' ty) →
  let ops i := default 0 (sig_op_count (compute_commit i)) in
  signing_collision L ∨
  (if is_sighash_anyone_can_pay ty then [] else previous_outpoint <$> inputs t) =
    (if is_sighash_anyone_can_pay ty then [] else previous_outpoint <$> inputs t') ∧
  (if is_sighash_single ty || is_sighash_anyone_can_pay ty || is_sighash_none ty then [] else sequence <$> inputs t) =
    (if is_sighash_single ty || is_sighash_anyone_can_pay ty || is_sighash_none ty then [] else sequence <$> inputs t') ∧
  (if (version t <? 1) && negb (is_sighash_anyone_can_pay ty) then ops <$> inputs t else []) =
    (if (version t <? 1) && negb (is_sighash_anyone_can_pay ty) then ops <$> inputs t' else []).
Proof.
  intros HL HL' Hv (_ & Hi & _) (_ & Hi' & _) Hp Hs Ho ops. unfold sub_messages in HL, HL'. rewrite <- Hv in HL'.
  unfold sub_previous_outputs, sub_sequences, sub_sig_op_counts in *.
  apply or_and_intro; [|apply or_and_intro].
  - destruct (is_sighash_anyone_can_pay ty); [by right|].
    eapply (inputs_concat_inj outpoint_wf enc_outpoint previous_outpoint L); [set_solver|set_solver|apply outpoint_prefix| | |done..].
    + intros o. apply app_ne_r, le_bytes_ne. lia.
    + by intros j [? _].
  - destruct (_ || _); [by right|].
    eapply (inputs_concat_inj (in_u 64) (le_bytes 8) sequence L); [set_solver|set_solver|apply (le_bytes_prefix_code 8)| | |done..].
    + intros o. apply le_bytes_ne. lia.
    + by intros j (_ & _ & _ & ? & _).
  - destruct (version t <? 1); [|by right]. destruct (is_sighash_anyone_can_pay ty); [by right|].
    eapply (inputs_concat_inj (in_u 8) (le_bytes 1) ops L); [set_solver|set_solver|apply (le_bytes_prefix_code 1)| | |done..|by apply Ho].
    + intros o. apply le_bytes_ne. lia.
    + apply input_sig_op_u8.
Qed.

Lemma calc_schnorr_inv {E} p i ty r h s :
  populated_wf p → reused_ok (ptx p) r → calc_schnorr_signature_hash (E := E) p i ty r = Ok (h, s) →
  ∃ inp e, populated_input (E := E) p i = Ok (inp, e) ∧ input_wf inp ∧ entry_wf e ∧
    h = signing_hash (signature_preimage (ptx p) inp e i ty).
Proof.
  intros Hwf Hr Hc. destruct (decide (i < length (inputs (ptx p)))%nat) as [Hi|Hi].
  - destruct (calc_schnorr_spec (E := E) p i ty r Hwf Hi Hr) as (inp & e & r' & H1 & H2 & H3 & H4 & H5 & _).
    exists inp, e. unfold populated_input, idx. rewrite H1, H2. rewrite H5 in Hc. by injection Hc as <- _.
  - exfalso. unfold calc_schnorr_signature_hash, populated_input, idx in Hc.
    rewrite (lookup_ge_None_2 (inputs (ptx p)) i) in Hc by lia. done.
Qed.

(** The preimage's fields are at fixed places. *)
Lemma preimage_fields t t' inp inp' e e' i i' ty ty' :
  tx_wf t → tx_wf t' → input_wf inp → input_wf inp' → entry_wf e → entry_wf e' → in_u 8 ty → in_u 8 ty' →
  signature_preimage t inp e i ty = signature_preimage t' inp' e' i' ty' →
  version t = version t' ∧ sub_previous_outputs t ty = sub_previous_outputs t' ty' ∧
  sub_sequences t ty = sub_sequences t' ty' ∧
  (version t <? 1 = true → sub_sig_op_counts t ty = sub_sig_op_counts t' ty' ∧
     default 0 (sig_op_count (compute_commit inp)) = default 0 (sig_op_count (compute_commit inp'))) ∧
  previous_outpoint inp = previous_outpoint inp' ∧ entry_spk e = entry_spk e' ∧ amount e = amount e' ∧
  sequence inp = sequence inp' ∧ sub_outputs t ty i = sub_outputs t' ty' i' ∧ lock_time t = lock_time t' ∧
  subnetwork_id t = subnetwork_id t' ∧ gas t = gas t' ∧ sub_payload t = sub_payload t' ∧ ty = ty'.
Proof.
  intros (Hv & _ & _ & Hlt & [Hsn _] & Hg & _) (Hv' & _ & _ & Hlt' & [Hsn' _] & Hg' & _) Hi Hi' He He' Hty Hty' Heq.
  pose proof (input_sig_op_u8 inp Hi) as Hop. pose proof (input_sig_op_u8 inp' Hi') as Hop'.
  destruct Hi as (Hout & _ & _ & Hseq & _), Hi' as (Hout' & _ & _ & Hseq' & _).
  destruct He as (Ham & Hspk & _), He' as (Ham' & Hspk' & _).
  destruct (sub_lengths t ty i) as (L1 & L2 & L3 & L4 & L5).
  destruct (sub_lengths t' ty' i') as (L1' & L2' & L3' & L4' & L5').
  unfold signature_preimage in Heq.
  apply int_prefix in Heq as [Hver Heq]; [|done..]. rewrite <- Hver in Heq.
  apply fixed_prefix in Heq as [H1 Heq]; [|congruence]. apply fixed_prefix in Heq as [H2 Heq]; [|congruence].
  apply fixed_prefix in Heq as [H3 Heq]; [|by destruct (version t <? 1); simpl; congruence].
  apply outpoint_prefix in Heq as [H4 Heq]; [|done..]. apply spk_prefix in Heq as [H5 Heq]; [|done..].
  apply int_prefix in Heq as [H6 Heq]; [|done..]. apply int_prefix in Heq as [H7 Heq]; [|done..].
  apply fixed_prefix in Heq as [H8 Heq]; [|by destruct (version t <? 1); rewrite ?length_le_bytes].
  apply fixed_prefix in Heq as [H9 Heq]; [|congruence]. apply int_prefix in Heq as [H10 Heq]; [|done..].
  apply fixed_prefix in Heq as [H11 Heq]; [|congruence]. apply int_prefix in Heq as [H12 Heq]; [|done..].
  apply fixed_prefix in Heq as [H13 Heq]; [|congruence].
  apply le_bytes_inj in Heq; [|done..]. split_and!; try done.
  intros Hlt1. rewrite Hlt1 in H3, H8. split; [done|]. by apply le_bytes_inj in H8.
Qed.

Lemma signing_messages_sub {E} p i ty inp e :
  populated_input (E := E) p i = Ok (inp, e) →
  signature_preimage (ptx p) inp e i ty ∈ signing_messages p i ty ∧ sub_messages (ptx p) ty i ⊆ signing_messages p i ty.
Proof.
  unfold populated_input, idx, signing_messages. destruct (inputs (ptx p) !! i), (entries p !! i); cbn; try done.
  intros [= -> ->]. set_solver.
Qed.

(** C13. A signature covers what its hash type says: if two inputs, of any two
    well-formed transactions and under any hash types, with any memo of the
    sub-hashes that belongs to the transaction, have the same signature hash, then
    the hash types are the same and so is everything that the type covers (the
    version, the outpoints, sequences and signature-operation counts of the inputs,
    the spent output's script and amount, the outputs with their covenants, lock
    time, subnetwork, gas and payload); or, among the preimages of the two hashes and
    of their sub-hashes, two have one digest or one has the all-zero digest. *)
Theorem schnorr_hash_binding {E} p p' i i' ty ty' r r' h s s' :
  populated_wf p → populated_wf p' → in_u 8 ty → in_u 8 ty' →
  reused_ok (ptx p) r → reused_ok (ptx p') r' →
  calc_schnorr_signature_hash (E := E) p i ty r = Ok (h, s) →
  calc_schnorr_signature_hash (E := E) p' i' ty' r' = Ok (h, s') →
  signing_collision (signing_messages p i ty ++ signing_messages p' i' ty') ∨
  ∃ inp e inp' e',
    populated_input (E := E) p i = Ok (inp, e) ∧ populated_input (E := E) p' i' = Ok (inp', e') ∧
    signed_view (ptx p) inp e i ty = signed_view (ptx p') inp' e' i' ty'.
Proof.
  intros Hwf Hwf' Hty Hty' Hr Hr' Hc Hc'.
  destruct (calc_schnorr_inv p i ty r h s Hwf Hr Hc) as (inp & e & Hpi & Hi & He & Hh).
  destruct (calc_schnorr_inv p' i' ty' r' h s' Hwf' Hr' Hc') as (inp' & e' & Hpi' & Hi' & He' & Hh').
  destruct (signing_messages_sub p i ty inp e Hpi) as [Hm Hs]. destruct (signing_messages_sub p' i' ty' inp' e' Hpi') as [Hm' Hs'].
  set (L := signing_messages p i ty ++ signing_messages p' i' ty').
  assert (signing_messages p i ty ⊆ L) as HL by set_solver. assert (signing_messages p' i' ty' ⊆ L) as HL' by set_solver.
  rewrite Hh in Hh'. apply (signing_hash_inj_or L) in Hh' as [?|Hpre]; [by left| |by apply HL|by apply HL'].
  apply preimage_fields in Hpre; [|apply Hwf|apply Hwf'|done..].
  destruct Hpre as (Hv & H1 & H2 & H3 & H4 & H5 & H6 & H7 & H8 & H9 & H10 & H11 & H12 & <-).
  destruct (signed_lists_inj L (ptx p) (ptx p') ty i i') as [?|(G1 & G2 & G3)];
    [set_solver|set_solver|done|apply Hwf|apply Hwf'|done|done|by intros ?; apply H3|by left|].
  destruct (outputs_sub_inj L (ptx p) (ptx p') ty i i') as [?|G4]; [set_solver|set_solver|apply Hwf|apply Hwf'|done|done|by left|].
  destruct (payload_sub_inj L (ptx p) (ptx p') ty i ty i') as [?|G5]; [set_solver|set_solver|apply Hwf|apply Hwf'|done|by left|].
  right. exists inp, e, inp', e'. split; [done|]. split; [done|]. unfold signed_view. 
  rewrite G1, G2, G3, G4, G5, <- Hv, H4, H5, H6, H7, H9, H10, H11. f_equal.
  destruct (version (ptx p) <? 1); [by apply H3|done].
Qed.
End SighashBinding.

(** A concrete transaction with two inputs, under a hash that keeps the first
    thirty-two bytes of what was written. *)
Module SampleTx.
Definition hashes : SigningHashes := {| signing_hash m := resize 32 0 m; signing_hash_ecdsa m := resize 32 1 m |}.

Lemma hashes_laws : @SigningHashesLaws hashes.
Proof. constructor. intros m. apply length_resize. Qed.

Definition input (n : Z) : TransactionInput :=
  mkInput (mkOutpoint (replicate 32 n) n) [] n (SigopCount 1).
Definition entry (n : Z) : UtxoEntry := mkEntry (10 * n) (mkSpk 0 [81]) 7 false None.
Definition tx : Transaction :=
  mkTx 0 [input 1; input 2] [mkOutput 25 (mkSpk 0 [81]) None] 0 SUBNETWORK_ID_NATIVE 0 [] 0.
Definition populated : PopulatedTransaction := mkPopulated tx [entry 1; entry 2].

Ltac wf := repeat first [done | progress unfold in_u; lia | split | constructor | vm_compute; congruence ].

Lemma populated_ok : populated_wf populated.
Proof. wf. Qed.

(** The second input's hash, with a fresh memo and with the memo the first input left. *)
Definition hash_at (i : nat) (r : SigHashReusedValues) : Hash * SigHashReusedValues :=
  match @calc_schnorr_signature_hash hashes unit populated i SIG_HASH_ALL r with
  | Ok x => x
  | _ => (ZERO_HASH, r)
  end.
End SampleTx.

Lemma schnorr_hash_binding_witness :
  @signing_collision SampleTx.hashes (@signing_messages SampleTx.hashes SampleTx.populated 1 SIG_HASH_ALL ++
    @signing_messages SampleTx.hashes SampleTx.populated 1 SIG_HASH_ALL) ∨
  ∃ inp e inp' e',
    populated_input (E := unit) SampleTx.populated 1 = Ok (inp, e) ∧
    populated_input (E := unit) SampleTx.populated 1 = Ok (inp', e') ∧
    signed_view SampleTx.tx inp e 1 SIG_HASH_ALL = signed_view SampleTx.tx inp' e' 1 SIG_HASH_ALL.
Proof.
  pose proof SampleTx.hashes_laws as Hl.
  assert (∃ r, SampleTx.hash_at 0 reused_new = ((SampleTx.hash_at 0 reused_new).1, r) ∧
    @reused_ok SampleTx.hashes SampleTx.tx r) as (r & Hr0 & Hr).
  { destruct (@calc_schnorr_spec SampleTx.hashes unit SampleTx.populated 0 SIG_HASH_ALL reused_new)
      as (inp & e & r & _ & _ & _ & _ & Hc & Hr); [apply SampleTx.populated_ok|simpl; lia|apply reused_new_ok|].
    exists r. unfold SampleTx.hash_at. by rewrite Hc. }
  destruct (@schnorr_hash_binding SampleTx.hashes Hl unit SampleTx.populated SampleTx.populated 1 1
    SIG_HASH_ALL SIG_HASH_ALL reused_new (SampleTx.hash_at 0 reused_new).2
    (SampleTx.hash_at 1 reused_new).1 (SampleTx.hash_at 1 reused_new).2
    (SampleTx.hash_at 1 (SampleTx.hash_at 0 reused_new).2).2)
    as [?|?]; [apply SampleTx.populated_ok|apply SampleTx.populated_ok|by vm_compute|by vm_compute
      |apply reused_new_ok|by rewrite Hr0|vm_compute; reflexivity|vm_compute; reflexivity|by left|by right].
Defined.
