(* ===== verification/Mass.v ===== *)
(** * Transaction mass (consensus/core/src/mass/mod.rs)

    The resources a transaction is charged for: compute and transient mass from its
    own bytes and commitments, and the storage mass of KIP-0009 from the amounts it
    spends and creates.  A sum of [u64] values overflows exactly when its total does,
    so it is computed exactly and checked once. *)

From S2P Require Import Prelude Bytes Transaction Bundle.

Abbreviation SHIELDED_MASS_PER_ACTION := (1000)%Z (only parsing).
Abbreviation TRANSIENT_BYTE_TO_MASS_FACTOR := (4)%Z (only parsing).
Abbreviation GRAMS_PER_COMPUTE_BUDGET_UNIT := (100)%Z (only parsing).
Abbreviation GRAMS_PER_SIGOP_COUNT_UNIT := (1000)%Z (only parsing).
Abbreviation HASH_SIZE := (32)%Z (only parsing).
Abbreviation SUBNETWORK_ID_SIZE := (20)%Z (only parsing).

(** [Iterator::sum::<u64>] and chains of [+=]. *)
Definition sum_p {E} (l : list Z) : res E Z := if sumZ l <? 2 ^ 64 then Ok (sumZ l) else Panic.

Definition version_expects_compute_budget_field (v : Z) : bool := 1 <=? v.

(** ** Estimated sizes; those of one input or output fit in a [u64]. *)

Definition outpoint_estimated_serialized_size : Z := HASH_SIZE + 4.

Definition transaction_input_estimated_serialized_size (input : TransactionInput) (version : Z) : Z :=
  outpoint_estimated_serialized_size + 8 + Z.of_nat (length (signature_script input)) + 8 + (if 1 <=? version then 2 else 0).

Definition transaction_output_estimated_serialized_size (o : TransactionOutput) : Z :=
  8 + 2 + 8 + Z.of_nat (length (spk_script (out_spk o))) +
  match out_covenant o with Some _ => 2 + HASH_SIZE | None => 0 end.

Definition transaction_estimated_serialized_size {E} (t : Transaction) : res E Z :=
  inputs_size ← sum_p ((λ i, transaction_input_estimated_serialized_size i (version t)) <$> inputs t);
  outputs_size ← sum_p (transaction_output_estimated_serialized_size <$> outputs t);
  sum_p [2; 8; inputs_size; 8; outputs_size; 8; SUBNETWORK_ID_SIZE; 8; HASH_SIZE; 8; Z.of_nat (length (payload t))].

(** ** Storage units *)

Abbreviation UTXO_CONST_STORAGE := (63)%Z (only parsing).
Abbreviation UTXO_UNIT_SIZE := (100)%Z (only parsing).

Definition utxo_plurality (spk : ScriptPublicKey) (has_covenant_id : bool) : Z :=
  div_ceil64 (UTXO_CONST_STORAGE + Z.of_nat (length (spk_script spk)) + (if has_covenant_id then HASH_SIZE else 0)) UTXO_UNIT_SIZE.

Record UtxoCell := mkCell { plurality : Z; cell_amount : Z }.

Definition is_some {A} (o : option A) : bool := match o with Some _ => true | None => false end.

Definition cell_of_entry (e : UtxoEntry) : UtxoCell :=
  mkCell (utxo_plurality (entry_spk e) (is_some (entry_covenant_id e))) (amount e).
Definition cell_of_output (o : TransactionOutput) : UtxoCell :=
  mkCell (utxo_plurality (out_spk o) (is_some (out_covenant o))) (out_value o).

(** ** Storage mass.  [Err tt] is the [None] of the source. *)

Definition checked_mul (w a b : Z) : option Z := if a * b <? 2 ^ w then Some (a * b) else None.
(** Division panics on zero. *)
Definition div_p {E} (a b : Z) : res E Z := if b =? 0 then Panic else Ok (a / b).

(** The fold over the outputs: their pluralities and their harmonic part. *)
Fixpoint harmonic_outputs (storm_param : Z) (outs : list UtxoCell) (acc_plurality acc_harm : Z) : res () (Z * Z) :=
  match outs with
  | [] => Ok (acc_plurality, acc_harm)
  | cell :: outs =>
      p ← add_p 64 acc_plurality (plurality cell);
      c ← ok_or tt (checked_mul 64 storm_param (plurality cell));
      c ← ok_or tt (checked_mul 64 c (plurality cell));
      q ← div_p c (cell_amount cell);
      h ← ok_or tt (checked_add 64 acc_harm q);
      harmonic_outputs storm_param outs p h
  end.

(** The contributions of the inputs on the relaxed path. *)
Fixpoint harmonic_inputs (storm_param : Z) (ins : list UtxoCell) (total : Z) : res () Z :=
  match ins with
  | [] => Ok total
  | cell :: ins =>
      c ← mul_p 64 storm_param (plurality cell);
      c ← mul_p 64 c (plurality cell);
      q ← div_p c (cell_amount cell);
      harmonic_inputs storm_param ins (sat_add64 total q)
  end.

Definition relaxed_formula_path (ins : list UtxoCell) (outs_plurality : Z) : res () bool :=
  if outs_plurality =? 1 then Ok true
  else if (2 <? length ins)%nat then Ok false
  else
    ins_plurality ← sum_p (plurality <$> ins);
    Ok ((ins_plurality =? 1) || ((outs_plurality =? 2) && (ins_plurality =? 2))).

Definition calc_storage_mass (is_coinbase : bool) (ins outs : list UtxoCell) (storm_param : Z) : res () Z :=
  if is_coinbase then Ok 0
  else
    '(outs_plurality, harmonic_outs) ← harmonic_outputs storm_param outs 0 0;
    if (length ins =? 0)%nat then Ok harmonic_outs
    else
      relaxed ← relaxed_formula_path ins outs_plurality;
      if (relaxed : bool) then
        harmonic_ins ← harmonic_inputs storm_param ins 0;
        Ok (sat_sub64 harmonic_outs harmonic_ins)
      else
        ins_plurality ← sum_p (plurality <$> ins);
        sum_ins ← sum_p (cell_amount <$> ins);
        mean ← div_p sum_ins ins_plurality;
        let mean_ins := Z.max mean 1 in
        c ← div_p storm_param mean_ins;
        Ok (sat_sub64 harmonic_outs (sat_mul64 ins_plurality c)).

(** ** The calculator *)

Record NonContextualMasses := mkMasses { compute_mass : Z; transient_mass : Z }.

Record MassCalculator := mkCalculator {
  mass_per_tx_byte : Z;
  mass_per_script_pub_key_byte : Z;
  storage_mass_parameter : Z;
}.

(** The commitment of every input, which its transaction's version expects. *)
Definition commitments {E} (get : ComputeCommit → option Z) (t : Transaction) : res E Z :=
  l ← mapM (λ i, unwrap (get (compute_commit i))) (inputs t);
  sum_p l.

Definition calc_script_mass {E} (t : Transaction) : res E Z :=
  if version_expects_compute_budget_field (version t) then
    n ← commitments compute_budget t;
    mul_p 64 GRAMS_PER_COMPUTE_BUDGET_UNIT n
  else
    n ← commitments sig_op_count t;
    mul_p 64 n GRAMS_PER_SIGOP_COUNT_UNIT.

Definition calc_non_contextual_masses {E} (m : MassCalculator) (t : Transaction) : res E NonContextualMasses :=
  if is_coinbase t then Ok (mkMasses 0 0)
  else
    size ← transaction_estimated_serialized_size t;
    compute_mass_for_size ← mul_p 64 size (mass_per_tx_byte m);
    total_spk_size ← sum_p ((λ o, 2 + Z.of_nat (length (spk_script (out_spk o)))) <$> outputs t);
    total_spk_mass ← mul_p 64 total_spk_size (mass_per_script_pub_key_byte m);
    script_mass ← calc_script_mass t;
    base_compute_mass ← sum_p [compute_mass_for_size; total_spk_mass; script_mass];
    let compute_mass :=
      if is_shielded t then
        let actions := default 0 (action_count_from_bytes (payload t)) in
        sat_add64 base_compute_mass (sat_mul64 actions SHIELDED_MASS_PER_ACTION)
      else base_compute_mass in
    transient_mass ← mul_p 64 size TRANSIENT_BYTE_TO_MASS_FACTOR;
    Ok (mkMasses compute_mass transient_mass).

Definition calc_contextual_masses (m : MassCalculator) (p : PopulatedTransaction) : res () Z :=
  calc_storage_mass (is_coinbase (ptx p)) (cell_of_entry <$> entries p) (cell_of_output <$> outputs (ptx p))
    (storage_mass_parameter m).

(** ** Storage mass returns

    On cells with positive amounts, of a plurality [b] at most that the storage
    parameter leaves room for, no operation of [calc_storage_mass] panics. *)

Definition cell_ok (b : Z) (c : UtxoCell) : Prop := 1 ≤ plurality c ≤ b ∧ 0 < cell_amount c.

Lemma harmonic_outputs_no_panic C b outs ap ah :
  0 ≤ C → Forall (cell_ok b) outs → 0 ≤ ap → ap + Z.of_nat (length outs) * b < 2 ^ 64 →
  match harmonic_outputs C outs ap ah with
  | Ok (p, _) => p = ap + sumZ (plurality <$> outs)
  | Err _ => True
  | Panic => False
  end.
Proof.
  intros HC Hf. revert ap ah. induction Hf as [|c outs [Hp Ha] Hf IH]; intros ap ah Hap Hsum; cbn [harmonic_outputs].
  { rewrite fmap_nil. unfold sumZ. simpl. lia. }
  rewrite fmap_cons, sumZ_cons. cbn [length] in Hsum.
  rewrite (proj2 (add_p_Ok 64 ap (plurality c) _)) by (split; [done|nia]). cbn [mbind res_mbind].
  unfold ok_or, checked_mul. destruct (_ <? 2 ^ 64); [|done]. cbn [mbind res_mbind]. destruct (_ <? 2 ^ 64); [|done]. cbn [mbind res_mbind].
  unfold div_p. rewrite (proj2 (Z.eqb_neq _ _)) by lia. cbn [mbind res_mbind].
  destruct (checked_add 64 ah _) as [h|]; [|done]. cbn [mbind res_mbind].
  specialize (IH (ap + plurality c) h ltac:(lia) ltac:(nia)).
  destruct (harmonic_outputs C outs _ _) as [[q ?]| |]; [|done..]. lia.
Qed.

Lemma harmonic_inputs_no_panic C b ins total :
  0 ≤ C → C * b * b < 2 ^ 64 → Forall (cell_ok b) ins → ∃ h, harmonic_inputs C ins total = Ok h.
Proof.
  intros HC Hb Hf. revert total. induction Hf as [|c ins [Hp Ha] Hf IH]; intros total; cbn [harmonic_inputs]; [by eexists|].
  assert (C * plurality c ≤ C * b) by (apply Z.mul_le_mono_nonneg_l; lia).
  assert (C * plurality c * plurality c ≤ C * b * b).
  { apply Z.mul_le_mono_nonneg; [|lia|lia|lia]. apply Z.mul_nonneg_nonneg; lia. }
  assert (C * plurality c ≤ C * plurality c * plurality c) by nia.
  rewrite (proj2 (mul_p_Ok 64 C (plurality c) _)) by (split; [done|lia]). cbn [mbind res_mbind].
  rewrite (proj2 (mul_p_Ok 64 _ (plurality c) _)) by (split; [done|lia]). cbn [mbind res_mbind].
  unfold div_p. rewrite (proj2 (Z.eqb_neq _ _)) by lia. cbn [mbind res_mbind]. apply IH.
Qed.

Lemma calc_storage_mass_no_panic cb C b ins outs :
  0 ≤ C → C * b * b < 2 ^ 64 → Forall (cell_ok b) ins → Forall (cell_ok b) outs →
  Z.of_nat (length ins) * b < 2 ^ 64 → Z.of_nat (length outs) * b < 2 ^ 64 → sumZ (cell_amount <$> ins) < 2 ^ 64 →
  calc_storage_mass cb ins outs C ≠ Panic.
Proof.
  intros HC Hb Hi Ho Hni Hno Hsum. unfold calc_storage_mass. destruct cb; [done|].
  pose proof (harmonic_outputs_no_panic C b outs 0 0 HC Ho ltac:(lia) ltac:(lia)) as Hh.
  destruct (harmonic_outputs C outs 0 0) as [[p h]| |]; cbn [mbind res_mbind]; [|done|done].
  destruct (Nat.eqb_spec (length ins) 0) as [|Hne]; [done|].
  assert (1 ≤ sumZ (plurality <$> ins) ≤ Z.of_nat (length ins) * b) as Hp.
  { split.
    - destruct ins as [|c ins]; [done|]. apply Forall_cons in Hi as [[Hc _] Hi]. rewrite fmap_cons, sumZ_cons.
      assert (0 ≤ sumZ (plurality <$> ins)); [|lia]. apply sumZ_nonneg, Forall_fmap. eapply Forall_impl; [exact Hi|].
      intros c' [? _]. simpl. lia.
    - rewrite <- (length_fmap plurality ins). apply sumZ_bound, Forall_fmap. eapply Forall_impl; [exact Hi|]. intros c [? _]. simpl. lia. }
  assert (sum_p (E := ()) (plurality <$> ins) = Ok (sumZ (plurality <$> ins))) as Hps.
  { unfold sum_p. by rewrite (proj2 (Z.ltb_lt _ _)) by lia. }
  apply bind_no_panic.
  { unfold relaxed_formula_path. destruct (_ =? 1); [done|]. destruct (_ <? _)%nat; [done|]. by rewrite Hps. }
  intros [] _.
  - destruct (harmonic_inputs_no_panic C b ins 0 HC Hb Hi) as [hi ->]. done.
  - rewrite Hps. cbn [mbind res_mbind]. unfold sum_p. rewrite (proj2 (Z.ltb_lt _ _)) by done. cbn [mbind res_mbind].
    unfold div_p. rewrite (proj2 (Z.eqb_neq _ _)) by lia. cbn [mbind res_mbind]. by rewrite (proj2 (Z.eqb_neq _ _)) by lia.
Qed.

Lemma plurality_bound spk has b :
  Z.of_nat (length (spk_script spk)) ≤ b → 1 ≤ utxo_plurality spk has ≤ div_ceil64 (UTXO_CONST_STORAGE + b + HASH_SIZE) UTXO_UNIT_SIZE.
Proof.
  intros Hb. unfold utxo_plurality, div_ceil64. set (x := UTXO_CONST_STORAGE + _ + _). set (y := UTXO_CONST_STORAGE + b + HASH_SIZE).
  assert (63 ≤ x ≤ y) as Hxy by (unfold x, y; destruct has; lia). clearbody x y.
  pose proof (Z.div_mod x 100 ltac:(lia)). pose proof (Z.div_mod y 100 ltac:(lia)).
  pose proof (Z.mod_pos_bound x 100 ltac:(lia)). pose proof (Z.mod_pos_bound y 100 ltac:(lia)).
  destruct (Z.ltb_spec 0 (x mod 100)), (Z.ltb_spec 0 (y mod 100)); lia.
Qed.
