(* ===== verification/ScriptNum.v ===== *)
(** * Script errors and script numbers (crypto/txscript/errors/src/lib.rs,
    crypto/txscript/src/data_stack.rs)

    The error type of the script engine and the encodings of the values that
    live on its stacks: sign-magnitude little-endian numbers, booleans and
    hashes.  The messages carried by some error variants are not modelled;
    their numeric fields are. *)

From S2P Require Import Prelude Bytes Transaction.

Inductive SerializationError :=
| NumberTooLong (x : Z) (len : nat)
| ArkSerialization.

Inductive CovenantsError :=
| WrongGenesisCovenantId (input : nat) (id : Hash)
| AuthInputOutOfBounds (output : nat) (input : Z)
| InvalidCovInIndex (id : Hash) (k : nat)
| InvalidCovOutIndex (id : Hash) (k : nat)
| InvalidAuthCovOutIndex (k input authorized : nat).

Inductive TxScriptError :=
| MalformedPushSize (data : bytes)
| MalformedPush (required remaining : nat)
| InvalidInputIndex (i : Z) (len : nat)
| InvalidCovInputIndex (i : Z)
| StackSizeExceeded (size max : nat)
| InvalidOpcode
| OpcodeReserved
| OpcodeDisabled
| EmptyStack
| CleanStack (n : nat)
| EvalFalse
| EarlyReturn
| VerifyError
| InvalidState
| InvalidPubkey
| InvalidSignature
| SigcacheSignatureInvalid
| TooManyOperations (max : Z)
| NotATransactionInput
| ElementTooBig (size max : Z)
| NotMinimalData
| InvalidSource
| UnsatisfiedLockTime
| NumberTooBig
| NullFail
| InvalidSignatureCount
| InvalidPubKeyCount
| InvalidSigHashType (ty : Z)
| PubKeyFormat
| NoScripts
| SignatureScriptNotPushOnly
| ErrUnbalancedConditional
| InvalidStackOperation (required len : Z)
| ScriptSize (size max : Z)
| InvalidOutputIndex (i : Z) (len : nat)
| Serialization (e : SerializationError)
| ExceededSigOpLimit (limit : Z)
| ExceededCommittedScriptUnits (used limit : Z)
| ZkIntegrity
| OutOfBoundsSubstring (start stop len : Z)
| InvalidIndex (i : Z)
| InvalidRange (start stop : Z)
| InvalidLengthOfBlockHash (len : nat)
| BlockNotSelected
| BlockAlreadyPruned
| BlockIsTooDeep
| CovenantsErr (e : CovenantsError).

(** ** Signed 64-bit arithmetic *)

Definition in_ib (w x : Z) : bool := (- 2 ^ (w - 1) <=? x) && (x <? 2 ^ (w - 1)).

(** [+], [-], [*] and negation of [iw] under [overflow-checks = true]. *)
Definition signed_p {E} (w x : Z) : res E Z := if in_ib w x then Ok x else Panic.

(** [<<]: the bits shifted out are lost. *)
Definition shl_i (w x k : Z) : Z := to_signed w (of_signed w (Z.shiftl x k)).

(** ** Numbers *)

Definition is_empty {A} (l : list A) : bool := match l with [] => true | _ => false end.

Definition check_minimal_data_encoding (v : bytes) : res TxScriptError () :=
  if is_empty v then Ok tt
  else
    msb ← idx v (length v - 1);
    if Z.land msb 127 =? 0 then
      if (length v =? 1)%nat then Err NotMinimalData
      else
        next ← idx v (length v - 2);
        if Z.land next 128 =? 0 then Err NotMinimalData else Ok tt
    else Ok tt.

(** The iterator that [serialize_i64] collects. *)
Fixpoint magnitude_bytes (fuel : nat) (positive : Z) (last_saturated : bool) : bytes :=
  match fuel with
  | O => []
  | S fuel =>
      if positive =? 0 then
        if last_saturated then 0 :: magnitude_bytes fuel positive false else []
      else
        let value := Z.land positive 255 in
        value :: magnitude_bytes fuel (Z.shiftr positive 8) (negb (Z.land value 128 =? 0))
  end.

(** [*num |= 0x80] on the last element. *)
Definition set_sign {E} (v : bytes) : res E bytes :=
  match last v with
  | Some num => upd v (length v - 1) (Z.lor num 128)
  | None => Panic
  end.

Definition serialize_i64 (from : Z) (size : option nat) : res SerializationError bytes :=
  let number_vec := magnitude_bytes 10 (Z.abs from) false in
  number_vec ←
    match size with
    | Some size =>
        if (size <? length number_vec)%nat then Err (NumberTooLong from size)
        else Ok (resize size 0 number_vec)
    | None => Ok number_vec
    end;
  if Z.sgn from =? -1 then set_sign number_vec else Ok number_vec.

Definition deserialize_i64 (v : bytes) (enforce_minimal : bool) : res TxScriptError Z :=
  if (8 <? length v)%nat then Err NotMinimalData
  else if (length v =? 0)%nat then Ok 0
  else
    _ ← (if enforce_minimal then check_minimal_data_encoding v else Ok tt);
    msb ← idx v (length v - 1);
    let sign := 1 - 2 * Z.shiftr msb 7 in
    let first_byte := Z.land msb 127 in
    mag ← foldl (λ accum item, accum ← accum; signed_p 64 (shl_i 64 accum 8 + item))
            (Ok first_byte) (reverse (take (length v - 1) v));
    signed_p 64 (mag * sign).

(** [OpcodeData<SizedEncodeInt<LEN>>]. *)
Definition deserialize_sized (LEN : nat) (v : bytes) (enforce_minimal : bool) : res TxScriptError Z :=
  if (LEN <? length v)%nat then Err NumberTooBig else deserialize_i64 v enforce_minimal.

Definition serialize_sized (LEN : nat) (x : Z) : res SerializationError bytes :=
  b ← serialize_i64 x None;
  if (LEN <? length b)%nat then Err (NumberTooLong x LEN) else Ok b.

(** [OpcodeData<i64>] and [OpcodeData<i32>]. *)
Definition deserialize_num64 : bytes → bool → res TxScriptError Z := deserialize_sized 8.
Definition serialize_num64 : Z → res SerializationError bytes := serialize_sized 8.

Definition deserialize_num32 (v : bytes) (enforce_minimal : bool) : res TxScriptError Z :=
  if enforce_minimal then
    x ← deserialize_sized 4 v true;
    if in_ib 32 x then Ok x else Panic
  else
    x ← deserialize_sized 8 v false;
    if in_ib 32 x then Ok x else Err NumberTooBig.
Definition serialize_num32 : Z → res SerializationError bytes := serialize_sized 4.

(** [OpcodeData<bool>]. *)
Definition deserialize_bool (v : bytes) : res TxScriptError bool :=
  if is_empty v then Ok false
  else
    msb ← idx v (length v - 1);
    Ok (negb (Z.land msb 127 =? 0) || existsb (λ b, negb (b =? 0)) (take (length v - 1) v)).
Definition serialize_bool (b : bool) : bytes := if b then [1] else [].

(** [OpcodeData<Hash>]. *)
Definition deserialize_hash (v : bytes) : res TxScriptError Hash :=
  if (length v =? 32)%nat then Ok v else Err (InvalidLengthOfBlockHash (length v)).

(** ** Lemmas *)

Lemma byte_bits b :
  in_u 8 b →
  Z.land b 127 = b mod 128 ∧ Z.shiftr b 7 = b / 128 ∧ (Z.land b 128 =? 0) = (b <? 128) ∧
  (b < 128 → Z.lor b 128 = b + 128).
Proof.
  intros Hb. split_and!.
  - change 127 with (Z.ones 7). by rewrite Z.land_ones.
  - by rewrite Z.shiftr_div_pow2.
  - assert (forallb (λ b, Bool.eqb (Z.land b 128 =? 0) (b <? 128)) (seqZ 0 256) = true) as Hall by done.
    rewrite forallb_forall in Hall. apply Bool.eqb_prop, Hall, list_elem_of_In, elem_of_seqZ.
    unfold in_u in Hb. lia.
  - intros Hlt.
    assert (forallb (λ b, Z.lor b 128 =? b + 128) (seqZ 0 128) = true) as Hall by done.
    rewrite forallb_forall in Hall. apply Z.eqb_eq, Hall, list_elem_of_In, elem_of_seqZ.
    unfold in_u in Hb. lia.
Qed.

(** The value of a nonempty encoding [a ++ [m]]. *)
Definition magnitude (a : bytes) (m : Z) : Z := of_le_bytes a + 2 ^ (8 * Z.of_nat (length a)) * (m mod 128).
Definition signed_value (a : bytes) (m : Z) : Z := if m <? 128 then magnitude a m else - magnitude a m.

(** No shorter encoding exists. *)
Definition minimal (a : bytes) (m : Z) : Prop :=
  m mod 128 ≠ 0 ∨ ∃ a' n, a = a' ++ [n] ∧ 128 ≤ n.

Lemma last_byte (a : bytes) m : length (a ++ [m]) = S (length a) ∧ (a ++ [m]) !! length a = Some m.
Proof. split; [rewrite length_app; simpl; lia|]. by rewrite list_lookup_middle. Qed.

Lemma magnitude_bound a m : is_bytes a → 0 ≤ magnitude a m < 128 * 2 ^ (8 * Z.of_nat (length a)).
Proof.
  intros Ha. unfold magnitude. pose proof (of_le_bytes_bound a Ha) as Hb.
  pose proof (Z.mod_pos_bound m 128 ltac:(lia)). nia.
Qed.

Lemma magnitude_lower a m :
  is_bytes a → minimal a m → 128 * 2 ^ (8 * Z.of_nat (length a)) ≤ 256 * magnitude a m.
Proof.
  intros Ha Hmin. unfold magnitude. pose proof (Z.mod_pos_bound m 128 ltac:(lia)).
  pose proof (of_le_bytes_bound a Ha) as Hb.
  destruct Hmin as [Hne|(a' & n & -> & Hn)]; [nia|].
  rewrite of_le_bytes_app, length_app in *. simpl length in *. simpl of_le_bytes in *.
  apply is_bytes_app in Ha as [Ha' _]. pose proof (of_le_bytes_bound a' Ha').
  replace (8 * Z.of_nat (length a' + 1)) with (8 * Z.of_nat (length a') + 8) in * by lia.
  rewrite Z.pow_add_r in * by lia. change (2 ^ 8) with 256 in *. nia.
Qed.

(** A minimal encoding is determined by its value. *)
Lemma magnitude_inj a m b n :
  is_bytes a → is_bytes b → minimal a m → minimal b n → magnitude a m = magnitude b n →
  a = b ∧ m mod 128 = n mod 128.
Proof.
  intros Ha Hb Hm Hn Heq.
  pose proof (magnitude_bound a m Ha). pose proof (magnitude_lower a m Ha Hm).
  pose proof (magnitude_bound b n Hb). pose proof (magnitude_lower b n Hb Hn).
  assert (length a = length b) as Hlen.
  { destruct (lt_eq_lt_dec (length a) (length b)) as [[Hlt|]|Hlt]; [|done|]; exfalso.
    - pose proof (Z.pow_le_mono_r 2 (8 * Z.of_nat (length a) + 8) (8 * Z.of_nat (length b)) ltac:(lia) ltac:(lia)) as Hp.
      rewrite Z.pow_add_r in Hp by lia. change (2 ^ 8) with 256 in Hp. lia.
    - pose proof (Z.pow_le_mono_r 2 (8 * Z.of_nat (length b) + 8) (8 * Z.of_nat (length a)) ltac:(lia) ltac:(lia)) as Hp.
      rewrite Z.pow_add_r in Hp by lia. change (2 ^ 8) with 256 in Hp. lia. }
  unfold magnitude in Heq. rewrite Hlen in Heq.
  pose proof (of_le_bytes_bound a Ha) as Ba. pose proof (of_le_bytes_bound b Hb) as Bb. rewrite Hlen in Ba.
  rewrite (Z.add_comm (of_le_bytes a)), (Z.add_comm (of_le_bytes b)) in Heq.
  apply Z.div_mod_unique in Heq as [? Heq]; [|lia..]. split; [|done].
  rewrite <- (le_bytes_of_le_bytes a Ha), <- (le_bytes_of_le_bytes b Hb). congruence.
Qed.

Lemma check_minimal_spec a m :
  is_bytes a → in_u 8 m →
  (check_minimal_data_encoding (a ++ [m]) = Ok tt ∧ minimal a m) ∨
  (check_minimal_data_encoding (a ++ [m]) = Err NotMinimalData ∧ ¬ minimal a m).
Proof.
  intros Ha Hm. destruct (last_byte a m) as [Hlen Hl]. unfold check_minimal_data_encoding.
  assert (is_empty (a ++ [m]) = false) as -> by by destruct a.
  rewrite Hlen. replace (S (length a) - 1)%nat with (length a) by lia. rewrite (idx_Ok _ _ m Hl).
  cbn [mbind res_mbind]. destruct (byte_bits m Hm) as (-> & _ & _ & _).
  destruct (Z.eqb_spec (m mod 128) 0) as [H0|H0]; [|by left; split; [|left]].
  destruct a as [|n a' _] using rev_ind.
  { right. split; [done|]. intros [?|(a' & n & Heq & _)]; [done|]. by destruct a'. }
  apply is_bytes_app in Ha as [Ha Hn%is_bytes_cons]. destruct Hn as [Hn _].
  replace (S (length (a' ++ [n])) =? 1)%nat with false
    by (rewrite length_app; symmetry; apply Nat.eqb_neq; simpl; lia).
  rewrite (idx_Ok _ _ n).
  2:{ rewrite length_app, <- app_assoc. cbn [length app].
      apply list_lookup_middle. lia. }
  cbn [mbind res_mbind]. destruct (byte_bits n Hn) as (_ & _ & -> & _).
  destruct (Z.ltb_spec n 128) as [Hlt|Hge]; [right|left].
  - split; [done|]. intros [?|(a1 & n1 & Heq & ?)]; [done|]. apply app_inj_tail in Heq as [_ ->]. lia.
  - split; [done|]. right. eauto.
Qed.

Lemma shl_i_small x : 0 ≤ x → x * 256 < 2 ^ 63 → shl_i 64 x 8 = x * 256.
Proof.
  intros Hx Hlt. unfold shl_i. rewrite Z.shiftl_mul_pow2 by lia. change (2 ^ 8) with 256.
  apply to_signed_of_signed; [lia|]. unfold in_i. simpl Z.sub. lia.
Qed.

Lemma signed_p_Ok {E} w x : in_i w x → signed_p (E := E) w x = Ok x.
Proof.
  unfold signed_p, in_ib, in_i. intros [H1 H2]. apply Z.leb_le in H1. apply Z.ltb_lt in H2. by rewrite H1, H2.
Qed.

Lemma decode_fold {E} a f :
  is_bytes a → 0 ≤ f < 128 → (length a ≤ 7)%nat →
  foldl (λ accum item, accum ← accum; signed_p (E := E) 64 (shl_i 64 accum 8 + item)) (Ok f) (reverse a) =
  Ok (of_le_bytes a + 2 ^ (8 * Z.of_nat (length a)) * f).
Proof.
  intros Ha Hf Hlen. induction Ha as [|b a Hb Ha IH]; [by rewrite Z.mul_1_l|].
  rewrite reverse_cons, foldl_app, IH by (simpl in Hlen; lia). cbn [foldl mbind res_mbind of_le_bytes].
  pose proof (of_le_bytes_bound a Ha). unfold in_u in Hb. change (2 ^ 8) with 256 in Hb.
  assert (2 ^ (8 * Z.of_nat (length a)) ≤ 2 ^ 48) by (apply Z.pow_le_mono_r; simpl in Hlen; lia).
  assert (of_le_bytes a + 2 ^ (8 * Z.of_nat (length a)) * f < 2 ^ 55) by nia.
  replace (8 * Z.of_nat (length (b :: a))) with (8 * Z.of_nat (length a) + 8) by (simpl; lia).
  rewrite Z.pow_add_r by lia. change (2 ^ 8) with 256.
  rewrite shl_i_small by nia. rewrite signed_p_Ok; [f_equal; lia|]. unfold in_i. simpl Z.sub. nia.
Qed.

(** Decoding, in closed form. *)
Lemma deserialize_i64_spec a m enforce_minimal :
  is_bytes a → in_u 8 m → (length a ≤ 7)%nat →
  deserialize_i64 (a ++ [m]) enforce_minimal =
    _ ← (if enforce_minimal then check_minimal_data_encoding (a ++ [m]) else Ok tt);
    Ok (signed_value a m).
Proof.
  intros Ha Hm Hlen. destruct (last_byte a m) as [Hl Hidx]. unfold deserialize_i64. rewrite Hl.
  replace (8 <? S (length a))%nat with false by (symmetry; apply Nat.ltb_ge; lia).
  destruct (if enforce_minimal then _ else _) as [[]|e|]; [|done..]. cbn [mbind res_mbind Nat.eqb].
  replace (S (length a) - 1)%nat with (length a) by lia. rewrite (idx_Ok _ _ m Hidx), take_app_length.
  cbn [mbind res_mbind]. destruct (byte_bits m Hm) as (-> & -> & _ & _).
  rewrite decode_fold by (try done; apply Z.mod_pos_bound; lia). cbn [mbind res_mbind].
  fold (magnitude a m). pose proof (magnitude_bound a m Ha).
  assert (128 * 2 ^ (8 * Z.of_nat (length a)) ≤ 2 ^ 63).
  { change (2 ^ 63) with (128 * 2 ^ 56). apply Z.mul_le_mono_nonneg_l, Z.pow_le_mono_r; lia. }
  unfold in_u in Hm. change (2 ^ 8) with 256 in Hm. unfold signed_value.
  destruct (Z.ltb_spec m 128).
  - rewrite Z.div_small by lia. rewrite signed_p_Ok; [f_equal; lia|]. unfold in_i. simpl Z.sub. lia.
  - replace (m / 128) with 1 by (apply Z.div_unique with (m - 128); lia).
    rewrite signed_p_Ok; [f_equal; lia|]. unfold in_i. simpl Z.sub. lia.
Qed.

Lemma magnitude_cons v a m : magnitude (v :: a) m = v + 256 * magnitude a m.
Proof.
  unfold magnitude. cbn [of_le_bytes length].
  replace (8 * Z.of_nat (S (length a))) with (8 + 8 * Z.of_nat (length a)) by lia.
  rewrite Z.pow_add_r by lia. change (2 ^ 8) with 256. lia.
Qed.

Lemma minimal_cons v a m : minimal a m → minimal (v :: a) m.
Proof. intros [?|(a' & n & -> & ?)]; [by left|]. right. by exists (v :: a'), n. Qed.

Lemma magnitude_bytes_spec k fuel p sat :
  0 < p < 2 ^ (8 * Z.of_nat k) → (k < fuel)%nat →
  ∃ a m, magnitude_bytes fuel p sat = a ++ [m] ∧ is_bytes a ∧ in_u 8 m ∧ m < 128 ∧
    magnitude a m = p ∧ minimal a m.
Proof.
  revert fuel p sat. induction k as [|k IH]; intros [|fuel] p sat [Hp Hlt] Hfuel; [simpl in *; lia..|].
  replace (8 * Z.of_nat (S k)) with (8 + 8 * Z.of_nat k) in Hlt by lia. rewrite Z.pow_add_r in Hlt by lia.
  cbn [magnitude_bytes]. replace (p =? 0) with false by (symmetry; apply Z.eqb_neq; lia).
  assert (Z.land p 255 = p mod 256) as ->. { change 255 with (Z.ones 8). by rewrite Z.land_ones. }
  rewrite Z.shiftr_div_pow2 by lia. change (2 ^ 8) with 256 in *.
  pose proof (Z.div_mod p 256 ltac:(lia)) as Hdm. pose proof (Z.mod_pos_bound p 256 ltac:(lia)) as Hmod.
  assert (in_u 8 (p mod 256)) as Hv by done. destruct (byte_bits _ Hv) as (_ & _ & -> & _).
  destruct (Z.eqb_spec (p / 256) 0) as [H0|H0].
  - destruct fuel as [|fuel]; [lia|]. cbn [magnitude_bytes]. rewrite H0. cbn [Z.eqb].
    destruct (Z.ltb_spec (p mod 256) 128); cbn [negb].
    + exists [], (p mod 256). split_and!; [done|constructor|done|done| |].
      * unfold magnitude. simpl. rewrite (Z.mod_small _ 128) by lia. lia.
      * left. rewrite Z.mod_small; lia.
    + exists [p mod 256], 0. split_and!; [by destruct fuel|by constructor|done|lia| |].
      * rewrite magnitude_cons. change (magnitude [] 0) with 0. lia.
      * right. by exists [], (p mod 256).
  - destruct (IH fuel (p / 256) (negb (p mod 256 <? 128))) as (a & m & -> & Ha & Hm & Hm' & Hmag & Hmin).
    { pose proof (Z.div_pos p 256). split; [lia|]. apply Z.div_lt_upper_bound; lia. }
    { lia. }
    exists (p mod 256 :: a), m. split_and!; try done; [by constructor| |by apply minimal_cons].
    rewrite magnitude_cons. lia.
Qed.

Lemma serialize_i64_spec x :
  0 < Z.abs x ≤ 2 ^ 63 →
  ∃ a m, serialize_i64 x None = Ok (a ++ [m]) ∧ is_bytes a ∧ in_u 8 m ∧ minimal a m ∧ signed_value a m = x ∧
    magnitude a m = Z.abs x.
Proof.
  intros Hx. destruct (magnitude_bytes_spec 8 10 (Z.abs x) false) as (a & m & Heq & Ha & Hm & Hlt & Hmag & Hmin);
    [change (8 * Z.of_nat 8) with 64; lia|lia|].
  unfold serialize_i64. rewrite Heq. cbn [mbind res_mbind].
  destruct (byte_bits m Hm) as (_ & _ & _ & Hor). unfold in_u in Hm. change (2 ^ 8) with 256 in Hm.
  destruct (Z.eqb_spec (Z.sgn x) (-1)) as [Hs|Hs].
  - destruct (last_byte a m) as [Hlen _]. unfold set_sign. rewrite last_snoc, Hlen, upd_Ok by lia.
    replace (S (length a) - 1)%nat with (length a + 0)%nat by lia.
    rewrite insert_app_r. cbn [list_insert insert]. rewrite Hor by done.
    assert ((m + 128) mod 128 = m mod 128) as Hmod128.
    { rewrite <- (Z.mul_1_l 128) at 1. by rewrite Z.mod_add by lia. }
    exists a, (m + 128). unfold signed_value, minimal, magnitude in *. rewrite Hmod128, Hmag.
    split_and!; try done; [unfold in_u; lia|]. destruct (Z.ltb_spec (m + 128) 128); lia.
  - exists a, m. unfold signed_value. rewrite Hmag. split_and!; try done.
    destruct (Z.ltb_spec m 128); lia.
Qed.

(** Encodings of numbers below 2^(8n-1) have at most [n] bytes. *)
Lemma encoding_length a m n :
  is_bytes a → minimal a m → magnitude a m < 2 ^ (8 * Z.of_nat n - 1) → (0 < n)%nat → (length a < n)%nat.
Proof.
  intros Ha Hmin Hlt Hn. pose proof (magnitude_lower a m Ha Hmin).
  assert (2 ^ (8 * Z.of_nat (length a)) < 2 ^ (8 * Z.of_nat n)) as Hpow.
  { replace (8 * Z.of_nat n) with (8 * Z.of_nat n - 1 + 1) by lia. rewrite Z.pow_add_r by lia. lia. }
  apply Z.pow_lt_mono_r_iff in Hpow; lia.
Qed.

Lemma serialize_sized_Ok n x :
  (0 < n ≤ 8)%nat → Z.abs x < 2 ^ (8 * Z.of_nat n - 1) →
  ∃ b, serialize_sized n x = Ok b ∧ is_bytes b ∧ (length b ≤ n)%nat ∧
    ∀ enforce_minimal, deserialize_sized n b enforce_minimal = Ok x.
Proof.
  intros Hn Hx. destruct (decide (x = 0)) as [->|Hne].
  { exists []. split; [done|]. split; [apply is_bytes_nil|]. split; [simpl; lia|]. intros e. unfold deserialize_sized.
    by replace (n <? length [])%nat with false by (symmetry; apply Nat.ltb_ge; simpl; lia). }
  assert (2 ^ (8 * Z.of_nat n - 1) ≤ 2 ^ 63) by (apply Z.pow_le_mono_r; lia).
  destruct (serialize_i64_spec x) as (a & m & Hs & Ha & Hm & Hmin & Hval & Hmag); [lia|].
  assert (length a < n)%nat as Hlen by (eapply encoding_length; [done..|lia|lia]).
  destruct (last_byte a m) as [Hl _].
  exists (a ++ [m]). unfold serialize_sized, deserialize_sized. rewrite Hs. cbn [mbind res_mbind]. rewrite Hl.
  replace (n <? S (length a))%nat with false by (symmetry; apply Nat.ltb_ge; lia).
  split_and!; [done|apply is_bytes_app; split; [done|by constructor]|lia|].
  intros e. rewrite deserialize_i64_spec by (done || lia).
  destruct (check_minimal_spec a m Ha Hm) as [[-> _]|[_ ?]]; [|done]. destruct e; simpl; by rewrite Hval.
Qed.

Lemma deserialize_sized_bound n v e x :
  (0 < n ≤ 8)%nat → is_bytes v → deserialize_sized n v e = Ok x → Z.abs x < 2 ^ (8 * Z.of_nat n - 1).
Proof.
  intros Hn Hv. unfold deserialize_sized. destruct (Nat.ltb_spec n (length v)) as [|Hlen]; [done|].
  assert (0 < 2 ^ (8 * Z.of_nat n - 1)) by (apply Z.pow_pos_nonneg; lia).
  destruct v as [|m a _] using rev_ind; [intros [= <-]; done|].
  apply is_bytes_app in Hv as [Ha Hm%is_bytes_cons]. destruct Hm as [Hm _].
  destruct (last_byte a m) as [Hl _]. rewrite Hl in Hlen. rewrite deserialize_i64_spec by (done || lia).
  intros Hd. apply bind_Ok in Hd as (? & _ & [= <-]). pose proof (magnitude_bound a m Ha) as Hb.
  assert (128 * 2 ^ (8 * Z.of_nat (length a)) ≤ 2 ^ (8 * Z.of_nat n - 1)).
  { change 128 with (2 ^ 7). rewrite <- Z.pow_add_r by lia. apply Z.pow_le_mono_r; lia. }
  unfold signed_value. destruct (m <? 128); lia.
Qed.

Lemma deserialize_sized_canonical n v x :
  (0 < n ≤ 8)%nat → is_bytes v → deserialize_sized n v true = Ok x → serialize_sized n x = Ok v.
Proof.
  intros Hn Hv Hd. pose proof (deserialize_sized_bound n v true x Hn Hv Hd) as Hx.
  unfold deserialize_sized in Hd. destruct (Nat.ltb_spec n (length v)) as [|Hlen]; [done|].
  destruct v as [|m a _] using rev_ind; [injection Hd as <-; unfold serialize_sized; simpl; by destruct n|].
  apply is_bytes_app in Hv as [Ha Hm%is_bytes_cons]. destruct Hm as [Hm _].
  destruct (last_byte a m) as [Hl _]. rewrite Hl in Hlen. rewrite deserialize_i64_spec in Hd by (done || lia).
  destruct (check_minimal_spec a m Ha Hm) as [[Hc Hmin]|[Hc _]]; rewrite Hc in Hd; [|done].
  cbn [mbind res_mbind] in Hd. injection Hd as Hval.
  assert (magnitude a m = Z.abs x) as Hmag.
  { pose proof (magnitude_bound a m Ha). rewrite <- Hval. unfold signed_value. destruct (m <? 128); lia. }
  assert (0 < magnitude a m).
  { pose proof (magnitude_lower a m Ha Hmin). assert (0 < 2 ^ (8 * Z.of_nat (length a))) by (apply Z.pow_pos_nonneg; lia). lia. }
  assert (2 ^ (8 * Z.of_nat n - 1) ≤ 2 ^ 63) by (apply Z.pow_le_mono_r; lia).
  destruct (serialize_i64_spec x) as (b & k & Hs & Hb & Hk & Hmin' & Hval' & Hmag'); [lia|].
  destruct (magnitude_inj a m b k Ha Hb Hmin Hmin') as [-> Hmk]; [congruence|].
  assert (m = k) as ->.
  { unfold signed_value in Hval, Hval'. unfold in_u in Hm, Hk. change (2 ^ 8) with 256 in *.
    pose proof (Z.div_mod m 128 ltac:(lia)). pose proof (Z.div_mod k 128 ltac:(lia)).
    destruct (Z.ltb_spec m 128), (Z.ltb_spec k 128); [| lia | lia |].
    - rewrite !Z.mod_small in Hmk; lia.
    - assert (m / 128 = 1 ∧ k / 128 = 1) as [] by
        (split; symmetry; [apply Z.div_unique with (m - 128)|apply Z.div_unique with (k - 128)]; lia). lia. }
  unfold serialize_sized. rewrite Hs. cbn [mbind res_mbind]. rewrite Hl.
  by replace (n <? S (length b))%nat with false by (symmetry; apply Nat.ltb_ge; lia).
Qed.

Lemma deserialize_sized_no_panic n v e : (0 < n ≤ 8)%nat → is_bytes v → deserialize_sized n v e ≠ Panic.
Proof.
  intros Hn Hv. unfold deserialize_sized. destruct (Nat.ltb_spec n (length v)) as [|Hlen]; [done|].
  destruct v as [|m a _] using rev_ind; [done|].
  apply is_bytes_app in Hv as [Ha Hm%is_bytes_cons]. destruct Hm as [Hm _].
  destruct (last_byte a m) as [Hl _]. rewrite Hl in Hlen. rewrite deserialize_i64_spec by (done || lia).
  destruct (check_minimal_spec a m Ha Hm) as [[-> _]|[-> _]]; by destruct e.
Qed.

Lemma deserialize_num32_no_panic v e : is_bytes v → deserialize_num32 v e ≠ Panic.
Proof.
  intros Hv. unfold deserialize_num32. destruct e.
  - pose proof (deserialize_sized_no_panic 4 v true ltac:(lia) Hv).
    destruct (deserialize_sized 4 v true) as [x| |] eqn:Hd; [|done..]. cbn [mbind res_mbind].
    apply deserialize_sized_bound in Hd; [|lia|done]. change (8 * Z.of_nat 4 - 1) with 31 in Hd.
    unfold in_ib. change (32 - 1) with 31. by rewrite (proj2 (Z.leb_le _ _)), (proj2 (Z.ltb_lt _ _)) by lia.
  - pose proof (deserialize_sized_no_panic 8 v false ltac:(lia) Hv).
    destruct (deserialize_sized 8 v false) as [x| |]; [|done..]. cbn [mbind res_mbind]. by destruct (in_ib 32 x).
Qed.

Lemma deserialize_num32_range v e x : is_bytes v → deserialize_num32 v e = Ok x → in_i 32 x.
Proof.
  unfold deserialize_num32, in_ib, in_i. intros _ Hd. destruct e; res_inv; lia.
Qed.

(** A boolean is false exactly when it decodes to zero, negative zero included. *)
Lemma deserialize_bool_spec v :
  is_bytes v → ∃ b, deserialize_bool v = Ok b ∧
    ((length v ≤ 8)%nat → deserialize_i64 v false = Ok 0 ↔ b = false).
Proof.
  intros Hv. unfold deserialize_bool. destruct v as [|m a _] using rev_ind; [by exists false|].
  assert (is_empty (a ++ [m]) = false) as -> by by destruct a.
  apply is_bytes_app in Hv as [Ha Hm%is_bytes_cons]. destruct Hm as [Hm _].
  destruct (last_byte a m) as [Hl Hidx]. rewrite Hl. replace (S (length a) - 1)%nat with (length a) by lia.
  rewrite (idx_Ok _ _ m Hidx), take_app_length. cbn [mbind res_mbind].
  eexists. split; [done|]. intros Hlen. rewrite deserialize_i64_spec by (done || lia). cbn [mbind res_mbind].
  destruct (byte_bits m Hm) as (-> & _). rewrite orb_false_iff, negb_false_iff, Z.eqb_eq.
  assert (existsb (λ b, negb (b =? 0)) a = false ↔ of_le_bytes a = 0) as ->.
  { clear -Ha. induction Ha as [|b a Hb Ha IH]; simpl; [done|]. pose proof (of_le_bytes_bound a Ha).
    unfold in_u in Hb. rewrite orb_false_iff, negb_false_iff, Z.eqb_eq, IH. lia. }
  pose proof (of_le_bytes_bound a Ha). pose proof (Z.mod_pos_bound m 128 ltac:(lia)).
  unfold signed_value, magnitude. split.
  - intros [= Hz]. destruct (m <? 128); nia.
  - intros [-> ->]. rewrite Z.mul_0_r. by destruct (m <? 128).
Qed.

(** C37. Script numbers are a bijection: every integer of magnitude below 2^63 is
    encoded, in at most eight bytes, and decodes to itself whether or not minimal
    encodings are enforced; every byte string that the enforcing decoder accepts is
    the encoding of what it decodes to; and the only 64-bit value with no encoding,
    the least one, is refused with an error. *)
Theorem script_num_roundtrip :
  (∀ x, Z.abs x < 2 ^ 63 → ∃ b, serialize_num64 x = Ok b ∧ (length b ≤ 8)%nat ∧
     ∀ enforce_minimal, deserialize_num64 b enforce_minimal = Ok x) ∧
  (∀ v x, is_bytes v → deserialize_num64 v true = Ok x → serialize_num64 x = Ok v ∧ Z.abs x < 2 ^ 63) ∧
  serialize_num64 (- 2 ^ 63) = Err (NumberTooLong (- 2 ^ 63) 8).
Proof.
  split_and!; [|split|by vm_compute].
  - intros x Hx. destruct (serialize_sized_Ok 8 x) as (b & Hs & _ & Hl & Hd); [lia|done|]. eauto.
  - by apply (deserialize_sized_canonical 8); [lia|..].
  - by apply (deserialize_sized_bound 8 v true); [lia|..].
Qed.
