(* ===== verification/TxIsolation.v ===== *)
(** * Transaction validation without UTXO context
      (consensus/src/processes/transaction_validator/mod.rs,
       tx_validation_in_isolation.rs, tx_validation_in_header_context.rs)

    The rules that a transaction is checked against on its own and in the context of
    a header.  The strings of the errors are replaced by the rule that is broken. *)

From S2P Require Import Prelude Bytes Turnstile Bundle BundleVerify Transaction Sighash Mass ScriptNum.

(** ** Parameters that change at a fork (consensus/core/src/config/params.rs) *)

Abbreviation ACTIVATION_NEVER := (2 ^ 64 - 1)%Z (only parsing).
Abbreviation ACTIVATION_ALWAYS := (0)%Z (only parsing).

(** [ForkActivation] is a newtype of [u64]. *)
Definition is_active (activation current_daa_score : Z) : bool := activation <=? current_daa_score.

Record ForkedParam := mkForked { fp_pre : Z; fp_post : Z; fp_activation : Z }.

Definition forked_get (p : ForkedParam) (daa_score : Z) : Z :=
  if is_active (fp_activation p) daa_score then fp_post p else fp_pre p.
Definition forked_upper_bound (p : ForkedParam) : Z :=
  if fp_activation p =? ACTIVATION_NEVER then fp_pre p
  else if fp_activation p =? ACTIVATION_ALWAYS then fp_post p
  else Z.max (fp_pre p) (fp_post p).

(** ** Errors *)

Inductive ShieldedRule :=
| TransparentInputs | TransparentOutputs | MalformedBundle | EmptyBundle | TooManyBundleActions | NegativeFee.

Inductive GasRule := GasBeforeToccata | SystemLaneGas.

Inductive TxRuleError :=
| NoTxInputs
| TxDuplicateInputs
| TxHasGas (r : GasRule)
| UnknownTxVersion (v : Z)
| InvalidShieldedTransaction (r : ShieldedRule)
| InvalidShieldedBundle (e : BundleVerifyError)
| TooManyInputs (n max : Z)
| TooManyOutputs (n max : Z)
| TooBigSignatureScript (i : nat) (max : Z)
| TooBigScriptPublicKey (i : nat) (max : Z)
| NotFinalized (i : nat)
| CoinbaseHasInputs (n : Z)
| CoinbaseTooManyOutputs (n max : Z)
| CoinbaseScriptPublicKeyTooLong (i : nat)
| CoinbaseNonZeroMassCommitment
| ImmatureCoinbaseSpend (i : nat) (o : TransactionOutpoint) (daa_score pov maturity : Z)
| InputAmountOverflow
| InputAmountTooHigh
| TxOutZero (i : nat)
| TxOutTooHigh (i : nat)
| OutputsValueOverflow
| TotalTxOutTooHigh
| SpendTooHigh (total_out total_in : Z)
| SequenceLockConditionsAreNotMet
| SignatureInvalid (e : TxScriptError)
| SignatureEmpty (e : TxScriptError)
| MassIncomputable
| WrongMass (calculated committed : Z)
| SubnetworksDisabled (id : bytes)
| FeerateTooLow
| CovenantBindingInV0 (i : nat)
| SigopCountInV1 (i : nat) (n : Z)
| ComputeBudgetInV0 (i : nat) (n : Z)
| TxCovenantsError (e : CovenantsError).

Abbreviation txres := (res TxRuleError).

Record TransactionValidator := mkValidator {
  max_tx_inputs : Z;
  max_tx_outputs : Z;
  max_signature_script_len : ForkedParam;
  max_script_public_key_len : Z;
  coinbase_payload_script_public_key_max_len : Z;
  coinbase_maturity : Z;
  ghostdag_k : Z;
  toccata_activation : Z;
  mass_per_sig_op : Z;
  shielded_network_domain : bytes;
  mass_calculator : MassCalculator;
}.

Abbreviation TX_VERSION := (0)%Z (only parsing).
Abbreviation TX_VERSION_TOCCATA := (1)%Z (only parsing).
Abbreviation MAX_SOMPI := (29000000000 * 100000000)%Z (only parsing).
Abbreviation LOCK_TIME_THRESHOLD := (500000000000)%Z (only parsing).

(** ** Isolation *)

(** [Iterator::position]. *)
Fixpoint position_from {A} (f : A → bool) (i : nat) (l : list A) : option nat :=
  match l with
  | [] => None
  | x :: l => if f x then Some i else position_from f (S i) l
  end.
Definition position {A} (f : A → bool) (l : list A) : option nat := position_from f 0 l.

Section isolation.
Context (v : TransactionValidator).

Definition check_transaction_inputs_count (t : Transaction) : txres () :=
  if negb (is_coinbase t) && negb (is_shielded t) && (zlen (inputs t) =? 0) then Err NoTxInputs
  else if max_tx_inputs v <? zlen (inputs t) then Err (TooManyInputs (zlen (inputs t)) (max_tx_inputs v))
  else Ok tt.

Definition check_transaction_signature_scripts (t : Transaction) : txres () :=
  let max := forked_upper_bound (max_signature_script_len v) in
  match position (λ i, max <? zlen (signature_script i)) (inputs t) with
  | Some i => Err (TooBigSignatureScript i max)
  | None => Ok tt
  end.

Definition check_transaction_inputs_in_isolation (t : Transaction) : txres () :=
  _ ← check_transaction_inputs_count t; check_transaction_signature_scripts t.

(** The limit that the error reports is that of the inputs. *)
Definition check_transaction_outputs_count (t : Transaction) : txres () :=
  if is_coinbase t then Ok tt
  else if max_tx_outputs v <? zlen (outputs t) then Err (TooManyOutputs (zlen (outputs t)) (max_tx_inputs v))
  else Ok tt.

Definition check_transaction_script_public_keys (t : Transaction) : txres () :=
  match position (λ o, max_script_public_key_len v <? zlen (spk_script (out_spk o))) (outputs t) with
  | Some i => Err (TooBigScriptPublicKey i (max_script_public_key_len v))
  | None => Ok tt
  end.

Definition check_transaction_outputs_in_isolation (t : Transaction) : txres () :=
  _ ← check_transaction_outputs_count t; check_transaction_script_public_keys t.

Definition check_coinbase_in_isolation (t : Transaction) : txres () :=
  if negb (is_coinbase t) then Ok tt
  else if negb (zlen (inputs t) =? 0) then Err (CoinbaseHasInputs (zlen (inputs t)))
  else if 0 <? storage_mass t then Err CoinbaseNonZeroMassCommitment
  else
    let outputs_limit := ghostdag_k v + 2 in
    if outputs_limit <? zlen (outputs t) then Err (CoinbaseTooManyOutputs (zlen (outputs t)) outputs_limit)
    else
      match position (λ o, coinbase_payload_script_public_key_max_len v <? zlen (spk_script (out_spk o))) (outputs t) with
      | Some i => Err (CoinbaseScriptPublicKeyTooLong i)
      | None => Ok tt
      end.

Definition check_shielded_in_isolation (t : Transaction) : txres () :=
  if negb (is_shielded t) then Ok tt
  else if negb (zlen (inputs t) =? 0) then Err (InvalidShieldedTransaction TransparentInputs)
  else if negb (zlen (outputs t) =? 0) then Err (InvalidShieldedTransaction TransparentOutputs)
  else
    bundle ← map_err (λ _, InvalidShieldedTransaction MalformedBundle) (from_bytes (payload t));
    if zlen (actions bundle) =? 0 then Err (InvalidShieldedTransaction EmptyBundle)
    else if MAX_ACTIONS_PER_BUNDLE <? zlen (actions bundle) then Err (InvalidShieldedTransaction TooManyBundleActions)
    else Ok tt.
End isolation.

(** The loop over the outputs, from the [i]-th and the total so far. *)
Fixpoint output_value_ranges (i : nat) (outs : list TransactionOutput) (total : Z) : txres () :=
  match outs with
  | [] => Ok tt
  | o :: outs =>
      if out_value o =? 0 then Err (TxOutZero i)
      else if MAX_SOMPI <? out_value o then Err (TxOutTooHigh i)
      else
        match checked_add 64 total (out_value o) with
        | None => Err OutputsValueOverflow
        | Some total => if MAX_SOMPI <? total then Err TotalTxOutTooHigh else output_value_ranges (S i) outs total
        end
  end.
Definition check_transaction_output_value_ranges (t : Transaction) : txres () := output_value_ranges 0 (outputs t) 0.

(** [existing] is the [HashSet] of the loop. *)
Fixpoint duplicate_inputs (existing : gset TransactionOutpoint) (ins : list TransactionInput) : txres () :=
  match ins with
  | [] => Ok tt
  | i :: ins =>
      if bool_decide (previous_outpoint i ∈ existing) then Err TxDuplicateInputs
      else duplicate_inputs ({[previous_outpoint i]} ∪ existing) ins
  end.
Definition check_duplicate_transaction_inputs (t : Transaction) : txres () := duplicate_inputs ∅ (inputs t).

(** A reserved system lane: 19 zeros after the first byte. *)
Definition is_system_lane (id : bytes) : bool :=
  match id with _ :: rest => bool_decide (rest = replicate 19 0) | [] => false end.

Definition check_gas (t : Transaction) : txres () :=
  if gas t =? 0 then Ok tt
  else if version t <? TX_VERSION_TOCCATA then Err (TxHasGas GasBeforeToccata)
  else if negb (is_system_lane (subnetwork_id t)) then Ok tt
  else Err (TxHasGas SystemLaneGas).

Definition check_transaction_subnetwork (t : Transaction) : txres () :=
  let id := subnetwork_id t in
  match id with
  | b :: rest =>
      if ((b =? 0) || (b =? 1)) && bool_decide (rest = replicate 19 0) then Ok tt
      else if bool_decide (rest = replicate 19 0) then Err (SubnetworksDisabled id)
      else if (TX_VERSION_TOCCATA <=? version t) && bool_decide (drop 4 id = replicate 16 0) then Ok tt
      else Err (SubnetworksDisabled id)
  | [] => Err (SubnetworksDisabled id)
  end.

Definition check_transaction_version (t : Transaction) : txres () :=
  if version t =? TX_VERSION_SHIELDED then Ok tt
  else if TX_VERSION_TOCCATA <? version t then Err (UnknownTxVersion (version t))
  else Ok tt.

Fixpoint no_sigop_counts (i : nat) (ins : list TransactionInput) : txres () :=
  match ins with
  | [] => Ok tt
  | inp :: ins => match sig_op_count (compute_commit inp) with Some n => Err (SigopCountInV1 i n) | None => no_sigop_counts (S i) ins end
  end.
Fixpoint no_compute_budgets (i : nat) (ins : list TransactionInput) : txres () :=
  match ins with
  | [] => Ok tt
  | inp :: ins => match compute_budget (compute_commit inp) with Some n => Err (ComputeBudgetInV0 i n) | None => no_compute_budgets (S i) ins end
  end.

Definition check_tx_version_specific_fields (t : Transaction) : txres () :=
  if 0 <? version t then no_sigop_counts 0 (inputs t)
  else
    _ ← no_compute_budgets 0 (inputs t);
    match position (λ o, is_some (out_covenant o)) (outputs t) with
    | Some i => Err (CovenantBindingInV0 i)
    | None => Ok tt
    end.

Definition validate_tx_in_isolation (v : TransactionValidator) (t : Transaction) : txres () :=
  _ ← check_transaction_inputs_in_isolation v t;
  _ ← check_transaction_outputs_in_isolation v t;
  _ ← check_coinbase_in_isolation v t;
  _ ← check_transaction_output_value_ranges t;
  _ ← check_duplicate_transaction_inputs t;
  _ ← check_gas t;
  _ ← check_transaction_subnetwork t;
  _ ← check_transaction_version t;
  _ ← check_tx_version_specific_fields t;
  check_shielded_in_isolation t.

(** ** Header context *)

Inductive LockTimeType := LT_Finalized | LT_DaaScore | LT_Time.
Inductive LockTimeArg := LTA_Finalized | LTA_DaaScore (score : Z) | LTA_MedianTime (time : Z).

Definition get_lock_time_type (t : Transaction) : LockTimeType :=
  if lock_time t =? 0 then LT_Finalized
  else if lock_time t <? LOCK_TIME_THRESHOLD then LT_DaaScore
  else LT_Time.

Definition check_tx_is_finalized (t : Transaction) (arg : LockTimeArg) : txres () :=
  match arg with
  | LTA_Finalized => Ok tt
  | LTA_DaaScore x | LTA_MedianTime x =>
      if lock_time t <? x then Ok tt
      else
        match position (λ i, negb (sequence i =? U64_MAX)) (inputs t) with
        | Some i => Err (NotFinalized i)
        | None => Ok tt
        end
  end.

Definition check_transaction_version_in_header (v : TransactionValidator) (t : Transaction) (block_daa_score : Z) : txres () :=
  if version t =? TX_VERSION_SHIELDED then Ok tt
  else if is_active (toccata_activation v) block_daa_score then
    if TX_VERSION_TOCCATA <? version t then Err (UnknownTxVersion (version t)) else Ok tt
  else if negb (version t =? TX_VERSION) then Err (UnknownTxVersion (version t))
  else Ok tt.

Definition check_signature_scripts_in_header_context (v : TransactionValidator) (t : Transaction) (block_daa_score : Z) : txres () :=
  let max := forked_get (max_signature_script_len v) block_daa_score in
  match position (λ i, max <? zlen (signature_script i)) (inputs t) with
  | Some i => Err (TooBigSignatureScript i max)
  | None => Ok tt
  end.

Definition validate_tx_in_header_context (v : TransactionValidator) (t : Transaction) (arg : LockTimeArg) (block_daa_score : Z) :
    txres () :=
  _ ← check_tx_is_finalized t arg;
  _ ← check_transaction_version_in_header v t block_daa_score;
  check_signature_scripts_in_header_context v t block_daa_score.

Definition validate_tx_in_header_context_with_args (v : TransactionValidator) (t : Transaction) (ctx_daa_score ctx_block_time : Z) :
    txres () :=
  validate_tx_in_header_context v t
    match get_lock_time_type t with
    | LT_Finalized => LTA_Finalized
    | LT_DaaScore => LTA_DaaScore ctx_daa_score
    | LT_Time => LTA_MedianTime ctx_block_time
    end ctx_daa_score.

(** ** What isolation accepts *)

Lemma position_from_None {A} (f : A → bool) i l : position_from f i l = None ↔ Forall (λ x, f x = false) l.
Proof.
  revert i. induction l as [|x l IH]; intros i; simpl; [by split|]. rewrite Forall_cons, <- (IH (S i)).
  destruct (f x); naive_solver.
Qed.

(** [position] as a check: it passes when nothing is found. *)
Lemma position_check {A} (f : A → bool) l (e : nat → TxRuleError) :
  match position f l with Some i => Err (e i) | None => Ok tt end = Ok tt ↔ Forall (λ x, f x = false) l.
Proof. unfold position. rewrite <- (position_from_None f 0). by destruct (position_from f 0 l). Qed.

Lemma Forall_ltb {A} (f : A → Z) m l : Forall (λ x, (m <? f x) = false) l ↔ Forall (λ x, f x ≤ m) l.
Proof. split; intros Hf; (eapply Forall_impl; [exact Hf|]); simpl; intros x; by rewrite Z.ltb_ge. Qed.

Lemma output_value_ranges_iff i outs total :
  0 ≤ total ≤ MAX_SOMPI → Forall output_wf outs →
  output_value_ranges i outs total = Ok tt ↔ Forall (λ o, 0 < out_value o) outs ∧ total + sumZ (out_value <$> outs) ≤ MAX_SOMPI.
Proof.
  intros Ht Hwf. revert i total Ht. induction Hwf as [|o outs [Ho _] Hwf IH]; intros i total Ht; cbn [output_value_ranges].
  { split; [|done]. intros _. split; [constructor|]. unfold sumZ. simpl. lia. }
  rewrite Forall_cons, fmap_cons, sumZ_cons. unfold in_u in Ho.
  assert (Forall (λ o, 0 < out_value o) outs → 0 ≤ sumZ (out_value <$> outs)) as Hnn.
  { intros Hpos. apply sumZ_nonneg, Forall_fmap. eapply Forall_impl; [exact Hpos|]. simpl. lia. }
  destruct (Z.eqb_spec (out_value o) 0); [split; [done|lia]|].
  destruct (Z.ltb_spec MAX_SOMPI (out_value o)); [split; [done|]; intros [[_ Hpos%Hnn] ?]; lia|].
  unfold checked_add. rewrite (proj2 (Z.ltb_lt _ _)) by lia.
  destruct (Z.ltb_spec MAX_SOMPI (total + out_value o)); [split; [done|]; intros [[_ Hpos%Hnn] ?]; lia|].
  rewrite IH by lia. split; intros; split_and!; naive_solver lia.
Qed.

Lemma duplicate_inputs_iff existing ins :
  duplicate_inputs existing ins = Ok tt ↔
  NoDup (previous_outpoint <$> ins) ∧ Forall (λ i, previous_outpoint i ∉ existing) ins.
Proof.
  revert existing. induction ins as [|i ins IH]; intros existing; simpl.
  { split; [|done]. intros _. split; constructor. }
  rewrite NoDup_cons, Forall_cons. case_bool_decide as Hin; [naive_solver|]. rewrite IH, list_elem_of_fmap.
  rewrite !Forall_forall. set_solver.
Qed.

Lemma no_sigop_counts_iff i ins :
  no_sigop_counts i ins = Ok tt ↔ Forall (λ inp, is_Some (compute_budget (compute_commit inp))) ins.
Proof.
  revert i. induction ins as [|inp ins IH]; intros i; simpl; [by split|]. rewrite Forall_cons, <- (IH (S i)).
  destruct (compute_commit inp); simpl; naive_solver.
Qed.
Lemma no_compute_budgets_iff i ins :
  no_compute_budgets i ins = Ok tt ↔ Forall (λ inp, is_Some (sig_op_count (compute_commit inp))) ins.
Proof.
  revert i. induction ins as [|inp ins IH]; intros i; simpl; [by split|]. rewrite Forall_cons, <- (IH (S i)).
  destruct (compute_commit inp); simpl; naive_solver.
Qed.

(** A transaction that keeps the rules. *)
Record isolated (v : TransactionValidator) (t : Transaction) : Prop := {
  iso_has_inputs : is_coinbase t = false → is_shielded t = false → inputs t ≠ [];
  iso_inputs : zlen (inputs t) ≤ max_tx_inputs v;
  iso_signature_scripts : Forall (λ i, zlen (signature_script i) ≤ forked_upper_bound (max_signature_script_len v)) (inputs t);
  iso_outputs : is_coinbase t = false → zlen (outputs t) ≤ max_tx_outputs v;
  iso_script_public_keys : Forall (λ o, zlen (spk_script (out_spk o)) ≤ max_script_public_key_len v) (outputs t);
  iso_coinbase : is_coinbase t = true →
    inputs t = [] ∧ storage_mass t ≤ 0 ∧ zlen (outputs t) ≤ ghostdag_k v + 2 ∧
    Forall (λ o, zlen (spk_script (out_spk o)) ≤ coinbase_payload_script_public_key_max_len v) (outputs t);
  iso_values : Forall (λ o, 0 < out_value o) (outputs t);
  iso_total : sumZ (out_value <$> outputs t) ≤ MAX_SOMPI;
  iso_distinct : NoDup (previous_outpoint <$> inputs t);
  iso_gas : gas t ≠ 0 → 1 ≤ version t ∧ drop 1 (subnetwork_id t) ≠ replicate 19 0;
  iso_subnetwork : subnetwork_id t = SUBNETWORK_ID_NATIVE ∨ subnetwork_id t = SUBNETWORK_ID_COINBASE ∨
    (1 ≤ version t ∧ drop 1 (subnetwork_id t) ≠ replicate 19 0 ∧ drop 4 (subnetwork_id t) = replicate 16 0);
  iso_version : version t ≤ TX_VERSION_SHIELDED;
  iso_commitments : if 0 <? version t then Forall (λ i, is_Some (compute_budget (compute_commit i))) (inputs t)
    else Forall (λ i, is_Some (sig_op_count (compute_commit i))) (inputs t) ∧ Forall (λ o, out_covenant o = None) (outputs t);
  iso_shielded : is_shielded t = true →
    inputs t = [] ∧ outputs t = [] ∧
    ∃ b, from_bytes (payload t) = Ok b ∧ 0 < zlen (actions b) ≤ MAX_ACTIONS_PER_BUNDLE;
}.

Lemma zlen_zero {A} (l : list A) : zlen l = 0 ↔ l = [].
Proof. unfold zlen. destruct l; simpl; split; (done || lia). Qed.

Lemma inputs_in_isolation_iff v t :
  check_transaction_inputs_in_isolation v t = Ok tt ↔
  (is_coinbase t = false → is_shielded t = false → inputs t ≠ []) ∧ zlen (inputs t) ≤ max_tx_inputs v ∧
  Forall (λ i, zlen (signature_script i) ≤ forked_upper_bound (max_signature_script_len v)) (inputs t).
Proof.
  unfold check_transaction_inputs_in_isolation, check_transaction_inputs_count, check_transaction_signature_scripts.
  destruct (negb (is_coinbase t) && negb (is_shielded t) && (zlen (inputs t) =? 0)) eqn:Hno.
  { apply andb_true_iff in Hno as [Hno Hz%Z.eqb_eq%zlen_zero]. apply andb_true_iff in Hno as [H1%negb_true_iff H2%negb_true_iff].
    split; [done|]. intros [Hne _]. by destruct (Hne H1 H2). }
  destruct (Z.ltb_spec (max_tx_inputs v) (zlen (inputs t))); [split; [done|lia]|]. cbn [mbind res_mbind].
  rewrite position_check, Forall_ltb. split; [|naive_solver].
  intros Hf. split_and!; [|done|done]. intros H1 H2 H3. by rewrite H1, H2, (proj2 (zlen_zero _) H3) in Hno.
Qed.

Lemma outputs_in_isolation_iff v t :
  check_transaction_outputs_in_isolation v t = Ok tt ↔
  (is_coinbase t = false → zlen (outputs t) ≤ max_tx_outputs v) ∧
  Forall (λ o, zlen (spk_script (out_spk o)) ≤ max_script_public_key_len v) (outputs t).
Proof.
  unfold check_transaction_outputs_in_isolation, check_transaction_outputs_count, check_transaction_script_public_keys.
  destruct (is_coinbase t); cbn [mbind res_mbind].
  - rewrite position_check, Forall_ltb. naive_solver.
  - destruct (Z.ltb_spec (max_tx_outputs v) (zlen (outputs t))); cbn [mbind res_mbind]; [split; [done|]; naive_solver lia|].
    rewrite position_check, Forall_ltb. naive_solver.
Qed.

Lemma coinbase_in_isolation_iff v t :
  check_coinbase_in_isolation v t = Ok tt ↔
  (is_coinbase t = true →
    inputs t = [] ∧ storage_mass t ≤ 0 ∧ zlen (outputs t) ≤ ghostdag_k v + 2 ∧
    Forall (λ o, zlen (spk_script (out_spk o)) ≤ coinbase_payload_script_public_key_max_len v) (outputs t)).
Proof.
  unfold check_coinbase_in_isolation. destruct (is_coinbase t); [|naive_solver]. cbn [negb].
  destruct (Z.eqb_spec (zlen (inputs t)) 0) as [Hz|Hz]; rewrite zlen_zero in Hz; cbn [negb]; [|naive_solver].
  destruct (Z.ltb_spec 0 (storage_mass t)); [naive_solver lia|].
  destruct (Z.ltb_spec (ghostdag_k v + 2) (zlen (outputs t))); [naive_solver lia|].
  rewrite position_check, Forall_ltb. naive_solver.
Qed.

Lemma shielded_in_isolation_iff t :
  check_shielded_in_isolation t = Ok tt ↔
  (is_shielded t = true → inputs t = [] ∧ outputs t = [] ∧
    ∃ b, from_bytes (payload t) = Ok b ∧ 0 < zlen (actions b) ≤ MAX_ACTIONS_PER_BUNDLE).
Proof.
  unfold check_shielded_in_isolation. destruct (is_shielded t); [|naive_solver]. cbn [negb].
  destruct (Z.eqb_spec (zlen (inputs t)) 0) as [Hz|Hz]; rewrite zlen_zero in Hz; cbn [negb]; [|naive_solver].
  destruct (Z.eqb_spec (zlen (outputs t)) 0) as [Ho|Ho]; rewrite zlen_zero in Ho; cbn [negb]; [|naive_solver].
  destruct (from_bytes (payload t)) as [b| |] eqn:Hb; cbn [map_err mbind res_mbind]; [|naive_solver..].
  pose proof (zlen_nonneg (actions b)).
  destruct (Z.eqb_spec (zlen (actions b)) 0); [split; [done|]; intros Hs; destruct (Hs eq_refl) as (_ & _ & ? & [= <-] & ?); lia|].
  destruct (Z.ltb_spec MAX_ACTIONS_PER_BUNDLE (zlen (actions b)));
    [split; [done|]; intros Hs; destruct (Hs eq_refl) as (_ & _ & ? & [= <-] & ?); lia|].
  split; [|done]. intros _ _. split_and!; [done|done|]. exists b. split; [done|lia].
Qed.

Lemma gas_iff t :
  is_array 20 (subnetwork_id t) →
  check_gas t = Ok tt ↔ (gas t ≠ 0 → 1 ≤ version t ∧ drop 1 (subnetwork_id t) ≠ replicate 19 0).
Proof.
  intros [Hl _]. unfold check_gas, is_system_lane. destruct (Z.eqb_spec (gas t) 0); [naive_solver|].
  destruct (Z.ltb_spec (version t) TX_VERSION_TOCCATA); [naive_solver lia|].
  destruct (subnetwork_id t) as [|b rest]; [done|]. cbn [drop]. rewrite drop_0.
  case_bool_decide; cbn [negb]; naive_solver.
Qed.

Lemma subnetwork_iff t :
  is_array 20 (subnetwork_id t) →
  check_transaction_subnetwork t = Ok tt ↔
  subnetwork_id t = SUBNETWORK_ID_NATIVE ∨ subnetwork_id t = SUBNETWORK_ID_COINBASE ∨
  (1 ≤ version t ∧ drop 1 (subnetwork_id t) ≠ replicate 19 0 ∧ drop 4 (subnetwork_id t) = replicate 16 0).
Proof.
  intros [Hl _]. unfold check_transaction_subnetwork. destruct (subnetwork_id t) as [|b rest]; [done|].
  change (drop 1 (b :: rest)) with (drop 0 rest). rewrite drop_0.
  change SUBNETWORK_ID_NATIVE with (0 :: replicate 19 0). change SUBNETWORK_ID_COINBASE with (1 :: replicate 19 0).
  destruct (bool_decide (rest = replicate 19 0)) eqn:Hr.
  - apply bool_decide_eq_true in Hr as ->. rewrite andb_true_r.
    destruct (Z.eqb_spec b 0) as [->|H0]; [naive_solver|]. destruct (Z.eqb_spec b 1) as [->|H1]; [naive_solver|].
    cbn [orb]. split; [done|]. naive_solver.
  - rewrite andb_false_r. apply bool_decide_eq_false in Hr.
    destruct (Z.leb_spec TX_VERSION_TOCCATA (version t)); cbn [andb]; [|split; [done|]; naive_solver lia].
    case_bool_decide; [naive_solver|]. split; [done|]. naive_solver.
Qed.

Lemma version_iff t : in_u 16 (version t) → check_transaction_version t = Ok tt ↔ version t ≤ TX_VERSION_SHIELDED.
Proof.
  intros Hv. unfold check_transaction_version. destruct (Z.eqb_spec (version t) TX_VERSION_SHIELDED); [naive_solver lia|].
  destruct (Z.ltb_spec TX_VERSION_TOCCATA (version t)); naive_solver lia.
Qed.

Lemma version_fields_iff t :
  check_tx_version_specific_fields t = Ok tt ↔
  if 0 <? version t then Forall (λ i, is_Some (compute_budget (compute_commit i))) (inputs t)
  else Forall (λ i, is_Some (sig_op_count (compute_commit i))) (inputs t) ∧ Forall (λ o, out_covenant o = None) (outputs t).
Proof.
  unfold check_tx_version_specific_fields. destruct (0 <? version t); [apply no_sigop_counts_iff|].
  rewrite <- (no_compute_budgets_iff 0). destruct (no_compute_budgets 0 (inputs t)) as [[]| |]; cbn [mbind res_mbind]; [|naive_solver..].
  rewrite position_check. split.
  - intros Hf. split; [done|]. eapply Forall_impl; [exact Hf|]. simpl. intros o. by destruct (out_covenant o).
  - intros [_ Hf]. eapply Forall_impl; [exact Hf|]. simpl. by intros o ->.
Qed.

Lemma bind_unit_Ok {E} (m k : res E ()) : (_ ← m; k) = Ok tt ↔ m = Ok tt ∧ k = Ok tt.
Proof. destruct m as [[]| |]; cbn [mbind res_mbind]; naive_solver. Qed.

Lemma isolation_iff v t : tx_wf t → validate_tx_in_isolation v t = Ok tt ↔ isolated v t.
Proof.
  intros (Hv & _ & Hout & _ & Hid & _). unfold validate_tx_in_isolation, check_transaction_output_value_ranges,
    check_duplicate_transaction_inputs. rewrite !bind_unit_Ok.
  rewrite inputs_in_isolation_iff, outputs_in_isolation_iff, coinbase_in_isolation_iff, output_value_ranges_iff,
    duplicate_inputs_iff, gas_iff, subnetwork_iff, version_iff, version_fields_iff, shielded_in_isolation_iff by (done || lia).
  rewrite Z.add_0_l. split.
  - intros ((?&?&?)&(?&?)&?&(?&?)&(?&?)&?&?&?&?&?). by constructor.
  - intros [? ? ? ? ? ? ? ? ? ? ? ? ? ?]. split_and!; try done. apply Forall_true. set_solver.
Qed.

(** ** The masses of an isolated transaction *)

(** Limits under which no mass can overflow; those of the networks are far below. *)
Record limits_ok (v : TransactionValidator) : Prop := {
  lim_inputs : max_tx_inputs v ≤ 2 ^ 16;
  lim_outputs : max_tx_outputs v ≤ 2 ^ 16;
  lim_signature_scripts : forked_upper_bound (max_signature_script_len v) ≤ 2 ^ 24;
  lim_script_public_keys : max_script_public_key_len v ≤ 2 ^ 24;
  lim_tx_byte : 0 ≤ mass_per_tx_byte (mass_calculator v) ≤ 2 ^ 10;
  lim_spk_byte : 0 ≤ mass_per_script_pub_key_byte (mass_calculator v) ≤ 2 ^ 10;
}.

Lemma sum_p_Ok {E} l : sumZ l < 2 ^ 64 → @sum_p E l = Ok (sumZ l).
Proof. intros Hl. unfold sum_p. by rewrite (proj2 (Z.ltb_lt _ _)). Qed.

Lemma mul_p_small {E} a b : a * b < 2 ^ 64 → @mul_p E 64 a b = Ok (a * b).
Proof. intros Hm. by apply mul_p_Ok. Qed.

(** A sum of at most [2^16] terms, each at most [b]. *)
Lemma sumZ_few {A} (f : A → Z) l n b :
  Forall (λ x, 0 ≤ f x ≤ b) l → zlen l ≤ n → 0 ≤ b → 0 ≤ sumZ (f <$> l) ≤ n * b.
Proof.
  intros Hf Hl Hb. pose proof (sumZ_bound (f <$> l) b) as Hs. rewrite length_fmap, Forall_fmap in Hs. specialize (Hs Hf).
  unfold zlen in Hl. nia.
Qed.

Lemma commitments_Ok {E} get b t n :
  Forall (λ i, ∃ x, get (compute_commit i) = Some x ∧ 0 ≤ x ≤ b) (inputs t) → zlen (inputs t) ≤ n → 0 ≤ b → n * b < 2 ^ 64 →
  ∃ s, @commitments E get t = Ok s ∧ 0 ≤ s ≤ n * b.
Proof.
  intros Hf Hn Hb Hnb. unfold commitments.
  assert (∃ l, mapM (M := res E) (λ i, unwrap (get (compute_commit i))) (inputs t) = Ok l ∧ Forall (λ x, 0 ≤ x ≤ b) l ∧
    length l = length (inputs t)) as (l & -> & Hl & Hlen).
  { clear Hn. induction Hf as [|i l (x & Hx & Hxb) Hf (l' & IH & Hl' & Hlen)]; simpl; [by exists []|].
    exists (x :: l'). rewrite Hx. simpl. rewrite IH. simpl. split; [done|]. split; [by constructor|by f_equal]. }
  cbn [mbind res_mbind]. pose proof (sumZ_bound l b Hl) as Hs. unfold zlen in Hn. rewrite Hlen in Hs.
  exists (sumZ l). split; [apply sum_p_Ok; nia|nia].
Qed.

Section masses.
Context (v : TransactionValidator) (t : Transaction) (Hwf : tx_wf t) (Hv : isolated v t) (Hlim : limits_ok v).

Lemma isolated_size {E} : is_coinbase t = false → ∃ s, @transaction_estimated_serialized_size E t = Ok s ∧ 0 ≤ s < 2 ^ 42.
Proof.
  intros Hcb. destruct Hwf as (_ & Hins & Houts & _ & _ & _ & _ & Hpl & _). destruct Hlim as [Hli Hlo Hls Hlk _ _].
  assert (0 ≤ sumZ ((λ i, transaction_input_estimated_serialized_size i (version t)) <$> inputs t) ≤ 2 ^ 16 * (2 ^ 24 + 54)) as Hi.
  { apply sumZ_few; [|pose proof (iso_inputs _ _ Hv); lia|lia]. eapply Forall_impl; [exact (iso_signature_scripts _ _ Hv)|].
    intros i Hs. unfold zlen in Hs. unfold transaction_input_estimated_serialized_size, outpoint_estimated_serialized_size.
    destruct (1 <=? version t); lia. }
  assert (0 ≤ sumZ (transaction_output_estimated_serialized_size <$> outputs t) ≤ 2 ^ 16 * (2 ^ 24 + 52)) as Ho.
  { apply sumZ_few; [|pose proof (iso_outputs _ _ Hv Hcb); lia|lia]. eapply Forall_impl; [exact (iso_script_public_keys _ _ Hv)|].
    intros o Hs. unfold zlen in Hs. unfold transaction_output_estimated_serialized_size. destruct (out_covenant o); lia. }
  unfold transaction_estimated_serialized_size. rewrite sum_p_Ok by lia. cbn [mbind res_mbind]. rewrite sum_p_Ok by lia.
  cbn [mbind res_mbind]. rewrite sum_p_Ok; [eexists; split; [done|]|]; rewrite !sumZ_cons; change (sumZ []) with 0; lia.
Qed.

Lemma isolated_script_mass {E} : ∃ s, @calc_script_mass E t = Ok s ∧ 0 ≤ s < 2 ^ 42.
Proof.
  destruct Hwf as (_ & Hins & _). destruct Hlim as [Hli _ _ _ _ _]. pose proof (iso_inputs _ _ Hv) as Hn.
  pose proof (iso_commitments _ _ Hv) as Hc. unfold calc_script_mass, version_expects_compute_budget_field.
  destruct (Z.ltb_spec 0 (version t)).
  - rewrite (proj2 (Z.leb_le _ _)) by lia.
    destruct (commitments_Ok (E := E) compute_budget (2 ^ 16) t (2 ^ 16)) as (s & -> & Hs); [|lia|lia|lia|].
    { apply Forall_forall. intros i Hin. rewrite Forall_forall in Hc, Hins. destruct (Hc i Hin) as [x Hx].
      destruct (Hins i Hin) as (_ & _ & _ & _ & Hw). exists x. split; [done|].
      destruct (compute_commit i); [done|]. injection Hx as ->. unfold commit_wf, in_u in Hw. lia. }
    cbn [mbind res_mbind]. rewrite mul_p_small by lia. eexists. split; [done|]. lia.
  - rewrite (proj2 (Z.leb_gt _ _)) by lia. destruct Hc as [Hc _].
    destruct (commitments_Ok (E := E) sig_op_count (2 ^ 8) t (2 ^ 16)) as (s & -> & Hs); [|lia|lia|lia|].
    { apply Forall_forall. intros i Hin. rewrite Forall_forall in Hc, Hins. destruct (Hc i Hin) as [x Hx].
      destruct (Hins i Hin) as (_ & _ & _ & _ & Hw). exists x. split; [done|].
      destruct (compute_commit i); [|done]. injection Hx as ->. unfold commit_wf, in_u in Hw. lia. }
    cbn [mbind res_mbind]. rewrite mul_p_small by lia. eexists. split; [done|]. lia.
Qed.

Lemma ok_Some {E A} (m : res E A) a : ok m = Some a ↔ m = Ok a.
Proof. destruct m; simpl; naive_solver. Qed.
Lemma codec_wf {A} (p : Reader → res BundleDecodeError (A * Reader)) enc P r x :
  codec p enc P → reader_wf r → ok (p r) = Some x → P x.1 ∧ reader_wf x.2.
Proof. intros Hc Hr Hx%ok_Some. destruct x as [a r']. apply Hc in Hx as (? & ? & _); done. Qed.

Lemma action_count_range l n :
  is_bytes l → Z.of_nat (length l) < 2 ^ 63 → action_count_from_bytes l = Some n → 0 ≤ n ≤ MAX_ACTIONS_PER_BUNDLE.
Proof.
  intros Hb Hl. unfold action_count_from_bytes. pose proof (reader_new_wf l Hb Hl) as H0.
  intros ([? r1] & H1 & Hn)%bind_Some. apply (codec_wf _ _ _ _ _ r_u8_codec H0) in H1 as [_ H1]. cbn [snd] in H1.
  apply bind_Some in Hn as ([? r2] & H2 & Hn). apply (codec_wf _ _ _ _ _ r_i64_codec H1) in H2 as [_ H2]. cbn [snd] in H2.
  apply bind_Some in Hn as ([? r3] & H3 & Hn). apply (codec_wf _ _ _ _ _ (r_array_codec sizes.FIELD ltac:(done)) H2) in H3 as [_ H3].
  cbn [snd] in H3.
  apply bind_Some in Hn as ([? r4] & H4 & Hn). apply (codec_wf _ _ _ _ _ r_var_codec H3) in H4 as [_ H4]. cbn [snd] in H4.
  apply bind_Some in Hn as ([m r5] & H5 & Hn). apply (codec_wf _ _ _ _ _ r_u32_codec H4) in H5 as [H5 _]. cbn [fst] in H5.
  destruct (Z.ltb_spec MAX_ACTIONS_PER_BUNDLE m); [done|]. injection Hn as <-. unfold in_u in H5. lia.
Qed.

Lemma isolated_masses {E} :
  ∃ m, @calc_non_contextual_masses E (mass_calculator v) t = Ok m ∧ 0 ≤ compute_mass m < 2 ^ 54 ∧ 0 ≤ transient_mass m < 2 ^ 44.
Proof.
  destruct Hwf as (_ & _ & _ & _ & _ & _ & Hpb & Hpl & _).
  unfold calc_non_contextual_masses. destruct (is_coinbase t) eqn:Hcb; [by eexists|].
  destruct (isolated_size (E := E) Hcb) as (size & -> & Hsize). cbn [mbind res_mbind].
  destruct Hlim as [_ Hlo _ Hlk Hb Hk].
  rewrite (mul_p_small size (mass_per_tx_byte _)) by nia. cbn [mbind res_mbind].
  assert (0 ≤ sumZ ((λ o, 2 + Z.of_nat (length (spk_script (out_spk o)))) <$> outputs t) ≤ 2 ^ 16 * (2 ^ 24 + 2)) as Ho.
  { apply sumZ_few; [|pose proof (iso_outputs _ _ Hv Hcb); lia|lia]. eapply Forall_impl; [exact (iso_script_public_keys _ _ Hv)|].
    intros o Hs. unfold zlen in Hs. lia. }
  rewrite sum_p_Ok by lia. cbn [mbind res_mbind]. rewrite (mul_p_small (sumZ _)) by nia. cbn [mbind res_mbind].
  destruct (isolated_script_mass (E := E)) as (sm & -> & Hsm). cbn [mbind res_mbind].
  match goal with |- context [sum_p ?l] => assert (0 ≤ sumZ l < 2 ^ 53) as Hbase by (rewrite !sumZ_cons; change (sumZ []) with 0; nia) end.
  rewrite sum_p_Ok by lia. cbn [mbind res_mbind]. rewrite mul_p_small by lia. cbn [mbind res_mbind].
  eexists. split; [done|]. cbn [compute_mass transient_mass]. split; [|lia].
  destruct (is_shielded t); [|lia]. unfold sat_add64, sat_mul64.
  destruct (action_count_from_bytes (payload t)) as [n|] eqn:Hn; simpl; [apply action_count_range in Hn; [|done|lia]|]; unfold MAX_ACTIONS_PER_BUNDLE in *; lia.
Qed.
End masses.

(** ** The theorem *)

Lemma output_value_ranges_no_panic i outs total : output_value_ranges i outs total ≠ Panic.
Proof.
  revert i total. induction outs as [|o outs IH]; intros i total; simpl; [done|].
  repeat (case_match; try done).
Qed.
Lemma duplicate_inputs_no_panic existing ins : duplicate_inputs existing ins ≠ Panic.
Proof. revert existing. induction ins as [|i ins IH]; intros existing; simpl; [done|]. by case_bool_decide. Qed.
Lemma no_sigop_counts_no_panic i ins : no_sigop_counts i ins ≠ Panic.
Proof. revert i. induction ins as [|inp ins IH]; intros i; simpl; [done|]. by destruct (sig_op_count _). Qed.
Lemma no_compute_budgets_no_panic i ins : no_compute_budgets i ins ≠ Panic.
Proof. revert i. induction ins as [|inp ins IH]; intros i; simpl; [done|]. by destruct (compute_budget _). Qed.

Lemma isolation_no_panic v t : validate_tx_in_isolation v t ≠ Panic.
Proof.
  unfold validate_tx_in_isolation, check_transaction_inputs_in_isolation, check_transaction_outputs_in_isolation.
  repeat (apply bind_no_panic; [|intros _ _]).
  - unfold check_transaction_inputs_count. by repeat case_match.
  - unfold check_transaction_signature_scripts. by case_match.
  - unfold check_transaction_outputs_count. by repeat case_match.
  - unfold check_transaction_script_public_keys. by case_match.
  - unfold check_coinbase_in_isolation. by repeat case_match.
  - apply output_value_ranges_no_panic.
  - apply duplicate_inputs_no_panic.
  - unfold check_gas. by repeat case_match.
  - unfold check_transaction_subnetwork. by repeat case_match.
  - unfold check_transaction_version. by repeat case_match.
  - unfold check_tx_version_specific_fields. destruct (0 <? version t); [apply no_sigop_counts_no_panic|].
    apply bind_no_panic; [apply no_compute_budgets_no_panic|]. intros _ _. by case_match.
  - unfold check_shielded_in_isolation. do 3 (case_match; [done|]).
    apply bind_no_panic; [apply map_err_no_panic, from_bytes_no_panic|]. intros b _. by repeat case_match.
Qed.

(** C18. Validation in isolation never panics and accepts exactly the transactions that
    keep its rules, in whatever order the rules are stated: counts and sizes within the
    limits, positive output values within the money supply, distinct inputs, the gas and
    lane shapes of its version, one kind of commitment on all inputs, and for shielded
    transactions no transparent value and a payload that decodes to a bundle with
    actions.  The masses of an accepted transaction can then be computed: under the
    limits no sum or product overflows and no commitment is missing. *)
Theorem isolation_exact v t :
  tx_wf t →
  validate_tx_in_isolation v t ≠ Panic ∧ (validate_tx_in_isolation v t = Ok tt ↔ isolated v t) ∧
  (limits_ok v → validate_tx_in_isolation v t = Ok tt →
   ∃ m, calc_non_contextual_masses (E := TxRuleError) (mass_calculator v) t = Ok m ∧
     0 ≤ compute_mass m < 2 ^ 54 ∧ 0 ≤ transient_mass m < 2 ^ 44).
Proof.
  intros Hwf. split; [apply isolation_no_panic|]. split; [by apply isolation_iff|].
  intros Hlim Hv%isolation_iff; [|done]. by apply isolated_masses.
Qed.

(** ** A validator, for the witnesses *)
Module SampleValidator.
Definition validator : TransactionValidator :=
  mkValidator 1000 1000 (mkForked 100000 100000 (2 ^ 64 - 1)) 10000 150 100 18 0 1000 (replicate 32 3)
    (mkCalculator 1 10 1000000000000).
End SampleValidator.

Lemma isolation_exact_witness :
  ∃ m, calc_non_contextual_masses (E := TxRuleError) (mass_calculator SampleValidator.validator) SampleTx.tx = Ok m ∧
    0 ≤ compute_mass m < 2 ^ 54 ∧ 0 ≤ transient_mass m < 2 ^ 44.
Proof.
  apply (isolation_exact SampleValidator.validator SampleTx.tx).
  - exact (proj1 SampleTx.populated_ok).
  - by constructor; vm_compute.
  - vm_compute. reflexivity.
Defined.
