(* ===== verification/StateMonad.v ===== *)
(** * Stateful Rust code

    A method on [&mut self] that returns a [Result] is a function from the
    state to a result with the next state.  An error drops the state: every
    caller modelled here propagates errors with [?], so that no state is read
    after one.  A triple states that from a state with the precondition a
    computation does not panic, and that when it returns the postcondition
    holds. *)

From S2P Require Import Prelude.

Definition stm (E S A : Type) : Type := S → res E (A * S).

Section ops.
Context {E S : Type}.

#[global] Instance stm_mret : MRet (stm E S) := λ _ a s, Ok (a, s).

#[global] Instance stm_mbind : MBind (stm E S) := λ _ _ f m s,
  match m s with
  | Ok (a, s') => f a s'
  | Err e => Err e
  | Panic => Panic
  end.

Definition ok {A} (a : A) : stm E S A := λ s, Ok (a, s).
Definition throw {A} (e : E) : stm E S A := λ _, Err e.
Definition panic {A} : stm E S A := λ _, Panic.
Definition gets {A} (f : S → A) : stm E S A := λ s, Ok (f s, s).
Definition modify (f : S → S) : stm E S () := λ s, Ok (tt, f s).

(** A computation that does not touch the state, and an optional value. *)
Definition lift_res {A} (r : res E A) : stm E S A := λ s,
  match r with Ok a => Ok (a, s) | Err e => Err e | Panic => Panic end.
Definition or_throw {A} (o : option A) (e : E) : stm E S A :=
  match o with Some a => ok a | None => throw e end.

(** A method of a field, called on the whole. *)
Definition zoom {T A} (get : S → T) (set : T → S → S) (m : stm E T A) : stm E S A := λ s,
  match m (get s) with
  | Ok (a, t) => Ok (a, set t s)
  | Err e => Err e
  | Panic => Panic
  end.
End ops.

(** ** Triples *)

Definition triple {E S A} (P : S → Prop) (m : stm E S A) (Q : A → S → Prop) : Prop :=
  ∀ s, P s → match m s with Ok (a, s') => Q a s' | Err _ => True | Panic => False end.

Section rules.
Context {E S : Type}.
Implicit Types P : S → Prop.

Lemma triple_ok {A} P (a : A) : triple (E := E) P (ok a) (λ x s, x = a ∧ P s).
Proof. by intros s Hs. Qed.

Lemma triple_throw {A} P (e : E) (Q : A → S → Prop) : triple P (throw e) Q.
Proof. done. Qed.

Lemma triple_gets {A} P (f : S → A) : triple (E := E) P (gets f) (λ x s, x = f s ∧ P s).
Proof. by intros s Hs. Qed.

Lemma triple_bind {A B} P (m : stm E S A) (f : A → stm E S B) Q R :
  triple P m Q → (∀ a, triple (Q a) (f a) R) → triple P (m ≫= f) R.
Proof.
  intros Hm Hf s Hs. specialize (Hm s Hs). unfold mbind, stm_mbind.
  destruct (m s) as [[a s']| |]; [|done..]. by apply Hf.
Qed.

Lemma triple_conseq {A} P P' (m : stm E S A) Q Q' :
  triple P' m Q' → (∀ s, P s → P' s) → (∀ a s, Q' a s → Q a s) → triple P m Q.
Proof.
  intros Hm HP HQ s Hs. specialize (Hm s (HP s Hs)). destruct (m s) as [[a s']| |]; auto.
Qed.

Lemma triple_post {A} P (m : stm E S A) Q Q' :
  triple P m Q' → (∀ a s, Q' a s → Q a s) → triple P m Q.
Proof. intros Hm HQ. by eapply triple_conseq. Qed.

Lemma triple_pure {A} P (φ : Prop) (m : stm E S A) Q :
  (φ → triple P m Q) → triple (λ s, φ ∧ P s) m Q.
Proof. intros Hm s [Hφ Hs]. by apply Hm. Qed.

(** Forgetting what was read of the state. *)
Lemma triple_drop {A} P (R : S → Prop) (m : stm E S A) Q : triple P m Q → triple (λ s, R s ∧ P s) m Q.
Proof. intros Hm s [_ Hs]. by apply Hm. Qed.

Lemma triple_ex {A T} (P : T → S → Prop) (m : stm E S A) Q :
  (∀ x, triple (P x) m Q) → triple (λ s, ∃ x, P x s) m Q.
Proof. intros Hm s [x Hs]. by apply (Hm x). Qed.

Lemma triple_lift_res {A} P (r : res E A) Q :
  (r ≠ Panic) → (∀ a s, r = Ok a → P s → Q a s) → triple P (lift_res r) Q.
Proof. intros Hr HQ s Hs. unfold lift_res. destruct r; [by apply HQ|done|done]. Qed.

Lemma triple_or_throw {A} P (o : option A) (e : E) :
  triple P (or_throw o e) (λ x s, o = Some x ∧ P s).
Proof. destruct o as [a|]; by intros s Hs. Qed.

Lemma triple_zoom {T A} (get : S → T) (set : T → S → S) (m : stm E T A) (P : S → Prop)
    (P' : T → Prop) (Q' : A → T → Prop) (Q : A → S → Prop) :
  triple P' m Q' → (∀ s, P s → P' (get s)) → (∀ a t s, P s → Q' a t → Q a (set t s)) →
  triple P (zoom get set m) Q.
Proof.
  intros Hm HP HQ s Hs. specialize (Hm (get s) (HP s Hs)). unfold zoom.
  destruct (m (get s)) as [[a t]| |]; eauto.
Qed.

(** Running forward. *)
Lemma bind_step {A B} (m : stm E S A) (f : A → stm E S B) s a s' : m s = Ok (a, s') → (m ≫= f) s = f a s'.
Proof. unfold mbind, stm_mbind. by intros ->. Qed.

Lemma bind_ok_inv {A B} (m : stm E S A) (f : A → stm E S B) s b s'' :
  (m ≫= f) s = Ok (b, s'') ↔ ∃ a s', m s = Ok (a, s') ∧ f a s' = Ok (b, s'').
Proof.
  unfold mbind, stm_mbind. destruct (m s) as [[a s']| |]; split; naive_solver.
Qed.
End rules.
