(* ===== verification/ScriptStack.v ===== *)
(** * The script engine's stacks (crypto/txscript/src/data_stack.rs)

    [inner] is the [Vec] of the source: its head is the bottom of the stack
    and its end the top. *)

From S2P Require Import Prelude Bytes Transaction StateMonad ScriptNum.

Abbreviation MAX_SCRIPT_ELEMENT_SIZE_PRE_TOCCATA := (520)%Z (only parsing).
Abbreviation MAX_SCRIPT_ELEMENT_SIZE_POST_TOCCATA := (1000000)%Z (only parsing).

Abbreviation StackEntry := bytes.

Record Stack := mkStack {
  inner : list StackEntry;
  covenants_enabled : bool;
  pushed_bytes : Z;
}.

Definition depth (s : Stack) : nat := length (inner s).
Definition set_inner (l : list StackEntry) (s : Stack) : Stack :=
  mkStack l (covenants_enabled s) (pushed_bytes s).

Definition stack_new (inner : list StackEntry) (covenants_enabled : bool) : Stack :=
  mkStack inner covenants_enabled 0.

Definition total_bytes (items : list StackEntry) : Z := sumZ (zlen <$> items).

Abbreviation stackM := (stm TxScriptError Stack).

Definition add_pushed_bytes (n : Z) : stackM () := λ s,
  match checked_add 64 (pushed_bytes s) n with
  | Some n => Ok (tt, mkStack (inner s) (covenants_enabled s) n)
  | None => Panic
  end.

(** [std::mem::take]. *)
Definition stack_pop_pushed_bytes : stackM Z := λ s,
  Ok (pushed_bytes s, mkStack (inner s) (covenants_enabled s) 0).

Definition max_element_size (s : Stack) : Z :=
  if covenants_enabled s then MAX_SCRIPT_ELEMENT_SIZE_POST_TOCCATA else 2 ^ 64 - 1.

(** [Vec::insert], [Vec::remove] and [Vec::split_off]. *)
Definition vec_insert (i : nat) (x : StackEntry) : stackM () := λ s,
  if (i <=? depth s)%nat then Ok (tt, set_inner (take i (inner s) ++ x :: drop i (inner s)) s) else Panic.
Definition stack_remove (i : nat) : stackM StackEntry := λ s,
  match inner s !! i with
  | Some x => Ok (x, set_inner (take i (inner s) ++ drop (S i) (inner s)) s)
  | None => Panic
  end.
Definition split_off (at_ : nat) : stackM (list StackEntry) := λ s,
  if (at_ <=? depth s)%nat then Ok (drop at_ (inner s), set_inner (take at_ (inner s)) s) else Panic.

Definition check_element_size (x : StackEntry) : stackM () :=
  max ← gets max_element_size;
  if max <? zlen x then throw (ElementTooBig (zlen x) max) else ok tt.

Definition stack_insert (i : nat) (x : StackEntry) : stackM () :=
  _ ← check_element_size x;
  _ ← add_pushed_bytes (zlen x);
  vec_insert i x.

(** [self.len() < SIZE] of the [pop_*] and [peek_*] methods. *)
Definition require (size : nat) : stackM () :=
  len ← gets depth;
  if (len <? size)%nat then throw (InvalidStackOperation (Z.of_nat size) (Z.of_nat len)) else ok tt.

Definition pop_raw (SIZE : nat) : stackM (list StackEntry) :=
  _ ← require SIZE;
  len ← gets depth;
  split_off (len - SIZE).

Definition peek_raw (SIZE : nat) : stackM (list StackEntry) :=
  _ ← require SIZE;
  gets (λ s, drop (depth s - SIZE) (inner s)).

(** [collect::<Result<Vec<T>, _>>]. *)
Fixpoint collect {E A B} (f : A → res E B) (l : list A) : res E (list B) :=
  match l with
  | [] => Ok []
  | x :: l => y ← f x; ys ← collect f l; Ok (y :: ys)
  end.

(** [pop_items], for a decoder of the items. *)
Definition pop_items {T} (deserialize : bytes → bool → res TxScriptError T) (SIZE : nat) : stackM (list T) :=
  items ← pop_raw SIZE;
  cov ← gets covenants_enabled;
  lift_res (collect (λ v, deserialize v (negb cov)) items).

(** The array patterns [[a]], [[a, b]] and [[a, b, c]]. *)
Definition arr1 {S A} (l : list A) : stm TxScriptError S A :=
  match l with [a] => ok a | _ => panic end.
Definition arr2 {S A} (l : list A) : stm TxScriptError S (A * A) :=
  match l with [a; b] => ok (a, b) | _ => panic end.
Definition arr3 {S A} (l : list A) : stm TxScriptError S (A * A * A) :=
  match l with [a; b; c] => ok (a, b, c) | _ => panic end.

Definition vec_push (x : StackEntry) : stackM () := modify (λ s, set_inner (inner s ++ [x]) s).

(** [push_item] and [push_item_unmetered], for an encoded item. *)
Definition push_item (v : res SerializationError StackEntry) : stackM () :=
  v ← lift_res (map_err Serialization v);
  _ ← add_pushed_bytes (zlen v);
  vec_push v.
Definition push_item_unmetered (v : res SerializationError StackEntry) : stackM () :=
  v ← lift_res (map_err Serialization v);
  vec_push v.

Definition require_items (size : nat) : stackM () :=
  len ← gets depth;
  if (size <=? len)%nat then ok tt else throw (InvalidStackOperation (Z.of_nat size) (Z.of_nat len)).

Definition drop_items (SIZE : nat) : stackM () :=
  _ ← require_items SIZE;
  modify (λ s, set_inner (take (depth s - SIZE) (inner s)) s).

Definition dup_items (SIZE : nat) : stackM () :=
  _ ← require_items SIZE;
  top ← gets (λ s, drop (depth s - SIZE) (inner s));
  _ ← add_pushed_bytes (total_bytes top);
  modify (λ s, set_inner (inner s ++ top) s).

Definition over_items (SIZE : nat) : stackM () :=
  _ ← require_items (2 * SIZE);
  group ← gets (λ s, take SIZE (drop (depth s - 2 * SIZE) (inner s)));
  _ ← add_pushed_bytes (total_bytes group);
  modify (λ s, set_inner (inner s ++ group) s).

(** [slice::rotate_left] of the elements from [from] on. *)
Definition rotate_left_from (from n : nat) (l : list StackEntry) : list StackEntry :=
  take from l ++ drop n (drop from l) ++ take n (drop from l).

Definition rot_items (SIZE : nat) : stackM () :=
  _ ← require_items (3 * SIZE);
  modify (λ s, set_inner (rotate_left_from (depth s - 3 * SIZE) SIZE (inner s)) s).

Definition swap_items (SIZE : nat) : stackM () :=
  _ ← require_items (2 * SIZE);
  modify (λ s, set_inner (rotate_left_from (depth s - 2 * SIZE) SIZE (inner s)) s).

Definition roll (loc : nat) : stackM () :=
  len ← gets depth;
  if (len <=? loc)%nat then throw (InvalidStackOperation (Z.of_nat loc) (Z.of_nat len))
  else if (loc =? 0)%nat then ok tt
  else modify (λ s, set_inner (rotate_left_from (len - loc - 1) 1 (inner s)) s).

Definition stack_clear (s : Stack) : Stack := set_inner [] s.

Definition stack_pop : stackM StackEntry := λ s,
  match last (inner s) with
  | Some x => Ok (x, set_inner (take (depth s - 1) (inner s)) s)
  | None => Err EmptyStack
  end.

Definition stack_push (x : StackEntry) : stackM () :=
  _ ← check_element_size x;
  _ ← add_pushed_bytes (zlen x);
  vec_push x.
Definition push_unmetered (x : StackEntry) : stackM () :=
  _ ← check_element_size x;
  vec_push x.

(** ** Well-formed stacks

    [stack_ok c n s]: the entries are byte strings within the size bound, and at
    most [n] pushes were metered since the counter was reset.  Under covenants the
    bound is the element limit that [push] enforces; before, it is what a script
    public key can have. *)
Definition elem_bound (c : bool) : Z := if c then MAX_SCRIPT_ELEMENT_SIZE_POST_TOCCATA else 2 ^ 33.
Definition entry_ok (c : bool) (x : StackEntry) : Prop := is_bytes x ∧ zlen x ≤ elem_bound c.
Definition stack_ok (c : bool) (n : nat) (s : Stack) : Prop :=
  covenants_enabled s = c ∧ Forall (entry_ok c) (inner s) ∧
  0 ≤ pushed_bytes s ≤ Z.of_nat n * 2 ^ 35 ∧ (n ≤ 1000)%nat.

Lemma elem_bound_le c : elem_bound c ≤ 2 ^ 33.
Proof. by destruct c. Qed.

Lemma stack_ok_mono c n m s : (n ≤ m ≤ 1000)%nat → stack_ok c n s → stack_ok c m s.
Proof. intros Hnm (Hc & Hf & Hp & Hn). split_and!; try done; nia. Qed.

Lemma stack_ok_new c : stack_ok c 0 (stack_new [] c).
Proof. split_and!; simpl; [done|constructor|lia|lia|lia]. Qed.

Lemma stack_ok_set_inner c n s l : stack_ok c n s → Forall (entry_ok c) l → stack_ok c n (set_inner l s).
Proof. intros (Hc & _ & [Hp Hp'] & Hn) Hl. unfold stack_ok, set_inner. cbn [inner covenants_enabled pushed_bytes]. by split_and!. Qed.

Lemma total_bytes_bound c l :
  Forall (entry_ok c) l → 0 ≤ total_bytes l ≤ zlen l * elem_bound c.
Proof.
  intros Hl. unfold total_bytes. pose proof (sumZ_bound (zlen <$> l) (elem_bound c)) as Hb.
  rewrite length_fmap in Hb. apply Hb, Forall_fmap. eapply Forall_impl; [exact Hl|].
  intros x [_ Hx]. pose proof (zlen_nonneg x). simpl. lia.
Qed.

Section specs.
Context (c : bool).

Lemma add_pushed_bytes_spec n k :
  (n < 1000)%nat → 0 ≤ k ≤ 2 ^ 35 →
  triple (stack_ok c n) (add_pushed_bytes k) (λ _ s, True ∧ stack_ok c (S n) s).
Proof.
  intros Hn Hk s (Hc & Hf & Hp & _). unfold add_pushed_bytes, checked_add.
  replace (pushed_bytes s + k <? 2 ^ 64) with true by (symmetry; apply Z.ltb_lt; nia).
  split; [done|]. unfold stack_ok. cbn [inner covenants_enabled pushed_bytes]. split_and!; try done; lia.
Qed.

Lemma split_off_spec n at_ :
  triple (λ s, (at_ ≤ depth s)%nat ∧ stack_ok c n s) (split_off at_)
    (λ l s, Forall (entry_ok c) l ∧ stack_ok c n s).
Proof.
  intros s [Hle Hs]. unfold split_off. rewrite (proj2 (Nat.leb_le _ _)) by done.
  pose proof Hs as (_ & Hf & _). split; [by apply Forall_drop|].
  apply stack_ok_set_inner; [done|]. by apply Forall_take.
Qed.

Lemma pop_raw_spec n k :
  triple (stack_ok c n) (pop_raw k) (λ l s, (length l = k ∧ Forall (entry_ok c) l) ∧ stack_ok c n s).
Proof.
  intros s Hs. unfold pop_raw, require, gets, split_off, mbind, stm_mbind, ok.
  destruct (Nat.ltb_spec (depth s) k); [done|]. rewrite (proj2 (Nat.leb_le _ _)) by lia.
  pose proof Hs as (_ & Hf & _). split; [split|].
  - rewrite length_drop. unfold depth in *. lia.
  - by apply Forall_drop.
  - apply stack_ok_set_inner; [done|]. by apply Forall_take.
Qed.

Lemma peek_raw_spec n k :
  triple (stack_ok c n) (peek_raw k) (λ l s, (length l = k ∧ Forall (entry_ok c) l) ∧ stack_ok c n s).
Proof.
  intros s Hs. unfold peek_raw, require, gets, mbind, stm_mbind, ok.
  destruct (Nat.ltb_spec (depth s) k); [done|].
  pose proof Hs as (_ & Hf & _). split; [split|done].
  - rewrite length_drop. unfold depth in *. lia.
  - by apply Forall_drop.
Qed.

Lemma collect_spec {A B} (f : A → res TxScriptError B) (P : A → Prop) (Q : B → Prop) l :
  (∀ x, P x → f x ≠ Panic) → (∀ x y, P x → f x = Ok y → Q y) → Forall P l →
  collect f l ≠ Panic ∧ ∀ ys, collect f l = Ok ys → length ys = length l ∧ Forall Q ys.
Proof.
  intros Hp Hq. induction 1 as [|x l Hx Hl [IHp IHq]]; simpl.
  { split; [done|]. by intros ys [= <-]. }
  pose proof (Hp x Hx). destruct (f x) as [y| |] eqn:Hfx; [|done..]. cbn [mbind res_mbind].
  destruct (collect f l) as [ys| |]; [|done..]. split; [done|]. intros zs [= <-].
  destruct (IHq ys eq_refl) as [Hlen Hys]. simpl. split; [lia|]. constructor; [|done]. by eapply Hq.
Qed.

Lemma pop_items_spec {T} (d : bytes → bool → res TxScriptError T) (Q : T → Prop) n k :
  (∀ v e, is_bytes v → d v e ≠ Panic) → (∀ v e x, is_bytes v → d v e = Ok x → Q x) →
  triple (stack_ok c n) (pop_items d k) (λ l s, (length l = k ∧ Forall Q l) ∧ stack_ok c n s).
Proof.
  intros Hp Hq. unfold pop_items. eapply triple_bind; [apply pop_raw_spec|]. intros l.
  apply triple_pure. intros [Hlen Hl]. eapply triple_bind; [apply triple_gets|]. intros cov.
  apply triple_drop.
  destruct (collect_spec (λ v, d v (negb cov)) is_bytes Q l) as [Hnp Hok];
    [by intros; apply Hp|by intros; eapply Hq| |].
  { eapply Forall_impl; [exact Hl|]. by intros x [? _]. }
  apply triple_lift_res; [done|]. intros ys s Hys Hs. apply Hok in Hys as [? ?]. split; [|done].
  split; [congruence|done].
Qed.

Lemma check_element_size_spec n x :
  is_bytes x → zlen x ≤ 2 ^ 33 →
  triple (stack_ok c n) (check_element_size x) (λ _ s, entry_ok c x ∧ stack_ok c n s).
Proof.
  intros Hx Hlen s Hs. unfold check_element_size, gets, mbind, stm_mbind, ok, throw, max_element_size.
  pose proof Hs as (-> & _). destruct c.
  - destruct (Z.ltb_spec MAX_SCRIPT_ELEMENT_SIZE_POST_TOCCATA (zlen x)); [done|]. split; [|done]. by split.
  - replace (2 ^ 64 - 1 <? zlen x) with false by (symmetry; apply Z.ltb_ge; lia). split; [|done]. by split.
Qed.

Lemma vec_push_spec n x :
  entry_ok c x → triple (stack_ok c n) (vec_push x) (λ _ s, True ∧ stack_ok c n s).
Proof.
  intros Hx s Hs. split; [done|]. pose proof Hs as (_ & Hf & _). apply stack_ok_set_inner; [done|].
  apply Forall_app. split; [done|]. by constructor.
Qed.

Lemma entry_metered x : entry_ok c x → 0 ≤ zlen x ≤ 2 ^ 35.
Proof. intros [_ Hx]. pose proof (elem_bound_le c). pose proof (zlen_nonneg x). lia. Qed.

Lemma stack_push_spec n x :
  (n < 1000)%nat → is_bytes x → zlen x ≤ 2 ^ 33 →
  triple (stack_ok c n) (stack_push x) (λ _ s, True ∧ stack_ok c (S n) s).
Proof.
  intros Hn Hx Hlen. unfold stack_push. eapply triple_bind; [by apply check_element_size_spec|]. intros [].
  apply triple_pure. intros Hok. eapply triple_bind; [by apply add_pushed_bytes_spec, entry_metered|]. intros [].
  apply triple_pure. intros _. by apply vec_push_spec.
Qed.

Lemma push_unmetered_spec n x :
  is_bytes x → zlen x ≤ 2 ^ 33 → triple (stack_ok c n) (push_unmetered x) (λ _ s, True ∧ stack_ok c n s).
Proof.
  intros Hx Hlen. unfold push_unmetered. eapply triple_bind; [by apply check_element_size_spec|]. intros [].
  apply triple_pure. intros Hok. by apply vec_push_spec.
Qed.

Definition item_ok (v : res SerializationError StackEntry) : Prop :=
  v ≠ Panic ∧ ∀ b, v = Ok b → is_bytes b ∧ zlen b ≤ 520.

Lemma item_ok_entry v b : item_ok v → v = Ok b → entry_ok c b.
Proof. intros [_ Hv] Hb. apply Hv in Hb as [? ?]. split; [done|]. destruct c; simpl; lia. Qed.

Lemma push_item_unmetered_spec n v :
  item_ok v → triple (stack_ok c n) (push_item_unmetered v) (λ _ s, True ∧ stack_ok c n s).
Proof.
  intros Hv. unfold push_item_unmetered.
  eapply (triple_bind _ _ _ (λ b s, entry_ok c b ∧ stack_ok c n s)).
  - apply triple_lift_res; [by destruct v, Hv|]. intros b s Hb Hs. apply map_err_Ok in Hb.
    split; [by eapply item_ok_entry|done].
  - intros b. apply triple_pure. intros Hb. by apply vec_push_spec.
Qed.

Lemma push_item_spec n v :
  (n < 1000)%nat → item_ok v → triple (stack_ok c n) (push_item v) (λ _ s, True ∧ stack_ok c (S n) s).
Proof.
  intros Hn Hv. unfold push_item.
  eapply (triple_bind _ _ _ (λ b s, entry_ok c b ∧ stack_ok c n s)).
  - apply triple_lift_res; [by destruct v, Hv|]. intros b s Hb Hs. apply map_err_Ok in Hb.
    split; [by eapply item_ok_entry|done].
  - intros b. apply triple_pure. intros Hb. eapply triple_bind; [by apply add_pushed_bytes_spec, entry_metered|].
    intros []. apply triple_pure. intros _. by apply vec_push_spec.
Qed.

Lemma stack_pop_spec n : triple (stack_ok c n) stack_pop (λ x s, entry_ok c x ∧ stack_ok c n s).
Proof.
  intros s Hs. unfold stack_pop. destruct (last (inner s)) as [x|] eqn:Hl; [|done].
  pose proof Hs as (_ & Hf & _). split.
  - rewrite last_lookup in Hl. exact (Forall_lookup_1 _ _ _ _ Hf Hl).
  - apply stack_ok_set_inner; [done|]. by apply Forall_take.
Qed.

(** The operations that only move entries. *)
Lemma modify_inner_spec n (f : Stack → list StackEntry) :
  (∀ s, Forall (entry_ok c) (inner s) → Forall (entry_ok c) (f s)) →
  triple (E := TxScriptError) (stack_ok c n) (modify (λ s, set_inner (f s) s)) (λ _ s, True ∧ stack_ok c n s).
Proof.
  intros Hf s Hs. split; [done|]. pose proof Hs as (_ & Hi & _). apply stack_ok_set_inner; [done|]. by apply Hf.
Qed.

Lemma require_items_spec n k :
  triple (stack_ok c n) (require_items k) (λ _ s, True ∧ stack_ok c n s).
Proof.
  intros s Hs. unfold require_items, gets, mbind, stm_mbind, ok, throw. by destruct (k <=? depth s)%nat.
Qed.

Lemma rotate_ok P i k (l : list StackEntry) : Forall P l → Forall P (rotate_left_from i k l).
Proof.
  intros Hl. unfold rotate_left_from.
  rewrite !Forall_app. split_and!; auto using Forall_take, Forall_drop.
Qed.

Lemma drop_items_spec n k : triple (stack_ok c n) (drop_items k) (λ _ s, True ∧ stack_ok c n s).
Proof.
  unfold drop_items. eapply triple_bind; [apply require_items_spec|]. intros []. apply triple_pure. intros _.
  apply modify_inner_spec. intros. by apply Forall_take.
Qed.

Lemma rot_items_spec n k : triple (stack_ok c n) (rot_items k) (λ _ s, True ∧ stack_ok c n s).
Proof.
  unfold rot_items. eapply triple_bind; [apply require_items_spec|]. intros []. apply triple_pure. intros _.
  apply modify_inner_spec. intros. by apply rotate_ok.
Qed.

Lemma swap_items_spec n k : triple (stack_ok c n) (swap_items k) (λ _ s, True ∧ stack_ok c n s).
Proof.
  unfold swap_items. eapply triple_bind; [apply require_items_spec|]. intros []. apply triple_pure. intros _.
  apply modify_inner_spec. intros. by apply rotate_ok.
Qed.

Lemma roll_spec n k : triple (stack_ok c n) (roll k) (λ _ s, True ∧ stack_ok c n s).
Proof.
  unfold roll. eapply triple_bind; [apply triple_gets|]. intros len. apply triple_drop.
  destruct (len <=? k)%nat; [apply triple_throw|]. destruct (k =? 0)%nat; [by intros s Hs|].
  apply modify_inner_spec. intros. by apply rotate_ok.
Qed.

(** Copies of at most three entries. *)
Lemma copy_spec n (f : Stack → list StackEntry) :
  (n < 1000)%nat →
  (∀ s, Forall (entry_ok c) (inner s) → Forall (entry_ok c) (f s) ∧ (length (f s) ≤ 3)%nat) →
  triple (stack_ok c n)
    (top ← gets f; _ ← add_pushed_bytes (total_bytes top); modify (λ s, set_inner (inner s ++ top) s))
    (λ _ s, True ∧ stack_ok c (S n) s).
Proof.
  intros Hn Hf.
  eapply (triple_bind _ _ _ (λ top s, (Forall (entry_ok c) top ∧ (length top ≤ 3)%nat) ∧ stack_ok c n s)).
  { intros s Hs. pose proof Hs as (_ & Hi & _). split; [by apply Hf|done]. }
  intros top. apply triple_pure. intros [Htop Hlen]. eapply triple_bind.
  { apply add_pushed_bytes_spec; [done|]. pose proof (total_bytes_bound c top Htop). unfold zlen in *.
    pose proof (elem_bound_le c). assert (0 ≤ elem_bound c) by by destruct c. nia. }
  intros []. apply triple_pure. intros _. apply modify_inner_spec. intros s Hs. by apply Forall_app.
Qed.

Lemma dup_items_spec n k :
  (n < 1000)%nat → (k ≤ 3)%nat → triple (stack_ok c n) (dup_items k) (λ _ s, True ∧ stack_ok c (S n) s).
Proof.
  intros Hn Hk. unfold dup_items. eapply triple_bind; [apply require_items_spec|]. intros [].
  apply triple_pure. intros _. apply copy_spec; [done|]. intros s Hs. split; [by apply Forall_drop|].
  rewrite length_drop. unfold depth. lia.
Qed.

Lemma over_items_spec n k :
  (n < 1000)%nat → (k ≤ 3)%nat → triple (stack_ok c n) (over_items k) (λ _ s, True ∧ stack_ok c (S n) s).
Proof.
  intros Hn Hk. unfold over_items. eapply triple_bind; [apply require_items_spec|]. intros [].
  apply triple_pure. intros _. apply copy_spec; [done|]. intros s Hs.
  split; [by apply Forall_take, Forall_drop|]. rewrite length_take. lia.
Qed.
End specs.
