(* ===== verification/Covenants.v ===== *)
(** * Covenant contexts (crypto/txscript/src/covenants.rs,
    consensus/core/src/hashing/covenant_id.rs)

    The relation between the inputs and the outputs of a transaction that carry
    covenant ids, computed once per transaction and read by the introspection
    opcodes.  An output either continues the covenant of the input that
    authorizes it or starts one, whose id must be the hash of the outpoint that
    the input spends and of the outputs started together. *)

From S2P Require Import Prelude Bytes Transaction Sighash ScriptNum.

(** [kaspa_hashes::CovenantID]: a domain-separated hash. *)
Class CovenantHash := { covenant_id_hash : bytes → Hash }.

Record CovenantInputContext := mkInputCtx { auth_outputs : list nat }.
Record CovenantSharedContext := mkSharedCtx { input_indices : list nat; output_indices : list nat }.
Record CovenantsContext := mkCovCtx {
  input_ctxs : gmap nat CovenantInputContext;
  shared_ctxs : gmap Hash CovenantSharedContext;
}.

Definition EMPTY_COV_CONTEXT : CovenantsContext := mkCovCtx ∅ ∅.

(** [HashMap::get(..).map(..).unwrap_or_default()]. *)
Definition input_ctx_outputs (c : CovenantsContext) (input_idx : nat) : list nat :=
  from_option auth_outputs [] (input_ctxs c !! input_idx).
Definition shared_inputs (c : CovenantsContext) (id : Hash) : list nat :=
  from_option input_indices [] (shared_ctxs c !! id).
Definition shared_outputs (c : CovenantsContext) (id : Hash) : list nat :=
  from_option output_indices [] (shared_ctxs c !! id).

Definition auth_output_index (c : CovenantsContext) (input_idx k : nat) : res CovenantsError nat :=
  let outs := input_ctx_outputs c input_idx in
  ok_or (InvalidAuthCovOutIndex k input_idx (length outs)) (outs !! k).
Definition num_auth_outputs (c : CovenantsContext) (input_idx : nat) : nat :=
  length (input_ctx_outputs c input_idx).
Definition num_covenant_inputs (c : CovenantsContext) (id : Hash) : nat := length (shared_inputs c id).
Definition covenant_input_index (c : CovenantsContext) (id : Hash) (k : nat) : res CovenantsError nat :=
  ok_or (InvalidCovInIndex id k) (shared_inputs c id !! k).
Definition num_covenant_outputs (c : CovenantsContext) (id : Hash) : nat := length (shared_outputs c id).
Definition covenant_output_index (c : CovenantsContext) (id : Hash) (k : nat) : res CovenantsError nat :=
  ok_or (InvalidCovOutIndex id k) (shared_outputs c id !! k).

Section from_tx.
Context `{CovenantHash}.

Definition covenant_id (outpoint : TransactionOutpoint) (auth : list (nat * TransactionOutput)) : Hash :=
  let h := write_u32 (transaction_id outpoint) (outpoint_index outpoint) in
  let h := write_len h (length auth) in
  covenant_id_hash
    (foldl (λ h '(i, o),
       let h := write_u32 h (Z.of_nat i mod 2 ^ 32) in
       let h := write_u64 h (out_value o) in
       let h := write_u16 h (spk_version (out_spk o)) in
       write_var_bytes h (spk_script (out_spk o))) h auth).

(** The first loop of [from_tx]: the inputs that carry a covenant id. *)
Fixpoint input_pass (i : nat) (es : list UtxoEntry) (shared : gmap Hash CovenantSharedContext)
    : gmap Hash CovenantSharedContext :=
  match es with
  | [] => shared
  | e :: es =>
      let shared :=
        match entry_covenant_id e with
        | Some id =>
            let s := default (mkSharedCtx [] []) (shared !! id) in
            <[id := mkSharedCtx (input_indices s ++ [i]) (output_indices s)]> shared
        | None => shared
        end in
      input_pass (S i) es shared
  end.

Abbreviation genesis_map := (gmap (nat * Hash) (list nat)).

(** One iteration of the second loop. *)
Definition output_step (p : PopulatedTransaction) (i : nat) (o : TransactionOutput)
    (st : CovenantsContext * genesis_map) : res CovenantsError (CovenantsContext * genesis_map) :=
  match out_covenant o with
  | None => Ok st
  | Some b =>
      let id := binding_covenant_id b in
      let auth := Z.to_nat (authorizing_input b) in
      match utxo p auth with
      | None => Err (AuthInputOutOfBounds i (authorizing_input b))
      | Some e =>
          let '(ctx, genesis) := st in
          if bool_decide (entry_covenant_id e = Some id) then
            let outs := from_option auth_outputs [] (input_ctxs ctx !! auth) in
            s ← unwrap (shared_ctxs ctx !! id);
            Ok (mkCovCtx (<[auth := mkInputCtx (outs ++ [i])]> (input_ctxs ctx))
                  (<[id := mkSharedCtx (input_indices s) (output_indices s ++ [i])]> (shared_ctxs ctx)),
                genesis)
          else
            let group := default [] (genesis !! (auth, id)) in
            Ok (ctx, <[(auth, id) := group ++ [i]]> genesis)
      end
  end.

Fixpoint output_pass (p : PopulatedTransaction) (i : nat) (os : list TransactionOutput)
    (st : CovenantsContext * genesis_map) : res CovenantsError (CovenantsContext * genesis_map) :=
  match os with
  | [] => Ok st
  | o :: os => st ← output_step p i o st; output_pass p (S i) os st
  end.

(** The indexed outputs of a group: [expect("enumerated above")]. *)
Fixpoint indexed_outputs {E} (p : PopulatedTransaction) (js : list nat) : res E (list (nat * TransactionOutput)) :=
  match js with
  | [] => Ok []
  | i :: js => o ← unwrap (outputs (ptx p) !! i); r ← indexed_outputs p js; Ok ((i, o) :: r)
  end.

(** The third loop: the genesis groups, in the map's iteration order. *)
Fixpoint genesis_pass (p : PopulatedTransaction) (groups : list ((nat * Hash) * list nat))
    : res CovenantsError () :=
  match groups with
  | [] => Ok tt
  | ((auth, id), js) :: groups =>
      input ← unwrap (inputs (ptx p) !! auth);
      outs ← indexed_outputs p js;
      if bool_decide (covenant_id (previous_outpoint input) outs ≠ id)
      then Err (WrongGenesisCovenantId auth id)
      else genesis_pass p groups
  end.

Definition from_tx (p : PopulatedTransaction) : res CovenantsError CovenantsContext :=
  let ctx := mkCovCtx ∅ (input_pass 0 (entries p) ∅) in
  '(ctx, genesis) ← output_pass p 0 (outputs (ptx p)) (ctx, ∅);
  _ ← genesis_pass p (map_to_list genesis);
  Ok ctx.

(** ** Specification *)

(** The binding of output [j] and the covenant id of input [i]. *)
Definition binding (p : PopulatedTransaction) (j : nat) : option (nat * Hash) :=
  o ← outputs (ptx p) !! j;
  b ← out_covenant o;
  Some (Z.to_nat (authorizing_input b), binding_covenant_id b).
Definition carried (p : PopulatedTransaction) (i : nat) : option Hash :=
  e ← utxo p i; entry_covenant_id e.

(** Output [j] continues a covenant, or starts one. *)
Definition continues (p : PopulatedTransaction) (j : nat) : option (nat * Hash) :=
  x ← binding p j; if bool_decide (carried p x.1 = Some x.2) then Some x else None.
Definition starts (p : PopulatedTransaction) (j : nat) : option (nat * Hash) :=
  x ← binding p j; if bool_decide (carried p x.1 = Some x.2) then None else Some x.

(** The outputs among the first [n] that input [i] continues its covenant with,
    those that continue [id], and those that [i] starts [id] with. *)
Definition continued (p : PopulatedTransaction) (n i : nat) : list nat :=
  filter (λ j, fst <$> continues p j = Some i) (seq 0 n).
Definition continued_any (p : PopulatedTransaction) (n : nat) (id : Hash) : list nat :=
  filter (λ j, snd <$> continues p j = Some id) (seq 0 n).
Definition started (p : PopulatedTransaction) (n : nat) (x : nat * Hash) : list nat :=
  filter (λ j, starts p j = Some x) (seq 0 n).
(** The inputs among the first [n] that carry [id]. *)
Definition carriers (p : PopulatedTransaction) (n : nat) (id : Hash) : list nat :=
  filter (λ i, carried p i = Some id) (seq 0 n).

(** A group of outputs with their indices. *)
Definition with_outputs (p : PopulatedTransaction) (js : list nat) : list (nat * TransactionOutput) :=
  omap (λ j, pair j <$> outputs (ptx p) !! j) js.

Lemma filter_seq_S (P : nat → Prop) `{!∀ j, Decision (P j)} n :
  filter P (seq 0 (S n)) = filter P (seq 0 n) ++ (if decide (P n) then [n] else []).
Proof.
  by rewrite seq_S, filter_app.
Qed.

Lemma input_pass_spec p es i shared :
  drop i (entries p) = es → (i ≤ length (entries p))%nat →
  (∀ id, from_option input_indices [] (shared !! id) = carriers p i id) →
  (∀ id s, shared !! id = Some s → output_indices s = [] ∧ carriers p i id ≠ []) →
  let shared := input_pass i es shared in
  (∀ id, from_option input_indices [] (shared !! id) = carriers p (length (entries p)) id) ∧
  (∀ id s, shared !! id = Some s → output_indices s = [] ∧ carriers p (length (entries p)) id ≠ []).
Proof.
  revert i shared. induction es as [|e es IH]; intros i shared Hdrop Hle Hin Hout; simpl.
  - apply (f_equal length) in Hdrop. rewrite length_drop in Hdrop. simpl in Hdrop.
    replace i with (length (entries p)) in * by lia. done.
  - assert (entries p !! i = Some e) as He.
    { pose proof (lookup_drop (entries p) i 0) as Hl. rewrite Hdrop, Nat.add_0_r in Hl. done. }
    assert (carried p i = entry_covenant_id e) as Hcar by (unfold carried, utxo; by rewrite He).
    apply IH.
    { rewrite <- Nat.add_1_r, <- drop_drop, Hdrop. done. }
    { apply lookup_lt_Some in He. lia. }
    + intros id. unfold carriers. rewrite filter_seq_S. fold (carriers p i id).
      destruct (entry_covenant_id e) as [id'|] eqn:Hid; [|rewrite decide_False, app_nil_r by congruence; apply Hin].
      destruct (decide (id' = id)) as [->|Hne].
      * rewrite lookup_insert_eq, decide_True by done. simpl. rewrite <- Hin. by destruct (shared !! id).
      * rewrite lookup_insert_ne, decide_False, app_nil_r by congruence. apply Hin.
    + intros id s. unfold carriers. rewrite filter_seq_S. fold (carriers p i id).
      assert (∀ s, shared !! id = Some s → output_indices s = [] ∧
        carriers p i id ++ (if decide (carried p i = Some id) then [i] else []) ≠ []) as Hold.
      { intros s' Hs. apply Hout in Hs as [? Hs]. split; [done|]. by intros [? _]%app_nil. }
      destruct (entry_covenant_id e) as [id'|] eqn:Hid; [|apply Hold].
      destruct (decide (id' = id)) as [->|Hne]; [|rewrite lookup_insert_ne by done; apply Hold].
      rewrite lookup_insert_eq. intros [= <-]. simpl. split.
      * destruct (shared !! id) as [s|] eqn:Hs; simpl; [by eapply Hout|done].
      * rewrite decide_True by done. by destruct (carriers p i id).
Qed.

(** What the second loop maintains. *)
Definition pass_inv (p : PopulatedTransaction) (n : nat) (st : CovenantsContext * genesis_map) : Prop :=
  (∀ i, input_ctx_outputs st.1 i = continued p n i) ∧
  (∀ id, shared_inputs st.1 id = carriers p (length (entries p)) id) ∧
  (∀ id, shared_outputs st.1 id = continued_any p n id) ∧
  (∀ x, default [] (st.2 !! x) = started p n x) ∧
  (∀ x v, st.2 !! x = Some v → v ≠ []).

Lemma continued_S p n i :
  continued p (S n) i = continued p n i ++ (if decide (fst <$> continues p n = Some i) then [n] else []).
Proof. apply filter_seq_S. Qed.
Lemma continued_any_S p n id :
  continued_any p (S n) id = continued_any p n id ++ (if decide (snd <$> continues p n = Some id) then [n] else []).
Proof. apply filter_seq_S. Qed.
Lemma started_S p n x :
  started p (S n) x = started p n x ++ (if decide (starts p n = Some x) then [n] else []).
Proof. apply filter_seq_S. Qed.

Lemma pass_inv_none p n st : binding p n = None → pass_inv p n st → pass_inv p (S n) st.
Proof.
  intros Hb (H1 & H2 & H3 & H4 & H5).
  assert (continues p n = None ∧ starts p n = None) as [Hc Hs] by (unfold continues, starts; by rewrite Hb).
  split_and!; [intros i; rewrite H1, continued_S|done|intros id; rewrite H3, continued_any_S
    |intros x; rewrite H4, started_S|done]; rewrite decide_False by (rewrite ?Hc, ?Hs; done); by rewrite app_nil_r.
Qed.

Lemma pass_inv_continue p n ctx genesis i id s :
  continues p n = Some (i, id) → starts p n = None → shared_ctxs ctx !! id = Some s →
  pass_inv p n (ctx, genesis) →
  pass_inv p (S n)
    (mkCovCtx (<[i := mkInputCtx (from_option auth_outputs [] (input_ctxs ctx !! i) ++ [n])]> (input_ctxs ctx))
       (<[id := mkSharedCtx (input_indices s) (output_indices s ++ [n])]> (shared_ctxs ctx)), genesis).
Proof.
  intros Hc Hs Hsh (H1 & H2 & H3 & H4 & H5). simpl in *. split_and!; simpl; [| | | |done].
  - intros i'. unfold input_ctx_outputs in *. simpl. rewrite continued_S, Hc. simpl.
    destruct (decide (i' = i)) as [->|Hne].
    + rewrite lookup_insert_eq, decide_True by done. simpl. by rewrite H1.
    + rewrite lookup_insert_ne, decide_False, app_nil_r by congruence. apply H1.
  - intros id'. rewrite <- H2. unfold shared_inputs. simpl. destruct (decide (id' = id)) as [->|Hne].
    + by rewrite lookup_insert_eq, Hsh.
    + by rewrite lookup_insert_ne.
  - intros id'. unfold shared_outputs in *. simpl. rewrite continued_any_S, Hc, <- H3. simpl.
    destruct (decide (id' = id)) as [->|Hne].
    + by rewrite lookup_insert_eq, decide_True, Hsh.
    + by rewrite lookup_insert_ne, decide_False, app_nil_r by congruence.
  - intros x. rewrite started_S, Hs, decide_False, app_nil_r by done. apply H4.
Qed.

Lemma pass_inv_start p n ctx genesis x :
  continues p n = None → starts p n = Some x → pass_inv p n (ctx, genesis) →
  pass_inv p (S n) (ctx, <[x := default [] (genesis !! x) ++ [n]]> genesis).
Proof.
  intros Hc Hs (H1 & H2 & H3 & H4 & H5). simpl in *. split_and!; simpl; [|done| | |].
  - intros i. rewrite H1, continued_S, Hc, decide_False by done. by rewrite app_nil_r.
  - intros id. rewrite H3, continued_any_S, Hc, decide_False by done. by rewrite app_nil_r.
  - intros y. rewrite started_S, Hs. destruct (decide (y = x)) as [->|Hne].
    + rewrite lookup_insert_eq, decide_True by done. simpl. by rewrite H4.
    + rewrite lookup_insert_ne, decide_False, app_nil_r by congruence. apply H4.
  - intros y v. destruct (decide (y = x)) as [->|Hne].
    + rewrite lookup_insert_eq. intros [= <-]. by destruct (default [] (genesis !! x)).
    + rewrite lookup_insert_ne by done. apply H5.
Qed.

Lemma output_step_spec p n o st :
  outputs (ptx p) !! n = Some o → pass_inv p n st →
  match output_step p n o st with
  | Ok st' => pass_inv p (S n) st' ∧ ∀ x, binding p n = Some x → is_Some (utxo p x.1)
  | Err _ => ∃ x, binding p n = Some x ∧ utxo p x.1 = None
  | Panic => False
  end.
Proof.
  intros Ho Hinv. unfold output_step.
  assert (binding p n = b ← out_covenant o; Some (Z.to_nat (authorizing_input b), binding_covenant_id b)) as Hb
    by (unfold binding; by rewrite Ho).
  destruct (out_covenant o) as [b|]; [|split; [by apply pass_inv_none|by rewrite Hb]].
  simpl in Hb. destruct (utxo p (Z.to_nat (authorizing_input b))) as [e|] eqn:He; [|by eexists].
  destruct st as [ctx genesis].
  assert (carried p (Z.to_nat (authorizing_input b)) = entry_covenant_id e) as Hcar by (unfold carried; by rewrite He).
  case_bool_decide as Hid.
  - rewrite Hid in Hcar.
    assert (continues p n = Some (Z.to_nat (authorizing_input b), binding_covenant_id b)) as Hc
      by (unfold continues; rewrite Hb; simpl; by rewrite bool_decide_true).
    assert (starts p n = None) as Hs by (unfold starts; rewrite Hb; simpl; by rewrite bool_decide_true).
    destruct (shared_ctxs ctx !! binding_covenant_id b) as [s|] eqn:Hsh; simpl.
    + split; [by apply pass_inv_continue|]. rewrite Hb. by intros x [= <-].
    + destruct Hinv as (_ & H2 & _). specialize (H2 (binding_covenant_id b)). unfold shared_inputs in H2. simpl in H2.
      rewrite Hsh in H2. simpl in H2.
      assert (Z.to_nat (authorizing_input b) ∈ carriers p (length (entries p)) (binding_covenant_id b)) as Hin.
      { apply list_elem_of_filter. split; [done|]. apply elem_of_seq. apply lookup_lt_Some in He. lia. }
      rewrite <- H2 in Hin. by apply not_elem_of_nil in Hin.
  - assert (carried p (Z.to_nat (authorizing_input b)) ≠ Some (binding_covenant_id b)) as Hne by congruence.
    split; [|rewrite Hb; by intros x [= <-]]. apply pass_inv_start; [| |done].
    + unfold continues. rewrite Hb. simpl. by rewrite bool_decide_false.
    + unfold starts. rewrite Hb. simpl. by rewrite bool_decide_false.
Qed.

Lemma output_pass_spec p os n st :
  drop n (outputs (ptx p)) = os → (n ≤ length (outputs (ptx p)))%nat → pass_inv p n st →
  (∀ j x, (j < n)%nat → binding p j = Some x → is_Some (utxo p x.1)) →
  match output_pass p n os st with
  | Ok st' => pass_inv p (length (outputs (ptx p))) st' ∧ ∀ j x, binding p j = Some x → is_Some (utxo p x.1)
  | Err _ => ∃ j x, binding p j = Some x ∧ utxo p x.1 = None
  | Panic => False
  end.
Proof.
  revert n st. induction os as [|o os IH]; intros n st Hdrop Hle Hinv Hbound; simpl.
  - apply (f_equal length) in Hdrop. rewrite length_drop in Hdrop. simpl in Hdrop.
    replace n with (length (outputs (ptx p))) in * by lia. split; [done|]. intros j x Hj.
    apply (Hbound j x); [|done]. unfold binding in Hj.
    destruct (outputs (ptx p) !! j) eqn:Hl; [by apply lookup_lt_Some in Hl|done].
  - assert (outputs (ptx p) !! n = Some o) as Ho.
    { pose proof (lookup_drop (outputs (ptx p)) n 0) as Hl. rewrite Hdrop, Nat.add_0_r in Hl. done. }
    pose proof (output_step_spec p n o st Ho Hinv) as Hstep.
    destruct (output_step p n o st) as [st'|e|]; simpl; [|naive_solver|done]. destruct Hstep as [Hinv' Hn].
    apply IH; [|by apply lookup_lt_Some in Ho|done|].
    + rewrite <- Nat.add_1_r, <- drop_drop, Hdrop. done.
    + intros j x Hj Hx. destruct (decide (j = n)) as [->|]; [by apply Hn|]. apply (Hbound j x); [lia|done].
Qed.

Lemma indexed_outputs_spec {E} p js :
  Forall (λ j, is_Some (outputs (ptx p) !! j)) js → indexed_outputs (E := E) p js = Ok (with_outputs p js).
Proof.
  unfold with_outputs. induction 1 as [|j js [o Ho] Hjs IH]; [done|]. cbn [indexed_outputs omap list_omap].
  rewrite Ho. cbn [unwrap mbind res_mbind fmap option_fmap option_map]. by rewrite IH.
Qed.

(** The id of a started covenant is the hash of the outpoint that its authorizing
    input spends and of the outputs started with it. *)
Definition genesis_ok (p : PopulatedTransaction) (x : nat * Hash) (js : list nat) : Prop :=
  ∃ inp, inputs (ptx p) !! x.1 = Some inp ∧
    covenant_id (previous_outpoint inp) (with_outputs p js) = x.2.

Lemma genesis_pass_spec p groups :
  (∀ x js, (x, js) ∈ groups →
     is_Some (inputs (ptx p) !! x.1) ∧ Forall (λ j, is_Some (outputs (ptx p) !! j)) js) →
  match genesis_pass p groups with
  | Ok _ => ∀ x js, (x, js) ∈ groups → genesis_ok p x js
  | Err _ => ∃ x js, (x, js) ∈ groups ∧ ¬ genesis_ok p x js
  | Panic => False
  end.
Proof.
  induction groups as [|[[auth id] js] groups IH]; intros Hg; simpl; [by intros x js ?%not_elem_of_nil|].
  destruct (Hg (auth, id) js) as [[inp Hinp] Hjs]; [left|]. simpl in Hinp.
  rewrite Hinp. cbn [unwrap mbind res_mbind]. rewrite indexed_outputs_spec by done. cbn [mbind res_mbind].
  case_bool_decide as Hne.
  - exists (auth, id), js. split; [left|]. intros (inp' & Hinp' & Heq). simpl in *. congruence.
  - assert (genesis_ok p (auth, id) js) as Hok.
    { exists inp. by split. }
    assert (∀ x js, (x, js) ∈ groups → is_Some (inputs (ptx p) !! x.1) ∧
      Forall (λ j, is_Some (outputs (ptx p) !! j)) js) as Hg' by (intros; apply Hg; by right).
    specialize (IH Hg'). destruct (genesis_pass p groups); [| |done].
    + intros x js' Hin. apply elem_of_cons in Hin as [[= -> ->]|Hin]; [done|by apply IH].
    + destruct IH as (x & js' & Hin & Hn). exists x, js'. split; [by right|done].
Qed.

Lemma starts_binding p j x : starts p j = Some x → binding p j = Some x.
Proof. unfold starts. destruct (binding p j) as [y|]; simpl; [|done]. by case_bool_decide. Qed.

Lemma started_ok p n x : Forall (λ j, is_Some (outputs (ptx p) !! j)) (started p n x).
Proof.
  apply Forall_forall. intros j Hj. apply list_elem_of_filter in Hj as [Hj%starts_binding _].
  unfold binding in Hj. destruct (outputs (ptx p) !! j); [by eexists|done].
Qed.

Lemma pass_inv_init p : pass_inv p 0 (mkCovCtx ∅ (input_pass 0 (entries p) ∅), ∅).
Proof.
  destruct (input_pass_spec p (entries p) 0 ∅) as [Hin Hout];
    [by rewrite drop_0|lia|by intros id; rewrite lookup_empty|by intros id s; rewrite lookup_empty|].
  split_and!; [done|exact Hin| |done|done].
  intros id. unfold shared_outputs. simpl. destruct (input_pass 0 (entries p) ∅ !! id) as [s|] eqn:Hs; simpl; [|done].
  by eapply Hout.
Qed.

Lemma starts_not_continues p j x : starts p j = Some x → continues p j = None.
Proof. unfold starts, continues. destruct (binding p j) as [y|]; [|done]. simpl. by case_bool_decide. Qed.

Lemma from_tx_spec p :
  populated_wf p →
  let n := length (outputs (ptx p)) in
  match from_tx p with
  | Ok ctx =>
      (∀ j x, binding p j = Some x → is_Some (utxo p x.1)) ∧
      (∀ x, started p n x ≠ [] → genesis_ok p x (started p n x)) ∧
      (∀ i, input_ctx_outputs ctx i = continued p n i) ∧
      (∀ id, shared_inputs ctx id = carriers p (length (entries p)) id) ∧
      (∀ id, shared_outputs ctx id = continued_any p n id)
  | Err _ =>
      (∃ j x, binding p j = Some x ∧ utxo p x.1 = None) ∨
      (∃ x, started p n x ≠ [] ∧ ¬ genesis_ok p x (started p n x))
  | Panic => False
  end.
Proof.
  intros (_ & _ & Hlen) n. unfold from_tx.
  pose proof (output_pass_spec p (outputs (ptx p)) 0 _ (drop_0 _) ltac:(lia) (pass_inv_init p) ltac:(lia)) as Hpass.
  destruct (output_pass _ _ _ _) as [[ctx genesis]|e|]; cbn [mbind res_mbind]; [|by left|done].
  destruct Hpass as [(H1 & H2 & H3 & H4 & H5) Hbound]. simpl in *.
  assert (∀ x js, (x, js) ∈ map_to_list genesis → js = started p n x ∧ js ≠ []) as Hgen.
  { intros x js Hin. apply elem_of_map_to_list in Hin. split; [|by eapply H5].
    specialize (H4 x). by rewrite Hin in H4. }
  pose proof (genesis_pass_spec p (map_to_list genesis)) as Hg.
  assert (∀ x js, (x, js) ∈ map_to_list genesis →
    is_Some (inputs (ptx p) !! x.1) ∧ Forall (λ j, is_Some (outputs (ptx p) !! j)) js) as Hwf.
  { intros y js Hin. apply Hgen in Hin as [-> Hne]. split; [|apply started_ok].
    destruct (started p n y) as [|j js] eqn:Hs; [done|].
    assert (j ∈ started p n y) as Hj by (rewrite Hs; left).
    apply list_elem_of_filter in Hj as [Hj%starts_binding _]. apply Hbound in Hj.
    apply lookup_lt_is_Some. rewrite <- Hlen. by apply lookup_lt_is_Some. }
  specialize (Hg Hwf). destruct (genesis_pass p (map_to_list genesis)) as [[]|e|]; cbn [mbind res_mbind]; [| |done].
  - split_and!; try done. intros x Hx. apply Hg, elem_of_map_to_list.
    specialize (H4 x). fold n in H4. destruct (genesis !! x); simpl in H4; congruence.
  - right. destruct Hg as (x & js & Hin & Hn). exists x. apply Hgen in Hin as [-> Hne]. done.
Qed.

(** C14. The covenant context of a transaction is right, and covenants cannot be
    forged: building it never panics; it succeeds exactly when every output with a
    covenant names an existing input and, if that input does not carry the
    covenant's id, the id is the hash of the outpoint that the input spends and of
    all the outputs it starts the covenant with; and then the context lists, in
    order, the outputs that each input continues its covenant with, the inputs that
    carry each id and the outputs that continue it.  An output that starts a covenant
    is in none of the lists, although it names its input and carries the id. *)
Theorem covenants_ctx_correct p :
  populated_wf p →
  let n := length (outputs (ptx p)) in
  match from_tx p with
  | Ok ctx =>
      (∀ j x, binding p j = Some x → is_Some (utxo p x.1)) ∧
      (∀ x, started p n x ≠ [] → genesis_ok p x (started p n x)) ∧
      (∀ i, input_ctx_outputs ctx i = continued p n i) ∧
      (∀ id, shared_inputs ctx id = carriers p (length (entries p)) id) ∧
      (∀ id, shared_outputs ctx id = continued_any p n id) ∧
      (∀ j x, starts p j = Some x → (∀ i, j ∉ input_ctx_outputs ctx i) ∧ (∀ id, j ∉ shared_outputs ctx id))
  | Err _ =>
      (∃ j x, binding p j = Some x ∧ utxo p x.1 = None) ∨
      (∃ x, started p n x ≠ [] ∧ ¬ genesis_ok p x (started p n x))
  | Panic => False
  end.
Proof.
  intros Hp. pose proof (from_tx_spec p Hp) as Hspec. cbn zeta in *. destruct (from_tx p) as [ctx|e|]; [|done|done].
  destruct Hspec as (Hb & Hs & Hi & Hc & Ho). split_and!; [done..|]. intros j x Hj%starts_not_continues.
  split; intros y; rewrite ?Hi, ?Ho; intros [Hy _]%list_elem_of_filter; by rewrite Hj in Hy.
Qed.
End from_tx.

(** A transaction in which the first input continues its covenant with the first
    output and the second input starts one with the second. *)
Module SampleCovenant.
Definition hash : CovenantHash := {| covenant_id_hash m := resize 32 0 m |}.

Definition id0 : Hash := replicate 32 7.
Definition input (n : Z) : TransactionInput := mkInput (mkOutpoint (replicate 32 n) n) [] 0 (ComputeBudget 1).
Definition entry (id : option Hash) : UtxoEntry := mkEntry 10 (mkSpk 0 [81]) 7 false id.
Definition id1 : Hash := replicate 32 2.
Definition tx : Transaction :=
  mkTx 1 [input 1; input 2]
    [mkOutput 5 (mkSpk 0 [81]) (Some (mkBinding 0 id0)); mkOutput 6 (mkSpk 0 [81]) (Some (mkBinding 1 id1))]
    0 SUBNETWORK_ID_NATIVE 0 [] 0.
Definition populated : PopulatedTransaction := mkPopulated tx [entry (Some id0); entry None].

Lemma covenant_tx_ok : populated_wf populated.
Proof. SampleTx.wf. Qed.
End SampleCovenant.

Lemma covenants_ctx_correct_witness :
  is_ok (@from_tx SampleCovenant.hash SampleCovenant.populated) = true ∧
  continued SampleCovenant.populated 2 0 = [0%nat] ∧
  started SampleCovenant.populated 2 (1%nat, SampleCovenant.id1) = [1%nat] ∧
  match @from_tx SampleCovenant.hash SampleCovenant.populated with
  | Ok ctx => input_ctx_outputs ctx 0 = continued SampleCovenant.populated 2 0 ∧ 1%nat ∉ input_ctx_outputs ctx 1
  | _ => False
  end.
Proof.
  split; [vm_compute; reflexivity|]. split; [vm_compute; reflexivity|]. split; [vm_compute; reflexivity|].
  pose proof (@covenants_ctx_correct SampleCovenant.hash SampleCovenant.populated SampleCovenant.covenant_tx_ok) as Hc.
  assert (is_ok (@from_tx SampleCovenant.hash SampleCovenant.populated) = true) as Hok by (vm_compute; reflexivity).
  destruct (@from_tx SampleCovenant.hash SampleCovenant.populated) as [ctx|e|];
    [|discriminate Hok|discriminate Hok].
  destruct Hc as (_ & _ & Hi & _ & _ & Hs). split; [exact (Hi 0%nat)|].
  apply (proj1 (Hs 1%nat (1%nat, SampleCovenant.id1) ltac:(by vm_compute))).
Defined.
