(* ===== verification/ScriptParse.v ===== *)
(** * Script opcodes (crypto/txscript/src/opcodes/macros.rs, opcodes/mod.rs,
    script_class.rs, and the static analyses of lib.rs)

    The byte format of scripts, the classification of opcodes, and what is
    computed from a script without running it. *)

From S2P Require Import Prelude Bytes Transaction Sighash ScriptNum ScriptStack.

(** The [codes] that the code names. *)
Abbreviation OpFalse := 0.
Abbreviation OpData32 := 32.
Abbreviation OpData33 := 33.
Abbreviation OpData65 := 65.
Abbreviation OpPushData1 := 76.
Abbreviation OpPushData2 := 77.
Abbreviation OpPushData4 := 78.
Abbreviation Op1Negate := 79.
Abbreviation OpTrue := 81.
Abbreviation Op16 := 96.
Abbreviation OpVerIf := 101.
Abbreviation OpVerNotIf := 102.
Abbreviation OpReturn := 106.
Abbreviation OpEqual := 135.
Abbreviation OpZkPrecompile := 166.
Abbreviation OpCheckMultiSigECDSA := 169.
Abbreviation OpBlake2b := 170.
Abbreviation OpCheckSigECDSA := 171.
Abbreviation OpCheckSig := 172.
Abbreviation OpCheckSigVerify := 173.
Abbreviation OpCheckMultiSig := 174.
Abbreviation OpCheckMultiSigVerify := 175.
Abbreviation OpCheckSigFromStack := 215.
Abbreviation OpCheckSigFromStackECDSA := 216.

Abbreviation OP_SMALL_INT_MIN_VAL := (1)%Z (only parsing).
Abbreviation OP_SMALL_INT_MAX_VAL := (16)%Z (only parsing).
Abbreviation OP_DATA_MIN_VAL := (1)%Z (only parsing).
Abbreviation OP_DATA_MAX_VAL := (75)%Z (only parsing).
Abbreviation OP_1_NEGATE_VAL := (129)%Z (only parsing).
Abbreviation NO_COST_OPCODE := (96)%Z (only parsing).
Abbreviation MAX_PUB_KEYS_PER_MUTLTISIG := (20)%Z (only parsing).

(** [OpCode<CODE> { data }]. *)
Record OpCode := mkOp { value : Z; op_data : bytes }.

(** The length column of [opcode_list!]: a fixed length that includes the opcode
    itself, or the width in bytes of a length prefix. *)
Inductive OpLength := Fixed (n : nat) | Prefixed (width : nat).

Definition op_length (code : Z) : OpLength :=
  if (1 <=? code) && (code <=? 75) then Fixed (Z.to_nat (code + 1))
  else if code =? OpPushData1 then Prefixed 1
  else if code =? OpPushData2 then Prefixed 2
  else if code =? OpPushData4 then Prefixed 4
  else Fixed 1.

(** [opcode_serde!]. *)
Definition op_serialize (op : OpCode) : bytes :=
  match op_length (value op) with
  | Fixed _ => value op :: op_data op
  | Prefixed w => value op :: le_bytes w (Z.of_nat (length (op_data op)) mod 2 ^ (8 * Z.of_nat w)) ++ op_data op
  end.

(** [opcode_init!]. *)
Definition op_new (code : Z) (data : bytes) : res TxScriptError OpCode :=
  match op_length code with
  | Fixed n =>
      if (length data =? n - 1)%nat then Ok (mkOp code data) else Err (MalformedPush (n - 1) (length data))
  | Prefixed w =>
      let max := 2 ^ (8 * Z.of_nat w) - 1 in
      if max <? zlen data then Err (MalformedPush (Z.to_nat max) (length data)) else Ok (mkOp code data)
  end.

(** The iterator that is left is the second component; [take] reads what there is. *)
Definition op_deserialize (code : Z) (it : bytes) : res TxScriptError OpCode * bytes :=
  match op_length code with
  | Fixed n => (op_new code (take (n - 1) it), drop (n - 1) it)
  | Prefixed w =>
      let prefix := take w it in
      let it := drop w it in
      if (length prefix =? w)%nat then
        let len := Z.to_nat (of_le_bytes prefix) in
        let data := take len it in
        (if negb (length data =? len)%nat then Err (MalformedPush len (length data)) else Ok (mkOp code data),
         drop len it)
      else (Err (MalformedPushSize prefix), it)
  end.

Definition deserialize_next_opcode (it : bytes) : option (res TxScriptError OpCode * bytes) :=
  match it with
  | code :: it => Some (op_deserialize code it)
  | [] => None
  end.

(** [parse_script]: the items of the iterator. *)
Fixpoint parse_fuel (fuel : nat) (it : bytes) : list (res TxScriptError OpCode) :=
  match fuel with
  | O => []
  | S fuel =>
      match deserialize_next_opcode it with
      | Some (op, it) => op :: parse_fuel fuel it
      | None => []
      end
  end.
Definition parse_script (script : bytes) : list (res TxScriptError OpCode) :=
  parse_fuel (length script) script.

(** ** [OpCodeMetadata] *)

Definition is_disabled (covenants : bool) (code : Z) : bool :=
  if covenants then bool_decide (code ∈ [128; 129; 141; 142; 152; 153])
  else bool_decide (code ∈ [126; 127; 128; 129; 131; 132; 133; 134; 141; 142; 149; 150; 151; 152; 153]).

Definition always_illegal (code : Z) : bool := (code =? OpVerIf) || (code =? OpVerNotIf).
Definition is_push_opcode (code : Z) : bool := code <=? NO_COST_OPCODE.
Definition is_conditional (code : Z) : bool := (99 <=? code) && (code <=? 104).

Definition check_minimal_data_push (op : OpCode) : res TxScriptError () :=
  let data_len := zlen (op_data op) in
  let opcode := value op in
  let require (b : bool) : res TxScriptError () := if b then Ok tt else Err NotMinimalData in
  if data_len =? 0 then require (opcode =? OpFalse)
  else
    b0 ← idx (op_data op) 0;
    if (data_len =? 1) && (OP_SMALL_INT_MIN_VAL <=? b0) && (b0 <=? OP_SMALL_INT_MAX_VAL)
    then require (opcode =? OpTrue + b0 - 1)
    else if (data_len =? 1) && (b0 =? OP_1_NEGATE_VAL) then require (opcode =? Op1Negate)
    else if data_len <=? OP_DATA_MAX_VAL then require (opcode =? data_len)
    else if data_len <=? 255 then require (opcode =? OpPushData1)
    else if (data_len <? 65535) && negb (opcode =? OpPushData2) then Err NotMinimalData
    else Ok tt.

(** ** Script classes *)

Inductive ScriptClass := NonStandard | PubKey | PubKeyECDSA | ScriptHash.

Abbreviation MAX_SCRIPT_PUBLIC_KEY_VERSION := (0)%Z (only parsing).

(** [script[i] == b]. *)
Definition at_is (script : bytes) (i : nat) (b : Z) : bool := bool_decide (script !! i = Some b).

Definition is_pay_to_pubkey (script : bytes) : bool :=
  (length script =? 34)%nat && at_is script 0 OpData32 && at_is script 33 OpCheckSig.
Definition is_pay_to_pubkey_ecdsa (script : bytes) : bool :=
  (length script =? 35)%nat && at_is script 0 OpData33 && at_is script 34 OpCheckSigECDSA.
Definition is_pay_to_script_hash (script : bytes) : bool :=
  (length script =? 35)%nat && at_is script 0 OpBlake2b && at_is script 1 OpData32 && at_is script 34 OpEqual.

Definition class_from_script (spk : ScriptPublicKey) : ScriptClass :=
  if spk_version spk =? MAX_SCRIPT_PUBLIC_KEY_VERSION then
    if is_pay_to_pubkey (spk_script spk) then PubKey
    else if is_pay_to_pubkey_ecdsa (spk_script spk) then PubKeyECDSA
    else if is_pay_to_script_hash (spk_script spk) then ScriptHash
    else NonStandard
  else NonStandard.

Definition class_version (c : ScriptClass) : Z :=
  match c with
  | NonStandard => 0
  | PubKey | PubKeyECDSA | ScriptHash => MAX_SCRIPT_PUBLIC_KEY_VERSION
  end.

(** ** Static analyses *)

(** [to_small_int]: the range of the assertion excludes its end. *)
Definition to_small_int {E} (op : OpCode) : res E Z :=
  if value op =? OpFalse then Ok 0
  else
    _ ← assert_p ((OpTrue <=? value op) && (value op <? Op16));
    Ok (value op - (OpTrue - 1)).

Definition is_check_multisig (code : Z) : bool :=
  bool_decide (code ∈ [OpCheckMultiSig; OpCheckMultiSigVerify; OpCheckMultiSigECDSA]).

(** The loop of [get_sig_op_count_by_opcodes]; [prev] is the item before. *)
Fixpoint sig_ops_loop {E} (prev : option OpCode) (ops : list (res TxScriptError OpCode)) (num_sigs : Z) : res E Z :=
  match ops with
  | Ok op :: ops =>
      num_sigs ←
        (if bool_decide (value op ∈ [OpCheckSig; OpCheckSigVerify; OpCheckSigECDSA]) then add_p 64 num_sigs 1
         else if is_check_multisig (value op) then
           match prev with
           | None => add_p 64 num_sigs MAX_PUB_KEYS_PER_MUTLTISIG
           | Some prev =>
               if (OpTrue <=? value prev) && (value prev <=? Op16)
               then n ← to_small_int prev; add_p 64 num_sigs n
               else add_p 64 num_sigs MAX_PUB_KEYS_PER_MUTLTISIG
           end
         else Ok num_sigs);
      sig_ops_loop (Some op) ops num_sigs
  | _ => Ok num_sigs
  end.
Definition get_sig_op_count_by_opcodes {E} (ops : list (res TxScriptError OpCode)) : res E Z :=
  sig_ops_loop None ops 0.

(** The redeem script candidate: the data of the last signature script opcode. *)
Definition p2sh_script (signature_script : bytes) : option bytes :=
  let ops := parse_script signature_script in
  if forallb is_ok ops then
    match last ops with Some (Ok op) => Some (op_data op) | _ => None end
  else None.

Definition get_sig_op_count_upper_bound {E} (signature_script : bytes) (spk : ScriptPublicKey) : res E Z :=
  if negb (is_pay_to_script_hash (spk_script spk)) then get_sig_op_count_by_opcodes (parse_script (spk_script spk))
  else
    match p2sh_script signature_script with
    | Some script => get_sig_op_count_by_opcodes (parse_script script)
    | None => Ok 0
    end.

Definition is_check_sig_post_toccata (code : Z) : bool :=
  bool_decide (code ∈ [OpCheckSig; OpCheckSigVerify; OpCheckSigECDSA; OpCheckSigFromStack; OpCheckSigFromStackECDSA]).

(** The count that a data push before a multisig announces. *)
Definition pushed_multisig_count (data : bytes) : option Z :=
  match deserialize_i64 data false with
  | Ok count => if (1 <=? count) && (count <=? MAX_PUB_KEYS_PER_MUTLTISIG) then Some count else None
  | _ => None
  end.

(** The loop of [post_toccata_p2sh_sig_scanner]. *)
Fixpoint scanner_loop (prev : option Z) (ops : list (res TxScriptError OpCode)) (sigops : Z) : Z :=
  match ops with
  | [] => sigops
  | Ok op :: ops =>
      if is_check_sig_post_toccata (value op) then scanner_loop None ops (sat_add64 sigops 1)
      else if is_check_multisig (value op) then
        scanner_loop None ops (sat_add64 sigops (default MAX_PUB_KEYS_PER_MUTLTISIG prev))
      else if (OpTrue <=? value op) && (value op <=? Op16) then
        scanner_loop (Some (value op - OpTrue + 1)) ops sigops
      else if value op <=? OpPushData4 then scanner_loop (pushed_multisig_count (op_data op)) ops sigops
      else scanner_loop None ops sigops
  | _ :: _ => 0
  end.
Definition post_toccata_p2sh_sig_scanner (signature_script : bytes) (spk : ScriptPublicKey) : Z :=
  if negb (is_pay_to_script_hash (spk_script spk)) then 0
  else
    match p2sh_script signature_script with
    | Some script => scanner_loop None (parse_script script) 0
    | None => 0
    end.

(** *** ZK precompile tags (zk_precompiles/tags.rs, mod.rs) *)

Inductive ZkTag := Groth16 | R0Succinct.

Definition zk_tag_from_u8 (b : Z) : option ZkTag :=
  if b =? 32 then Some Groth16 else if b =? 33 then Some R0Succinct else None.

(** [ZkTag::cost], in script units: the gram costs times [SCRIPT_UNITS_PER_GRAM]. *)
Definition zk_cost (t : ZkTag) : Z :=
  match t with
  | Groth16 => 1000 * 140 * SCRIPT_UNITS_PER_GRAM
  | R0Succinct => 1000 * 250 * SCRIPT_UNITS_PER_GRAM
  end.
Definition zk_max_cost : Z := 1000 * 250 * SCRIPT_UNITS_PER_GRAM.
Definition compute_zk_cost (tag : Z) : Z := from_option zk_cost zk_max_cost (zk_tag_from_u8 tag).

(** The loop of [get_zk_script_units_upper_bound_by_opcodes]. *)
Fixpoint zk_units_loop (prev : option OpCode) (ops : list (res TxScriptError OpCode)) (units : Z) : Z :=
  match ops with
  | Ok op :: ops =>
      let units :=
        if value op =? OpZkPrecompile then
          sat_add64 units
            match prev with
            | None => zk_max_cost
            | Some prev => match op_data prev with tag :: _ => compute_zk_cost tag | [] => zk_max_cost end
            end
        else units in
      zk_units_loop (Some op) ops units
  | _ => units
  end.

Definition get_zk_script_units_upper_bound (signature_script : bytes) (spk : ScriptPublicKey) : Z :=
  if negb (is_pay_to_script_hash (spk_script spk)) then zk_units_loop None (parse_script (spk_script spk)) 0
  else
    match p2sh_script signature_script with
    | Some script => zk_units_loop None (parse_script script) 0
    | None => 0
    end.

Definition estimate_script_units_upper_bound {E} (signature_script : bytes) (spk : ScriptPublicKey)
    (sigop_script_units : Z) : res E Z :=
  sig_ops ← get_sig_op_count_upper_bound signature_script spk;
  let sig_op_units := sat_mul64 sig_ops sigop_script_units in
  total ← add_p 64 (zlen signature_script) (zlen (spk_script spk));
  heuristic ← mul_p 64 total 100;
  Ok (sat_add64 (sat_add64 sig_op_units heuristic) (get_zk_script_units_upper_bound signature_script spk)).

Definition is_unspendable (script : bytes) : bool :=
  match parse_script script with
  | Ok op :: ops => (value op =? OpReturn) || existsb (λ op, negb (is_ok op)) ops
  | _ :: _ => true
  | [] => false
  end.

(** ** Lemmas *)

(** What [op_new] accepts. *)
Definition op_valid (op : OpCode) : Prop := op_new (value op) (op_data op) = Ok op.

Lemma op_length_prefixed code w : op_length code = Prefixed w → (1 ≤ w ≤ 4)%nat.
Proof. unfold op_length. repeat case_match; naive_solver lia. Qed.

Lemma op_length_fixed code n : op_length code = Fixed n → (1 ≤ n ≤ 76)%nat.
Proof. unfold op_length. repeat case_match; intros; simplify_eq; lia. Qed.

Lemma op_valid_fixed op n :
  op_length (value op) = Fixed n → op_valid op ↔ length (op_data op) = (n - 1)%nat.
Proof.
  intros Hl. unfold op_valid, op_new. rewrite Hl. destruct op as [v d]. simpl.
  destruct (Nat.eqb_spec (length d) (n - 1)); split; naive_solver.
Qed.

Lemma op_valid_prefixed op w :
  op_length (value op) = Prefixed w → op_valid op ↔ zlen (op_data op) < 2 ^ (8 * Z.of_nat w).
Proof.
  intros Hl. unfold op_valid, op_new. rewrite Hl. destruct op as [v d]. simpl.
  destruct (Z.ltb_spec (2 ^ (8 * Z.of_nat w) - 1) (zlen d)); split; intros ?; try done; lia.
Qed.

(** Reading back what was written, with anything after it. *)
Lemma deserialize_serialize op rest :
  op_valid op → deserialize_next_opcode (op_serialize op ++ rest) = Some (Ok op, rest).
Proof.
  intros Hv. unfold op_serialize. destruct (op_length (value op)) as [n|w] eqn:Hl; simpl; f_equal;
    unfold op_deserialize; rewrite Hl.
  - pose proof (proj1 (op_valid_fixed op n Hl) Hv) as Hlen. rewrite <- Hlen.
    rewrite take_app_length, drop_app_length. by rewrite Hv.
  - pose proof (proj1 (op_valid_prefixed op w Hl) Hv) as Hlen. unfold zlen in Hlen.
    rewrite Z.mod_small by lia. rewrite <- app_assoc.
    rewrite take_app_length', drop_app_length' by (by rewrite length_le_bytes).
    rewrite length_le_bytes, Nat.eqb_refl. rewrite of_le_bytes_le_bytes by (unfold in_u; lia).
    rewrite Nat2Z.id, take_app_length, drop_app_length, Nat.eqb_refl. simpl. by destruct op.
Qed.

(** Reading an opcode takes its encoding off the front, or fails at the end. *)
Lemma deserialize_inv it r rest :
  is_bytes it → deserialize_next_opcode it = Some (r, rest) →
  match r with
  | Ok op => op_valid op ∧ it = op_serialize op ++ rest
  | Err _ => rest = []
  | Panic => False
  end ∧ (length rest < length it)%nat ∧ is_bytes rest.
Proof.
  intros Hit. destruct it as [|code it]; [done|]. apply is_bytes_cons in Hit as [_ Hit]. cbn [deserialize_next_opcode].
  intros [= Heq]. unfold op_deserialize in Heq. destruct (op_length code) as [n|w] eqn:Hl.
  - injection Heq as <- <-. pose proof (op_length_fixed code n Hl). unfold op_new. rewrite Hl.
    split; [|split; [rewrite length_drop; simpl; lia|by apply is_bytes_drop]].
    destruct (Nat.eqb_spec (length (take (n - 1) it)) (n - 1)) as [Hlen|Hlen].
    + split; [by apply (op_valid_fixed (mkOp code (take (n - 1) it)) n)|]. unfold op_serialize. simpl. rewrite Hl.
      simpl. by rewrite take_drop.
    + apply drop_ge. rewrite length_take in Hlen. lia.
  - pose proof (op_length_prefixed code w Hl) as Hw.
    destruct (Nat.eqb_spec (length (take w it)) w) as [Hlen|Hlen].
    + set (len := Z.to_nat (of_le_bytes (take w it))) in Heq.
      injection Heq as <- <-. split; [|split; [rewrite !length_drop; simpl; lia|by apply is_bytes_drop, is_bytes_drop]].
      destruct (Nat.eqb_spec (length (take len (drop w it))) len) as [Hlen'|Hlen']; simpl.
      * pose proof (of_le_bytes_bound (take w it) (is_bytes_take _ _ Hit)) as Hb. rewrite Hlen in Hb.
        split.
        -- apply (op_valid_prefixed (mkOp code (take len (drop w it))) w Hl). unfold zlen. simpl. lia.
        -- unfold op_serialize. simpl. rewrite Hl. simpl. f_equal.
           assert (Z.of_nat (length (take len (drop w it))) = of_le_bytes (take w it)) as -> by lia.
           rewrite Z.mod_small by done. rewrite <- Hlen at 1.
           rewrite le_bytes_of_le_bytes by by apply is_bytes_take.
           rewrite <- app_assoc. by rewrite take_drop, take_drop.
      * apply drop_ge. rewrite length_take in Hlen'. lia.
    + injection Heq as <- <-. split; [|split; [rewrite length_drop; simpl; lia|by apply is_bytes_drop]].
      apply drop_ge. rewrite length_take in Hlen. lia.
Qed.

Lemma parse_fuel_enough n m it :
  is_bytes it → (length it ≤ n)%nat → (length it ≤ m)%nat → parse_fuel n it = parse_fuel m it.
Proof.
  revert m it. induction n as [|n IH]; intros m it Hit Hn Hm.
  { destruct it; [by destruct m|simpl in Hn; lia]. }
  destruct m as [|m]; [destruct it; [done|simpl in Hm; lia]|]. simpl.
  destruct (deserialize_next_opcode it) as [[r rest]|] eqn:Hd; [|done].
  apply deserialize_inv in Hd as (_ & Hlt & Hr); [|done]. f_equal. apply IH; [done|lia..].
Qed.

Lemma parse_script_nil : parse_script [] = [].
Proof. done. Qed.

Lemma parse_script_step it :
  is_bytes it → parse_script it =
    match deserialize_next_opcode it with
    | Some (r, rest) => r :: parse_script rest
    | None => []
    end.
Proof.
  intros Hit. unfold parse_script. destruct it as [|code it']; [done|]. cbn [length parse_fuel].
  destruct (deserialize_next_opcode (code :: it')) as [[r rest]|] eqn:Hd; [|done].
  apply deserialize_inv in Hd as (_ & Hlt & Hr); [|done]. f_equal.
  apply parse_fuel_enough; [done|simpl in Hlt; lia|done].
Qed.

Lemma op_serialize_ne op : op_serialize op ≠ [].
Proof. unfold op_serialize. by destruct (op_length (value op)). Qed.

Lemma parse_serialized op rest :
  op_valid op → is_bytes (op_serialize op ++ rest) → parse_script (op_serialize op ++ rest) = Ok op :: parse_script rest.
Proof. intros Hv Hb. rewrite parse_script_step by done. by rewrite deserialize_serialize. Qed.

Lemma serialize_parse_aux n script ops :
  (length script ≤ n)%nat → is_bytes script → parse_script script = Ok <$> ops →
  Forall op_valid ops ∧ concat (op_serialize <$> ops) = script.
Proof.
  revert script ops. induction n as [|n IH]; intros script ops Hn Hb Hp.
  { destruct script; [|simpl in Hn; lia]. by destruct ops. }
  rewrite parse_script_step in Hp by done.
  destruct (deserialize_next_opcode script) as [[r rest]|] eqn:Hd.
  - apply deserialize_inv in Hd as (Hr & Hlt & Hrest); [|done]. destruct ops as [|op ops]; [done|].
    csimpl in Hp. injection Hp as -> Hp. destruct Hr as [Hv ->]. apply IH in Hp as [? <-]; [|lia|done].
    split; [by constructor|done].
  - destruct script; [|done]. by destruct ops.
Qed.

Lemma parse_concat ops :
  is_bytes (concat (op_serialize <$> ops)) → Forall op_valid ops → parse_script (concat (op_serialize <$> ops)) = Ok <$> ops.
Proof.
  intros Hb Hv. induction Hv as [|op ops Hv Hops IH]; [done|]. csimpl.
  rewrite parse_serialized by done. f_equal. apply IH. csimpl in Hb. by apply is_bytes_app in Hb as [_ ?].
Qed.

(** A run of the iterator: it is asked for items until it has none. *)
Inductive iterates : bytes → list (res TxScriptError OpCode) → Prop :=
| iterates_end it : deserialize_next_opcode it = None → iterates it []
| iterates_item it item rest items :
    deserialize_next_opcode it = Some (item, rest) → iterates rest items → iterates it (item :: items).

(** C40. Parsing terminates on every byte string: the iterator runs out after at most as many
    items as there are bytes, its run is unique and is what [parse_script] returns, no item
    is a panic, and a malformed push is the last item. *)
Theorem parse_terminates script :
  is_bytes script →
  iterates script (parse_script script) ∧ (∀ items, iterates script items → items = parse_script script) ∧
  (length (parse_script script) ≤ length script)%nat ∧ Panic ∉ parse_script script ∧
  (∀ i e, parse_script script !! i = Some (Err e) → S i = length (parse_script script)).
Proof.
  remember (length script) as n eqn:Hn. revert script Hn. induction n as [n IH] using lt_wf_ind. intros script -> Hb.
  rewrite (parse_script_step script Hb). destruct (deserialize_next_opcode script) as [[item rest]|] eqn:Hd.
  - destruct (deserialize_inv _ _ _ Hb Hd) as (Hitem & Hlt & Hrest).
    destruct (IH (length rest) Hlt rest eq_refl Hrest) as (Hrun & Huniq & Hlen & Hno & Hlast). split_and!.
    + by eapply iterates_item.
    + intros items Hits. inversion Hits as [|? ? ? ? Hd' Hits']; [congruence|]. subst. rewrite Hd in Hd'. injection Hd' as <- <-. f_equal. by apply Huniq.
    + simpl. lia.
    + rewrite elem_of_cons. intros [<-|?]; [by destruct Hitem|done].
    + intros [|i] e Hi; [|simpl; f_equal; by eapply Hlast]. injection Hi as ->. by subst rest.
  - destruct script; [|done]. split_and!; [by apply iterates_end| |done|by intros ?%elem_of_nil|done].
    intros items Hits. by inversion Hits.
Qed.

Lemma parse_terminates_witness :
  iterates [81; 2; 7] [Ok (mkOp 81 []); Err (MalformedPush 2 1)].
Proof. apply (parse_terminates [81; 2; 7]). apply (bool_decide_unpack _). by vm_compute. Defined.

(** C38. Scripts and opcode lists are in bijection: a script made of the encodings of
    valid opcodes parses to exactly those opcodes, and a script that parses without
    an error is the concatenation of the encodings of the opcodes parsed, each of
    them valid. *)
Theorem parse_serialize_roundtrip script ops :
  is_bytes script →
  parse_script script = Ok <$> ops ↔ Forall op_valid ops ∧ script = concat (op_serialize <$> ops).
Proof.
  intros Hb. split.
  - intros Hp. by apply (serialize_parse_aux (length script)) in Hp as [? <-].
  - intros [Hv ->]. by apply parse_concat.
Qed.

Lemma parse_serialize_roundtrip_witness :
  parse_script [2; 7; 8; 76; 1; 9; 172] = Ok <$> [mkOp 2 [7; 8]; mkOp 76 [9]; mkOp 172 []].
Proof.
  apply (proj2 (parse_serialize_roundtrip [2; 7; 8; 76; 1; 9; 172] [mkOp 2 [7; 8]; mkOp 76 [9]; mkOp 172 []]
    ltac:(SampleTx.wf))).
  split; [repeat constructor|reflexivity].
Defined.

(** An [Op16] directly before a multisig opcode. *)
Definition op16_multisig (ops : list OpCode) : Prop :=
  ∃ i a b, ops !! i = Some a ∧ ops !! S i = Some b ∧ value a = Op16 ∧ is_check_multisig (value b) = true.

Lemma op16_multisig_cons a ops :
  op16_multisig (a :: ops) ↔
  (value a = Op16 ∧ ∃ b, ops !! 0%nat = Some b ∧ is_check_multisig (value b) = true) ∨ op16_multisig ops.
Proof.
  split.
  - intros ([|i] & x & b & Hx & Hb & H1 & H2); simpl in Hx, Hb.
    + left. simplify_eq. eauto.
    + right. by exists i, x, b.
  - intros [(Hv & b & Hb & Hm)|(i & x & b & Hx & Hb & H1 & H2)].
    + by exists 0%nat, a, b.
    + by exists (S i), x, b.
Qed.

Lemma multisig_not_checksig code :
  is_check_multisig code = true → bool_decide (code ∈ [OpCheckSig; OpCheckSigVerify; OpCheckSigECDSA]) = false.
Proof. unfold is_check_multisig. rewrite bool_decide_eq_true, bool_decide_eq_false. set_solver. Qed.

(** What one opcode adds to the count, or [None] for the assertion that fails. *)
Definition sig_ops_of (prev : option OpCode) (op : OpCode) : option Z :=
  if bool_decide (value op ∈ [OpCheckSig; OpCheckSigVerify; OpCheckSigECDSA]) then Some 1
  else if is_check_multisig (value op) then
    match prev with
    | Some p =>
        if value p =? Op16 then None
        else if (OpTrue <=? value p) && (value p <=? Op16) then Some (value p - 80) else Some 20
    | None => Some 20
    end
  else Some 0.

Lemma sig_ops_of_bound prev op n : sig_ops_of prev op = Some n → 0 ≤ n ≤ 20.
Proof.
  unfold sig_ops_of. repeat case_match; intros; simplify_eq; try lia.
Qed.

Lemma sig_ops_of_None prev op :
  sig_ops_of prev op = None ↔ (∃ p, prev = Some p ∧ value p = Op16) ∧ is_check_multisig (value op) = true.
Proof.
  unfold sig_ops_of. pose proof (multisig_not_checksig (value op)) as Hm.
  destruct (is_check_multisig (value op)); [rewrite Hm by done|case_match; naive_solver].
  destruct prev as [p|]; [|naive_solver]. destruct (Z.eqb_spec (value p) Op16); [naive_solver|].
  case_match; naive_solver.
Qed.

Lemma sig_ops_loop_step {E} prev op ops n :
  n + 20 < 2 ^ 64 →
  sig_ops_loop (E := E) prev (Ok op :: ops) n =
    match sig_ops_of prev op with Some k => sig_ops_loop (Some op) ops (n + k) | None => Panic end.
Proof.
  intros Hn. cbn [sig_ops_loop]. unfold sig_ops_of, to_small_int.
  assert (∀ k, 0 ≤ k ≤ 20 → add_p (E := E) 64 n k = Ok (n + k)) as Hadd by (intros; apply add_p_Ok; lia).
  destruct (bool_decide _); [by rewrite Hadd by lia|]. destruct (is_check_multisig _);
    [|by rewrite Z.add_0_r]. destruct prev as [p|]; [|by rewrite Hadd by lia].
  destruct (Z.eqb_spec (value p) Op16) as [->|Hne]; [done|].
  destruct (_ && _) eqn:Hr; [|by rewrite Hadd by lia]. apply andb_true_iff in Hr as [H1%Z.leb_le H2%Z.leb_le].
  replace (value p =? OpFalse) with false by (symmetry; apply Z.eqb_neq; lia).
  rewrite (proj2 (Z.leb_le _ _)) by lia. rewrite (proj2 (Z.ltb_lt _ _)) by lia. simpl. by rewrite Hadd by lia.
Qed.

Lemma sig_ops_loop_panic {E} ops prev n :
  0 ≤ n → n + 20 * zlen ops < 2 ^ 64 →
  sig_ops_loop (E := E) prev (Ok <$> ops) n = Panic ↔ op16_multisig (option_list prev ++ ops).
Proof.
  unfold zlen. revert prev n. induction ops as [|op ops IH]; intros prev n Hn0 Hn.
  { split; [done|]. intros (i & a & b & Ha & Hb & _). destruct prev; [destruct i|]; done. }
  simpl length in Hn. rewrite fmap_cons, sig_ops_loop_step by lia.
  pose proof (sig_ops_of_None prev op) as Hnone. destruct (sig_ops_of prev op) as [k|] eqn:Hk.
  - pose proof (sig_ops_of_bound _ _ _ Hk). rewrite IH by lia. simpl option_list.
    destruct prev as [p|]; cbn [option_list app]; [|done]. rewrite (op16_multisig_cons p (op :: ops)).
    split; [by right|]. intros [(Hv & b & [= <-] & Hm)|?]; [|done].
    exfalso. assert (Some k = None); [|done]. apply Hnone. eauto.
  - split; [|done]. intros _. destruct (proj1 Hnone eq_refl) as [(p & -> & Hp) Hm].
    change (op16_multisig (p :: op :: ops)). rewrite op16_multisig_cons. left. eauto.
Qed.

(** The signature-operation upper bound of a script public key panics on a class
    of valid scripts: exactly when an [Op16] stands directly before a multisig
    opcode, because the assertion in [to_small_int] excludes the end of its range. *)
Theorem sig_op_upper_bound_panics {E} signature_script spk ops :
  is_pay_to_script_hash (spk_script spk) = false → zlen ops < 2 ^ 59 →
  parse_script (spk_script spk) = Ok <$> ops →
  get_sig_op_count_upper_bound (E := E) signature_script spk = Panic ↔ op16_multisig ops.
Proof.
  intros Hp2sh Hlen Hp. unfold get_sig_op_count_upper_bound. rewrite Hp2sh. simpl. rewrite Hp.
  apply (sig_ops_loop_panic ops None 0); [lia|]. pose proof (zlen_nonneg ops). lia.
Qed.

Lemma sig_op_upper_bound_panics_witness :
  get_sig_op_count_upper_bound (E := unit) [] (mkSpk 0 [96; 174]) = Panic.
Proof.
  apply (proj2 (sig_op_upper_bound_panics (E := unit) [] (mkSpk 0 [96; 174]) [mkOp 96 []; mkOp 174 []]
    eq_refl eq_refl eq_refl)).
  exists 0%nat, (mkOp 96 []), (mkOp 174 []). repeat split.
Defined.
