(* ===== verification/ScriptMeter.v ===== *)
(** * Resource metering of scripts (crypto/txscript/src/runtime_resource_meter.rs)

    Before covenants an input commits to a number of signature operations; with
    covenants it commits to script units, which signature operations, hashed and
    pushed bytes and proof verifications are charged to. *)

From S2P Require Import Prelude Bytes Transaction StateMonad ScriptNum.

Record RuntimeSigOpCounter := mkSigOps { sig_op_limit : Z; sig_op_remaining : Z }.

Record RuntimeScriptUnitMeter := mkUnits {
  m_used_sig_ops : Z;
  m_sigop_script_units : Z;
  script_units_limit : Z;
  remaining_script_units : Z;
}.

Inductive RuntimeResourceMeter :=
| Sigops (c : RuntimeSigOpCounter)
| ScriptUnits (m : RuntimeScriptUnitMeter).

Abbreviation counterM := (stm TxScriptError RuntimeSigOpCounter).
Abbreviation unitsM := (stm TxScriptError RuntimeScriptUnitMeter).
Abbreviation meterM := (stm TxScriptError RuntimeResourceMeter).

Definition counter_new (limit : Z) : RuntimeSigOpCounter := mkSigOps limit limit.

Definition consume_sig_ops (count : Z) : counterM () := λ c,
  match checked_sub (sig_op_remaining c) count with
  | Some r => Ok (tt, mkSigOps (sig_op_limit c) r)
  | None => Err (ExceededSigOpLimit (sig_op_limit c))
  end.
Definition consume_sig_op : counterM () := consume_sig_ops 1.

Definition counter_used {E} (c : RuntimeSigOpCounter) : res E Z := sub_p (sig_op_limit c) (sig_op_remaining c).

Definition units_new (sigop_units limit : Z) : RuntimeScriptUnitMeter := mkUnits 0 sigop_units limit limit.

Definition units_used {E} (m : RuntimeScriptUnitMeter) : res E Z :=
  sub_p (script_units_limit m) (remaining_script_units m).

Definition units_consume (units : Z) : unitsM () := λ m,
  match checked_sub (remaining_script_units m) units with
  | Some r => Ok (tt, mkUnits (m_used_sig_ops m) (m_sigop_script_units m) (script_units_limit m) r)
  | None =>
      overflow ← sub_p units (remaining_script_units m);
      Err (ExceededCommittedScriptUnits (sat_add64 (script_units_limit m) overflow) (script_units_limit m))
  end.

(** [u16::saturating_add]. *)
Definition sat_add16 (a b : Z) : Z := Z.min (a + b) (2 ^ 16 - 1).

Definition units_consume_sig_op_cost (count : Z) : unitsM () :=
  units ← gets m_sigop_script_units;
  _ ← units_consume (sat_mul64 count units);
  modify (λ m, mkUnits (sat_add16 (m_used_sig_ops m) count) (m_sigop_script_units m) (script_units_limit m)
                 (remaining_script_units m)).

(** ** [RuntimeResourceMeter] *)

Definition on_units (m : unitsM ()) : meterM () := λ meter,
  match meter with
  | Sigops c => Ok (tt, meter)
  | ScriptUnits u => zoom (λ _, u) (λ u _, ScriptUnits u) m meter
  end.

Definition meter_consume_sig_op_cost (count : Z) : meterM () := λ meter,
  match meter with
  | Sigops c => zoom (λ _, c) (λ c _, Sigops c) (consume_sig_ops count) meter
  | ScriptUnits u => zoom (λ _, u) (λ u _, ScriptUnits u) (units_consume_sig_op_cost count) meter
  end.
Definition meter_consume_script_units (units : Z) : meterM () := on_units (units_consume units).
(** Pushed bytes are charged 1:1. *)
Definition charge_newly_pushed_bytes (bytes : Z) : meterM () := on_units (units_consume bytes).

Definition meter_used_sig_ops {E} (m : RuntimeResourceMeter) : res E Z :=
  match m with Sigops c => counter_used c | ScriptUnits u => Ok (m_used_sig_ops u) end.
Definition meter_used_script_units {E} (m : RuntimeResourceMeter) : res E Z :=
  match m with Sigops _ => Ok 0 | ScriptUnits u => units_used u end.

(** ** Invariant: what remains never exceeds the limit, and the limit is fixed *)

Definition meter_ok (m : RuntimeResourceMeter) : Prop :=
  match m with
  | Sigops c => 0 ≤ sig_op_remaining c ≤ sig_op_limit c ∧ sig_op_limit c < 2 ^ 16
  | ScriptUnits u => 0 ≤ remaining_script_units u ≤ script_units_limit u ∧ script_units_limit u < 2 ^ 64 ∧
                     0 ≤ m_sigop_script_units u ∧ 0 ≤ m_used_sig_ops u
  end.

(** The commitment a meter enforces. *)
Definition meter_limit (m : RuntimeResourceMeter) : Z :=
  match m with Sigops c => sig_op_limit c | ScriptUnits u => script_units_limit u end.
Definition meter_remaining (m : RuntimeResourceMeter) : Z :=
  match m with Sigops c => sig_op_remaining c | ScriptUnits u => remaining_script_units u end.

(** Consumption: the limit stays, what remains does not grow. *)
Definition consumed (m m' : RuntimeResourceMeter) : Prop :=
  meter_limit m' = meter_limit m ∧ meter_remaining m' ≤ meter_remaining m.

Lemma units_consume_no_panic units u :
  0 ≤ units → units_consume units u ≠ Panic.
Proof.
  intros Hu. unfold units_consume, checked_sub, sub_p, checked_sub.
  destruct (Z.leb_spec units (remaining_script_units u)); [done|].
  replace (remaining_script_units u <=? units) with true by (symmetry; apply Z.leb_le; lia). done.
Qed.

Lemma meter_consume_script_units_spec m0 units :
  0 ≤ units →
  triple (λ m, meter_ok m ∧ consumed m0 m) (meter_consume_script_units units) (λ _ m, meter_ok m ∧ consumed m0 m).
Proof.
  intros Hu m [Hm [Hl Hr]]. unfold meter_consume_script_units, on_units, zoom. destruct m as [c|u]; [done|].
  pose proof (units_consume_no_panic units u Hu). destruct (units_consume units u) as [[[] u']| |] eqn:Hc; [|done..].
  unfold units_consume in Hc. destruct (checked_sub _ _) as [r|] eqn:Hr'; [|by res_inv].
  apply checked_sub_Some in Hr' as [-> ?]. injection Hc as <-. unfold meter_ok, consumed in *. simpl in *. lia.
Qed.

Lemma meter_consume_sig_op_cost_spec m0 count :
  0 ≤ count →
  triple (λ m, meter_ok m ∧ consumed m0 m) (meter_consume_sig_op_cost count) (λ _ m, meter_ok m ∧ consumed m0 m).
Proof.
  intros Hu m [Hm [Hl Hr]]. unfold meter_consume_sig_op_cost, zoom. destruct m as [c|u].
  - unfold consume_sig_ops. destruct (checked_sub _ _) as [r|] eqn:Hr'; [|done].
    apply checked_sub_Some in Hr' as [-> ?]. unfold meter_ok, consumed in *. simpl in *. lia.
  - unfold units_consume_sig_op_cost, gets, modify, mbind, stm_mbind.
    assert (0 ≤ sat_mul64 count (m_sigop_script_units u)) as Hs.
    { unfold meter_ok in Hm. unfold sat_mul64. apply Z.min_glb; [apply Z.mul_nonneg_nonneg; lia|done]. }
    pose proof (units_consume_no_panic _ u Hs).
    destruct (units_consume _ u) as [[[] u']| |] eqn:Hc; [|done..].
    unfold units_consume in Hc. destruct (checked_sub _ _) as [r|] eqn:Hr'; [|by res_inv].
    apply checked_sub_Some in Hr' as [-> ?]. injection Hc as <-. unfold meter_ok, consumed, sat_add16 in *.
    simpl in *. lia.
Qed.
