(* ===== verification/ScriptState.v ===== *)
(** * The state of the script engine (crypto/txscript/src/lib.rs,
    opcodes/mod.rs)

    The fields of [TxScriptEngine] that opcodes change, the methods that reach
    its stacks and its meter, and the invariant that every opcode keeps. *)

From S2P Require Import Prelude Bytes Transaction StateMonad ScriptNum ScriptStack ScriptMeter ScriptParse.

Inductive OpCond := CondFalse | CondTrue | CondSkip.

Definition cond_negate (c : OpCond) : OpCond :=
  match c with CondTrue => CondFalse | CondFalse => CondTrue | CondSkip => CondSkip end.
Definition cond_is_true (c : OpCond) : bool := match c with CondTrue => true | _ => false end.

Record EngineState := mkState {
  dstack : Stack;
  astack : Stack;
  cond_stack : list OpCond;
  num_ops : Z;
  meter : RuntimeResourceMeter;
}.

Abbreviation vmM := (stm TxScriptError EngineState).

Definition set_dstack (d : Stack) (s : EngineState) : EngineState :=
  mkState d (astack s) (cond_stack s) (num_ops s) (meter s).
Definition set_astack (a : Stack) (s : EngineState) : EngineState :=
  mkState (dstack s) a (cond_stack s) (num_ops s) (meter s).
Definition set_cond_stack (c : list OpCond) (s : EngineState) : EngineState :=
  mkState (dstack s) (astack s) c (num_ops s) (meter s).
Definition set_num_ops (n : Z) (s : EngineState) : EngineState :=
  mkState (dstack s) (astack s) (cond_stack s) n (meter s).
Definition set_meter (m : RuntimeResourceMeter) (s : EngineState) : EngineState :=
  mkState (dstack s) (astack s) (cond_stack s) (num_ops s) m.

Definition on_dstack {A} (m : stackM A) : vmM A := zoom dstack set_dstack m.
Definition on_astack {A} (m : stackM A) : vmM A := zoom astack set_astack m.
Definition on_meter {A} (m : meterM A) : vmM A := zoom meter set_meter m.

Definition consume_script_units (units : Z) : vmM () := on_meter (meter_consume_script_units units).
Definition consume_sig_op_cost (count : Z) : vmM () := on_meter (meter_consume_sig_op_cost count).

(** [pop_pushed_bytes] of the engine. *)
Definition pop_pushed_bytes : vmM Z :=
  d ← on_dstack stack_pop_pushed_bytes;
  a ← on_astack stack_pop_pushed_bytes;
  ok (sat_add64 d a).

Definition is_executing (s : EngineState) : bool :=
  match last (cond_stack s) with None => true | Some c => cond_is_true c end.

(** ** Popping and pushing typed items *)

Definition pop_i64_1 : vmM Z := l ← on_dstack (pop_items deserialize_num64 1); arr1 l.
Definition pop_i64_2 : vmM (Z * Z) := l ← on_dstack (pop_items deserialize_num64 2); arr2 l.
Definition pop_i64_3 : vmM (Z * Z * Z) := l ← on_dstack (pop_items deserialize_num64 3); arr3 l.
Definition pop_i32_1 : vmM Z := l ← on_dstack (pop_items deserialize_num32 1); arr1 l.
Definition pop_i32_2 : vmM (Z * Z) := l ← on_dstack (pop_items deserialize_num32 2); arr2 l.
Definition pop_i32_3 : vmM (Z * Z * Z) := l ← on_dstack (pop_items deserialize_num32 3); arr3 l.
Definition pop_bool : vmM bool := l ← on_dstack (pop_items (λ v _, deserialize_bool v) 1); arr1 l.
Definition pop_hash : vmM Hash := l ← on_dstack (pop_items (λ v _, deserialize_hash v) 1); arr1 l.
Definition pop_raw_1 : vmM StackEntry := l ← on_dstack (pop_raw 1); arr1 l.
Definition pop_raw_2 : vmM (StackEntry * StackEntry) := l ← on_dstack (pop_raw 2); arr2 l.
Definition pop_raw_3 : vmM (StackEntry * StackEntry * StackEntry) := l ← on_dstack (pop_raw 3); arr3 l.

Definition push_literal_data (data : bytes) : vmM () := on_dstack (push_unmetered data).
Definition push_data (data : bytes) : vmM () := on_dstack (stack_push data).
Definition push_literal_number (n : Z) : vmM () := on_dstack (push_item_unmetered (serialize_num64 n)).
Definition push_number (n : Z) : vmM () := on_dstack (push_item (serialize_num64 n)).
Definition push_bool (b : bool) : vmM () := on_dstack (push_item (Ok (serialize_bool b))).
Definition push_hash (h : Hash) : vmM () := on_dstack (push_item (Ok h)).

(** ** Helpers of the opcodes *)

Definition substring (data : bytes) (start stop : Z) : res TxScriptError bytes :=
  diff ← ok_or (InvalidRange start stop) (checked_sub stop start);
  if MAX_SCRIPT_ELEMENT_SIZE_POST_TOCCATA <? diff
  then Err (ElementTooBig diff MAX_SCRIPT_ELEMENT_SIZE_POST_TOCCATA)
  else if stop <=? zlen data then Ok (take (Z.to_nat diff) (drop (Z.to_nat start) data))
  else Err (OutOfBoundsSubstring start stop (zlen data)).

Definition i32_to_usize (value : Z) : res TxScriptError Z :=
  if value <? 0 then Err (InvalidIndex value) else Ok value.

(** [x as i64] for an unsigned 64-bit [x]. *)
Definition as_i64 (x : Z) : Z := to_signed 64 (x mod 2 ^ 64).

(** [checked_add], [checked_sub], [checked_mul], [checked_neg] and [checked_abs] of [i64]. *)
Definition checked_i64 (x : Z) : option Z := if in_ib 64 x then Some x else None.
Definition checked_div_i64 (a b : Z) : option Z := if b =? 0 then None else checked_i64 (Z.quot a b).
Definition checked_rem_i64 (a b : Z) : option Z :=
  if b =? 0 then None else if (a =? - 2 ^ 63) && (b =? -1) then None else Some (Z.rem a b).

Definition spk_to_bytes (spk : ScriptPublicKey) : bytes := be_bytes 2 (spk_version spk) ++ spk_script spk.

(** ** The invariant *)

Abbreviation MAX_OPS_PER_SCRIPT_PRE_TOCCATA := (201)%Z (only parsing).
Abbreviation MAX_OPS_PER_SCRIPT_POST_TOCCATA := (1000000)%Z (only parsing).
Definition max_ops_per_script (covenants : bool) : Z :=
  if covenants then MAX_OPS_PER_SCRIPT_POST_TOCCATA else MAX_OPS_PER_SCRIPT_PRE_TOCCATA.
Definition max_script_element_size (covenants : bool) : Z :=
  if covenants then MAX_SCRIPT_ELEMENT_SIZE_POST_TOCCATA else MAX_SCRIPT_ELEMENT_SIZE_PRE_TOCCATA.

(** Both stacks are well formed, the operation count is within its limit, and the
    meter [m0] has only been consumed from. *)
Definition state_ok (c : bool) (m0 : RuntimeResourceMeter) (n : nat) (s : EngineState) : Prop :=
  stack_ok c n (dstack s) ∧ stack_ok c n (astack s) ∧
  0 ≤ num_ops s ≤ max_ops_per_script c ∧ meter_ok (meter s) ∧ consumed m0 (meter s).

Section specs.
Context (c : bool) (m0 : RuntimeResourceMeter).
Abbreviation OK := (state_ok c m0).

Lemma state_ok_mono n m s : (n ≤ m ≤ 1000)%nat → OK n s → OK m s.
Proof. intros Hnm (Hd & Ha & Hrest). split_and!; [by eapply stack_ok_mono..| | | |]; apply Hrest. Qed.

Lemma state_ok_bound n s : OK n s → (n ≤ 1000)%nat.
Proof. by intros ((_ & _ & _ & ?) & _). Qed.

Lemma on_dstack_spec {A} n k (m : stackM A) (φ : A → Prop) :
  (n ≤ k)%nat → triple (stack_ok c n) m (λ a s, φ a ∧ stack_ok c k s) →
  triple (OK n) (on_dstack m) (λ a s, φ a ∧ OK k s).
Proof.
  intros Hnk Hm. eapply triple_zoom; [exact Hm|by intros s (? & _)|].
  intros a t s (_ & Ha & Hrest) [Hφ Ht]. split; [done|]. pose proof Ht as (_ & _ & _ & ?).
  split_and!; [done|eapply stack_ok_mono; [|exact Ha]; lia|apply Hrest..].
Qed.

Lemma on_astack_spec {A} n k (m : stackM A) (φ : A → Prop) :
  (n ≤ k)%nat → triple (stack_ok c n) m (λ a s, φ a ∧ stack_ok c k s) →
  triple (OK n) (on_astack m) (λ a s, φ a ∧ OK k s).
Proof.
  intros Hnk Hm. eapply triple_zoom; [exact Hm|by intros s (_ & ? & _)|].
  intros a t s (Hd & _ & Hrest) [Hφ Ht]. split; [done|]. pose proof Ht as (_ & _ & _ & ?).
  split_and!; [eapply stack_ok_mono; [|exact Hd]; lia|done|apply Hrest..].
Qed.

Lemma on_meter_spec n (m : meterM ()) :
  triple (λ s, meter_ok s ∧ consumed m0 s) m (λ _ s, meter_ok s ∧ consumed m0 s) →
  triple (OK n) (on_meter m) (λ _ s, True ∧ OK n s).
Proof.
  intros Hm. eapply triple_zoom; [exact Hm|by intros s (_ & _ & _ & ?)|].
  intros a t s (Hd & Ha & Hn & _) [? ?]. by split_and!.
Qed.

Lemma consume_script_units_spec n units :
  0 ≤ units → triple (OK n) (consume_script_units units) (λ _ s, True ∧ OK n s).
Proof. intros. by apply on_meter_spec, meter_consume_script_units_spec. Qed.

Lemma consume_sig_op_cost_spec n count :
  0 ≤ count → triple (OK n) (consume_sig_op_cost count) (λ _ s, True ∧ OK n s).
Proof. intros. by apply on_meter_spec, meter_consume_sig_op_cost_spec. Qed.

(** The array patterns match what the pops return. *)
Lemma arr1_spec {S A} (P : S → Prop) (Q : A → Prop) l :
  length l = 1%nat → Forall Q l → triple P (arr1 l) (λ a s, Q a ∧ P s).
Proof. destruct l as [|a [|]]; intros; try done. intros s Hs. split; [|done]. by inversion H0. Qed.
Lemma arr2_spec {S A} (P : S → Prop) (Q : A → Prop) l :
  length l = 2%nat → Forall Q l → triple P (arr2 l) (λ a s, (Q a.1 ∧ Q a.2) ∧ P s).
Proof.
  destruct l as [|a [|b [|]]]; intros Hl Hq; try done. intros s Hs. split; [|done].
  apply Forall_cons in Hq as [? Hq]. by apply Forall_cons in Hq as [? _].
Qed.
Lemma arr3_spec {S A} (P : S → Prop) (Q : A → Prop) l :
  length l = 3%nat → Forall Q l → triple P (arr3 l) (λ a s, (Q a.1.1 ∧ Q a.1.2 ∧ Q a.2) ∧ P s).
Proof.
  destruct l as [|a [|b [|d [|]]]]; intros Hl Hq; try done. intros s Hs. split; [|done].
  apply Forall_cons in Hq as [? Hq]. apply Forall_cons in Hq as [? Hq]. by apply Forall_cons in Hq as [? _].
Qed.

Definition i64_ok (x : Z) : Prop := Z.abs x < 2 ^ 63.
Definition i32_ok (x : Z) : Prop := in_i 32 x.

Lemma pop_num64_spec n k :
  triple (OK n) (on_dstack (pop_items deserialize_num64 k)) (λ l s, (length l = k ∧ Forall i64_ok l) ∧ OK n s).
Proof.
  apply on_dstack_spec; [done|]. apply pop_items_spec.
  - intros. by apply deserialize_sized_no_panic; [lia|].
  - intros v e x Hv Hd. by apply (deserialize_sized_bound 8 v e x) in Hd; [|lia|].
Qed.

Lemma pop_num32_spec n k :
  triple (OK n) (on_dstack (pop_items deserialize_num32 k)) (λ l s, (length l = k ∧ Forall i32_ok l) ∧ OK n s).
Proof.
  apply on_dstack_spec; [done|]. apply pop_items_spec.
  - intros. by apply deserialize_num32_no_panic.
  - intros v e x Hv Hd. by eapply deserialize_num32_range.
Qed.

Lemma pop_raw_n_spec n k :
  triple (OK n) (on_dstack (pop_raw k)) (λ l s, (length l = k ∧ Forall (entry_ok c) l) ∧ OK n s).
Proof. apply on_dstack_spec; [done|]. apply pop_raw_spec. Qed.

Ltac arr_tac spec arr :=
  eapply triple_bind; [apply spec|]; intros l; apply triple_pure; intros [Hl Hq]; by apply arr.

Lemma pop_i64_1_spec n : triple (OK n) pop_i64_1 (λ a s, i64_ok a ∧ OK n s).
Proof. arr_tac pop_num64_spec (arr1_spec (OK n) i64_ok). Qed.
Lemma pop_i64_2_spec n : triple (OK n) pop_i64_2 (λ a s, (i64_ok a.1 ∧ i64_ok a.2) ∧ OK n s).
Proof. arr_tac pop_num64_spec (arr2_spec (OK n) i64_ok). Qed.
Lemma pop_i64_3_spec n : triple (OK n) pop_i64_3 (λ a s, (i64_ok a.1.1 ∧ i64_ok a.1.2 ∧ i64_ok a.2) ∧ OK n s).
Proof. arr_tac pop_num64_spec (arr3_spec (OK n) i64_ok). Qed.
Lemma pop_i32_1_spec n : triple (OK n) pop_i32_1 (λ a s, i32_ok a ∧ OK n s).
Proof. arr_tac pop_num32_spec (arr1_spec (OK n) i32_ok). Qed.
Lemma pop_i32_2_spec n : triple (OK n) pop_i32_2 (λ a s, (i32_ok a.1 ∧ i32_ok a.2) ∧ OK n s).
Proof. arr_tac pop_num32_spec (arr2_spec (OK n) i32_ok). Qed.
Lemma pop_i32_3_spec n : triple (OK n) pop_i32_3 (λ a s, (i32_ok a.1.1 ∧ i32_ok a.1.2 ∧ i32_ok a.2) ∧ OK n s).
Proof. arr_tac pop_num32_spec (arr3_spec (OK n) i32_ok). Qed.
Lemma pop_raw_1_spec n : triple (OK n) pop_raw_1 (λ a s, entry_ok c a ∧ OK n s).
Proof. arr_tac pop_raw_n_spec (arr1_spec (OK n) (entry_ok c)). Qed.
Lemma pop_raw_2_spec n : triple (OK n) pop_raw_2 (λ a s, (entry_ok c a.1 ∧ entry_ok c a.2) ∧ OK n s).
Proof. arr_tac pop_raw_n_spec (arr2_spec (OK n) (entry_ok c)). Qed.
Lemma pop_raw_3_spec n :
  triple (OK n) pop_raw_3 (λ a s, (entry_ok c a.1.1 ∧ entry_ok c a.1.2 ∧ entry_ok c a.2) ∧ OK n s).
Proof. arr_tac pop_raw_n_spec (arr3_spec (OK n) (entry_ok c)). Qed.

Lemma pop_bool_spec n : triple (OK n) pop_bool (λ _ s, True ∧ OK n s).
Proof.
  eapply triple_bind.
  - apply on_dstack_spec; [done|]. apply (pop_items_spec c _ (λ _, True)); [|done].
    intros v _ Hv. destruct (deserialize_bool_spec v Hv) as (b & -> & _). done.
  - intros l. apply triple_pure. intros [Hl Hq]. by apply (arr1_spec (OK n) (λ _, True)).
Qed.

Lemma pop_hash_spec n : triple (OK n) pop_hash (λ h s, is_array 32 h ∧ OK n s).
Proof.
  eapply triple_bind.
  - apply on_dstack_spec; [done|]. apply (pop_items_spec c _ (is_array 32)).
    + intros v _ Hv. unfold deserialize_hash. by destruct (length v =? 32)%nat.
    + intros v _ h Hv. unfold deserialize_hash. destruct (Nat.eqb_spec (length v) 32); [|done]. by intros [= <-].
  - intros l. apply triple_pure. intros [Hl Hq]. by apply (arr1_spec (OK n) (is_array 32)).
Qed.

(** Pushes, for a budget that is not used up. *)
Lemma push_literal_data_spec n d :
  is_bytes d → zlen d ≤ 2 ^ 33 → triple (OK n) (push_literal_data d) (λ _ s, True ∧ OK n s).
Proof. intros. by apply on_dstack_spec, push_unmetered_spec. Qed.

Lemma push_data_spec n d :
  (n < 1000)%nat → is_bytes d → zlen d ≤ 2 ^ 33 → triple (OK n) (push_data d) (λ _ s, True ∧ OK (S n) s).
Proof. intros. apply on_dstack_spec; [lia|]. by apply stack_push_spec. Qed.

Lemma serialize_num64_ok x : in_i 64 x → item_ok (serialize_num64 x).
Proof.
  unfold in_i. change (64 - 1) with 63. intros Hx. destruct (decide (x = - 2 ^ 63)) as [->|Hne].
  { assert (serialize_num64 (- 2 ^ 63) = Err (NumberTooLong (- 2 ^ 63) 8)) as -> by (vm_compute; reflexivity). done. }
  destruct (serialize_sized_Ok 8 x) as (b & Hs & Hb & Hl & _); [lia|change (8 * Z.of_nat 8 - 1) with 63; lia|].
  unfold item_ok, serialize_num64. rewrite Hs. split; [done|]. intros b' [= <-]. unfold zlen. split; [done|lia].
Qed.

Lemma push_literal_number_spec n x :
  in_i 64 x → triple (OK n) (push_literal_number x) (λ _ s, True ∧ OK n s).
Proof. intros. by apply on_dstack_spec, push_item_unmetered_spec, serialize_num64_ok. Qed.

Lemma push_number_spec n x :
  (n < 1000)%nat → in_i 64 x → triple (OK n) (push_number x) (λ _ s, True ∧ OK (S n) s).
Proof. intros. apply on_dstack_spec; [lia|]. by apply push_item_spec, serialize_num64_ok. Qed.

Lemma push_bool_spec n b : (n < 1000)%nat → triple (OK n) (push_bool b) (λ _ s, True ∧ OK (S n) s).
Proof.
  intros. apply on_dstack_spec; [lia|]. apply push_item_spec; [done|]. split; [done|]. intros v [= <-].
  destruct b; [|split; [constructor|done]]. split; [by apply is_bytes_cons; split; [|constructor]|done].
Qed.

Lemma push_hash_spec n h :
  (n < 1000)%nat → is_array 32 h → triple (OK n) (push_hash h) (λ _ s, True ∧ OK (S n) s).
Proof.
  intros Hn [Hl Hb]. apply on_dstack_spec; [lia|]. apply push_item_spec; [done|]. split; [done|]. intros v [= <-].
  split; [done|]. unfold zlen. lia.
Qed.

(** Helpers. *)
Lemma substring_ok data start stop d :
  is_bytes data → substring data start stop = Ok d → is_bytes d ∧ zlen d ≤ MAX_SCRIPT_ELEMENT_SIZE_POST_TOCCATA.
Proof.
  unfold substring. intros Hd Hs. res_inv. apply checked_sub_Some in Hx as [-> ?].
  split; [by apply is_bytes_take, is_bytes_drop|]. unfold zlen. rewrite length_take.
  apply Z.ltb_ge in Hb. lia.
Qed.

Lemma substring_no_panic data start stop : substring data start stop ≠ Panic.
Proof. unfold substring. destruct (checked_sub stop start); simpl; [|done]. by repeat case_match. Qed.

Lemma as_i64_range x : in_i 64 (as_i64 x).
Proof. unfold as_i64. apply to_signed_range; [lia|]. unfold in_u. by apply Z.mod_pos_bound. Qed.

Lemma checked_i64_range x y : checked_i64 x = Some y → in_i 64 y.
Proof. unfold checked_i64, in_ib, in_i. destruct (_ && _) eqn:Hb; [|done]. intros [= <-]. lia. Qed.

Lemma i64_ok_range x : i64_ok x → in_i 64 x.
Proof. unfold i64_ok, in_i. change (64 - 1) with 63. lia. Qed.

Lemma checked_div_range a b y : checked_div_i64 a b = Some y → in_i 64 y.
Proof. unfold checked_div_i64. destruct (b =? 0); [done|]. apply checked_i64_range. Qed.

Lemma checked_rem_range a b y : i64_ok a → checked_rem_i64 a b = Some y → in_i 64 y.
Proof.
  unfold checked_rem_i64, i64_ok. intros Ha. destruct (Z.eqb_spec b 0); [done|]. destruct (_ && _); [done|].
  intros [= <-]. unfold in_i. change (64 - 1) with 63.
  pose proof (Z.rem_le (Z.abs a) (Z.abs b) ltac:(lia) ltac:(lia)) as Hle. rewrite Z.rem_abs in Hle by done. lia.
Qed.
End specs.
