(* ===== verification/ZkPrecompiles.v ===== *)
(** * ZK precompiles (crypto/txscript/src/zk_precompiles)

    What [OpZkPrecompile] does around the two proof verifiers: reading the tag,
    the stack protocol of each proof system, the metering of verifying keys, the
    Merkle inclusion proof of a RISC Zero control id and the binding of a receipt
    to an image and a journal.  The pairing and STARK libraries are a class. *)

From stdpp Require Import strings.
From S2P Require Import Prelude Bytes Transaction StateMonad ScriptNum ScriptStack ScriptMeter ScriptParse.
From S2P Require Import ScriptState.
#[local] Open Scope Z_scope.

Inductive HashFnId := HashBlake2b | HashPoseidon2 | HashSha256.

Definition hash_fn_from_u8 (b : Z) : option HashFnId :=
  if b =? 0 then Some HashBlake2b else if b =? 1 then Some HashPoseidon2
  else if b =? 2 then Some HashSha256 else None.

(** The libraries: ark-bn254, ark-groth16 and ark-serialize (the readers return what
    is left of the input), risc0-zkp, risc0-binfmt and risc0-circuit-recursion. *)
Class ZkLibs := {
  G1 : Type; G2 : Type; ArkFr : Type; ArkProof : Type;
  read_g1 : bool → bytes → option (G1 * bytes);
  read_g2 : bytes → option (G2 * bytes);
  read_u64 : bytes → option (Z * bytes);
  g1_batch_check : list G1 → bool;
  read_fr : bytes → option ArkFr;
  read_proof : bytes → option (ArkProof * bytes);
  groth16_check : G1 → G2 → G2 → G2 → list G1 → list ArkFr → ArkProof → option bool;
  stark_verify : HashFnId → list Z → (bytes → bool) → bool;
  hash_pair : HashFnId → bytes → bytes → bytes;
  is_digest_valid : HashFnId → bytes → bool;
  ALLOWED_CONTROL_ROOT : bytes;
  OUTPUT_SIZE : nat;
  elem_as_u32 : Z → Z;
  digest_of_words : list Z → option bytes;
  read_sha_halfs : list Z → option bytes;
  tagged_struct : string → list bytes → list Z → bytes;
  system_state_digest : Z → bytes → bytes;
  halted_pair : Z → Z * Z;
}.

(** A [u64] is read as such; the verifier has read the output words of a seal that it
    accepts; a recursion circuit has two output slots of sixteen words. *)
Class ZkLibsLaws `{ZkLibs} : Prop := {
  read_u64_range b n r : read_u64 b = Some (n, r) → in_u 64 n;
  stark_verify_length f seal check : stark_verify f seal check = true → (OUTPUT_SIZE ≤ length seal)%nat;
  output_size_words : (16 ≤ OUTPUT_SIZE)%nat;
}.

(** [map_err]. *)
Definition map_throw {E S A} (f : E → E) (m : stm E S A) : stm E S A := λ s,
  match m s with Err e => Err (f e) | r => r end.

Definition parse_tag : vmM ZkTag :=
  tag_bytes ← on_dstack stack_pop;
  match tag_bytes with
  | [tag_byte] => or_throw (zk_tag_from_u8 tag_byte) ZkIntegrity
  | _ => throw ZkIntegrity
  end.

Abbreviation GROTH16_GAMMA_ABC_G1_ELEMENT_SCRIPT_UNITS := (250000)%Z (only parsing).
Abbreviation FR_BYTES := (32)%nat (only parsing).
Abbreviation POSEIDON2_CONTROL_MERKLE_DEPTH := (8)%nat (only parsing).
Abbreviation DIGEST_BYTES := (32)%nat (only parsing).

Section precompiles.
Context `{ZkLibs}.

(** Every error of the verifiers ends up as [ZkIntegrity]. *)
Abbreviation or_fail := (λ o, or_throw o ZkIntegrity).

(** ** Groth16 *)

Definition deserialize_fr (v : bytes) : res TxScriptError ArkFr :=
  if negb (length v =? FR_BYTES)%nat then Err ZkIntegrity else ok_or ZkIntegrity (read_fr v).

(** The unvalidated reads of [gamma_abc_g1]. *)
Fixpoint read_g1s (n : nat) (reader : bytes) : option (list G1 * bytes) :=
  match n with
  | O => Some ([], reader)
  | S n => '(g, reader) ← read_g1 false reader; '(gs, reader) ← read_g1s n reader; Some (g :: gs, reader)
  end.

Definition deserialize_verifying_key_with_metering (vk : bytes) (public_input_count : nat)
    : vmM (G1 * G2 * G2 * G2 * list G1) :=
  '(alpha_g1, reader) ← or_fail (read_g1 true vk);
  '(beta_g2, reader) ← or_fail (read_g2 reader);
  '(gamma_g2, reader) ← or_fail (read_g2 reader);
  '(delta_g2, reader) ← or_fail (read_g2 reader);
  '(gamma_abc_element_count, reader) ← or_fail (read_u64 reader);
  if gamma_abc_element_count =? 0 then throw ZkIntegrity
  else
    arity ← lift_res (add_p 64 (Z.of_nat public_input_count) 1);
    if negb (arity =? gamma_abc_element_count) then throw ZkIntegrity
    else
      _ ← consume_script_units (sat_mul64 gamma_abc_element_count GROTH16_GAMMA_ABC_G1_ELEMENT_SCRIPT_UNITS);
      '(gamma_abc_g1, reader) ← or_fail (read_g1s (S public_input_count) reader);
      if negb (is_empty reader) then throw ZkIntegrity
      else if negb (g1_batch_check gamma_abc_g1) then throw ZkIntegrity
      else ok (alpha_g1, beta_g2, gamma_g2, delta_g2, gamma_abc_g1).

(** The loop that pops the public inputs. *)
Fixpoint pop_frs (n : nat) : vmM (list ArkFr) :=
  match n with
  | O => ok []
  | S n =>
      l ← on_dstack (pop_items (λ v _, deserialize_fr v) 1);
      fr ← arr1 l;
      frs ← pop_frs n;
      ok (fr :: frs)
  end.

Definition groth16_verify_zk : vmM () :=
  unprepared_compressed_key ← pop_raw_1;
  proof_bytes ← pop_raw_1;
  n_inputs ← pop_i32_1;
  n_inputs ← lift_res (i32_to_usize n_inputs);
  public_inputs ← pop_frs (Z.to_nat n_inputs);
  '(a, b, g, d, abc) ← deserialize_verifying_key_with_metering unprepared_compressed_key (length public_inputs);
  '(proof, reader) ← or_fail (read_proof proof_bytes);
  if negb (is_empty reader) then throw ZkIntegrity
  else
    valid ← or_fail (groth16_check a b g d abc public_inputs proof);
    if (valid : bool) then ok tt else throw ZkIntegrity.

(** ** RISC Zero *)

Definition control_merkle_depth_for {E} (f : HashFnId) : res E nat :=
  match f with HashPoseidon2 => Ok POSEIDON2_CONTROL_MERKLE_DEPTH | _ => Panic end.

Definition parse_digest (b : bytes) : option bytes := if (length b =? DIGEST_BYTES)%nat then Some b else None.

(** [as_chunks], with the remainder required to be empty. *)
Fixpoint chunks (fuel n : nat) (b : bytes) : list bytes :=
  match fuel with
  | O => []
  | S fuel => match b with [] => [] | _ => take n b :: chunks fuel n (drop n b) end
  end.
Definition as_chunks (n : nat) (b : bytes) : option (list bytes) :=
  if (length b mod n =? 0)%nat then Some (chunks (length b) n b) else None.

Definition parse_seal (b : bytes) : option (list Z) := option_map (map of_le_bytes) (as_chunks 4 b).
Definition parse_hashfn (b : bytes) : option HashFnId :=
  match b with [x] => hash_fn_from_u8 x | _ => None end.
Definition parse_merkle_index (b : bytes) : option Z :=
  if (length b =? 4)%nat then Some (of_le_bytes b) else None.
Definition parse_digest_list (b : bytes) : option (list bytes) := as_chunks DIGEST_BYTES b.

Record MerkleProof := mkMerkle { merkle_index : Z; merkle_digests : list bytes }.

(** The loop of [MerkleProof::root]. *)
Fixpoint merkle_fold (f : HashFnId) (cur : bytes) (cur_index : Z) (siblings : list bytes) : option bytes :=
  match siblings with
  | [] => Some cur
  | sibling :: siblings =>
      if negb (is_digest_valid f sibling) then None
      else
        let cur := if Z.land cur_index 1 =? 0 then hash_pair f cur sibling else hash_pair f sibling cur in
        merkle_fold f cur (Z.shiftr cur_index 1) siblings
  end.
Definition merkle_root (p : MerkleProof) (leaf : bytes) (f : HashFnId) : option bytes :=
  if negb (is_digest_valid f leaf) then None else merkle_fold f leaf (merkle_index p) (merkle_digests p).
Definition merkle_verify (p : MerkleProof) (leaf root : bytes) (f : HashFnId) : bool :=
  match merkle_root p leaf f with Some r => bool_decide (r = root) | None => false end.

Record SuccinctReceipt := mkReceipt {
  rcpt_seal : list Z; rcpt_control_id : bytes; rcpt_claim : bytes; rcpt_hashfn : HashFnId;
  rcpt_proof : MerkleProof;
}.

(** The even positions. *)
Fixpoint evens {A} (l : list A) : list A :=
  match l with a :: _ :: l => a :: evens l | [a] => [a] | [] => [] end.

Definition verify_integrity (r : SuccinctReceipt) : vmM () :=
  let check_code control_id :=
    bool_decide (control_id = rcpt_control_id r) &&
    merkle_verify (rcpt_proof r) control_id ALLOWED_CONTROL_ROOT (rcpt_hashfn r) in
  if negb (stark_verify (rcpt_hashfn r) (rcpt_seal r) check_code) then throw ZkIntegrity
  else
    _ ← lift_res (assert_p (OUTPUT_SIZE <=? length (rcpt_seal r))%nat);
    let seal_claim := elem_as_u32 <$> take OUTPUT_SIZE (rcpt_seal r) in
    _ ← lift_res (assert_p (16 <=? length seal_claim)%nat);
    control_root ← or_fail (digest_of_words (evens (take 16 seal_claim)));
    if bool_decide (control_root ≠ ALLOWED_CONTROL_ROOT) then throw ZkIntegrity
    else
      output_hash ← or_fail (read_sha_halfs (drop 16 seal_claim));
      if bool_decide (output_hash ≠ rcpt_claim r) then throw ZkIntegrity else ok tt.

Definition ZERO_DIGEST : bytes := replicate 32 0.

(** [Output::digest] and [ReceiptClaim::digest] for a normal exit. *)
Definition output_digest (journal assumptions : bytes) : bytes :=
  tagged_struct "risc0.Output" [journal; assumptions] [].
Definition receipt_claim_digest (image_id journal : bytes) : bytes :=
  let '(sys_exit, user_exit) := halted_pair 0 in
  tagged_struct "risc0.ReceiptClaim"
    [ZERO_DIGEST; image_id; system_state_digest 0 ZERO_DIGEST; output_digest journal ZERO_DIGEST]
    [sys_exit; user_exit].

Definition compute_assert_claim (claim image_id journal : bytes) : vmM () :=
  if bool_decide (claim ≠ receipt_claim_digest image_id journal) then throw ZkIntegrity else ok tt.

Definition r0_verify_zk : vmM () :=
  l ← on_dstack (pop_raw 8);
  match l with
  | [claim; control_index; control_digests; seal; journal; image_id; control_id; hashfn] =>
      control_id ← or_fail (parse_digest control_id);
      seal ← or_fail (parse_seal seal);
      claim ← or_fail (parse_digest claim);
      hashfn ← or_fail (parse_hashfn hashfn);
      match hashfn with
      | HashPoseidon2 =>
          control_index ← or_fail (parse_merkle_index control_index);
          control_digests ← or_fail (parse_digest_list control_digests);
          max ← lift_res (control_merkle_depth_for hashfn);
          if (max <? length control_digests)%nat then throw ZkIntegrity
          else
            let rcpt := mkReceipt seal control_id claim hashfn (mkMerkle control_index control_digests) in
            image_id ← or_fail (parse_digest image_id);
            journal ← or_fail (parse_digest journal);
            _ ← verify_integrity rcpt;
            compute_assert_claim (rcpt_claim rcpt) image_id journal
      | _ => throw ZkIntegrity
      end
  | _ => panic
  end.

Definition verify_zk (tag : ZkTag) : vmM () :=
  map_throw (λ _, ZkIntegrity)
    match tag with Groth16 => groth16_verify_zk | R0Succinct => r0_verify_zk end.
End precompiles.
