(* ===== verification/ScriptOps.v ===== *)
(** * Opcodes (crypto/txscript/src/opcodes/mod.rs)

    One definition per opcode, or per family of opcodes with one body, for the
    opcodes that do not check signatures.  The transaction, the covenant context,
    the chain accessor and the flags are read only; hash functions and proof
    verifiers are classes. *)

From S2P Require Import Prelude Bytes Transaction Sighash Covenants StateMonad ScriptNum ScriptStack.
From S2P Require Import ScriptMeter ScriptParse ScriptState ZkPrecompiles.

Record EngineFlags := mkFlags { covenants : bool; sigop_script_units : Z }.

(** [SeqCommitAccessor]. *)
Record SeqCommitAccessor := mkAccessor {
  is_chain_ancestor_from_pov : Hash → option bool;
  seq_commitment_within_depth : Hash → option Hash;
}.

Inductive ScriptSource :=
| TxInput (tx : PopulatedTransaction) (input : TransactionInput) (i : nat) (utxo_entry : UtxoEntry) (is_p2sh : bool)
| StandAloneScripts (scripts : list bytes).

(** What an engine only reads: its flags, its script source and the read-only part of
    its context. *)
Record Env := mkEnv {
  flags : EngineFlags;
  script_source : ScriptSource;
  covenants_ctx : CovenantsContext;
  seq_commit_accessor : option SeqCommitAccessor;
}.

(** The hash functions of the hashing opcodes. *)
Class ScriptHashes := {
  sha256 : bytes → bytes;
  blake2b_256 : bytes → bytes;
  blake2b_256_keyed : bytes → bytes → bytes;
  blake3 : bytes → bytes;
  blake3_keyed : bytes → bytes → bytes;
}.
Class ScriptHashesLaws `{ScriptHashes} : Prop := {
  sha256_array m : is_array 32 (sha256 m);
  blake2b_array m : is_array 32 (blake2b_256 m);
  blake2b_keyed_array k m : is_array 32 (blake2b_256_keyed k m);
  blake3_array m : is_array 32 (blake3 m);
  blake3_keyed_array k m : is_array 32 (blake3_keyed k m);
}.

Abbreviation LOCK_TIME_THRESHOLD := (500000000000)%Z (only parsing).
Abbreviation MAX_TX_IN_SEQUENCE_NUM := (2 ^ 64 - 1)%Z (only parsing).
Abbreviation SEQUENCE_LOCK_TIME_DISABLED := (Z.shiftl 1 63)%Z (only parsing).
Abbreviation SEQUENCE_LOCK_TIME_MASK := (4294967295)%Z (only parsing).

(** ** Control *)

(** The boolean read by [OpIf] and [OpNotIf]. *)
Definition pop_condition (covenants : bool) : vmM bool :=
  if covenants then pop_bool
  else
    cond_buf ← on_dstack stack_pop;
    match cond_buf with
    | [] => ok false
    | [b] => if b =? 1 then ok true else throw InvalidState
    | _ => throw InvalidState
    end.

Definition push_cond (c : OpCond) : vmM () := modify (λ s, set_cond_stack (cond_stack s ++ [c]) s).

Definition op_if (covenants : bool) : vmM () :=
  executing ← gets is_executing;
  if executing : bool then
    cond ← pop_condition covenants;
    push_cond (if cond : bool then CondTrue else CondFalse)
  else push_cond CondSkip.

Definition op_not_if (covenants : bool) : vmM () :=
  executing ← gets is_executing;
  if executing : bool then
    cond ← pop_condition covenants;
    push_cond (if cond : bool then CondFalse else CondTrue)
  else push_cond CondSkip.

Definition op_else : vmM () :=
  cs ← gets cond_stack;
  match last cs with
  | Some c => modify (set_cond_stack (take (length cs - 1) cs ++ [cond_negate c]))
  | None => throw InvalidState
  end.

Definition op_end_if : vmM () :=
  cs ← gets cond_stack;
  match last cs with
  | Some _ => modify (set_cond_stack (take (length cs - 1) cs))
  | None => throw InvalidState
  end.

Definition op_verify : vmM () :=
  result ← pop_bool;
  if result : bool then ok tt else throw VerifyError.

(** ** Stack *)

Definition op_to_alt_stack : vmM () := item ← pop_raw_1; on_astack (push_unmetered item).
Definition op_from_alt_stack : vmM () := last ← on_astack stack_pop; on_dstack (push_unmetered last).

Definition op_if_dup : vmM () :=
  l ← on_dstack (peek_raw 1);
  result ← arr1 l;
  b ← lift_res (deserialize_bool result);
  if b : bool then on_dstack (stack_push result) else ok tt.

Definition op_depth : vmM () := len ← gets (λ s, depth (dstack s)); push_number (as_i64 (Z.of_nat len)).

Definition op_nip : vmM () :=
  len ← gets (λ s, depth (dstack s));
  if (2 <=? len)%nat then _ ← on_dstack (stack_remove (len - 2)); ok tt
  else throw (InvalidStackOperation 2 (Z.of_nat len)).

(** [self.dstack[i]]. *)
Definition dstack_at (i : nat) : vmM StackEntry := λ s,
  match inner (dstack s) !! i with Some x => Ok (x, s) | None => Panic end.

Definition op_pick : vmM () :=
  loc ← pop_i32_1;
  len ← gets (λ s, depth (dstack s));
  if (loc <? 0) || (Z.of_nat len <=? loc) then throw InvalidState
  else x ← dstack_at (len - Z.to_nat loc - 1); on_dstack (stack_push x).

Definition op_roll : vmM () :=
  loc ← pop_i32_1;
  len ← gets (λ s, depth (dstack s));
  if (loc <? 0) || (Z.of_nat len <=? loc) then throw InvalidState
  else on_dstack (roll (Z.to_nat loc)).

Definition op_tuck : vmM () :=
  len ← gets (λ s, depth (dstack s));
  if (2 <=? len)%nat then x ← dstack_at (len - 1); on_dstack (stack_insert (len - 2) x)
  else throw (InvalidStackOperation 2 (Z.of_nat len)).

(** ** Splice and bitwise logic *)

Definition op_cat (covenants : bool) : vmM () :=
  if covenants then
    b ← on_dstack stack_pop;
    a ← on_dstack stack_pop;
    on_dstack (stack_push (a ++ b))
  else throw OpcodeDisabled.

Definition op_substr (covenants : bool) : vmM () :=
  if covenants then
    '(start, stop) ← pop_i32_2;
    data ← on_dstack stack_pop;
    start ← lift_res (i32_to_usize start);
    stop ← lift_res (i32_to_usize stop);
    substr ← lift_res (substring data start stop);
    on_dstack (stack_push substr)
  else throw OpcodeDisabled.

Definition op_size : vmM () :=
  top ← gets (λ s, last (inner (dstack s)));
  match top with
  | Some top => if zlen top <? 2 ^ 63 then push_number (zlen top) else throw NumberTooBig
  | None => throw (InvalidStackOperation 1 0)
  end.

Definition op_invert (covenants : bool) : vmM () :=
  if covenants then
    data ← on_dstack stack_pop;
    on_dstack (stack_push ((λ b, Z.lxor b 255) <$> data))
  else throw OpcodeDisabled.

(** [OpAnd], [OpOr] and [OpXor]. *)
Definition op_bitwise (f : Z → Z → Z) (covenants : bool) : vmM () :=
  if covenants then
    b ← on_dstack stack_pop;
    a ← on_dstack stack_pop;
    if negb (length a =? length b)%nat then throw InvalidState
    else on_dstack (stack_push (zip_with f a b))
  else throw OpcodeDisabled.
Definition op_and : bool → vmM () := op_bitwise Z.land.
Definition op_or : bool → vmM () := op_bitwise Z.lor.
Definition op_xor : bool → vmM () := op_bitwise Z.lxor.

(** [split_off] of the top two entries, and [pair[0] == pair[1]]. *)
Definition pop_pair_equal : vmM bool :=
  len ← gets (λ s, depth (dstack s));
  if (2 <=? len)%nat then
    pair ← on_dstack (split_off (len - 2));
    a ← lift_res (idx pair 0);
    b ← lift_res (idx pair 1);
    ok (bool_decide (a = b))
  else throw (InvalidStackOperation 2 (Z.of_nat len)).

Definition op_equal : vmM () :=
  eq ← pop_pair_equal; on_dstack (stack_push (if eq : bool then [1] else [])).
Definition op_equal_verify : vmM () :=
  eq ← pop_pair_equal; if eq : bool then ok tt else throw VerifyError.

(** ** Numbers *)

Definition push_checked (o : option Z) (e : TxScriptError) : vmM () := r ← or_throw o e; push_number r.

Definition op_1add : vmM () := value ← pop_i64_1; push_checked (checked_i64 (value + 1)) NumberTooBig.
Definition op_1sub : vmM () := value ← pop_i64_1; push_checked (checked_i64 (value - 1)) NumberTooBig.
Definition op_negate : vmM () := value ← pop_i64_1; push_checked (checked_i64 (- value)) NumberTooBig.
Definition op_abs : vmM () := value ← pop_i64_1; push_checked (checked_i64 (Z.abs value)) NumberTooBig.
Definition op_not : vmM () := m ← pop_i64_1; push_number (Z.b2z (m =? 0)).
Definition op_0notequal : vmM () := m ← pop_i64_1; push_number (Z.b2z (negb (m =? 0))).
Definition op_add : vmM () := '(a, b) ← pop_i64_2; push_checked (checked_i64 (a + b)) NumberTooBig.
Definition op_sub : vmM () := '(a, b) ← pop_i64_2; push_checked (checked_i64 (a - b)) NumberTooBig.
Definition op_mul (covenants : bool) : vmM () :=
  if covenants then '(a, b) ← pop_i64_2; push_checked (checked_i64 (a * b)) NumberTooBig
  else throw OpcodeDisabled.
Definition op_div (covenants : bool) : vmM () :=
  if covenants then '(a, b) ← pop_i64_2; push_checked (checked_div_i64 a b) InvalidState
  else throw OpcodeDisabled.
Definition op_mod (covenants : bool) : vmM () :=
  if covenants then '(a, b) ← pop_i64_2; push_checked (checked_rem_i64 a b) InvalidState
  else throw OpcodeDisabled.

(** The opcodes that compare two numbers and push zero or one. *)
Definition op_compare (f : Z → Z → bool) : vmM () := '(a, b) ← pop_i64_2; push_number (Z.b2z (f a b)).
Definition op_bool_and : vmM () := op_compare (λ a b, negb (a =? 0) && negb (b =? 0)).
Definition op_bool_or : vmM () := op_compare (λ a b, negb (a =? 0) || negb (b =? 0)).
Definition op_num_equal : vmM () := op_compare Z.eqb.
Definition op_num_equal_verify : vmM () :=
  '(a, b) ← pop_i64_2; if a =? b then ok tt else throw VerifyError.
Definition op_num_not_equal : vmM () := op_compare (λ a b, negb (a =? b)).
Definition op_less_than : vmM () := op_compare Z.ltb.
Definition op_greater_than : vmM () := op_compare Z.gtb.
Definition op_less_than_or_equal : vmM () := op_compare Z.leb.
Definition op_greater_than_or_equal : vmM () := op_compare Z.geb.
Definition op_min : vmM () := '(a, b) ← pop_i64_2; push_number (Z.min a b).
Definition op_max : vmM () := '(a, b) ← pop_i64_2; push_number (Z.max a b).
Definition op_within : vmM () := '(x, l, u) ← pop_i64_3; push_number (Z.b2z ((l <=? x) && (x <? u))).

Definition op_num2bin (covenants : bool) : vmM () :=
  if covenants then
    size ← pop_i32_1;
    size ← lift_res (i32_to_usize size);
    if 8 <? size then throw NotMinimalData
    else
      num ← pop_i64_1;
      r ← lift_res (map_err Serialization (serialize_i64 num (Some (Z.to_nat size))));
      on_dstack (stack_push r)
  else throw InvalidOpcode.

Definition op_bin2num (covenants : bool) : vmM () :=
  if covenants then num ← pop_i64_1; push_number num else throw InvalidOpcode.

(** ** Hashing *)

(** [HashOpcodePricing::script_units_for_data]: units per byte 2 for BLAKE2b, 1 for
    BLAKE3 and SHA-256. *)
Inductive HashOpcodePricing := PriceBlake2b | PriceBlake3 | PriceSha256.
Definition units_per_byte (p : HashOpcodePricing) : Z :=
  match p with PriceBlake2b => 2 | PriceBlake3 => 1 | PriceSha256 => 1 end.
Definition script_units_for_data (p : HashOpcodePricing) (data_len : Z) : Z := sat_mul64 data_len (units_per_byte p).

Section opcodes.
Context `{ScriptHashes} `{ZkLibs} (env : Env).
Abbreviation cov := (covenants (flags env)).

Abbreviation BLAKE2B_KEYBYTES := (64)%Z (only parsing).
Abbreviation BLAKE3_KEY_LEN := (32)%nat (only parsing).

Definition op_blake2b_with_key : vmM () :=
  if cov then
    '(data, key) ← pop_raw_2;
    if BLAKE2B_KEYBYTES <? zlen key then throw (ElementTooBig (zlen key) BLAKE2B_KEYBYTES)
    else
      _ ← consume_script_units (script_units_for_data PriceBlake2b (zlen data));
      on_dstack (stack_push (blake2b_256_keyed key data))
  else throw InvalidOpcode.

Definition op_sha256 : vmM () :=
  last ← pop_raw_1;
  _ ← consume_script_units (script_units_for_data PriceSha256 (zlen last));
  on_dstack (stack_push (sha256 last)).

Definition op_blake2b : vmM () :=
  last ← pop_raw_1;
  _ ← consume_script_units (script_units_for_data PriceBlake2b (zlen last));
  on_dstack (stack_push (blake2b_256 last)).

Definition op_blake3 : vmM () :=
  if cov then
    data ← pop_raw_1;
    _ ← consume_script_units (script_units_for_data PriceBlake3 (zlen data));
    on_dstack (stack_push (blake3 data))
  else throw InvalidOpcode.

Definition op_blake3_with_key : vmM () :=
  if cov then
    '(data, key) ← pop_raw_2;
    if negb (length key =? BLAKE3_KEY_LEN)%nat then throw (MalformedPush BLAKE3_KEY_LEN (length key))
    else
      _ ← consume_script_units (script_units_for_data PriceBlake3 (zlen data));
      on_dstack (stack_push (blake3_keyed key data))
  else throw InvalidOpcode.

Definition op_zk_precompile : vmM () :=
  if cov then
    tag ← parse_tag;
    _ ← consume_script_units (zk_cost tag);
    _ ← verify_zk tag;
    push_bool true
  else throw InvalidOpcode.

(** ** Lock times *)

(** [resize(8, 0)] and [u64::from_le_bytes]. *)
Definition lock_value (b : bytes) : Z := of_le_bytes (resize 8 0 b).

Definition op_check_lock_time_verify : vmM () :=
  match script_source env with
  | TxInput p input _ _ _ =>
      lock_time_bytes ← pop_raw_1;
      if 8 <? zlen lock_time_bytes then throw NumberTooBig
      else
        let stack_lock_time := lock_value lock_time_bytes in
        let tx_lock_time := lock_time (ptx p) in
        if negb (((tx_lock_time <? LOCK_TIME_THRESHOLD) && (stack_lock_time <? LOCK_TIME_THRESHOLD))
                 || ((LOCK_TIME_THRESHOLD <=? tx_lock_time) && (LOCK_TIME_THRESHOLD <=? stack_lock_time)))
        then throw UnsatisfiedLockTime
        else if tx_lock_time <? stack_lock_time then throw UnsatisfiedLockTime
        else if sequence input =? MAX_TX_IN_SEQUENCE_NUM then throw UnsatisfiedLockTime
        else ok tt
  | StandAloneScripts _ => throw InvalidSource
  end.

Definition op_check_sequence_verify : vmM () :=
  match script_source env with
  | TxInput p input _ _ _ =>
      sequence_bytes ← pop_raw_1;
      if 8 <? zlen sequence_bytes then throw NumberTooBig
      else
        let stack_sequence := lock_value sequence_bytes in
        if negb (Z.land stack_sequence SEQUENCE_LOCK_TIME_DISABLED =? 0) then ok tt
        else if negb (Z.land (sequence input) SEQUENCE_LOCK_TIME_DISABLED =? 0) then throw UnsatisfiedLockTime
        else if Z.land (sequence input) SEQUENCE_LOCK_TIME_MASK <? Z.land stack_sequence SEQUENCE_LOCK_TIME_MASK
        then throw UnsatisfiedLockTime
        else ok tt
  | StandAloneScripts _ => throw InvalidSource
  end.

(** ** Introspection *)

(** [match vm.script_source { TxInput {..} => .., _ => Err(InvalidSource) }]. *)
Definition with_tx (k : PopulatedTransaction → nat → vmM ()) : vmM () :=
  match script_source env with
  | TxInput p _ i _ _ => k p i
  | StandAloneScripts _ => throw InvalidSource
  end.

(** [if vm.flags.covenants_enabled { .. } else { Err(e) }] around it. *)
Definition cov_tx (e : TxScriptError) (k : PopulatedTransaction → nat → vmM ()) : vmM () :=
  if cov then with_tx k else throw e.

(** An index popped as [i32] and converted with [i32_to_usize]. *)
Definition pop_index : vmM Z := i ← pop_i32_1; lift_res (i32_to_usize i).
Definition pop_index_2 : vmM (Z * Z) :=
  '(a, b) ← pop_i32_2; a ← lift_res (i32_to_usize a); b ← lift_res (i32_to_usize b); ok (a, b).
Definition pop_index_3 : vmM (Z * Z * Z) :=
  '(a, b, d) ← pop_i32_3;
  a ← lift_res (i32_to_usize a); b ← lift_res (i32_to_usize b); d ← lift_res (i32_to_usize d); ok (a, b, d).

Definition get_input (p : PopulatedTransaction) (i : Z) : vmM TransactionInput :=
  or_throw (inputs (ptx p) !! Z.to_nat i) (InvalidInputIndex i (length (inputs (ptx p)))).
Definition get_utxo (p : PopulatedTransaction) (i : Z) : vmM UtxoEntry :=
  or_throw (utxo p (Z.to_nat i)) (InvalidInputIndex i (length (inputs (ptx p)))).
(** The errors of some opcodes carry the number of inputs instead of outputs. *)
Definition get_output (p : PopulatedTransaction) (i : Z) (len : nat) : vmM TransactionOutput :=
  or_throw (outputs (ptx p) !! Z.to_nat i) (InvalidOutputIndex i len).

(** [usize::try_from(idx).ok().and_then(..)]. *)
Definition get_utxo_i32 (p : PopulatedTransaction) (i : Z) : vmM UtxoEntry :=
  if i <? 0 then throw (InvalidInputIndex i (length (inputs (ptx p)))) else get_utxo p i.
Definition get_output_i32 (p : PopulatedTransaction) (i : Z) : vmM TransactionOutput :=
  if i <? 0 then throw (InvalidOutputIndex i (length (inputs (ptx p)))) else get_output p i (length (inputs (ptx p))).

(** [u64::try_into] to [i64]. *)
Definition push_u64 (x : Z) : vmM () := if x <? 2 ^ 63 then push_number x else throw NumberTooBig.

Definition op_tx_version : vmM () := cov_tx OpcodeReserved (λ p _, push_number (as_i64 (version (ptx p)))).
Definition op_tx_input_count : vmM () := with_tx (λ p _, push_number (as_i64 (zlen (inputs (ptx p))))).
Definition op_tx_output_count : vmM () := with_tx (λ p _, push_number (as_i64 (zlen (outputs (ptx p))))).
Definition op_tx_lock_time : vmM () := cov_tx OpcodeReserved (λ p _, push_number (as_i64 (lock_time (ptx p)))).
Definition op_tx_subnet_id : vmM () := cov_tx OpcodeReserved (λ p _, push_data (subnetwork_id (ptx p))).
Definition op_tx_gas : vmM () := cov_tx OpcodeReserved (λ p _, push_number (as_i64 (gas (ptx p)))).
Definition op_tx_payload_substr : vmM () := cov_tx OpcodeReserved (λ p _,
  '(start, stop) ← pop_index_2;
  substr ← lift_res (substring (payload (ptx p)) start stop);
  push_data substr).
Definition op_tx_input_index : vmM () := with_tx (λ _ i, push_number (as_i64 (Z.of_nat i))).
Definition op_outpoint_tx_id : vmM () := cov_tx OpcodeReserved (λ p _,
  i ← pop_index; input ← get_input p i; push_data (transaction_id (previous_outpoint input))).
Definition op_outpoint_index : vmM () := cov_tx OpcodeReserved (λ p _,
  i ← pop_index; input ← get_input p i; push_number (as_i64 (outpoint_index (previous_outpoint input)))).
Definition op_tx_input_script_sig_substr : vmM () := cov_tx OpcodeReserved (λ p _,
  '(i, start, stop) ← pop_index_3;
  input ← get_input p i;
  substr ← lift_res (substring (signature_script input) start stop);
  push_data substr).
Definition op_tx_input_seq : vmM () := cov_tx OpcodeReserved (λ p _,
  i ← pop_index; input ← get_input p i; push_data (le_bytes 8 (sequence input))).
Definition op_tx_input_amount : vmM () := with_tx (λ p _,
  i ← pop_i32_1; utxo ← get_utxo_i32 p i; push_u64 (amount utxo)).
Definition op_tx_input_spk : vmM () := with_tx (λ p _,
  i ← pop_i32_1; utxo ← get_utxo_i32 p i; on_dstack (stack_push (spk_to_bytes (entry_spk utxo)))).
Definition op_tx_input_daa_score : vmM () := cov_tx InvalidOpcode (λ p _,
  i ← pop_index; utxo ← get_utxo p i; push_number (as_i64 (block_daa_score utxo))).
Definition op_tx_input_is_coinbase : vmM () := cov_tx OpcodeReserved (λ p _,
  i ← pop_index; utxo ← get_utxo p i; push_number (Z.b2z (is_coinbase_entry utxo))).
Definition op_tx_output_amount : vmM () := with_tx (λ p _,
  i ← pop_i32_1; output ← get_output_i32 p i; push_u64 (out_value output)).
Definition op_tx_output_spk : vmM () := with_tx (λ p _,
  i ← pop_i32_1; output ← get_output_i32 p i; on_dstack (stack_push (spk_to_bytes (out_spk output)))).
Definition op_tx_payload_len : vmM () := cov_tx InvalidOpcode (λ p _, push_number (as_i64 (zlen (payload (ptx p))))).
Definition op_tx_input_spk_len : vmM () := cov_tx InvalidOpcode (λ p _,
  i ← pop_index; utxo ← get_utxo p i; push_number (as_i64 (zlen (spk_to_bytes (entry_spk utxo))))).
Definition op_tx_input_spk_substr : vmM () := cov_tx InvalidOpcode (λ p _,
  '(i, start, stop) ← pop_index_3;
  utxo ← get_utxo p i;
  substr ← lift_res (substring (spk_to_bytes (entry_spk utxo)) start stop);
  push_data substr).
Definition op_tx_output_spk_len : vmM () := cov_tx InvalidOpcode (λ p _,
  i ← pop_index;
  output ← get_output p i (length (outputs (ptx p)));
  push_number (as_i64 (zlen (spk_to_bytes (out_spk output))))).
Definition op_tx_output_spk_substr : vmM () := cov_tx InvalidOpcode (λ p _,
  '(i, start, stop) ← pop_index_3;
  output ← get_output p i (length (outputs (ptx p)));
  substr ← lift_res (substring (spk_to_bytes (out_spk output)) start stop);
  push_data substr).
Definition op_tx_input_script_sig_len : vmM () := cov_tx InvalidOpcode (λ p _,
  i ← pop_index; input ← get_input p i; push_number (as_i64 (zlen (signature_script input)))).

(** ** Covenants *)

(** [if input_idx >= tx.inputs().len()]. *)
Definition check_input_index (p : PopulatedTransaction) (i : Z) : vmM () :=
  if zlen (inputs (ptx p)) <=? i then throw (InvalidInputIndex i (length (inputs (ptx p)))) else ok tt.

Definition op_auth_output_count : vmM () := cov_tx InvalidOpcode (λ p _,
  i ← pop_index;
  _ ← check_input_index p i;
  push_number (as_i64 (Z.of_nat (num_auth_outputs (covenants_ctx env) (Z.to_nat i))))).
Definition op_auth_output_idx : vmM () := cov_tx InvalidOpcode (λ p _,
  '(i, k) ← pop_index_2;
  _ ← check_input_index p i;
  out ← lift_res (map_err CovenantsErr (auth_output_index (covenants_ctx env) (Z.to_nat i) (Z.to_nat k)));
  push_number (as_i64 (Z.of_nat out))).
Definition op_input_covenant_id : vmM () := cov_tx InvalidOpcode (λ p _,
  i ← pop_index; utxo ← get_utxo p i; push_data (default ZERO_HASH (entry_covenant_id utxo))).
Definition op_cov_input_count : vmM () := cov_tx InvalidOpcode (λ p _,
  id ← pop_hash; push_number (as_i64 (Z.of_nat (num_covenant_inputs (covenants_ctx env) id)))).
Definition op_cov_input_idx : vmM () := cov_tx InvalidOpcode (λ p _,
  k ← pop_index;
  id ← pop_hash;
  i ← lift_res (map_err CovenantsErr (covenant_input_index (covenants_ctx env) id (Z.to_nat k)));
  push_number (as_i64 (Z.of_nat i))).
Definition op_cov_output_count : vmM () := cov_tx InvalidOpcode (λ p _,
  id ← pop_hash; push_number (as_i64 (Z.of_nat (num_covenant_outputs (covenants_ctx env) id)))).
Definition op_cov_output_idx : vmM () := cov_tx InvalidOpcode (λ p _,
  k ← pop_index;
  id ← pop_hash;
  i ← lift_res (map_err CovenantsErr (covenant_output_index (covenants_ctx env) id (Z.to_nat k)));
  push_number (as_i64 (Z.of_nat i))).
Definition op_output_covenant_id : vmM () := cov_tx InvalidOpcode (λ p _,
  i ← pop_index;
  output ← get_output p i (length (inputs (ptx p)));
  push_data (from_option binding_covenant_id ZERO_HASH (out_covenant output))).
Definition op_output_authorizing_input : vmM () := cov_tx InvalidOpcode (λ p _,
  i ← pop_index;
  output ← get_output p i (length (inputs (ptx p)));
  push_number (from_option authorizing_input (-1) (out_covenant output))).

Definition op_chainblock_seq_commit : vmM () :=
  match seq_commit_accessor env with
  | None => throw InvalidOpcode
  | Some acc =>
      block ← pop_hash;
      match is_chain_ancestor_from_pov acc block with
      | None => throw BlockAlreadyPruned
      | Some false => throw BlockNotSelected
      | Some true =>
          commitment ← or_throw (seq_commitment_within_depth acc block) BlockIsTooDeep;
          push_hash commitment
      end
  end.
End opcodes.
