(* ===== verification/ScriptExec.v ===== *)
(** * Script execution (crypto/txscript/src/lib.rs, opcodes/mod.rs, caches.rs)

    Signature checks with their cache and the memo of signature hashes, the
    dispatch of opcodes, and the execution of the scripts of an input. *)

From S2P Require Import Prelude Bytes Transaction Sighash Covenants StateMonad ScriptNum ScriptStack.
From S2P Require Import ScriptMeter ScriptParse ScriptState ZkPrecompiles ScriptOps.

(** ** The signature cache (caches.rs)

    An [IndexMap] of bounded size in which a random entry makes room for a new one.
    The draws of the random number generator are a field.  Hit counters are not
    modelled. *)
Record Cache (K V : Type) := mkCache {
  c_map : list (K * V);
  c_size : nat;
  c_rng : nat → nat;
  c_draws : nat;
}.
Arguments mkCache {K V}.
Arguments c_map {K V}.
Arguments c_size {K V}.
Arguments c_rng {K V}.
Arguments c_draws {K V}.

Section cache.
Context {K V : Type} `{EqDecision K}.

Definition cache_new (size : nat) (rng : nat → nat) : Cache K V := mkCache [] size rng 0.

Fixpoint assoc (k : K) (l : list (K * V)) : option V :=
  match l with
  | [] => None
  | (k', v) :: l => if bool_decide (k' = k) then Some v else assoc k l
  end.

(** [IndexMap::insert]: in place when the key is there, else at the end. *)
Fixpoint assoc_insert (k : K) (v : V) (l : list (K * V)) : list (K * V) :=
  match l with
  | [] => [(k, v)]
  | (k', v') :: l => if bool_decide (k' = k) then (k', v) :: l else (k', v') :: assoc_insert k v l
  end.

(** [IndexMap::swap_remove_index]: the last entry takes the place of the removed one. *)
Definition swap_remove_index (i : nat) (l : list (K * V)) : list (K * V) :=
  match last l with
  | Some x => take (length l - 1) (<[i := x]> l)
  | None => l
  end.

Definition cache_get (k : K) (c : Cache K V) : option V := assoc k (c_map c).

Definition cache_insert (k : K) (v : V) (c : Cache K V) : Cache K V :=
  if (c_size c =? 0)%nat then c
  else if (length (c_map c) =? c_size c)%nat then
    let i := (c_rng c (c_draws c) mod c_size c)%nat in
    mkCache (assoc_insert k v (swap_remove_index i (c_map c))) (c_size c) (c_rng c) (S (c_draws c))
  else mkCache (assoc_insert k v (c_map c)) (c_size c) (c_rng c) (c_draws c).

(** Every entry of the cache satisfies [P]. *)
Definition cache_all (P : K → V → Prop) (c : Cache K V) : Prop := Forall (λ x, P x.1 x.2) (c_map c).

Lemma cache_get_all P k v c : cache_all P c → cache_get k c = Some v → P k v.
Proof.
  unfold cache_all, cache_get. induction 1 as [|[k' v'] l Hx Hl IH]; simpl; [done|].
  case_bool_decide; [|done]. intros [= <-]. by subst.
Qed.

Lemma assoc_insert_all (P : K → V → Prop) k v l :
  P k v → Forall (λ x, P x.1 x.2) l → Forall (λ x, P x.1 x.2) (assoc_insert k v l).
Proof.
  intros Hk. induction 1 as [|[k' v'] l Hx Hl IH]; simpl; [by repeat constructor|].
  case_bool_decide; subst; by constructor.
Qed.

Lemma swap_remove_all (P : K * V → Prop) i l : Forall P l → Forall P (swap_remove_index i l).
Proof.
  intros Hl. unfold swap_remove_index. destruct (last l) as [x|] eqn:Hx; [|done].
  apply Forall_take, Forall_insert; [done|]. rewrite last_lookup in Hx. exact (Forall_lookup_1 _ _ _ _ Hl Hx).
Qed.

Lemma cache_insert_all P k v c : P k v → cache_all P c → cache_all P (cache_insert k v c).
Proof.
  intros Hk Hc. unfold cache_insert, cache_all in *. repeat case_match; simpl; [done|..];
    apply assoc_insert_all; try done. by apply swap_remove_all.
Qed.
End cache.

(** ** Limits *)

Abbreviation MAX_STACK_SIZE := (244)%nat (only parsing).
Abbreviation MAX_SCRIPTS_SIZE_PRE_TOCCATA := (10000)%Z (only parsing).
Abbreviation MAX_SCRIPTS_SIZE_POST_TOCCATA := (1000000)%Z (only parsing).
Abbreviation STANDARD_SCRIPT_PUB_KEY_MAX_SIZE := (35)%Z (only parsing).

(** ** Signatures *)

(** The parts of secp256k1 that are used: parsing and verification. *)
Class SigCrypto := {
  XOnlyKey : Type; SchnorrSig : Type; EcdsaKey : Type; EcdsaSig : Type;
  #[global] xonly_eq_dec :: EqDecision XOnlyKey;
  #[global] schnorr_eq_dec :: EqDecision SchnorrSig;
  #[global] ecdsa_key_eq_dec :: EqDecision EcdsaKey;
  #[global] ecdsa_sig_eq_dec :: EqDecision EcdsaSig;
  xonly_from_slice : bytes → option XOnlyKey;
  schnorr_from_slice : bytes → option SchnorrSig;
  ecdsa_key_from_slice : bytes → option EcdsaKey;
  ecdsa_from_compact : bytes → option EcdsaSig;
  schnorr_verify : SchnorrSig → Hash → XOnlyKey → bool;
  ecdsa_verify : EcdsaSig → Hash → EcdsaKey → bool;
}.

Section exec.
Context `{SigningHashes} `{SigCrypto} `{ScriptHashes} `{ZkLibs}.

(** [SigCacheKey], with the kinds of its signature and public key in step, as the
    engine builds it. *)
Inductive SigCacheKey :=
| KeySchnorr (sig : SchnorrSig) (pk : XOnlyKey) (message : Hash)
| KeyEcdsa (sig : EcdsaSig) (pk : EcdsaKey) (message : Hash).

#[global] Instance sig_cache_key_eq_dec : EqDecision SigCacheKey.
Proof. solve_decision. Defined.

(** What the cache is to remember of a key. *)
Definition verify_key (k : SigCacheKey) : bool :=
  match k with
  | KeySchnorr sig pk m => schnorr_verify sig m pk
  | KeyEcdsa sig pk m => ecdsa_verify sig m pk
  end.

(** The engine: its state, the memo of signature hashes and the signature cache. *)
Record Engine := mkEngine {
  es : EngineState;
  reused : SigHashReusedValues;
  sig_cache : Cache SigCacheKey bool;
}.
Abbreviation engM := (stm TxScriptError Engine).

Definition set_es (s : EngineState) (e : Engine) : Engine := mkEngine s (reused e) (sig_cache e).
Definition lift {A} (m : vmM A) : engM A := zoom es set_es m.

Context (env : Env).
Abbreviation cov := (covenants (flags env)).

(** The lookup in the cache, or the verification and its insertion. *)
Definition cached_verify (k : SigCacheKey) : engM bool := λ e,
  match cache_get k (sig_cache e) with
  | Some valid => Ok (valid, e)
  | None =>
      let valid := verify_key k in
      Ok (valid, mkEngine (es e) (reused e) (cache_insert k valid (sig_cache e)))
  end.

(** The closure that computes the message, which may update the memo. *)
Abbreviation msg_fn := (SigHashReusedValues → res TxScriptError (Hash * SigHashReusedValues)).
Definition message (f : msg_fn) : engM Hash := λ e,
  match f (reused e) with
  | Ok (h, r) => Ok (h, mkEngine (es e) r (sig_cache e))
  | Err x => Err x
  | Panic => Panic
  end.

Definition check_schnorr_signature_with_msg_hash (key sig : bytes) (msg_hash : msg_fn) : engM bool :=
  _ ← lift (consume_sig_op_cost 1);
  pk ← or_throw (xonly_from_slice key) InvalidPubkey;
  sig ← or_throw (schnorr_from_slice sig) InvalidSignature;
  m ← message msg_hash;
  cached_verify (KeySchnorr sig pk m).

Definition check_schnorr_signature (hash_type : Z) (key sig : bytes) : engM bool :=
  match script_source env with
  | TxInput p _ i _ _ => check_schnorr_signature_with_msg_hash key sig (calc_schnorr_signature_hash p i hash_type)
  | StandAloneScripts _ => throw NotATransactionInput
  end.

Definition check_pub_key_encoding_ecdsa (key : bytes) : res TxScriptError () :=
  if (length key =? 33)%nat then Ok tt else Err PubKeyFormat.

Definition check_ecdsa_signature_with_msg_hash (key sig : bytes) (msg_hash : msg_fn) : engM bool :=
  _ ← lift (consume_sig_op_cost 1);
  _ ← lift_res (check_pub_key_encoding_ecdsa key);
  pk ← or_throw (ecdsa_key_from_slice key) InvalidPubkey;
  sig ← or_throw (ecdsa_from_compact sig) InvalidSignature;
  m ← message msg_hash;
  cached_verify (KeyEcdsa sig pk m).

Definition check_ecdsa_signature (hash_type : Z) (key sig : bytes) : engM bool :=
  match script_source env with
  | TxInput p _ i _ _ => check_ecdsa_signature_with_msg_hash key sig (calc_ecdsa_signature_hash p i hash_type)
  | StandAloneScripts _ => throw NotATransactionInput
  end.

(** [OpCheckSig] and [OpCheckSigECDSA]: the last byte of the signature is its type. *)
Definition check_sig_with (check : Z → bytes → bytes → engM bool) : engM () :=
  '(sig, key) ← lift pop_raw_2;
  match last sig with
  | Some typ =>
      hash_type ← or_throw (sighash_type_from_u8 typ) (InvalidSigHashType typ);
      valid ← check hash_type key (take (length sig - 1) sig);
      lift (push_bool valid)
  | None => lift (push_bool false)
  end.
Definition op_check_sig : engM () := check_sig_with check_schnorr_signature.
Definition op_check_sig_ecdsa : engM () := check_sig_with check_ecdsa_signature.

Definition verify_after (m : engM ()) : engM () := _ ← m; lift op_verify.
Definition op_check_sig_verify : engM () := verify_after op_check_sig.

(** [OpCheckSigFromStack] and its ECDSA form. *)
Definition check_sig_from_stack (check : bytes → bytes → msg_fn → engM bool) : engM () :=
  if cov then
    '(signature, msg_hash, pubkey) ← lift pop_raw_3;
    if negb (length msg_hash =? 32)%nat then throw InvalidState
    else
      valid ← check pubkey signature (λ r, Ok (msg_hash, r));
      lift (push_bool valid)
  else throw InvalidOpcode.
Definition op_check_sig_from_stack : engM () := check_sig_from_stack check_schnorr_signature_with_msg_hash.
Definition op_check_sig_from_stack_ecdsa : engM () := check_sig_from_stack check_ecdsa_signature_with_msg_hash.

(** *** Multisig *)

(** The inner loop: the keys left after the one the signature is valid for, or [None]
    when fewer keys than signatures are left.  [need] is [num_sigs - sig_idx]. *)
Fixpoint multisig_keys (check : bytes → engM bool) (need : nat) (keys : list bytes) : engM (option (list bytes)) :=
  if (length keys <? need)%nat then ok None
  else
    match keys with
    | [] => panic
    | key :: keys =>
        valid ← check key;
        if (valid : bool) then ok (Some keys) else multisig_keys check need keys
    end.

(** The outer loop; the result is [failed]. *)
Fixpoint multisig_sigs (check : Z → bytes → bytes → engM bool) (sigs keys : list bytes) : engM bool :=
  match sigs with
  | [] => ok false
  | signature :: rest =>
      match last signature with
      | None => ok true
      | Some typ =>
          hash_type ← or_throw (sighash_type_from_u8 typ) (InvalidSigHashType typ);
          left ← multisig_keys (λ key, check hash_type key (take (length signature - 1) signature))
                   (length sigs) keys;
          match left with
          | None => ok true
          | Some keys => multisig_sigs check rest keys
          end
      end
  end.

(** [self.dstack.split_off(len - n)], when there are that many entries. *)
Definition split_top (n : nat) : vmM (list bytes) :=
  len ← gets (λ s, depth (dstack s));
  if (n <=? len)%nat then on_dstack (split_off (len - n))
  else throw (InvalidStackOperation (Z.of_nat n) (Z.of_nat len)).

(** [self.num_ops += k] and its check. *)
Definition add_ops (k : Z) : vmM () :=
  n ← gets num_ops;
  n ← lift_res (signed_p 32 (n + k));
  _ ← modify (set_num_ops n);
  if max_ops_per_script cov <? n then throw (TooManyOperations (max_ops_per_script cov)) else ok tt.

(** The operands of a multisig: the signatures and the keys. *)
Definition pop_multisig : vmM (list bytes * list bytes) :=
  num_keys ← pop_i32_1;
  if num_keys <? 0 then throw InvalidPubKeyCount
  else if MAX_PUB_KEYS_PER_MUTLTISIG <? num_keys then throw InvalidPubKeyCount
  else
    _ ← add_ops num_keys;
    pub_keys ← split_top (Z.to_nat num_keys);
    num_sigs ← pop_i32_1;
    if num_sigs <? 0 then throw InvalidSignatureCount
    else if num_keys <? num_sigs then throw InvalidSignatureCount
    else
      signatures ← split_top (Z.to_nat num_sigs);
      ok (signatures, pub_keys).

Definition op_check_multisig_schnorr_or_ecdsa (ecdsa : bool) : engM () :=
  '(signatures, pub_keys) ← lift pop_multisig;
  failed ← multisig_sigs (if ecdsa then check_ecdsa_signature else check_schnorr_signature) signatures pub_keys;
  if failed && existsb (λ sig, negb (is_empty sig)) signatures then throw NullFail
  else lift (push_bool (negb failed)).

(** ** Dispatch *)

(** The opcodes that do not check signatures. *)
Definition execute_plain (op : OpCode) : vmM () :=
  let v := value op in
  if v =? OpFalse then push_literal_data []
  else if v <=? OpPushData4 then push_literal_data (op_data op)
  else if v =? Op1Negate then push_literal_number (-1)
  else if (OpTrue <=? v) && (v <=? Op16) then push_literal_number (v - (OpTrue - 1))
  else
    match v with
    | 97 => ok tt
    | 80 | 98 | 101 | 102 | 137 | 138 => throw OpcodeReserved
    | 99 => op_if cov
    | 100 => op_not_if cov
    | 103 => op_else
    | 104 => op_end_if
    | 105 => op_verify
    | 106 => throw EarlyReturn
    | 107 => op_to_alt_stack
    | 108 => op_from_alt_stack
    | 109 => on_dstack (drop_items 2)
    | 110 => on_dstack (dup_items 2)
    | 111 => on_dstack (dup_items 3)
    | 112 => on_dstack (over_items 2)
    | 113 => on_dstack (rot_items 2)
    | 114 => on_dstack (swap_items 2)
    | 115 => op_if_dup
    | 116 => op_depth
    | 117 => on_dstack (drop_items 1)
    | 118 => on_dstack (dup_items 1)
    | 119 => op_nip
    | 120 => on_dstack (over_items 1)
    | 121 => op_pick
    | 122 => op_roll
    | 123 => on_dstack (rot_items 1)
    | 124 => on_dstack (swap_items 1)
    | 125 => op_tuck
    | 126 => op_cat cov
    | 127 => op_substr cov
    | 128 | 129 | 141 | 142 | 152 | 153 => throw OpcodeDisabled
    | 130 => op_size
    | 131 => op_invert cov
    | 132 => op_and cov
    | 133 => op_or cov
    | 134 => op_xor cov
    | 135 => op_equal
    | 136 => op_equal_verify
    | 139 => op_1add
    | 140 => op_1sub
    | 143 => op_negate
    | 144 => op_abs
    | 145 => op_not
    | 146 => op_0notequal
    | 147 => op_add
    | 148 => op_sub
    | 149 => op_mul cov
    | 150 => op_div cov
    | 151 => op_mod cov
    | 154 => op_bool_and
    | 155 => op_bool_or
    | 156 => op_num_equal
    | 157 => op_num_equal_verify
    | 158 => op_num_not_equal
    | 159 => op_less_than
    | 160 => op_greater_than
    | 161 => op_less_than_or_equal
    | 162 => op_greater_than_or_equal
    | 163 => op_min
    | 164 => op_max
    | 165 => op_within
    | 166 => op_zk_precompile env
    | 167 => op_blake2b_with_key env
    | 168 => op_sha256
    | 170 => op_blake2b
    | 176 => op_check_lock_time_verify env
    | 177 => op_check_sequence_verify env
    | 178 => op_tx_version env
    | 179 => op_tx_input_count env
    | 180 => op_tx_output_count env
    | 181 => op_tx_lock_time env
    | 182 => op_tx_subnet_id env
    | 183 => op_tx_gas env
    | 184 => op_tx_payload_substr env
    | 185 => op_tx_input_index env
    | 186 => op_outpoint_tx_id env
    | 187 => op_outpoint_index env
    | 188 => op_tx_input_script_sig_substr env
    | 189 => op_tx_input_seq env
    | 190 => op_tx_input_amount env
    | 191 => op_tx_input_spk env
    | 192 => op_tx_input_daa_score env
    | 193 => op_tx_input_is_coinbase env
    | 194 => op_tx_output_amount env
    | 195 => op_tx_output_spk env
    | 196 => op_tx_payload_len env
    | 197 => op_tx_input_spk_len env
    | 198 => op_tx_input_spk_substr env
    | 199 => op_tx_output_spk_len env
    | 200 => op_tx_output_spk_substr env
    | 201 => op_tx_input_script_sig_len env
    | 203 => op_auth_output_count env
    | 204 => op_auth_output_idx env
    | 205 => op_num2bin cov
    | 206 => op_bin2num cov
    | 207 => op_input_covenant_id env
    | 208 => op_cov_input_count env
    | 209 => op_cov_input_idx env
    | 210 => op_cov_output_count env
    | 211 => op_cov_output_idx env
    | 212 => op_chainblock_seq_commit env
    | 213 => op_output_covenant_id env
    | 214 => op_output_authorizing_input env
    | 217 => op_blake3 env
    | 218 => op_blake3_with_key env
    | _ => throw InvalidOpcode
    end.

Definition op_execute (op : OpCode) : engM () :=
  match value op with
  | 169 => op_check_multisig_schnorr_or_ecdsa true
  | 171 => op_check_sig_ecdsa
  | 172 => op_check_sig
  | 173 => op_check_sig_verify
  | 174 => op_check_multisig_schnorr_or_ecdsa false
  | 175 => verify_after (op_check_multisig_schnorr_or_ecdsa false)
  | 215 => op_check_sig_from_stack
  | 216 => op_check_sig_from_stack_ecdsa
  | _ => lift (execute_plain op)
  end.

(** ** Execution *)

Definition max_scripts_size (covenants : bool) : Z :=
  if covenants then MAX_SCRIPTS_SIZE_POST_TOCCATA else MAX_SCRIPTS_SIZE_PRE_TOCCATA.

(** The operation count and the element size limit. *)
Definition count_opcode (op : OpCode) : vmM () :=
  if negb (is_push_opcode (value op)) then add_ops 1
  else if max_script_element_size cov <? zlen (op_data op)
  then throw (ElementTooBig (zlen (op_data op)) (max_script_element_size cov))
  else ok tt.

Definition execute_opcode (op : OpCode) : engM () :=
  _ ← lift (count_opcode op);
  executing ← gets (λ e, is_executing (es e));
  if executing || is_conditional (value op) then
    _ ← lift_res (if negb cov && (0 <? value op) && (value op <=? OpPushData4)
                  then check_minimal_data_push op else Ok tt);
    _ ← op_execute op;
    pushed ← lift pop_pushed_bytes;
    lift (on_meter (charge_newly_pushed_bytes pushed))
  else ok tt.

Definition check_stack_size : vmM () :=
  combined ← gets (λ s, (depth (astack s) + depth (dstack s))%nat);
  if (MAX_STACK_SIZE <? combined)%nat then throw (StackSizeExceeded combined MAX_STACK_SIZE) else ok tt.

(** [parse_script(script).try_for_each(..)]. *)
Fixpoint run_opcodes (verify_only_push : bool) (ops : list (res TxScriptError OpCode)) : engM () :=
  match ops with
  | [] => ok tt
  | op :: ops =>
      op ← lift_res op;
      if is_disabled cov (value op) then throw OpcodeDisabled
      else if always_illegal (value op) then throw OpcodeReserved
      else if verify_only_push && negb (is_push_opcode (value op)) then throw SignatureScriptNotPushOnly
      else
        _ ← execute_opcode op;
        _ ← lift check_stack_size;
        run_opcodes verify_only_push ops
  end.

Definition execute_script (script : bytes) (verify_only_push : bool) : engM () :=
  _ ← run_opcodes verify_only_push (parse_script script);
  cs ← gets (λ e, cond_stack (es e));
  if negb (is_empty cs) then throw ErrUnbalancedConditional
  else lift (modify (λ s, set_num_ops 0 (set_astack (stack_clear (astack s)) s))).

Definition check_error_condition (final_script : bool) : vmM () :=
  len ← gets (λ s, depth (dstack s));
  if final_script && (1 <? len)%nat then throw (CleanStack (len - 1))
  else if final_script && (len =? 0)%nat then throw EmptyStack
  else
    v ← pop_bool;
    if v : bool then ok tt else throw EvalFalse.

Inductive ScriptExecutionOutput := Executed | AcceptedUnknownVersion.

(** The loop over the scripts; the result is [saved_stack]. *)
Fixpoint run_scripts (is_p2sh : bool) (i : nat) (scripts : list bytes) (saved : option Stack) : engM (option Stack) :=
  match scripts with
  | [] => ok saved
  | script :: scripts =>
      if is_empty script then run_scripts is_p2sh (S i) scripts saved
      else
        let verify_only_push :=
          (i =? 0)%nat && match script_source env with TxInput _ _ _ _ _ => true | StandAloneScripts _ => false end in
        d ← gets (λ e, dstack (es e));
        let saved := if is_p2sh && (i =? 1)%nat then Some d else saved in
        _ ← execute_script script verify_only_push;
        run_scripts is_p2sh (S i) scripts saved
  end.

(** Running the scripts after their public key was charged for. *)
Definition execute_scripts (scripts : list bytes) (is_p2sh : bool) (spk_units : Z) : engM ScriptExecutionOutput :=
  _ ← lift (consume_script_units spk_units);
  if is_empty scripts then throw NoScripts
  else if forallb is_empty scripts then throw EvalFalse
  else
    match list_find (λ s : bytes, max_scripts_size cov < zlen s) scripts with
    | Some (_, s) => throw (ScriptSize (zlen s) (max_scripts_size cov))
    | None =>
        saved ← run_scripts is_p2sh 0 scripts None;
        if is_p2sh then
          _ ← lift (check_error_condition false);
          saved ← or_throw saved EmptyStack;
          _ ← lift (modify (set_dstack saved));
          script ← lift (on_dstack stack_pop);
          _ ← execute_script script false;
          ok Executed
        else ok Executed
    end.

Definition execute_inner : engM ScriptExecutionOutput :=
  match script_source env with
  | TxInput _ input _ utxo_entry is_p2sh =>
      if MAX_SCRIPT_PUBLIC_KEY_VERSION <? spk_version (entry_spk utxo_entry) then ok AcceptedUnknownVersion
      else
        let grams := sat_sub64 (zlen (spk_script (entry_spk utxo_entry))) STANDARD_SCRIPT_PUB_KEY_MAX_SIZE in
        units ← lift_res (gram_to_units grams);
        execute_scripts [signature_script input; spk_script (entry_spk utxo_entry)] is_p2sh units
  | StandAloneScripts scripts => execute_scripts scripts false 0
  end.

Definition execute : engM () :=
  out ← execute_inner;
  match out with
  | Executed => lift (check_error_condition true)
  | AcceptedUnknownVersion => ok tt
  end.

Definition execute_and_return_stacks : engM (list StackEntry * list StackEntry) :=
  _ ← execute_inner;
  gets (λ e, (inner (dstack (es e)), inner (astack (es e)))).
End exec.

(** ** Construction *)

Definition new_state (fl : EngineFlags) (m : RuntimeResourceMeter) : EngineState :=
  mkState (stack_new [] (covenants fl)) (stack_new [] (covenants fl)) [] 0 m.

(** [from_transaction_input_with_script_units_limit]: the read-only part and the
    initial state of the engine. *)
Definition from_transaction_input_with_script_units_limit {E} (p : PopulatedTransaction) (input : TransactionInput)
    (i : nat) (utxo_entry : UtxoEntry) (ctx : CovenantsContext) (acc : option SeqCommitAccessor)
    (fl : EngineFlags) (limit : Z) : res E (Env * EngineState) :=
  let m :=
    if covenants fl then ScriptUnits (units_new (sigop_script_units fl) limit)
    else Sigops (counter_new (default 0 (sig_op_count (compute_commit input)))) in
  let is_p2sh := is_pay_to_script_hash (spk_script (entry_spk utxo_entry)) in
  _ ← assert_p (i <? length (inputs (ptx p)))%nat;
  Ok (mkEnv fl (TxInput p input i utxo_entry is_p2sh) ctx acc, new_state fl m).

Definition from_script_with_script_units_limit (script : bytes) (limit : Z) (fl : EngineFlags) : Env * EngineState :=
  let m :=
    if covenants fl then ScriptUnits (units_new (sigop_script_units fl) limit)
    else Sigops (counter_new 255) in
  (mkEnv fl (StandAloneScripts [script]) EMPTY_COV_CONTEXT None, new_state fl m).
