(* ===== verification/ScriptSafety.v ===== *)
(** * Every opcode keeps the engine's invariant and does not panic

    A triple per opcode, by a tactic that follows the structure of the monadic code
    and closes the leaves with the specifications of the stacks and the meter. *)

From S2P Require Import Prelude Bytes Transaction Sighash Covenants StateMonad ScriptNum ScriptStack.
From S2P Require Import ScriptMeter ScriptParse ScriptState ZkPrecompiles ScriptOps ScriptExec.

Create HintDb vm discriminated.
#[export] Hint Opaque get_input get_utxo get_output get_utxo_i32 get_output_i32 : vm.

#[export] Hint Resolve pop_i64_1_spec pop_i64_2_spec pop_i64_3_spec pop_i32_1_spec pop_i32_2_spec pop_i32_3_spec
  pop_raw_1_spec pop_raw_2_spec pop_raw_3_spec pop_bool_spec pop_hash_spec : vm.
#[export] Hint Resolve push_literal_data_spec push_data_spec push_literal_number_spec push_number_spec
  push_bool_spec push_hash_spec consume_script_units_spec consume_sig_op_cost_spec triple_or_throw : vm.
#[export] Hint Resolve as_i64_range checked_i64_range checked_div_range checked_rem_range i64_ok_range : vm.

(** A bounded range is enough for the postconditions: an opcode pushes at most nine times. *)
Abbreviation SAFE c m0 := (λ _ s, state_ok c m0 9 s).

Section safety.
Context (c : bool) (m0 : RuntimeResourceMeter).
Abbreviation OK := (state_ok c m0).

Lemma safe_ok {A} n (a : A) : (n ≤ 9)%nat → triple (E := TxScriptError) (OK n) (ok a) (SAFE c m0).
Proof. intros Hn s Hs. simpl. eapply state_ok_mono; [|exact Hs]. lia. Qed.

Lemma lift_res_spec {A} n (r : res TxScriptError A) :
  r ≠ Panic → triple (OK n) (lift_res r) (λ a s, r = Ok a ∧ OK n s).
Proof. intros Hr. by apply triple_lift_res. Qed.

Lemma gets_spec {A} n (f : EngineState → A) : triple (E := TxScriptError) (OK n) (gets f) (λ _ s, True ∧ OK n s).
Proof. by intros s Hs. Qed.

Lemma dstack_pop_spec n : triple (OK n) (on_dstack stack_pop) (λ x s, entry_ok c x ∧ OK n s).
Proof. apply on_dstack_spec; [done|]. apply stack_pop_spec. Qed.

Lemma astack_pop_spec n : triple (OK n) (on_astack stack_pop) (λ x s, entry_ok c x ∧ OK n s).
Proof. apply on_astack_spec; [done|]. apply stack_pop_spec. Qed.

Lemma dstack_push_spec n x :
  (n < 1000)%nat → is_bytes x → zlen x ≤ 2 ^ 33 →
  triple (OK n) (on_dstack (stack_push x)) (λ _ s, True ∧ OK (S n) s).
Proof. intros. apply on_dstack_spec; [lia|]. by apply stack_push_spec. Qed.

Lemma dstack_push_unmetered_spec n x :
  is_bytes x → zlen x ≤ 2 ^ 33 → triple (OK n) (on_dstack (push_unmetered x)) (λ _ s, True ∧ OK n s).
Proof. intros. by apply on_dstack_spec, push_unmetered_spec. Qed.

Lemma astack_push_unmetered_spec n x :
  is_bytes x → zlen x ≤ 2 ^ 33 → triple (OK n) (on_astack (push_unmetered x)) (λ _ s, True ∧ OK n s).
Proof. intros. by apply on_astack_spec, push_unmetered_spec. Qed.

Lemma entry_bytes x : entry_ok c x → is_bytes x.
Proof. by intros [? _]. Qed.
Lemma entry_small x : entry_ok c x → zlen x ≤ 2 ^ 33.
Proof. intros [_ ?]. pose proof (elem_bound_le c). lia. Qed.
Lemma array_bytes n x : is_array n x → is_bytes x.
Proof. by intros [_ ?]. Qed.
Lemma array_small x : is_array 32 x → zlen x ≤ 2 ^ 33.
Proof. intros [? _]. unfold zlen. lia. Qed.
Lemma b2z_range b : in_i 64 (Z.b2z b).
Proof. by destruct b. Qed.
Lemma i32_to_usize_no_panic x : i32_to_usize x ≠ Panic.
Proof. unfold i32_to_usize. by destruct (x <? 0). Qed.
End safety.

#[export] Hint Resolve lift_res_spec gets_spec dstack_pop_spec astack_pop_spec dstack_push_spec
  dstack_push_unmetered_spec astack_push_unmetered_spec entry_bytes entry_small array_bytes array_small
  b2z_range i32_to_usize_no_panic substring_no_panic : vm.
#[export] Hint Extern 1 (_ < _)%nat => lia : vm.
#[export] Hint Extern 1 (_ ≤ _)%nat => lia : vm.

(** One step along the structure of a computation. *)
Ltac vm_side := eauto 12 with vm.
Ltac vm_step :=
  match goal with
  | |- triple _ (throw _) _ => apply triple_throw
  | |- triple _ (ok _) _ => apply safe_ok; lia
  | |- triple _ (if ?b then _ else _) _ => destruct b eqn:?
  | |- triple _ (match ?x with _ => _ end) _ => destruct x eqn:?
  | |- triple _ (_ ≫= _) _ =>
      eapply triple_bind; [solve [vm_side]|]; intros ?; cbn beta; apply triple_pure; intros ?
  | |- triple _ _ _ =>
      eapply triple_post;
        [solve [vm_side]|intros ? ? [_ ?]; eapply state_ok_mono; [|eassumption]; lia]
  end.
Ltac vm_auto := repeat (vm_step; destruct_and?; simplify_eq; cbn [fst snd] in *).

Section ops.
Context (c : bool) (m0 : RuntimeResourceMeter).
Abbreviation OK := (state_ok c m0).
Abbreviation safe m := (triple (OK 0) m (SAFE c m0)).

Lemma push_cond_spec n x : triple (OK n) (push_cond x) (λ _ s, True ∧ OK n s).
Proof. intros s Hs. by split. Qed.
Lemma set_cond_stack_spec n l :
  triple (E := TxScriptError) (OK n) (modify (set_cond_stack l)) (λ _ s, True ∧ OK n s).
Proof. intros s Hs. by split. Qed.

Lemma pop_condition_spec n : triple (OK n) (pop_condition c) (λ _ s, True ∧ OK n s).
Proof.
  unfold pop_condition. destruct c; [apply pop_bool_spec|].
  eapply triple_bind; [apply dstack_pop_spec|]. intros x. apply triple_pure. intros _.
  repeat case_match; first [apply triple_throw|by intros s Hs].
Qed.

Lemma push_checked_spec n o e :
  (n < 1000)%nat → (∀ x, o = Some x → in_i 64 x) → triple (OK n) (push_checked o e) (λ _ s, True ∧ OK (S n) s).
Proof.
  intros Hn Ho. unfold push_checked. eapply triple_bind; [apply triple_or_throw|]. intros x.
  apply triple_pure. intros Hx. apply push_number_spec; auto.
Qed.
End ops.

#[export] Hint Resolve push_cond_spec set_cond_stack_spec pop_condition_spec push_checked_spec : vm.

Section ops2.
Context (c : bool) (m0 : RuntimeResourceMeter).
Abbreviation OK := (state_ok c m0).
Abbreviation safe m := (triple (OK 0) m (SAFE c m0)).

Lemma safe_if : safe (op_if c).
Proof. unfold op_if. vm_auto. Qed.
Lemma safe_not_if : safe (op_not_if c).
Proof. unfold op_not_if. vm_auto. Qed.
Lemma safe_else : safe op_else.
Proof. unfold op_else. vm_auto. Qed.
Lemma safe_end_if : safe op_end_if.
Proof. unfold op_end_if. vm_auto. Qed.
Lemma safe_verify : safe op_verify.
Proof. unfold op_verify. vm_auto. Qed.
Lemma safe_to_alt : safe op_to_alt_stack.
Proof. unfold op_to_alt_stack. vm_auto. Qed.
Lemma safe_from_alt : safe op_from_alt_stack.
Proof. unfold op_from_alt_stack. vm_auto. Qed.
Lemma safe_depth : safe op_depth.
Proof. unfold op_depth. vm_auto. Qed.

Lemma state_ok_set_dstack n k s d :
  OK n s → stack_ok c k d → (n ≤ 9)%nat → (k ≤ 9)%nat → OK 9 (set_dstack d s).
Proof.
  intros (_ & Ha & Hrest) Hd Hn Hk.
  split_and!; [eapply stack_ok_mono; [|exact Hd]; lia|eapply stack_ok_mono; [|exact Ha]; lia|apply Hrest..].
Qed.

(** Operations on the data stack alone. *)
Lemma safe_dstack (m : stackM ()) k φ :
  (k ≤ 9)%nat → triple (stack_ok c 0) m (λ a s, φ a ∧ stack_ok c k s) → safe (on_dstack m).
Proof.
  intros Hk Hm. eapply triple_post; [eapply on_dstack_spec; [|exact Hm]; lia|].
  intros a s [_ Hs]. eapply state_ok_mono; [|exact Hs]. lia.
Qed.

Lemma safe_drop k : safe (on_dstack (drop_items k)).
Proof. eapply safe_dstack; [|apply drop_items_spec]. lia. Qed.
Lemma safe_dup k : (k ≤ 3)%nat → safe (on_dstack (dup_items k)).
Proof. intros. eapply safe_dstack; [|apply dup_items_spec]; lia. Qed.
Lemma safe_over k : (k ≤ 3)%nat → safe (on_dstack (over_items k)).
Proof. intros. eapply safe_dstack; [|apply over_items_spec]; lia. Qed.
Lemma safe_rot k : safe (on_dstack (rot_items k)).
Proof. eapply safe_dstack; [|apply rot_items_spec]. lia. Qed.
Lemma safe_swap k : safe (on_dstack (swap_items k)).
Proof. eapply safe_dstack; [|apply swap_items_spec]. lia. Qed.

Lemma peek_1_spec n : triple (OK n) (on_dstack (peek_raw 1)) (λ l s, (length l = 1%nat ∧ Forall (entry_ok c) l) ∧ OK n s).
Proof. apply on_dstack_spec; [done|]. apply peek_raw_spec. Qed.

Lemma deserialize_bool_no_panic v : is_bytes v → deserialize_bool v ≠ Panic.
Proof. intros Hv. destruct (deserialize_bool_spec v Hv) as (b & -> & _). done. Qed.

Lemma arr1_vm_spec {A} n (l : list A) (Q : A → Prop) :
  length l = 1%nat → Forall Q l → triple (OK n) (arr1 l) (λ a s, Q a ∧ OK n s).
Proof. apply arr1_spec. Qed.

Lemma safe_if_dup : safe op_if_dup.
Proof.
  unfold op_if_dup. eapply triple_bind; [apply peek_1_spec|]. intros l. apply triple_pure. intros [Hl Hf].
  eapply triple_bind; [by apply (arr1_vm_spec 0 l (entry_ok c))|]. intros x. apply triple_pure. intros Hx.
  pose proof (deserialize_bool_no_panic x (entry_bytes _ _ Hx)). vm_auto.
Qed.

(** The depth of the data stack, remembered. *)
Lemma gets_depth_spec n :
  triple (E := TxScriptError) (OK n) (gets (λ s, depth (dstack s))) (λ len s, len = depth (dstack s) ∧ OK n s).
Proof. by intros s Hs. Qed.

Lemma dstack_at_spec n i :
  triple (λ s, (i < depth (dstack s))%nat ∧ OK n s) (dstack_at i) (λ x s, entry_ok c x ∧ OK n s).
Proof.
  intros s [Hi Hs]. unfold dstack_at. destruct (lookup_lt_is_Some_2 (inner (dstack s)) i Hi) as [x Hx].
  rewrite Hx. split; [|done]. destruct Hs as ((_ & Hf & _) & _). exact (Forall_lookup_1 _ _ _ _ Hf Hx).
Qed.

Lemma safe_nip : safe op_nip.
Proof.
  unfold op_nip. eapply triple_bind; [apply gets_depth_spec|]. intros len s [Hlen Hs].
  destruct (Nat.leb_spec 2 len) as [Hle|]; [|done]. unfold mbind, stm_mbind, on_dstack, zoom, stack_remove.
  destruct (lookup_lt_is_Some_2 (inner (dstack s)) (len - 2)) as [x Hx]; [unfold depth in Hlen; lia|].
  rewrite Hx. simpl. pose proof Hs as (Hd & _). pose proof Hd as (_ & Hf & _).
  apply (state_ok_set_dstack 0 0 s); [done| |lia|lia]. apply stack_ok_set_inner; [done|].
  apply Forall_app. split; [by apply Forall_take|by apply Forall_drop].
Qed.

Lemma safe_pick : safe op_pick.
Proof.
  unfold op_pick. eapply triple_bind; [apply pop_i32_1_spec|]. intros loc. apply triple_pure. intros _.
  eapply triple_bind; [apply gets_depth_spec|]. intros len.
  destruct (_ || _) eqn:Hr; [apply triple_throw|]. apply orb_false_iff in Hr as [H1%Z.ltb_ge H2%Z.leb_gt].
  eapply triple_bind.
  { eapply triple_conseq; [apply dstack_at_spec| |by intros a s Ha; exact Ha].
    intros s [-> Hs]. split; [lia|exact Hs]. }
  intros x. apply triple_pure. intros Hx. vm_auto.
Qed.

Lemma safe_roll : safe op_roll.
Proof.
  unfold op_roll. eapply triple_bind; [apply pop_i32_1_spec|]. intros loc. apply triple_pure. intros _.
  eapply triple_bind; [apply gets_spec|]. intros len. apply triple_pure. intros _.
  destruct (_ || _); [apply triple_throw|]. eapply safe_dstack; [|apply roll_spec]. lia.
Qed.

Lemma stack_insert_spec n i x :
  (n < 1000)%nat → entry_ok c x →
  triple (λ s, (i ≤ depth s)%nat ∧ stack_ok c n s) (stack_insert i x) (λ _ s, True ∧ stack_ok c (S n) s).
Proof.
  intros Hn Hx s [Hi Hs]. pose proof (check_element_size_spec c n x (entry_bytes _ _ Hx) (entry_small _ _ Hx) s Hs) as H1.
  unfold stack_insert, mbind, stm_mbind. destruct (check_element_size x s) as [[[] s1]| |] eqn:Hc; [|done..].
  assert (s1 = s) as ->.
  { unfold check_element_size, gets, mbind, stm_mbind, throw, ok in Hc. destruct (_ <? _); congruence. }
  pose proof (add_pushed_bytes_spec c n (zlen x) Hn (entry_metered _ _ Hx) s Hs) as H2.
  destruct (add_pushed_bytes (zlen x) s) as [[[] s2]| |] eqn:Ha; [|done..]. destruct H2 as [_ H2].
  assert (inner s2 = inner s) as Hinner.
  { unfold add_pushed_bytes in Ha. destruct (checked_add _ _ _); [|done]. by injection Ha as <-. }
  unfold vec_insert, depth. rewrite Hinner, (proj2 (Nat.leb_le _ _)) by done. split; [done|].
  pose proof H2 as (_ & Hf & _). rewrite Hinner in Hf. apply stack_ok_set_inner; [done|].
  apply Forall_app. split; [by apply Forall_take|]. constructor; [done|]. by apply Forall_drop.
Qed.

Lemma safe_tuck : safe op_tuck.
Proof.
  unfold op_tuck. eapply triple_bind; [apply gets_depth_spec|]. intros len s [Hlen Hs].
  destruct (Nat.leb_spec 2 len) as [Hle|]; [|done].
  pose proof (dstack_at_spec 0 (len - 1) s) as H1. unfold mbind, stm_mbind.
  destruct (dstack_at (len - 1) s) as [[x s1]| |] eqn:Hat; [| done|apply H1; split; [lia|done]].
  assert (s1 = s) as -> by (unfold dstack_at in Hat; destruct (inner (dstack s) !! _); [by injection Hat|done]).
  destruct H1 as [Hx _]; [split; [lia|done]|]. unfold on_dstack, zoom.
  pose proof (stack_insert_spec 0 (len - 2) x ltac:(lia) Hx (dstack s)) as H2.
  pose proof Hs as (Hd & _).
  destruct (stack_insert (len - 2) x (dstack s)) as [[[] d]| |]; [|done|apply H2; split; [lia|done]].
  destruct H2 as [_ H2]; [split; [lia|done]|]. by apply (state_ok_set_dstack 0 1 s); [..|lia|lia].
Qed.
End ops2.

Section ops3.
Context (c : bool) (m0 : RuntimeResourceMeter).
Abbreviation OK := (state_ok c m0).
Abbreviation safe m := (triple (OK 0) m (SAFE c m0)).

Lemma bytes_app_small (a b : bytes) : entry_ok true a → entry_ok true b → is_bytes (a ++ b) ∧ zlen (a ++ b) ≤ 2 ^ 33.
Proof.
  intros [Ha La] [Hb Lb]. split; [by apply is_bytes_app|]. unfold zlen, elem_bound in *.
  rewrite length_app. lia.
Qed.

Lemma safe_cat : safe (op_cat c).
Proof.
  unfold op_cat. destruct c eqn:Hc; [|apply triple_throw].
  eapply triple_bind; [apply dstack_pop_spec|]. intros b. apply triple_pure. intros Hb.
  eapply triple_bind; [apply dstack_pop_spec|]. intros a. apply triple_pure. intros Ha.
  destruct (bytes_app_small a b Ha Hb). vm_auto.
Qed.

Lemma substring_bytes data start stop d : substring data start stop = Ok d → is_bytes data → is_bytes d.
Proof. intros Hs Hd. by apply substring_ok in Hs as [? _]. Qed.
Lemma substring_small data start stop d : substring data start stop = Ok d → is_bytes data → zlen d ≤ 2 ^ 33.
Proof. intros Hs Hd. apply substring_ok in Hs as [_ ?]; [|done]. lia. Qed.

Hint Resolve substring_bytes substring_small : vm.

Lemma safe_substr : safe (op_substr c).
Proof. unfold op_substr. vm_auto. Qed.

Lemma small_range x : 0 ≤ x → x < 2 ^ 63 → in_i 64 x.
Proof. unfold in_i. change (64 - 1) with 63. lia. Qed.

Lemma safe_size : safe op_size.
Proof.
  unfold op_size. eapply triple_bind; [apply gets_spec|]. intros o. apply triple_pure. intros _.
  destruct o as [x|]; [|apply triple_throw]. destruct (Z.ltb_spec (zlen x) (2 ^ 63)); [|apply triple_throw].
  pose proof (small_range (zlen x) (zlen_nonneg x)). vm_auto.
Qed.

Lemma lxor_byte a b : in_u 8 a → in_u 8 b → in_u 8 (Z.lxor a b).
Proof. by apply lxor_range. Qed.
Lemma land_byte a b : in_u 8 a → in_u 8 b → in_u 8 (Z.land a b).
Proof.
  unfold in_u. intros Ha Hb. split; [apply Z.land_nonneg; lia|].
  destruct (decide (Z.land a b = 0)) as [->|Hne]; [done|].
  assert (0 ≤ Z.land a b) by (apply Z.land_nonneg; lia). apply Z.log2_lt_pow2; [lia|].
  pose proof (Z.log2_land a b ltac:(lia) ltac:(lia)). pose proof (Z.log2_le_mono a 255 ltac:(lia)).
  change (Z.log2 255) with 7 in *. lia.
Qed.
Lemma lor_byte a b : in_u 8 a → in_u 8 b → in_u 8 (Z.lor a b).
Proof.
  unfold in_u. intros Ha Hb. split; [apply Z.lor_nonneg; lia|].
  destruct (decide (Z.lor a b = 0)) as [->|Hne]; [done|].
  assert (0 ≤ Z.lor a b) by (apply Z.lor_nonneg; lia). apply Z.log2_lt_pow2; [lia|].
  pose proof (Z.log2_lor a b ltac:(lia) ltac:(lia)). pose proof (Z.log2_le_mono a 255 ltac:(lia)).
  pose proof (Z.log2_le_mono b 255 ltac:(lia)). change (Z.log2 255) with 7 in *. lia.
Qed.

Lemma safe_invert : safe (op_invert c).
Proof.
  unfold op_invert. destruct c eqn:Hc; [|apply triple_throw].
  eapply triple_bind; [apply dstack_pop_spec|]. intros b. apply triple_pure. intros Hb.
  assert (is_bytes ((λ b, Z.lxor b 255) <$> b)).
  { apply Forall_fmap. eapply Forall_impl; [exact (proj1 Hb)|]. intros x Hx. by apply lxor_byte. }
  assert (zlen ((λ b, Z.lxor b 255) <$> b) ≤ 2 ^ 33).
  { unfold zlen. rewrite length_fmap. by apply (entry_small true). }
  vm_auto.
Qed.

Lemma safe_bitwise f : (∀ a b, in_u 8 a → in_u 8 b → in_u 8 (f a b)) → safe (op_bitwise f c).
Proof.
  intros Hf. unfold op_bitwise. destruct c eqn:Hc; [|apply triple_throw].
  eapply triple_bind; [apply dstack_pop_spec|]. intros b. apply triple_pure. intros Hb.
  eapply triple_bind; [apply dstack_pop_spec|]. intros a. apply triple_pure. intros Ha.
  assert (is_bytes (zip_with f a b)).
  { pose proof (entry_bytes _ _ Ha) as Ba. pose proof (entry_bytes _ _ Hb) as Bb. clear -Hf Ba Bb. revert b Bb.
    induction Ba as [|x a Hx Ha IH]; intros [|y b] Hb; simpl; [constructor..|].
    apply Forall_cons in Hb as [? ?]. constructor; [by apply Hf|by apply IH]. }
  assert (zlen (zip_with f a b) ≤ 2 ^ 33).
  { pose proof (entry_small _ _ Ha). unfold zlen in *. rewrite length_zip_with. lia. }
  vm_auto.
Qed.

Lemma pop_pair_equal_spec : triple (OK 0) pop_pair_equal (λ _ s, True ∧ OK 0 s).
Proof.
  unfold pop_pair_equal. eapply triple_bind; [apply gets_depth_spec|]. intros len s [Hlen Hs].
  destruct (Nat.leb_spec 2 len) as [Hle|]; [|done]. unfold mbind, stm_mbind, on_dstack, zoom, split_off.
  rewrite (proj2 (Nat.leb_le _ _)) by lia.
  assert (∃ a b, drop (len - 2) (inner (dstack s)) = [a; b]) as (a & b & ->).
  { assert (length (drop (len - 2) (inner (dstack s))) = 2%nat) as Hl
      by (rewrite length_drop; unfold depth in Hlen; lia).
    destruct (drop _ _) as [|a [|b [|]]]; try done. eauto. }
  split; [done|]. destruct Hs as (Hd & Ha & Hrest). split_and!; [|done|apply Hrest..].
  apply stack_ok_set_inner; [done|]. pose proof Hd as (_ & Hf & _). by apply Forall_take.
Qed.
Hint Resolve pop_pair_equal_spec : vm.

Lemma is_bytes_one : is_bytes [1].
Proof. by constructor; [|constructor]. Qed.

Lemma safe_equal : safe op_equal.
Proof.
  unfold op_equal. eapply triple_bind; [apply pop_pair_equal_spec|]. intros b. apply triple_pure. intros _.
  assert (is_bytes (if b then [1] else [])) by (destruct b; [apply is_bytes_one|constructor]).
  assert (zlen (if b then [1] else []) ≤ 2 ^ 33) by by destruct b. vm_auto.
Qed.
Lemma safe_equal_verify : safe op_equal_verify.
Proof. unfold op_equal_verify. vm_auto. Qed.

(** The numeric opcodes. *)
Lemma safe_unary f : (∀ x, i64_ok x → in_i 64 (f x)) → safe (m ← pop_i64_1; push_number (f m)).
Proof. intros Hf. vm_auto. Qed.
Lemma safe_checked f e : safe (m ← pop_i64_1; push_checked (checked_i64 (f m)) e).
Proof. vm_auto. Qed.
Lemma safe_checked2 f e : safe ('(a, b) ← pop_i64_2; push_checked (checked_i64 (f a b)) e).
Proof. vm_auto. Qed.
Lemma safe_compare f : safe (op_compare f).
Proof. unfold op_compare. vm_auto. Qed.
Lemma safe_div : safe (op_div c).
Proof. unfold op_div. vm_auto. Qed.
Lemma safe_mod : safe (op_mod c).
Proof. unfold op_mod. vm_auto. Qed.
Lemma safe_mul : safe (op_mul c).
Proof. unfold op_mul. vm_auto. Qed.
Lemma safe_num_equal_verify : safe op_num_equal_verify.
Proof. unfold op_num_equal_verify. vm_auto. Qed.

Lemma min_range a b : i64_ok a → i64_ok b → in_i 64 (Z.min a b).
Proof. unfold i64_ok, in_i. change (64 - 1) with 63. lia. Qed.
Lemma max_range a b : i64_ok a → i64_ok b → in_i 64 (Z.max a b).
Proof. unfold i64_ok, in_i. change (64 - 1) with 63. lia. Qed.
Hint Resolve min_range max_range : vm.

Lemma safe_min : safe op_min.
Proof. unfold op_min. vm_auto. Qed.
Lemma safe_max : safe op_max.
Proof. unfold op_max. vm_auto. Qed.
Lemma safe_within : safe op_within.
Proof. unfold op_within. vm_auto. Qed.

Lemma i32_to_usize_Ok x y : i32_ok x → i32_to_usize x = Ok y → 0 ≤ y < 2 ^ 31.
Proof.
  unfold i32_to_usize, i32_ok, in_i. destruct (Z.ltb_spec x 0); [done|]. intros ? [= <-].
  change (32 - 1) with 31 in *. lia.
Qed.

Lemma magnitude_bytes_ok x : Z.abs x < 2 ^ 63 → is_bytes (magnitude_bytes 10 (Z.abs x) false).
Proof.
  intros Hx. destruct (decide (x = 0)) as [->|Hne]; [constructor|].
  destruct (magnitude_bytes_spec 8 10 (Z.abs x) false) as (a & m & -> & Ha & Hm & _);
    [change (8 * Z.of_nat 8) with 64; lia|lia|]. apply is_bytes_app. split; [done|]. by constructor; [|constructor].
Qed.

Lemma set_sign_ok {E} v : is_bytes v → v ≠ [] → ∃ w, set_sign (E := E) v = Ok w ∧ is_bytes w ∧ length w = length v.
Proof.
  intros Hv Hne. unfold set_sign. destruct (last v) as [x|] eqn:Hl; [|by apply last_None in Hl].
  rewrite upd_Ok by (destruct v; simpl in *; [done|lia]). eexists. split; [done|]. split; [|apply length_insert].
  apply Forall_insert; [done|]. apply lor_byte; [|done]. rewrite last_lookup in Hl.
  exact (Forall_lookup_1 _ _ _ _ Hv Hl).
Qed.

Lemma serialize_i64_sized_ok x size : i64_ok x → (size ≤ 8)%nat → item_ok (serialize_i64 x (Some size)).
Proof.
  intros Hx Hsize. pose proof (magnitude_bytes_ok x Hx) as Hb. unfold item_ok, serialize_i64.
  set (v := magnitude_bytes 10 (Z.abs x) false) in *.
  destruct (Nat.ltb_spec size (length v)) as [|Hle]; [done|]. cbn [mbind res_mbind].
  assert (is_bytes (resize size 0 v)) as Hr by (by apply Forall_resize).
  destruct (Z.eqb_spec (Z.sgn x) (-1)) as [Hs|Hs].
  - destruct (set_sign_ok (E := SerializationError) (resize size 0 v) Hr) as (w & -> & Hw & Hlen).
    { intros Hnil. apply (f_equal length) in Hnil. rewrite length_resize in Hnil. simpl in Hnil.
      assert (length v = 0%nat) as Hv0 by lia. apply nil_length_inv in Hv0.
      destruct (magnitude_bytes_spec 8 10 (Z.abs x) false) as (a & m & Heq & _);
        [unfold i64_ok in Hx; change (8 * Z.of_nat 8) with 64; lia|lia|].
      fold v in Heq. rewrite Hv0 in Heq. by destruct a. }
    split; [done|]. intros b [= <-]. split; [done|]. unfold zlen. rewrite Hlen, length_resize. lia.
  - split; [done|]. intros b [= <-]. split; [done|]. unfold zlen. rewrite length_resize. lia.
Qed.

Lemma safe_num2bin : safe (op_num2bin c).
Proof.
  unfold op_num2bin. destruct c; [|apply triple_throw].
  eapply triple_bind; [apply pop_i32_1_spec|]. intros size. apply triple_pure. intros Hsize.
  eapply triple_bind; [apply lift_res_spec, i32_to_usize_no_panic|]. intros k. apply triple_pure. intros Hk.
  apply i32_to_usize_Ok in Hk; [|done]. destruct (Z.ltb_spec 8 k); [apply triple_throw|].
  eapply triple_bind; [apply pop_i64_1_spec|]. intros x. apply triple_pure. intros Hx.
  destruct (serialize_i64_sized_ok x (Z.to_nat k) Hx) as [Hnp Hok]; [lia|].
  eapply triple_bind.
  { apply lift_res_spec. by destruct (serialize_i64 x (Some (Z.to_nat k))). }
  intros b. apply triple_pure. intros Hb. apply map_err_Ok in Hb. apply Hok in Hb as [Hb Hlen].
  assert (zlen b ≤ 2 ^ 33) by lia. vm_auto.
Qed.

Lemma safe_bin2num : safe (op_bin2num c).
Proof. unfold op_bin2num. vm_auto. Qed.
End ops3.

#[export] Hint Resolve substring_bytes substring_small small_range : vm.

(** ** ZK precompiles *)

Section zk.
Context `{ZkLibsLaws} (c : bool) (m0 : RuntimeResourceMeter).
Abbreviation OK := (state_ok c m0).
Abbreviation keeps m := (triple (OK 0) m (λ _ s, True ∧ OK 0 s)).

Lemma keeps_ok {A} (a : A) : triple (E := TxScriptError) (OK 0) (ok a) (λ _ s, True ∧ OK 0 s).
Proof. by intros s Hs. Qed.

Lemma keeps_post {A} (m : vmM A) φ : triple (OK 0) m (λ a s, φ a ∧ OK 0 s) → keeps m.
Proof. intros Hm. eapply triple_post; [exact Hm|]. by intros a s [_ ?]. Qed.

Lemma sat_mul64_nonneg a b : 0 ≤ a → 0 ≤ b → 0 ≤ sat_mul64 a b.
Proof. intros. unfold sat_mul64. apply Z.min_glb; [by apply Z.mul_nonneg_nonneg|done]. Qed.

Lemma pop_frs_spec n : keeps (pop_frs n).
Proof.
  induction n as [|n IH]; simpl; [apply keeps_ok|].
  eapply triple_bind.
  { apply on_dstack_spec; [done|]. apply (pop_items_spec c _ (λ _, True)); [|done].
    intros v _ Hv. unfold deserialize_fr. destruct (negb _); [done|]. by destruct (read_fr v). }
  intros l. apply triple_pure. intros [Hl Hf].
  eapply triple_bind; [by apply (arr1_vm_spec c m0 0 l (λ _, True))|]. intros x. apply triple_pure. intros _.
  eapply triple_bind; [exact IH|]. intros frs. apply triple_pure. intros _. apply keeps_ok.
Qed.

Lemma vk_spec vk n : Z.of_nat n + 1 < 2 ^ 64 → keeps (deserialize_verifying_key_with_metering vk n).
Proof.
  intros Hn. unfold deserialize_verifying_key_with_metering.
  do 4 (eapply triple_bind; [apply triple_or_throw|]; intros [? ?]; apply triple_pure; intros _).
  eapply triple_bind; [apply triple_or_throw|]. intros [count reader]. apply triple_pure. intros Hcount.
  apply read_u64_range in Hcount. destruct (count =? 0); [apply triple_throw|].
  eapply triple_bind. 
  { apply lift_res_spec. unfold add_p, checked_add. rewrite (proj2 (Z.ltb_lt _ _)) by lia. done. }
  intros arity. apply triple_pure. intros _. destruct (negb _); [apply triple_throw|].
  eapply triple_bind; [apply consume_script_units_spec, sat_mul64_nonneg; [apply Hcount|done]|].
  intros []. apply triple_pure. intros _.
  eapply triple_bind; [apply triple_or_throw|]. intros [abc rest]. apply triple_pure. intros _.
  destruct (negb _); [apply triple_throw|]. destruct (negb _); [apply triple_throw|]. apply keeps_ok.
Qed.

Lemma groth16_spec : keeps groth16_verify_zk.
Proof.
  unfold groth16_verify_zk.
  eapply triple_bind; [apply pop_raw_1_spec|]. intros vk. apply triple_pure. intros _.
  eapply triple_bind; [apply pop_raw_1_spec|]. intros proof. apply triple_pure. intros _.
  eapply triple_bind; [apply pop_i32_1_spec|]. intros k. apply triple_pure. intros Hk.
  eapply triple_bind; [apply lift_res_spec, i32_to_usize_no_panic|]. intros k'. apply triple_pure. intros Hk'.
  apply i32_to_usize_Ok in Hk'; [|done].
  eapply (triple_bind _ _ _ (λ l s, (length l = Z.to_nat k') ∧ OK 0 s)).
  { intros s Hs. pose proof (pop_frs_spec (Z.to_nat k') s Hs) as Hp.
    destruct (pop_frs (Z.to_nat k') s) as [[l s']| |] eqn:Hf; [|done..]. split; [|apply Hp].
    clear -Hf. revert s l s' Hf. induction (Z.to_nat k') as [|n IH]; simpl; intros s l s'; [by intros [= <- <-]|].
    intros (l1 & s1 & _ & (fr & s2 & _ & (frs & s3 & H3 & H4)%bind_ok_inv)%bind_ok_inv)%bind_ok_inv.
    injection H4 as <- <-. apply IH in H3. simpl. lia. }
  intros frs. apply triple_pure. intros Hfrs.
  eapply triple_bind; [apply vk_spec; lia|]. intros [[[[? ?] ?] ?] ?]. apply triple_pure. intros _.
  eapply triple_bind; [apply triple_or_throw|]. intros [? ?]. apply triple_pure. intros _.
  destruct (negb _); [apply triple_throw|].
  eapply triple_bind; [apply triple_or_throw|]. intros valid. apply triple_pure. intros _.
  destruct valid; [apply keeps_ok|apply triple_throw].
Qed.

Lemma verify_integrity_spec r : keeps (verify_integrity r).
Proof.
  unfold verify_integrity. destruct (stark_verify _ _ _) eqn:Hv; cbn [negb]; [|apply triple_throw].
  apply stark_verify_length in Hv. pose proof output_size_words.
  eapply triple_bind. { apply lift_res_spec. unfold assert_p. by rewrite (proj2 (Nat.leb_le _ _)). }
  intros []. apply triple_pure. intros _. cbv zeta.
  eapply triple_bind.
  { apply lift_res_spec. unfold assert_p. rewrite length_fmap, length_take, (proj2 (Nat.leb_le _ _)) by lia. done. }
  intros []. apply triple_pure. intros _.
  eapply triple_bind; [apply triple_or_throw|]. intros root. apply triple_pure. intros _.
  case_bool_decide; [apply triple_throw|].
  eapply triple_bind; [apply triple_or_throw|]. intros out. apply triple_pure. intros _.
  case_bool_decide; [apply triple_throw|apply keeps_ok].
Qed.

Lemma r0_spec : keeps r0_verify_zk.
Proof.
  unfold r0_verify_zk. eapply triple_bind; [apply pop_raw_n_spec|]. intros l. apply triple_pure. intros [Hl _].
  do 9 (destruct l as [|? l]; [try done|]); [|done].
  do 4 (eapply triple_bind; [apply triple_or_throw|]; intros ?; apply triple_pure; intros _).
  case_match; [apply triple_throw| |apply triple_throw].
  do 2 (eapply triple_bind; [apply triple_or_throw|]; intros ?; apply triple_pure; intros _).
  eapply triple_bind; [by apply lift_res_spec|]. intros ?. apply triple_pure. intros _.
  destruct (_ <? _)%nat; [apply triple_throw|].
  do 2 (eapply triple_bind; [apply triple_or_throw|]; intros ?; apply triple_pure; intros _).
  eapply triple_bind; [apply verify_integrity_spec|]. intros []. apply triple_pure. intros _.
  unfold compute_assert_claim. case_bool_decide; [apply triple_throw|apply keeps_ok].
Qed.

Lemma verify_zk_spec t : keeps (verify_zk t).
Proof.
  intros s Hs. unfold verify_zk, map_throw. destruct t.
  - pose proof (groth16_spec s Hs) as H1. by destruct (groth16_verify_zk s) as [[[] s']| |].
  - pose proof (r0_spec s Hs) as H1. by destruct (r0_verify_zk s) as [[[] s']| |].
Qed.

Lemma parse_tag_spec : keeps parse_tag.
Proof.
  unfold parse_tag. eapply triple_bind; [apply dstack_pop_spec|]. intros b. apply triple_pure. intros _.
  repeat case_match; try apply triple_throw. eapply keeps_post, triple_or_throw.
Qed.
End zk.

(** ** Opcodes that read the environment *)

(** The scripts, the transaction and the chain accessor that the engine is given. *)
Definition env_ok (env : Env) : Prop :=
  match script_source env with
  | TxInput p input i e _ =>
      populated_wf p ∧ input_wf input ∧ entry_wf e ∧ (i < length (inputs (ptx p)))%nat
  | StandAloneScripts scripts => Forall is_bytes scripts
  end ∧
  ∀ acc b h, seq_commit_accessor env = Some acc → seq_commitment_within_depth acc b = Some h → is_array 32 h.

Section env.
Context `{ScriptHashesLaws} `{ZkLibsLaws} (env : Env) (Henv : env_ok env) (m0 : RuntimeResourceMeter).
Abbreviation c := (covenants (flags env)).
Abbreviation OK := (state_ok c m0).
Abbreviation safe m := (triple (OK 0) m (SAFE c m0)).

Lemma units_nonneg {A} p (l : list A) : 0 ≤ script_units_for_data p (zlen l).
Proof. apply sat_mul64_nonneg; [apply zlen_nonneg|by destruct p]. Qed.
Hint Resolve units_nonneg sha256_array blake2b_array blake2b_keyed_array blake3_array blake3_keyed_array : vm.

Lemma safe_blake2b_with_key : safe (op_blake2b_with_key env).
Proof. unfold op_blake2b_with_key. vm_auto. Qed.
Lemma safe_sha256 : safe op_sha256.
Proof. unfold op_sha256. vm_auto. Qed.
Lemma safe_blake2b : safe op_blake2b.
Proof. unfold op_blake2b. vm_auto. Qed.
Lemma safe_blake3 : safe (op_blake3 env).
Proof. unfold op_blake3. vm_auto. Qed.
Lemma safe_blake3_with_key : safe (op_blake3_with_key env).
Proof. unfold op_blake3_with_key. vm_auto. Qed.

Lemma zk_cost_nonneg t : 0 ≤ zk_cost t.
Proof. by destruct t. Qed.
Hint Resolve zk_cost_nonneg verify_zk_spec parse_tag_spec : vm.

Lemma safe_zk_precompile : safe (op_zk_precompile env).
Proof. unfold op_zk_precompile. vm_auto. Qed.

Lemma safe_lock_time : safe (op_check_lock_time_verify env).
Proof. unfold op_check_lock_time_verify. vm_auto. Qed.
Lemma safe_sequence : safe (op_check_sequence_verify env).
Proof. unfold op_check_sequence_verify. vm_auto. Qed.

(** The transaction of the environment is well formed. *)
Lemma safe_with_tx k :
  (∀ p i, populated_wf p → safe (k p i)) → safe (with_tx env k).
Proof.
  intros Hk. unfold with_tx. destruct Henv as [Hsrc _]. destruct (script_source env); [|apply triple_throw].
  apply Hk. apply Hsrc.
Qed.

Lemma safe_cov_tx e k :
  (∀ p i, populated_wf p → safe (k p i)) → safe (cov_tx env e k).
Proof. intros Hk. pose proof (safe_with_tx k Hk) as Hs. unfold cov_tx. destruct c; [exact Hs|apply triple_throw]. Qed.

Lemma pop_index_spec n : triple (OK n) pop_index (λ i s, 0 ≤ i < 2 ^ 31 ∧ OK n s).
Proof.
  unfold pop_index. eapply triple_bind; [apply pop_i32_1_spec|]. intros i. apply triple_pure. intros Hi.
  eapply triple_post; [apply lift_res_spec, i32_to_usize_no_panic|]. intros x s [Hx Hs].
  split; [|done]. by eapply i32_to_usize_Ok.
Qed.

Lemma pop_index_2_spec n : triple (OK n) pop_index_2 (λ _ s, True ∧ OK n s).
Proof.
  unfold pop_index_2. eapply triple_bind; [apply pop_i32_2_spec|]. intros [i j]. apply triple_pure. intros _.
  do 2 (eapply triple_bind; [apply lift_res_spec, i32_to_usize_no_panic|]; intros ?; apply triple_pure; intros _).
  by intros s Hs.
Qed.

Lemma pop_index_3_spec n : triple (OK n) pop_index_3 (λ _ s, True ∧ OK n s).
Proof.
  unfold pop_index_3. eapply triple_bind; [apply pop_i32_3_spec|]. intros [[i j] k]. apply triple_pure. intros _.
  do 3 (eapply triple_bind; [apply lift_res_spec, i32_to_usize_no_panic|]; intros ?; apply triple_pure; intros _).
  by intros s Hs.
Qed.

Lemma get_input_spec n p i : populated_wf p → triple (OK n) (get_input p i) (λ x s, input_wf x ∧ OK n s).
Proof.
  intros ((_ & Hin & _) & _). eapply triple_post; [apply triple_or_throw|]. intros x s [Hx Hs].
  split; [|done]. exact (Forall_lookup_1 _ _ _ _ Hin Hx).
Qed.
Lemma get_utxo_spec n p i : populated_wf p → triple (OK n) (get_utxo p i) (λ x s, entry_wf x ∧ OK n s).
Proof.
  intros (_ & He & _). eapply triple_post; [apply triple_or_throw|]. intros x s [Hx Hs].
  split; [|done]. exact (Forall_lookup_1 _ _ _ _ He Hx).
Qed.
Lemma get_output_spec n p i k : populated_wf p → triple (OK n) (get_output p i k) (λ x s, output_wf x ∧ OK n s).
Proof.
  intros ((_ & _ & Ho & _) & _). eapply triple_post; [apply triple_or_throw|]. intros x s [Hx Hs].
  split; [|done]. exact (Forall_lookup_1 _ _ _ _ Ho Hx).
Qed.
Lemma get_utxo_i32_spec n p i : populated_wf p → triple (OK n) (get_utxo_i32 p i) (λ x s, entry_wf x ∧ OK n s).
Proof. intros Hp. unfold get_utxo_i32. destruct (i <? 0); [apply triple_throw|by apply get_utxo_spec]. Qed.
Lemma get_output_i32_spec n p i : populated_wf p → triple (OK n) (get_output_i32 p i) (λ x s, output_wf x ∧ OK n s).
Proof. intros Hp. unfold get_output_i32. destruct (i <? 0); [apply triple_throw|by apply get_output_spec]. Qed.
Lemma check_input_index_spec n p i : triple (OK n) (check_input_index p i) (λ _ s, True ∧ OK n s).
Proof. unfold check_input_index. destruct (_ <=? _); [apply triple_throw|by intros s Hs]. Qed.

(** What the fields of well-formed transactions are pushed as. *)
Lemma spk_bytes s : spk_wf s → is_bytes (spk_to_bytes s).
Proof. intros (_ & Hb & _). apply is_bytes_app. split; [apply be_bytes_is_bytes|done]. Qed.
Lemma spk_small s : spk_wf s → zlen (spk_to_bytes s) ≤ 2 ^ 33.
Proof. intros (_ & _ & Hl). unfold spk_to_bytes, zlen. rewrite length_app, length_be_bytes. lia. Qed.
Lemma entry_spk_wf e : entry_wf e → spk_wf (entry_spk e).
Proof. by intros (_ & ? & _). Qed.
Lemma out_spk_wf o : output_wf o → spk_wf (out_spk o).
Proof. by intros (_ & ? & _). Qed.
Lemma input_outpoint_array i : input_wf i → is_array 32 (transaction_id (previous_outpoint i)).
Proof. by intros ([? _] & _). Qed.
Lemma input_script_bytes i : input_wf i → is_bytes (signature_script i).
Proof. by intros (_ & ? & _). Qed.
Lemma payload_bytes p : populated_wf p → is_bytes (payload (ptx p)).
Proof. by intros ((_ & _ & _ & _ & _ & _ & ? & _) & _). Qed.
Lemma le_bytes_small n x : (n ≤ 8)%nat → zlen (le_bytes n x) ≤ 2 ^ 33.
Proof. unfold zlen. rewrite length_le_bytes. lia. Qed.
Lemma subnet_bytes p : populated_wf p → is_bytes (subnetwork_id (ptx p)) ∧ zlen (subnetwork_id (ptx p)) ≤ 2 ^ 33.
Proof. intros ((_ & _ & _ & _ & [Hl Hb] & _) & _). split; [done|]. unfold zlen. lia. Qed.
Lemma entry_id_array e : entry_wf e → is_array 32 (default ZERO_HASH (entry_covenant_id e)).
Proof. intros (_ & _ & _ & He). destruct (entry_covenant_id e); [done|]. split; [done|]. by apply Forall_replicate. Qed.
Lemma out_id_array o : output_wf o → is_array 32 (from_option binding_covenant_id ZERO_HASH (out_covenant o)).
Proof.
  intros (_ & _ & Ho). destruct (out_covenant o); [apply Ho|]. split; [done|]. by apply Forall_replicate.
Qed.
Lemma out_auth_range o : output_wf o → in_i 64 (from_option authorizing_input (-1) (out_covenant o)).
Proof.
  intros (_ & _ & Ho). destruct (out_covenant o) as [b|]; [|done]. destruct Ho as [Hb _]. simpl.
  unfold in_u, in_i in *. change (64 - 1) with 63. lia.
Qed.

Hint Resolve pop_index_spec pop_index_2_spec pop_index_3_spec get_input_spec get_utxo_spec get_output_spec
  get_utxo_i32_spec get_output_i32_spec check_input_index_spec spk_bytes spk_small entry_spk_wf out_spk_wf
  input_outpoint_array input_script_bytes payload_bytes le_bytes_small le_bytes_is_bytes entry_id_array
  out_id_array out_auth_range : vm.

Lemma push_u64_spec x : 0 ≤ x → safe (push_u64 x).
Proof. intros Hx. unfold push_u64. destruct (Z.ltb_spec x (2 ^ 63)); [|apply triple_throw]. vm_auto. Qed.

(** Indexed lookups that push one item. *)
Lemma covenant_index_no_panic (r : res CovenantsError nat) : r ≠ Panic → map_err CovenantsErr r ≠ Panic.
Proof. by destruct r. Qed.
Hint Resolve covenant_index_no_panic ok_or_no_panic : vm.
Hint Unfold auth_output_index covenant_input_index covenant_output_index : vm.

Ltac tx_auto := first [apply safe_cov_tx|apply safe_with_tx]; intros p i Hp; vm_auto.

Lemma safe_tx_version : safe (op_tx_version env).
Proof. tx_auto. Qed.
Lemma safe_tx_input_count : safe (op_tx_input_count env).
Proof. tx_auto. Qed.
Lemma safe_tx_output_count : safe (op_tx_output_count env).
Proof. tx_auto. Qed.
Lemma safe_tx_lock_time : safe (op_tx_lock_time env).
Proof. tx_auto. Qed.
Lemma safe_tx_subnet_id : safe (op_tx_subnet_id env).
Proof. apply safe_cov_tx. intros p i Hp. destruct (subnet_bytes p Hp). vm_auto. Qed.
Lemma safe_tx_gas : safe (op_tx_gas env).
Proof. tx_auto. Qed.
Lemma safe_tx_payload_substr : safe (op_tx_payload_substr env).
Proof. tx_auto. Qed.
Lemma safe_tx_input_index : safe (op_tx_input_index env).
Proof. tx_auto. Qed.
Lemma safe_outpoint_tx_id : safe (op_outpoint_tx_id env).
Proof. tx_auto. Qed.
Lemma safe_outpoint_index : safe (op_outpoint_index env).
Proof. tx_auto. Qed.
Lemma safe_tx_input_script_sig_substr : safe (op_tx_input_script_sig_substr env).
Proof. tx_auto. Qed.
Lemma safe_tx_input_seq : safe (op_tx_input_seq env).
Proof. tx_auto. Qed.
Lemma safe_tx_input_amount : safe (op_tx_input_amount env).
Proof.
  apply safe_with_tx. intros p i Hp. do 2 vm_step. apply push_u64_spec. by destruct H4 as [[? _] _].
Qed.
Lemma safe_tx_input_spk : safe (op_tx_input_spk env).
Proof. tx_auto. Qed.
Lemma safe_tx_input_daa_score : safe (op_tx_input_daa_score env).
Proof. tx_auto. Qed.
Lemma safe_tx_input_is_coinbase : safe (op_tx_input_is_coinbase env).
Proof. tx_auto. Qed.
Lemma safe_tx_output_amount : safe (op_tx_output_amount env).
Proof.
  apply safe_with_tx. intros p i Hp. do 2 vm_step. apply push_u64_spec. by destruct H4 as [[? _] _].
Qed.
Lemma safe_tx_output_spk : safe (op_tx_output_spk env).
Proof. tx_auto. Qed.
Lemma safe_tx_payload_len : safe (op_tx_payload_len env).
Proof. tx_auto. Qed.
Lemma safe_tx_input_spk_len : safe (op_tx_input_spk_len env).
Proof. tx_auto. Qed.
Lemma safe_tx_input_spk_substr : safe (op_tx_input_spk_substr env).
Proof. tx_auto. Qed.
Lemma safe_tx_output_spk_len : safe (op_tx_output_spk_len env).
Proof. tx_auto. Qed.
Lemma safe_tx_output_spk_substr : safe (op_tx_output_spk_substr env).
Proof. tx_auto. Qed.
Lemma safe_tx_input_script_sig_len : safe (op_tx_input_script_sig_len env).
Proof. tx_auto. Qed.
Lemma safe_auth_output_count : safe (op_auth_output_count env).
Proof. tx_auto. Qed.
Lemma safe_auth_output_idx : safe (op_auth_output_idx env).
Proof. tx_auto. Qed.
Lemma safe_input_covenant_id : safe (op_input_covenant_id env).
Proof. tx_auto. Qed.
Lemma safe_cov_input_count : safe (op_cov_input_count env).
Proof. tx_auto. Qed.
Lemma safe_cov_input_idx : safe (op_cov_input_idx env).
Proof. tx_auto. Qed.
Lemma safe_cov_output_count : safe (op_cov_output_count env).
Proof. tx_auto. Qed.
Lemma safe_cov_output_idx : safe (op_cov_output_idx env).
Proof. tx_auto. Qed.
Lemma safe_output_covenant_id : safe (op_output_covenant_id env).
Proof. tx_auto. Qed.
Lemma safe_output_authorizing_input : safe (op_output_authorizing_input env).
Proof. tx_auto. Qed.
Lemma safe_chainblock : safe (op_chainblock_seq_commit env).
Proof.
  unfold op_chainblock_seq_commit. destruct Henv as [_ Hacc].
  destruct (seq_commit_accessor env) as [acc|]; [|apply triple_throw]. specialize (Hacc acc).
  eapply triple_bind; [apply pop_hash_spec|]. intros b. apply triple_pure. intros _.
  destruct (is_chain_ancestor_from_pov acc b) as [[]|]; try apply triple_throw.
  eapply triple_bind; [apply triple_or_throw|]. intros h. apply triple_pure. intros Hh.
  assert (is_array 32 h) by eauto. vm_auto.
Qed.
End env.
