(* ===== verification/ScriptVerdict.v ===== *)
(** * The verdict of a script

    Execution never panics, and its result depends neither on what the signature
    cache holds nor on the memo of signature hashes, as long as both are truthful.
    Both facts are one relational judgement on pairs of engines that differ at most
    in these two; it is proved along the code of the engine, with the opcodes that
    touch neither brought in from their triples. *)

From S2P Require Import Prelude Bytes Transaction Sighash Covenants StateMonad ScriptNum ScriptStack.
From S2P Require Import ScriptMeter ScriptParse ScriptState ZkPrecompiles ScriptOps ScriptExec ScriptSafety.

Create HintDb safe.
#[export] Hint Resolve safe_if safe_not_if safe_else safe_end_if safe_verify safe_to_alt safe_from_alt safe_depth
  safe_drop safe_rot safe_swap safe_if_dup safe_nip safe_pick safe_roll safe_tuck safe_cat safe_substr
  safe_size safe_invert safe_equal safe_equal_verify safe_unary safe_checked safe_checked2 safe_compare safe_div
  safe_mod safe_mul safe_num_equal_verify safe_min safe_max safe_within safe_num2bin safe_bin2num : safe.
#[export] Hint Resolve safe_blake2b_with_key safe_sha256 safe_blake2b safe_blake3 safe_blake3_with_key
  safe_zk_precompile safe_lock_time safe_sequence safe_tx_version safe_tx_input_count safe_tx_output_count
  safe_tx_lock_time safe_tx_subnet_id safe_tx_gas safe_tx_payload_substr safe_tx_input_index safe_outpoint_tx_id
  safe_outpoint_index safe_tx_input_script_sig_substr safe_tx_input_seq safe_tx_input_amount safe_tx_input_spk
  safe_tx_input_daa_score safe_tx_input_is_coinbase safe_tx_output_amount safe_tx_output_spk safe_tx_payload_len
  safe_tx_input_spk_len safe_tx_input_spk_substr safe_tx_output_spk_len safe_tx_output_spk_substr
  safe_tx_input_script_sig_len safe_auth_output_count safe_auth_output_idx safe_input_covenant_id
  safe_cov_input_count safe_cov_input_idx safe_cov_output_count safe_cov_output_idx safe_output_covenant_id
  safe_output_authorizing_input safe_chainblock : safe.

(** The data of an opcode as the parser returns it. *)
Definition op_ok (op : OpCode) : Prop :=
  in_u 8 (value op) ∧ is_bytes (op_data op) ∧ zlen (op_data op) ≤ 2 ^ 33.

Section plain.
Context `{SigningHashes} `{SigCrypto} `{ScriptHashesLaws} `{ZkLibsLaws} (env : Env) (Henv : env_ok env).
Context (m0 : RuntimeResourceMeter).
Abbreviation c := (covenants (flags env)).
Abbreviation OK := (state_ok c m0).
Abbreviation safe m := (triple (OK 0) m (SAFE c m0)).

Lemma execute_plain_safe op : op_ok op → safe (execute_plain env op).
Proof.
  intros (Hv & Hb & Hl). unfold execute_plain. unfold in_u in Hv.
  assert (is_bytes []) by constructor. assert (zlen (@nil Z) ≤ 2 ^ 33) by done.
  destruct (value op =? OpFalse); [vm_auto|]. destruct (value op <=? OpPushData4); [vm_auto|].
  destruct (value op =? Op1Negate); [assert (in_i 64 (-1)) by done; vm_auto|].
  destruct (_ && _) eqn:Hr.
  { apply andb_true_iff in Hr as [H1'%Z.leb_le H2'%Z.leb_le].
    assert (in_i 64 (value op - (OpTrue - 1))) by (apply small_range; lia). vm_auto. }
  destruct (value op) as [|p|p]; [apply triple_throw| |apply triple_throw].
  repeat match goal with |- triple _ (match ?p with _ => _ end) _ => destruct p end;
    first [apply triple_throw|solve [eauto 3 with safe]|apply safe_dup; lia|apply safe_over; lia|apply safe_ok; lia
      |apply safe_unary; intros; apply b2z_range|apply safe_bitwise].
  - apply lor_byte.
  - apply lxor_byte.
  - apply land_byte.
Qed.
End plain.

(** ** Engines that differ in their caches *)

Section verdict.
Context `{SigningHashes} `{SigCrypto} `{ScriptHashesLaws} `{ZkLibsLaws} (env : Env) (Henv : env_ok env).
Context (m0 : RuntimeResourceMeter).
Abbreviation c := (covenants (flags env)).
Abbreviation OK := (state_ok c m0).

(** The cache remembers what verification returns, and the memo belongs to the
    transaction. *)
Definition caches_ok (e : Engine) : Prop :=
  cache_all (λ k v, v = verify_key k) (sig_cache e) ∧
  match script_source env with
  | TxInput p _ _ _ _ => reused_ok (ptx p) (reused e)
  | StandAloneScripts _ => True
  end.

Definition same_core (e1 e2 : Engine) : Prop := es e1 = es e2 ∧ caches_ok e1 ∧ caches_ok e2.

(** From engines with the same core and the precondition, the same result: two
    errors that are equal, or equal values with the same core and the
    postcondition. *)
Definition rel {A} (P : EngineState → Prop) (m : stm TxScriptError Engine A) (Q : A → EngineState → Prop) : Prop :=
  ∀ e1 e2, same_core e1 e2 → P (es e1) →
    match m e1, m e2 with
    | Ok (a, e1'), Ok (b, e2') => a = b ∧ same_core e1' e2' ∧ Q a (es e1')
    | Err x, Err y => x = y
    | _, _ => False
    end.

Lemma rel_lift {A} P (m : vmM A) Q : triple P m Q → rel P (lift m) Q.
Proof.
  intros Hm e1 e2 (Hes & Hc1 & Hc2) HP. unfold lift, zoom. rewrite <- Hes. specialize (Hm (es e1) HP).
  by destruct (m (es e1)) as [[a s]| |].
Qed.

Lemma rel_bind {A B} P (m : stm TxScriptError Engine A) (f : A → stm TxScriptError Engine B) Q R :
  rel P m Q → (∀ a, rel (Q a) (f a) R) → rel P (m ≫= f) R.
Proof.
  intros Hm Hf e1 e2 He HP. specialize (Hm e1 e2 He HP). unfold mbind, stm_mbind.
  destruct (m e1) as [[a e1']| |], (m e2) as [[b e2']| |]; try done.
  destruct Hm as (<- & He' & HQ). by apply Hf.
Qed.

Lemma rel_ok {A} P (a : A) : rel P (ok a) (λ x s, x = a ∧ P s).
Proof. by intros e1 e2 He HP. Qed.
Lemma rel_throw {A} P x (Q : A → EngineState → Prop) : rel P (throw x) Q.
Proof. by intros e1 e2 He HP. Qed.
Lemma rel_or_throw {A} P (o : option A) x : rel P (or_throw o x) (λ a s, o = Some a ∧ P s).
Proof. destruct o; by intros e1 e2 He HP. Qed.
Lemma rel_lift_res {A} P (r : res TxScriptError A) : r ≠ Panic → rel P (lift_res r) (λ a s, r = Ok a ∧ P s).
Proof. intros Hr e1 e2 He HP. unfold lift_res. by destruct r. Qed.
Lemma rel_gets {A} P (f : EngineState → A) : rel P (gets (λ e, f (es e))) (λ a s, a = f s ∧ P s).
Proof. intros e1 e2 (Hes & Hc) HP. unfold gets, same_core. by rewrite <- Hes. Qed.
Lemma rel_post {A} P (m : stm TxScriptError Engine A) Q Q' :
  rel P m Q' → (∀ a s, Q' a s → Q a s) → rel P m Q.
Proof.
  intros Hm HQ e1 e2 He HP. specialize (Hm e1 e2 He HP).
  destruct (m e1) as [[a e1']| |], (m e2) as [[b e2']| |]; naive_solver.
Qed.
Lemma rel_pre {A} P P' (m : stm TxScriptError Engine A) Q : (∀ s, P s → P' s) → rel P' m Q → rel P m Q.
Proof. intros HP Hm e1 e2 He Hs. by apply Hm, HP. Qed.
Lemma rel_pure {A} (φ : Prop) P (m : stm TxScriptError Engine A) Q : (φ → rel P m Q) → rel (λ s, φ ∧ P s) m Q.
Proof. intros Hm e1 e2 He [Hφ HP]. by apply Hm. Qed.
Lemma rel_drop {A} (R : EngineState → Prop) P (m : stm TxScriptError Engine A) Q :
  rel P m Q → rel (λ s, R s ∧ P s) m Q.
Proof. intros Hm e1 e2 He [_ HP]. by apply Hm. Qed.

(** A truthful cache answers like verification. *)
Lemma cached_verify_rel P k : rel P (cached_verify k) (λ v s, v = verify_key k ∧ P s).
Proof.
  assert (∀ e, caches_ok e → ∃ e', cached_verify k e = Ok (verify_key k, e') ∧ es e' = es e ∧ caches_ok e') as Hone.
  { intros e [Hc Hr]. unfold cached_verify. destruct (cache_get k (sig_cache e)) as [v|] eqn:Hg.
    - apply (cache_get_all _ _ _ _ Hc) in Hg as ->. by exists e.
    - eexists. split; [done|]. split; [done|]. split; [|done]. by apply cache_insert_all. }
  intros e1 e2 (Hes & Hc1 & Hc2) HP. destruct (Hone e1 Hc1) as (e1' & -> & He1 & Hc1').
  destruct (Hone e2 Hc2) as (e2' & -> & He2 & Hc2'). unfold same_core. rewrite He1, He2. done.
Qed.

(** A message that does not depend on the memo, and keeps it truthful. *)
Definition msg_ok (f : SigHashReusedValues → res TxScriptError (Hash * SigHashReusedValues)) (h : Hash) : Prop :=
  ∀ r, match script_source env with TxInput p _ _ _ _ => reused_ok (ptx p) r | _ => True end →
    ∃ r', f r = Ok (h, r') ∧
      match script_source env with TxInput p _ _ _ _ => reused_ok (ptx p) r' | _ => True end.

Lemma message_rel P f h : msg_ok f h → rel P (message f) (λ x s, x = h ∧ P s).
Proof.
  intros Hf e1 e2 (Hes & [Hc1 Hr1] & [Hc2 Hr2]) HP. unfold message.
  destruct (Hf (reused e1) Hr1) as (r1 & -> & Hr1'). destruct (Hf (reused e2) Hr2) as (r2 & -> & Hr2').
  done.
Qed.

Lemma const_msg_ok h : msg_ok (λ r, Ok (h, r)) h.
Proof. intros r Hr. eauto. Qed.

(** The signature hash that an input's scripts check against. *)
Definition tx_message (p : PopulatedTransaction) (i : nat) (ty : Z) : Hash :=
  match inputs (ptx p) !! i, entries p !! i with
  | Some inp, Some e => signing_hash (signature_preimage (ptx p) inp e i ty)
  | _, _ => ZERO_HASH
  end.

Lemma schnorr_msg_ok p input i e b ty :
  script_source env = TxInput p input i e b → msg_ok (calc_schnorr_signature_hash p i ty) (tx_message p i ty).
Proof.
  intros Hsrc r Hr. rewrite Hsrc in *. destruct Henv as [Hs _]. rewrite Hsrc in Hs. destruct Hs as (Hp & _ & _ & Hi).
  destruct (calc_schnorr_spec (E := TxScriptError) p i ty r Hp Hi Hr) as (inp & ue & r' & H1' & H2' & _ & _ & Hc & Hr').
  exists r'. unfold tx_message. by rewrite H1', H2'.
Qed.

Lemma ecdsa_msg_ok p input i e b ty :
  script_source env = TxInput p input i e b →
  msg_ok (calc_ecdsa_signature_hash p i ty) (signing_hash_ecdsa (tx_message p i ty)).
Proof.
  intros Hsrc r Hr. destruct (schnorr_msg_ok p input i e b ty Hsrc r Hr) as (r' & Hc & Hr').
  exists r'. unfold calc_ecdsa_signature_hash. by rewrite Hc.
Qed.

(** What a signature check answers, when the key and the signature parse. *)
Definition schnorr_valid (key sig : bytes) (h : Hash) : option bool :=
  match xonly_from_slice key, schnorr_from_slice sig with
  | Some pk, Some sg => Some (schnorr_verify sg h pk)
  | _, _ => None
  end.
Definition ecdsa_valid (key sig : bytes) (h : Hash) : option bool :=
  if (length key =? 33)%nat then
    match ecdsa_key_from_slice key, ecdsa_from_compact sig with
    | Some pk, Some sg => Some (ecdsa_verify sg h pk)
    | _, _ => None
    end
  else None.

Lemma check_schnorr_msg_rel n key sig f h :
  msg_ok f h →
  rel (OK n) (check_schnorr_signature_with_msg_hash key sig f) (λ v s, schnorr_valid key sig h = Some v ∧ OK n s).
Proof.
  intros Hf. unfold check_schnorr_signature_with_msg_hash.
  eapply rel_bind; [apply rel_lift, consume_sig_op_cost_spec; done|]. intros []. apply rel_pure. intros _.
  eapply rel_bind; [apply rel_or_throw|]. intros pk. apply rel_pure. intros Hpk.
  eapply rel_bind; [apply rel_or_throw|]. intros sg. apply rel_pure. intros Hsg.
  eapply rel_bind; [by apply message_rel|]. intros m. apply rel_pure. intros ->.
  eapply rel_post; [apply cached_verify_rel|]. intros v s [-> Hs]. split; [|done].
  unfold schnorr_valid. by rewrite Hpk, Hsg.
Qed.

Lemma check_ecdsa_msg_rel n key sig f h :
  msg_ok f h →
  rel (OK n) (check_ecdsa_signature_with_msg_hash key sig f) (λ v s, ecdsa_valid key sig h = Some v ∧ OK n s).
Proof.
  intros Hf. unfold check_ecdsa_signature_with_msg_hash.
  eapply rel_bind; [apply rel_lift, consume_sig_op_cost_spec; done|]. intros []. apply rel_pure. intros _.
  eapply rel_bind.
  { apply rel_lift_res. unfold check_pub_key_encoding_ecdsa. by destruct (length key =? 33)%nat. }
  intros []. apply rel_pure. intros Henc.
  eapply rel_bind; [apply rel_or_throw|]. intros pk. apply rel_pure. intros Hpk.
  eapply rel_bind; [apply rel_or_throw|]. intros sg. apply rel_pure. intros Hsg.
  eapply rel_bind; [by apply message_rel|]. intros m. apply rel_pure. intros ->.
  eapply rel_post; [apply cached_verify_rel|]. intros v s [-> Hs]. split; [|done].
  unfold ecdsa_valid, check_pub_key_encoding_ecdsa in *. destruct (length key =? 33)%nat; [|done].
  by rewrite Hpk, Hsg.
Qed.

(** A check of the transaction's signatures answers as [valid] says. *)
Definition checks (check : Z → bytes → bytes → stm TxScriptError Engine bool)
    (valid : Z → bytes → bytes → option bool) : Prop :=
  ∀ n ty key sig, rel (OK n) (check ty key sig) (λ v s, valid ty key sig = Some v ∧ OK n s).

Definition tx_schnorr_valid (ty : Z) (key sig : bytes) : option bool :=
  match script_source env with
  | TxInput p _ i _ _ => schnorr_valid key sig (tx_message p i ty)
  | StandAloneScripts _ => None
  end.
Definition tx_ecdsa_valid (ty : Z) (key sig : bytes) : option bool :=
  match script_source env with
  | TxInput p _ i _ _ => ecdsa_valid key sig (signing_hash_ecdsa (tx_message p i ty))
  | StandAloneScripts _ => None
  end.

Lemma checks_schnorr : checks (check_schnorr_signature env) tx_schnorr_valid.
Proof.
  intros n ty key sig. unfold check_schnorr_signature, tx_schnorr_valid.
  destruct (script_source env) as [p input i e b|] eqn:Hsrc; [|apply rel_throw].
  apply check_schnorr_msg_rel. by eapply schnorr_msg_ok.
Qed.

Lemma checks_ecdsa : checks (check_ecdsa_signature env) tx_ecdsa_valid.
Proof.
  intros n ty key sig. unfold check_ecdsa_signature, tx_ecdsa_valid.
  destruct (script_source env) as [p input i e b|] eqn:Hsrc; [|apply rel_throw].
  apply check_ecdsa_msg_rel. by eapply ecdsa_msg_ok.
Qed.

Abbreviation rsafe m := (rel (OK 0) m (SAFE c m0)).

Lemma push_bool_rel n b : (n < 9)%nat → rel (OK n) (lift (push_bool b)) (SAFE c m0).
Proof.
  intros Hn. apply rel_lift. eapply triple_post; [apply push_bool_spec; lia|]. intros [] s [_ Hs].
  eapply state_ok_mono; [|exact Hs]. lia.
Qed.

Lemma check_sig_with_rel check valid : checks check valid → rsafe (check_sig_with check).
Proof.
  intros Hc. unfold check_sig_with. eapply rel_bind; [apply rel_lift, pop_raw_2_spec|]. intros [sig key].
  apply rel_pure. intros _. destruct (last sig) as [ty|]; [|apply push_bool_rel; lia].
  eapply rel_bind; [apply rel_or_throw|]. intros t. apply rel_pure. intros _.
  eapply rel_bind; [apply Hc|]. intros v. apply rel_pure. intros _. apply push_bool_rel. lia.
Qed.

Lemma check_sig_from_stack_rel check valid :
  (∀ n key sig f h, msg_ok f h → rel (OK n) (check key sig f) (λ v s, valid key sig h = Some v ∧ OK n s)) →
  rsafe (check_sig_from_stack env check).
Proof.
  intros Hc. unfold check_sig_from_stack.
  assert (rsafe ('(signature, msg_hash, pubkey) ← lift pop_raw_3;
    if negb (length msg_hash =? 32)%nat then throw InvalidState
    else valid ← check pubkey signature (λ r, Ok (msg_hash, r)); lift (push_bool valid))) as Hgo.
  { eapply rel_bind; [apply rel_lift, pop_raw_3_spec|]. intros [[sig m] key]. apply rel_pure. intros _.
    destruct (negb _); [apply rel_throw|].
    eapply rel_bind; [apply Hc, const_msg_ok|]. intros v. apply rel_pure. intros _. apply push_bool_rel. lia. }
  destruct c; [exact Hgo|apply rel_throw].
Qed.

(** *** Multisig *)

(** The specification of the two loops, on the answers of the checks: which keys are
    left after a signature, and whether the signatures match the keys. *)
Fixpoint match_key (valid : bytes → option bool) (need : nat) (keys : list bytes) : option (option (list bytes)) :=
  if (length keys <? need)%nat then Some None
  else
    match keys with
    | [] => None
    | key :: keys =>
        match valid key with
        | Some true => Some (Some keys)
        | Some false => match_key valid need keys
        | None => None
        end
    end.

Lemma multisig_keys_rel n (check : bytes → stm TxScriptError Engine bool) valid need keys :
  (0 < need)%nat →
  (∀ key, rel (OK n) (check key) (λ v s, valid key = Some v ∧ OK n s)) →
  rel (OK n) (multisig_keys check need keys) (λ r s, match_key valid need keys = Some r ∧ OK n s).
Proof.
  intros Hneed Hc. induction keys as [|key keys IH]; simpl.
  - destruct need; [lia|]. simpl. eapply rel_post; [apply rel_ok|]. by intros a s [-> ?].
  - destruct (_ <? need)%nat; [eapply rel_post; [apply rel_ok|]; by intros a s [-> ?]|].
    eapply rel_bind; [apply Hc|]. intros v. apply rel_pure. intros ->. destruct v; [|exact IH].
    eapply rel_post; [apply rel_ok|]. by intros a s [-> ?].
Qed.

Fixpoint match_sigs (valid : Z → bytes → bytes → option bool) (sigs keys : list bytes) : option bool :=
  match sigs with
  | [] => Some true
  | sig :: rest =>
      match last sig with
      | None => Some false
      | Some typ =>
          match sighash_type_from_u8 typ with
          | None => None
          | Some ty =>
              match match_key (λ key, valid ty key (take (length sig - 1) sig)) (length sigs) keys with
              | None => None
              | Some None => Some false
              | Some (Some keys) => match_sigs valid rest keys
              end
          end
      end
  end.

Lemma multisig_sigs_rel n check valid sigs keys :
  checks check valid →
  rel (OK n) (multisig_sigs check sigs keys) (λ failed s, match_sigs valid sigs keys = Some (negb failed) ∧ OK n s).
Proof.
  intros Hc. revert keys. induction sigs as [|sig rest IH]; intros keys; cbn [multisig_sigs match_sigs].
  { eapply rel_post; [apply rel_ok|]. by intros a s [-> ?]. }
  destruct (last sig) as [typ|]; [|eapply rel_post; [apply rel_ok|]; by intros a s [-> ?]].
  eapply rel_bind; [apply rel_or_throw|]. intros ty. apply rel_pure. intros ->.
  eapply rel_bind; [apply multisig_keys_rel; [simpl; lia|intros key; apply Hc]|].
  intros r. apply rel_pure. intros ->. destruct r as [ks|]; [apply IH|].
  eapply rel_post; [apply rel_ok|]. by intros a s [-> ?].
Qed.

Lemma split_top_spec n k :
  triple (OK n) (split_top k) (λ l s, (length l = k ∧ Forall (entry_ok c) l) ∧ OK n s).
Proof.
  unfold split_top. eapply triple_bind; [apply gets_depth_spec|]. intros len s [Hlen Hs].
  destruct (Nat.leb_spec k len) as [Hle|]; [|done]. unfold on_dstack, zoom.
  pose proof (split_off_spec c n (len - k) (dstack s)) as Hsp. destruct Hs as (Hd & Ha & Hrest).
  unfold split_off in *. rewrite (proj2 (Nat.leb_le _ _)) in * by lia.
  destruct Hsp as [Hf Hd']; [split; [lia|done]|]. split; [split; [|done]|exact (conj Hd' (conj Ha Hrest))].
  rewrite length_drop. unfold depth in *. lia.
Qed.

Lemma add_ops_spec n k :
  0 ≤ k ≤ 20 → triple (OK n) (add_ops env k) (λ _ s, True ∧ OK n s).
Proof.
  intros Hk s Hs. pose proof Hs as (Hd & Ha & Hn & Hm). unfold add_ops, gets, mbind, stm_mbind, modify.
  assert (max_ops_per_script c ≤ 1000000) as Hmax by (unfold max_ops_per_script; by destruct c).
  rewrite signed_p_Ok by (unfold in_i; change (32 - 1) with 31; lia). cbn [lift_res].
  destruct (Z.ltb_spec (max_ops_per_script c) (num_ops s + k)) as [|Hle]; [done|]. split; [done|].
  exact (conj Hd (conj Ha (conj (conj (Z.add_nonneg_nonneg _ _ (proj1 Hn) (proj1 Hk)) Hle) Hm))).
Qed.

Lemma pop_multisig_spec :
  triple (OK 0) (pop_multisig env) (λ _ s, True ∧ OK 0 s).
Proof.
  unfold pop_multisig. eapply triple_bind; [apply pop_i32_1_spec|]. intros k. apply triple_pure. intros _.
  destruct (Z.ltb_spec k 0); [apply triple_throw|].
  destruct (Z.ltb_spec MAX_PUB_KEYS_PER_MUTLTISIG k); [apply triple_throw|].
  eapply triple_bind; [apply add_ops_spec; lia|]. intros []. apply triple_pure. intros _.
  eapply triple_bind; [apply split_top_spec|]. intros keys. apply triple_pure. intros _.
  eapply triple_bind; [apply pop_i32_1_spec|]. intros m. apply triple_pure. intros _.
  destruct (m <? 0); [apply triple_throw|]. destruct (k <? m); [apply triple_throw|].
  eapply triple_bind; [apply split_top_spec|]. intros sigs. apply triple_pure. intros _. by intros s Hs.
Qed.

Lemma multisig_checks (ecdsa : bool) :
  checks (if ecdsa then check_ecdsa_signature env else check_schnorr_signature env)
    (if ecdsa then tx_ecdsa_valid else tx_schnorr_valid).
Proof. destruct ecdsa; [apply checks_ecdsa|apply checks_schnorr]. Qed.

Lemma multisig_rel ecdsa : rsafe (op_check_multisig_schnorr_or_ecdsa env ecdsa).
Proof.
  unfold op_check_multisig_schnorr_or_ecdsa. eapply rel_bind; [apply rel_lift, pop_multisig_spec|].
  intros [sigs keys]. apply rel_pure. intros _.
  eapply rel_bind; [apply multisig_sigs_rel, multisig_checks|].
  intros failed. apply rel_pure. intros _. destruct (failed && _); [apply rel_throw|]. apply push_bool_rel. lia.
Qed.

(** *** The engine *)

Lemma verify_after_rel m : rsafe m → rsafe (verify_after m).
Proof.
  intros Hm. eapply rel_bind; [exact Hm|]. intros []. apply rel_lift. unfold op_verify.
  eapply triple_bind; [apply pop_bool_spec|]. intros v. apply triple_pure. intros _.
  destruct v; [by intros s Hs|apply triple_throw].
Qed.

Lemma op_execute_rel op : op_ok op → rsafe (op_execute env op).
Proof.
  intros Hop. pose proof (rel_lift _ _ _ (execute_plain_safe env Henv m0 op Hop)) as Hplain.
  pose proof (check_sig_with_rel _ _ checks_schnorr) as Hs. pose proof (check_sig_with_rel _ _ checks_ecdsa) as He.
  pose proof (check_sig_from_stack_rel _ _ check_schnorr_msg_rel) as Hfs.
  pose proof (check_sig_from_stack_rel _ _ check_ecdsa_msg_rel) as Hfe.
  pose proof (multisig_rel true) as Hme. pose proof (multisig_rel false) as Hms.
  unfold op_execute. destruct (value op) as [|p|p]; [done| |done].
  repeat match goal with |- rel _ (match ?p with _ => _ end) _ => destruct p end;
    first [exact Hplain|assumption|by apply verify_after_rel].
Qed.

Lemma count_opcode_spec op : triple (OK 0) (count_opcode env op) (λ _ s, True ∧ OK 0 s).
Proof.
  unfold count_opcode. destruct (negb _); [apply add_ops_spec; lia|].
  destruct (_ <? _); [apply triple_throw|by intros s Hs].
Qed.

Lemma pop_pushed_bytes_spec n : triple (OK n) pop_pushed_bytes (λ b s, 0 ≤ b ∧ OK 0 s).
Proof.
  intros s (Hd & Ha & Hrest). destruct Hd as (Hdc & Hdf & Hdb & Hdn), Ha as (Hac & Haf & Hab & Han). simpl.
  split; [unfold sat_add64; lia|]. split; [|split; [|exact Hrest]]; (split; [done|]); (split; [done|]); simpl; lia.
Qed.

Lemma check_minimal_push_no_panic op : check_minimal_data_push op ≠ Panic.
Proof.
  unfold check_minimal_data_push. destruct (Z.eqb_spec (zlen (op_data op)) 0) as [|Hne]; [by destruct (_ =? _)|].
  destruct (op_data op) as [|b0 l]; [done|]. simpl. by repeat case_match.
Qed.

Lemma execute_opcode_rel op : op_ok op → rel (OK 0) (execute_opcode env op) (λ _ s, OK 0 s).
Proof.
  intros Hop. unfold execute_opcode. eapply rel_bind; [apply rel_lift, count_opcode_spec|]. intros []. apply rel_pure. intros _.
  eapply rel_bind; [apply rel_gets|]. intros ex. apply rel_drop.
  destruct (_ || _); [|eapply rel_post; [apply rel_ok|]; by intros a s [_ ?]].
  eapply rel_bind; [apply rel_lift_res; destruct (_ && _); [apply check_minimal_push_no_panic|done]|].
  intros []. apply rel_pure. intros _.
  eapply rel_bind; [by apply op_execute_rel|]. intros [].
  eapply rel_bind; [apply rel_lift, pop_pushed_bytes_spec|]. intros b. apply rel_pure. intros Hb.
  apply rel_lift. eapply triple_post; [apply on_meter_spec, meter_consume_script_units_spec, Hb|]. by intros a s [_ ?].
Qed.

Lemma check_stack_size_spec n : triple (OK n) check_stack_size (λ _ s, OK n s).
Proof.
  intros s Hs. unfold check_stack_size, gets, mbind, stm_mbind.
  by destruct (_ <? _)%nat.
Qed.

(** What the parser hands to the engine. *)
Definition parsed_ok (r : res TxScriptError OpCode) : Prop :=
  match r with Ok op => op_ok op | Err _ => True | Panic => False end.

Lemma op_valid_len op : op_valid op → zlen (op_data op) ≤ 2 ^ 33.
Proof.
  intros Hv. destruct (op_length (value op)) as [k|w] eqn:Hl.
  - apply (op_valid_fixed op k Hl) in Hv. apply op_length_fixed in Hl. unfold zlen. lia.
  - apply (op_valid_prefixed op w Hl) in Hv. apply op_length_prefixed in Hl.
    assert (2 ^ (8 * Z.of_nat w) ≤ 2 ^ 33) by (apply Z.pow_le_mono_r; lia). lia.
Qed.

Lemma op_serialize_bytes op : is_bytes (op_serialize op) → in_u 8 (value op) ∧ is_bytes (op_data op).
Proof.
  unfold op_serialize. destruct (op_length _) as [k|w]; intros Hb; apply is_bytes_cons in Hb as [? Hb]; [done|].
  by apply is_bytes_app in Hb as [_ ?].
Qed.

Lemma parse_script_ok n script : (length script ≤ n)%nat → is_bytes script → Forall parsed_ok (parse_script script).
Proof.
  revert script. induction n as [|n IH]; intros script Hn Hb.
  { destruct script; [constructor|simpl in Hn; lia]. }
  rewrite parse_script_step by done. destruct (deserialize_next_opcode script) as [[r rest]|] eqn:Hd; [|constructor].
  apply deserialize_inv in Hd as (Hr & Hlt & Hrest); [|done]. constructor; [|apply IH; [lia|done]].
  destruct r as [op| |]; [|done..]. destruct Hr as [Hv ->]. apply is_bytes_app in Hb as [Hb _].
  apply op_serialize_bytes in Hb as [? ?]. split; [done|]. split; [done|]. by apply op_valid_len.
Qed.

Lemma run_opcodes_rel push ops : Forall parsed_ok ops → rel (OK 0) (run_opcodes env push ops) (λ _ s, OK 0 s).
Proof.
  induction 1 as [|r ops Hr Hops IH]; cbn [run_opcodes].
  { eapply rel_post; [apply rel_ok|]. by intros a s [_ ?]. }
  eapply rel_bind; [apply rel_lift_res; by destruct r|]. intros op. apply rel_pure. intros ->.
  destruct (is_disabled _ _); [apply rel_throw|]. destruct (always_illegal _); [apply rel_throw|].
  destruct (_ && _); [apply rel_throw|].
  eapply rel_bind; [by apply execute_opcode_rel|]. intros [].
  eapply rel_bind; [apply rel_lift, check_stack_size_spec|]. intros []. exact IH.
Qed.

Lemma execute_script_rel script push : is_bytes script → rel (OK 0) (execute_script env script push) (λ _ s, OK 0 s).
Proof.
  intros Hb. unfold execute_script.
  eapply rel_bind; [by eapply run_opcodes_rel, parse_script_ok|]. intros [].
  eapply rel_bind; [apply (rel_gets _ cond_stack)|]. intros cs. apply rel_drop.
  destruct (negb _); [apply rel_throw|]. apply rel_lift. intros s (Hd & (Hac & Haf & Hab) & Hn & Hm). simpl.
  assert (0 ≤ 0 ≤ max_ops_per_script c) by (unfold max_ops_per_script; by destruct c).
  split; [exact Hd|]. split; [exact (conj Hac (conj (List.Forall_nil _) Hab))|]. by split.
Qed.

Lemma check_error_condition_spec final : triple (OK 0) (check_error_condition final) (λ _ s, OK 0 s).
Proof.
  unfold check_error_condition. eapply triple_bind; [apply gets_depth_spec|]. intros len. apply triple_drop.
  destruct (_ && _); [apply triple_throw|]. destruct (_ && _); [apply triple_throw|].
  eapply triple_bind; [apply pop_bool_spec|]. intros v. apply triple_pure. intros _.
  destruct v; [by intros s Hs|apply triple_throw].
Qed.

Definition saved_ok (saved : option Stack) : Prop := match saved with Some d => stack_ok c 0 d | None => True end.

Lemma run_scripts_rel p2sh i scripts saved :
  Forall is_bytes scripts → saved_ok saved →
  rel (OK 0) (run_scripts env p2sh i scripts saved) (λ sv s, saved_ok sv ∧ OK 0 s).
Proof.
  intros Hb. revert i saved. induction Hb as [|script scripts Hs Hb IH]; intros i saved Hsv; cbn [run_scripts].
  { eapply rel_post; [apply rel_ok|]. by intros a s [-> ?]. }
  destruct (is_empty script); [by apply IH|].
  apply (rel_bind _ _ _ (λ d s, stack_ok c 0 d ∧ OK 0 s)).
  { eapply rel_post; [apply (rel_gets _ dstack)|]. intros d s [-> Hk]. exact (conj (proj1 Hk) Hk). }
  intros d. apply rel_pure. intros Hd. eapply rel_bind; [by apply execute_script_rel|]. intros []. apply IH.
  by destruct (_ && _).
Qed.

Lemma stack_pop_ok : triple (OK 0) (on_dstack stack_pop) (λ x s, entry_ok c x ∧ OK 0 s).
Proof. apply on_dstack_spec; [done|]. apply stack_pop_spec. Qed.

Lemma execute_scripts_rel scripts p2sh units :
  Forall is_bytes scripts → 0 ≤ units →
  rel (OK 0) (execute_scripts env scripts p2sh units) (λ _ s, OK 0 s).
Proof.
  intros Hb Hu. unfold execute_scripts. eapply rel_bind; [by apply rel_lift, consume_script_units_spec|].
  intros []. apply rel_pure. intros _. destruct (is_empty scripts); [apply rel_throw|].
  destruct (forallb _ _); [apply rel_throw|]. destruct (list_find _ _) as [[? ?]|]; [apply rel_throw|].
  eapply rel_bind; [by apply run_scripts_rel|]. intros saved. apply rel_pure. intros Hsv.
  assert (rel (OK 0) (ok Executed) (λ _ s, OK 0 s)) as Hdone.
  { eapply rel_post; [apply rel_ok|]. by intros a s [_ ?]. }
  destruct p2sh; [|exact Hdone].
  eapply rel_bind; [apply rel_lift, check_error_condition_spec|]. intros [].
  eapply rel_bind; [apply rel_or_throw|]. intros d. apply rel_pure. intros ->.
  eapply (rel_bind _ _ _ (λ _ s, OK 0 s)).
  { apply rel_lift. intros s (_ & Hrest). exact (conj Hsv Hrest). }
  intros []. eapply rel_bind; [apply rel_lift, stack_pop_ok|]. intros script. apply rel_pure. intros [Hsb _].
  eapply rel_bind; [by apply execute_script_rel|]. intros []. exact Hdone.
Qed.

Lemma execute_inner_rel : rel (OK 0) (execute_inner env) (λ _ s, OK 0 s).
Proof.
  unfold execute_inner. pose proof Henv as [Hsrc _]. destruct (script_source env) as [p input i e b|scripts].
  - destruct Hsrc as (_ & (_ & Hsb & _) & (_ & (_ & Hkb & Hkl) & _) & _).
    destruct (_ <? _); [eapply rel_post; [apply rel_ok|]; by intros a s [_ ?]|].
    assert (0 ≤ sat_sub64 (zlen (spk_script (entry_spk e))) STANDARD_SCRIPT_PUB_KEY_MAX_SIZE < 2 ^ 32) as Hg.
    { unfold sat_sub64, zlen. lia. }
    eapply rel_bind; [apply rel_lift_res|].
    + unfold gram_to_units, mul_p. by rewrite (proj2 (Z.ltb_lt _ _)) by lia.
    + intros units. apply rel_pure. intros Hu. apply mul_p_Ok in Hu as [-> _].
      apply execute_scripts_rel; [by repeat constructor|]. lia.
  - by apply execute_scripts_rel.
Qed.

Lemma execute_rel : rel (OK 0) (execute env) (λ _ s, OK 0 s).
Proof.
  unfold execute. eapply rel_bind; [apply execute_inner_rel|]. intros [].
  - apply rel_lift, check_error_condition_spec.
  - eapply rel_post; [apply rel_ok|]. by intros a s [_ ?].
Qed.
End verdict.

Lemma new_state_ok fl m : meter_ok m → state_ok (covenants fl) m 0 (new_state fl m).
Proof.
  intros Hm. assert (stack_ok (covenants fl) 0 (stack_new [] (covenants fl))) as Hs.
  { split; [done|]. split; [constructor|]. simpl. lia. }
  split; [exact Hs|]. split; [exact Hs|]. split; [|split; [exact Hm|split; [done|apply Z.le_refl]]].
  unfold max_ops_per_script. by destruct (covenants fl).
Qed.

(** ** Toy libraries, for the witnesses *)
Module SampleEngine.
#[export] Instance crypto : SigCrypto := {|
  XOnlyKey := bytes; SchnorrSig := bytes; EcdsaKey := bytes; EcdsaSig := bytes;
  xonly_from_slice b := if (length b =? 32)%nat then Some b else None;
  schnorr_from_slice b := if (length b =? 64)%nat then Some b else None;
  ecdsa_key_from_slice b := if (length b =? 33)%nat then Some b else None;
  ecdsa_from_compact b := if (length b =? 64)%nat then Some b else None;
  schnorr_verify sig m pk := bool_decide (sig = m ++ pk);
  ecdsa_verify sig m pk := bool_decide (sig = m ++ drop 1 pk);
|}.

Definition digest (m : bytes) : bytes := resize 32 0 ((λ x, x mod 256) <$> m).
Lemma digest_array m : is_array 32 (digest m).
Proof.
  split; [apply length_resize|]. apply Forall_resize; [by unfold in_u|]. apply Forall_fmap, Forall_true.
  intros x. unfold compose, in_u. apply Z.mod_pos_bound. lia.
Qed.

#[export] Instance hashes : ScriptHashes := {|
  sha256 := digest; blake2b_256 := digest; blake2b_256_keyed k m := digest (k ++ m);
  blake3 := digest; blake3_keyed k m := digest (k ++ m);
|}.
#[export] Instance hashes_laws : ScriptHashesLaws.
Proof. constructor; intros; apply digest_array. Qed.

#[export] Instance zk : ZkLibs := {|
  G1 := unit; G2 := unit; ArkFr := unit; ArkProof := unit;
  read_g1 _ _ := None; read_g2 _ := None; read_u64 _ := None; g1_batch_check _ := true; read_fr _ := None;
  read_proof _ := None; groth16_check _ _ _ _ _ _ _ := None; stark_verify _ _ _ := false;
  hash_pair _ a b := digest (a ++ b); is_digest_valid _ _ := true; ALLOWED_CONTROL_ROOT := []; OUTPUT_SIZE := 16;
  elem_as_u32 x := x; digest_of_words _ := None; read_sha_halfs _ := None; tagged_struct _ _ _ := [];
  system_state_digest _ m := m; halted_pair n := (0, n);
|}.
#[export] Instance zk_laws : ZkLibsLaws.
Proof. by constructor. Qed.
#[export] Existing Instance SampleTx.hashes.

(** An input that spends to a public key, and its signature. *)
Definition key : bytes := replicate 32 7.
Definition spk : ScriptPublicKey := mkSpk 0 (32 :: key ++ [172]).
Definition entry : UtxoEntry := mkEntry 100 spk 7 false None.
Definition input (script : bytes) : TransactionInput :=
  mkInput (mkOutpoint (replicate 32 1) 1) script 1 (SigopCount 1).
Definition populated (script : bytes) : PopulatedTransaction :=
  mkPopulated (mkTx 0 [input script] [mkOutput 25 (mkSpk 0 [81]) None] 0 SUBNETWORK_ID_NATIVE 0 [] 0) [entry].
Definition msg : Hash := tx_message (populated []) 0 SIG_HASH_ALL.
Definition sig_script : bytes := 65 :: (msg ++ key) ++ [SIG_HASH_ALL].

Definition env : Env :=
  mkEnv (mkFlags true 1000) (TxInput (populated sig_script) (input sig_script) 0 entry false) EMPTY_COV_CONTEXT None.
Definition meter : RuntimeResourceMeter := ScriptUnits (units_new 1000 5000).

(** Without and with the signature in the cache. *)
Definition fresh : Engine := mkEngine (new_state (flags env) meter) reused_new (cache_new 10 (λ _, 0%nat)).
Definition cached : Engine :=
  mkEngine (new_state (flags env) meter) reused_new (mkCache [(KeySchnorr (msg ++ key) key msg, true)] 10 (λ _, 0%nat) 0).
End SampleEngine.

(** C5. Executing the scripts of an engine never panics: from a fresh state it returns
    or it is one of the script errors.  The verdict, the final stacks and the metered
    resources are the same for every two engines that differ in their signature cache
    and in their memo of signature hashes, when both hold true entries; and they still
    do afterwards.  What remains of the commitment is between zero and the limit. *)
Theorem execute_verdict `{SigningHashes} `{SigCrypto} `{ScriptHashesLaws} `{ZkLibsLaws} env m e1 e2 :
  env_ok env → meter_ok m → es e1 = new_state (flags env) m → same_core env e1 e2 →
  match execute env e1, execute env e2 with
  | Ok (_, e1'), Ok (_, e2') =>
      same_core env e1' e2' ∧ meter_limit (meter (es e1')) = meter_limit m ∧
      0 ≤ meter_remaining (meter (es e1')) ≤ meter_remaining m
  | Err x, Err y => x = y
  | _, _ => False
  end.
Proof.
  intros Henv Hm Hs He. pose proof (execute_rel env Henv m e1 e2 He) as Hr. rewrite Hs in Hr.
  specialize (Hr (new_state_ok _ _ Hm)).
  destruct (execute env e1) as [[[] e1']| |], (execute env e2) as [[[] e2']| |]; try done.
  destruct Hr as (_ & He' & _ & _ & _ & Hok & Hl & Hle). split_and!; [done|done| |done].
  unfold meter_ok, meter_remaining in *. case_match; lia.
Qed.

(** C6. The engine state is well formed after every opcode.  From a state whose stacks hold
    byte strings within the element bound and have no bytes left to charge, whose operation
    count is within the limit in force and whose meter is within its commitment and has at
    most what [m] has left, executing any opcode that the parser can return gives such a
    state again, with truthful caches, or an error; it does not panic. *)
Theorem opcode_preserves_state `{SigningHashes} `{SigCrypto} `{ScriptHashesLaws} `{ZkLibsLaws} env m op script e :
  env_ok env → is_bytes script → Ok op ∈ parse_script script →
  state_ok (covenants (flags env)) m 0 (es e) → caches_ok env e →
  match execute_opcode env op e with
  | Ok (_, e') => state_ok (covenants (flags env)) m 0 (es e') ∧ caches_ok env e'
  | Err _ => True
  | Panic => False
  end.
Proof.
  intros Henv Hb Hop Hs Hc. pose proof (parse_script_ok (length script) script ltac:(done) Hb) as Hall.
  rewrite Forall_forall in Hall. specialize (Hall _ Hop).
  pose proof (execute_opcode_rel env Henv m op Hall e e (conj eq_refl (conj Hc Hc)) Hs) as Hr.
  destruct (execute_opcode env op e) as [[[] e']| |]; [|done..]. destruct Hr as (_ & (_ & Hc' & _) & Hs'). done.
Qed.

#[local] Existing Instances SampleTx.hashes SampleEngine.crypto SampleEngine.hashes SampleEngine.hashes_laws
  SampleEngine.zk SampleEngine.zk_laws.

Lemma execute_verdict_witness :
  match execute SampleEngine.env SampleEngine.fresh, execute SampleEngine.env SampleEngine.cached with
  | Ok (_, e1'), Ok (_, e2') =>
      same_core SampleEngine.env e1' e2' ∧ meter_limit (meter (es e1')) = 5000 ∧
      0 ≤ meter_remaining (meter (es e1')) ≤ 5000
  | Err x, Err y => x = y
  | _, _ => False
  end ∧ (∃ e, execute SampleEngine.env SampleEngine.cached = Ok (tt, e)).
Proof.
  split.
  - apply (execute_verdict SampleEngine.env SampleEngine.meter); [|by vm_compute|done|].
    + split; [|by intros]. split; [|split; [|split]]; [SampleTx.wf..|simpl; lia].
    + split; [done|]. split; (split; [|apply reused_new_ok]); [constructor|]. by repeat constructor.
  - vm_compute. by eexists.
Defined.

Lemma opcode_preserves_state_witness :
  match execute_opcode SampleEngine.env (mkOp 81 []) SampleEngine.fresh with
  | Ok (_, e') => state_ok true SampleEngine.meter 0 (es e') ∧ caches_ok SampleEngine.env e'
  | Err _ => True
  | Panic => False
  end.
Proof.
  apply (opcode_preserves_state SampleEngine.env SampleEngine.meter (mkOp 81 []) [81]).
  - split; [|by intros]. split; [|split; [|split]]; [SampleTx.wf..|simpl; lia].
  - apply (bool_decide_unpack _). by vm_compute.
  - apply list_elem_of_here.
  - by apply new_state_ok.
  - split; [constructor|apply reused_new_ok].
Defined.
