(* ===== verification/ScriptStandard.v ===== *)
(** * Building scripts (crypto/txscript/src/script_builder.rs, standard.rs, standard/multisig.rs)

    The script builder, the standard scripts that pay to an address and back, and
    the redeem scripts of multisig. *)

From S2P Require Import Prelude Bytes Address Transaction StateMonad ScriptNum ScriptStack ScriptMeter.
From S2P Require Import ScriptParse ScriptState ZkPrecompiles ScriptOps ScriptExec.

(** ** The builder *)

Inductive ScriptBuilderError :=
| OpCodeRejected (opcode max : Z)
| OpCodesRejected (n max : Z)
| DataRejected (n max : Z)
| ElementExceedsMaxSize (n max : Z)
| IntegerRejected (n max : Z)
| ExplicitDataPushRejected
| BuilderSerialization (e : SerializationError).

Record ScriptBuilder := mkBuilder { b_script : bytes; b_flags : EngineFlags }.
Abbreviation buildM := (stm ScriptBuilderError ScriptBuilder).

Definition with_flags (fl : EngineFlags) : ScriptBuilder := mkBuilder [] fl.
Definition default_flags : EngineFlags := mkFlags false (1000 * SCRIPT_UNITS_PER_GRAM).
Definition builder_new : ScriptBuilder := with_flags default_flags.

(** [self.script.extend(..)]. *)
Definition extend (l : bytes) : buildM () := modify (λ b, mkBuilder (b_script b ++ l) (b_flags b)).
Definition drain : buildM bytes := λ b, Ok (b_script b, mkBuilder [] (b_flags b)).
Definition size_limit : buildM Z := gets (λ b, max_scripts_size (covenants (b_flags b))).

Definition add_op (opcode : Z) : buildM () :=
  max ← size_limit;
  len ← gets (λ b, zlen (b_script b));
  if max <=? len then throw (OpCodeRejected opcode max) else extend [opcode].

Definition add_opcodes (opcodes : bytes) : buildM () :=
  max ← size_limit;
  len ← gets (λ b, zlen (b_script b));
  if max <? len + zlen opcodes then throw (OpCodesRejected (zlen opcodes) max) else extend opcodes.

Definition explicit_push_encoded_size (data_len : Z) : Z :=
  data_len +
  (if data_len <=? OP_DATA_MAX_VAL then 1
   else if data_len <=? 255 then 2
   else if data_len <=? 65535 then 3
   else 5).

(** [[OP_SMALL_INT_MIN_VAL..=OP_SMALL_INT_MAX_VAL]]. *)
Definition is_small_int (b : Z) : bool := (OP_SMALL_INT_MIN_VAL <=? b) && (b <=? OP_SMALL_INT_MAX_VAL).

Definition canonical_data_size (data : bytes) : Z :=
  match data with
  | [] => 1
  | [b] => if is_small_int b || (b =? OP_1_NEGATE_VAL) then 1 else explicit_push_encoded_size 1
  | _ => explicit_push_encoded_size (zlen data)
  end.

Definition add_raw_data_with_data_opcode (data : bytes) : buildM () :=
  let data_len := zlen data in
  if data_len =? 0 then extend [OpFalse]
  else
    _ ← (if data_len <=? OP_DATA_MAX_VAL then extend [(OP_DATA_MIN_VAL - 1 + data_len) mod 2 ^ 8]
         else if data_len <=? 255 then extend (OpPushData1 :: le_bytes 1 data_len)
         else if data_len <=? 65535 then extend (OpPushData2 :: le_bytes 2 data_len)
         else extend (OpPushData4 :: le_bytes 4 (data_len mod 2 ^ 32)));
    extend data.

Definition add_raw_data (data : bytes) : buildM () :=
  match data with
  | [b] =>
      if b =? OP_1_NEGATE_VAL then extend [Op1Negate]
      else if is_small_int b then extend [OpTrue - 1 + b]
      else add_raw_data_with_data_opcode data
  | _ => add_raw_data_with_data_opcode data
  end.

Definition validate_data_push (data : bytes) (data_size : Z) : buildM () :=
  max ← size_limit;
  len ← gets (λ b, zlen (b_script b));
  if max <? len + data_size then throw (DataRejected data_size max)
  else
    max ← gets (λ b, max_script_element_size (covenants (b_flags b)));
    if max <? zlen data then throw (ElementExceedsMaxSize (zlen data) max) else ok tt.

Definition add_data (data : bytes) : buildM () :=
  _ ← validate_data_push data (canonical_data_size data);
  add_raw_data data.

Definition add_data_with_push_opcode (data : bytes) : buildM () :=
  c ← gets (λ b, covenants (b_flags b));
  if negb c then throw ExplicitDataPushRejected
  else
    _ ← validate_data_push data (explicit_push_encoded_size (zlen data));
    add_raw_data_with_data_opcode data.

Definition add_i64 (val : Z) : buildM () :=
  max ← size_limit;
  len ← gets (λ b, zlen (b_script b));
  if max <? len + 1 then throw (IntegerRejected val max)
  else if val =? 0 then extend [OpFalse]
  else if (val =? -1) || ((1 <=? val) && (val <=? 16)) then extend [OpTrue - 1 + val]
  else
    data ← lift_res (map_err BuilderSerialization (serialize_num64 val));
    add_data data.

(** The bytes of a lock time or sequence without the zeros at the end. *)
Fixpoint trim_zeros (rev_bytes : bytes) : bytes :=
  match rev_bytes with
  | 0 :: l => trim_zeros l
  | l => l
  end.
Definition add_u64 (val : Z) : buildM () := add_data (reverse (trim_zeros (reverse (le_bytes 8 val)))).
Definition add_lock_time (lock_time : Z) : buildM () := add_u64 lock_time.
Definition add_sequence (sequence : Z) : buildM () := add_u64 sequence.

(** ** Standard scripts *)

Definition pay_to_pub_key {E} (address_payload : bytes) : res E bytes :=
  _ ← assert_p (length address_payload =? 32)%nat;
  Ok ([OpData32] ++ address_payload ++ [OpCheckSig]).
Definition pay_to_pub_key_ecdsa {E} (address_payload : bytes) : res E bytes :=
  _ ← assert_p (length address_payload =? 33)%nat;
  Ok ([OpData33] ++ address_payload ++ [OpCheckSigECDSA]).
Definition pay_to_script_hash {E} (script_hash : bytes) : res E bytes :=
  _ ← assert_p (length script_hash =? 32)%nat;
  Ok ([OpBlake2b; OpData32] ++ script_hash ++ [OpEqual]).
(** The length is only a [debug_assert]. *)
Definition pay_to_shielded_address (address_payload : bytes) : bytes := address_payload.

Definition class_from_version (v : Version) : ScriptClass :=
  match v with
  | V_PubKey => PubKey
  | V_PubKeyECDSA => PubKeyECDSA
  | V_ScriptHash => ScriptHash
  | V_ShieldedOrchard => NonStandard
  end.

Definition pay_to_address_script {E} (a : Address) : res E ScriptPublicKey :=
  script ← match Address.version a with
           | V_PubKey => pay_to_pub_key (Address.payload a)
           | V_PubKeyECDSA => pay_to_pub_key_ecdsa (Address.payload a)
           | V_ScriptHash => pay_to_script_hash (Address.payload a)
           | V_ShieldedOrchard => Ok (pay_to_shielded_address (Address.payload a))
           end;
  Ok (mkSpk (class_version (class_from_version (Address.version a))) script).

Definition pay_to_script_hash_script `{ScriptHashes} {E} (redeem_script : bytes) : res E ScriptPublicKey :=
  script ← pay_to_script_hash (blake2b_256 redeem_script);
  Ok (mkSpk (class_version ScriptHash) script).

Definition pay_to_script_hash_signature_script_with_flags (redeem_script signature : bytes) (fl : EngineFlags) :
    res ScriptBuilderError bytes :=
  '(_, b) ← add_data redeem_script (with_flags fl);
  Ok (signature ++ b_script b).
Definition pay_to_script_hash_signature_script (redeem_script signature : bytes) : res ScriptBuilderError bytes :=
  pay_to_script_hash_signature_script_with_flags redeem_script signature default_flags.

(** [&script[i..j]]. *)
Definition slice {E} (l : bytes) (i j : nat) : res E bytes :=
  if ((i <=? j) && (j <=? length l))%nat then Ok (take (j - i) (drop i l)) else Panic.

Definition extract_script_pub_key_address (spk : ScriptPublicKey) (p : Prefix) : res TxScriptError Address :=
  let class := class_from_script spk in
  if class_version class <? spk_version spk then Err PubKeyFormat
  else
    let script := spk_script spk in
    match class with
    | NonStandard => Err PubKeyFormat
    | PubKey => pl ← slice script 1 33; address_new p V_PubKey pl
    | PubKeyECDSA => pl ← slice script 1 34; address_new p V_PubKeyECDSA pl
    | ScriptHash => pl ← slice script 2 34; address_new p V_ScriptHash pl
    end.

(** ** Multisig redeem scripts *)

Inductive MultisigError := ErrTooManyRequiredSigs | MultisigBuilder (e : ScriptBuilderError) | EmptyKeys.

Fixpoint add_keys (keys : list bytes) : buildM () :=
  match keys with
  | [] => ok tt
  | key :: keys => _ ← add_data key; add_keys keys
  end.

(** Both redeem scripts, which differ in the last opcode.  The size hint of an
    iterator over a list is its length. *)
Definition multisig_script (opcode : Z) (pub_keys : list bytes) (required : nat) : res MultisigError bytes :=
  if (length pub_keys <? required)%nat then Err ErrTooManyRequiredSigs
  else
    '(_, b) ← map_err MultisigBuilder ((_ ← add_i64 (Z.of_nat required); add_keys pub_keys) builder_new);
    if (length pub_keys <? required)%nat then Err ErrTooManyRequiredSigs
    else if (length pub_keys =? 0)%nat then Err EmptyKeys
    else
      '(_, b) ← map_err MultisigBuilder ((_ ← add_i64 (Z.of_nat (length pub_keys)); add_op opcode) b);
      Ok (b_script b).
Definition multisig_redeem_script : list bytes → nat → res MultisigError bytes := multisig_script OpCheckMultiSig.
Definition multisig_redeem_script_ecdsa : list bytes → nat → res MultisigError bytes := multisig_script OpCheckMultiSigECDSA.

(** ** Addresses and scripts *)

Lemma two_ends (l : bytes) n a b :
  length l = (n + 2)%nat → l !! 0%nat = Some a → l !! (n + 1)%nat = Some b → l = [a] ++ take n (drop 1 l) ++ [b].
Proof.
  intros Hn Ha Hb. destruct l as [|x l]; [done|]. injection Ha as ->. simpl. f_equal. rewrite drop_0.
  replace (n + 1)%nat with (S n) in Hb by lia. simpl in Hn, Hb.
  rewrite <- (take_S_r _ _ _ Hb). symmetry. apply take_ge. lia.
Qed.

Lemma at_is_true script i b : at_is script i b = true ↔ script !! i = Some b.
Proof. unfold at_is. apply bool_decide_eq_true. Qed.

(** The three standard scripts, as their recognisers see them. *)
Lemma is_pay_to_pubkey_spec s : is_pay_to_pubkey s = true ↔ ∃ pl, length pl = 32%nat ∧ s = [OpData32] ++ pl ++ [OpCheckSig].
Proof.
  unfold is_pay_to_pubkey. rewrite !andb_true_iff, !at_is_true, Nat.eqb_eq. split.
  - intros [[Hn H0] H1]. exists (take 32 (drop 1 s)). split; [rewrite length_take, length_drop; lia|]. by apply two_ends.
  - intros (pl & Hn & ->). rewrite length_app. simpl. rewrite length_app, Hn.
    split; [done|]. by rewrite lookup_app_r, Hn by lia.
Qed.
Lemma is_pay_to_pubkey_ecdsa_spec s :
  is_pay_to_pubkey_ecdsa s = true ↔ ∃ pl, length pl = 33%nat ∧ s = [OpData33] ++ pl ++ [OpCheckSigECDSA].
Proof.
  unfold is_pay_to_pubkey_ecdsa. rewrite !andb_true_iff, !at_is_true, Nat.eqb_eq. split.
  - intros [[Hn H0] H1]. exists (take 33 (drop 1 s)). split; [rewrite length_take, length_drop; lia|]. by apply two_ends.
  - intros (pl & Hn & ->). rewrite length_app. simpl. rewrite length_app, Hn.
    split; [done|]. by rewrite lookup_app_r, Hn by lia.
Qed.
Lemma is_pay_to_script_hash_spec s :
  is_pay_to_script_hash s = true ↔ ∃ pl, length pl = 32%nat ∧ s = [OpBlake2b; OpData32] ++ pl ++ [OpEqual].
Proof.
  unfold is_pay_to_script_hash. rewrite !andb_true_iff, !at_is_true, Nat.eqb_eq. split.
  - intros [[[Hn H0] H1] H2]. exists (take 32 (drop 2 s)). split; [rewrite length_take, length_drop; lia|].
    destruct s as [|x s]; [done|]. injection H0 as ->. cbn [app drop]. f_equal. simpl in Hn. injection Hn as Hn.
    by apply (two_ends s 32).
  - intros (pl & Hn & ->). rewrite length_app. simpl. rewrite length_app, Hn.
    split; [done|]. by rewrite lookup_app_r, Hn by lia.
Qed.

Lemma slice_inner {E} a pl b : @slice E (a ++ pl ++ b) (length a) (length a + length pl) = Ok pl.
Proof.
  unfold slice. rewrite !length_app.
  assert ((length a <=? length a + length pl) && (length a + length pl <=? length a + (length pl + length b)) = true)%nat as ->.
  { apply andb_true_iff. split; apply Nat.leb_le; lia. }
  rewrite drop_app_length. f_equal. replace (length a + length pl - length a)%nat with (length pl) by lia.
  apply take_app_length.
Qed.

(** What is recognised, and what address it is for. *)
Lemma extract_class spk p :
  match class_from_script spk with
  | NonStandard => extract_script_pub_key_address spk p = Err PubKeyFormat
  | PubKey => ∃ pl, length pl = 32%nat ∧ spk = mkSpk 0 ([OpData32] ++ pl ++ [OpCheckSig]) ∧
      extract_script_pub_key_address spk p = Ok (mkAddress p V_PubKey pl)
  | PubKeyECDSA => ∃ pl, length pl = 33%nat ∧ spk = mkSpk 0 ([OpData33] ++ pl ++ [OpCheckSigECDSA]) ∧
      extract_script_pub_key_address spk p = Ok (mkAddress p V_PubKeyECDSA pl)
  | ScriptHash => ∃ pl, length pl = 32%nat ∧ spk = mkSpk 0 ([OpBlake2b; OpData32] ++ pl ++ [OpEqual]) ∧
      extract_script_pub_key_address spk p = Ok (mkAddress p V_ScriptHash pl)
  end.
Proof.
  unfold extract_script_pub_key_address. destruct (class_from_script spk) eqn:Hc; unfold class_from_script in Hc.
  - by destruct (_ <? _).
  - destruct (Z.eqb_spec (spk_version spk) 0) as [Hv|]; [|done].
    destruct (is_pay_to_pubkey _) eqn:H1; [|by repeat case_match].
    apply is_pay_to_pubkey_spec in H1 as (pl & Hn & Hs). exists pl. split; [done|].
    split; [by destruct spk; simpl in *; subst|]. rewrite Hv, Hs. cbn [class_version Z.ltb Z.compare].
    pose proof (slice_inner (E := TxScriptError) [OpData32] pl [OpCheckSig]) as Hsl. rewrite Hn in Hsl. simpl in Hsl |- *.
    rewrite Hsl. simpl. unfold address_new. by rewrite Hn.
  - destruct (Z.eqb_spec (spk_version spk) 0) as [Hv|]; [|done]. destruct (is_pay_to_pubkey _); [done|].
    destruct (is_pay_to_pubkey_ecdsa _) eqn:H1; [|by repeat case_match].
    apply is_pay_to_pubkey_ecdsa_spec in H1 as (pl & Hn & Hs). exists pl. split; [done|].
    split; [by destruct spk; simpl in *; subst|]. rewrite Hv, Hs. cbn [class_version Z.ltb Z.compare].
    pose proof (slice_inner (E := TxScriptError) [OpData33] pl [OpCheckSigECDSA]) as Hsl. rewrite Hn in Hsl. simpl in Hsl |- *.
    rewrite Hsl. simpl. unfold address_new. by rewrite Hn.
  - destruct (Z.eqb_spec (spk_version spk) 0) as [Hv|]; [|done].
    destruct (is_pay_to_pubkey _); [done|]. destruct (is_pay_to_pubkey_ecdsa _); [done|].
    destruct (is_pay_to_script_hash _) eqn:H1; [|done].
    apply is_pay_to_script_hash_spec in H1 as (pl & Hn & Hs). exists pl. split; [done|].
    split; [by destruct spk; simpl in *; subst|]. rewrite Hv, Hs. cbn [class_version Z.ltb Z.compare].
    pose proof (slice_inner (E := TxScriptError) [OpBlake2b; OpData32] pl [OpEqual]) as Hsl. rewrite Hn in Hsl. simpl in Hsl |- *.
    rewrite Hsl. simpl. unfold address_new. by rewrite Hn.
Qed.

Lemma class_of_pubkey pl : length pl = 32%nat → class_from_script (mkSpk 0 ([OpData32] ++ pl ++ [OpCheckSig])) = PubKey.
Proof.
  intros Hn. unfold class_from_script. cbn [spk_version spk_script Z.eqb].
  rewrite (proj2 (is_pay_to_pubkey_spec _)); [done|]. by exists pl.
Qed.
Lemma class_of_pubkey_ecdsa pl :
  length pl = 33%nat → class_from_script (mkSpk 0 ([OpData33] ++ pl ++ [OpCheckSigECDSA])) = PubKeyECDSA.
Proof.
  intros Hn. unfold class_from_script. cbn [spk_version spk_script Z.eqb]. destruct (is_pay_to_pubkey _) eqn:H1.
  { apply is_pay_to_pubkey_spec in H1 as (pl' & Hn' & Heq). apply (f_equal length) in Heq. rewrite !length_app in Heq. simpl in Heq. lia. }
  rewrite (proj2 (is_pay_to_pubkey_ecdsa_spec _)); [done|]. by exists pl.
Qed.
Lemma class_of_script_hash pl :
  length pl = 32%nat → class_from_script (mkSpk 0 ([OpBlake2b; OpData32] ++ pl ++ [OpEqual])) = ScriptHash.
Proof.
  intros Hn. unfold class_from_script. cbn [spk_version spk_script Z.eqb]. destruct (is_pay_to_pubkey _) eqn:H1.
  { apply is_pay_to_pubkey_spec in H1 as (pl' & Hn' & Heq). done. }
  destruct (is_pay_to_pubkey_ecdsa _) eqn:H2.
  { apply is_pay_to_pubkey_ecdsa_spec in H2 as (pl' & Hn' & Heq). done. }
  rewrite (proj2 (is_pay_to_script_hash_spec _)); [done|]. by exists pl.
Qed.

(** Addresses and standard scripts correspond: extraction from a script public key
    returns an address exactly when it is the transparent address, with the prefix
    asked for, whose script it is; every other script is refused with an error, and
    extraction never panics. *)
Theorem extract_address_iff spk p :
  (∀ a, extract_script_pub_key_address spk p = Ok a ↔
    Address.prefix a = p ∧ version_is_shielded (Address.version a) = false ∧
    pay_to_address_script (E := TxScriptError) a = Ok spk) ∧
  (extract_script_pub_key_address spk p = Err PubKeyFormat ∨ ∃ a, extract_script_pub_key_address spk p = Ok a).
Proof.
  split.
  2:{ pose proof (extract_class spk p) as Hc. destruct (class_from_script spk); [by left|right..];
      destruct Hc as (? & _ & _ & ->); by eexists. }
  intros a. split.
  - pose proof (extract_class spk p) as Hc. intros He. destruct (class_from_script spk); [congruence|..];
      destruct Hc as (pl & Hn & -> & Hx); rewrite Hx in He; injection He as <-; (split; [done|]); (split; [done|]);
      unfold pay_to_address_script, pay_to_pub_key, pay_to_pub_key_ecdsa, pay_to_script_hash; cbn [Address.version Address.payload];
      by rewrite Hn.
  - intros (<- & Hs & Hp). destruct a as [px v pl]. cbn [Address.prefix Address.version Address.payload] in *.
    unfold pay_to_address_script in Hp. cbn [Address.version Address.payload] in Hp.
    destruct v; [| | |done]; unfold pay_to_pub_key, pay_to_pub_key_ecdsa, pay_to_script_hash, assert_p in Hp;
      (match type of Hp with context [(length pl =? ?k)%nat] => destruct (Nat.eqb_spec (length pl) k) as [Hn|] end; [|done]);
      injection Hp as <-.
    + pose proof (extract_class (mkSpk 0 ([OpData32] ++ pl ++ [OpCheckSig])) px) as Hc. rewrite class_of_pubkey in Hc by done.
      destruct Hc as (pl' & Hn' & [= Heq] & Hx). apply app_inj_tail in Heq as [-> _]. exact Hx.
    + pose proof (extract_class (mkSpk 0 ([OpData33] ++ pl ++ [OpCheckSigECDSA])) px) as Hc. rewrite class_of_pubkey_ecdsa in Hc by done.
      destruct Hc as (pl' & Hn' & [= Heq] & Hx). apply app_inj_tail in Heq as [-> _]. exact Hx.
    + pose proof (extract_class (mkSpk 0 ([OpBlake2b; OpData32] ++ pl ++ [OpEqual])) px) as Hc. rewrite class_of_script_hash in Hc by done.
      destruct Hc as (pl' & Hn' & [= Heq] & Hx). apply app_inj_tail in Heq as [-> _]. exact Hx.
Qed.

(** ** What the builder appends *)

Definition data_op (d : bytes) : OpCode :=
  if zlen d =? 0 then mkOp OpFalse []
  else if zlen d <=? OP_DATA_MAX_VAL then mkOp (zlen d) d
  else if zlen d <=? 255 then mkOp OpPushData1 d
  else if zlen d <=? 65535 then mkOp OpPushData2 d
  else mkOp OpPushData4 d.
Definition appended (b : ScriptBuilder) (l : bytes) : ScriptBuilder := mkBuilder (b_script b ++ l) (b_flags b).

Lemma op_length_data n : 1 ≤ n ≤ 75 → op_length n = Fixed (Z.to_nat (n + 1)).
Proof.
  intros Hn. unfold op_length. by rewrite (proj2 (Z.leb_le 1 n)), (proj2 (Z.leb_le n 75)) by lia.
Qed.

Lemma op_length_plain n : n = 0 ∨ 79 ≤ n → op_length n = Fixed 1.
Proof.
  intros Hn. unfold op_length. destruct ((1 <=? n) && (n <=? 75)) eqn:Hr.
  { apply andb_true_iff in Hr as [?%Z.leb_le ?%Z.leb_le]. lia. }
  rewrite (proj2 (Z.eqb_neq n _)), (proj2 (Z.eqb_neq n _)), (proj2 (Z.eqb_neq n _)) by lia. done.
Qed.

Ltac sizes := repeat first [done | lia | split | (left; done) | (right; lia) | intros ?].

(** A data opcode: it is valid, serialised as the builder does, and minimal unless a
    small number has an opcode of its own. *)
Lemma data_op_spec d b :
  is_bytes d → zlen d < 2 ^ 32 →
  add_raw_data_with_data_opcode d b = Ok (tt, appended b (op_serialize (data_op d))) ∧
  op_valid (data_op d) ∧ zlen (op_serialize (data_op d)) = explicit_push_encoded_size (zlen d) ∧
  op_data (data_op d) = d ∧ value (data_op d) ≤ OpPushData4 ∧ (zlen d = 0 ↔ value (data_op d) = OpFalse) ∧
  (value (data_op d) = OpFalse ∨ 1 ≤ value (data_op d)).
Proof.
  intros Hd Hlen. pose proof (zlen_nonneg d) as Hpos.
  unfold add_raw_data_with_data_opcode, data_op, extend, modify, mbind, stm_mbind, appended, explicit_push_encoded_size.
  destruct (Z.eqb_spec (zlen d) 0) as [H0|H0].
  { destruct d; [|done]. sizes. }
  destruct (Z.leb_spec (zlen d) 75) as [H1|H1].
  { assert (op_length (zlen d) = Fixed (Z.to_nat (zlen d + 1))) as Hl by (apply op_length_data; lia).
    unfold op_serialize. cbn [value op_data]. rewrite Hl. rewrite Z.mod_small by lia. cbn [b_script b_flags].
    split; [do 3 f_equal; rewrite <- (assoc_L (++)); do 2 f_equal; lia|].
    split; [apply (op_valid_fixed (mkOp (zlen d) d) _ Hl); unfold zlen in *; simpl; lia|].
    unfold zlen in *. simpl. sizes. }
  destruct (Z.leb_spec (zlen d) 255) as [H2|H2]; [|destruct (Z.leb_spec (zlen d) 65535) as [H3|H3]].
  all: unfold op_serialize; cbn [value op_data].
  - change (op_length OpPushData1) with (Prefixed 1). cbn [b_script b_flags].
    rewrite (Z.mod_small (Z.of_nat (length d))) by (unfold zlen in *; simpl; lia).
    split; [do 3 f_equal; by rewrite <- (assoc_L (++))|].
    split; [apply (op_valid_prefixed (mkOp OpPushData1 d) 1%nat eq_refl); cbn [op_data]; lia|].
    unfold zlen in *. cbn [length app]. rewrite length_app, length_le_bytes. sizes.
  - change (op_length OpPushData2) with (Prefixed 2). cbn [b_script b_flags].
    rewrite (Z.mod_small (Z.of_nat (length d))) by (unfold zlen in *; simpl; lia).
    split; [do 3 f_equal; by rewrite <- (assoc_L (++))|].
    split; [apply (op_valid_prefixed (mkOp OpPushData2 d) 2%nat eq_refl); cbn [op_data]; lia|].
    unfold zlen in *. cbn [length app]. rewrite length_app, length_le_bytes. sizes.
  - change (op_length OpPushData4) with (Prefixed 4). cbn [b_script b_flags]. change (8 * Z.of_nat 4) with 32.
    split; [do 3 f_equal; by rewrite <- (assoc_L (++))|].
    split; [apply (op_valid_prefixed (mkOp OpPushData4 d) 4%nat eq_refl); cbn [op_data]; lia|].
    unfold zlen in *. cbn [length app]. rewrite length_app, length_le_bytes. sizes.
Qed.

Lemma is_small_int_cases b : is_small_int b = true → b ∈ seqZ 1 16.
Proof.
  unfold is_small_int. intros Hb. apply andb_true_iff in Hb as [?%Z.leb_le ?%Z.leb_le]. apply elem_of_seqZ. lia.
Qed.

(** Pushing an encoded number is pushing its bytes. *)
Lemma push_number_data n d s :
  serialize_num64 n = Ok d → zlen d ≤ MAX_SCRIPT_ELEMENT_SIZE_PRE_TOCCATA →
  push_literal_number n s = push_literal_data d s.
Proof.
  intros Hn Hd. unfold push_literal_number, push_literal_data, on_dstack, zoom, push_item_unmetered, push_unmetered.
  rewrite Hn. unfold check_element_size, max_element_size, gets, mbind, stm_mbind. cbn [map_err lift_res].
  destruct (covenants_enabled (dstack s)); by rewrite (proj2 (Z.ltb_ge _ _)) by lia.
Qed.

Lemma data_op_minimal d :
  match d with [b] => b ≠ OP_1_NEGATE_VAL ∧ is_small_int b = false | _ => True end →
  check_minimal_data_push (data_op d) = Ok tt.
Proof.
  intros Hd. pose proof (zlen_nonneg d) as Hpos. unfold check_minimal_data_push, data_op.
  destruct (Z.eqb_spec (zlen d) 0) as [H0|H0]; [done|].
  destruct d as [|b0 l]; [done|].
  assert ((zlen (b0 :: l) =? 1) && (OP_SMALL_INT_MIN_VAL <=? b0) && (b0 <=? OP_SMALL_INT_MAX_VAL) = false) as Hs.
  { destruct l; [|unfold zlen; rewrite (proj2 (Z.eqb_neq _ _)) by (simpl; lia); done]. destruct Hd as [_ Hd]. exact Hd. }
  assert ((zlen (b0 :: l) =? 1) && (b0 =? OP_1_NEGATE_VAL) = false) as Hn.
  { destruct l; [|unfold zlen; rewrite (proj2 (Z.eqb_neq _ _)) by (simpl; lia); done]. destruct Hd as [Hd _].
    rewrite (proj2 (Z.eqb_neq _ _) Hd). apply andb_false_r. }
  repeat match goal with |- context [zlen (b0 :: l) <=? ?k] => destruct (Z.leb_spec (zlen (b0 :: l)) k) end;
    cbn [op_data value]; rewrite (proj2 (Z.eqb_neq _ 0)) by done; cbn [idx lookup list_lookup unwrap mbind res_mbind];
    rewrite Hs, Hn; repeat match goal with |- context [zlen (b0 :: l) <=? ?k] => destruct (Z.leb_spec (zlen (b0 :: l)) k); try lia end;
    rewrite ?Z.eqb_refl; try done.
  - rewrite andb_false_r. done.
  - by rewrite (proj2 (Z.ltb_ge _ _)) by lia.
Qed.

(** An opcode that pushes [d] and is as short as it can be. *)
Definition pushes (op : OpCode) (d : bytes) : Prop :=
  op_valid op ∧ is_push_opcode (value op) = true ∧ zlen (op_serialize op) = canonical_data_size d ∧
  (0 < value op ≤ OpPushData4 → check_minimal_data_push op = Ok tt) ∧
  ∀ `{ScriptHashes} `{ZkLibs} env s, execute_plain env op s = push_literal_data d s.

Lemma plain_op_valid n : n = 0 ∨ 79 ≤ n → op_valid (mkOp n []).
Proof. intros Hn. by apply (op_valid_fixed (mkOp n []) 1 (op_length_plain n Hn)). Qed.

Lemma canonical_small b :
  is_small_int b = true → pushes (mkOp (OpTrue - 1 + b) []) [b].
Proof.
  intros Hb. pose proof (is_small_int_cases b Hb) as Hin. pose proof Hin as Hr. apply elem_of_seqZ in Hr.
  split; [apply plain_op_valid; lia|]. split; [by apply Z.leb_le; cbn [value]; lia|].
  split.
  { unfold canonical_data_size. rewrite Hb. unfold op_serialize. cbn [value op_data]. by rewrite op_length_plain by lia. }
  split; [cbn [value]; lia|]. intros ? ? env s. unfold execute_plain. cbn [value].
  rewrite (proj2 (Z.eqb_neq _ _)), (proj2 (Z.leb_gt _ _)), (proj2 (Z.eqb_neq _ _)) by lia.
  rewrite (proj2 (Z.leb_le 81 _)), (proj2 (Z.leb_le _ 96)) by lia. cbn [andb].
  replace (OpTrue - 1 + b - (OpTrue - 1)) with b by lia. apply push_number_data; [|done].
  repeat (apply elem_of_cons in Hin as [->|Hin]; [reflexivity|]). by apply elem_of_nil in Hin.
Qed.

Lemma canonical_negate : pushes (mkOp Op1Negate []) [OP_1_NEGATE_VAL].
Proof.
  split; [by apply plain_op_valid; lia|]. split; [done|]. split; [done|]. split; [cbn [value]; lia|].
  intros ? ? env s. by apply (push_number_data (-1)).
Qed.

Lemma canonical_data d :
  is_bytes d → zlen d < 2 ^ 32 → canonical_data_size d = explicit_push_encoded_size (zlen d) →
  match d with [b] => b ≠ OP_1_NEGATE_VAL ∧ is_small_int b = false | _ => True end → pushes (data_op d) d.
Proof.
  intros Hd Hlen Hsize Hnot. destruct (data_op_spec d builder_new Hd Hlen) as (_ & Hv & Hs & Hdat & Hle & H0 & Hge).
  split; [done|]. split; [apply Z.leb_le; lia|]. split; [congruence|]. split; [intros _; by apply data_op_minimal|].
  intros ? ? env s. unfold execute_plain. destruct (Z.eqb_spec (value (data_op d)) OpFalse) as [Hf|Hf].
  - apply H0 in Hf. by destruct d.
  - rewrite (proj2 (Z.leb_le _ _)) by lia. by rewrite Hdat.
Qed.

Lemma add_raw_data_spec d b :
  is_bytes d → zlen d < 2 ^ 32 →
  ∃ op, add_raw_data d b = Ok (tt, appended b (op_serialize op)) ∧ pushes op d.
Proof.
  intros Hd Hlen. destruct d as [|x [|y l]].
  - exists (data_op []). split; [done|]. by apply canonical_data.
  - unfold add_raw_data. destruct (Z.eqb_spec x OP_1_NEGATE_VAL) as [->|Hx].
    { exists (mkOp Op1Negate []). split; [done|]. apply canonical_negate. }
    destruct (is_small_int x) eqn:Hs.
    { exists (mkOp (OpTrue - 1 + x) []). split; [|by apply canonical_small].
      unfold op_serialize. cbn [value op_data]. apply is_small_int_cases, elem_of_seqZ in Hs. by rewrite op_length_plain by lia. }
    exists (data_op [x]). split; [by apply data_op_spec|]. apply canonical_data; [done|done| |done].
    unfold canonical_data_size. by rewrite Hs, (proj2 (Z.eqb_neq _ _) Hx).
  - exists (data_op (x :: y :: l)). split; [by apply data_op_spec|]. by apply canonical_data.
Qed.

Lemma add_data_fits d b :
  is_bytes d → zlen (b_script b) + canonical_data_size d ≤ max_scripts_size (covenants (b_flags b)) →
  zlen d ≤ max_script_element_size (covenants (b_flags b)) →
  ∃ op, add_data d b = Ok (tt, appended b (op_serialize op)) ∧ pushes op d.
Proof.
  intros Hd Hfit Hel. unfold add_data, validate_data_push, size_limit, gets, mbind, stm_mbind. cbn beta.
  rewrite (proj2 (Z.ltb_ge _ _) Hfit), (proj2 (Z.ltb_ge _ _) Hel).
  assert (zlen d < 2 ^ 32) as Hlen by (unfold max_script_element_size in Hel; destruct (covenants (b_flags b)); lia).
  by apply add_raw_data_spec.
Qed.

(** The builder is canonical: data that it accepts is appended as one opcode that
    the parser reads back, of the announced size, which passes the engine's check for
    minimal pushes and whose execution pushes exactly that data; data beyond the limits
    is refused and leaves the script as it was. *)
Theorem add_data_canonical d b :
  is_bytes d →
  match add_data d b with
  | Ok (_, b') => ∃ op, b' = appended b (op_serialize op) ∧ pushes op d ∧
      zlen (b_script b') ≤ max_scripts_size (covenants (b_flags b))
  | Err (DataRejected n max) => n = canonical_data_size d ∧ max < zlen (b_script b) + n
  | Err (ElementExceedsMaxSize n max) => n = zlen d ∧ max < n
  | _ => False
  end.
Proof.
  intros Hd.
  destruct (Z.ltb_spec (max_scripts_size (covenants (b_flags b))) (zlen (b_script b) + canonical_data_size d)) as [H1|Hfit].
  { unfold add_data, validate_data_push, size_limit, gets, mbind, stm_mbind. cbn beta.
    by rewrite (proj2 (Z.ltb_lt _ _) H1). }
  destruct (Z.ltb_spec (max_script_element_size (covenants (b_flags b))) (zlen d)) as [H1|Hel].
  { unfold add_data, validate_data_push, size_limit, gets, mbind, stm_mbind. cbn beta.
    by rewrite (proj2 (Z.ltb_ge _ _) Hfit), (proj2 (Z.ltb_lt _ _) H1). }
  destruct (add_data_fits d b Hd Hfit Hel) as (op & -> & Hp). exists op. split; [done|]. split; [done|].
  destruct Hp as (_ & _ & Hs & _). unfold appended, zlen in *. cbn [b_script]. rewrite length_app. lia.
Qed.

Lemma add_data_canonical_witness :
  match add_data (replicate 32 7) builder_new with
  | Ok (_, b') => ∃ op, b' = appended builder_new (op_serialize op) ∧ pushes op (replicate 32 7) ∧
      zlen (b_script b') ≤ max_scripts_size false
  | Err (DataRejected n max) => n = canonical_data_size (replicate 32 7) ∧ max < zlen (b_script builder_new) + n
  | Err (ElementExceedsMaxSize n max) => n = zlen (replicate 32 7) ∧ max < n
  | _ => False
  end.
Proof. apply (add_data_canonical (replicate 32 7) builder_new). apply (bool_decide_unpack _). vm_compute. done. Defined.

(** ** What a multisig redeem script is made of *)

Lemma add_data_inv d b u b' :
  is_bytes d → add_data d b = Ok (u, b') → ∃ op, b' = appended b (op_serialize op) ∧ pushes op d.
Proof.
  intros Hd He. pose proof He as He'. unfold add_data, validate_data_push, size_limit, gets, mbind, stm_mbind in He'.
  cbn beta in He'. destruct (Z.ltb_spec (max_scripts_size (covenants (b_flags b))) (zlen (b_script b) + canonical_data_size d)); [done|].
  destruct (Z.ltb_spec (max_script_element_size (covenants (b_flags b))) (zlen d)); [done|].
  destruct (add_data_fits d b) as (op & Ha & Hp); [done..|]. rewrite Ha in He. injection He as _ <-. by exists op.
Qed.

Lemma appended_app b l1 l2 : appended (appended b l1) l2 = appended b (l1 ++ l2).
Proof. unfold appended. simpl. by rewrite (assoc_L (++)). Qed.

(** A number is pushed as its encoding, and there is room for it. *)
Lemma add_i64_inv n b u b' :
  0 ≤ n < 2 ^ 63 → add_i64 n b = Ok (u, b') →
  ∃ op d, b' = appended b (op_serialize op) ∧ serialize_num64 n = Ok d ∧ pushes op d.
Proof.
  intros Hn. unfold add_i64, size_limit, gets, mbind at 1 2, stm_mbind at 1 2.
  destruct (_ <? _); [done|]. destruct (Z.eqb_spec n 0) as [->|Hn0].
  { intros [= _ <-]. exists (data_op []), []. split; [done|]. split; [done|]. apply canonical_data; [constructor|done..]. }
  rewrite (proj2 (Z.eqb_neq n (-1))) by lia. cbn [orb]. destruct ((1 <=? n) && (n <=? 16)) eqn:Hs.
  - intros [= _ <-]. pose proof (is_small_int_cases n Hs) as Hin. exists (mkOp (OpTrue - 1 + n) []), [n].
    split; [|split; [|by apply canonical_small]].
    + unfold op_serialize. cbn [value op_data]. apply elem_of_seqZ in Hin. by rewrite op_length_plain by lia.
    + repeat (apply elem_of_cons in Hin as [->|Hin]; [reflexivity|]). by apply elem_of_nil in Hin.
  - destruct (serialize_sized_Ok 8 n) as (d & Hd & Hb & _); [lia|simpl; lia|]. unfold serialize_num64. rewrite Hd.
    intros (? & ? & [= <- <-] & He)%bind_ok_inv. apply add_data_inv in He as (op & -> & Hp); [|done]. by exists op, d.
Qed.

Lemma add_keys_inv keys b u b' :
  Forall is_bytes keys → add_keys keys b = Ok (u, b') →
  ∃ ops, b' = appended b (concat (op_serialize <$> ops)) ∧ Forall2 pushes ops keys.
Proof.
  intros Hk. revert b. induction Hk as [|key keys Hkey Hk IH]; intros b He.
  - injection He as _ <-. exists []. split; [|constructor]. unfold appended. simpl. rewrite app_nil_r. by destruct b.
  - cbn [add_keys] in He. apply bind_ok_inv in He as ([] & b1 & H1 & He).
    apply add_data_inv in H1 as (op & -> & Hp); [|done]. apply IH in He as (ops & -> & Hops).
    exists (op :: ops). split; [apply appended_app|by constructor].
Qed.

(** A redeem script pushes the number of signatures, the keys and their number. *)
Lemma multisig_script_inv opcode keys required script :
  79 ≤ opcode → Forall is_bytes keys → Z.of_nat (length keys) < 2 ^ 63 → multisig_script opcode keys required = Ok script →
  ∃ op1 ops op2 d1 d2, (required ≤ length keys)%nat ∧
    script = concat (op_serialize <$> (op1 :: ops ++ [op2; mkOp opcode []])) ∧
    serialize_num64 (Z.of_nat required) = Ok d1 ∧ serialize_num64 (Z.of_nat (length keys)) = Ok d2 ∧
    pushes op1 d1 ∧ Forall2 pushes ops keys ∧ pushes op2 d2.
Proof.
  intros Hop Hk Hlen. unfold multisig_script. destruct (Nat.ltb_spec (length keys) required) as [|Hr]; [done|].
  destruct ((_ ← add_i64 _; add_keys keys) builder_new) as [[u b]| |] eqn:H1; [|done..]. cbn [map_err mbind res_mbind].
  destruct (_ =? 0)%nat; [done|].
  destruct ((_ ← add_i64 _; add_op opcode) b) as [[u' b']| |] eqn:H2; [|done..]. intros [= <-].
  apply bind_ok_inv in H1 as ([] & b1 & H1 & Hkeys). apply bind_ok_inv in H2 as ([] & b2 & H2 & Hlast).
  apply add_i64_inv in H1 as (op1 & d1 & -> & Hd1 & Hp1); [|lia].
  apply add_keys_inv in Hkeys as (ops & -> & Hops); [|done].
  apply add_i64_inv in H2 as (op2 & d2 & -> & Hd2 & Hp2); [|lia].
  unfold add_op, size_limit, gets, mbind, stm_mbind in Hlast. cbn beta in Hlast. destruct (_ <=? _); [done|]. injection Hlast as _ <-.
  exists op1, ops, op2, d1, d2. split_and!; try done.
  assert (op_serialize (mkOp opcode []) = [opcode]) as Hser.
  { unfold op_serialize. cbn [value op_data]. by rewrite op_length_plain by lia. }
  rewrite fmap_cons, fmap_app. cbn [concat]. rewrite concat_app, !fmap_cons, fmap_nil, Hser. cbn [concat b_script appended app].
  by rewrite <- !(assoc_L (++)).
Qed.
