(* ===== verification/ScriptSpend.v ===== *)
(** * Spending standard outputs

    What the script engine's verdict means for the standard scripts: an output that
    pays to a public key is only spent by a signature script that pushes a valid
    signature, one that pays to a script hash only by one that pushes a script of
    that hash that accepts, and a multisig accepts exactly the signatures that match
    keys in order.  What a signature script pushes is read off its bytes. *)

From S2P Require Import Prelude Bytes Address Transaction Sighash Covenants StateMonad ScriptNum ScriptStack ScriptMeter.
From S2P Require Import ScriptParse ScriptState ZkPrecompiles ScriptOps ScriptExec ScriptSafety ScriptVerdict ScriptStandard.

Definition items (s : EngineState) : list StackEntry := inner (dstack s).

(** ** What a computation does to the data stack, when it returns

    From the items [l], the items and the result satisfy [Q]; the conditions stay. *)
Definition vpost {A} (l : list StackEntry) (k : list OpCond) (m : vmM A) (Q : A → list StackEntry → Prop) : Prop :=
  ∀ s a s', items s = l → cond_stack s = k → m s = Ok (a, s') → Q a (items s') ∧ cond_stack s' = k.

Lemma vpost_bind {A B} l k (m : vmM A) (f : A → vmM B) Q R :
  vpost l k m Q → (∀ a l', Q a l' → vpost l' k (f a) R) → vpost l k (m ≫= f) R.
Proof.
  intros Hm Hf s b s'' Hl Hk (a & s' & H1 & H2)%bind_ok_inv. destruct (Hm _ _ _ Hl Hk H1) as [HQ Hk'].
  by apply (Hf a (items s') HQ s').
Qed.

Lemma vpost_ok {A} l k (a : A) (Q : A → list StackEntry → Prop) : Q a l → vpost l k (ok a) Q.
Proof. intros HQ s b s' Hl Hk [= <- <-]. by rewrite Hl. Qed.
Lemma vpost_throw {A} l k x (Q : A → list StackEntry → Prop) : vpost l k (throw x) Q.
Proof. by intros s a s' _ _. Qed.
Lemma vpost_post {A} l k (m : vmM A) Q R : vpost l k m Q → (∀ a l', Q a l' → R a l') → vpost l k m R.
Proof. intros Hm HR s a s' Hl Hk He. destruct (Hm _ _ _ Hl Hk He). split; [by apply HR|done]. Qed.
Lemma vpost_lift_res {A} l k (r : res TxScriptError A) : vpost l k (lift_res r) (λ a l', l' = l ∧ r = Ok a).
Proof. intros s a s' Hl Hk. destruct r; simpl; [|done..]. by intros [= <- <-]. Qed.
Lemma vpost_gets {A} l k (f : list StackEntry → A) : vpost l k (gets (λ s, f (items s))) (λ a l', l' = l ∧ a = f l).
Proof. intros s a s' Hl Hk [= <- <-]. by rewrite Hl. Qed.

(** On the data stack. *)
Lemma vpost_dstack {A} l k (m : stackM A) (Q : A → list StackEntry → Prop) :
  (∀ d a d', inner d = l → m d = Ok (a, d') → Q a (inner d')) → vpost l k (on_dstack m) Q.
Proof.
  intros Hm s a s' Hl Hk. unfold on_dstack, zoom. destruct (m (dstack s)) as [[b d]| |] eqn:He; [|done..].
  intros [= <- <-]. split; [by eapply Hm|done].
Qed.

(** Whatever leaves both as they are. *)
Lemma vpost_meter l k (m : meterM ()) : vpost l k (on_meter m) (λ _ l', l' = l).
Proof.
  intros s a s' Hl Hk. unfold on_meter, zoom. destruct (m (meter s)) as [[b t]| |]; [|done..]. by intros [= <- <-].
Qed.
Lemma vpost_add_ops l k env n : vpost l k (add_ops env n) (λ _ l', l' = l).
Proof.
  unfold add_ops, gets, modify, mbind, stm_mbind. intros s a s' Hl Hk. unfold lift_res.
  destruct (signed_p 32 (num_ops s + n)); [|done..]. destruct (_ <? _); [done|]. by intros [= <- <-].
Qed.

Lemma add_pushed_inner n d a d' : add_pushed_bytes n d = Ok (a, d') → inner d' = inner d.
Proof. unfold add_pushed_bytes. destruct (checked_add _ _ _); [|done]. by intros [= <- <-]. Qed.

Lemma vpost_push l k x : vpost l k (on_dstack (stack_push x)) (λ _ l', l' = l ++ [x]).
Proof.
  apply vpost_dstack. intros d a d' <- He. unfold stack_push in He.
  apply bind_ok_inv in He as (? & d1 & H1 & He). apply bind_ok_inv in He as (? & d2 & H2 & [= <- <-]).
  unfold check_element_size, gets, mbind, stm_mbind in H1. destruct (_ <? _); [done|]. injection H1 as <- <-.
  apply add_pushed_inner in H2. simpl. by rewrite H2.
Qed.
Lemma vpost_push_literal l k x : vpost l k (push_literal_data x) (λ _ l', l' = l ++ [x]).
Proof.
  apply vpost_dstack. intros d a d' <- He. unfold push_unmetered in He.
  apply bind_ok_inv in He as (? & d1 & H1 & [= <- <-]).
  unfold check_element_size, gets, mbind, stm_mbind in H1. destruct (_ <? _); [done|]. by injection H1 as <- <-.
Qed.
Lemma vpost_push_bool l k b : vpost l k (push_bool b) (λ _ l', l' = l ++ [serialize_bool b]).
Proof.
  apply vpost_dstack. intros d a d' <- He. unfold push_item in He.
  apply bind_ok_inv in He as (? & d1 & H1 & He). simpl in H1. injection H1 as <- <-.
  apply bind_ok_inv in He as (? & d2 & H2 & [= <- <-]). apply add_pushed_inner in H2. simpl. by rewrite H2.
Qed.

Lemma pop_raw_inv n d a d' : pop_raw n d = Ok (a, d') → inner d = inner d' ++ a ∧ length a = n.
Proof.
  unfold pop_raw, require, gets, mbind, stm_mbind. unfold depth. destruct (Nat.ltb_spec (length (inner d)) n); [done|].
  cbn [ok]. unfold split_off, depth. rewrite (proj2 (Nat.leb_le _ _)) by lia. intros [= <- <-]. simpl.
  split; [by rewrite take_drop|]. rewrite length_drop. lia.
Qed.

Lemma vpost_arr1 {A} l k (a : list A) : vpost l k (arr1 a) (λ x l', l' = l ∧ a = [x]).
Proof. unfold arr1. destruct a as [|x [|y a]]; [by intros ?|by apply vpost_ok|by intros ?]. Qed.
Lemma vpost_arr2 {A} l k (a : list A) : vpost l k (arr2 a) (λ x l', l' = l ∧ a = [x.1; x.2]).
Proof. unfold arr2. destruct a as [|x [|y [|z a]]]; [by intros ?|by intros ?|by apply vpost_ok|by intros ?]. Qed.

Lemma vpost_pop1 l k : vpost l k pop_raw_1 (λ x l', l = l' ++ [x]).
Proof.
  eapply (vpost_bind _ _ _ _ (λ a l', l = l' ++ a ∧ length a = 1%nat)).
  { apply vpost_dstack. intros d a d' <- He. by apply pop_raw_inv in He. }
  intros a l' [-> _]. eapply vpost_post; [apply vpost_arr1|]. by intros x l'' [-> ->].
Qed.
Lemma vpost_pop2 l k : vpost l k pop_raw_2 (λ x l', l = l' ++ [x.1; x.2]).
Proof.
  eapply (vpost_bind _ _ _ _ (λ a l', l = l' ++ a ∧ length a = 2%nat)).
  { apply vpost_dstack. intros d a d' <- He. by apply pop_raw_inv in He. }
  intros a l' [-> _]. eapply vpost_post; [apply vpost_arr2|]. by intros x l'' [-> ->].
Qed.
(** One item, decoded. *)
Lemma vpost_pop_item {T} l k (f : bytes → bool → res TxScriptError T) :
  vpost l k (a ← on_dstack (pop_items f 1); arr1 a) (λ v l', ∃ x c, l = l' ++ [x] ∧ f x c = Ok v).
Proof.
  eapply (vpost_bind _ _ _ _ (λ a l', ∃ x c, l = l' ++ [x] ∧ match f x c with Ok v => a = [v] | _ => False end)).
  { apply vpost_dstack. intros d a d' <- He. unfold pop_items in He.
    apply bind_ok_inv in He as (v & d1 & H1 & He). apply pop_raw_inv in H1 as [H1 Hn].
    apply bind_ok_inv in He as (cv & d2 & [= <- <-] & He). destruct v as [|x [|y v]]; try done.
    unfold lift_res in He. simpl in He. destruct (f x _) as [b| |] eqn:Hb; [|done..]. injection He as <- <-.
    eexists x, _. by rewrite Hb. }
  intros a l' (x & c & -> & Hx). eapply vpost_post; [apply vpost_arr1|]. intros b l'' [-> ->].
  exists x, c. split; [done|]. destruct (f x c); [|done..]. by injection Hx as ->.
Qed.
Lemma vpost_pop_bool l k : vpost l k pop_bool (λ b l', ∃ x, l = l' ++ [x] ∧ deserialize_bool x = Ok b).
Proof. eapply vpost_post; [apply vpost_pop_item|]. intros b l' (x & _ & ?). by exists x. Qed.

Lemma vpost_split_top l k n : vpost l k (split_top n) (λ a l', l = l' ++ a ∧ length a = n).
Proof.
  unfold split_top. eapply vpost_bind; [apply (vpost_gets l k length)|]. intros len l' [-> ->].
  destruct (Nat.leb_spec n (length l)) as [Hle|]; [|apply vpost_throw].
  apply vpost_dstack. intros d a d' <- He. unfold split_off, depth in He. rewrite (proj2 (Nat.leb_le _ _)) in He by lia.
  injection He as <- <-. simpl. split; [by rewrite take_drop|]. rewrite length_drop. lia.
Qed.

Lemma vpost_pair_equal l k :
  vpost l k pop_pair_equal (λ b l', ∃ x y, l = l' ++ [x; y] ∧ b = bool_decide (x = y)).
Proof.
  unfold pop_pair_equal. eapply vpost_bind; [apply (vpost_gets l k length)|]. intros len l' [-> ->].
  destruct (Nat.leb_spec 2 (length l)) as [Hle|]; [|apply vpost_throw].
  eapply (vpost_bind _ _ _ _ (λ a l', l = l' ++ a ∧ length a = 2%nat)).
  { apply vpost_dstack. intros d a d' <- He. unfold split_off, depth in He. rewrite (proj2 (Nat.leb_le _ _)) in He by lia.
    injection He as <- <-. simpl. split; [by rewrite take_drop|rewrite length_drop; lia]. }
  intros a l' [-> Ha]. destruct a as [|x [|y [|z a]]]; try done.
  eapply vpost_bind; [apply vpost_lift_res|]. intros ? ? [-> [= <-]].
  eapply vpost_bind; [apply vpost_lift_res|]. intros ? ? [-> [= <-]]. apply vpost_ok. by exists x, y.
Qed.

(** The item that an opcode of a push-only script pushes, and those of the whole
    script, read off its bytes. *)
Definition pushed_item (op : OpCode) : StackEntry :=
  if value op =? OpFalse then []
  else if value op <=? OpPushData4 then op_data op
  else if value op =? Op1Negate then [129]
  else [value op - (OpTrue - 1)].
Definition script_items (script : bytes) : list StackEntry :=
  omap (λ r, match r with Ok op => Some (pushed_item op) | _ => None end) (parse_script script).

Lemma vpost_push_number l k n d : serialize_num64 n = Ok d → vpost l k (push_literal_number n) (λ _ l', l' = l ++ [d]).
Proof.
  intros Hd. apply vpost_dstack. intros st a st' <- He. unfold push_item_unmetered in He. rewrite Hd in He.
  apply bind_ok_inv in He as (? & d1 & [= <- <-] & [= <- <-]). done.
Qed.

Section engine.
Context `{SigningHashes} `{SigCrypto} `{ScriptHashesLaws} `{ZkLibsLaws} (env : Env) (Henv : env_ok env).

(** The same for the engine, whose caches stay truthful. *)
Definition epost {A} (l : list StackEntry) (k : list OpCond) (m : stm TxScriptError Engine A)
    (Q : A → list StackEntry → Prop) : Prop :=
  ∀ e a e', caches_ok env e → items (es e) = l → cond_stack (es e) = k → m e = Ok (a, e') →
    caches_ok env e' ∧ Q a (items (es e')) ∧ cond_stack (es e') = k.

Lemma epost_lift {A} l k (m : vmM A) Q : vpost l k m Q → epost l k (lift m) Q.
Proof.
  intros Hm e a e' Hc Hl Hk. unfold lift, zoom. destruct (m (es e)) as [[b s]| |] eqn:He; [|done..].
  intros [= <- <-]. destruct (Hm _ _ _ Hl Hk He). by split_and!.
Qed.
Lemma epost_bind {A B} l k (m : stm TxScriptError Engine A) (f : A → stm TxScriptError Engine B) Q R :
  epost l k m Q → (∀ a l', Q a l' → epost l' k (f a) R) → epost l k (m ≫= f) R.
Proof.
  intros Hm Hf e b e'' Hc Hl Hk (a & e' & H1' & H2')%bind_ok_inv. destruct (Hm _ _ _ Hc Hl Hk H1') as (Hc' & HQ & Hk').
  by apply (Hf a (items (es e')) HQ e').
Qed.
Lemma epost_ok {A} l k (a : A) (Q : A → list StackEntry → Prop) : Q a l → epost l k (ok a) Q.
Proof. intros HQ e b e' Hc Hl Hk [= <- <-]. by rewrite Hl. Qed.
Lemma epost_throw {A} l k x (Q : A → list StackEntry → Prop) : epost l k (throw x) Q.
Proof. by intros e a e' _ _ _. Qed.
Lemma epost_or_throw {A} l k (o : option A) x : epost l k (or_throw o x) (λ a l', l' = l ∧ o = Some a).
Proof. destruct o; [by apply epost_ok|apply epost_throw]. Qed.
Lemma epost_lift_res {A} l k (r : res TxScriptError A) : epost l k (lift_res r) (λ a l', l' = l ∧ r = Ok a).
Proof. destruct r; [by apply epost_ok|apply epost_throw|by intros e a e' _ _ _]. Qed.
Lemma epost_post {A} l k (m : stm TxScriptError Engine A) Q R : epost l k m Q → (∀ a l', Q a l' → R a l') → epost l k m R.
Proof. intros Hm HR e a e' Hc Hl Hk He. destruct (Hm _ _ _ Hc Hl Hk He) as (? & ? & ?). split_and!; [done|by apply HR|done]. Qed.

Lemma epost_cached l k key : epost l k (cached_verify key) (λ v l', l' = l ∧ v = verify_key key).
Proof.
  intros e a e' [Hc Hr] Hl Hk. unfold cached_verify. destruct (cache_get key (sig_cache e)) as [v|] eqn:Hg.
  - intros [= <- <-]. apply (cache_get_all _ _ _ _ Hc) in Hg as ->. done.
  - intros [= <- <-]. split; [split; [by apply cache_insert_all|done]|done].
Qed.
Lemma epost_message l k f h : msg_ok env f h → epost l k (message f) (λ x l', l' = l ∧ x = h).
Proof.
  intros Hf e a e' [Hc Hr] Hl Hk. unfold message. destruct (Hf (reused e) Hr) as (r & -> & Hr').
  by intros [= <- <-].
Qed.

Lemma epost_schnorr l k key sig f h :
  msg_ok env f h →
  epost l k (check_schnorr_signature_with_msg_hash key sig f) (λ v l', l' = l ∧ schnorr_valid key sig h = Some v).
Proof.
  intros Hf. unfold check_schnorr_signature_with_msg_hash.
  eapply epost_bind; [apply epost_lift, vpost_meter|]. intros _ l' ->.
  eapply epost_bind; [apply epost_or_throw|]. intros pk l' [-> Hpk].
  eapply epost_bind; [apply epost_or_throw|]. intros sg l' [-> Hsg].
  eapply epost_bind; [by apply epost_message|]. intros m l' [-> ->].
  eapply epost_post; [apply epost_cached|]. intros v l' [-> ->]. split; [done|].
  unfold schnorr_valid. by rewrite Hpk, Hsg.
Qed.
Lemma epost_ecdsa l k key sig f h :
  msg_ok env f h →
  epost l k (check_ecdsa_signature_with_msg_hash key sig f) (λ v l', l' = l ∧ ecdsa_valid key sig h = Some v).
Proof.
  intros Hf. unfold check_ecdsa_signature_with_msg_hash.
  eapply epost_bind; [apply epost_lift, vpost_meter|]. intros _ l' ->.
  eapply epost_bind; [apply epost_lift_res|]. intros [] l' [-> Henc].
  eapply epost_bind; [apply epost_or_throw|]. intros pk l' [-> Hpk].
  eapply epost_bind; [apply epost_or_throw|]. intros sg l' [-> Hsg].
  eapply epost_bind; [by apply epost_message|]. intros m l' [-> ->].
  eapply epost_post; [apply epost_cached|]. intros v l' [-> ->]. split; [done|].
  unfold ecdsa_valid, check_pub_key_encoding_ecdsa in *. destruct (length key =? 33)%nat; [|done]. by rewrite Hpk, Hsg.
Qed.

Definition echecks (check : Z → bytes → bytes → stm TxScriptError Engine bool) (valid : Z → bytes → bytes → option bool) : Prop :=
  ∀ l k ty key sig, epost l k (check ty key sig) (λ v l', l' = l ∧ valid ty key sig = Some v).

Lemma echecks_schnorr : echecks (check_schnorr_signature env) (tx_schnorr_valid env).
Proof.
  intros l k ty key sig. unfold check_schnorr_signature, tx_schnorr_valid.
  destruct (script_source env) as [p input i u b|] eqn:Hsrc; [|apply epost_throw].
  apply epost_schnorr. by eapply schnorr_msg_ok.
Qed.
Lemma echecks_ecdsa : echecks (check_ecdsa_signature env) (tx_ecdsa_valid env).
Proof.
  intros l k ty key sig. unfold check_ecdsa_signature, tx_ecdsa_valid.
  destruct (script_source env) as [p input i u b|] eqn:Hsrc; [|apply epost_throw].
  apply epost_ecdsa. by eapply ecdsa_msg_ok.
Qed.

(** What a signature check leaves: the answer, in place of a signature and a key. *)
Definition checked_sig (valid : Z → bytes → bytes → option bool) (l l' : list StackEntry) : Prop :=
  ∃ l0 sig key b, l = l0 ++ [sig; key] ∧ l' = l0 ++ [serialize_bool b] ∧
    (b = true → ∃ ty body, sig = body ++ [ty] ∧ sighash_type_from_u8 ty = Some ty ∧ valid ty key body = Some true).

Lemma last_app_inv {A} (sig : list A) t : last sig = Some t → sig = take (length sig - 1) sig ++ [t].
Proof.
  intros Hl. rewrite last_lookup in Hl. pose proof (lookup_lt_Some _ _ _ Hl) as Hlt.
  replace (pred (length sig)) with (length sig - 1)%nat in Hl by lia.
  rewrite <- (take_S_r _ _ _ Hl). symmetry. apply take_ge. lia.
Qed.

Lemma epost_check_sig l k check valid : echecks check valid → epost l k (check_sig_with check) (λ _, checked_sig valid l).
Proof.
  intros Hc. unfold check_sig_with. eapply epost_bind; [apply epost_lift, vpost_pop2|]. intros [sig key] l0 ->. cbn [fst snd].
  destruct (last sig) as [t|] eqn:Hlast.
  - eapply epost_bind; [apply epost_or_throw|]. intros ty l1 [-> Hty].
    eapply epost_bind; [apply Hc|]. intros v l1 [-> Hv].
    eapply epost_post; [apply epost_lift, vpost_push_bool|]. intros _ l1 ->. exists l0, sig, key, v.
    split; [done|]. split; [done|]. intros ->. unfold sighash_type_from_u8 in Hty. case_bool_decide as Hin; [|done].
    injection Hty as <-. exists t, (take (length sig - 1) sig). split; [by apply last_app_inv|]. split; [|done].
    unfold sighash_type_from_u8. by rewrite bool_decide_eq_true_2.
  - eapply epost_post; [apply epost_lift, vpost_push_bool|]. intros _ l1 ->. by exists l0, sig, key, false.
Qed.

(** ** Opcodes and scripts *)

Lemma vpost_pop_pushed l k : vpost l k pop_pushed_bytes (λ _ l', l' = l).
Proof. intros s a s' Hl Hk [= <- <-]. done. Qed.

Lemma epost_opcode l op Q :
  epost l [] (op_execute env op) Q → epost l [] (execute_opcode env op) Q.
Proof.
  intros Hop. unfold execute_opcode. eapply (epost_bind _ _ _ _ (λ _ l', l' = l)).
  { apply epost_lift. unfold count_opcode. destruct (negb _); [apply vpost_add_ops|].
    destruct (_ <? _); [apply vpost_throw|by apply vpost_ok]. }
  intros _ l' ->. eapply (epost_bind _ _ _ _ (λ ex l', l' = l ∧ ex = true)).
  { intros e a e' Hc Hl Hk [= <- <-]. unfold is_executing. rewrite Hk. done. }
  intros ex l' [-> ->]. cbn [orb].
  eapply epost_bind; [apply epost_lift_res|]. intros [] l' [-> _].
  eapply epost_bind; [exact Hop|]. intros [] l' HQ.
  eapply epost_bind; [apply epost_lift, vpost_pop_pushed|]. intros n l'' ->.
  eapply epost_post; [apply epost_lift, vpost_meter|]. by intros [] l'' ->.
Qed.

Lemma epost_run l push op ops R (Q : list StackEntry → Prop) :
  epost l [] (op_execute env op) (λ _, Q) →
  (∀ l', Q l' → epost l' [] (run_opcodes env push ops) R) →
  epost l [] (run_opcodes env push (Ok op :: ops)) R.
Proof.
  intros Hop Hrest. cbn [run_opcodes]. eapply epost_bind; [apply epost_lift_res|]. intros o l' [-> [= <-]].
  destruct (is_disabled _ _); [apply epost_throw|]. destruct (always_illegal _); [apply epost_throw|].
  destruct (_ && _); [apply epost_throw|].
  eapply epost_bind; [by apply epost_opcode|]. intros [] l' HQ. eapply (epost_bind _ _ _ _ (λ _ l'', l'' = l')).
  { apply epost_lift. intros s a s' Hl Hk. unfold check_stack_size, gets, mbind, stm_mbind.
    destruct (_ <? _)%nat; [done|]. by intros [= <- <-]. }
  intros [] l'' ->. by apply Hrest.
Qed.

Lemma epost_script l script push Q :
  epost l [] (run_opcodes env push (parse_script script)) Q → epost l [] (execute_script env script push) Q.
Proof.
  intros Hr. unfold execute_script. eapply epost_bind; [exact Hr|]. intros [] l' HQ.
  eapply (epost_bind _ _ _ _ (λ _ l'', l'' = l')); [by intros e a e' Hc Hl Hk [= <- <-]|]. intros cs l'' ->.
  destruct (negb _); [apply epost_throw|]. apply (epost_post _ _ _ (λ _ l'', l'' = l')); [|by intros [] ? ->].
  apply epost_lift. by intros s a s' Hl Hk [= <- <-].
Qed.

Lemma epost_plain l op Q : vpost l [] (execute_plain env op) Q → op_execute env op = lift (execute_plain env op) →
  epost l [] (op_execute env op) Q.
Proof. intros Hp ->. by apply epost_lift. Qed.

Lemma epost_push l n d : 1 ≤ n ≤ 78 → epost l [] (op_execute env (mkOp n d)) (λ _ l', l' = l ++ [d]).
Proof.
  intros Hn. apply epost_plain.
  - unfold execute_plain. cbn [value op_data]. rewrite (proj2 (Z.eqb_neq _ _)), (proj2 (Z.leb_le _ _)) by lia.
    apply vpost_push_literal.
  - unfold op_execute. cbn [value]. destruct n as [|n|n]; [lia| |lia].
    repeat match goal with |- match ?p with _ => _ end = _ => destruct p; [..|lia|] || destruct p end; try done; lia.
Qed.

Lemma push_opcode_plain op : is_push_opcode (value op) = true → op_execute env op = lift (execute_plain env op).
Proof.
  unfold is_push_opcode. intros Hv%Z.leb_le. unfold op_execute. destruct (value op) as [|n|n]; [done| |done].
  repeat match goal with |- match ?p with _ => _ end = _ => destruct p; try done end; lia.
Qed.

(** ** The signature script *)

Lemma vpost_push_plain l op :
  is_push_opcode (value op) = true → vpost l [] (execute_plain env op) (λ _ l', l' = l ++ [pushed_item op]).
Proof.
  unfold is_push_opcode. intros Hv%Z.leb_le. unfold execute_plain, pushed_item.
  destruct (Z.eqb_spec (value op) OpFalse); [apply vpost_push_literal|].
  destruct (Z.leb_spec (value op) OpPushData4); [apply vpost_push_literal|].
  destruct (Z.eqb_spec (value op) Op1Negate); [by apply vpost_push_number|].
  destruct (Z.eq_dec (value op) 80) as [->|]; [apply vpost_throw|].
  rewrite !(proj2 (Z.leb_le _ _)) by lia. cbn [andb]. apply vpost_push_number.
  assert (1 ≤ value op - (OpTrue - 1) ≤ 16) as Hr by lia. revert Hr. generalize (value op - (OpTrue - 1)). intros x Hx.
  assert (x ∈ seqZ 1 16) as Hin by (apply elem_of_seqZ; lia). clear Hx. revert x Hin. apply Forall_forall. repeat (constructor; [done|]). constructor.
Qed.

(** A signature script, which may only push, leaves its items on top. *)
Lemma epost_push_only l ops :
  epost l [] (run_opcodes env true ops)
    (λ _ l', l' = l ++ omap (λ r, match r with Ok op => Some (pushed_item op) | _ => None end) ops).
Proof.
  revert l. induction ops as [|[op|x|] ops IH]; intros l.
  - apply epost_ok. by rewrite app_nil_r.
  - destruct (is_push_opcode (value op)) eqn:Hp.
    + apply (epost_run l true op ops _ (λ l', l' = l ++ [pushed_item op])).
      * apply epost_plain; [by apply vpost_push_plain|by apply push_opcode_plain].
      * intros l' ->. eapply epost_post; [apply IH|]. intros _ l' ->. cbn [omap list_omap]. by rewrite <- (assoc_L (++)).
    + cbn [run_opcodes]. eapply epost_bind; [apply epost_lift_res|]. intros o l' [-> [= <-]]. rewrite Hp.
      destruct (is_disabled _ _); [apply epost_throw|]. destruct (always_illegal _); apply epost_throw.
  - by intros e a e' _ _ _.
  - by intros e a e' _ _ _.
Qed.

(** ** The two scripts of an input *)

Lemma script_conds script push e u e' : execute_script env script push e = Ok (u, e') → cond_stack (es e') = [].
Proof.
  unfold execute_script. intros (? & e1 & _ & He)%bind_ok_inv. apply bind_ok_inv in He as (cs & e2 & [= <- <-] & He).
  destruct (cond_stack (es e1)) eqn:Hcs; [|done]. simpl in He. by injection He as <- <-.
Qed.

(** The engine at the start of a script: its caches are truthful and no condition is open. *)
Definition ready (m0 : RuntimeResourceMeter) (e : Engine) : Prop :=
  caches_ok env e ∧ cond_stack (es e) = [] ∧ state_ok (covenants (flags env)) m0 0 (es e).

Lemma ready_script m0 script push e u e' :
  is_bytes script → ready m0 e → execute_script env script push e = Ok (u, e') → ready m0 e'.
Proof.
  intros Hb (Hc & Hk & Hs) He. assert (same_core env e e) as Hsame by done.
  pose proof (execute_script_rel env Henv m0 script push Hb e e Hsame Hs) as Hr. rewrite He in Hr.
  destruct Hr as (_ & (_ & _ & Hc') & Hs'). split; [done|]. split; [by eapply script_conds|done].
Qed.

(** The engine after the signature script, which is skipped when empty. *)
Definition after_sig (sig : bytes) (e e1 : Engine) : Prop :=
  (sig = [] ∧ e1 = e) ∨ (sig ≠ [] ∧ execute_script env sig true e = Ok (tt, e1)).

Lemma run_two_inv p input i u b p2sh sig spk e sv e2 :
  script_source env = TxInput p input i u b → spk ≠ [] → run_scripts env p2sh 0 [sig; spk] None e = Ok (sv, e2) →
  ∃ e1, after_sig sig e e1 ∧ execute_script env spk false e1 = Ok (tt, e2) ∧
    sv = if p2sh then Some (dstack (es e1)) else None.
Proof.
  intros Hsrc Hspk. assert (is_empty spk = false) as Hne by (by destruct spk).
  assert (∀ e1, run_scripts env p2sh 1 [spk] None e1 = Ok (sv, e2) →
    execute_script env spk false e1 = Ok (tt, e2) ∧ sv = if p2sh then Some (dstack (es e1)) else None) as Hspk'.
  { intros e1 He. cbn [run_scripts] in He. rewrite Hne in He. apply bind_ok_inv in He as (d & ? & [= <- <-] & He).
    apply bind_ok_inv in He as ([] & e3 & He & [= <- <-]). rewrite andb_true_r. by destruct p2sh. }
  intros He. destruct sig as [|c sig].
  - destruct (Hspk' e He) as [??]. exists e. split; [by left|]. done.
  - cbn [run_scripts is_empty] in He. apply bind_ok_inv in He as (d & ? & [= <- <-] & He).
    rewrite andb_false_r, Hsrc in He. apply bind_ok_inv in He as ([] & e1 & H1' & He).
    destruct (Hspk' e1 He) as [??]. exists e1. split; [|done]. by right.
Qed.

Lemma ready_after_sig m0 sig e e1 : is_bytes sig → ready m0 e → after_sig sig e e1 → ready m0 e1.
Proof. intros Hb Hr [[-> ->]|[_ He]]; [done|]. by eapply ready_script. Qed.

Lemma after_sig_items m0 sig e e1 : ready m0 e → after_sig sig e e1 → items (es e1) = items (es e) ++ script_items sig.
Proof.
  intros (Hc & Hk & _) [[-> ->]|[_ He]]; [by rewrite app_nil_r|].
  by destruct (epost_script (items (es e)) sig true _ (epost_push_only _ _) e tt e1 Hc eq_refl Hk He) as (_ & -> & _).
Qed.

(** How the scripts of an input are executed. *)
Lemma execute_inv p input i u p2sh e e' m :
  script_source env = TxInput p input i u p2sh → spk_version (entry_spk u) = 0 → spk_script (entry_spk u) ≠ [] →
  ready m e → execute env e = Ok (tt, e') →
  ∃ e1 e2, items (es e1) = items (es e) ++ script_items (signature_script input) ∧ ready m e1 ∧
    execute_script env (spk_script (entry_spk u)) false e1 = Ok (tt, e2) ∧ ready m e2 ∧
    (if p2sh then ∃ e3 redeem s4 e5, lift (check_error_condition false) e2 = Ok (tt, e3) ∧
       on_dstack stack_pop (set_dstack (dstack (es e1)) (es e3)) = Ok (redeem, s4) ∧
       execute_script env redeem false (set_es s4 e3) = Ok (tt, e5) ∧ lift (check_error_condition true) e5 = Ok (tt, e')
     else lift (check_error_condition true) e2 = Ok (tt, e')).
Proof.
  intros Hsrc Hv Hne Hr. pose proof Henv as [Hok _]. unfold execute, execute_inner. rewrite Hsrc in Hok |- *. rewrite Hv.
  destruct Hok as (_ & (_ & Hsb & _) & (_ & (_ & Hkb & _) & _) & _).
  cbn [Z.ltb Z.compare]. intros (out & ef & He & Hfin)%bind_ok_inv.
  apply bind_ok_inv in He as (units & ? & Hu & He). unfold lift_res in Hu.
  destruct (gram_to_units _) as [n| |] eqn:Hn; [|done..]. injection Hu as <- <-.
  unfold gram_to_units in Hn. apply mul_p_Ok in Hn as [-> _].
  unfold execute_scripts in He. apply bind_ok_inv in He as ([] & e0 & Hcons0 & He).
  assert (ready m e0 ∧ items (es e0) = items (es e)) as [Hr0 Hi0].
  { destruct Hr as (Hc & Hk & Hs). unfold lift, zoom in Hcons0.
    match type of Hcons0 with context [consume_script_units ?x] => set (units := x) in * end.
    assert (0 ≤ units) as Hnn by (unfold units, sat_sub64; lia).
    pose proof (consume_script_units_spec _ m 0 units Hnn (es e) Hs) as Hsp.
    destruct (consume_script_units _ (es e)) as [[[] s0]| |] eqn:Hcons; [|done..]. injection Hcons0 as <-.
    destruct (vpost_meter _ _ _ (es e) tt s0 eq_refl Hk Hcons) as [Hi Hk']. split; [|done]. split_and!; [done|done|by destruct Hsp]. }
  assert (forallb is_empty [signature_script input; spk_script (entry_spk u)] = false) as Hfe.
  { simpl. destruct (spk_script (entry_spk u)); [done|]. by rewrite andb_false_r. }
  rewrite Hfe in He. cbn [is_empty] in He. destruct (list_find _ _) as [[? ?]|]; [done|].
  apply bind_ok_inv in He as (sv & e2 & Hrun & He). eapply run_two_inv in Hrun as (e1 & Has & Hspk & ->); [|done|done].
  pose proof (ready_after_sig m _ _ _ Hsb Hr0 Has) as Hr1. pose proof (ready_script m _ _ _ _ _ Hkb Hr1 Hspk) as Hr2.
  exists e1, e2. split; [rewrite <- Hi0; by eapply after_sig_items|]. split; [done|]. split; [done|]. split; [done|]. destruct p2sh.
  - apply bind_ok_inv in He as ([] & e3 & Hchk & He). apply bind_ok_inv in He as (d & e3' & [= <- <-] & He).
    apply bind_ok_inv in He as ([] & e4 & [= <-] & He). apply bind_ok_inv in He as (redeem & e5 & Hpop & He).
    apply bind_ok_inv in He as ([] & e6 & Hx & [= <- <-]). unfold lift, zoom in Hpop. cbn [es set_es] in Hpop.
    destruct (on_dstack stack_pop _) as [[r s4]| |] eqn:Hd; [|done..]. injection Hpop as <- <-.
    exists e3, r, s4, e6. by split_and!.
  - injection He as <- <-. exact Hfin.
Qed.

(** The final check: one item is left, and it is true. *)
Lemma final_check e u e' : lift (check_error_condition true) e = Ok (u, e') →
  ∃ x, items (es e) = [x] ∧ deserialize_bool x = Ok true.
Proof.
  unfold lift, zoom. destruct (check_error_condition true (es e)) as [[[] s]| |] eqn:He; [|done..]. intros _.
  unfold check_error_condition in He. apply bind_ok_inv in He as (len & ? & [= <- <-] & He). cbn [andb] in He.
  destruct (Nat.ltb_spec 1 (depth (dstack (es e)))); [done|]. destruct (Nat.eqb_spec (depth (dstack (es e))) 0); [done|].
  apply bind_ok_inv in He as (v & s1 & Hp & He).
  destruct (vpost_pop_bool _ _ (es e) v s1 eq_refl eq_refl Hp) as [(x & Hl & Hx) _].
  destruct v; [|done]. exists x. split; [|done]. unfold depth, items in *. apply (f_equal length) in Hl as Hlen.
  rewrite length_app in Hlen. simpl in Hlen. destruct (inner (dstack s1)); [done|simpl in Hlen; lia].
Qed.

Lemma serialize_bool_inj b : deserialize_bool (serialize_bool b) = Ok true → b = true.
Proof. by destruct b. Qed.
End engine.

(** ** Paying to a public key *)

Lemma parse_two n d c :
  1 ≤ n ≤ 75 → length d = Z.to_nat n → 79 ≤ c < 256 → is_bytes d →
  parse_script ([n] ++ d ++ [c]) = [Ok (mkOp n d); Ok (mkOp c [])].
Proof.
  intros Hn Hd Hc Hb. assert (op_length n = Fixed (Z.to_nat (n + 1))) as Hl by (by apply op_length_data).
  assert (op_length c = Fixed 1) as Hlc by (apply op_length_plain; lia).
  replace ([n] ++ d ++ [c]) with (op_serialize (mkOp n d) ++ op_serialize (mkOp c []) ++ []).
  2:{ unfold op_serialize. cbn [value op_data]. by rewrite Hl, Hlc. }
  assert (is_bytes (op_serialize (mkOp n d) ++ op_serialize (mkOp c []) ++ [])) as Hall.
  { unfold op_serialize. cbn [value op_data]. rewrite Hl, Hlc. apply is_bytes_app. split.
    - apply is_bytes_cons. split; [unfold in_u; lia|done].
    - apply is_bytes_cons. split; [unfold in_u; lia|constructor]. }
  rewrite parse_serialized; [|apply (op_valid_fixed (mkOp n d) _ Hl); simpl; lia|done].
  apply is_bytes_app in Hall as [_ Hall]. rewrite parse_serialized; [done|apply plain_op_valid; lia|done].
Qed.

Section spend.
Context `{SigningHashes} `{SigCrypto} `{ScriptHashesLaws} `{ZkLibsLaws}.

(** The validity that the version of an address asks for. *)
Definition key_valid (v : Version) (p : PopulatedTransaction) (i : nat) (key : bytes) (ty : Z) (sig : bytes) : option bool :=
  match v with
  | V_PubKey => schnorr_valid key sig (tx_message p i ty)
  | V_PubKeyECDSA => ecdsa_valid key sig (signing_hash_ecdsa (tx_message p i ty))
  | _ => None
  end.

(** The transaction, the input and the budget that an engine is made for. *)
Record spend_ok (p : PopulatedTransaction) (input : TransactionInput) (u : UtxoEntry) (acc : option SeqCommitAccessor)
    (fl : EngineFlags) (limit : Z) : Prop := {
  so_tx : populated_wf p;
  so_input : input_wf input;
  so_entry : entry_wf u;
  so_acc : ∀ a b h, acc = Some a → seq_commitment_within_depth a b = Some h → is_array 32 h;
  so_limit : in_u 64 limit;
  so_units : 0 ≤ sigop_script_units fl;
}.

Lemma engine_made p input i u ctx acc fl limit env s0 :
  spend_ok p input u acc fl limit →
  from_transaction_input_with_script_units_limit (E := TxScriptError) p input i u ctx acc fl limit = Ok (env, s0) →
  env_ok env ∧ flags env = fl ∧
  script_source env = TxInput p input i u (is_pay_to_script_hash (spk_script (entry_spk u))) ∧
  ∃ m, meter_ok m ∧ s0 = new_state fl m.
Proof.
  intros [Htx Hin Hu Hacc Hlim Hun]. unfold from_transaction_input_with_script_units_limit, assert_p.
  destruct (Nat.ltb_spec i (length (inputs (ptx p)))) as [Hi|]; [|done]. intros [= <- <-].
  split; [by split|]. split; [done|]. split; [done|]. eexists. split; [|done].
  destruct (covenants fl); unfold meter_ok, units_new, counter_new; simpl.
  - unfold in_u in Hlim. lia.
  - destruct Hin as (_ & _ & _ & _ & Hc). destruct (compute_commit input); simpl in *; unfold in_u in Hc; lia.
Qed.

Lemma ready_new env m e : es e = new_state (flags env) m → meter_ok m → caches_ok env e → ready env m e.
Proof. intros He Hm Hc. split; [done|]. rewrite He. split; [done|by apply new_state_ok]. Qed.

Lemma entry_script_bytes u : entry_wf u → is_bytes (spk_script (entry_spk u)).
Proof. by intros (_ & (_ & Hb & _) & _). Qed.

(** The script of a public key, run on any stack. *)
Lemma epost_pubkey env n key c check valid l :
  env_ok env → 1 ≤ n ≤ 75 → length key = Z.to_nat n → 79 ≤ c < 256 → is_bytes key →
  op_execute env (mkOp c []) = check_sig_with check → echecks env check valid →
  epost env l [] (execute_script env ([n] ++ key ++ [c]) false) (λ _, checked_sig valid (l ++ [key])).
Proof.
  intros Henv Hn Hk Hc Hb Hop Hv. apply epost_script. rewrite parse_two by done.
  apply (epost_run env _ _ _ _ _ (λ l', l' = l ++ [key])); [apply epost_push; lia|]. intros l' ->.
  apply (epost_run env _ _ _ _ _ (checked_sig valid (l ++ [key]))).
  - rewrite Hop. by apply epost_check_sig.
  - intros l' Hl'. by apply epost_ok.
Qed.

Lemma not_p2sh n l : n ≠ OpBlake2b → is_pay_to_script_hash ([n] ++ l) = false.
Proof.
  intros Hn. unfold is_pay_to_script_hash, at_is. rewrite (bool_decide_eq_false_2 (_ !! 0%nat = _)); [by rewrite andb_false_r|].
  by intros [= ->].
Qed.

(** The two scripts that pay to a public key. *)
Lemma pubkey_script env a p input i u b :
  env_ok env → script_source env = TxInput p input i u b →
  (Address.version a = V_PubKey ∨ Address.version a = V_PubKeyECDSA) →
  pay_to_address_script (E := TxScriptError) a = Ok (entry_spk u) →
  ∃ n c check valid, 1 ≤ n ≤ 75 ∧ length (Address.payload a) = Z.to_nat n ∧ 79 ≤ c < 256 ∧
    entry_spk u = mkSpk 0 ([n] ++ Address.payload a ++ [c]) ∧ op_execute env (mkOp c []) = check_sig_with check ∧
    echecks env check valid ∧
    (∀ ty sig, valid ty (Address.payload a) sig = key_valid (Address.version a) p i (Address.payload a) ty sig) ∧
    is_pay_to_script_hash (spk_script (entry_spk u)) = false.
Proof.
  intros Henv Hsrc Hver Hpay. unfold pay_to_address_script, pay_to_pub_key, pay_to_pub_key_ecdsa, assert_p in Hpay.
  destruct Hver as [Hv|Hv]; rewrite Hv in Hpay |- *.
  - destruct (Nat.eqb_spec (length (Address.payload a)) 32) as [Hl|]; [|done]. injection Hpay as Hspk.
    exists 32, 172, (check_schnorr_signature env), (tx_schnorr_valid env). rewrite <- Hspk.
    split_and!; try lia; try done; [by apply echecks_schnorr| |by apply not_p2sh].
    intros ty sig. unfold tx_schnorr_valid. by rewrite Hsrc.
  - destruct (Nat.eqb_spec (length (Address.payload a)) 33) as [Hl|]; [|done]. injection Hpay as Hspk.
    exists 33, 171, (check_ecdsa_signature env), (tx_ecdsa_valid env). rewrite <- Hspk.
    split_and!; try lia; try done; [by apply echecks_ecdsa| |by apply not_p2sh].
    intros ty sig. unfold tx_ecdsa_valid. by rewrite Hsrc.
Qed.

(** C7. An output that pays to a public key is only spent with a signature of that key:
    when the engine made for an input accepts, its signature script pushes exactly one
    item, and that item is a signature of the transaction, with an allowed hash type as
    its last byte, that is valid for the key. *)
Theorem pubkey_spend_sound a p input i u ctx acc fl limit env s0 e e' :
  spend_ok p input u acc fl limit →
  from_transaction_input_with_script_units_limit (E := TxScriptError) p input i u ctx acc fl limit = Ok (env, s0) →
  (Address.version a = V_PubKey ∨ Address.version a = V_PubKeyECDSA) →
  pay_to_address_script (E := TxScriptError) a = Ok (entry_spk u) →
  es e = s0 → caches_ok env e → execute env e = Ok (tt, e') →
  ∃ ty sig, script_items (signature_script input) = [sig ++ [ty]] ∧ sighash_type_from_u8 ty = Some ty ∧
    key_valid (Address.version a) p i (Address.payload a) ty sig = Some true.
Proof.
  intros Hso Hnew Hver Hpay Hes Hcaches Hex.
  destruct (engine_made _ _ _ _ _ _ _ _ _ _ Hso Hnew) as (Henv & Hfl & Hsrc & m & Hm & ->). rewrite <- Hfl in Hes.
  pose proof (entry_script_bytes u (so_entry _ _ _ _ _ _ Hso)) as Hbytes.
  pose proof (ready_new env m e Hes Hm Hcaches) as Hready.
  destruct (pubkey_script env a p input i u _ Henv Hsrc Hver Hpay)
    as (n & c & check & valid & Hn & Hlen & Hc & Hspk & Hop & Hchk & Hkv & Hp2sh).
  rewrite Hp2sh in Hsrc. rewrite Hspk in Hbytes. cbn [spk_script] in Hbytes.
  apply is_bytes_app in Hbytes as [_ Hbytes]. apply is_bytes_app in Hbytes as [Hkb _].
  destruct (execute_inv env Henv _ _ _ _ _ e e' m Hsrc) as (e1 & e2 & Hit & Hr1 & Hrun & _ & Hfin);
    [by rewrite Hspk|by rewrite Hspk|done|done|]. rewrite Hes in Hit. cbn [items new_state dstack stack_new inner app] in Hit.
  rewrite Hspk in Hrun. cbn [spk_script] in Hrun. destruct Hr1 as (Hc1 & Hk1 & _).
  destruct (epost_pubkey env n (Address.payload a) c check valid (items (es e1)) Henv Hn Hlen Hc Hkb Hop Hchk
    e1 tt e2 Hc1 eq_refl Hk1 Hrun) as (_ & (l0 & sig & key & b & Heq & Hl' & Hb) & _).
  apply final_check in Hfin as (x & Hx & Htrue). rewrite Hl' in Hx.
  change [sig; key] with ([sig] ++ [key]) in Heq. rewrite (assoc_L (++)) in Heq. apply app_inj_tail in Heq as [Hsig <-].
  destruct l0 as [|y l0]; [|destruct l0; done]. injection Hx as <-. apply serialize_bool_inj in Htrue.
  destruct (Hb Htrue) as (ty & body & -> & Hty & Hvalid). exists ty, body. rewrite Hit in Hsig. split; [done|]. split; [done|]. by rewrite <- Hkv.
Qed.

(** ** Paying to a script hash *)

Lemma parse_p2sh h :
  length h = 32%nat → is_bytes h →
  parse_script ([OpBlake2b; OpData32] ++ h ++ [OpEqual]) = [Ok (mkOp OpBlake2b []); Ok (mkOp OpData32 h); Ok (mkOp OpEqual [])].
Proof.
  intros Hl Hb. change ([OpBlake2b; OpData32] ++ h ++ [OpEqual]) with (op_serialize (mkOp OpBlake2b []) ++ [OpData32] ++ h ++ [OpEqual]).
  rewrite parse_serialized; [by rewrite parse_two by (done || lia)|by apply plain_op_valid; lia|].
  repeat (apply is_bytes_cons; split; [done|]). apply is_bytes_app. split; [done|]. apply is_bytes_cons. by split; [|constructor].
Qed.

Lemma vpost_blake2b l k : vpost l k op_blake2b (λ _ l', ∃ l0 x, l = l0 ++ [x] ∧ l' = l0 ++ [blake2b_256 x]).
Proof.
  unfold op_blake2b. eapply vpost_bind; [apply vpost_pop1|]. intros x l0 ->.
  eapply vpost_bind; [apply vpost_meter|]. intros _ l1 ->.
  eapply vpost_post; [apply vpost_push|]. intros _ l1 ->. by exists l0, x.
Qed.
Lemma vpost_equal l k :
  vpost l k op_equal (λ _ l', ∃ l0 x y, l = l0 ++ [x; y] ∧ l' = l0 ++ [serialize_bool (bool_decide (x = y))]).
Proof.
  unfold op_equal. eapply vpost_bind; [apply vpost_pair_equal|]. intros b l0 (x & y & -> & ->).
  eapply vpost_post; [apply vpost_push|]. intros _ l1 ->. exists l0, x, y. split; [done|]. by case_bool_decide.
Qed.

(** The script of a script hash compares the hash of the item on top. *)
Lemma epost_p2sh env h l :
  env_ok env → length h = 32%nat → is_bytes h →
  epost env l [] (execute_script env ([OpBlake2b; OpData32] ++ h ++ [OpEqual]) false)
    (λ _ l', ∃ l0 x, l = l0 ++ [x] ∧ l' = l0 ++ [serialize_bool (bool_decide (blake2b_256 x = h))]).
Proof.
  intros Henv Hl Hb. apply epost_script. rewrite parse_p2sh by done.
  eapply epost_run; [apply epost_plain; [apply vpost_blake2b|done]|]. intros l1 (l0 & x & -> & ->).
  eapply epost_run; [apply epost_push; lia|]. intros l1 ->.
  eapply epost_run; [apply epost_plain; [apply vpost_equal|done]|]. intros l1 (l2 & y & z & Heq & ->).
  apply epost_ok. exists l0, x. split; [done|]. rewrite <- (assoc_L (++)) in Heq. simpl in Heq.
  change [y; z] with ([y] ++ [z]) in Heq. change [blake2b_256 x; h] with ([blake2b_256 x] ++ [h]) in Heq.
  rewrite !(assoc_L (++)) in Heq. apply app_inj_tail in Heq as [Heq ->]. by apply app_inj_tail in Heq as [-> ->].
Qed.

Lemma check_true_inv e e' : lift (check_error_condition false) e = Ok (tt, e') →
  ∃ l x, items (es e) = l ++ [x] ∧ deserialize_bool x = Ok true.
Proof.
  unfold lift, zoom. destruct (check_error_condition false (es e)) as [[[] s]| |] eqn:He; [|done..]. intros _.
  unfold check_error_condition in He. apply bind_ok_inv in He as (len & ? & [= <- <-] & He). cbn [andb] in He.
  apply bind_ok_inv in He as (v & s1 & Hp & He).
  destruct (vpost_pop_bool _ _ (es e) v s1 eq_refl eq_refl Hp) as [(x & Hl & Hx) _].
  destruct v; [|done]. by exists (items s1), x.
Qed.

(** The check between the scripts leaves the caches and the conditions. *)
Lemma check_keeps env e e' : lift (check_error_condition false) e = Ok (tt, e') →
  (caches_ok env e → caches_ok env e') ∧ cond_stack (es e') = cond_stack (es e).
Proof.
  unfold lift, zoom. destruct (check_error_condition false (es e)) as [[[] s]| |] eqn:He; [|done..]. intros [= <-].
  split; [done|]. unfold check_error_condition in He. apply bind_ok_inv in He as (len & ? & [= <- <-] & He). cbn [andb] in He.
  apply bind_ok_inv in He as (v & s1 & Hp & He). destruct (vpost_pop_bool _ _ (es e) v s1 eq_refl eq_refl Hp) as [_ Hk].
  destruct v; [|done]. by injection He as <-.
Qed.

Lemma stack_pop_conds s x s' : on_dstack stack_pop s = Ok (x, s') → cond_stack s' = cond_stack s.
Proof.
  unfold on_dstack, zoom. destruct (stack_pop (dstack s)) as [[y d]| |]; [|done..]. by intros [= <- <-].
Qed.
Lemma stack_pop_items s x s' : on_dstack stack_pop s = Ok (x, s') → items s = items s' ++ [x].
Proof.
  unfold on_dstack, zoom, stack_pop. destruct (last (inner (dstack s))) as [y|] eqn:Hl; [|done]. intros [= <- <-].
  unfold items. simpl. by apply last_app_inv.
Qed.

(** How an output that pays to a script hash is spent. *)
Lemma script_hash_spend_inv a p input i u ctx acc fl limit env s0 e e' :
  spend_ok p input u acc fl limit →
  from_transaction_input_with_script_units_limit (E := TxScriptError) p input i u ctx acc fl limit = Ok (env, s0) →
  Address.version a = V_ScriptHash → pay_to_address_script (E := TxScriptError) a = Ok (entry_spk u) →
  es e = s0 → caches_ok env e → execute env e = Ok (tt, e') →
  ∃ redeem e2 e3 x, script_items (signature_script input) = items (es e2) ++ [redeem] ∧
    blake2b_256 redeem = Address.payload a ∧ caches_ok env e2 ∧ cond_stack (es e2) = [] ∧
    execute_script env redeem false e2 = Ok (tt, e3) ∧ items (es e3) = [x] ∧ deserialize_bool x = Ok true.
Proof.
  intros Hso Hnew Hver Hpay Hes Hcaches Hex.
  destruct (engine_made _ _ _ _ _ _ _ _ _ _ Hso Hnew) as (Henv & Hfl & Hsrc & m & Hm & ->). rewrite <- Hfl in Hes.
  pose proof (entry_script_bytes u (so_entry _ _ _ _ _ _ Hso)) as Hbytes.
  pose proof (ready_new env m e Hes Hm Hcaches) as Hready.
  unfold pay_to_address_script, pay_to_script_hash, assert_p in Hpay. rewrite Hver in Hpay.
  destruct (Nat.eqb_spec (length (Address.payload a)) 32) as [Hlen|]; [|done]. injection Hpay as Hspk.
  assert (is_pay_to_script_hash (spk_script (entry_spk u)) = true) as Hp2sh.
  { rewrite <- Hspk. apply is_pay_to_script_hash_spec. by exists (Address.payload a). }
  rewrite Hp2sh in Hsrc. rewrite <- Hspk in Hbytes. cbn [spk_script] in Hbytes.
  do 2 apply is_bytes_cons in Hbytes as [_ Hbytes]. apply is_bytes_app in Hbytes as [Hkb _].
  destruct (execute_inv env Henv _ _ _ _ _ e e' m Hsrc) as (e1 & e2 & Hit & Hr1 & Hrun & Hr2 & Hfin);
    [by rewrite <- Hspk|by rewrite <- Hspk|done|done|]. rewrite Hes in Hit. cbn [items new_state dstack stack_new inner app] in Hit.
  destruct Hfin as (e3 & redeem & s4 & e5 & Hchk & Hpop & Hred & Hfin).
  rewrite <- Hspk in Hrun. cbn [spk_script] in Hrun. destruct Hr1 as (Hc1 & Hk1 & _).
  destruct (epost_p2sh env _ (items (es e1)) Henv Hlen Hkb e1 tt e2 Hc1 eq_refl Hk1 Hrun) as (_ & (l0 & x & Hl & Hl') & _).
  pose proof Hchk as Hchk'. apply check_true_inv in Hchk as (l & y & Hy & Htrue). rewrite Hl' in Hy. apply app_inj_tail in Hy as [-> <-].
  apply serialize_bool_inj, bool_decide_eq_true_1 in Htrue. apply (check_keeps env) in Hchk' as [Hc3 Hk3].
  pose proof Hpop as Hpop'. apply stack_pop_items in Hpop.
  change (items (set_dstack (dstack (es e1)) (es e3))) with (items (es e1)) in Hpop.
  rewrite Hl in Hpop. apply app_inj_tail in Hpop as [Hl4 <-]. apply final_check in Hfin as (z & Hz & Hzt).
  exists x, (set_es s4 e3), e5, z. destruct Hr2 as (Hc2 & Hk2 & _).
  split_and!; try done; cbn [es set_es]; [by rewrite <- Hit, <- Hl4|by apply Hc3|].
  apply stack_pop_conds in Hpop' as ->. cbn [cond_stack set_dstack]. by rewrite Hk3.
Qed.

(** An output that pays to a script hash is only spent by revealing a script with
    that hash which accepts: when the engine made for an input accepts, the last
    item that its signature script pushes is such a script, and that script, run on
    the items before it, left one item that is true. *)
Theorem script_hash_spend_sound a p input i u ctx acc fl limit env s0 e e' :
  spend_ok p input u acc fl limit →
  from_transaction_input_with_script_units_limit (E := TxScriptError) p input i u ctx acc fl limit = Ok (env, s0) →
  Address.version a = V_ScriptHash → pay_to_address_script (E := TxScriptError) a = Ok (entry_spk u) →
  es e = s0 → caches_ok env e → execute env e = Ok (tt, e') →
  ∃ redeem e2 e3 x, script_items (signature_script input) = items (es e2) ++ [redeem] ∧
    blake2b_256 redeem = Address.payload a ∧ execute_script env redeem false e2 = Ok (tt, e3) ∧
    items (es e3) = [x] ∧ deserialize_bool x = Ok true.
Proof.
  intros Hso Hnew Hver Hpay Hes Hc Hex.
  destruct (script_hash_spend_inv a p input i u ctx acc fl limit env s0 e e')
    as (redeem & e2 & e3 & x & ? & ? & _ & _ & ?); [done..|]. by exists redeem, e2, e3, x.
Qed.
End spend.

(** ** Multisig *)

(** A signature, with its type as last byte, that is valid for a key. *)
Definition signed (valid : Z → bytes → bytes → option bool) (sig key : bytes) : Prop :=
  ∃ ty body, sig = body ++ [ty] ∧ sighash_type_from_u8 ty = Some ty ∧ valid ty key body = Some true.

Lemma match_key_found valid need keys rest :
  match_key valid need keys = Some (Some rest) →
  ∃ pre key, keys = pre ++ key :: rest ∧ valid key = Some true ∧ Forall (λ k, valid k = Some false) pre.
Proof.
  induction keys as [|key keys IH]; simpl; destruct (_ <? need)%nat; try done.
  destruct (valid key) as [[]|] eqn:Hv; [|intros Hm|done].
  - intros [= <-]. by exists [], key.
  - destruct (IH Hm) as (pre & k & -> & Hk & Hpre). exists (key :: pre), k. split; [done|]. split; [done|]. by constructor.
Qed.

Lemma match_key_short valid need keys :
  match_key valid need keys = Some None →
  ∃ pre suf, keys = pre ++ suf ∧ (length suf < need)%nat ∧ Forall (λ k, valid k = Some false) pre.
Proof.
  induction keys as [|key keys IH]; simpl.
  - destruct (Nat.ltb_spec 0 need); [|done]. intros _. exists [], []. split_and!; [done|done|constructor].
  - destruct (Nat.ltb_spec (S (length keys)) need).
    { intros _. exists [], (key :: keys). split_and!; [done|done|constructor]. }
    destruct (valid key) as [[]|] eqn:Hv; [done|intros Hm|done].
    destruct (IH Hm) as (pre & suf & -> & Hlt & Hpre). exists (key :: pre), suf. split_and!; [done|done|by constructor].
Qed.

(** A key that is not valid for a signature cannot be the one matched with it. *)
Lemma sublist_past (P : bytes → Prop) k ks pre suf :
  ¬ P k → (k :: ks) `sublist_of` (pre ++ suf) → Forall P pre → (k :: ks) `sublist_of` suf.
Proof.
  intros Hk (l1 & l2 & Heq & H1 & H2)%sublist_app_r Hpre. destruct l1 as [|x l1]; [by simpl in Heq; subst|].
  injection Heq as <- ->. destruct Hk. rewrite Forall_forall in Hpre. apply Hpre.
  apply (elem_of_submseteq (k :: l1)); [by left|]. by apply sublist_submseteq.
Qed.

(** Greedy matching in order finds a matching when there is one. *)
Lemma match_sigs_correct valid sigs keys b :
  match_sigs valid sigs keys = Some b →
  (b = true ↔ ∃ ks, ks `sublist_of` keys ∧ Forall2 (signed valid) sigs ks).
Proof.
  revert keys. induction sigs as [|sig rest IH]; intros keys; cbn [match_sigs].
  { intros [= <-]. split; [|done]. intros _. exists []. split; [apply sublist_nil_l|constructor]. }
  destruct (last sig) as [typ|] eqn:Hlast.
  2:{ intros [= <-]. split; [done|]. intros (ks & _ & Hks). inversion Hks as [|? k ? ? (ty & body & -> & _) _]; subst.
      by rewrite last_snoc in Hlast. }
  destruct (sighash_type_from_u8 typ) as [t|] eqn:Ht; [|done].
  assert (t = typ) as -> by (unfold sighash_type_from_u8 in Ht; case_bool_decide; congruence).
  set (v := λ key, valid typ key (take (length sig - 1) sig)).
  assert (∀ key, signed valid sig key → v key = Some true) as Hv.
  { intros key (ty & body & -> & _ & Hok). rewrite last_snoc in Hlast. injection Hlast as ->. unfold v.
    rewrite length_app. simpl. rewrite Nat.add_sub, take_app_length. done. }
  assert (∀ k ks pre suf, signed valid sig k → (k :: ks) `sublist_of` (pre ++ suf) →
    Forall (λ k, v k = Some false) pre → (k :: ks) `sublist_of` suf) as Hskip.
  { intros k ks pre suf Hs. apply sublist_past. rewrite (Hv k Hs). done. }
  destruct (match_key v (length (sig :: rest)) keys) as [[left|]|] eqn:Hm; [| |done].
  - apply match_key_found in Hm as (pre & key & -> & Hkey & Hpre). intros Hr. rewrite (IH left Hr). split.
    + intros (ks & Hsub & Hks). exists (key :: ks). split; [by apply sublist_inserts_l, sublist_skip|].
      constructor; [|done]. exists typ, (take (length sig - 1) sig). split; [by apply last_app_inv|done].
    + intros (ks & Hsub & Hks). inversion Hks as [|? k ? ks' Hk Hks']; subst.
      apply (Hskip k ks' pre (key :: left) Hk) in Hsub; [|done]. exists ks'. split; [|done].
      apply sublist_cons_r in Hsub as [Hsub|(l' & [= _ ->] & Hsub)]; [|done].
      etrans; [by apply (sublist_cons k)|done].
  - apply match_key_short in Hm as (pre & suf & -> & Hlt & Hpre). intros [= <-]. split; [done|].
    intros (ks & Hsub & Hks). pose proof (Forall2_length _ _ _ Hks) as Hlen.
    inversion Hks as [|? k ? ks' Hk Hks']; subst.
    apply (Hskip k ks' pre suf Hk) in Hsub; [|done]. apply sublist_length in Hsub. simpl in *. lia.
Qed.

Section multisig.
Context `{SigningHashes} `{SigCrypto} `{ScriptHashesLaws} `{ZkLibsLaws} (env : Env) (Henv : env_ok env).

Lemma epost_multisig_keys l k check valid need keys :
  (∀ key, epost env l k (check key) (λ v l', l' = l ∧ valid key = Some v)) →
  epost env l k (multisig_keys check need keys) (λ r l', l' = l ∧ match_key valid need keys = Some r).
Proof.
  intros Hc. induction keys as [|key keys IH]; cbn [multisig_keys match_key].
  - destruct (_ <? need)%nat; [by apply epost_ok|]. by intros e a e' _ _ _.
  - destruct (_ <? need)%nat; [by apply epost_ok|].
    eapply epost_bind; [apply Hc|]. intros v l' [-> ->]. destruct v; [by apply epost_ok|exact IH].
Qed.

Lemma epost_multisig_sigs l k check valid sigs keys :
  echecks env check valid →
  epost env l k (multisig_sigs check sigs keys) (λ failed l', l' = l ∧ match_sigs valid sigs keys = Some (negb failed)).
Proof.
  intros Hc. revert keys. induction sigs as [|sig rest IH]; intros keys; cbn [multisig_sigs match_sigs]; [by apply epost_ok|].
  destruct (last sig) as [typ|]; [|by apply epost_ok].
  eapply epost_bind; [apply epost_or_throw|]. intros ty l' [-> ->].
  eapply epost_bind; [apply epost_multisig_keys; intros key; apply Hc|]. intros r l' [-> ->].
  destruct r as [ks|]; [apply IH|by apply epost_ok].
Qed.

(** The number that a builder pushed is the one that is popped. *)
Lemma pushed_num32 n d c x : 0 ≤ n < 2 ^ 63 → serialize_num64 n = Ok d → deserialize_num32 d c = Ok x → x = n.
Proof.
  intros Hn Hd. destruct (serialize_sized_Ok 8 n) as (d' & Hd' & Hb & _ & Hdec); [lia|simpl; lia|].
  unfold serialize_num64 in Hd. rewrite Hd' in Hd. injection Hd as ->. unfold deserialize_num32. destruct c.
  - intros (y & Hy & Hx)%bind_Ok. destruct (in_ib 32 y); [|done]. injection Hx as ->. specialize (Hdec true).
    unfold deserialize_sized in Hy, Hdec. destruct (_ <? _)%nat; [done|]. destruct (_ <? _)%nat; [done|]. congruence.
  - rewrite Hdec. simpl. destruct (in_ib 32 n); congruence.
Qed.

(** The operands of a multisig, when they are where a redeem script puts them. *)
Lemma vpost_pop_multisig l d1 d2 keys required :
  (required ≤ length keys)%nat → Z.of_nat (length keys) < 2 ^ 63 →
  serialize_num64 (Z.of_nat required) = Ok d1 → serialize_num64 (Z.of_nat (length keys)) = Ok d2 →
  vpost (l ++ d1 :: keys ++ [d2]) [] (pop_multisig env)
    (λ r l', l = l' ++ r.1 ∧ length r.1 = required ∧ r.2 = keys).
Proof.
  intros Hr Hlen Hd1 Hd2. unfold pop_multisig.
  eapply vpost_bind; [apply vpost_pop_item|]. intros nk l' (x & c & Heq & Hx).
  change (d1 :: keys ++ [d2]) with ((d1 :: keys) ++ [d2]) in Heq. rewrite (assoc_L (++)) in Heq. apply app_inj_tail in Heq as [<- <-].
  apply (pushed_num32 (Z.of_nat (length keys)) _ _ _ ltac:(lia) Hd2) in Hx as ->.
  destruct (_ <? 0); [apply vpost_throw|]. destruct (_ <? _); [apply vpost_throw|].
  eapply vpost_bind; [apply vpost_add_ops|]. intros _ l' ->. rewrite Nat2Z.id.
  eapply vpost_bind; [apply vpost_split_top|]. intros ks l' [Heq Hks].
  change (d1 :: keys) with ([d1] ++ keys) in Heq. rewrite (assoc_L (++)) in Heq. apply app_inj_2 in Heq as [<- <-]; [|done].
  eapply vpost_bind; [apply vpost_pop_item|]. intros ns l' (x & c' & Heq & Hx). apply app_inj_tail in Heq as [<- <-].
  apply (pushed_num32 (Z.of_nat required) _ _ _ ltac:(lia) Hd1) in Hx as ->.
  destruct (_ <? 0); [apply vpost_throw|]. destruct (_ <? _); [apply vpost_throw|]. rewrite Nat2Z.id.
  eapply vpost_bind; [apply vpost_split_top|]. intros sigs l' [-> Hsigs]. by apply vpost_ok.
Qed.

(** What a multisig leaves: whether the signatures match some of the keys, in order. *)
Definition checked_multisig (valid : Z → bytes → bytes → option bool) (required : nat) (keys l l' : list bytes) : Prop :=
  ∃ l0 sigs b, l = l0 ++ sigs ∧ length sigs = required ∧ l' = l0 ++ [serialize_bool b] ∧
    (b = true ↔ ∃ ks, ks `sublist_of` keys ∧ Forall2 (signed valid) sigs ks) ∧
    (b = false → Forall (λ sig, sig = []) sigs).

Definition multisig_valid (ecdsa : bool) : Z → bytes → bytes → option bool :=
  if ecdsa then tx_ecdsa_valid env else tx_schnorr_valid env.

Lemma epost_multisig ecdsa l d1 d2 keys required :
  (required ≤ length keys)%nat → Z.of_nat (length keys) < 2 ^ 63 →
  serialize_num64 (Z.of_nat required) = Ok d1 → serialize_num64 (Z.of_nat (length keys)) = Ok d2 →
  epost env (l ++ d1 :: keys ++ [d2]) [] (op_check_multisig_schnorr_or_ecdsa env ecdsa)
    (λ _, checked_multisig (multisig_valid ecdsa) required keys l).
Proof.
  intros Hr Hlen Hd1 Hd2. unfold op_check_multisig_schnorr_or_ecdsa.
  eapply epost_bind; [by apply epost_lift, vpost_pop_multisig|]. intros [sigs ks] l' (-> & Hsigs & Hks). cbn [fst snd] in *. subst ks.
  eapply epost_bind; [apply (epost_multisig_sigs _ _ _ (multisig_valid ecdsa))|].
  { unfold multisig_valid. destruct ecdsa; [by apply echecks_ecdsa|by apply echecks_schnorr]. }
  intros failed l'' [-> Hm]. destruct (failed && _) eqn:Hnull; [apply epost_throw|].
  eapply epost_post; [apply epost_lift, vpost_push_bool|]. intros _ l'' ->. exists l', sigs, (negb failed).
  split; [done|]. split; [done|]. split; [done|]. split; [by apply match_sigs_correct|].
  intros Hf. destruct failed; [|done]. cbn [andb] in Hnull. apply Forall_forall. intros sig Hin.
  destruct sig as [|x sig]; [done|]. exfalso. apply not_true_iff_false in Hnull. apply Hnull, existsb_exists.
  exists (x :: sig). split; [by apply list_elem_of_In|done].
Qed.

(** ** The redeem script *)

Lemma epost_pushes l op d : pushes op d → epost env l [] (op_execute env op) (λ _ l', l' = l ++ [d]).
Proof.
  intros (_ & Hp & _ & _ & Hex). apply epost_plain; [|by apply push_opcode_plain].
  intros s a s' Hl Hk. rewrite Hex. by apply vpost_push_literal.
Qed.

Lemma epost_run_pushes l push ops ds rest Q :
  Forall2 pushes ops ds → epost env (l ++ ds) [] (run_opcodes env push rest) Q →
  epost env l [] (run_opcodes env push ((Ok <$> ops) ++ rest)) Q.
Proof.
  intros Hp. revert l. induction Hp as [|op d ops ds Hd Hp IH]; intros l Hr; [by rewrite app_nil_r in Hr|].
  cbn [fmap list_fmap app]. apply (epost_run env _ _ _ _ _ (λ l', l' = l ++ [d])); [by apply epost_pushes|].
  intros l' ->. apply IH. by rewrite <- (assoc_L (++)).
Qed.

Definition redeem_of (ecdsa : bool) : list bytes → nat → res MultisigError bytes :=
  if ecdsa then multisig_redeem_script_ecdsa else multisig_redeem_script.

Lemma epost_redeem ecdsa l keys required script :
  Forall is_bytes keys → Z.of_nat (length keys) < 2 ^ 63 → is_bytes script → redeem_of ecdsa keys required = Ok script →
  epost env l [] (execute_script env script false) (λ _, checked_multisig (multisig_valid ecdsa) required keys l).
Proof.
  intros Hk Hlen Hb Hs. set (code := if ecdsa then OpCheckMultiSigECDSA else OpCheckMultiSig).
  assert (multisig_script code keys required = Ok script) as Hs' by (by destruct ecdsa).
  assert (79 ≤ code) as Hcode by (unfold code; destruct ecdsa; lia).
  apply multisig_script_inv in Hs' as (op1 & ops & op2 & d1 & d2 & Hr & Hsc & Hd1 & Hd2 & Hp1 & Hps & Hp2); [|done..].
  assert (Forall2 pushes (op1 :: ops ++ [op2]) (d1 :: keys ++ [d2])) as Hall.
  { constructor; [done|]. apply Forall2_app; [done|]. constructor; [done|constructor]. }
  replace (op1 :: ops ++ [op2; mkOp code []]) with ((op1 :: ops ++ [op2]) ++ [mkOp code []]) in Hsc
    by (by rewrite app_comm_cons, <- (assoc_L (++))).
  apply epost_script. rewrite Hsc in Hb |- *. rewrite parse_concat; [|done|].
  2:{ apply Forall_app. split; [|constructor; [apply plain_op_valid; lia|constructor]].
      apply (Forall2_Forall_l _ _ _ _ Hall). apply Forall_true. by intros d op (? & _). }
  rewrite fmap_app. apply (epost_run_pushes _ _ _ _ _ _ Hall).
  apply (epost_run env _ _ _ _ _ (checked_multisig (multisig_valid ecdsa) required keys l)).
  - replace (op_execute env (mkOp code [])) with (op_check_multisig_schnorr_or_ecdsa env ecdsa) by (by destruct ecdsa).
    by apply epost_multisig.
  - intros l' Hl'. by apply epost_ok.
Qed.
End multisig.

(** C8. An output that pays to the hash of a multisig redeem script is only spent with
    the required number of signatures: when the engine made for an input accepts, its
    signature script pushes some items and then a script of that hash; if it is the
    redeem script, the items are exactly as many as required, and they are signatures
    of the transaction that are valid for different keys of the script, in the order of
    the keys. *)
Theorem multisig_spend_sound `{SigningHashes} `{SigCrypto} `{ScriptHashesLaws} `{ZkLibsLaws}
    ecdsa keys required script p input i u ctx acc fl limit env s0 e e' :
  spend_ok p input u acc fl limit →
  from_transaction_input_with_script_units_limit (E := TxScriptError) p input i u ctx acc fl limit = Ok (env, s0) →
  Forall is_bytes keys → Z.of_nat (length keys) < 2 ^ 63 → is_bytes script →
  redeem_of ecdsa keys required = Ok script → pay_to_script_hash_script (E := TxScriptError) script = Ok (entry_spk u) →
  es e = s0 → caches_ok env e → execute env e = Ok (tt, e') →
  ∃ l redeem, script_items (signature_script input) = l ++ [redeem] ∧
    blake2b_256 redeem = blake2b_256 script ∧
    (redeem = script → length l = required ∧ ∃ ks, ks `sublist_of` keys ∧ Forall2 (signed (multisig_valid env ecdsa)) l ks).
Proof.
  intros Hso Hnew Hk Hlen Hb Hred Hpay Hes Hc Hex. pose proof (engine_made _ _ _ _ _ _ _ _ _ _ Hso Hnew) as (Henv & _).
  destruct (script_hash_spend_inv (mkAddress Mainnet V_ScriptHash (blake2b_256 script)) p input i u ctx acc fl limit env s0 e e')
    as (redeem & e2 & e3 & x & Hit & Hhash & Hc2 & Hk2 & Hrun & Hx & Htrue); [done..|].
  exists (items (es e2)), redeem. split_and!; [done..|]. intros ->.
  destruct (epost_redeem env Henv ecdsa (items (es e2)) keys required script Hk Hlen Hb Hred e2 tt e3 Hc2 eq_refl Hk2 Hrun)
    as (_ & (l0 & sigs & b & Hl & Hn & Hl' & Hm & _) & _).
  rewrite Hx in Hl'. destruct l0 as [|y l0]; [|by destruct l0]. injection Hl' as ->. apply serialize_bool_inj in Htrue.
  rewrite Hl. split; [done|by apply Hm].
Qed.

(** ** Spends, for the witnesses *)
Module SampleSpend.
#[export] Existing Instances SampleTx.hashes SampleEngine.crypto SampleEngine.hashes SampleEngine.hashes_laws
  SampleEngine.zk SampleEngine.zk_laws.

Definition address : Address := mkAddress Mainnet V_PubKey SampleEngine.key.

(** An output that pays to the hash of a script, and an input for it. *)
Definition hash_entry (script : bytes) : UtxoEntry :=
  mkEntry 100 (mkSpk 0 ([OpBlake2b; OpData32] ++ blake2b_256 script ++ [OpEqual])) 7 false None.
Definition hash_populated (script sig_script : bytes) : PopulatedTransaction :=
  mkPopulated (ptx (SampleEngine.populated sig_script)) [hash_entry script].
Definition hash_env (script sig_script : bytes) : Env :=
  mkEnv (mkFlags true 1000)
    (TxInput (hash_populated script sig_script) (SampleEngine.input sig_script) 0 (hash_entry script) true)
    EMPTY_COV_CONTEXT None.

(** The script [OpTrue]. *)
Definition redeem : bytes := [81].
Definition hash_address : Address := mkAddress Mainnet V_ScriptHash (blake2b_256 redeem).
Definition true_env : Env := hash_env redeem (1 :: redeem).

(** One signature of two keys, by the second. *)
Definition keys : list bytes := [replicate 32 8; SampleEngine.key].
Definition multisig : bytes := match multisig_redeem_script keys 1 with Ok s => s | _ => [] end.
Definition multisig_sig : bytes := tx_message (hash_populated multisig []) 0 SIG_HASH_ALL ++ SampleEngine.key ++ [SIG_HASH_ALL].
Definition multisig_sig_script : bytes := 65 :: multisig_sig ++ 69 :: multisig.
Definition multisig_env : Env := hash_env multisig multisig_sig_script.

Definition engine (env : Env) : Engine :=
  mkEngine (new_state (flags env) (ScriptUnits (units_new 1000 5000))) reused_new (cache_new 10 (λ _, 0%nat)).
Definition result (env : Env) : Engine := match execute env (engine env) with Ok (_, e) => e | _ => engine env end.

Lemma pubkey_accepts : execute SampleEngine.env (engine SampleEngine.env) = Ok (tt, result SampleEngine.env).
Proof. vm_compute. reflexivity. Qed.
Lemma hash_accepts : execute true_env (engine true_env) = Ok (tt, result true_env).
Proof. vm_compute. reflexivity. Qed.
Lemma multisig_accepts : execute multisig_env (engine multisig_env) = Ok (tt, result multisig_env).
Proof. vm_compute. reflexivity. Qed.
End SampleSpend.
Import SampleSpend.

Lemma pubkey_spend_sound_witness :
  ∃ ty sig, script_items SampleEngine.sig_script = [sig ++ [ty]] ∧ sighash_type_from_u8 ty = Some ty ∧
    key_valid V_PubKey (SampleEngine.populated SampleEngine.sig_script) 0 SampleEngine.key ty sig = Some true.
Proof.
  apply (pubkey_spend_sound address (SampleEngine.populated SampleEngine.sig_script)
    (SampleEngine.input SampleEngine.sig_script) 0 SampleEngine.entry EMPTY_COV_CONTEXT None (mkFlags true 1000) 5000
    SampleEngine.env (new_state (mkFlags true 1000) (ScriptUnits (units_new 1000 5000)))
    (engine SampleEngine.env) (result SampleEngine.env)).
  - constructor; [SampleTx.wf..|done|by vm_compute|done].
  - done.
  - by left.
  - vm_compute. reflexivity.
  - done.
  - split; [constructor|apply reused_new_ok].
  - exact pubkey_accepts.
Defined.

Lemma script_hash_spend_sound_witness :
  ∃ script e2 e3 x, script_items (1 :: redeem) = items (es e2) ++ [script] ∧
    blake2b_256 script = blake2b_256 redeem ∧ execute_script true_env script false e2 = Ok (tt, e3) ∧
    items (es e3) = [x] ∧ deserialize_bool x = Ok true.
Proof.
  apply (script_hash_spend_sound hash_address (hash_populated redeem (1 :: redeem)) (SampleEngine.input (1 :: redeem)) 0
    (hash_entry redeem) EMPTY_COV_CONTEXT None (mkFlags true 1000) 5000 true_env
    (new_state (mkFlags true 1000) (ScriptUnits (units_new 1000 5000))) (engine true_env) (result true_env)).
  - constructor; [SampleTx.wf..|done|by vm_compute|done].
  - vm_compute. reflexivity.
  - done.
  - vm_compute. reflexivity.
  - done.
  - split; [constructor|apply reused_new_ok].
  - exact hash_accepts.
Defined.

Lemma multisig_spend_sound_witness :
  ∃ l script, script_items multisig_sig_script = l ++ [script] ∧
    blake2b_256 script = blake2b_256 multisig ∧
    (script = multisig → length l = 1%nat ∧
      ∃ ks, ks `sublist_of` keys ∧ Forall2 (signed (multisig_valid multisig_env false)) l ks).
Proof.
  apply (multisig_spend_sound false keys 1 multisig (hash_populated multisig multisig_sig_script)
    (SampleEngine.input multisig_sig_script) 0 (hash_entry multisig) EMPTY_COV_CONTEXT None (mkFlags true 1000) 5000
    multisig_env (new_state (mkFlags true 1000) (ScriptUnits (units_new 1000 5000))) (engine multisig_env) (result multisig_env)).
  - constructor; [SampleTx.wf..|done|by vm_compute|done].
  - vm_compute. reflexivity.
  - apply (bool_decide_unpack _). by vm_compute.
  - done.
  - apply (bool_decide_unpack _). by vm_compute.
  - vm_compute. reflexivity.
  - vm_compute. reflexivity.
  - done.
  - split; [constructor|apply reused_new_ok].
  - exact multisig_accepts.
Defined.
