(* ===== verification/ScriptComplete.v ===== *)
(** * Spending is possible

    The other direction of ScriptSpend: the owner of a key can spend what is paid to
    it.  The script engine is run forward, on the states that the scripts of such a
    spend go through, and it accepts. *)

From S2P Require Import Prelude Bytes Address Transaction Sighash Covenants StateMonad ScriptNum ScriptStack ScriptMeter.
From S2P Require Import ScriptParse ScriptState ZkPrecompiles ScriptOps ScriptExec ScriptSafety ScriptVerdict ScriptStandard.
From S2P Require Import ScriptSpend.

(** ** States without alternate stack, conditions or uncharged bytes *)

Definition plain_state (c : bool) (l : list StackEntry) (k : Z) (m : RuntimeResourceMeter) : EngineState :=
  mkState (mkStack l c 0) (mkStack [] c 0) [] k m.

(** A meter that pays for [count] signatures and [units] more. *)
Definition affords (m : RuntimeResourceMeter) (count units : Z) : Prop :=
  match m with
  | Sigops c => count ≤ sig_op_remaining c
  | ScriptUnits u => count * m_sigop_script_units u + units ≤ remaining_script_units u
  end.

Lemma charge_affordable m n s :
  meter_ok m → 0 ≤ n → affords m 0 n → meter s = m →
  ∃ m', on_meter (charge_newly_pushed_bytes n) s = Ok (tt, set_meter m' s) ∧ meter_ok m' ∧
    ∀ count units, affords m count (n + units) → affords m' count units.
Proof.
  intros Hm Hn Ha Hs. unfold on_meter, zoom, charge_newly_pushed_bytes, on_units. rewrite Hs. destruct m as [c|u].
  - exists (Sigops c). by split.
  - unfold zoom, units_consume, checked_sub. simpl in Ha. rewrite (proj2 (Z.leb_le _ _)) by lia.
    eexists. split; [done|]. unfold meter_ok, affords in *. simpl. split; [lia|]. intros count units. lia.
Qed.

Lemma sig_op_affordable m s :
  meter_ok m → affords m 1 0 → meter s = m →
  ∃ m', consume_sig_op_cost 1 s = Ok (tt, set_meter m' s) ∧ meter_ok m' ∧ ∀ units, affords m 1 units → affords m' 0 units.
Proof.
  intros Hm Ha Hs. unfold consume_sig_op_cost, on_meter, zoom, meter_consume_sig_op_cost. rewrite Hs. destruct m as [c|u].
  - unfold zoom, consume_sig_ops, checked_sub. simpl in Ha. rewrite (proj2 (Z.leb_le _ _)) by lia.
    eexists. split; [done|]. unfold meter_ok, affords in *. simpl. split; [lia|]. intros units. lia.
  - unfold zoom, units_consume_sig_op_cost, gets, modify, mbind, stm_mbind, units_consume, checked_sub.
    unfold meter_ok in Hm. simpl in Ha. assert (sat_mul64 1 (m_sigop_script_units u) = m_sigop_script_units u) as Hsat.
    { unfold sat_mul64. lia. }
    rewrite Hsat, (proj2 (Z.leb_le _ _)) by lia. eexists. split; [done|]. unfold affords, meter_ok, sat_add16. simpl.
    split; [lia|]. intros units. lia.
Qed.

Section complete.
Context `{SigningHashes} `{SigCrypto} `{ScriptHashesLaws} `{ZkLibsLaws} (env : Env) (Henv : env_ok env).
Abbreviation c := (covenants (flags env)).

(** The end of an opcode: what it pushed is charged, and the stacks are not too big. *)
Lemma opcode_end l b k m r sc push ops :
  meter_ok m → 0 ≤ b < 2 ^ 64 → affords m 0 b → (length l ≤ MAX_STACK_SIZE)%nat →
  ∃ m', meter_ok m' ∧ (∀ count units, affords m count (b + units) → affords m' count units) ∧
    (_ ← (pushed ← lift pop_pushed_bytes; lift (on_meter (charge_newly_pushed_bytes pushed)));
     _ ← lift check_stack_size; run_opcodes env push ops)
      (mkEngine (mkState (mkStack l c b) (mkStack [] c 0) [] k m) r sc) =
    run_opcodes env push ops (mkEngine (plain_state c l k m') r sc).
Proof.
  intros Hm Hb Ha Hlen.
  destruct (charge_affordable m b (plain_state c l k m) Hm ltac:(lia) Ha eq_refl) as (m' & Hch & Hm' & Haff).
  exists m'. split; [done|]. split; [done|].
  set (e := mkEngine _ _ _).
  assert (lift pop_pushed_bytes e = Ok (b, mkEngine (plain_state c l k m) r sc)) as H1'.
  { transitivity (Ok (E := TxScriptError) (sat_add64 b 0, mkEngine (plain_state c l k m) r sc)); [done|].
    do 2 f_equal. unfold sat_add64. lia. }
  assert (lift (on_meter (charge_newly_pushed_bytes b)) (mkEngine (plain_state c l k m) r sc) =
    Ok (tt, mkEngine (plain_state c l k m') r sc)) as H2'.
  { unfold lift, zoom. cbn [es]. by rewrite Hch. }
  assert (lift check_stack_size (mkEngine (plain_state c l k m') r sc) = Ok (tt, mkEngine (plain_state c l k m') r sc)) as H3'.
  { unfold lift, zoom, check_stack_size, gets, mbind, stm_mbind, depth. cbn [es plain_state astack dstack inner length].
    by rewrite (proj2 (Nat.ltb_ge _ _)) by done. }
  rewrite (bind_step _ _ _ tt (mkEngine (plain_state c l k m') r sc)); [by rewrite (bind_step _ _ _ _ _ H3')|].
  by rewrite (bind_step _ _ _ _ _ H1').
Qed.

(** Reaching an opcode that is allowed. *)
Lemma run_opcode op push ops l k m r sc :
  is_disabled c (value op) = false → always_illegal (value op) = false → push && negb (is_push_opcode (value op)) = false →
  run_opcodes env push (Ok op :: ops) (mkEngine (plain_state c l k m) r sc) =
  (_ ← execute_opcode env op; _ ← lift check_stack_size; run_opcodes env push ops) (mkEngine (plain_state c l k m) r sc).
Proof. intros H1' H2' H3'. cbn [run_opcodes]. rewrite (bind_step _ _ _ op (mkEngine (plain_state c l k m) r sc)) by done. by rewrite H1', H2', H3'. Qed.

Lemma push_allowed op : is_push_opcode (value op) = true → is_disabled c (value op) = false ∧ always_illegal (value op) = false.
Proof.
  unfold is_push_opcode. intros Hv%Z.leb_le. split.
  - unfold is_disabled. destruct c; apply bool_decide_eq_false_2; rewrite !elem_of_cons, elem_of_nil; lia.
  - unfold always_illegal. by rewrite !(proj2 (Z.eqb_neq _ _)) by lia.
Qed.

(** Executing an opcode outside of conditions: what it does, and the charge. *)
Lemma execute_opcode_step op l k m r sc e {B} (f : () → stm TxScriptError Engine B) :
  lift (count_opcode env op) (mkEngine (plain_state c l k m) r sc) = Ok (tt, e) → cond_stack (es e) = [] →
  (negb c && (0 <? value op) && (value op <=? OpPushData4) = true → check_minimal_data_push op = Ok tt) →
  ∀ e', op_execute env op e = Ok (tt, e') →
  (execute_opcode env op ≫= f) (mkEngine (plain_state c l k m) r sc) =
  (_ ← (pushed ← lift pop_pushed_bytes; lift (on_meter (charge_newly_pushed_bytes pushed))); f tt) e'.
Proof.
  intros Hc Hk Hmin e' He. unfold mbind at 1, stm_mbind at 1. unfold execute_opcode. rewrite (bind_step _ _ _ _ _ Hc).
  rewrite (bind_step _ _ _ true e) by (unfold gets, is_executing; by rewrite Hk). cbn [orb].
  rewrite (bind_step _ _ _ tt e).
  2:{ unfold lift_res. destruct (_ && _) eqn:Hb; [by rewrite Hmin|done]. }
  rewrite (bind_step _ _ _ _ _ He). symmetry. unfold mbind at 1, stm_mbind at 1.
  by destruct ((lift pop_pushed_bytes ≫= _) e') as [[[] ?]| |].
Qed.

Lemma run_push l k m r sc push op d ops :
  pushes op d → zlen (op_data op) ≤ max_script_element_size c → zlen d ≤ MAX_SCRIPT_ELEMENT_SIZE_PRE_TOCCATA →
  meter_ok m → affords m 0 0 → (S (length l) ≤ MAX_STACK_SIZE)%nat →
  ∃ m', meter_ok m' ∧ (∀ count units, affords m count units → affords m' count units) ∧
    run_opcodes env push (Ok op :: ops) (mkEngine (plain_state c l k m) r sc) =
    run_opcodes env push ops (mkEngine (plain_state c (l ++ [d]) k m') r sc).
Proof.
  intros (Hv & Hp & Hsz & Hmin & Hex) Hdata Hd Hm Ha Hlen.
  destruct (opcode_end (l ++ [d]) 0 k m r sc push ops Hm ltac:(lia) Ha) as (m' & Hm' & Haff & He);
    [rewrite length_app; simpl; lia|].
  exists m'. split; [done|]. split; [intros count units Hcu; apply Haff; by rewrite Z.add_0_l|]. rewrite <- He. clear He.
  destruct (push_allowed op Hp) as [H1' H2']. rewrite run_opcode by (rewrite ?Hp, ?andb_false_r; done).
  apply (execute_opcode_step op l k m r sc (mkEngine (plain_state c l k m) r sc)); [|done| |].
  - unfold lift, zoom, count_opcode. rewrite Hp. cbn [negb]. by rewrite (proj2 (Z.ltb_ge _ _)) by done.
  - intros Hb. apply Hmin. apply andb_true_iff in Hb as [Hb ?%Z.leb_le]. apply andb_true_iff in Hb as [_ ?%Z.ltb_lt]. lia.
  - rewrite push_opcode_plain by done. unfold lift, zoom. cbn [es]. rewrite Hex.
    unfold push_literal_data, on_dstack, zoom, push_unmetered, check_element_size, max_element_size, gets, mbind, stm_mbind.
    cbn [dstack plain_state covenants_enabled]. destruct c; by rewrite (proj2 (Z.ltb_ge _ _)) by lia.
Qed.

(** A signature check that the answer is yes to. *)
Definition accepts (check : Z → bytes → bytes → stm TxScriptError Engine bool) (ty : Z) (key sig : bytes) : Prop :=
  ∀ l k m r sc, caches_ok env (mkEngine (plain_state c l k m) r sc) → meter_ok m → affords m 1 0 →
    ∃ m' r' sc', check ty key sig (mkEngine (plain_state c l k m) r sc) = Ok (true, mkEngine (plain_state c l k m') r' sc') ∧
      meter_ok m' ∧ (∀ units, affords m 1 units → affords m' 0 units).

Lemma cached_answer e key : caches_ok env e → ∃ sc', cached_verify key e = Ok (verify_key key, mkEngine (es e) (reused e) sc').
Proof.
  intros [Hc _]. unfold cached_verify. destruct (cache_get key (sig_cache e)) as [v|] eqn:Hg; [|by eexists].
  apply (cache_get_all _ _ _ _ Hc) in Hg as ->. exists (sig_cache e). by destruct e.
Qed.

(** After the cost, both checks compute the message and look it up. *)
Lemma message_answer l k m r sc f h key :
  msg_ok env f h → caches_ok env (mkEngine (plain_state c l k m) r sc) →
  ∃ r' sc', (x ← message f; cached_verify (key x)) (mkEngine (plain_state c l k m) r sc) =
    Ok (verify_key (key h), mkEngine (plain_state c l k m) r' sc').
Proof.
  intros Hf [Hc Hr]. destruct (Hf r Hr) as (r' & Hm & Hr').
  rewrite (bind_step _ _ _ h (mkEngine (plain_state c l k m) r' sc)) by (unfold message; cbn [reused]; by rewrite Hm).
  destruct (cached_answer (mkEngine (plain_state c l k m) r' sc) (key h)) as [sc' ->]; [done|]. by exists r', sc'.
Qed.

Lemma accepts_schnorr ty key sig : tx_schnorr_valid env ty key sig = Some true → accepts (check_schnorr_signature env) ty key sig.
Proof.
  unfold tx_schnorr_valid, check_schnorr_signature. destruct (script_source env) as [p input i u b|] eqn:Hsrc; [|done].
  unfold schnorr_valid. destruct (xonly_from_slice key) as [pk|] eqn:Hpk; [|done].
  destruct (schnorr_from_slice sig) as [sg|] eqn:Hsg; [|done]. intros [= Hver] l k m r sc Hc Hm Ha.
  destruct (sig_op_affordable m (plain_state c l k m) Hm Ha eq_refl) as (m' & Hcost & Hm' & Haff).
  destruct (message_answer l k m' r sc _ _ (λ x, KeySchnorr sg pk x) (schnorr_msg_ok env Henv _ _ _ _ _ ty Hsrc) Hc)
    as (r' & sc' & Hans).
  exists m', r', sc'. split; [|done]. unfold check_schnorr_signature_with_msg_hash.
  rewrite (bind_step _ _ _ tt (mkEngine (plain_state c l k m') r sc)) by (unfold lift, zoom; cbn [es]; by rewrite Hcost).
  rewrite Hpk. rewrite (bind_step _ _ _ pk (mkEngine (plain_state c l k m') r sc)) by done.
  rewrite Hsg. rewrite (bind_step _ _ _ sg (mkEngine (plain_state c l k m') r sc)) by done.
  rewrite Hans. cbn [verify_key]. by rewrite Hver.
Qed.

Lemma accepts_ecdsa ty key sig : tx_ecdsa_valid env ty key sig = Some true → accepts (check_ecdsa_signature env) ty key sig.
Proof.
  unfold tx_ecdsa_valid, check_ecdsa_signature. destruct (script_source env) as [p input i u b|] eqn:Hsrc; [|done].
  unfold ecdsa_valid. destruct (length key =? 33)%nat eqn:Hlen; [|done].
  destruct (ecdsa_key_from_slice key) as [pk|] eqn:Hpk; [|done].
  destruct (ecdsa_from_compact sig) as [sg|] eqn:Hsg; [|done]. intros [= Hver] l k m r sc Hc Hm Ha.
  destruct (sig_op_affordable m (plain_state c l k m) Hm Ha eq_refl) as (m' & Hcost & Hm' & Haff).
  destruct (message_answer l k m' r sc _ _ (λ x, KeyEcdsa sg pk x) (ecdsa_msg_ok env Henv _ _ _ _ _ ty Hsrc) Hc)
    as (r' & sc' & Hans).
  exists m', r', sc'. split; [|done]. unfold check_ecdsa_signature_with_msg_hash.
  rewrite (bind_step _ _ _ tt (mkEngine (plain_state c l k m') r sc)) by (unfold lift, zoom; cbn [es]; by rewrite Hcost).
  rewrite (bind_step _ _ _ tt (mkEngine (plain_state c l k m') r sc))
    by (unfold check_pub_key_encoding_ecdsa, lift_res; by rewrite Hlen).
  rewrite Hpk. rewrite (bind_step _ _ _ pk (mkEngine (plain_state c l k m') r sc)) by done.
  rewrite Hsg. rewrite (bind_step _ _ _ sg (mkEngine (plain_state c l k m') r sc)) by done.
  rewrite Hans. cbn [verify_key]. by rewrite Hver.
Qed.

(** The check opcode, with the signature and the key on the stack. *)
Lemma run_check op check ty key sig m r sc :
  is_disabled c (value op) = false → always_illegal (value op) = false → is_push_opcode (value op) = false →
  OpPushData4 < value op → op_execute env op = check_sig_with check → accepts check ty key sig →
  sighash_type_from_u8 ty = Some ty → caches_ok env (mkEngine (plain_state c [sig ++ [ty]; key] 0 m) r sc) →
  meter_ok m → affords m 1 1 →
  ∃ m' r' sc', run_opcodes env false [Ok op] (mkEngine (plain_state c [sig ++ [ty]; key] 0 m) r sc) =
    Ok (tt, mkEngine (plain_state c [serialize_bool true] 1 m') r' sc').
Proof.
  intros Hdis Hill Hnp Hval Hop Hacc Hty Hc Hm Ha.
  destruct (Hacc [] 1 m r sc) as (m1 & r' & sc' & Hchk & Hm1 & Haff);
    [done|done|unfold affords in *; case_match; lia|].
  destruct (opcode_end [serialize_bool true] 1 1 m1 r' sc' false [] Hm1 ltac:(lia) (Haff 1 Ha)) as (m2 & Hm2 & _ & He);
    [simpl; lia|].
  exists m2, r', sc'. rewrite run_opcode by done. cbn [run_opcodes ok] in He |- *. unfold ok at 2 in He. rewrite <- He. clear He.
  apply (execute_opcode_step op _ 0 m r sc (mkEngine (plain_state c [sig ++ [ty]; key] 1 m) r sc)); [|done| |].
  - unfold lift, zoom, count_opcode. rewrite Hnp. cbn [negb]. unfold add_ops, max_ops_per_script. by destruct c.
  - intros Hb. apply andb_true_iff in Hb as [_ ?%Z.leb_le]. lia.
  - rewrite Hop. unfold check_sig_with.
    rewrite (bind_step _ _ _ (sig ++ [ty], key) (mkEngine (plain_state c [] 1 m) r sc)) by done.
    rewrite last_snoc, Hty. rewrite (bind_step _ _ _ ty (mkEngine (plain_state c [] 1 m) r sc)) by done.
    rewrite length_app. cbn [length]. rewrite Nat.add_sub, take_app_length. by rewrite (bind_step _ _ _ _ _ Hchk).
Qed.

(** A script that leaves the state as it should be between scripts. *)
Lemma execute_script_step script push e l k m r sc :
  run_opcodes env push (parse_script script) e = Ok (tt, mkEngine (plain_state c l k m) r sc) →
  execute_script env script push e = Ok (tt, mkEngine (plain_state c l 0 m) r sc).
Proof. intros He. unfold execute_script. by rewrite (bind_step _ _ _ _ _ He). Qed.

Lemma data_pushes d : is_bytes d → 2 ≤ zlen d ≤ 75 → pushes (mkOp (zlen d) d) d.
Proof.
  intros Hb Hd. replace (mkOp (zlen d) d) with (data_op d).
  - unfold zlen in Hd. destruct d as [|x [|y d]]; [simpl in Hd; lia..|]. apply canonical_data; [done|unfold zlen; lia|done|done].
  - unfold data_op. by rewrite (proj2 (Z.eqb_neq _ _)), (proj2 (Z.leb_le _ _)) by lia.
Qed.

Lemma parse_one n d : 1 ≤ n ≤ 75 → length d = Z.to_nat n → is_bytes d → parse_script ([n] ++ d) = [Ok (mkOp n d)].
Proof.
  intros Hn Hd Hb. assert (op_length n = Fixed (Z.to_nat (n + 1))) as Hl by (by apply op_length_data).
  replace ([n] ++ d) with (op_serialize (mkOp n d) ++ []).
  - rewrite parse_serialized; [done|apply (op_valid_fixed (mkOp n d) _ Hl); simpl; lia|].
    rewrite app_nil_r. unfold op_serialize. cbn [value op_data]. rewrite Hl. apply is_bytes_cons. split; [unfold in_u; lia|done].
  - rewrite app_nil_r. unfold op_serialize. cbn [value op_data]. by rewrite Hl.
Qed.

(** The two scripts of a spend, one after the other. *)
Lemma run_signed p input i u b sig ty n key code check m r sc :
  script_source env = TxInput p input i u b → length sig = 64%nat → is_bytes sig → in_u 8 ty → sighash_type_from_u8 ty = Some ty →
  2 ≤ n ≤ 75 → length key = Z.to_nat n → is_bytes key → (code = OpCheckSig ∨ code = OpCheckSigECDSA) →
  op_execute env (mkOp code []) = check_sig_with check → accepts check ty key sig →
  caches_ok env (mkEngine (plain_state c [] 0 m) r sc) → meter_ok m → affords m 1 1 →
  ∃ m' r' sc', run_scripts env false 0 [[65] ++ sig ++ [ty]; [n] ++ key ++ [code]] None (mkEngine (plain_state c [] 0 m) r sc) =
    Ok (None, mkEngine (plain_state c [serialize_bool true] 0 m') r' sc').
Proof.
  intros Hsrc Hsig Hsb Hty Htype Hn Hkey Hkb Hcode Hop Hacc Hc Hm Ha.
  assert (is_bytes (sig ++ [ty])) as Hb1 by (apply is_bytes_app; split; [done|]; apply is_bytes_cons; by split; [|constructor]).
  assert (zlen (sig ++ [ty]) = 65) as Hl1 by (unfold zlen; rewrite length_app, Hsig; done).
  assert (zlen key = n) as Hl2 by (unfold zlen; lia).
  assert (pushes (mkOp 65 (sig ++ [ty])) (sig ++ [ty])) as Hp1 by (rewrite <- Hl1; apply data_pushes; [done|lia]).
  assert (pushes (mkOp n key) key) as Hp2 by (rewrite <- Hl2; apply data_pushes; [done|lia]).
  assert (520 ≤ max_script_element_size c) as Hmax by (unfold max_script_element_size; by destruct c).
  assert (affords m 0 0) as Ha0 by (unfold affords, meter_ok in *; case_match; lia).
  destruct (run_push [] 0 m r sc true _ _ [] Hp1) as (m1 & Hm1 & Haff1 & Hrun1); [cbn [op_data]; lia|lia|done|done|simpl; lia|].
  destruct (run_push [sig ++ [ty]] 0 m1 r sc false _ _ [Ok (mkOp code [])] Hp2) as (m2 & Hm2 & Haff2 & Hrun2);
    [cbn [op_data]; lia|lia|done|by apply Haff1|simpl; lia|].
  destruct (run_check (mkOp code []) check ty key sig m2 r sc) as (m3 & r' & sc' & Hrun3);
    [by destruct Hcode as [-> | ->]; destruct c|by destruct Hcode as [-> | ->]..|done|done|done|done|done|by apply Haff2, Haff1|].
  exists m3, r', sc'. cbn [run_scripts is_empty app]. rewrite Hsrc. cbn [Nat.eqb andb].
  rewrite (bind_step _ _ _ (mkStack [] c 0) (mkEngine (plain_state c [] 0 m) r sc)) by done.
  rewrite (bind_step _ _ _ tt (mkEngine (plain_state c [sig ++ [ty]] 0 m1) r sc)).
  2:{ apply (execute_script_step _ _ _ _ 0). change (65 :: sig ++ [ty]) with ([65] ++ (sig ++ [ty])).
      rewrite parse_one; [exact Hrun1|lia|by unfold zlen in Hl1; lia|done]. }
  rewrite (bind_step _ _ _ (mkStack [sig ++ [ty]] c 0) (mkEngine (plain_state c [sig ++ [ty]] 0 m1) r sc)) by done.
  rewrite (bind_step _ _ _ tt (mkEngine (plain_state c [serialize_bool true] 0 m3) r' sc')); [done|].
  apply (execute_script_step _ _ _ _ 1). change (n :: key ++ [code]) with ([n] ++ key ++ [code]).
  rewrite parse_two; [by rewrite Hrun2, <- Hrun3|lia|done|by destruct Hcode as [-> | ->]|done].
Qed.

(** The engine for an input accepts a signature that is valid for the key. *)
Lemma execute_signed p input i u sig ty n key code check m r sc :
  script_source env = TxInput p input i u false → signature_script input = [65] ++ sig ++ [ty] →
  entry_spk u = mkSpk 0 ([n] ++ key ++ [code]) →
  length sig = 64%nat → is_bytes sig → in_u 8 ty → sighash_type_from_u8 ty = Some ty →
  2 ≤ n ≤ 33 → length key = Z.to_nat n → is_bytes key → (code = OpCheckSig ∨ code = OpCheckSigECDSA) →
  op_execute env (mkOp code []) = check_sig_with check → accepts check ty key sig →
  caches_ok env (mkEngine (plain_state c [] 0 m) r sc) → meter_ok m → affords m 1 1 →
  ∃ e', execute env (mkEngine (plain_state c [] 0 m) r sc) = Ok (tt, e').
Proof.
  intros Hsrc Hss Hspk Hsig Hsb Hty Htype Hn Hkey Hkb Hcode Hop Hacc Hc Hm Ha.
  assert (affords m 0 0) as Ha0 by (unfold affords, meter_ok in *; case_match; lia).
  destruct (charge_affordable m 0 (plain_state c [] 0 m) Hm ltac:(lia) Ha0 eq_refl) as (m1 & Hch & Hm1 & Haff).
  destruct (run_signed p input i u false sig ty n key code check m1 r sc) as (m2 & r' & sc' & Hrun); try done; [lia|by apply Haff|].
  assert (zlen ([n] ++ key ++ [code]) = n + 2) as Hz by (unfold zlen; rewrite !length_app, Hkey; simpl; lia).
  assert (zlen ([65] ++ sig ++ [ty]) = 66) as Hz' by (unfold zlen; by rewrite !length_app, Hsig).
  eexists. unfold execute. rewrite (bind_step _ _ _ Executed (mkEngine (plain_state c [serialize_bool true] 0 m2) r' sc')).
  { unfold lift, zoom. reflexivity. }
  unfold execute_inner. rewrite Hsrc, Hspk, Hss. cbn [spk_version spk_script]. cbn [Z.ltb Z.compare].
  replace (sat_sub64 (zlen ([n] ++ key ++ [code])) STANDARD_SCRIPT_PUB_KEY_MAX_SIZE) with 0 by (rewrite Hz; unfold sat_sub64; lia).
  rewrite (bind_step _ _ _ 0 (mkEngine (plain_state c [] 0 m) r sc)) by done.
  unfold execute_scripts.
  rewrite (bind_step _ _ _ tt (mkEngine (plain_state c [] 0 m1) r sc)) by (unfold lift, zoom; cbn [es]; by setoid_rewrite Hch).
  replace (list_find _ _) with (None : option (nat * bytes)).
  2:{ symmetry. apply list_find_None. rewrite !Forall_cons. rewrite Hz, Hz'. unfold max_scripts_size.
      destruct c; (split; [lia|split; [lia|constructor]]). }
  cbn [is_empty forallb app andb]. by rewrite (bind_step _ _ _ _ _ Hrun).
Qed.
End complete.
