(* ===== verification/TxContext.v ===== *)
(** * Transaction validation in UTXO context
      (consensus/src/processes/transaction_validator/tx_validation_in_utxo_context.rs)

    The rules that need the entries a transaction spends: amounts, maturity, relative
    locks, the storage mass commitment, covenants, scripts and, for a shielded
    transaction, its bundle.  The jobs of the parallel script check run in the order
    of a schedule, which is an argument; the signature cache that they share is the
    state.  A [f64] is a [spec_float] of the Standard Library. *)

From Stdlib Require Import Floats.SpecFloat.
From S2P Require Import Prelude Bytes Address NoteTree Turnstile Bundle BundleVerify Transaction Sighash Mass ScriptNum TxIsolation.
From S2P Require Import Covenants StateMonad ScriptStack ScriptMeter ScriptParse ScriptState ZkPrecompiles ScriptOps.
From S2P Require Import ScriptExec ScriptSafety ScriptVerdict ScriptStandard ScriptSpend ScriptComplete.

Abbreviation SEQUENCE_LOCK_TIME_MASK := (4294967295)%Z (only parsing).
Abbreviation SEQUENCE_LOCK_TIME_DISABLED := (2 ^ 63)%Z (only parsing).

Inductive TxValidationFlags := Full | SkipScriptChecks | SkipMassCheck.

Definition populated_inputs (p : PopulatedTransaction) : list (TransactionInput * UtxoEntry) :=
  zip (inputs (ptx p)) (entries p).

(** ** Amounts, maturity, locks and mass *)

(** [fee as f64 / mass as f64 <= threshold]. *)
Definition f64_of_u64 (x : Z) : spec_float := binary_normalize 53 1024 x 0 false.
Definition check_feerate_threshold (fee : Z) (mass_and_feerate_threshold : option (Z * spec_float)) : txres () :=
  match mass_and_feerate_threshold with
  | None => Ok tt
  | Some (contextual_mass, feerate_threshold) =>
      _ ← assert_p (0 <? contextual_mass);
      if SFleb (SFdiv 53 1024 (f64_of_u64 fee) (f64_of_u64 contextual_mass)) feerate_threshold then Err FeerateTooLow else Ok tt
  end.

(** [find] over the enumerated inputs, from the [i]-th. *)
Fixpoint coinbase_maturity_from (v : TransactionValidator) (pov : Z) (i : nat) (l : list (TransactionInput * UtxoEntry)) : txres () :=
  match l with
  | [] => Ok tt
  | (inp, e) :: l =>
      immature ← (if is_coinbase_entry e then s ← add_p 64 (block_daa_score e) (coinbase_maturity v); Ok (pov <? s) else Ok false);
      if (immature : bool)
      then Err (ImmatureCoinbaseSpend i (previous_outpoint inp) (block_daa_score e) pov (coinbase_maturity v))
      else coinbase_maturity_from v pov (S i) l
  end.
Definition check_transaction_coinbase_maturity (v : TransactionValidator) (p : PopulatedTransaction) (pov : Z) : txres () :=
  coinbase_maturity_from v pov 0 (populated_inputs p).

Fixpoint input_amounts (total : Z) (l : list (TransactionInput * UtxoEntry)) : txres Z :=
  match l with
  | [] => Ok total
  | (_, e) :: l =>
      match checked_add 64 total (amount e) with
      | None => Err InputAmountOverflow
      | Some total => if MAX_SOMPI <? total then Err InputAmountTooHigh else input_amounts total l
      end
  end.
Definition check_transaction_input_amounts (p : PopulatedTransaction) : txres Z := input_amounts 0 (populated_inputs p).

Definition check_transaction_output_values (p : PopulatedTransaction) (total_in : Z) : txres Z :=
  total_out ← sum_p (out_value <$> outputs (ptx p));
  if total_in <? total_out then Err (SpendTooHigh total_out total_in) else Ok total_out.

Definition check_mass_commitment (v : TransactionValidator) (p : PopulatedTransaction) : txres () :=
  calculated ← map_err (λ _, MassIncomputable) (calc_contextual_masses (mass_calculator v) p);
  let committed := storage_mass (ptx p) in
  if negb (committed =? calculated) then Err (WrongMass calculated committed) else Ok tt.

(** Whether the relative lock of an input is still closed. *)
Definition locked {E} (pov : Z) (inp : TransactionInput) (e : UtxoEntry) : res E bool :=
  if Z.land (sequence inp) SEQUENCE_LOCK_TIME_DISABLED =? SEQUENCE_LOCK_TIME_DISABLED then Ok false
  else
    let relative_lock := Z.land (sequence inp) SEQUENCE_LOCK_TIME_MASK in
    x ← signed_p 64 (to_signed 64 (block_daa_score e) + relative_lock);
    lock_daa_score ← signed_p 64 (x - 1);
    Ok (to_signed 64 pov <=? lock_daa_score).
Fixpoint any_locked (pov : Z) (l : list (TransactionInput * UtxoEntry)) : txres bool :=
  match l with
  | [] => Ok false
  | (inp, e) :: l => b ← locked pov inp e; if (b : bool) then Ok true else any_locked pov l
  end.
Definition check_sequence_lock (p : PopulatedTransaction) (pov : Z) : txres () :=
  b ← any_locked pov (populated_inputs p);
  if (b : bool) then Err SequenceLockConditionsAreNotMet else Ok tt.

(** ** Scripts *)

Abbreviation CHECK_SCRIPTS_PARALLELISM_THRESHOLD := 1%nat (only parsing).

Section scripts.
Context `{SigningHashes} `{SigCrypto} `{ScriptHashes} `{ZkLibs}.

(** What the engines of a transaction share: the memo and the signature cache. *)
Abbreviation caches := (SigHashReusedValues * Cache SigCacheKey bool)%type.

Definition map_script_err (e : TxScriptError) (input : TransactionInput) : TxRuleError :=
  if is_empty (signature_script input) then SignatureEmpty e else SignatureInvalid e.

(** The check of one input. *)
Definition check_input (p : PopulatedTransaction) (ctx : CovenantsContext) (acc : option SeqCommitAccessor) (fl : EngineFlags)
    (i : nat) : stm TxRuleError caches () := λ '(r, sc),
  '(input, entry) ← populated_input p i;
  '(env, s0) ← from_transaction_input_with_script_units_limit p input i entry ctx acc fl
                 (allowed_script_units (compute_commit input));
  match execute env (mkEngine s0 r sc) with
  | Ok (_, e) => Ok (tt, (reused e, sig_cache e))
  | Err x => Err (map_script_err x input)
  | Panic => Panic
  end.

(** The checks of some inputs, one after the other, until one fails. *)
Fixpoint check_inputs p ctx acc fl (order : list nat) : stm TxRuleError caches () :=
  match order with
  | [] => ok tt
  | i :: order => _ ← check_input p ctx acc fl i; check_inputs p ctx acc fl order
  end.

Definition check_scripts_sequential p ctx acc fl : stm TxRuleError caches () :=
  check_inputs p ctx acc fl (seq 0 (length (inputs (ptx p)))).
(** The parallel iterator, with the order in which its jobs happen to run. *)
Definition check_scripts_par_iter (schedule : list nat) p ctx acc fl : stm TxRuleError caches () :=
  check_inputs p ctx acc fl schedule.

(** The memo is fresh, the signature cache is the validator's. *)
Definition check_scripts_with (schedule : list nat) p ctx acc fl : stm TxRuleError (Cache SigCacheKey bool) () := λ sc,
  '(_, (_, sc)) ← (if (CHECK_SCRIPTS_PARALLELISM_THRESHOLD <? length (inputs (ptx p)))%nat
                   then check_scripts_par_iter schedule p ctx acc fl
                   else check_scripts_sequential p ctx acc fl) (reused_new, sc);
  Ok (tt, sc).
End scripts.

(** ** Validation *)

Section validation.
Context `{SigningHashes} `{SigCrypto} `{ScriptHashes} `{ZkLibs} `{CovenantHash} `{Blake2b} `{OrchardVerifier}.
Context (v : TransactionValidator).

Definition decode_payload_bundle (t : Transaction) : txres ShieldedBundle :=
  map_err (λ _, InvalidShieldedTransaction MalformedBundle) (from_bytes (payload t)).

Definition verify_shielded_bundle (t : Transaction) (network_domain : bytes) : txres () :=
  bundle ← decode_payload_bundle t;
  let ctx := shielded_sighash_context t in
  let sighash := sighash bundle network_domain ctx in
  map_err InvalidShieldedBundle (verify_bundle bundle sighash).

Definition check_covenant_info (p : PopulatedTransaction) (block_daa_score : Z) : txres CovenantsContext :=
  if negb (is_active (toccata_activation v) block_daa_score) then Ok EMPTY_COV_CONTEXT
  else map_err TxCovenantsError (from_tx p).

Definition check_scripts (schedule : list nat) (p : PopulatedTransaction) (ctx : CovenantsContext) (block_daa_score : Z)
    (acc : option SeqCommitAccessor) : stm TxRuleError (Cache SigCacheKey bool) () :=
  units ← lift_res (gram_to_units (mass_per_sig_op v));
  check_scripts_with schedule p ctx acc (mkFlags (is_active (toccata_activation v) block_daa_score) units).

(** The fee: what is left of the inputs, or the value balance of a bundle. *)
Definition fee_of (p : PopulatedTransaction) (total_in total_out : Z) : txres Z :=
  if is_shielded (ptx p) then
    bundle ← decode_payload_bundle (ptx p);
    if value_balance bundle <? 0 then Err (InvalidShieldedTransaction NegativeFee) else Ok (value_balance bundle)
  else sub_p total_in total_out.

(** Everything before the scripts: the fee and the covenants context. *)
Definition check_before_scripts (p : PopulatedTransaction) (pov_daa_score block_daa_score : Z) (fl : TxValidationFlags)
    (mass_and_feerate_threshold : option (Z * spec_float)) : txres (Z * CovenantsContext) :=
  _ ← check_transaction_coinbase_maturity v p pov_daa_score;
  total_in ← check_transaction_input_amounts p;
  total_out ← check_transaction_output_values p total_in;
  fee ← fee_of p total_in total_out;
  _ ← match fl with SkipMassCheck => Ok tt | _ => check_mass_commitment v p end;
  _ ← check_sequence_lock p pov_daa_score;
  _ ← check_feerate_threshold fee mass_and_feerate_threshold;
  ctx ← check_covenant_info p block_daa_score;
  Ok (fee, ctx).

(** The scripts of the inputs, and then the bundle of a shielded transaction. *)
Definition check_scripts_and_bundle (schedule : list nat) (p : PopulatedTransaction) (ctx : CovenantsContext)
    (block_daa_score : Z) (fl : TxValidationFlags) (acc : option SeqCommitAccessor) : stm TxRuleError (Cache SigCacheKey bool) () :=
  match fl with
  | Full | SkipMassCheck =>
      _ ← check_scripts schedule p ctx block_daa_score acc;
      if is_shielded (ptx p) then lift_res (verify_shielded_bundle (ptx p) (shielded_network_domain v)) else ok tt
  | SkipScriptChecks => ok tt
  end.

Definition validate_populated_transaction_and_get_fee (schedule : list nat) (p : PopulatedTransaction)
    (pov_daa_score block_daa_score : Z) (fl : TxValidationFlags) (mass_and_feerate_threshold : option (Z * spec_float))
    (acc : option SeqCommitAccessor) : stm TxRuleError (Cache SigCacheKey bool) Z :=
  '(fee, ctx) ← lift_res (check_before_scripts p pov_daa_score block_daa_score fl mass_and_feerate_threshold);
  _ ← check_scripts_and_bundle schedule p ctx block_daa_score fl acc;
  ok fee.
End validation.

(** ** Schedules *)

Section schedules.
Context `{SigningHashes} `{SigCrypto} `{ScriptHashesLaws} `{ZkLibsLaws}.
Context (p : PopulatedTransaction) (ctx : CovenantsContext) (acc : option SeqCommitAccessor) (fl : EngineFlags).
Context (Hp : populated_wf p) (Hacc : ∀ a b h, acc = Some a → seq_commitment_within_depth a b = Some h → is_array 32 h).
Context (Hfl : 0 ≤ sigop_script_units fl).
Abbreviation caches := (SigHashReusedValues * Cache SigCacheKey bool)%type.

(** The cache remembers what verification returns, the memo belongs to the transaction. *)
Definition truthful (c : caches) : Prop := cache_all (λ k v, v = verify_key k) c.2 ∧ reused_ok (ptx p) c.1.

Lemma allowed_units_range c : commit_wf c → in_u 64 (allowed_script_units c).
Proof.
  intros Hc. unfold allowed_script_units, sat_add64, commit_script_units, free_script_units_per_input, SCRIPT_UNITS_PER_COMPUTE_BUDGET_UNIT,
    SCRIPT_UNITS_PER_SIGOP_COUNT_UNIT. destruct c; unfold commit_wf, in_u in *; lia.
Qed.

(** The engine of an input. *)
Lemma input_engine i :
  (i < length (inputs (ptx p)))%nat →
  ∃ input u env m, populated_input (E := TxRuleError) p i = Ok (input, u) ∧
    inputs (ptx p) !! i = Some input ∧ entries p !! i = Some u ∧
    spend_ok p input u acc fl (allowed_script_units (compute_commit input)) ∧
    from_transaction_input_with_script_units_limit (E := TxRuleError) p input i u ctx acc fl
      (allowed_script_units (compute_commit input)) = Ok (env, new_state fl m) ∧
    env_ok env ∧ flags env = fl ∧ meter_ok m ∧
    script_source env = TxInput p input i u (is_pay_to_script_hash (spk_script (entry_spk u))).
Proof.
  intros Hi. destruct (populated_input_Ok (E := TxRuleError) p i Hp Hi) as (input & u & Hin & H1' & H2' & Hiw & Huw).
  assert (spend_ok p input u acc fl (allowed_script_units (compute_commit input))) as Hso.
  { constructor; try done. destruct Hiw as (_ & _ & _ & _ & Hc). by apply allowed_units_range. }
  unfold from_transaction_input_with_script_units_limit at 1, assert_p. rewrite (proj2 (Nat.ltb_lt _ _) Hi). cbn [mbind res_mbind].
  eexists input, u, _, _. split; [done|]. split; [done|]. split; [done|]. split; [done|]. split; [done|].
  edestruct (engine_made p input i u ctx acc fl (allowed_script_units (compute_commit input))) as (He & Hf & Hsrc & m & Hm & Hs); [done| |].
  { unfold from_transaction_input_with_script_units_limit, assert_p. rewrite (proj2 (Nat.ltb_lt _ _) Hi). reflexivity. }
  split; [done|]. split; [done|]. injection Hs as Hs. split; [by rewrite Hs|done].
Qed.

(** One check: its verdict does not depend on the caches, which stay truthful. *)
Lemma check_input_rel i c1 c2 :
  (i < length (inputs (ptx p)))%nat → truthful c1 → truthful c2 →
  match check_input p ctx acc fl i c1, check_input p ctx acc fl i c2 with
  | Ok (_, c1'), Ok (_, c2') => truthful c1' ∧ truthful c2'
  | Err x, Err y => x = y
  | _, _ => False
  end.
Proof.
  intros Hi H1' H2'. destruct (input_engine i Hi) as (input & u & env & m & Hin & _ & _ & _ & Hnew & Henv & Hf & Hm & Hsrc).
  destruct c1 as [r1 sc1], c2 as [r2 sc2]. unfold check_input. rewrite Hin. cbn [mbind res_mbind]. rewrite Hnew. cbn [mbind res_mbind].
  assert (∀ r sc, truthful (r, sc) → caches_ok env (mkEngine (new_state fl m) r sc)) as Htrue.
  { intros r sc [Hc Hr]. split; [done|]. by rewrite Hsrc. }
  pose proof (execute_rel env Henv m (mkEngine (new_state fl m) r1 sc1) (mkEngine (new_state fl m) r2 sc2)) as Hrel.
  specialize (Hrel (conj eq_refl (conj (Htrue _ _ H1') (Htrue _ _ H2')))). rewrite Hf in Hrel. specialize (Hrel (new_state_ok _ _ Hm)).
  destruct (execute env (mkEngine (new_state fl m) r1 sc1)) as [[[] e1]| |],
    (execute env (mkEngine (new_state fl m) r2 sc2)) as [[[] e2]| |]; try done; [|by subst].
  destruct Hrel as (_ & (_ & [Hc1 Hr1] & [Hc2 Hr2]) & _). rewrite Hsrc in Hr1, Hr2. by split.
Qed.

(** The verdict on an input, from the caches [c0]. *)
Definition verdict (c0 : caches) (i : nat) : txres () :=
  match check_input p ctx acc fl i c0 with Ok _ => Ok tt | Err x => Err x | Panic => Panic end.

(** What a schedule finds: success when every input passes, or else the error of one
    that does not. *)
Lemma check_inputs_spec c0 order c :
  truthful c0 → Forall (λ i, (i < length (inputs (ptx p)))%nat) order → truthful c →
  match check_inputs p ctx acc fl order c with
  | Ok (_, c') => truthful c' ∧ Forall (λ i, verdict c0 i = Ok tt) order
  | Err x => ∃ i, i ∈ order ∧ verdict c0 i = Err x
  | Panic => False
  end.
Proof.
  intros Hc0 Ho. revert c. induction Ho as [|i order Hi Ho IH]; intros c Hc; cbn [check_inputs]; [by split; [|constructor]|].
  pose proof (check_input_rel i c c0 Hi Hc Hc0) as Hrel. unfold mbind, stm_mbind.
  assert (verdict c0 i = match check_input p ctx acc fl i c0 with Ok _ => Ok tt | Err x => Err x | Panic => Panic end) as Hv by done.
  destruct (check_input p ctx acc fl i c) as [[[] c']| |], (check_input p ctx acc fl i c0) as [[[] c0']| |]; try done.
  - destruct Hrel as [Hc' _]. specialize (IH c' Hc'). destruct (check_inputs p ctx acc fl order c') as [[[] c'']| |]; [| |done].
    + destruct IH as [??]. split; [done|]. by constructor.
    + destruct IH as (j & Hj & ?). exists j. split; [by right|done].
  - subst. exists i. split; [by left|done].
Qed.
End schedules.

(** The order that a check of the scripts runs in. *)
Lemma check_scripts_order `{SigningHashes} `{SigCrypto} `{ScriptHashes} `{ZkLibs} p ctx acc fl schedule sc :
  schedule ≡ₚ seq 0 (length (inputs (ptx p))) →
  ∃ order, order ≡ₚ seq 0 (length (inputs (ptx p))) ∧ Forall (λ i, (i < length (inputs (ptx p)))%nat) order ∧
    check_scripts_with schedule p ctx acc fl sc = '(_, (_, sc)) ← check_inputs p ctx acc fl order (reused_new, sc); Ok (tt, sc).
Proof.
  intros Hperm. exists (if (CHECK_SCRIPTS_PARALLELISM_THRESHOLD <? length (inputs (ptx p)))%nat then schedule
    else seq 0 (length (inputs (ptx p)))).
  assert (Forall (λ i, (i < length (inputs (ptx p)))%nat) (seq 0 (length (inputs (ptx p))))) as Hall.
  { apply Forall_forall. intros i Hi%elem_of_seq. lia. }
  unfold check_scripts_with, check_scripts_par_iter, check_scripts_sequential.
  destruct (_ <? _)%nat; (split; [done|]); (split; [by rewrite ?Hperm|done]).
Qed.

(** C9. The parallel script check is the sequential one: whatever the order in which the
    inputs happen to be checked, and whatever truthful entries the signature cache and
    the memo of signature hashes hold, both accept or both reject; an error is that of
    an input that is rejected on its own, no check panics, and the caches stay truthful. *)
Theorem check_scripts_schedule `{SigningHashes} `{SigCrypto} `{ScriptHashesLaws} `{ZkLibsLaws} p ctx acc fl c1 c2 schedule :
  populated_wf p → (∀ a b h, acc = Some a → seq_commitment_within_depth a b = Some h → is_array 32 h) →
  0 ≤ sigop_script_units fl → truthful p c1 → truthful p c2 → schedule ≡ₚ seq 0 (length (inputs (ptx p))) →
  match check_scripts_par_iter schedule p ctx acc fl c1, check_scripts_sequential p ctx acc fl c2 with
  | Ok (_, c1'), Ok (_, c2') => truthful p c1' ∧ truthful p c2'
  | Err x, Err y => (∃ i, i ∈ schedule ∧ verdict p ctx acc fl c2 i = Err x) ∧ (∃ i, i ∈ schedule ∧ verdict p ctx acc fl c2 i = Err y)
  | _, _ => False
  end.
Proof.
  intros Hp Hacc Hfl H1' H2' Hperm. unfold check_scripts_par_iter, check_scripts_sequential.
  assert (Forall (λ i, (i < length (inputs (ptx p)))%nat) (seq 0 (length (inputs (ptx p))))) as Hall.
  { apply Forall_forall. intros i Hi%elem_of_seq. lia. }
  pose proof (check_inputs_spec p ctx acc fl Hp Hacc Hfl c2 schedule c1 H2' ltac:(by rewrite Hperm) H1') as Hs1.
  pose proof (check_inputs_spec p ctx acc fl Hp Hacc Hfl c2 _ c2 H2' Hall H2') as Hs2.
  assert (∀ x, (∃ i, i ∈ seq 0 (length (inputs (ptx p))) ∧ verdict p ctx acc fl c2 i = Err x) →
    ¬ Forall (λ i, verdict p ctx acc fl c2 i = Ok tt) schedule) as Hno.
  { intros x (i & Hi & Hx) Hf. rewrite Forall_forall in Hf. specialize (Hf i). rewrite Hperm, Hx in Hf. by specialize (Hf Hi). }
  destruct (check_inputs p ctx acc fl schedule c1) as [[[] c1']|x|],
    (check_inputs p ctx acc fl (seq 0 (length (inputs (ptx p)))) c2) as [[[] c2']|y|]; try done.
  - naive_solver.
  - by destruct (Hno y Hs2), Hs1.
  - destruct Hs1 as (i & Hi & Hx), Hs2 as [_ Hs2]. rewrite Hperm in Hi. rewrite Forall_forall in Hs2. by rewrite (Hs2 i Hi) in Hx.
  - split; [done|]. destruct Hs2 as (i & Hi & Hy). exists i. by rewrite Hperm.
Qed.

(** ** What each rule accepts *)

Lemma coinbase_maturity_spec v pov i l :
  Forall (λ x, block_daa_score x.2 + coinbase_maturity v < 2 ^ 64) l →
  match coinbase_maturity_from v pov i l with
  | Ok _ => Forall (λ x, is_coinbase_entry x.2 = true → block_daa_score x.2 + coinbase_maturity v ≤ pov) l
  | Err _ => Exists (λ x, is_coinbase_entry x.2 = true ∧ pov < block_daa_score x.2 + coinbase_maturity v) l
  | Panic => False
  end.
Proof.
  intros Hf. revert i. induction Hf as [|[inp e] l Hx Hf IH]; intros i; cbn [coinbase_maturity_from]; [constructor|].
  cbn [snd] in Hx. destruct (is_coinbase_entry e) eqn:Hcb.
  - rewrite (proj2 (add_p_Ok 64 _ _ _) (conj eq_refl Hx)). cbn [mbind res_mbind].
    destruct (Z.ltb_spec pov (block_daa_score e + coinbase_maturity v)); [by constructor|].
    specialize (IH (S i)). destruct (coinbase_maturity_from v pov (S i) l) as [[]| |]; [constructor; [done|done]|by constructor 2|done].
  - cbn [mbind res_mbind]. specialize (IH (S i)).
    destruct (coinbase_maturity_from v pov (S i) l) as [[]| |]; [constructor; [|done]|by constructor 2|done].
    cbn [snd]. by rewrite Hcb.
Qed.

Lemma input_amounts_spec total l :
  0 ≤ total ≤ MAX_SOMPI → Forall (λ x, entry_wf x.2) l →
  match input_amounts total l with
  | Ok s => s = total + sumZ ((λ x, amount x.2) <$> l) ∧ s ≤ MAX_SOMPI
  | Err _ => MAX_SOMPI < total + sumZ ((λ x, amount x.2) <$> l)
  | Panic => False
  end.
Proof.
  intros Ht Hf. revert total Ht. induction Hf as [|[inp e] l [Ha _] Hf IH]; intros total Ht; cbn [input_amounts].
  { rewrite fmap_nil. change (sumZ []) with 0. lia. }
  rewrite fmap_cons, sumZ_cons. cbn [snd] in *. unfold in_u in Ha.
  assert (0 ≤ sumZ ((λ x, amount x.2) <$> l)) as Hnn.
  { apply sumZ_nonneg, Forall_fmap. eapply Forall_impl; [exact Hf|]. intros [? e'] [Hw _]. unfold in_u in Hw. simpl in *. lia. }
  unfold checked_add. destruct (Z.ltb_spec (total + amount e) (2 ^ 64)); [|lia].
  destruct (Z.ltb_spec MAX_SOMPI (total + amount e)); [lia|]. specialize (IH (total + amount e) ltac:(lia)).
  destruct (input_amounts (total + amount e) l); lia.
Qed.

(** The relative lock of an input is open. *)
Definition unlocked (pov : Z) (inp : TransactionInput) (e : UtxoEntry) : Prop :=
  Z.testbit (sequence inp) 63 = true ∨ block_daa_score e + sequence inp mod 2 ^ 32 ≤ pov.

Lemma locked_spec {E} pov inp e :
  in_u 64 (sequence inp) → 0 ≤ block_daa_score e < 2 ^ 62 → 0 ≤ pov < 2 ^ 63 →
  ∃ b, @locked E pov inp e = Ok b ∧ (b = false ↔ unlocked pov inp e).
Proof.
  intros Hs Hd Hp. unfold locked, unlocked.
  assert ((Z.land (sequence inp) SEQUENCE_LOCK_TIME_DISABLED =? SEQUENCE_LOCK_TIME_DISABLED) = Z.testbit (sequence inp) 63) as ->.
  { destruct (Z.testbit (sequence inp) 63) eqn:Hb.
    - apply Z.eqb_eq, Z.bits_inj'. intros n Hn. rewrite Z.land_spec, Z.pow2_bits_eqb by lia.
      destruct (Z.eqb_spec 63 n) as [<-|]; [by rewrite Hb|apply andb_false_r].
    - apply Z.eqb_neq. intros Heq. apply (f_equal (λ x, Z.testbit x 63)) in Heq. rewrite Z.land_spec, Hb in Heq. by vm_compute in Heq. }
  destruct (Z.testbit (sequence inp) 63); [exists false; naive_solver|].
  change SEQUENCE_LOCK_TIME_MASK with (Z.ones 32). rewrite Z.land_ones by lia.
  pose proof (Z.mod_pos_bound (sequence inp) (2 ^ 32) ltac:(lia)) as Hr. set (rl := sequence inp mod 2 ^ 32) in *.
  assert (to_signed 64 (block_daa_score e) = block_daa_score e) as ->.
  { unfold to_signed. change (2 ^ (64 - 1)) with (2 ^ 63). rewrite (proj2 (Z.ltb_lt _ _)) by lia. done. }
  assert (to_signed 64 pov = pov) as ->.
  { unfold to_signed. change (2 ^ (64 - 1)) with (2 ^ 63). rewrite (proj2 (Z.ltb_lt _ _)) by lia. done. }
  rewrite signed_p_Ok by (unfold in_i; change (64 - 1) with 63; lia). cbn [mbind res_mbind].
  rewrite signed_p_Ok by (unfold in_i; change (64 - 1) with 63; lia). cbn [mbind res_mbind].
  eexists. split; [done|]. rewrite Z.leb_gt. split; [right; lia|]. intros [?|?]; [done|lia].
Qed.

Lemma any_locked_spec pov l :
  Forall (λ x, in_u 64 (sequence x.1) ∧ 0 ≤ block_daa_score x.2 < 2 ^ 62) l → 0 ≤ pov < 2 ^ 63 →
  ∃ b, any_locked pov l = Ok b ∧ (b = false ↔ Forall (λ x, unlocked pov x.1 x.2) l).
Proof.
  intros Hf Hp. induction Hf as [|[inp e] l [Hs Hd] Hf (b & IH & Hb)]; cbn [any_locked]; [by exists false; split; [|split; [constructor|]]|].
  cbn [fst snd] in *. destruct (locked_spec (E := TxRuleError) pov inp e Hs Hd Hp) as (b' & -> & Hb'). cbn [mbind res_mbind].
  destruct b'.
  - exists true. split; [done|]. split; [done|]. intros Hall. apply Forall_cons in Hall as [Hx _]. by apply Hb' in Hx.
  - exists b. split; [done|]. rewrite Forall_cons, Hb. cbn [fst snd]. naive_solver.
Qed.

(** The validator's parameters, and the context a transaction is validated in. *)
Record validator_ok (v : TransactionValidator) : Prop := {
  vo_limits : limits_ok v;
  vo_maturity : 0 ≤ coinbase_maturity v < 2 ^ 62;
  vo_sig_op : 0 ≤ mass_per_sig_op v < 2 ^ 32;
  vo_storm : 0 ≤ storage_mass_parameter (mass_calculator v);
  vo_plurality : let b := div_ceil64 (UTXO_CONST_STORAGE + max_script_public_key_len v + HASH_SIZE) UTXO_UNIT_SIZE in
    storage_mass_parameter (mass_calculator v) * b * b < 2 ^ 64;
}.
Record context_ok (v : TransactionValidator) (p : PopulatedTransaction) (pov : Z) : Prop := {
  co_wf : populated_wf p;
  co_amounts : Forall (λ e, 0 < amount e) (entries p);
  co_scripts : Forall (λ e, zlen (spk_script (entry_spk e)) ≤ max_script_public_key_len v) (entries p);
  co_scores : Forall (λ e, block_daa_score e < 2 ^ 62) (entries p);
  co_pov : 0 ≤ pov < 2 ^ 63;
}.

Section rules.
Context `{SigningHashes} `{SigCrypto} `{ScriptHashesLaws} `{ZkLibsLaws} `{CovenantHash} `{Blake2b} `{OrchardVerifierLaws}.
Context (v : TransactionValidator) (p : PopulatedTransaction) (pov : Z).
Context (Hv : validator_ok v) (Hc : context_ok v p pov) (Hiso : isolated v (ptx p)).

Lemma populated_inputs_snd : (populated_inputs p).*2 = entries p.
Proof.
  destruct (co_wf _ _ _ Hc) as (_ & _ & Hlen). unfold populated_inputs. apply snd_zip. lia.
Qed.
Lemma populated_inputs_fst : (populated_inputs p).*1 = inputs (ptx p).
Proof.
  destruct (co_wf _ _ _ Hc) as (_ & _ & Hlen). unfold populated_inputs. apply fst_zip. lia.
Qed.
Lemma populated_entries (P : UtxoEntry → Prop) : Forall P (entries p) → Forall (λ x, P x.2) (populated_inputs p).
Proof. rewrite <- populated_inputs_snd. by rewrite Forall_fmap. Qed.
Lemma populated_amounts : (λ x, amount x.2) <$> populated_inputs p = amount <$> entries p.
Proof. rewrite <- populated_inputs_snd, <- list_fmap_compose. done. Qed.

Lemma mass_commitment_no_panic : sumZ (amount <$> entries p) < 2 ^ 64 → calc_contextual_masses (mass_calculator v) p ≠ Panic.
Proof.
  intros Hsum. destruct Hv as [Hlim _ _ HC Hpl]. set (b := div_ceil64 (UTXO_CONST_STORAGE + max_script_public_key_len v + HASH_SIZE) UTXO_UNIT_SIZE) in *.
  destruct (co_wf _ _ _ Hc) as (_ & _ & Hlen).
  assert (Z.of_nat (length (entries p)) ≤ 2 ^ 16) as Hn.
  { rewrite Hlen. pose proof (iso_inputs _ _ Hiso) as Hi. pose proof (lim_inputs _ Hlim). unfold zlen in Hi. lia. }
  assert (0 ≤ max_script_public_key_len v → b ≤ 2 ^ 20) as Hb.
  { intros Hpos. unfold b, div_ceil64. pose proof (lim_script_public_keys _ Hlim).
    set (y := UTXO_CONST_STORAGE + max_script_public_key_len v + HASH_SIZE). assert (0 ≤ y ≤ 2 ^ 25) by (unfold y; lia). clearbody y.
    pose proof (Z.div_mod y 100 ltac:(lia)). pose proof (Z.mod_pos_bound y 100 ltac:(lia)). destruct (0 <? y mod 100); lia. }
  unfold calc_contextual_masses. destruct (is_coinbase (ptx p)) eqn:Hcb; [done|].
  assert (zlen (outputs (ptx p)) ≤ 2 ^ 16) as Hno.
  { pose proof (iso_outputs _ _ Hiso Hcb). pose proof (lim_outputs _ Hlim). lia. }
  apply (calc_storage_mass_no_panic false _ b).
  - done.
  - done.
  - apply Forall_fmap, Forall_forall. intros e He. pose proof (co_scripts _ _ _ Hc) as Hs. pose proof (co_amounts _ _ _ Hc) as Ha.
    rewrite Forall_forall in Hs, Ha. split; [apply plurality_bound; by apply Hs|by apply Ha].
  - apply Forall_fmap, Forall_forall. intros o Ho. pose proof (iso_script_public_keys _ _ Hiso) as Hs. pose proof (iso_values _ _ Hiso) as Ha.
    rewrite Forall_forall in Hs, Ha. split; [apply plurality_bound; by apply Hs|by apply Ha].
  - rewrite length_fmap. destruct (entries p) as [|e l] eqn:He; [done|].
    assert (0 ≤ max_script_public_key_len v) as Hpos.
    { pose proof (co_scripts _ _ _ Hc) as Hs. rewrite He in Hs. apply Forall_cons in Hs as [Hs _]. pose proof (zlen_nonneg (spk_script (entry_spk e))). lia. }
    specialize (Hb Hpos). nia.
  - rewrite length_fmap. unfold zlen in Hno. destruct (outputs (ptx p)) as [|o l] eqn:He; [done|].
    assert (0 ≤ max_script_public_key_len v) as Hpos.
    { pose proof (iso_script_public_keys _ _ Hiso) as Hs. rewrite He in Hs. apply Forall_cons in Hs as [Hs _]. pose proof (zlen_nonneg (spk_script (out_spk o))). lia. }
    specialize (Hb Hpos). nia.
  - by rewrite <- list_fmap_compose.
Qed.

Lemma from_tx_no_panic : from_tx p ≠ Panic.
Proof. pose proof (from_tx_spec p (co_wf _ _ _ Hc)) as Hs. cbn zeta in Hs. by destruct (from_tx p). Qed.

(** The fee of a transparent transaction is what it does not pay out; that of a shielded
    one is the value balance of its bundle. *)
Definition fee_rule (fee : Z) : Prop :=
  if is_shielded (ptx p) then ∃ b, from_bytes (payload (ptx p)) = Ok b ∧ fee = value_balance b ∧ 0 ≤ fee
  else sumZ (amount <$> entries p) = sumZ (out_value <$> outputs (ptx p)) + fee ∧ 0 ≤ fee.

(** What holds of a transaction that passes the rules before the scripts. *)
Record rules_hold (block_daa : Z) (fl : TxValidationFlags) (fee : Z) (ctx : CovenantsContext) : Prop := {
  rh_mature : Forall (λ e, is_coinbase_entry e = true → block_daa_score e + coinbase_maturity v ≤ pov) (entries p);
  rh_amounts : sumZ (amount <$> entries p) ≤ MAX_SOMPI;
  rh_fee : fee_rule fee;
  rh_mass : fl ≠ SkipMassCheck → calc_contextual_masses (mass_calculator v) p = Ok (storage_mass (ptx p));
  rh_locks : Forall (λ x, unlocked pov x.1 x.2) (populated_inputs p);
  rh_covenants : if is_active (toccata_activation v) block_daa then from_tx p = Ok ctx else ctx = EMPTY_COV_CONTEXT;
}.

Lemma fee_of_spec total_in total_out :
  total_in = sumZ (amount <$> entries p) → total_out = sumZ (out_value <$> outputs (ptx p)) → total_out ≤ total_in →
  match fee_of p total_in total_out with Ok fee => fee_rule fee | Err _ => True | Panic => False end.
Proof.
  intros -> -> Hle. unfold fee_of, fee_rule, decode_payload_bundle. destruct (is_shielded (ptx p)).
  - pose proof (from_bytes_no_panic (payload (ptx p))). destruct (from_bytes (payload (ptx p))) as [b| |]; [|done..]. cbn [map_err mbind res_mbind].
    destruct (Z.ltb_spec (value_balance b) 0); [done|]. by exists b.
  - rewrite (proj2 (sub_p_Ok _ _ _) (conj eq_refl Hle)). lia.
Qed.

Lemma maturity_holds :
  match check_transaction_coinbase_maturity v p pov with
  | Ok _ => Forall (λ e, is_coinbase_entry e = true → block_daa_score e + coinbase_maturity v ≤ pov) (entries p)
  | Err _ => True
  | Panic => False
  end.
Proof.
  pose proof (coinbase_maturity_spec v pov 0 (populated_inputs p)) as Hmat. unfold check_transaction_coinbase_maturity.
  assert (Forall (λ e, block_daa_score e + coinbase_maturity v < 2 ^ 64) (entries p)) as Hs.
  { eapply Forall_impl; [exact (co_scores _ _ _ Hc)|]. intros e. pose proof (vo_maturity _ Hv). simpl. lia. }
  specialize (Hmat (populated_entries _ Hs)). destruct (coinbase_maturity_from _ _ _ _) as [[]| |]; [|done..].
  rewrite <- populated_inputs_snd. by rewrite Forall_fmap.
Qed.

Lemma sequence_lock_holds :
  match check_sequence_lock p pov with
  | Ok _ => Forall (λ x, unlocked pov x.1 x.2) (populated_inputs p)
  | Err _ => True
  | Panic => False
  end.
Proof.
  destruct (co_wf _ _ _ Hc) as ((_ & Hins & _) & Hents & _). unfold check_sequence_lock.
  destruct (any_locked_spec pov (populated_inputs p)) as (b & -> & Hb).
  - apply Forall_and. split.
    + rewrite <- populated_inputs_fst, Forall_fmap in Hins. eapply Forall_impl; [exact Hins|]. by intros x (_ & _ & _ & Hseq & _).
    + apply (populated_entries (λ e, 0 ≤ block_daa_score e < 2 ^ 62)). pose proof (co_scores _ _ _ Hc) as Hsc.
      apply Forall_forall. intros e He. rewrite Forall_forall in Hsc, Hents. specialize (Hsc e He). destruct (Hents e He) as (_ & _ & Hd & _).
      unfold in_u in Hd. simpl in *. lia.
  - apply (co_pov _ _ _ Hc).
  - cbn [mbind res_mbind]. destruct b; [done|]. by apply Hb.
Qed.

Lemma before_scripts_spec block_daa fl thr :
  (∀ m t, thr = Some (m, t) → 0 < m) →
  match check_before_scripts v p pov block_daa fl thr with
  | Ok (fee, ctx) => rules_hold block_daa fl fee ctx
  | Err _ => True
  | Panic => False
  end.
Proof.
  intros Hthr. destruct (co_wf _ _ _ Hc) as (_ & Hents & _). unfold check_before_scripts.
  pose proof maturity_holds as Hmat. destruct (check_transaction_coinbase_maturity v p pov) as [[]| |]; cbn [mbind res_mbind]; [|done..].
  pose proof (input_amounts_spec 0 (populated_inputs p) ltac:(lia) (populated_entries entry_wf Hents)) as Ham.
  unfold check_transaction_input_amounts. rewrite populated_amounts, Z.add_0_l in Ham.
  destruct (input_amounts 0 (populated_inputs p)) as [total_in| |]; cbn [mbind res_mbind]; [|done..]. destruct Ham as [-> Ham].
  unfold check_transaction_output_values. rewrite sum_p_Ok by (pose proof (iso_total _ _ Hiso); lia). cbn [mbind res_mbind].
  destruct (Z.ltb_spec (sumZ (amount <$> entries p)) (sumZ (out_value <$> outputs (ptx p)))) as [|Hle]; [done|]. cbn [mbind res_mbind].
  pose proof (fee_of_spec _ _ eq_refl eq_refl Hle) as Hfee. destruct (fee_of p _ _) as [fee| |]; cbn [mbind res_mbind]; [|done..].
  assert (match match fl with SkipMassCheck => Ok tt | _ => check_mass_commitment v p end with
          | Ok _ => fl ≠ SkipMassCheck → calc_contextual_masses (mass_calculator v) p = Ok (storage_mass (ptx p))
          | Err _ => True | Panic => False end) as Hmass.
  { pose proof (mass_commitment_no_panic ltac:(lia)). unfold check_mass_commitment.
    destruct fl; destruct (calc_contextual_masses (mass_calculator v) p) as [mass| |]; try done; cbn [map_err mbind res_mbind];
      destruct (Z.eqb_spec (storage_mass (ptx p)) mass) as [->|]; done. }
  destruct (match fl with SkipMassCheck => Ok tt | _ => check_mass_commitment v p end) as [[]| |]; cbn [mbind res_mbind]; [|done..].
  pose proof sequence_lock_holds as Hseq. destruct (check_sequence_lock p pov) as [[]| |]; cbn [mbind res_mbind]; [|done..].
  assert (check_feerate_threshold fee thr ≠ Panic) as Hrate.
  { unfold check_feerate_threshold. destruct thr as [[m t]|]; [|done]. specialize (Hthr m t eq_refl).
    unfold assert_p. destruct (Z.ltb_spec 0 m); [|lia]. cbn [mbind res_mbind]. by destruct (SFleb _ _). }
  destruct (check_feerate_threshold fee thr) as [[]| |]; cbn [mbind res_mbind]; [|done..].
  unfold check_covenant_info. pose proof from_tx_no_panic as Hcov.
  destruct (is_active (toccata_activation v) block_daa) eqn:Hact; cbn [negb mbind res_mbind].
  - destruct (from_tx p) as [ctx| |] eqn:Hctx; [|done..]. cbn [map_err mbind res_mbind]. constructor; try done. by rewrite Hact.
  - constructor; try done. by rewrite Hact.
Qed.

(** The verifications of the validation that need signatures and proofs. *)
Definition scripts_hold (block_daa : Z) (ctx : CovenantsContext) (acc : option SeqCommitAccessor) (sc : Cache SigCacheKey bool) : Prop :=
  let fl := mkFlags (is_active (toccata_activation v) block_daa) (mass_per_sig_op v * SCRIPT_UNITS_PER_GRAM) in
  (∀ i, (i < length (inputs (ptx p)))%nat → verdict p ctx acc fl (reused_new, sc) i = Ok tt) ∧
  (is_shielded (ptx p) = true → ∃ b, from_bytes (payload (ptx p)) = Ok b ∧
     bundle_sound b (sighash b (shielded_network_domain v) (shielded_sighash_context (ptx p))) verifying_key).

Lemma check_scripts_with_spec ctx acc fl schedule sc :
  (∀ a b h, acc = Some a → seq_commitment_within_depth a b = Some h → is_array 32 h) → 0 ≤ sigop_script_units fl →
  schedule ≡ₚ seq 0 (length (inputs (ptx p))) → cache_all (λ k b, b = verify_key k) sc →
  match check_scripts_with schedule p ctx acc fl sc with
  | Ok (_, sc') => cache_all (λ k b, b = verify_key k) sc' ∧
      ∀ i, (i < length (inputs (ptx p)))%nat → verdict p ctx acc fl (reused_new, sc) i = Ok tt
  | Err _ => True
  | Panic => False
  end.
Proof.
  intros Hacc Hfl Hperm Hsc. destruct (check_scripts_order p ctx acc fl schedule sc Hperm) as (order & Ho & Hall & ->).
  assert (truthful p (reused_new, sc)) as Ht by (split; [done|apply reused_new_ok]).
  pose proof (check_inputs_spec p ctx acc fl (co_wf _ _ _ Hc) Hacc Hfl (reused_new, sc) order (reused_new, sc) Ht) as Hs.
  specialize (Hs Hall Ht). destruct (check_inputs _ _ _ _ _ _) as [[[] [r sc']]| |]; cbn [mbind res_mbind]; [|done..].
  destruct Hs as [[Hsc' _] Hf]. split; [done|]. intros i Hi. rewrite Forall_forall in Hf. apply Hf. rewrite Ho. apply elem_of_seq. lia.
Qed.

Lemma verify_shielded_spec :
  match verify_shielded_bundle (ptx p) (shielded_network_domain v) with
  | Ok _ => ∃ b, from_bytes (payload (ptx p)) = Ok b ∧
      bundle_sound b (sighash b (shielded_network_domain v) (shielded_sighash_context (ptx p))) verifying_key
  | Err _ => True
  | Panic => False
  end.
Proof.
  unfold verify_shielded_bundle, decode_payload_bundle. pose proof (from_bytes_no_panic (payload (ptx p))).
  destruct (from_bytes (payload (ptx p))) as [b| |]; [|done..]. cbn [map_err mbind res_mbind]. unfold verify_bundle.
  set (h := sighash _ _ _). pose proof (verify_bundle_no_panic b h verifying_key).
  destruct (verify_bundle_with_vk b h verifying_key) as [[]| |] eqn:Hb; [|done..]. exists b. split; [done|]. by apply verify_bundle_sound_iff.
Qed.

Lemma scripts_and_bundle_spec ctx acc fl block_daa schedule sc :
  (∀ a b h, acc = Some a → seq_commitment_within_depth a b = Some h → is_array 32 h) →
  schedule ≡ₚ seq 0 (length (inputs (ptx p))) → cache_all (λ k b, b = verify_key k) sc →
  match check_scripts_and_bundle v schedule p ctx block_daa fl acc sc with
  | Ok (_, sc') => cache_all (λ k b, b = verify_key k) sc' ∧ (fl ≠ SkipScriptChecks → scripts_hold block_daa ctx acc sc)
  | Err _ => True
  | Panic => False
  end.
Proof.
  intros Hacc Hperm Hsc. unfold scripts_hold. set (efl := mkFlags _ _). pose proof (vo_sig_op _ Hv) as Hops.
  assert (check_scripts v schedule p ctx block_daa acc sc = check_scripts_with schedule p ctx acc efl sc) as Hcs.
  { unfold check_scripts, gram_to_units, mbind, stm_mbind, lift_res.
    rewrite (proj2 (mul_p_Ok 64 (mass_per_sig_op v) 100 (mass_per_sig_op v * 100)) ltac:(lia)). done. }
  pose proof (check_scripts_with_spec ctx acc efl schedule sc Hacc ltac:(simpl; lia) Hperm Hsc) as Hspec. rewrite <- Hcs in Hspec.
  pose proof verify_shielded_spec as Hsh. clear Hcs.
  assert (match (check_scripts v schedule p ctx block_daa acc ≫= λ _, if is_shielded (ptx p)
          then lift_res (verify_shielded_bundle (ptx p) (shielded_network_domain v)) else ok tt) sc with
    | Ok (_, sc') => cache_all (λ k b, b = verify_key k) sc' ∧
      (∀ i, (i < length (inputs (ptx p)))%nat → verdict p ctx acc efl (reused_new, sc) i = Ok tt) ∧
      (is_shielded (ptx p) = true → ∃ b, from_bytes (payload (ptx p)) = Ok b ∧
         bundle_sound b (sighash b (shielded_network_domain v) (shielded_sighash_context (ptx p))) verifying_key)
    | Err _ => True | Panic => False end) as Hall.
  { unfold mbind, stm_mbind, lift_res. destruct (check_scripts v schedule p ctx block_daa acc sc) as [[[] sc']| |]; [|done..].
    destruct Hspec as [Hsc' Hin]. destruct (is_shielded (ptx p)); [|done].
    destruct (verify_shielded_bundle _ _) as [[]| |]; [|done..]. done. }
  unfold check_scripts_and_bundle. destruct fl; [|done|];
    (destruct ((check_scripts v schedule p ctx block_daa acc ≫= _) sc) as [[? sc']| |]; [|done..]; by destruct Hall).
Qed.
End rules.

(** C1. Contextual validation of a transaction that has passed the rules in isolation, over
    the entries it spends, never panics.  When it succeeds, in whatever order the script
    jobs ran, every coinbase it spends is mature and every relative lock is open; what it
    spends is at most the supply; the fee is what it does not pay out, or the value
    balance of its bundle, and is not negative; the storage mass it commits to is the
    computed one; its covenants are well bound; the engine accepts every input; its
    bundle is sound for the sighash over the transaction's context; and the signature
    cache still says only what the verifier would. *)
Theorem validate_populated_sound `{SigningHashes} `{SigCrypto} `{ScriptHashesLaws} `{ZkLibsLaws} `{CovenantHash} `{Blake2b}
    `{OrchardVerifierLaws} v p pov block_daa fl thr schedule acc sc :
  validator_ok v → context_ok v p pov → validate_tx_in_isolation v (ptx p) = Ok tt → (∀ m t, thr = Some (m, t) → 0 < m) →
  (∀ a b h, acc = Some a → seq_commitment_within_depth a b = Some h → is_array 32 h) →
  schedule ≡ₚ seq 0 (length (inputs (ptx p))) → cache_all (λ k b, b = verify_key k) sc →
  match validate_populated_transaction_and_get_fee v schedule p pov block_daa fl thr acc sc with
  | Ok (fee, sc') => cache_all (λ k b, b = verify_key k) sc' ∧
      ∃ ctx, rules_hold v p pov block_daa fl fee ctx ∧ (fl ≠ SkipScriptChecks → scripts_hold v p block_daa ctx acc sc)
  | Err _ => True
  | Panic => False
  end.
Proof.
  intros Hv Hc Hiso%isolation_iff Hthr Hacc Hperm Hsc; [|apply (co_wf _ _ _ Hc)]. unfold validate_populated_transaction_and_get_fee.
  pose proof (before_scripts_spec v p pov Hv Hc Hiso block_daa fl thr Hthr) as Hb. unfold mbind, stm_mbind, lift_res at 1.
  destruct (check_before_scripts v p pov block_daa fl thr) as [[fee ctx]| |]; [|done..]. cbn [mbind res_mbind].
  pose proof (scripts_and_bundle_spec v p pov Hv Hc ctx acc fl block_daa schedule sc Hacc Hperm Hsc) as Hs.
  destruct (check_scripts_and_bundle v schedule p ctx block_daa fl acc sc) as [[? sc']| |]; [|done..].
  destruct Hs as [Hsc' Hs]. split; [done|]. by exists ctx.
Qed.

(** ** A transaction of two inputs, and its validation *)
Module SampleContext.
#[export] Existing Instances SampleTx.hashes SampleEngine.crypto SampleEngine.hashes SampleEngine.hashes_laws
  SampleEngine.zk SampleEngine.zk_laws SampleVerifier.verifier SampleVerifier.laws pair_scheme pair_scheme_laws.
#[export] Instance blake : Blake2b := λ _ d, d.
#[export] Instance covenant_hash : CovenantHash := {| covenant_id_hash m := resize 32 0 m |}.
Definition cache : Cache SigCacheKey bool := cache_new 10 (λ _, 0%nat).
Definition flags : EngineFlags := mkFlags true 100000.
Definition validated : res TxRuleError (Z * Cache SigCacheKey bool) :=
  validate_populated_transaction_and_get_fee SampleValidator.validator [1; 0]%nat SampleTx.populated 100 100 Full None None cache.

Lemma validator_fits : validator_ok SampleValidator.validator.
Proof. constructor; [by constructor; vm_compute|by vm_compute..]. Qed.
Lemma context_fits : context_ok SampleValidator.validator SampleTx.populated 100.
Proof. constructor; [apply SampleTx.populated_ok|by repeat constructor|by repeat constructor|by repeat constructor|done]. Qed.
Lemma accepted : match validated with Ok (fee, _) => fee = 5 | _ => False end.
Proof. vm_compute. reflexivity. Qed.
End SampleContext.
Import SampleContext.

Lemma check_scripts_schedule_witness :
  match check_scripts_par_iter [1; 0]%nat SampleTx.populated EMPTY_COV_CONTEXT None SampleContext.flags (reused_new, cache),
        check_scripts_sequential SampleTx.populated EMPTY_COV_CONTEXT None SampleContext.flags (reused_new, cache) with
  | Ok (_, c1'), Ok (_, c2') => truthful SampleTx.populated c1' ∧ truthful SampleTx.populated c2'
  | Err x, Err y =>
      (∃ i, i ∈ [1; 0]%nat ∧ verdict SampleTx.populated EMPTY_COV_CONTEXT None SampleContext.flags (reused_new, cache) i = Err x) ∧
      (∃ i, i ∈ [1; 0]%nat ∧ verdict SampleTx.populated EMPTY_COV_CONTEXT None SampleContext.flags (reused_new, cache) i = Err y)
  | _, _ => False
  end.
Proof.
  apply (check_scripts_schedule SampleTx.populated EMPTY_COV_CONTEXT None SampleContext.flags (reused_new, cache) (reused_new, cache)).
  - apply SampleTx.populated_ok.
  - done.
  - done.
  - split; [constructor|apply reused_new_ok].
  - split; [constructor|apply reused_new_ok].
  - apply Permutation_swap.
Defined.

Lemma validate_populated_sound_witness :
  ∃ fee sc', validated = Ok (fee, sc') ∧ fee = 5 ∧
    ∃ ctx, rules_hold SampleValidator.validator SampleTx.populated 100 100 Full fee ctx ∧
      scripts_hold SampleValidator.validator SampleTx.populated 100 ctx None cache.
Proof.
  pose proof (validate_populated_sound SampleValidator.validator SampleTx.populated 100 100 Full None [1; 0]%nat None cache
    validator_fits context_fits ltac:(vm_compute; reflexivity) ltac:(done) ltac:(done) ltac:(apply Permutation_swap)
    ltac:(constructor)) as Hs.
  pose proof accepted as Ha. fold validated in Hs. destruct validated as [[fee sc']| |]; [|done..].
  destruct Hs as (_ & ctx & Hr & Hv). exists fee, sc'. split; [done|]. split; [done|]. exists ctx. split; [done|by apply Hv].
Defined.
