(* ===== verification/Sign.v ===== *)
(** * Signing (consensus/core/src/sign.rs, MutableTransaction of tx.rs)

    The signers write a signature script into the inputs of a transaction.  The keys
    and the signing algorithm are secp256k1's; the auxiliary randomness of each
    signature is an argument.  What a signer produces is accepted by the script
    engine within the commitment that the signer makes. *)

From S2P Require Import Prelude Bytes Address Transaction Sighash Mass ScriptNum TxIsolation Covenants StateMonad ScriptStack.
From S2P Require Import ScriptMeter ScriptParse ScriptState ZkPrecompiles ScriptOps ScriptExec ScriptSafety ScriptVerdict.
From S2P Require Import ScriptStandard ScriptSpend ScriptComplete TxContext.

(** The signing half of secp256k1. *)
Class Signer := {
  Keypair : Type;
  keypair_from_seckey_slice : bytes → option Keypair;
  (** [public_key().serialize()] and [x_only_public_key().0.serialize()]. *)
  public_key_serialize : Keypair → bytes;
  x_only_serialize : Keypair → bytes;
  (** The key, the auxiliary randomness and the message. *)
  sign_schnorr : Keypair → bytes → Hash → bytes;
}.

(** ** Transactions that are being signed *)

Record SignableTransaction := mkSignable {
  stx : Transaction;
  sentries : list (option UtxoEntry);
  calculated_fee : option Z;
  calculated_non_contextual_masses : option NonContextualMasses;
}.

Definition set_inputs (l : list TransactionInput) (t : Transaction) : Transaction :=
  mkTx (version t) l (outputs t) (lock_time t) (subnetwork_id t) (gas t) (payload t) (storage_mass t).
Definition set_stx (t : Transaction) (s : SignableTransaction) : SignableTransaction :=
  mkSignable t (sentries s) (calculated_fee s) (calculated_non_contextual_masses s).
Definition set_signature_script (script : bytes) (i : TransactionInput) : TransactionInput :=
  mkInput (previous_outpoint i) script (sequence i) (compute_commit i).
Definition set_compute_commit (c : ComputeCommit) (i : TransactionInput) : TransactionInput :=
  mkInput (previous_outpoint i) (signature_script i) (sequence i) c.

Definition mutable_new (t : Transaction) : SignableTransaction :=
  mkSignable t (replicate (length (inputs t)) None) None None.
Definition with_entries {E} (t : Transaction) (l : list UtxoEntry) : res E SignableTransaction :=
  _ ← assert_p (length (inputs t) =? length l)%nat;
  Ok (mkSignable t (Some <$> l) None None).

Definition is_verifiable {E} (s : SignableTransaction) : res E bool :=
  _ ← assert_p (length (sentries s) =? length (inputs (stx s)))%nat;
  Ok (forallb is_some (sentries s)).
Definition is_fully_populated {E} (s : SignableTransaction) : res E bool :=
  b ← is_verifiable s;
  Ok (b && is_some (calculated_fee s) && is_some (calculated_non_contextual_masses s)).
(** The view of a transaction all of whose entries are there. *)
Definition as_verifiable {E} (s : SignableTransaction) : res E PopulatedTransaction :=
  b ← is_verifiable s;
  _ ← assert_p (b : bool);
  Ok (mkPopulated (stx s) (omap id (sentries s))).
Definition missing_outpoints {E} (s : SignableTransaction) : res E (list TransactionOutpoint) :=
  _ ← assert_p (length (sentries s) =? length (inputs (stx s)))%nat;
  Ok (omap (λ x, if is_some x.2 then None else Some (previous_outpoint x.1)) (zip (inputs (stx s)) (sentries s))).
Definition clear_entries (s : SignableTransaction) : SignableTransaction :=
  mkSignable (stx s) ((λ _, None) <$> sentries s) (calculated_fee s) (calculated_non_contextual_masses s).
Definition has_parent (s : SignableTransaction) (possible_parent : Hash) : bool :=
  existsb (λ i, bool_decide (transaction_id (previous_outpoint i) = possible_parent)) (inputs (stx s)).

(** ** The signers *)

Section sign.
Context `{SigningHashes} `{SigCrypto} `{Signer}.

Inductive SignError :=
| SignatureIsEmpty (i : nat)
| Secp256k1Error
| PartiallySigned
| FullySigned.

(** What the loops of the signers work on: the memo and the transaction. *)
Abbreviation signing := (SigHashReusedValues * SignableTransaction)%type.

Definition signature_script_of (sig : bytes) (hash_type : Z) : bytes := [65] ++ sig ++ [hash_type].

(** The signature of an input. *)
Definition sign_at {E} (key : Keypair) (aux : bytes) (i : nat) : signing → res E signing := λ '(r, s),
  p ← as_verifiable s;
  '(sig_hash, r) ← calc_schnorr_signature_hash p i SIG_HASH_ALL r;
  _ ← assert_p (length sig_hash =? 32)%nat;
  let sig := sign_schnorr key aux sig_hash in
  input ← idx (inputs (stx s)) i;
  let input := set_signature_script (signature_script_of sig SIG_HASH_ALL) input in
  Ok (r, set_stx (set_inputs (<[i := input]> (inputs (stx s))) (stx s)) s).

Definition input_mass (version : Z) : ComputeCommit :=
  if version_expects_compute_budget_field version then ComputeBudget 10 else SigopCount 1.
Definition set_input_masses (s : SignableTransaction) : SignableTransaction :=
  set_stx (set_inputs (set_compute_commit (input_mass (version (stx s))) <$> inputs (stx s)) (stx s)) s.

Definition sign {E} (s : SignableTransaction) (schnorr_key : Keypair) (rng : nat → bytes) : res E SignableTransaction :=
  let s := set_input_masses s in
  '(_, s) ← for_loop (length (inputs (stx s))) 0 (λ i, sign_at schnorr_key (rng i) i) (reused_new, s);
  Ok s.

(** The map of the private keys: a later key replaces an equal one. *)
Fixpoint key_map {E : Type} (script_of : Keypair → bytes) (privkeys : list bytes) (m : gmap bytes Keypair) : res E (gmap bytes Keypair) :=
  match privkeys with
  | [] => Ok m
  | privkey :: privkeys =>
      key ← unwrap (keypair_from_seckey_slice privkey);
      key_map script_of privkeys (<[script_of key := key]> m)
  end.

(** The input is signed when its script is one of the map; otherwise the flag is updated. *)
Definition sign_matching {E : Type} (keys : gmap bytes Keypair) (rng : nat → bytes) (missing : bool → bool) (i : nat) :
    signing * bool → res E (signing * bool) := λ '(r, s, b),
  entry ← idx (sentries s) i;
  entry ← unwrap entry;
  match keys !! spk_script (entry_spk entry) with
  | Some key => st ← sign_at key (rng i) i (r, s); Ok (st, b)
  | None => Ok (r, s, missing b)
  end.

(** Keyed by the serialized public key. *)
Definition sign_with_multiple {E : Type} (s : SignableTransaction) (privkeys : list bytes) (rng : nat → bytes) : res E SignableTransaction :=
  keys ← key_map public_key_serialize privkeys ∅;
  let s := set_input_masses s in
  '(_, s, _) ← for_loop (length (inputs (stx s))) 0 (sign_matching keys rng id) (reused_new, s, false);
  Ok s.

Inductive Signed := Fully (s : SignableTransaction) | Partially (s : SignableTransaction).
Definition fully_signed (x : Signed) : res SignError SignableTransaction :=
  match x with Fully s => Ok s | Partially _ => Err PartiallySigned end.
Definition try_fully_signed (x : Signed) : res SignableTransaction SignableTransaction :=
  match x with Fully s => Ok s | Partially s => Err s end.
Definition partially_signed (x : Signed) : res SignError SignableTransaction :=
  match x with Fully _ => Err FullySigned | Partially s => Ok s end.
Definition try_partially_signed (x : Signed) : res SignableTransaction SignableTransaction :=
  match x with Fully s => Err s | Partially s => Ok s end.
Definition signed_unwrap (x : Signed) : SignableTransaction := match x with Fully s | Partially s => s end.

(** Keyed by the pay-to-public-key script of the key. *)
Definition p2pk_script (key : Keypair) : bytes := [32] ++ x_only_serialize key ++ [172].
Definition sign_with_multiple_v2 {E : Type} (s : SignableTransaction) (privkeys : list bytes) (rng : nat → bytes) : res E Signed :=
  keys ← key_map p2pk_script privkeys ∅;
  '(_, s, additional_signatures_required) ←
    for_loop (length (inputs (stx s))) 0 (sign_matching keys rng (λ _, true)) (reused_new, s, false);
  Ok (if (additional_signatures_required : bool) then Partially s else Fully s).

Definition sign_input {E} (p : PopulatedTransaction) (input_index : nat) (private_key : bytes) (hash_type : Z) (aux : bytes) : res E bytes :=
  '(hash, _) ← calc_schnorr_signature_hash p input_index hash_type reused_new;
  _ ← assert_p (length hash =? 32)%nat;
  key ← unwrap (keypair_from_seckey_slice private_key);
  Ok (signature_script_of (sign_schnorr key aux hash) hash_type).

(** [&l[a..b]]. *)
Definition slice_p {E} (l : bytes) (a b : nat) : res E bytes :=
  if (b <=? length l)%nat then Ok (take (b - a) (drop a l)) else Panic.

Fixpoint verify_from (p : PopulatedTransaction) (i : nat) (l : list (TransactionInput * UtxoEntry)) (r : SigHashReusedValues) :
    res SignError () :=
  match l with
  | [] => Ok tt
  | (input, entry) :: l =>
      if is_empty (signature_script input) then Err (SignatureIsEmpty i)
      else
        pk ← slice_p (spk_script (entry_spk entry)) 1 33;
        pk ← ok_or Secp256k1Error (xonly_from_slice pk);
        sig ← slice_p (signature_script input) 1 65;
        sig ← ok_or Secp256k1Error (schnorr_from_slice sig);
        '(sig_hash, r) ← calc_schnorr_signature_hash p i SIG_HASH_ALL r;
        _ ← (if (length sig_hash =? 32)%nat then Ok tt else Err Secp256k1Error);
        if negb (schnorr_verify sig sig_hash pk) then Err Secp256k1Error else verify_from p (S i) l r
  end.
Definition verify (p : PopulatedTransaction) : res SignError () := verify_from p 0 (populated_inputs p) reused_new.
End sign.

(** What is relied on: the widths of keys and signatures, and that a signature verifies
    under the key that made it. *)
Class SignerLaws `{SigCrypto} `{Signer} : Prop := {
  public_key_length k : length (public_key_serialize k) = 33%nat;
  x_only_array k : is_array 32 (x_only_serialize k);
  sign_array k aux m : is_array 64 (sign_schnorr k aux m);
  sign_verifies k aux m : length m = 32%nat → schnorr_valid (x_only_serialize k) (sign_schnorr k aux m) m = Some true;
}.

(** ** What signing does not change *)

(** The transaction without its signature scripts. *)
Definition unsigned (t : Transaction) : Transaction := set_inputs (set_signature_script [] <$> inputs t) t.

Section unsigned.
Context `{SigningHashes}.

Lemma reused_ok_unsigned t r : reused_ok (unsigned t) r ↔ reused_ok t r.
Proof.
  unfold reused_ok, full_previous_outputs, full_sequences, full_sig_op_counts, full_outputs, full_payload, unsigned, set_inputs; simpl.
  by rewrite <- !list_fmap_compose.
Qed.

Lemma preimage_unsigned t inp e i ty :
  signature_preimage (unsigned t) (set_signature_script [] inp) e i ty = signature_preimage t inp e i ty.
Proof.
  unfold signature_preimage, sub_previous_outputs, sub_sequences, sub_sig_op_counts, sub_outputs, sub_payload,
    full_previous_outputs, full_sequences, full_sig_op_counts, full_outputs, full_payload, unsigned, set_inputs; simpl.
  by rewrite <- !list_fmap_compose.
Qed.

Lemma message_unsigned p p' i ty :
  unsigned (ptx p) = unsigned (ptx p') → entries p = entries p' → tx_message p i ty = tx_message p' i ty.
Proof.
  intros Ht He. unfold tx_message. rewrite He.
  assert ((set_signature_script [] <$> inputs (ptx p)) !! i = (set_signature_script [] <$> inputs (ptx p')) !! i) as Hi.
  { by injection Ht as _ ->. }
  rewrite !list_lookup_fmap in Hi.
  destruct (inputs (ptx p) !! i) as [inp|], (inputs (ptx p') !! i) as [inp'|]; [|done..]. injection Hi as Hs.
  destruct (entries p' !! i) as [e|]; [|done]. f_equal. rewrite <- (preimage_unsigned (ptx p)), <- (preimage_unsigned (ptx p')).
  rewrite Ht. f_equal. unfold set_signature_script. by f_equal.
Qed.

Lemma reused_ok_resigned t t' r : unsigned t = unsigned t' → reused_ok t r → reused_ok t' r.
Proof. intros Ht. by rewrite <- (reused_ok_unsigned t), Ht, reused_ok_unsigned. Qed.
End unsigned.

(** ** The loops *)

Section loops.
Context `{SigningHashesLaws} `{SignerLaws}.
Context {E : Type}.

(** A signable transaction that is a given populated one. *)
Definition view (s : SignableTransaction) (p : PopulatedTransaction) : Prop :=
  stx s = ptx p ∧ sentries s = Some <$> entries p.

Lemma omap_id_Some {A} (l : list A) : omap id (Some <$> l) = l.
Proof. induction l as [|x l IH]; csimpl; [done|]. by f_equal. Qed.

Lemma as_verifiable_view s p : view s p → populated_wf p → as_verifiable (E := E) s = Ok p.
Proof.
  intros [Ht He] (_ & _ & Hlen). unfold as_verifiable, is_verifiable, assert_p. rewrite Ht, He, length_fmap, Hlen, Nat.eqb_refl.
  cbn [mbind res_mbind].
  assert (forallb is_some (Some <$> entries p) = true) as ->.
  { apply forallb_forall. intros x Hx%list_elem_of_In. by apply list_elem_of_fmap in Hx as (y & -> & _). }
  rewrite omap_id_Some. by destruct p.
Qed.

Lemma as_verifiable_inv s p : as_verifiable (E := E) s = Ok p → view s p.
Proof.
  unfold as_verifiable, is_verifiable, assert_p. destruct (_ =? _)%nat; [|done]. cbn [mbind res_mbind].
  destruct (forallb is_some (sentries s)) eqn:Hall; [|done]. cbn [mbind res_mbind]. intros [= <-]. split; [done|]. simpl.
  induction (sentries s) as [|[e|] l IH]; [done| |done]. csimpl. by rewrite <- IH.
Qed.

(** An input that holds a signature of the transaction under a key. *)
Definition signed_at (key : Keypair) (p : PopulatedTransaction) (i : nat) : Prop :=
  ∃ input sig, inputs (ptx p) !! i = Some input ∧ signature_script input = signature_script_of sig SIG_HASH_ALL ∧
    is_array 64 sig ∧ schnorr_valid (x_only_serialize key) sig (tx_message p i SIG_HASH_ALL) = Some true.

(** A transaction that differs in its signature scripts. *)
Definition resigned (p p' : PopulatedTransaction) : Prop := unsigned (ptx p) = unsigned (ptx p') ∧ entries p = entries p'.

Lemma signed_at_resigned key p p' i :
  resigned p p' → inputs (ptx p) !! i = inputs (ptx p') !! i → signed_at key p i → signed_at key p' i.
Proof.
  intros [Ht He] Hi (input & sig & H1' & H2' & H3' & H4'). exists input, sig. rewrite <- Hi.
  by rewrite <- (message_unsigned p p' i _ Ht He).
Qed.

Definition with_script (p : PopulatedTransaction) (i : nat) (input : TransactionInput) (script : bytes) : PopulatedTransaction :=
  mkPopulated (set_inputs (<[i := set_signature_script script input]> (inputs (ptx p))) (ptx p)) (entries p).

Lemma with_script_resigned p i input script : inputs (ptx p) !! i = Some input → resigned p (with_script p i input script).
Proof.
  intros Hi. split; [|done]. unfold with_script, unsigned, set_inputs; simpl. f_equal. rewrite list_fmap_insert.
  symmetry. apply list_insert_id. by rewrite list_lookup_fmap, Hi.
Qed.

Lemma with_script_wf p i input script :
  populated_wf p → inputs (ptx p) !! i = Some input → is_bytes script → Z.of_nat (length script) < 2 ^ 32 →
  populated_wf (with_script p i input script).
Proof.
  intros ((Hv & Hins & Ho & Hl & Hid & Hg & Hpl & Hpn & Hn & Hm) & Hents & Hlen) Hi Hb Hsz.
  split; [|split; [done|by simpl; rewrite length_insert]]. unfold tx_wf, with_script, set_inputs; simpl.
  split_and!; try done; [|by rewrite length_insert]. apply Forall_insert; [done|]. rewrite Forall_lookup in Hins.
  specialize (Hins i input Hi) as (H1' & _ & _ & H2' & H3'). by split_and!.
Qed.

Lemma sign_at_spec key aux i r s p :
  view s p → populated_wf p → reused_ok (ptx p) r → (i < length (inputs (ptx p)))%nat →
  ∃ r' s' p', sign_at (E := E) key aux i (r, s) = Ok (r', s') ∧ view s' p' ∧ populated_wf p' ∧ resigned p p' ∧
    reused_ok (ptx p') r' ∧ signed_at key p' i ∧ ∀ j, j ≠ i → inputs (ptx p') !! j = inputs (ptx p) !! j.
Proof.
  intros Hview Hwf Hr Hi. unfold sign_at. rewrite (as_verifiable_view s p Hview Hwf). cbn [mbind res_mbind].
  destruct (calc_schnorr_spec (E := E) p i SIG_HASH_ALL r Hwf Hi Hr) as (inp & e & r' & Hinp & He & _ & _ & -> & Hr').
  cbn [mbind res_mbind]. unfold assert_p. set (h := signing_hash _).
  assert (length h = 32%nat) as Hh by apply signing_hash_length. rewrite Hh, Nat.eqb_refl. cbn [mbind res_mbind].
  destruct Hview as [Ht Hes]. unfold idx. rewrite Ht, Hinp. cbn [unwrap mbind res_mbind].
  destruct (sign_array key aux h) as [Hsl Hsb]. set (sig := sign_schnorr key aux h) in *.
  assert (is_bytes (signature_script_of sig SIG_HASH_ALL)) as Hb.
  { apply is_bytes_cons. split; [unfold in_u; lia|]. apply is_bytes_app. split; [done|]. apply is_bytes_cons. split; [unfold in_u; lia|constructor]. }
  pose proof (with_script_resigned p i inp (signature_script_of sig SIG_HASH_ALL) Hinp) as Hre.
  eexists r', _, (with_script p i inp (signature_script_of sig SIG_HASH_ALL)). split; [done|].
  split_and!; [by split| |done|by eapply reused_ok_resigned, Hr'; apply Hre| |].
  - apply with_script_wf; [done|done|done|]. unfold signature_script_of. rewrite !length_app, Hsl. simpl. lia.
  - exists (set_signature_script (signature_script_of sig SIG_HASH_ALL) inp), sig. split; [|split; [done|split; [by split|]]].
    + simpl. apply list_lookup_insert_eq. done.
    + rewrite <- (message_unsigned p _ i _ (proj1 Hre) (proj2 Hre)). unfold tx_message. rewrite Hinp, He. by apply sign_verifies.
  - intros j Hj. simpl. by apply list_lookup_insert_ne.
Qed.

(** What has been done after [k] turns: the inputs that have a key are signed, the others
    and those to come are as they were. *)
Definition signed_upto (p0 : PopulatedTransaction) (keyof : nat → option Keypair) (k : nat) (p : PopulatedTransaction) : Prop :=
  populated_wf p ∧ resigned p0 p ∧
  ∀ i, match keyof i with
       | Some key => if (i <? k)%nat then signed_at key p i else inputs (ptx p) !! i = inputs (ptx p0) !! i
       | None => inputs (ptx p) !! i = inputs (ptx p0) !! i
       end.

Definition turn (p0 : PopulatedTransaction) (keyof : nat → option Keypair) (k : nat) (st : SigHashReusedValues * SignableTransaction) : Prop :=
  ∃ p, view st.2 p ∧ reused_ok (ptx p) st.1 ∧ signed_upto p0 keyof k p.

Lemma turn_start p0 keyof s : populated_wf p0 → view s p0 → turn p0 keyof 0 (reused_new, s).
Proof.
  intros Hwf Hv. exists p0. split; [done|]. split; [apply reused_new_ok|]. split; [done|]. split; [done|].
  intros i. by destruct (keyof i).
Qed.

Lemma resigned_length p p' : resigned p p' → length (inputs (ptx p)) = length (inputs (ptx p')).
Proof. intros [[= _ Hi _ _ _ _ _ _] _]. apply (f_equal length) in Hi. by rewrite !length_fmap in Hi. Qed.

Lemma turn_signed p0 keyof k key aux st :
  turn p0 keyof k st → (k < length (inputs (ptx p0)))%nat → keyof k = Some key →
  ∃ st', sign_at (E := E) key aux k st = Ok st' ∧ turn p0 keyof (S k) st'.
Proof.
  destruct st as [r s]. intros (p & Hv & Hr & Hwf & Hre & Hin) Hk Hkey.
  destruct (sign_at_spec key aux k r s p Hv Hwf Hr) as (r' & s' & p' & Hs & Hv' & Hwf' & Hre' & Hr' & Hsig & Hother).
  { by rewrite <- (resigned_length _ _ Hre). }
  exists (r', s'). split; [done|]. exists p'. split; [done|]. split; [done|]. split; [done|].
  assert (resigned p0 p') as Hre0 by (destruct Hre, Hre'; split; congruence). split; [done|].
  intros i. specialize (Hin i). destruct (decide (i = k)) as [->|Hne].
  - rewrite Hkey in Hin |- *. by rewrite (proj2 (Nat.ltb_lt _ _)) by lia.
  - rewrite (Hother i Hne). destruct (keyof i) as [key'|]; [|done].
    replace (i <? S k)%nat with (i <? k)%nat by (destruct (Nat.ltb_spec i k), (Nat.ltb_spec i (S k)); lia || done).
    destruct (i <? k)%nat; [|done]. apply (signed_at_resigned key' p p' i Hre'); [by rewrite (Hother i Hne)|done].
Qed.

Lemma turn_skipped p0 keyof k st : turn p0 keyof k st → keyof k = None → turn p0 keyof (S k) st.
Proof.
  intros (p & Hv & Hr & Hwf & Hre & Hin) Hkey. exists p. split; [done|]. split; [done|]. split; [done|]. split; [done|].
  intros i. specialize (Hin i). destruct (decide (i = k)) as [->|Hne]; [by rewrite Hkey in Hin |- *|].
  destruct (keyof i) as [key'|]; [|done].
  replace (i <? S k)%nat with (i <? k)%nat by (destruct (Nat.ltb_spec i k), (Nat.ltb_spec i (S k)); lia || done). done.
Qed.

(** The end of a loop. *)
Definition all_signed (p0 : PopulatedTransaction) (keyof : nat → option Keypair) (p : PopulatedTransaction) : Prop :=
  populated_wf p ∧ resigned p0 p ∧
  ∀ i, (i < length (inputs (ptx p0)))%nat →
    match keyof i with Some key => signed_at key p i | None => inputs (ptx p) !! i = inputs (ptx p0) !! i end.

Lemma turn_end p0 keyof st : turn p0 keyof (length (inputs (ptx p0))) st → ∃ p, view st.2 p ∧ all_signed p0 keyof p.
Proof.
  intros (p & Hv & _ & Hwf & Hre & Hin). exists p. split; [done|]. split; [done|]. split; [done|]. intros i Hi. specialize (Hin i).
  destruct (keyof i); [|done]. by rewrite (proj2 (Nat.ltb_lt _ _) Hi) in Hin.
Qed.

Definition committed (p : PopulatedTransaction) : PopulatedTransaction :=
  mkPopulated (set_inputs (set_compute_commit (input_mass (version (ptx p))) <$> inputs (ptx p)) (ptx p)) (entries p).

Lemma committed_wf p : populated_wf p → populated_wf (committed p).
Proof.
  intros ((Hv & Hins & Ho & Hl & Hid & Hg & Hpl & Hpn & Hn & Hm) & Hents & Hlen).
  split; [|split; [done|by simpl; rewrite length_fmap]]. unfold tx_wf, committed, set_inputs; simpl.
  split_and!; try done; [|by rewrite length_fmap]. apply Forall_fmap. eapply Forall_impl; [exact Hins|].
  intros i (H1' & H2' & H3' & H4' & _). split_and!; try done. unfold input_mass, in_u. simpl.
  destruct (version_expects_compute_budget_field _); simpl; unfold in_u; lia.
Qed.

Lemma sign_spec key rng s p :
  view s p → populated_wf p →
  ∃ s' p', sign (E := E) s key rng = Ok s' ∧ view s' p' ∧ all_signed (committed p) (λ _, Some key) p'.
Proof.
  intros [Ht Hes] Hwf. unfold sign. set (s1 := set_input_masses s).
  assert (view s1 (committed p)) as Hv1 by (split; [unfold s1, set_input_masses; simpl; by rewrite Ht|done]).
  destruct (for_loop_rule (E := E) (turn (committed p) (λ _, Some key)) (length (inputs (stx s1))) 0
    (λ i, sign_at key (rng i) i) (reused_new, s1)) as ([r s'] & Hl & Hturn).
  - apply turn_start; [by apply committed_wf|done].
  - intros k st Hk Hturn. eapply turn_signed; [done| |done]. destruct Hv1 as [Hv1 _]. rewrite <- Hv1. lia.
  - rewrite Hl. cbn [mbind res_mbind]. rewrite (proj1 Hv1) in Hturn. apply turn_end in Hturn as (p' & Hv' & Hall). by exists s', p'.
Qed.

(** The keys of a map, under the scripts they are for. *)
Definition key_of (keys : gmap bytes Keypair) (p : PopulatedTransaction) (i : nat) : option Keypair :=
  entries p !! i ≫= λ e, keys !! spk_script (entry_spk e).

Lemma key_map_spec (f : Keypair → bytes) privkeys kps m :
  Forall2 (λ k kp, keypair_from_seckey_slice k = Some kp) privkeys kps →
  ∃ keys, key_map (E := E) f privkeys m = Ok keys ∧
    (∀ script key, keys !! script = Some key → (script = f key ∧ key ∈ kps) ∨ m !! script = Some key) ∧
    (∀ script, is_Some (m !! script) ∨ script ∈ f <$> kps → is_Some (keys !! script)).
Proof.
  intros Hk. revert m. induction Hk as [|k kp privkeys kps Hk Hks IH]; intros m; cbn [key_map].
  { exists m. split; [done|]. split; [naive_solver|]. intros script [?|Hin]; [done|]. by apply elem_of_nil in Hin. }
  rewrite Hk. cbn [unwrap mbind res_mbind]. destruct (IH (<[f kp := kp]> m)) as (keys & -> & Hin & Hall). exists keys. split; [done|]. split.
  - intros script key [[-> Hkey]|Hm]%Hin; [left; split; [done|by apply list_elem_of_further]|].
    apply lookup_insert_Some in Hm as [[<- <-]|[_ Hm]]; [left; split; [done|apply list_elem_of_here]|by right].
  - intros script Hs. apply Hall. rewrite fmap_cons, elem_of_cons in Hs.
    destruct (decide (script = f kp)) as [->|Hne]; [left; by rewrite lookup_insert_eq|].
    rewrite lookup_insert_ne by done. naive_solver.
Qed.

Lemma sign_matching_spec keys rng missing p0 k st b :
  turn p0 (key_of keys p0) k st → (k < length (inputs (ptx p0)))%nat → populated_wf p0 →
  ∃ st' b', sign_matching (E := E) keys rng missing k (st, b) = Ok (st', b') ∧ turn p0 (key_of keys p0) (S k) st' ∧
    b' = if is_some (key_of keys p0 k) then b else missing b.
Proof.
  destruct st as [r s]. intros Hturn Hk (_ & _ & Hlen). unfold sign_matching.
  destruct (lookup_lt_is_Some_2 (entries p0) k ltac:(lia)) as [e He].
  assert (sentries s !! k = Some (Some e)) as Hs.
  { destruct Hturn as (p & [_ Hes] & _ & _ & [_ Hre] & _). simpl in Hes. by rewrite Hes, list_lookup_fmap, <- Hre, He. }
  unfold idx. rewrite Hs. cbn [unwrap mbind res_mbind]. unfold key_of in *. rewrite He. cbn [mbind option_bind].
  destruct (keys !! spk_script (entry_spk e)) as [key|] eqn:Hkey.
  - destruct (turn_signed p0 _ k key (rng k) (r, s) Hturn Hk) as (st' & Hst & Hturn').
    { by rewrite He. }
    cbn [mbind res_mbind] in *. rewrite Hst. exists st', b. done.
  - exists (r, s), (missing b). split; [done|]. split; [|done]. apply turn_skipped; [done|]. by rewrite He.
Qed.

Lemma sign_matching_loop keys rng missing s p :
  view s p → populated_wf p →
  ∃ r s' b p', for_loop (E := E) (length (inputs (stx s))) 0 (sign_matching keys rng missing) (reused_new, s, false) = Ok (r, s', b) ∧
    view s' p' ∧ all_signed p (key_of keys p) p' ∧
    ((∀ b, missing b = true) → b = false ↔ ∀ i, (i < length (inputs (ptx p)))%nat → is_Some (key_of keys p i)).
Proof.
  intros Hv Hwf. destruct (for_loop_rule (E := E) (λ k x, turn p (key_of keys p) k x.1 ∧
      ((∀ b, missing b = true) → x.2 = false ↔ ∀ i, (i < k)%nat → is_Some (key_of keys p i)))
    (length (inputs (stx s))) 0 (sign_matching keys rng missing) (reused_new, s, false)) as ([[r s'] b] & Hl & Hturn & Hb).
  - split; [by apply turn_start|]. intros _. split; [lia|done].
  - intros k [st b] Hk [Hturn Hb]. destruct (sign_matching_spec keys rng missing p k st b Hturn) as (st' & b' & Hst & Hturn' & Hb').
    { rewrite <- (proj1 Hv). lia. }
    { done. }
    exists (st', b'). split; [done|]. split; [done|]. intros Hmiss. specialize (Hb Hmiss). cbn [snd] in *.
    assert ((∀ i, (i < S k)%nat → is_Some (key_of keys p i)) ↔
      (∀ i, (i < k)%nat → is_Some (key_of keys p i)) ∧ is_Some (key_of keys p k)) as ->.
    { split; [intros Hall; split; [intros i Hi; apply Hall; lia|apply Hall; lia]|].
      intros [Hall Hlast] i Hi. destruct (decide (i = k)) as [->|]; [done|]. apply Hall. lia. }
    rewrite Hb', <- Hb. destruct (key_of keys p k); simpl; [naive_solver|]. rewrite Hmiss. split; [done|]. by intros [_ [? [=]]].
  - rewrite Hl. cbn [fst snd] in *. rewrite (proj1 Hv) in Hturn, Hb. apply turn_end in Hturn as (p' & Hv' & Hall).
    exists r, s', b, p'. by split_and!.
Qed.
End loops.

(** ** Acceptance *)

Section accepted.
Context `{SigningHashesLaws} `{SignerLaws} `{ScriptHashesLaws} `{ZkLibsLaws}.
Context (ctx : CovenantsContext) (acc : option SeqCommitAccessor) (fl : EngineFlags).
Context (Hacc : ∀ a b h, acc = Some a → seq_commitment_within_depth a b = Some h → is_array 32 h).
Context (Hfl : 0 ≤ sigop_script_units fl).

(** A commitment that pays for one signature under the rules in force. *)
Definition pays_one (c : ComputeCommit) : Prop :=
  if covenants fl then sigop_script_units fl + 1 ≤ allowed_script_units c else 1 ≤ default 0 (sig_op_count c).

Lemma p2pk_not_p2sh key : is_pay_to_script_hash (p2pk_script key) = false.
Proof.
  unfold is_pay_to_script_hash, p2pk_script. destruct (x_only_array key) as [Hl _].
  destruct (_ =? 35)%nat eqn:Hlen; [|done]. apply Nat.eqb_eq in Hlen. rewrite !length_app, Hl in Hlen. done.
Qed.

Lemma signed_input_accepted p key i u input c :
  populated_wf p → inputs (ptx p) !! i = Some input → entries p !! i = Some u → entry_spk u = mkSpk 0 (p2pk_script key) →
  signed_at key p i → pays_one (compute_commit input) → truthful p c →
  ∃ c', check_input p ctx acc fl i c = Ok (tt, c').
Proof.
  intros Hwf Hin Hu Hspk (input' & sig & Hin' & Hscript & [Hsl Hsb] & Hvalid) Hpay [Hc Hr].
  assert (input' = input) as -> by congruence. destruct c as [r sc].
  destruct (input_engine p ctx acc fl Hwf Hacc Hfl i) as (input' & u' & env & m & Hpi & H1' & H2' & _ & Hnew & Henv & Hf & Hm & Hsrc).
  { by eapply lookup_lt_Some. }
  assert (input' = input) as -> by congruence. assert (u' = u) as -> by congruence.
  unfold check_input. rewrite Hpi. cbn [mbind res_mbind]. rewrite Hnew. cbn [mbind res_mbind].
  destruct (x_only_array key) as [Hkl Hkb]. rewrite Hspk in Hsrc. cbn [spk_script] in Hsrc. rewrite p2pk_not_p2sh in Hsrc.
  assert (affords m 1 1) as Ha.
  { revert Hnew. unfold from_transaction_input_with_script_units_limit, assert_p. destruct (_ <? _)%nat; [|done]. cbn [mbind res_mbind].
    intros [= _ Hm']. unfold pays_one in Hpay. unfold affords. destruct (covenants fl); subst m; simpl; lia. }
  destruct (execute_signed env p input i u sig SIG_HASH_ALL 32 (x_only_serialize key) OpCheckSig
    (check_schnorr_signature env) m r sc) as (e' & He'); try done; [by left|apply accepts_schnorr; [done|]; unfold tx_schnorr_valid; by rewrite Hsrc| |].
  { split; [done|]. by rewrite Hsrc. }
  rewrite Hf in He'. change (new_state fl m) with (plain_state (covenants fl) [] 0 m). rewrite He'. by eexists.
Qed.

(** An input whose output pays to the public key of its signature. *)
Definition pays_signer (p : PopulatedTransaction) (i : nat) : Prop :=
  ∃ key u, entries p !! i = Some u ∧ entry_spk u = mkSpk 0 (p2pk_script key) ∧ signed_at key p i.

Lemma signed_scripts_accepted p schedule sc :
  populated_wf p → schedule ≡ₚ seq 0 (length (inputs (ptx p))) → cache_all (λ k b, b = verify_key k) sc →
  (∀ i, (i < length (inputs (ptx p)))%nat → pays_signer p i) → Forall (λ inp, pays_one (compute_commit inp)) (inputs (ptx p)) →
  ∃ sc', check_scripts_with schedule p ctx acc fl sc = Ok (tt, sc').
Proof.
  intros Hwf Hperm Hsc Hall Hpay. destruct (check_scripts_order p ctx acc fl schedule sc Hperm) as (order & Ho & Hlt & ->).
  assert (truthful p (reused_new, sc)) as Ht by (split; [done|apply reused_new_ok]).
  assert (Forall (λ i, verdict p ctx acc fl (reused_new, sc) i = Ok tt) order) as Hok.
  { eapply Forall_impl; [exact Hlt|]. intros i Hi. destruct (Hall i Hi) as (key & u & Hu & Hspk & Hsig).
    destruct (lookup_lt_is_Some_2 _ _ Hi) as [inp Hin]. rewrite Forall_lookup in Hpay.
    destruct (signed_input_accepted p key i u inp (reused_new, sc)) as (c' & Hc); [by eauto..|]. unfold verdict. by rewrite Hc. }
  pose proof (check_inputs_spec p ctx acc fl Hwf Hacc Hfl (reused_new, sc) order (reused_new, sc) Ht Hlt Ht) as Hs.
  destruct (check_inputs p ctx acc fl order (reused_new, sc)) as [[[] [r sc']]|x|]; [by eexists| |done].
  destruct Hs as (i & Hi & Hx). rewrite Forall_forall in Hok. by rewrite (Hok i Hi) in Hx.
Qed.

Lemma slice_middle (a b c : bytes) : slice_p (E := SignError) (a ++ b ++ c) (length a) (length a + length b) = Ok b.
Proof.
  unfold slice_p. rewrite !length_app, (proj2 (Nat.leb_le _ _)) by lia. rewrite drop_app_length, Nat.add_comm, Nat.add_sub. by rewrite take_app_length.
Qed.

Lemma verify_from_accepts p k r l :
  populated_wf p → reused_ok (ptx p) r → drop k (populated_inputs p) = l → (∀ i, (i < length (inputs (ptx p)))%nat → pays_signer p i) →
  verify_from p k l r = Ok tt.
Proof.
  intros Hwf Hr Hl Hall. revert k r Hr Hl. induction l as [|[input u] l IH]; intros k r Hr Hl; cbn [verify_from]; [done|].
  assert (populated_inputs p !! k = Some (input, u)) as Hk.
  { rewrite <- (Nat.add_0_r k), <- lookup_drop, Hl. done. }
  unfold populated_inputs in Hk. apply lookup_zip_Some in Hk as [Hin Hu].
  pose proof (lookup_lt_Some _ _ _ Hin) as Hlt. destruct (Hall k Hlt) as (key & u' & Hu' & Hspk & input' & sig & Hin' & Hs & [Hsl _] & Hv).
  assert (input' = input) as -> by congruence. assert (u' = u) as -> by congruence. rewrite Hs, Hspk. cbn [is_empty signature_script_of app spk_script].
  destruct (x_only_array key) as [Hxl _].
  pose proof (slice_middle [32] (x_only_serialize key) [172]) as Hpk. rewrite Hxl in Hpk. simpl in Hpk. unfold p2pk_script. simpl app. rewrite Hpk.
  pose proof (slice_middle [65] sig [SIG_HASH_ALL]) as Hsg. rewrite Hsl in Hsg. simpl in Hsg. rewrite Hsg.
  unfold schnorr_valid in Hv. cbn [mbind res_mbind]. destruct (xonly_from_slice (x_only_serialize key)) as [pk|]; [|done].
  destruct (schnorr_from_slice sig) as [sg|]; [|done]. cbn [ok_or mbind res_mbind].
  destruct (calc_schnorr_spec (E := SignError) p k SIG_HASH_ALL r Hwf Hlt Hr) as (inp & e & r' & Hinp & He & _ & _ & -> & Hr').
  cbn [mbind res_mbind]. rewrite signing_hash_length. cbn [Nat.eqb mbind res_mbind].
  unfold tx_message in Hv. rewrite Hinp, He in Hv. injection Hv as Hv. rewrite Hv. cbn [negb].
  apply (IH (S k) r' Hr'). by rewrite <- Nat.add_1_r, <- drop_drop, Hl.
Qed.

Lemma verify_accepts p : populated_wf p → (∀ i, (i < length (inputs (ptx p)))%nat → pays_signer p i) → verify p = Ok tt.
Proof. intros Hwf Hall. apply verify_from_accepts; [done|apply reused_new_ok|by rewrite drop_0|done]. Qed.
End accepted.

Section claims.
Context `{SigningHashesLaws} `{SignerLaws} `{ScriptHashesLaws} `{ZkLibsLaws}.
Context (ctx : CovenantsContext) (acc : option SeqCommitAccessor) (fl : EngineFlags).

Lemma input_mass_pays v : 0 ≤ sigop_script_units fl ≤ 100000 → (covenants fl = false → v < 1) → pays_one fl (input_mass v).
Proof.
  intros Hu Hc. unfold pays_one, input_mass, version_expects_compute_budget_field, allowed_script_units, sat_add64, commit_script_units,
    free_script_units_per_input, SCRIPT_UNITS_PER_COMPUTE_BUDGET_UNIT, SCRIPT_UNITS_PER_SIGOP_COUNT_UNIT.
  destruct (covenants fl), (Z.leb_spec 1 v); simpl; lia.
Qed.

Lemma unsigned_commits t t' : unsigned t = unsigned t' → compute_commit <$> inputs t = compute_commit <$> inputs t'.
Proof.
  intros [= _ Hi _ _ _ _ _ _]. apply (f_equal (fmap compute_commit)) in Hi. rewrite <- !list_fmap_compose in Hi. exact Hi.
Qed.

(** C10. A transaction that the node signs is spendable.  For every transaction whose inputs
    spend outputs to the public key of one pair, and whatever randomness the signatures
    use, [sign] returns; it changes nothing of the transaction but the commitments and the
    signature scripts of the inputs; the script check of the validator then succeeds for
    every order of its jobs and every truthful signature cache, within the commitments
    that [sign] made, before the covenants activation for a version 0 transaction and
    after it for all; and [verify] accepts it. *)
Theorem sign_accepted key rng s p schedule sc :
  (∀ a b h, acc = Some a → seq_commitment_within_depth a b = Some h → is_array 32 h) →
  0 ≤ sigop_script_units fl ≤ 100000 → (covenants fl = false → version (ptx p) < 1) →
  as_verifiable (E := SignError) s = Ok p → populated_wf p →
  Forall (λ u, entry_spk u = mkSpk 0 (p2pk_script key)) (entries p) →
  schedule ≡ₚ seq 0 (length (inputs (ptx p))) → cache_all (λ k b, b = verify_key k) sc →
  ∃ s' p', sign (E := SignError) s key rng = Ok s' ∧ as_verifiable (E := SignError) s' = Ok p' ∧ resigned (committed p) p' ∧
    (∃ sc', check_scripts_with schedule p' ctx acc fl sc = Ok (tt, sc')) ∧ verify p' = Ok tt.
Proof.
  intros Hacc Hu Hver Hs Hwf Hspk Hperm Hsc.
  destruct (sign_spec (E := SignError) key rng s p) as (s' & p' & Hsign & Hv' & Hwf' & Hre & Hall); [by apply (as_verifiable_inv (E := SignError))|done|].
  exists s', p'. split; [done|]. split; [by apply as_verifiable_view|]. split; [done|].
  assert (length (inputs (ptx p')) = length (inputs (ptx p))) as Hlen.
  { rewrite <- (resigned_length _ _ Hre). simpl. by rewrite length_fmap. }
  assert (∀ i, (i < length (inputs (ptx p')))%nat → pays_signer p' i) as Hpays.
  { intros i Hi. assert (i < length (entries p'))%nat as Hi' by (destruct Hwf' as (_ & _ & ->); done).
    destruct (lookup_lt_is_Some_2 _ _ Hi') as [u Hiu]. exists key, u. split; [done|]. split.
    - rewrite <- (proj2 Hre) in Hiu. rewrite Forall_lookup in Hspk. by apply (Hspk i).
    - apply Hall. simpl. by rewrite length_fmap, <- Hlen. }
  split; [|by apply verify_accepts]. apply signed_scripts_accepted; [done|lia|done|by rewrite Hlen|done|done|].
  assert (Forall (pays_one fl) (compute_commit <$> inputs (ptx p'))) as Hp'; [|by rewrite Forall_fmap in Hp'].
  rewrite <- (unsigned_commits _ _ (proj1 Hre)). unfold committed, set_inputs; simpl.
  rewrite <- list_fmap_compose. apply Forall_fmap, Forall_true. intros inp. by apply input_mass_pays.
Qed.

Lemma p2pk_length key : length (p2pk_script key) = 34%nat.
Proof. unfold p2pk_script. destruct (x_only_array key) as [Hl _]. by rewrite !length_app, Hl. Qed.

(** The script of an input pays to one of some keys. *)
Definition for_one_of (kps : list Keypair) (p : PopulatedTransaction) (i : nat) : Prop :=
  ∃ u key, entries p !! i = Some u ∧ key ∈ kps ∧ spk_script (entry_spk u) = p2pk_script key.

Lemma key_of_p2pk privkeys kps p :
  Forall2 (λ k kp, keypair_from_seckey_slice k = Some kp) privkeys kps →
  ∃ keys, key_map (E := SignError) p2pk_script privkeys ∅ = Ok keys ∧
    ∀ i, match key_of keys p i with
         | Some key => ∃ u, entries p !! i = Some u ∧ key ∈ kps ∧ spk_script (entry_spk u) = p2pk_script key
         | None => ¬ for_one_of kps p i
         end.
Proof.
  intros Hk. destruct (key_map_spec (E := SignError) p2pk_script privkeys kps ∅ Hk) as (keys & Hm & Hin & Hall). exists keys. split; [done|].
  intros i. unfold key_of, for_one_of. destruct (entries p !! i) as [u|]; cbn [mbind option_bind]; [|by intros (? & ? & [=] & _)].
  destruct (keys !! spk_script (entry_spk u)) as [key|] eqn:Hkey.
  - exists u. apply Hin in Hkey as [[? ?]|Hn]; [by split_and!|]. by rewrite lookup_empty in Hn.
  - intros (u' & key & [= <-] & Hkp & Hs). destruct (Hall (spk_script (entry_spk u))) as [key' Hkey']; [|by rewrite Hkey in Hkey'].
    right. rewrite Hs. apply list_elem_of_fmap. by exists key.
Qed.

(** [sign_with_multiple_v2] signs every input that pays to the public key of one of the
    private keys, with a signature that is valid for the transaction it returns, and leaves
    the others as they are; it answers [Fully] exactly when there are no others; and a
    fully signed transaction, when its outputs are of script version 0 and its commitments
    pay for a signature each, passes the script check and [verify]. *)
Theorem sign_with_multiple_v2_correct privkeys kps rng s p schedule sc :
  (∀ a b h, acc = Some a → seq_commitment_within_depth a b = Some h → is_array 32 h) → 0 ≤ sigop_script_units fl →
  Forall2 (λ k kp, keypair_from_seckey_slice k = Some kp) privkeys kps →
  as_verifiable (E := SignError) s = Ok p → populated_wf p →
  schedule ≡ₚ seq 0 (length (inputs (ptx p))) → cache_all (λ k b, b = verify_key k) sc →
  ∃ x p', sign_with_multiple_v2 (E := SignError) s privkeys rng = Ok x ∧
    as_verifiable (E := SignError) (signed_unwrap x) = Ok p' ∧ resigned p p' ∧
    (∀ i, (i < length (inputs (ptx p)))%nat →
       (for_one_of kps p i → ∃ key, key ∈ kps ∧ signed_at key p' i) ∧
       (¬ for_one_of kps p i → inputs (ptx p') !! i = inputs (ptx p) !! i)) ∧
    (is_ok (fully_signed x) = true ↔ ∀ i, (i < length (inputs (ptx p)))%nat → for_one_of kps p i) ∧
    (is_ok (fully_signed x) = true → Forall (λ u, spk_version (entry_spk u) = 0) (entries p) →
     Forall (λ inp, pays_one fl (compute_commit inp)) (inputs (ptx p)) →
     (∃ sc', check_scripts_with schedule p' ctx acc fl sc = Ok (tt, sc')) ∧ verify p' = Ok tt).
Proof.
  intros Hacc Hu Hkeys Hs Hwf Hperm Hsc. destruct (key_of_p2pk privkeys kps p Hkeys) as (keys & Hm & Hkey).
  destruct (sign_matching_loop (E := SignError) keys rng (λ _, true) s p) as (r & s' & b & p' & Hl & Hv' & (Hwf' & Hre & Hall) & Hb);
    [by apply (as_verifiable_inv (E := SignError))|done|]. specialize (Hb (λ _, eq_refl)).
  exists (if b then Partially s' else Fully s'), p'. unfold sign_with_multiple_v2. rewrite Hm. cbn [mbind res_mbind]. rewrite Hl. split; [done|].
  split; [destruct b; by apply as_verifiable_view|]. split; [done|].
  assert (∀ i, is_Some (key_of keys p i) ↔ for_one_of kps p i) as Hiff.
  { intros i. specialize (Hkey i). destruct (key_of keys p i) as [key|]; [|split; [by intros [? [=]]|done]].
    destruct Hkey as (u & Hiu & Hin & Hscript). split; [intros _; by exists u, key|by eexists]. }
  assert (∀ i, (i < length (inputs (ptx p)))%nat → for_one_of kps p i →
    ∃ key u, key ∈ kps ∧ signed_at key p' i ∧ entries p !! i = Some u ∧ spk_script (entry_spk u) = p2pk_script key) as Hsigned.
  { intros i Hi Hone%Hiff. specialize (Hall i Hi). specialize (Hkey i). destruct (key_of keys p i) as [key|]; [|by destruct Hone].
    destruct Hkey as (u & Hiu & Hin & Hscript). by exists key, u. }
  split; [|split].
  - intros i Hi. split; [intros Hone; destruct (Hsigned i Hi Hone) as (key & u & ? & ? & _); by exists key|].
    rewrite <- Hiff. specialize (Hall i Hi). intros Hno. destruct (key_of keys p i); [by destruct Hno|done].
  - assert (is_ok (fully_signed (if b then Partially s' else Fully s')) = true ↔ b = false) as -> by by destruct b.
    rewrite Hb. split; intros Hi i; rewrite ?Hiff || rewrite <- ?Hiff; apply Hi.
  - intros Hfull Hver Hpay. destruct b; [done|]. pose proof (proj1 Hb eq_refl) as Hevery.
    assert (length (inputs (ptx p)) = length (inputs (ptx p'))) as Hlen by by apply resigned_length.
    assert (∀ i, (i < length (inputs (ptx p')))%nat → pays_signer p' i) as Hpays.
    { intros i Hi. rewrite <- Hlen in Hi. destruct (Hsigned i Hi (proj1 (Hiff i) (Hevery i Hi))) as (key & u & _ & Hsig & Hiu & Hscript).
      exists key, u. rewrite <- (proj2 Hre). split; [done|]. split; [|done]. rewrite Forall_lookup in Hver. specialize (Hver i u Hiu).
      destruct (entry_spk u); simpl in *; congruence. }
    split; [|by apply verify_accepts]. apply signed_scripts_accepted; [done|lia|done|by rewrite <- Hlen|done|done|].
    assert (Forall (pays_one fl) (compute_commit <$> inputs (ptx p'))) as Hp'; [|by rewrite Forall_fmap in Hp'].
    rewrite <- (unsigned_commits _ _ (proj1 Hre)). by rewrite Forall_fmap.
Qed.

(** [sign_with_multiple] looks the output script up among serialized public keys, which
    are 33 bytes: it signs none of the inputs that pay to a public key by the standard
    script, whatever the private keys. *)
Theorem sign_with_multiple_skips privkeys kps rng s p :
  Forall2 (λ k kp, keypair_from_seckey_slice k = Some kp) privkeys kps →
  as_verifiable (E := SignError) s = Ok p → populated_wf p →
  Forall (λ u, ∃ key, spk_script (entry_spk u) = p2pk_script key) (entries p) →
  ∃ s', sign_with_multiple (E := SignError) s privkeys rng = Ok s' ∧
    signature_script <$> inputs (stx s') = signature_script <$> inputs (ptx p).
Proof.
  intros Hkeys Hs%(as_verifiable_inv (E := SignError)) Hwf Hstd.
  destruct (key_map_spec (E := SignError) public_key_serialize privkeys kps ∅ Hkeys) as (keys & Hm & Hin & _).
  unfold sign_with_multiple. rewrite Hm. cbn [mbind res_mbind]. set (s1 := set_input_masses s).
  assert (view s1 (committed p)) as Hv1.
  { destruct Hs as [Ht Hes]. split; [unfold s1, set_input_masses; simpl; by rewrite Ht|done]. }
  destruct (sign_matching_loop (E := SignError) keys rng id s1 (committed p) Hv1 (committed_wf p Hwf))
    as (r & s' & b & p' & Hl & [Ht' _] & (Hwf' & Hre & Hall) & _).
  exists s'. rewrite Hl. split; [done|]. rewrite Ht'.
  assert (inputs (ptx p') = inputs (ptx (committed p))) as ->; [|by unfold committed, set_inputs; simpl; rewrite <- list_fmap_compose].
  apply list_eq. intros i. destruct (decide (i < length (inputs (ptx (committed p))))%nat) as [Hi|Hi].
  - specialize (Hall i Hi). assert (key_of keys (committed p) i = None) as Hnone; [|by rewrite Hnone in Hall].
    unfold key_of, committed. cbn [entries]. destruct (entries p !! i) as [u|] eqn:Hu; [|done]. cbn [mbind option_bind].
    destruct (keys !! _) as [key|] eqn:Hkey; [|done]. apply Hin in Hkey as [[Hscript _]|Hn]; [|by rewrite lookup_empty in Hn].
    rewrite Forall_lookup in Hstd. destruct (Hstd i u Hu) as [key' Hp]. rewrite Hscript in Hp. apply (f_equal length) in Hp.
    by rewrite public_key_length, p2pk_length in Hp.
  - rewrite !lookup_ge_None_2; [done|lia|]. rewrite <- (resigned_length _ _ Hre). lia.
Qed.
End claims.

(** ** A toy signer, to show that the laws can hold *)
Module SampleSigner.
Definition residues (l : bytes) : bytes := (λ x, x mod 256) <$> l.
#[export] Instance crypto : SigCrypto := {|
  XOnlyKey := bytes; SchnorrSig := bytes; EcdsaKey := bytes; EcdsaSig := bytes;
  xonly_from_slice b := if (length b =? 32)%nat then Some b else None;
  schnorr_from_slice b := if (length b =? 64)%nat then Some b else None;
  ecdsa_key_from_slice b := if (length b =? 33)%nat then Some b else None;
  ecdsa_from_compact b := if (length b =? 64)%nat then Some b else None;
  schnorr_verify sig m pk := bool_decide (sig = residues m ++ pk);
  ecdsa_verify sig m pk := bool_decide (sig = residues m ++ drop 1 pk);
|}.
#[export] Instance signer : Signer := {|
  Keypair := bytes;
  keypair_from_seckey_slice b := if (length b =? 32)%nat then Some b else None;
  public_key_serialize k := 2 :: SampleEngine.digest k;
  x_only_serialize := SampleEngine.digest;
  sign_schnorr k _ m := SampleEngine.digest m ++ SampleEngine.digest k;
|}.
#[export] Instance signer_laws : SignerLaws.
Proof.
  constructor.
  - intros k. simpl. by rewrite (proj1 (SampleEngine.digest_array k)).
  - apply SampleEngine.digest_array.
  - intros k aux m. destruct (SampleEngine.digest_array k) as [Hk Hkb], (SampleEngine.digest_array m) as [Hm Hmb].
    split; [simpl; by rewrite length_app, Hk, Hm|]. by apply is_bytes_app.
  - intros k aux m Hm. unfold schnorr_valid. simpl. destruct (SampleEngine.digest_array k) as [Hk _], (SampleEngine.digest_array m) as [Hm' _].
    rewrite length_app, Hk, Hm'. simpl. f_equal. apply bool_decide_eq_true_2. f_equal. unfold SampleEngine.digest, residues.
    apply resize_all_alt. by rewrite length_fmap.
Qed.
#[export] Existing Instances SampleTx.hashes SampleTx.hashes_laws SampleEngine.hashes SampleEngine.hashes_laws SampleEngine.zk SampleEngine.zk_laws.

(** Two outputs to one key, the transaction that spends them, and its signing. *)
Definition key : bytes := replicate 32 7.
Definition pair : Keypair := key.
Definition entry (n : Z) : UtxoEntry := mkEntry (10 * n) (mkSpk 0 (p2pk_script pair)) 7 false None.
Definition populated : PopulatedTransaction := mkPopulated SampleTx.tx [entry 1; entry 2].
Definition signable : SignableTransaction := mkSignable SampleTx.tx [Some (entry 1); Some (entry 2)] None None.
Definition cache : Cache SigCacheKey bool := cache_new 10 (λ _, 0%nat).
Definition flags : EngineFlags := mkFlags true 100000.

Lemma pair_populated_ok : populated_wf populated.
Proof. SampleTx.wf. Qed.
End SampleSigner.
Import SampleSigner.

Lemma sign_accepted_witness :
  ∃ s' p', sign (E := SignError) signable pair (λ _, []) = Ok s' ∧ as_verifiable (E := SignError) s' = Ok p' ∧
    resigned (committed populated) p' ∧
    (∃ sc', check_scripts_with [1; 0]%nat p' EMPTY_COV_CONTEXT None SampleSigner.flags cache = Ok (tt, sc')) ∧ verify p' = Ok tt.
Proof.
  apply (sign_accepted EMPTY_COV_CONTEXT None SampleSigner.flags pair (λ _, []) signable populated).
  - done.
  - simpl. lia.
  - done.
  - done.
  - apply pair_populated_ok.
  - by repeat constructor.
  - apply Permutation_swap.
  - constructor.
Defined.

Lemma sign_with_multiple_v2_correct_witness :
  ∃ x p', sign_with_multiple_v2 (E := SignError) signable [key] (λ _, []) = Ok x ∧
    as_verifiable (E := SignError) (signed_unwrap x) = Ok p' ∧ is_ok (fully_signed x) = true ∧
    (∃ sc', check_scripts_with [1; 0]%nat p' EMPTY_COV_CONTEXT None SampleSigner.flags cache = Ok (tt, sc')).
Proof.
  destruct (sign_with_multiple_v2_correct EMPTY_COV_CONTEXT None SampleSigner.flags [key] [pair] (λ _, []) signable populated [1; 0]%nat cache)
    as (x & p' & Hx & Hp & _ & _ & Hfull & Hacc); [done|done|by repeat constructor|done|apply pair_populated_ok|apply Permutation_swap|constructor|].
  assert (is_ok (fully_signed x) = true) as Hok.
  { apply Hfull. intros i Hi. destruct i as [|[|i]]; [| |simpl in Hi; lia]; eexists _, pair; (split; [done|split; [apply list_elem_of_here|done]]). }
  exists x, p'. split; [done|]. split; [done|]. split; [done|]. apply Hacc; [done|by repeat constructor|]. by repeat constructor.
Defined.

Lemma sign_with_multiple_skips_witness :
  ∃ s', sign_with_multiple (E := SignError) signable [key] (λ _, []) = Ok s' ∧ signature_script <$> inputs (stx s') = [[]; []].
Proof.
  apply (sign_with_multiple_skips [key] [pair] (λ _, []) signable populated).
  - by repeat constructor.
  - done.
  - apply pair_populated_ok.
  - repeat constructor; by exists pair.
Defined.
