(* ===== verification/Merkle.v ===== *)
(** * Merkle trees (crypto/merkle/src/lib.rs, crypto/merkle/src/streaming.rs)

    The root over a list of hashes, computed level by level in one array, and by a
    builder that takes the leaves one at a time and keeps a stack of full subtrees.
    Both are the root of the same tree: the leaves padded on the right to a power of
    two, where a missing right child counts as the zero hash.  The hasher is a class. *)

From S2P Require Import Prelude Bytes Transaction Sighash.

Class MerkleHasher := merkle_digest : bytes → Hash.

Section merkle.
Context `{MerkleHasher}.

Definition merkle_hash_with_hasher (left right : Hash) : Hash := merkle_digest (left ++ right).

(** ** The array *)

(** [usize::next_power_of_two]. *)
Definition next_power_of_two (n : nat) : nat := 2 ^ Nat.log2_up n.

(** One turn of the second loop: the node at [offset] from its children at [i] and [i + 1]. *)
Definition merkle_node {E} (next_pot k : nat) (merkles : list (option Hash)) : res E (list (option Hash)) :=
  let offset := (next_pot + k)%nat in
  let i := (2 * k)%nat in
  left ← idx merkles i;
  match left with
  | None => upd merkles offset None
  | Some l => right ← idx merkles (i + 1); upd merkles offset (Some (merkle_hash_with_hasher l (default ZERO_HASH right)))
  end.

Fixpoint merkle_leaves {E} (i : nat) (hashes : list Hash) (merkles : list (option Hash)) : res E (list (option Hash)) :=
  match hashes with
  | [] => Ok merkles
  | hash :: hashes => merkles ← upd merkles i (Some hash); merkle_leaves (S i) hashes merkles
  end.

Definition calc_merkle_root_with_hasher {E} (hashes : list Hash) : res E Hash :=
  match hashes with
  | [] => Ok ZERO_HASH
  | [hash] => Ok hash
  | _ =>
      let next_pot := next_power_of_two (length hashes) in
      let vec_len := (2 * next_pot - 1)%nat in
      merkles ← merkle_leaves 0 hashes (replicate vec_len None);
      merkles ← for_loop (next_pot - 1) 0 (merkle_node next_pot) merkles;
      root ← unwrap (last merkles);
      unwrap root
  end.

(** ** The streaming builder *)

Abbreviation MAX_STACK := 32%nat (only parsing).

(** The used slots of the stack, the top one first. *)
Record StreamingMerkleBuilder := mkStreaming { stack : list (nat * Hash); leaf_count : Z }.
Definition streaming_new : StreamingMerkleBuilder := mkStreaming [] 0.

(** The loop of [add_leaf]: what is left of the stack, and the node to push. *)
Fixpoint collapse (st : list (nat * Hash)) (level : nat) (current : Hash) : list (nat * Hash) * (nat * Hash) :=
  match st with
  | (top_level, top_hash) :: st' =>
      if negb (top_level =? level)%nat then (st, (level, current))
      else collapse st' (S level) (merkle_hash_with_hasher top_hash current)
  | [] => ([], (level, current))
  end.

Definition add_leaf {E} (hash : Hash) (b : StreamingMerkleBuilder) : res E StreamingMerkleBuilder :=
  let '(st, node) := collapse (stack b) 0 hash in
  _ ← assert_p (length st <? MAX_STACK)%nat;
  n ← add_p 32 (leaf_count b) 1;
  Ok (mkStreaming (node :: st) n).

(** [while result_level < level]. *)
Definition pad_to (level result_level : nat) (result : Hash) : Hash :=
  Nat.iter (level - result_level) (λ h, merkle_hash_with_hasher h ZERO_HASH) result.

(** The loop of [finalize] after its first turn. *)
Fixpoint merge_stack (st : list (nat * Hash)) (result_level : nat) (result : Hash) : Hash :=
  match st with
  | [] => result
  | (level, hash) :: st =>
      merge_stack st (S (Nat.max result_level level)) (merkle_hash_with_hasher hash (pad_to level result_level result))
  end.

Definition streaming_finalize {E} (b : StreamingMerkleBuilder) : res E Hash :=
  if leaf_count b =? 0 then Ok ZERO_HASH
  else if leaf_count b =? 1 then x ← unwrap (last (stack b)); Ok x.2
  else match stack b with
       | [] => Ok ZERO_HASH
       | (level, hash) :: st => Ok (merge_stack st level hash)
       end.

Fixpoint add_leaves {E} (hashes : list Hash) (b : StreamingMerkleBuilder) : res E StreamingMerkleBuilder :=
  match hashes with
  | [] => Ok b
  | hash :: hashes => b ← add_leaf hash b; add_leaves hashes b
  end.

(** ** The tree *)

(** A node: it is there when its left child is. *)
Definition node (left right : option Hash) : option Hash :=
  (λ l, merkle_hash_with_hasher l (default ZERO_HASH right)) <$> left.

(** The root of the tree of height [d] over some leaves. *)
Fixpoint tree (d : nat) (l : list Hash) : option Hash :=
  match d with
  | O => head l
  | S d => node (tree d (take (2 ^ d) l)) (tree d (drop (2 ^ d) l))
  end.

Definition padded_root (l : list Hash) : Hash := default ZERO_HASH (tree (Nat.log2_up (length l)) l).
End merkle.

(** ** Levels *)

Section levels.
Context `{MerkleHasher}.

(** The next level up. *)
Fixpoint up (l : list (option Hash)) : list (option Hash) :=
  match l with
  | a :: b :: l => node a b :: up l
  | _ => []
  end.

Lemma up_lookup l k a b : l !! (2 * k)%nat = Some a → l !! (2 * k + 1)%nat = Some b → up l !! k = Some (node a b).
Proof.
  revert l. induction k as [|k IH]; intros l Ha Hb.
  - destruct l as [|x [|y l]]; [done..|]. simpl in *. by simplify_eq.
  - destruct l as [|x [|y l]]; [done|by simplify_eq/=|]. cbn [up lookup list_lookup]. apply IH.
    + by replace (2 * S k)%nat with (S (S (2 * k))) in Ha by lia.
    + by replace (2 * S k + 1)%nat with (S (S (2 * k + 1))) in Hb by lia.
Qed.

Lemma length_up n l : length l = (2 * n)%nat → length (up l) = n.
Proof.
  revert l. induction n as [|n IH]; intros l Hl; [by destruct l|].
  destruct l as [|x [|y l]]; simpl in Hl; [lia..|]. simpl. f_equal. apply IH. lia.
Qed.

Lemma up_app n l l' : length l = (2 * n)%nat → up (l ++ l') = up l ++ up l'.
Proof.
  revert l. induction n as [|n IH]; intros l Hl; [by destruct l|].
  destruct l as [|x [|y l]]; simpl in Hl; [lia..|]. simpl. f_equal. apply IH. lia.
Qed.

(** The array of all levels over a level of [2 ^ d] nodes. *)
Fixpoint levels (d : nat) (l : list (option Hash)) : list (option Hash) :=
  match d with
  | O => l
  | S d => l ++ levels d (up l)
  end.

Lemma length_levels d l : length l = (2 ^ d)%nat → length (levels d l) = (2 * 2 ^ d - 1)%nat.
Proof.
  revert l. induction d as [|d IH]; intros l Hl; cbn [levels]; [simpl in *; lia|].
  rewrite length_app, IH, Hl; [simpl; lia|]. apply length_up. simpl in Hl. lia.
Qed.

Lemma levels_node d l k :
  length l = (2 ^ d)%nat → (k < 2 ^ d - 1)%nat →
  ∃ a b, levels d l !! (2 * k)%nat = Some a ∧ levels d l !! (2 * k + 1)%nat = Some b ∧ levels d l !! (2 ^ d + k)%nat = Some (node a b).
Proof.
  revert l k. induction d as [|d IH]; intros l k Hl Hk; [simpl in Hk; lia|]. cbn [levels].
  assert (2 ^ S d = 2 * 2 ^ d)%nat as Hp by (simpl; lia). assert (length (up l) = (2 ^ d)%nat) as Hu by (apply length_up; lia).
  destruct (decide (k < 2 ^ d)%nat) as [Hlt|Hge].
  - destruct (lookup_lt_is_Some_2 l (2 * k)) as [a Ha]; [lia|]. destruct (lookup_lt_is_Some_2 l (2 * k + 1)) as [b Hb]; [lia|].
    exists a, b. split; [by apply lookup_app_l_Some|]. split; [by apply lookup_app_l_Some|].
    rewrite lookup_app_r by lia. replace (2 ^ S d + k - length l)%nat with k by lia.
    pose proof (up_lookup l k a b Ha Hb) as Hup. destruct d; cbn [levels]; [done|]. by apply lookup_app_l_Some.
  - destruct (IH (up l) (k - 2 ^ d)%nat Hu) as (a & b & Ha & Hb & Hn); [lia|]. exists a, b. rewrite !lookup_app_r by lia.
    replace (2 * k - length l)%nat with (2 * (k - 2 ^ d))%nat by lia. replace (2 * k + 1 - length l)%nat with (2 * (k - 2 ^ d) + 1)%nat by lia.
    replace (2 ^ S d + k - length l)%nat with (2 ^ d + (k - 2 ^ d))%nat by lia. done.
Qed.

(** Going up all the way gives the root of the tree over the leaves that are there. *)
Definition padded (d : nat) (l : list Hash) : list (option Hash) := (Some <$> l) ++ replicate (2 ^ d - length l) None.

Lemma length_padded d l : (length l ≤ 2 ^ d)%nat → length (padded d l) = (2 ^ d)%nat.
Proof. intros Hl. unfold padded. rewrite length_app, length_fmap, length_replicate. lia. Qed.

Lemma padded_split d l : (length l ≤ 2 ^ S d)%nat → padded (S d) l = padded d (take (2 ^ d) l) ++ padded d (drop (2 ^ d) l).
Proof.
  intros Hl. unfold padded. rewrite length_take, length_drop. destruct (decide (length l ≤ 2 ^ d)%nat) as [Hle|Hgt].
  - rewrite take_ge, drop_ge by done. rewrite fmap_nil, app_nil_l, <- app_assoc, <- replicate_add. f_equal. f_equal. simpl. lia.
  - replace (2 ^ d - 2 ^ d `min` length l)%nat with 0%nat by lia. cbn [replicate]. rewrite app_nil_r, app_assoc, <- fmap_app, take_drop.
    f_equal. f_equal. rewrite Nat.pow_succ_r'. lia.
Qed.

(** The top of the levels, from the left and the right half. *)
Fixpoint top (d : nat) (l : list (option Hash)) : option Hash :=
  match d with
  | O => default None (head l)
  | S d => node (top d (take (2 ^ d) l)) (top d (drop (2 ^ d) l))
  end.

Lemma top_up d l : length l = (2 ^ S d)%nat → top (S d) l = top d (up l).
Proof.
  revert l. induction d as [|d IH]; intros l Hl.
  - destruct l as [|x [|y [|z l]]]; simpl in Hl; [lia..| |lia]. done.
  - assert (2 ^ S (S d) = 2 * 2 ^ S d)%nat as Hp by (simpl; lia). assert (2 ^ S d = 2 * 2 ^ d)%nat as Hp' by (simpl; lia).
    assert (length (take (2 ^ S d) l) = (2 ^ S d)%nat) as H1' by (rewrite length_take; lia).
    assert (length (drop (2 ^ S d) l) = (2 ^ S d)%nat) as H2' by (rewrite length_drop; lia).
    change (top (S (S d)) l) with (node (top (S d) (take (2 ^ S d) l)) (top (S d) (drop (2 ^ S d) l))).
    rewrite (IH _ H1'), (IH _ H2'). change (top (S d) (up l)) with (node (top d (take (2 ^ d) (up l))) (top d (drop (2 ^ d) (up l)))).
    rewrite <- (take_drop (2 ^ S d) l) at 3 4. rewrite (up_app (2 ^ d)) by lia.
    rewrite take_app_length', drop_app_length'; [done|..]; by rewrite (length_up (2 ^ d)) by lia.
Qed.

Lemma levels_last d l : length l = (2 ^ d)%nat → last (levels d l) = Some (top d l).
Proof.
  revert l. induction d as [|d IH]; intros l Hl; cbn [levels].
  - destruct l as [|x [|y l]]; simpl in Hl; [lia| |lia]. done.
  - rewrite last_app, IH; [by rewrite top_up|]. apply length_up. simpl in Hl. lia.
Qed.

Lemma top_padded d l : (length l ≤ 2 ^ d)%nat → top d (padded d l) = tree d l.
Proof.
  revert l. induction d as [|d IH]; intros l Hl.
  - destruct l as [|x [|y l]]; [done|done|]. simpl in Hl. lia.
  - rewrite padded_split by done. cbn [top tree].
    assert (length (take (2 ^ d) l) ≤ 2 ^ d)%nat by (rewrite length_take; lia).
    assert (length (drop (2 ^ d) l) ≤ 2 ^ d)%nat by (rewrite length_drop; simpl in Hl; lia).
    rewrite take_app_length', drop_app_length' by (by rewrite length_padded). by rewrite !IH.
Qed.
End levels.

Lemma tree_nil `{MerkleHasher} d : tree d [] = None.
Proof. induction d as [|d IH]; [done|]. cbn [tree]. rewrite take_nil. by rewrite IH. Qed.
Lemma tree_Some `{MerkleHasher} d l : l ≠ [] → is_Some (tree d l).
Proof.
  revert l. induction d as [|d IH]; intros l Hl; [by destruct l|]. cbn [tree].
  destruct (IH (take (2 ^ d) l)) as [h ->]; [|by eexists]. destruct l; [done|]. pose proof (Nat.pow_nonzero 2 d ltac:(lia)).
  by destruct (2 ^ d)%nat.
Qed.

(** ** The array computes the tree *)

Section array.
Context `{MerkleHasher} {E : Type}.

Lemma merkle_leaves_spec hashes i merkles :
  (i + length hashes ≤ length merkles)%nat →
  merkle_leaves (E := E) i hashes merkles = Ok (take i merkles ++ (Some <$> hashes) ++ drop (i + length hashes) merkles).
Proof.
  revert i merkles. induction hashes as [|h hashes IH]; intros i merkles Hl; cbn [merkle_leaves].
  { simpl. by rewrite Nat.add_0_r, take_drop. }
  simpl in Hl. unfold upd. rewrite (proj2 (Nat.ltb_lt _ _)) by lia. cbn [mbind res_mbind]. rewrite IH by (rewrite length_insert; lia).
  f_equal. rewrite fmap_cons. simpl length.
  rewrite (take_S_r _ i (Some h)) by (apply list_lookup_insert_eq; lia). rewrite take_insert_ge by lia.
  rewrite drop_insert_lt by lia. replace (i + S (length hashes))%nat with (S i + length hashes)%nat by lia. by rewrite <- app_assoc.
Qed.

Lemma merkle_loop_spec d l :
  length l = (2 ^ d)%nat →
  for_loop (E := E) (2 ^ d - 1) 0 (merkle_node (2 ^ d)) (l ++ replicate (2 ^ d - 1) None) = Ok (levels d l).
Proof.
  intros Hl. pose proof (length_levels d l Hl) as Hlen.
  destruct (for_loop_rule (E := E) (λ k (a : list (option Hash)), a = take (2 ^ d + k) (levels d l) ++ replicate (2 ^ d - 1 - k) None)
    (2 ^ d - 1) 0 (merkle_node (2 ^ d)) (l ++ replicate (2 ^ d - 1) None)) as (a & Ha & ->).
  - rewrite Nat.add_0_r, Nat.sub_0_r. f_equal. destruct d; cbn [levels]; [by rewrite take_ge by lia|]. by rewrite take_app_length'.
  - intros k a Hk ->. destruct (levels_node d l k Hl) as (x & y & Hx & Hy & Hn); [lia|].
    assert (∀ (j : nat) z, (j < 2 ^ d + k)%nat → levels d l !! j = Some z →
      (take (2 ^ d + k) (levels d l) ++ replicate (2 ^ d - 1 - k) None) !! j = Some z) as Hread.
    { intros j z Hj Hz. apply lookup_app_l_Some. by rewrite lookup_take_lt. }
    unfold merkle_node, idx. rewrite (Hread (2 * k)%nat x ltac:(lia) Hx). cbn [unwrap mbind res_mbind].
    assert (∀ z, upd (E := E) (take (2 ^ d + k) (levels d l) ++ replicate (2 ^ d - 1 - k) None) (2 ^ d + k) z =
      Ok (take (2 ^ d + k) (levels d l) ++ z :: replicate (2 ^ d - 1 - S k) None)) as Hupd.
    { intros z. unfold upd. rewrite length_app, length_take, length_replicate, (proj2 (Nat.ltb_lt _ _)) by lia. f_equal.
      rewrite insert_app_r_alt by (rewrite length_take; lia). rewrite length_take. f_equal.
      replace (2 ^ d + k - (2 ^ d + k) `min` length (levels d l))%nat with 0%nat by lia.
      by replace (2 ^ d - 1 - k)%nat with (S (2 ^ d - 1 - S k)) by lia. }
    assert (∀ z, z = node x y → take (2 ^ d + k) (levels d l) ++ z :: replicate (2 ^ d - 1 - S k) None =
      take (2 ^ d + S k) (levels d l) ++ replicate (2 ^ d - 1 - S k) None) as Hstep.
    { intros z ->. rewrite Nat.add_succ_r, (take_S_r _ _ _ Hn). by rewrite <- app_assoc. }
    destruct x as [x|].
    + rewrite (Hread (2 * k + 1)%nat y ltac:(lia) Hy). cbn [unwrap mbind res_mbind]. rewrite Hupd. eexists. split; [done|]. by apply Hstep.
    + rewrite Hupd. eexists. split; [done|]. by apply Hstep.
  - rewrite Ha. f_equal. rewrite take_ge by lia. replace (2 ^ d - 1 - (0 + (2 ^ d - 1)))%nat with 0%nat by lia. by rewrite app_nil_r.
Qed.

Lemma log2_up_bound n : (0 < n)%nat → (n ≤ 2 ^ Nat.log2_up n)%nat.
Proof. intros Hn. destruct (decide (n = 1)%nat) as [->|]; [done|]. apply Nat.log2_up_spec. lia. Qed.

Lemma calc_merkle_root_spec l : calc_merkle_root_with_hasher (E := E) l = Ok (padded_root l).
Proof.
  destruct l as [|a [|b l]]; [done|done|]. unfold calc_merkle_root_with_hasher, next_power_of_two, padded_root.
  set (ls := a :: b :: l). set (d := Nat.log2_up (length ls)). pose proof (log2_up_bound (length ls) ltac:(simpl; lia)) as Hb. fold d in Hb.
  rewrite merkle_leaves_spec by (rewrite length_replicate; lia). cbn [mbind res_mbind]. rewrite take_0, drop_replicate, app_nil_l.
  replace (2 * 2 ^ d - 1 - (0 + length ls))%nat with ((2 ^ d - length ls) + (2 ^ d - 1))%nat by lia.
  rewrite replicate_add, app_assoc. change ((Some <$> ls) ++ replicate (2 ^ d - length ls) None) with (padded d ls).
  rewrite merkle_loop_spec by (by apply length_padded). cbn [mbind res_mbind]. rewrite levels_last by (by apply length_padded).
  cbn [unwrap mbind res_mbind]. rewrite top_padded by done. by destruct (tree_Some d ls) as [h ->].
Qed.
End array.

(** ** The builder computes the tree *)

Section streaming.
Context `{MerkleHasher} {E : Type}.

(** The stack of some leaves: full subtrees, smaller ones nearer the top. *)
Inductive stack_of : list (nat * Hash) → list Hash → Prop :=
| stack_empty : stack_of [] []
| stack_push st l level block hash :
    stack_of st l → Forall (λ x, (level < x.1)%nat) st → length block = (2 ^ level)%nat → tree level block = Some hash →
    stack_of ((level, hash) :: st) (l ++ block).

Lemma tree_merge d a b x y :
  length a = (2 ^ d)%nat → tree d a = Some x → tree d b = Some y → tree (S d) (a ++ b) = Some (merkle_hash_with_hasher x y).
Proof. intros Ha Hx Hy. cbn [tree]. by rewrite take_app_length', drop_app_length', Hx, Hy. Qed.

Lemma collapse_spec st l level block cur :
  stack_of st l → Forall (λ x, (level ≤ x.1)%nat) st → length block = (2 ^ level)%nat → tree level block = Some cur →
  let '(st', n) := collapse st level cur in stack_of (n :: st') (l ++ block) ∧ ∃ k, st = k ++ st'.
Proof.
  intros Hst. revert level block cur. induction Hst as [|st l lv blk hash Hst IH Hlv Hlen Htree]; intros level block cur Hle Hb Ht; cbn [collapse].
  { split; [|by exists []]. apply (stack_push [] []); [constructor|constructor|done|done]. }
  apply Forall_cons in Hle as [Hle Hles]. cbn [fst] in Hle.
  destruct (Nat.eqb_spec lv level) as [->|Hne]; cbn [negb].
  - specialize (IH (S level) (blk ++ block) (merkle_hash_with_hasher hash cur)).
    destruct (collapse st (S level) (merkle_hash_with_hasher hash cur)) as [st' n].
    destruct IH as [Hst' [k ->]]; [done|rewrite length_app, Hlen, Hb; simpl; lia|by apply tree_merge|].
    rewrite <- app_assoc. split; [done|]. by exists ((level, hash) :: k).
  - split; [|by exists []]. apply stack_push; [by apply stack_push| |done|done]. constructor; [simpl; lia|].
    eapply Forall_impl; [exact Hlv|]. intros x; simpl; lia.
Qed.

(** The subtrees are a binary decomposition of the number of leaves, so that their number is
    its number of bits. *)
Lemma stack_size st l : stack_of st l → ∀ k, Forall (λ x, (k ≤ x.1)%nat) st → (2 ^ k * (2 ^ length st - 1) ≤ length l)%nat.
Proof.
  induction 1 as [|st l lv blk hash Hst IH Hlv Hlen _]; intros k Hk; [simpl; lia|].
  apply Forall_cons in Hk as [Hk _]. cbn [fst] in Hk. rewrite length_app, Hlen.
  specialize (IH (S lv) ltac:(eapply Forall_impl; [exact Hlv|]; intros x; simpl; lia)).
  assert (2 ^ k ≤ 2 ^ lv)%nat as Hp by (apply Nat.pow_le_mono_r; lia). cbn [length Nat.pow] in *.
  pose proof (Nat.pow_nonzero 2 (length st) ltac:(lia)). nia.
Qed.

Lemma add_leaf_spec b l h :
  stack_of (stack b) l → leaf_count b = Z.of_nat (length l) → leaf_count b + 1 < 2 ^ 32 →
  ∃ b', add_leaf (E := E) h b = Ok b' ∧ stack_of (stack b') (l ++ [h]) ∧ leaf_count b' = Z.of_nat (length (l ++ [h])).
Proof.
  intros Hst Hn Hb. unfold add_leaf.
  pose proof (collapse_spec (stack b) l 0 [h] h Hst ltac:(apply Forall_true; intros; lia) eq_refl eq_refl) as Hc.
  destruct (collapse (stack b) 0 h) as [st n]. destruct Hc as [Hst' [k Hk]].
  assert (length st < 32)%nat as Hlen.
  { pose proof (stack_size _ _ Hst' 0 ltac:(apply Forall_true; intros; lia)) as Hs. rewrite length_app in Hs. cbn [length Nat.pow] in Hs.
    destruct (decide (length st < 32)%nat) as [|Hge]; [done|exfalso].
    assert (2 ^ 32 ≤ 2 ^ length st)%nat as Hp by (apply Nat.pow_le_mono_r; lia).
    apply inj_le in Hp. rewrite Nat2Z.inj_pow in Hp. lia. }
  unfold assert_p. rewrite (proj2 (Nat.ltb_lt _ _) Hlen). cbn [mbind res_mbind].
  rewrite (proj2 (add_p_Ok 32 _ _ _) (conj eq_refl Hb)). cbn [mbind res_mbind]. eexists. split; [done|]. split; [done|].
  cbn [leaf_count]. rewrite length_app. simpl. lia.
Qed.

Lemma add_leaves_spec l b l0 :
  stack_of (stack b) l0 → leaf_count b = Z.of_nat (length l0) → Z.of_nat (length (l0 ++ l)) < 2 ^ 32 →
  ∃ b', add_leaves (E := E) l b = Ok b' ∧ stack_of (stack b') (l0 ++ l) ∧ leaf_count b' = Z.of_nat (length (l0 ++ l)).
Proof.
  revert b l0. induction l as [|h l IH]; intros b l0 Hst Hn Hb; cbn [add_leaves].
  { exists b. by rewrite app_nil_r. }
  rewrite length_app in Hb. simpl in Hb. destruct (add_leaf_spec b l0 h Hst Hn ltac:(lia)) as (b1 & -> & Hst1 & Hn1). cbn [mbind res_mbind].
  destruct (IH b1 (l0 ++ [h]) Hst1 Hn1) as (b' & -> & Hst' & Hn').
  { rewrite !length_app. simpl. lia. }
  rewrite <- app_assoc in Hst', Hn'. by exists b'.
Qed.

(** Padding goes up along the left edge. *)
Lemma pad_to_spec k d l h : (length l ≤ 2 ^ d)%nat → tree d l = Some h → tree (k + d) l = Some (pad_to (k + d) d h).
Proof.
  intros Hl Ht. unfold pad_to. replace (k + d - d)%nat with k by lia. induction k as [|k IH]; [done|].
  cbn [Nat.add tree Nat.iter]. assert (2 ^ d ≤ 2 ^ (k + d))%nat by (apply Nat.pow_le_mono_r; lia).
  rewrite take_ge, drop_ge by lia. by rewrite IH, tree_nil.
Qed.

Lemma merge_stack_spec st l0 level l h :
  stack_of st l0 → Forall (λ x, (level ≤ x.1)%nat) st → (2 ^ level < 2 * length l)%nat → (length l ≤ 2 ^ level)%nat → tree level l = Some h →
  tree (Nat.log2_up (length (l0 ++ l))) (l0 ++ l) = Some (merge_stack st level h).
Proof.
  intros Hst. revert level l h. induction Hst as [|st l0 lv blk hash Hst IH Hlv Hlen Htree]; intros level l h Hle Hlo Hhi Ht; cbn [merge_stack].
  { cbn [app]. destruct level as [|n].
    - replace (length l) with 1%nat by (simpl in *; lia). done.
    - rewrite (Nat.log2_up_unique (length l) (S n)); [done|lia|]. simpl in *. lia. }
  apply Forall_cons in Hle as [Hle _]. cbn [fst] in Hle. rewrite <- app_assoc.
  assert (2 ^ level ≤ 2 ^ lv)%nat as Hp by (apply Nat.pow_le_mono_r; lia).
  replace (Nat.max level lv) with lv by lia. apply IH.
  - eapply Forall_impl; [exact Hlv|]. intros x; simpl; lia.
  - rewrite length_app, Hlen. simpl. pose proof (Nat.pow_nonzero 2 level ltac:(lia)). lia.
  - rewrite length_app, Hlen. simpl. lia.
  - apply tree_merge; [done|done|]. replace lv with ((lv - level) + level)%nat by lia. by apply pad_to_spec.
Qed.

Lemma stack_nil st : stack_of st [] → st = [].
Proof.
  remember [] as l eqn:Hl. destruct 1 as [|st l lv blk hash _ _ Hlen _]; [done|]. apply (f_equal length) in Hl.
  rewrite length_app in Hl. pose proof (Nat.pow_nonzero 2 lv ltac:(lia)). simpl in Hl. lia.
Qed.

Lemma streaming_finalize_spec b l :
  stack_of (stack b) l → leaf_count b = Z.of_nat (length l) → streaming_finalize (E := E) b = Ok (padded_root l).
Proof.
  intros Hst Hn. unfold streaming_finalize. rewrite Hn. destruct Hst as [|st l lv blk hash Hst Hlv Hlen Htree]; [done|].
  pose proof (Nat.pow_nonzero 2 lv ltac:(lia)) as Hpos. unfold padded_root.
  rewrite (merge_stack_spec st l lv blk hash); [|done|eapply Forall_impl; [exact Hlv|]; intros x; simpl; lia|lia|lia|done].
  rewrite (proj2 (Z.eqb_neq _ _)) by (rewrite length_app; lia).
  destruct (Z.eqb_spec (Z.of_nat (length (l ++ blk))) 1) as [H1'|]; [|done]. rewrite length_app in H1'.
  assert (l = []) as -> by (apply nil_length_inv; lia). by rewrite (stack_nil st Hst).
Qed.
End streaming.

(** The array and the builder compute the same root without a panic, for every number
    of leaves below 2^32: that of the tree in which the leaves are padded on the right to
    a power of two. *)
Theorem merkle_streaming_agrees `{MerkleHasher} {E} (l : list Hash) :
  Z.of_nat (length l) < 2 ^ 32 →
  calc_merkle_root_with_hasher (E := E) l = Ok (padded_root l) ∧
  (b ← add_leaves l streaming_new; streaming_finalize b) = Ok (E := E) (padded_root l).
Proof.
  intros Hl. split; [apply calc_merkle_root_spec|].
  destruct (add_leaves_spec (E := E) l streaming_new [] stack_empty eq_refl Hl) as (b & -> & Hst & Hn). by apply streaming_finalize_spec.
Qed.

(** ** Binding *)

Class MerkleHasherLaws `{MerkleHasher} : Prop := { merkle_digest_length m : length (merkle_digest m) = 32%nat }.

Section binding.
Context `{MerkleHasherLaws}.

(** The messages that are hashed for the inner nodes of a tree of depth [d]. *)
Fixpoint tree_messages (d : nat) (l : list Hash) : list bytes :=
  match d with
  | O => []
  | S d =>
      let left := take (2 ^ d) l in let right := drop (2 ^ d) l in
      option_list ((λ x, x ++ default ZERO_HASH (tree d right)) <$> tree d left) ++ tree_messages d left ++ tree_messages d right
  end.
Definition root_messages (l : list Hash) : list bytes := tree_messages (Nat.log2_up (length l)) l.

(** A leaf that is taken for one of the nodes of [L], or for one that is missing. *)
Definition confused (L : list bytes) (l : list Hash) : Prop := ∃ h, h ∈ l ∧ (h = ZERO_HASH ∨ ∃ m, m ∈ L ∧ h = merkle_digest m).
Definition ambiguous (L : list bytes) (l l' : list Hash) : Prop := collides merkle_digest L ∨ confused L l ∨ confused L l'.
Abbreviation hashes := (Forall (λ h : Hash, length h = 32%nat)).

Lemma confused_sub L l l' : l ⊆ l' → confused L l → confused L l'.
Proof. intros Hs (h & Hh & Hc). exists h. split; [by apply Hs|done]. Qed.
Lemma ambiguous_sub L k k' l l' : k ⊆ l → k' ⊆ l' → ambiguous L k k' → ambiguous L l l'.
Proof. unfold ambiguous. intros H1' H2' [?|[?|?]]; eauto using confused_sub. Qed.

Lemma messages_sub d l L :
  tree_messages (S d) l ⊆ L →
  (∀ x, tree d (take (2 ^ d) l) = Some x → x ++ default ZERO_HASH (tree d (drop (2 ^ d) l)) ∈ L) ∧
  tree_messages d (take (2 ^ d) l) ⊆ L ∧ tree_messages d (drop (2 ^ d) l) ⊆ L.
Proof.
  intros Hs. cbn [tree_messages] in Hs. apply list_subseteq_app_iff_l in Hs as [Hn [Hl Hr]%list_subseteq_app_iff_l]. split_and!; [|done..].
  intros x Hx. rewrite Hx in Hn. apply Hn, list_elem_of_here.
Qed.

Lemma subset_take {A} n (l : list A) : take n l ⊆ l.
Proof. intros x Hx. rewrite <- (take_drop n l). apply elem_of_app. by left. Qed.
Lemma subset_drop {A} n (l : list A) : drop n l ⊆ l.
Proof. intros x Hx. rewrite <- (take_drop n l). apply elem_of_app. by right. Qed.

Lemma tree_length d l h : hashes l → tree d l = Some h → length h = 32%nat.
Proof.
  intros Hl Ht. destruct d as [|d].
  - destruct l as [|x l]; [done|]. injection Ht as ->. by apply Forall_cons in Hl as [Hx _].
  - cbn [tree node] in Ht. destruct (tree d (take (2 ^ d) l)) as [x|]; [|done]. injection Ht as <-. apply merkle_digest_length.
Qed.
Lemma tree_digest L d l h : tree_messages (S d) l ⊆ L → tree (S d) l = Some h → ∃ m, m ∈ L ∧ h = merkle_digest m.
Proof.
  intros [Hn _]%messages_sub. cbn [tree node]. destruct (tree d (take (2 ^ d) l)) as [x|]; [|done]. intros [= <-].
  eexists. split; [by apply Hn|done].
Qed.
Lemma tree_zero L d l : tree_messages d l ⊆ L → tree d l = Some ZERO_HASH → collides merkle_digest L ∨ confused L l.
Proof.
  destruct d as [|d]; intros Hs Ht.
  - right. exists ZERO_HASH. split; [|by left]. destruct l; [done|]. injection Ht as ->. apply list_elem_of_here.
  - left. apply (tree_digest L) in Ht as (m & Hm & Hz); [|done]. by apply (collides_zero _ _ m).
Qed.

Lemma branch_inj L a b a' b' :
  a ++ b ∈ L → a' ++ b' ∈ L → length a = 32%nat → length a' = 32%nat →
  merkle_hash_with_hasher a b = merkle_hash_with_hasher a' b' → collides merkle_digest L ∨ (a = a' ∧ b = b').
Proof.
  intros Hm Hm' Ha Ha' Heq. destruct (collides_eq merkle_digest L _ _ Hm Hm' Heq) as [?|Hc]; [by left|right].
  apply app_inj_1 in Hc; [done|congruence].
Qed.

(** A leaf on one side against a node on the other. *)
Lemma leaf_node L d l l' h : tree_messages (S d) l' ⊆ L → tree 0 l = Some h → tree (S d) l' = Some h → confused L l.
Proof.
  intros Hs Hl (m & Hm & ->)%(tree_digest L); [|done]. exists (merkle_digest m). split; [|right; by exists m].
  destruct l; [done|]. injection Hl as ->. apply list_elem_of_here.
Qed.

Lemma tree_inj L d d' l l' h :
  tree_messages d l ⊆ L → tree_messages d' l' ⊆ L → hashes l → hashes l' → (length l ≤ 2 ^ d)%nat → (length l' ≤ 2 ^ d')%nat →
  tree d l = Some h → tree d' l' = Some h → ambiguous L l l' ∨ (d = d' ∧ l = l').
Proof.
  revert d' l l' h. induction d as [|d IH]; intros [|d'] l l' h HL HL' Hl Hl' Hn Hn' Ht Ht'.
  - right. destruct l as [|x [|y l]], l' as [|x' [|y' l']]; simpl in *; try done; try lia. by simplify_eq.
  - left. right. left. by eapply leaf_node.
  - left. right. right. by eapply leaf_node.
  - apply messages_sub in HL as (HLn & HLl & HLr), HL' as (HLn' & HLl' & HLr'). cbn [tree node] in Ht, Ht'. simpl in Hn, Hn'.
    destruct (tree d (take (2 ^ d) l)) as [x|] eqn:Hx; [|done]. destruct (tree d' (take (2 ^ d') l')) as [x'|] eqn:Hx'; [|done].
    injection Ht as <-. injection Ht' as Heq.
    assert (∀ k m, hashes m → hashes (take k m)) as Ft by (intros; by apply Forall_take).
    assert (∀ k m, hashes m → hashes (drop k m)) as Fd by (intros; by apply Forall_drop).
    pose proof (tree_length _ _ _ (Ft _ _ Hl) Hx) as Hlx. pose proof (tree_length _ _ _ (Ft _ _ Hl') Hx') as Hlx'.
    destruct (branch_inj L _ _ _ _ (HLn' _ eq_refl) (HLn _ eq_refl) Hlx' Hlx Heq) as [?|[<- Hright]]; [by left; left|].
    destruct (IH d' (take (2 ^ d) l) (take (2 ^ d') l') x') as [Ha|[<- Htake]];
      [done|done|by apply Ft|by apply Ft|rewrite length_take; lia..|done|done|left; eapply ambiguous_sub, Ha; apply subset_take|].
    destruct (tree d (drop (2 ^ d) l)) as [y|] eqn:Hy, (tree d (drop (2 ^ d) l')) as [y'|] eqn:Hy'; cbn [default from_option id] in Hright.
    + destruct (IH d (drop (2 ^ d) l) (drop (2 ^ d) l') y) as [Ha|[_ Hdrop]];
        [done|done|by apply Fd|by apply Fd|rewrite length_drop; lia..|done|congruence|left; eapply ambiguous_sub, Ha; apply subset_drop|].
      right. split; [done|]. by rewrite <- (take_drop (2 ^ d) l), <- (take_drop (2 ^ d) l'), Htake, Hdrop.
    + subst y. apply (tree_zero _ _ _ HLr) in Hy as [?|Hc]; [by left; left|]. left. right. left. eapply confused_sub, Hc. apply subset_drop.
    + subst y'. apply (tree_zero _ _ _ HLr') in Hy' as [?|Hc]; [by left; left|]. left. right. right. eapply confused_sub, Hc. apply subset_drop.
    + assert (∀ k : list Hash, tree d k = None → k = []) as Hnil.
      { intros k Hk. destruct k as [|z k]; [done|]. destruct (tree_Some d (z :: k)) as [? ?]; [done|congruence]. }
      right. split; [done|]. by rewrite <- (take_drop (2 ^ d) l), <- (take_drop (2 ^ d) l'), Htake, (Hnil _ Hy), (Hnil _ Hy').
Qed.

Lemma padded_root_inj l l' :
  hashes l → hashes l' → padded_root l = padded_root l' → ambiguous (root_messages l ++ root_messages l') l l' ∨ l = l'.
Proof.
  intros Hl Hl' Heq. assert (root_messages l ⊆ root_messages l ++ root_messages l') as HL by set_solver.
  assert (root_messages l' ⊆ root_messages l ++ root_messages l') as HL' by set_solver. unfold padded_root in Heq.
  assert (∀ k, k ≠ [] → ∃ h, tree (Nat.log2_up (length k)) k = Some h ∧ (length k ≤ 2 ^ Nat.log2_up (length k))%nat) as Hroot.
  { intros k Hk. destruct (tree_Some (Nat.log2_up (length k)) k Hk) as [h Hh]. exists h. split; [done|].
    apply log2_up_bound. destruct k; [done|]. simpl. lia. }
  destruct (decide (l = [])) as [->|Hne], (decide (l' = [])) as [->|Hne']; [by right|left..|].
  - destruct (Hroot l' Hne') as (h & Hh & _). rewrite Hh in Heq. simpl in Heq. subst h. apply (tree_zero _ _ _ HL') in Hh as [?|?]; [by left|by right; right].
  - destruct (Hroot l Hne) as (h & Hh & _). rewrite Hh in Heq. simpl in Heq. subst h. apply (tree_zero _ _ _ HL) in Hh as [?|?]; [by left|by right; left].
  - destruct (Hroot l Hne) as (h & Hh & Hb). destruct (Hroot l' Hne') as (h' & Hh' & Hb'). rewrite Hh, Hh' in Heq.
    simpl in Heq. subst h'. destruct (tree_inj _ _ _ _ _ h HL HL' Hl Hl' Hb Hb' Hh Hh') as [?|[_ ?]]; [by left|by right].
Qed.
End binding.

Lemma merkle_streaming_agrees_witness :
  @calc_merkle_root_with_hasher (resize 32 0) unit [[1]; [2]; [3]] = Ok (@padded_root (resize 32 0) [[1]; [2]; [3]]).
Proof. apply (@merkle_streaming_agrees (resize 32 0) unit [[1]; [2]; [3]]). done. Defined.
