(* ===== verification/TxHash.v ===== *)
(** * Transaction identifiers and hashes (consensus/core/src/hashing/tx.rs, consensus/core/src/merkle.rs)

    The bytes that are hashed for the identifier and for the hash of a transaction, and
    the hash Merkle root over the transactions of a block.  The hash functions, one per
    domain, are a class. *)

From S2P Require Import Prelude Bytes Transaction Sighash Mass Merkle.

Inductive HashDomain := TransactionHash | TransactionID | TransactionRest | TransactionV1Id | PayloadDigest | MerkleBranchHash | BlockHash.

Class KaspaHashes := kaspa_digest : HashDomain → bytes → Hash.

Record TxEncodingFlags := mkEncoding {
  EXCLUDE_SIGNATURE_SCRIPT : bool;
  EXCLUDE_MASS_COMMIT : bool;
  EXCLUDE_PAYLOAD : bool;
}.
Definition FULL : TxEncodingFlags := mkEncoding false false false.

Definition version_expects_sig_op_count_field (version : Z) : bool := negb (version_expects_compute_budget_field version).

Definition write_outpoint (h : bytes) (o : TransactionOutpoint) : bytes :=
  (h ++ transaction_id o) ++ le_bytes 4 (outpoint_index o).

Definition write_input (h : bytes) (i : TransactionInput) (version : Z) (fl : TxEncodingFlags) : bytes :=
  let h := write_outpoint h (previous_outpoint i) in
  let h :=
    if negb (EXCLUDE_SIGNATURE_SCRIPT fl) then
      let h := write_var_bytes h (signature_script i) in
      if version_expects_sig_op_count_field version then h ++ [default 0 (sig_op_count (compute_commit i))] else h
    else write_var_bytes h [] in
  let h := h ++ le_bytes 8 (sequence i) in
  if negb (EXCLUDE_MASS_COMMIT fl) && version_expects_compute_budget_field version
  then write_u16 h (default 0 (compute_budget (compute_commit i))) else h.

Definition write_output (h : bytes) (o : TransactionOutput) (version : Z) : bytes :=
  let h := h ++ le_bytes 8 (out_value o) ++ le_bytes 2 (spk_version (out_spk o)) in
  let h := write_var_bytes h (spk_script (out_spk o)) in
  if 1 <=? version then
    let h := write_bool h (is_some (out_covenant o)) in
    match out_covenant o with
    | Some c => write_u16 h (authorizing_input c) ++ binding_covenant_id c
    | None => h
    end
  else h.

Definition write_transaction (h : bytes) (t : Transaction) (fl : TxEncodingFlags) : bytes :=
  let h := write_len (h ++ le_bytes 2 (version t)) (length (inputs t)) in
  let h := foldl (λ h i, write_input h i (version t) fl) h (inputs t) in
  let h := write_len h (length (outputs t)) in
  let h := foldl (λ h o, write_output h o (version t)) h (outputs t) in
  let h := h ++ le_bytes 8 (lock_time t) ++ subnetwork_id t ++ le_bytes 8 (gas t) in
  let h := if negb (EXCLUDE_PAYLOAD fl) then write_var_bytes h (payload t) else write_var_bytes h [] in
  if negb (EXCLUDE_MASS_COMMIT fl) then
    let mass := storage_mass t in
    if version t <? 1 then if 0 <? mass then write_u64 h mass else h
    else write_u64 h mass
  else h.

Definition write_transaction_v0_for_transaction_id (h : bytes) (t : Transaction) : bytes :=
  write_transaction h t (mkEncoding true true false).
Definition write_rest_preimage (h : bytes) (t : Transaction) : bytes := write_transaction h t (mkEncoding true true true).

Definition ZERO_PAYLOAD_DIGEST : Hash :=
  [156; 12; 162; 172; 180; 94; 146; 255; 230; 206; 180; 174; 41; 24; 139; 53; 200; 45; 150; 118; 205; 211; 206; 6; 127; 214; 204;
   195; 10; 156; 74; 56].

Section hash.
Context `{KaspaHashes}.

Definition tx_hash (t : Transaction) : Hash := kaspa_digest TransactionHash (write_transaction [] t FULL).
Definition hash_pre_crescendo (t : Transaction) : Hash :=
  kaspa_digest TransactionHash (write_transaction [] t (mkEncoding false true false)).

Definition id_v0 (t : Transaction) : Hash := kaspa_digest TransactionID (write_transaction_v0_for_transaction_id [] t).
Definition payload_digest (payload : bytes) : Hash :=
  match payload with [] => ZERO_PAYLOAD_DIGEST | _ => kaspa_digest PayloadDigest payload end.
Definition id_v1 (t : Transaction) : Hash :=
  let payload_digest := payload_digest (payload t) in
  let rest_digest := kaspa_digest TransactionRest (write_rest_preimage [] t) in
  kaspa_digest TransactionV1Id (payload_digest ++ rest_digest).
Definition tx_id (t : Transaction) : Hash := if version t =? 0 then id_v0 t else id_v1 t.

(** Preimages for callers, which assert the version. *)
Definition transaction_v0_id_preimage {E} (t : Transaction) : res E bytes :=
  _ ← assert_p (version t =? 0); Ok (write_transaction_v0_for_transaction_id [] t).
Definition transaction_v1_rest_preimage {E} (t : Transaction) : res E bytes :=
  _ ← assert_p (1 <=? version t); Ok (write_rest_preimage [] t).
Definition v1_rest_digest {E} (t : Transaction) : res E Hash :=
  _ ← assert_p (1 <=? version t); Ok (kaspa_digest TransactionRest (write_rest_preimage [] t)).

#[export] Instance merkle_branch : MerkleHasher := kaspa_digest MerkleBranchHash.

Definition calc_hash_merkle_root {E} (txs : list Transaction) : res E Hash := calc_merkle_root_with_hasher (tx_hash <$> txs).
Definition calc_hash_merkle_root_pre_crescendo {E} (txs : list Transaction) : res E Hash :=
  calc_merkle_root_with_hasher (hash_pre_crescendo <$> txs).
End hash.

(** ** What the encoding determines *)

(** A list of known length in front of a rest. *)
Lemma prefix_code_list {A K} (P : A → Prop) (enc : A → bytes) (key : A → K) l l' k k' :
  prefix_code P enc key → length l = length l' → Forall P l → Forall P l' →
  concat (enc <$> l) ++ k = concat (enc <$> l') ++ k' → key <$> l = key <$> l' ∧ k = k'.
Proof.
  intros Hpc. revert l'. induction l as [|x l IH]; intros [|y l'] Hlen Hl Hl'; csimpl; intros Heq; [done|done|done|].
  apply Forall_cons in Hl as [Hx Hl]. apply Forall_cons in Hl' as [Hy Hl']. rewrite <- !app_assoc in Heq.
  destruct (Hpc _ _ _ _ Hx Hy Heq) as [-> Hk]. injection Hlen as Hlen. by destruct (IH l' Hlen Hl Hl' Hk) as [-> ->].
Qed.

Definition enc_input (v : Z) (fl : TxEncodingFlags) (i : TransactionInput) : bytes :=
  enc_outpoint (previous_outpoint i) ++
  (if EXCLUDE_SIGNATURE_SCRIPT fl then le_bytes 8 0
   else le_bytes 8 (Z.of_nat (length (signature_script i))) ++ signature_script i ++
        (if 1 <=? v then [] else [default 0 (sig_op_count (compute_commit i))])) ++
  le_bytes 8 (sequence i) ++
  (if EXCLUDE_MASS_COMMIT fl then [] else if 1 <=? v then le_bytes 2 (default 0 (compute_budget (compute_commit i))) else []).

(** What an input's encoding determines. *)
Definition input_key (v : Z) (fl : TxEncodingFlags) (i : TransactionInput) : TransactionOutpoint * option (bytes * option Z) * Z * option Z :=
  (previous_outpoint i,
   if EXCLUDE_SIGNATURE_SCRIPT fl then None
   else Some (signature_script i, if 1 <=? v then None else Some (default 0 (sig_op_count (compute_commit i)))),
   sequence i,
   if EXCLUDE_MASS_COMMIT fl then None else if 1 <=? v then Some (default 0 (compute_budget (compute_commit i))) else None).

Lemma commit_default_range c : commit_wf c → in_u 8 (default 0 (sig_op_count c)) ∧ in_u 16 (default 0 (compute_budget c)).
Proof. destruct c; simpl; unfold in_u; lia. Qed.

Lemma input_prefix v fl : prefix_code input_wf (enc_input v fl) (input_key v fl).
Proof.
  intros x y k k' (Ho & _ & Hs & Hq & Hc) (Ho' & _ & Hs' & Hq' & Hc') Heq. unfold enc_input, input_key in *.
  apply commit_default_range in Hc as [Hc8 Hc16]. apply commit_default_range in Hc' as [Hc8' Hc16'].
  rewrite <- !app_assoc in Heq. apply outpoint_prefix in Heq as [Hout Heq]; [|done..]. unfold id in Hout. rewrite Hout.
  assert (∃ r r', le_bytes 8 (sequence x) ++ (if EXCLUDE_MASS_COMMIT fl then [] else if 1 <=? v then le_bytes 2 (default 0 (compute_budget (compute_commit x))) else []) ++ k = r ∧
    le_bytes 8 (sequence y) ++ (if EXCLUDE_MASS_COMMIT fl then [] else if 1 <=? v then le_bytes 2 (default 0 (compute_budget (compute_commit y))) else []) ++ k' = r') as (r & r' & Hr & Hr') by eauto.
  rewrite Hr, Hr' in Heq.
  assert ((if EXCLUDE_SIGNATURE_SCRIPT fl then None else Some (signature_script x, if 1 <=? v then None else Some (default 0 (sig_op_count (compute_commit x))))) =
    (if EXCLUDE_SIGNATURE_SCRIPT fl then None else Some (signature_script y, if 1 <=? v then None else Some (default 0 (sig_op_count (compute_commit y))))) ∧ r = r') as [-> Hrr].
  { destruct (EXCLUDE_SIGNATURE_SCRIPT fl).
    - by apply fixed_prefix in Heq as [_ ->].
    - rewrite <- !app_assoc in Heq. apply var_prefix in Heq as [-> Heq]; [|lia..].
      destruct (1 <=? v); [done|]. by injection Heq as -> ->. }
  subst r r'. apply int_prefix in Hrr as [-> Hrr]; [|done..].
  destruct (EXCLUDE_MASS_COMMIT fl); [done|]. destruct (1 <=? v); [|done]. by apply int_prefix in Hrr as [-> ->].
Qed.

Definition enc_mass (v : Z) (fl : TxEncodingFlags) (mass : Z) : bytes :=
  if EXCLUDE_MASS_COMMIT fl then [] else if v <? 1 then if 0 <? mass then le_bytes 8 mass else [] else le_bytes 8 mass.

Definition enc_payload (fl : TxEncodingFlags) (pl : bytes) : bytes :=
  let pl := if EXCLUDE_PAYLOAD fl then [] else pl in le_bytes 8 (Z.of_nat (length pl)) ++ pl.

Lemma write_transaction_enc t fl :
  write_transaction [] t fl =
  le_bytes 2 (version t) ++ le_bytes 8 (Z.of_nat (length (inputs t))) ++ concat (enc_input (version t) fl <$> inputs t) ++
  le_bytes 8 (Z.of_nat (length (outputs t))) ++ concat (enc_output (version t) <$> outputs t) ++
  le_bytes 8 (lock_time t) ++ subnetwork_id t ++ le_bytes 8 (gas t) ++ enc_payload fl (payload t) ++ enc_mass (version t) fl (storage_mass t).
Proof.
  unfold write_transaction.
  rewrite (foldl_concat _ (enc_input (version t) fl)).
  2:{ intros h i. unfold write_input, enc_input, version_expects_sig_op_count_field, version_expects_compute_budget_field, write_outpoint, enc_outpoint,
        write_var_bytes, write_len, write_u16.
      destruct (EXCLUDE_SIGNATURE_SCRIPT fl), (EXCLUDE_MASS_COMMIT fl), (1 <=? version t); cbn [negb andb length]; by rewrite ?app_nil_r, <- !app_assoc. }
  rewrite (foldl_concat _ (enc_output (version t))).
  2:{ intros h o. unfold write_output, enc_output, enc_spk, enc_covenant, write_bool, write_u16, write_var_bytes, write_len.
      destruct (1 <=? version t), (out_covenant o); cbn [is_some]; by rewrite ?app_nil_r, <- !app_assoc. }
  unfold enc_payload, enc_mass, write_var_bytes, write_len, write_u64.
  destruct (EXCLUDE_PAYLOAD fl), (EXCLUDE_MASS_COMMIT fl), (version t <? 1), (0 <? storage_mass t); cbn [negb length]; by rewrite ?app_nil_r, <- ?app_assoc.
Qed.

(** What the encoding of a transaction determines. *)
Definition encoded_view (fl : TxEncodingFlags) (t : Transaction) :=
  (version t, input_key (version t) fl <$> inputs t, output_key (version t) <$> outputs t, lock_time t, subnetwork_id t, gas t,
   (if EXCLUDE_PAYLOAD fl then [] else payload t), (if EXCLUDE_MASS_COMMIT fl then None else Some (storage_mass t))).

(** The widths that [tx_wf] leaves out. *)
Definition hashable (t : Transaction) : Prop := tx_wf t ∧ in_u 64 (storage_mass t).

Lemma enc_mass_inj v fl m m' :
  in_u 64 m → in_u 64 m' → enc_mass v fl m = enc_mass v fl m' →
  (if EXCLUDE_MASS_COMMIT fl then None else Some m) = (if EXCLUDE_MASS_COMMIT fl then None else Some m').
Proof.
  unfold enc_mass, in_u. intros Hm Hm' Heq. destruct (EXCLUDE_MASS_COMMIT fl); [done|]. f_equal.
  assert (le_bytes 8 m = le_bytes 8 m' → m = m') as Hinj by (intros; by apply (le_bytes_inj 8)).
  destruct (v <? 1); [|by apply Hinj]. destruct (Z.ltb_spec 0 m), (Z.ltb_spec 0 m'); [by apply Hinj|..|lia];
    apply (f_equal length) in Heq; by rewrite length_le_bytes in Heq.
Qed.

Lemma write_transaction_inj fl t t' :
  hashable t → hashable t' → write_transaction [] t fl = write_transaction [] t' fl → encoded_view fl t = encoded_view fl t'.
Proof.
  intros [(Hv & Hi & Ho & Hl & [Hs _] & Hg & _ & Hp & Hni & Hno) Hm] [(Hv' & Hi' & Ho' & Hl' & [Hs' _] & Hg' & _ & Hp' & Hni' & Hno') Hm'].
  rewrite !write_transaction_enc. intros Heq. unfold encoded_view.
  apply int_prefix in Heq as [Hver Heq]; [|done..]. rewrite <- Hver in *.
  apply int_prefix in Heq as [Hlen Heq]; [|unfold in_u; lia..]. apply Nat2Z.inj in Hlen.
  apply (prefix_code_list _ _ _ _ _ _ _ (input_prefix (version t) fl) Hlen Hi Hi') in Heq as [-> Heq].
  apply int_prefix in Heq as [Hlen' Heq]; [|unfold in_u; lia..]. apply Nat2Z.inj in Hlen'.
  apply (prefix_code_list _ _ _ _ _ _ _ (output_prefix (version t)) Hlen' Ho Ho') in Heq as [-> Heq].
  apply int_prefix in Heq as [-> Heq]; [|done..]. apply fixed_prefix in Heq as [-> Heq]; [|congruence].
  apply int_prefix in Heq as [-> Heq]; [|done..]. unfold enc_payload in Heq. rewrite <- !app_assoc in Heq.
  apply var_prefix in Heq as [-> Heq]; [|destruct (EXCLUDE_PAYLOAD fl); simpl; lia..].
  by rewrite (enc_mass_inj _ _ _ _ Hm Hm' Heq).
Qed.

(** ** Binding *)

(** What is relied on: digests are 32 bytes, and the constant is the digest of no payload. *)
Class KaspaHashesLaws `{KaspaHashes} : Prop := {
  kaspa_digest_length d m : length (kaspa_digest d m) = 32%nat;
  zero_payload_digest : kaspa_digest PayloadDigest [] = ZERO_PAYLOAD_DIGEST;
}.

Section binding.
Context `{KaspaHashesLaws}.

#[local] Instance domain_eq_dec : EqDecision HashDomain.
Proof. solve_decision. Defined.

(** Two of the messages [L] have one digest, in one domain or in two, or one has the zero hash. *)
Definition domain_digest (x : HashDomain * bytes) : Hash := kaspa_digest x.1 x.2.
Definition kaspa_collision (L : list (HashDomain * bytes)) : Prop := collides domain_digest L.

Lemma digest_inj L d m d' m' :
  (d, m) ∈ L → (d', m') ∈ L → kaspa_digest d m = kaspa_digest d' m' → kaspa_collision L ∨ (d = d' ∧ m = m').
Proof. intros Hm Hm' Heq. destruct (collides_eq domain_digest L _ _ Hm Hm' Heq) as [?|[= ? ?]]; [by left|by right]. Qed.

Lemma collision_sub L L' : L ⊆ L' → kaspa_collision L → kaspa_collision L'.
Proof. apply collides_mono. Qed.

(** The messages that are hashed for the identifier of a transaction, for its hash, and for
    the hash Merkle root of a list of transactions. *)
Definition id_messages (t : Transaction) : list (HashDomain * bytes) :=
  if version t =? 0 then [(TransactionID, write_transaction_v0_for_transaction_id [] t)]
  else [(TransactionV1Id, payload_digest (payload t) ++ kaspa_digest TransactionRest (write_rest_preimage [] t));
        (PayloadDigest, payload t); (TransactionRest, write_rest_preimage [] t)].
Definition hash_message (t : Transaction) : HashDomain * bytes := (TransactionHash, write_transaction [] t FULL).
Definition body_messages (txs : list Transaction) : list (HashDomain * bytes) :=
  (hash_message <$> txs) ++ (pair MerkleBranchHash <$> root_messages (tx_hash <$> txs)).

Lemma payload_digest_spec pl : payload_digest pl = kaspa_digest PayloadDigest pl.
Proof. unfold payload_digest. destruct pl; [by rewrite zero_payload_digest|done]. Qed.

(** What an identifier stands for: the transaction without its signature scripts, its
    commitments and its mass. *)
Definition id_view : Transaction → _ := encoded_view (mkEncoding true true false).

Lemma rest_view t t' :
  encoded_view (mkEncoding true true true) t = encoded_view (mkEncoding true true true) t' → payload t = payload t' → id_view t = id_view t'.
Proof. unfold id_view, encoded_view, input_key. cbn. intros [= ? ? ? ? ? ?] ->. congruence. Qed.

Lemma tx_id_inj L t t' :
  id_messages t ⊆ L → id_messages t' ⊆ L → hashable t → hashable t' → tx_id t = tx_id t' → kaspa_collision L ∨ id_view t = id_view t'.
Proof.
  intros Hs Hs' Ht Ht'. unfold tx_id, id_v0, id_v1, id_messages in *. destruct (version t =? 0), (version t' =? 0); intros Heq.
  - apply (digest_inj L) in Heq as [?|[_ Heq]]; [by left| |set_solver..]. right. by apply (write_transaction_inj (mkEncoding true true false)).
  - apply (digest_inj L) in Heq as [?|[Hd _]]; [by left|done|set_solver..].
  - apply (digest_inj L) in Heq as [?|[Hd _]]; [by left|done|set_solver..].
  - apply (digest_inj L) in Heq as [?|[_ Heq]]; [by left| |set_solver..]. rewrite !payload_digest_spec in Heq.
    apply fixed_prefix in Heq as [Hp Hr]; [|by rewrite !kaspa_digest_length].
    apply (digest_inj L) in Hp as [?|[_ Hp]]; [by left| |set_solver..]. apply (digest_inj L) in Hr as [?|[_ Hr]]; [by left| |set_solver..].
    right. apply rest_view; [|done]. by apply (write_transaction_inj (mkEncoding true true true)).
Qed.

Lemma tx_hash_inj L t t' :
  hash_message t ∈ L → hash_message t' ∈ L → hashable t → hashable t' → tx_hash t = tx_hash t' →
  kaspa_collision L ∨ encoded_view FULL t = encoded_view FULL t'.
Proof. intros Hm Hm' Ht Ht' [?|[_ Heq]]%(digest_inj L); [by left| |done..]. right. by apply (write_transaction_inj FULL). Qed.

#[export] Instance branch_laws : MerkleHasherLaws.
Proof. constructor. intros m. apply kaspa_digest_length. Qed.

(** Transaction hashes are leaves of a domain of their own. *)
Lemma tx_hashes_ambiguous L M txs txs' :
  hash_message <$> txs ⊆ L → hash_message <$> txs' ⊆ L → pair MerkleBranchHash <$> M ⊆ L →
  ambiguous M (tx_hash <$> txs) (tx_hash <$> txs') → kaspa_collision L.
Proof.
  intros Ht Ht' HM.
  assert (∀ ts, hash_message <$> ts ⊆ L → confused M (tx_hash <$> ts) → kaspa_collision L) as Hc.
  { intros ts Hts (h & Hh & Hc). apply list_elem_of_fmap in Hh as (t & -> & Hin).
    pose proof (Hts _ (list_elem_of_fmap_2 hash_message _ _ Hin)) as Hm. destruct Hc as [Hz|(m & Hin' & Heq)].
    - by apply (collides_zero _ _ _ Hm).
    - by destruct (digest_inj L _ _ _ _ Hm (HM _ (list_elem_of_fmap_2 _ _ _ Hin')) Heq) as [?|[? _]]. }
  intros [Hb|[Hb|Hb]]; [|by apply (Hc txs)|by apply (Hc txs')]. apply (collision_sub _ _ HM). by apply (collides_fmap merkle_digest domain_digest (pair MerkleBranchHash)).
Qed.

Lemma hashes_inj L txs txs' :
  hash_message <$> txs ⊆ L → hash_message <$> txs' ⊆ L →
  Forall hashable txs → Forall hashable txs' → tx_hash <$> txs = tx_hash <$> txs' →
  kaspa_collision L ∨ encoded_view FULL <$> txs = encoded_view FULL <$> txs'.
Proof.
  intros Hs Hs' Hf. revert Hs txs' Hs'. induction Hf as [|t txs Ht Hf IH]; intros Hs [|t' txs'] Hs' Hf' Heq; [by right|done|done|].
  apply Forall_cons in Hf' as [Ht' Hf']. csimpl in *. injection Heq as Heq Heqs.
  destruct (tx_hash_inj L t t') as [?|Hv]; [set_solver..|done|done|done|by left|].
  destruct (IH ltac:(set_solver) txs' ltac:(set_solver) Hf' Heqs) as [?|Hvs]; [by left|]. right. by f_equal.
Qed.

Lemma hash_merkle_root_inj {E} txs txs' r :
  Forall hashable txs → Forall hashable txs' →
  calc_hash_merkle_root (E := E) txs = Ok r → calc_hash_merkle_root (E := E) txs' = Ok r →
  kaspa_collision (body_messages txs ++ body_messages txs') ∨ encoded_view FULL <$> txs = encoded_view FULL <$> txs'.
Proof.
  intros Hf Hf' Hr Hr'. unfold calc_hash_merkle_root in *. rewrite calc_merkle_root_spec in Hr, Hr'. apply (inj Ok) in Hr, Hr'.
  assert (∀ ts, Forall (λ h : Hash, length h = 32%nat) (tx_hash <$> ts)) as Hlen.
  { intros ts. apply Forall_fmap, Forall_true. intros t. apply kaspa_digest_length. }
  unfold body_messages.
  destruct (padded_root_inj _ _ (Hlen txs) (Hlen txs') (eq_trans Hr (eq_sym Hr'))) as [Ha|Hs]; [left|apply hashes_inj; set_solver].
  eapply tx_hashes_ambiguous, Ha; [set_solver..|]. rewrite fmap_app. set_solver.
Qed.
End binding.

(** C25. Equal transaction identifiers mean equal transactions up to their signature scripts,
    commitments and mass; equal transaction hashes mean equal transactions in everything
    that their version encodes; and equal hash Merkle roots mean equal lists of such
    transactions, of the same length; unless two of the messages that were hashed for the
    compared values have one digest, in one domain or across two, or one of them has the
    zero digest.  The roots are computed without a panic. *)
Theorem tx_commitments_binding `{KaspaHashesLaws} {E} txs txs' :
  Forall hashable txs → Forall hashable txs' →
  (∀ t t', t ∈ txs → t' ∈ txs' → tx_id t = tx_id t' → kaspa_collision (id_messages t ++ id_messages t') ∨ id_view t = id_view t') ∧
  (∀ t t', t ∈ txs → t' ∈ txs' → tx_hash t = tx_hash t' →
     kaspa_collision [hash_message t; hash_message t'] ∨ encoded_view FULL t = encoded_view FULL t') ∧
  ∃ r r', calc_hash_merkle_root (E := E) txs = Ok r ∧ calc_hash_merkle_root (E := E) txs' = Ok r' ∧
    (r = r' → kaspa_collision (body_messages txs ++ body_messages txs') ∨ encoded_view FULL <$> txs = encoded_view FULL <$> txs').
Proof.
  intros Hf Hf'. pose proof (proj1 (Forall_forall _ _) Hf) as Hin. pose proof (proj1 (Forall_forall _ _) Hf') as Hin'. split_and!.
  - intros t t' Ht Ht'. apply tx_id_inj; [set_solver..|by apply Hin|by apply Hin'].
  - intros t t' Ht Ht'. apply tx_hash_inj; [set_solver..|by apply Hin|by apply Hin'].
  - eexists _, _. split; [apply calc_merkle_root_spec|]. split; [apply calc_merkle_root_spec|].
    intros Heq. eapply (hash_merkle_root_inj (E := E)); [done|done|apply calc_merkle_root_spec|]. rewrite Heq. apply calc_merkle_root_spec.
Qed.

(** ** A toy family of digests, to show that the laws can hold *)
Module SampleHashes.
Definition domain_index (d : HashDomain) : Z :=
  match d with TransactionHash => 1 | TransactionID => 2 | TransactionRest => 3 | TransactionV1Id => 4 | PayloadDigest => 5 | MerkleBranchHash => 6 | BlockHash => 7 end.
#[export] Instance hashes : KaspaHashes := λ d m,
  match d, m with PayloadDigest, [] => ZERO_PAYLOAD_DIGEST | _, _ => resize 32 (domain_index d) m end.
#[export] Instance hashes_laws : KaspaHashesLaws.
Proof. constructor; [|done]. intros d m. unfold kaspa_digest, hashes. destruct d, m; try apply length_resize. done. Qed.
End SampleHashes.
Import SampleHashes.

Lemma tx_commitments_binding_witness :
  ∃ r r', calc_hash_merkle_root (E := unit) [SampleTx.tx; SampleTx.tx] = Ok r ∧ calc_hash_merkle_root (E := unit) [SampleTx.tx] = Ok r' ∧
    (r = r' → kaspa_collision (body_messages [SampleTx.tx; SampleTx.tx] ++ body_messages [SampleTx.tx]) ∨ encoded_view FULL <$> [SampleTx.tx; SampleTx.tx] = encoded_view FULL <$> [SampleTx.tx]).
Proof.
  apply (tx_commitments_binding (E := unit) [SampleTx.tx; SampleTx.tx] [SampleTx.tx]).
  - repeat constructor; first [apply SampleTx.populated_ok | done].
  - repeat constructor; first [apply SampleTx.populated_ok | done].
Defined.
