(* ===== verification/UtxoDiff.v ===== *)
(** * The UTXO set and its diffs (consensus/core/src/utxo/)

    A diff holds the entries to add to a UTXO set and those to remove from it; diffs are
    composed, subtracted and reversed when the virtual state moves along the DAG.  The
    collections are hash maps: a loop over one visits its entries in the order of a class,
    of which only that it is an order of the entries is assumed. *)

From S2P Require Import Prelude Bytes Transaction Sighash TxHash.

Abbreviation UtxoCollection := (gmap TransactionOutpoint UtxoEntry).

Class HashOrder := hash_iter : UtxoCollection → list (TransactionOutpoint * UtxoEntry).

Inductive UtxoAlgebraError :=
| DuplicateRemovePoint (o : TransactionOutpoint)
| DuplicateAddPoint (o : TransactionOutpoint)
| DoubleRemoveCall (o : TransactionOutpoint)
| DoubleAddCall (o : TransactionOutpoint)
| DiffIntersectionPoint (o : TransactionOutpoint)
| General.

(** ** Collections *)

Section collections.
Context `{HashOrder}.

Definition contains_with_daa_score (m : UtxoCollection) (o : TransactionOutpoint) (daa_score : Z) : bool :=
  match m !! o with Some entry => block_daa_score entry =? daa_score | None => false end.

Definition add_collection (m other : UtxoCollection) : UtxoCollection :=
  foldl (λ m kv, <[kv.1 := kv.2]> m) m (hash_iter other).
Definition remove_collection (m other : UtxoCollection) : UtxoCollection :=
  foldl (λ m kv, delete kv.1 m) m (hash_iter other).

(** The smaller one is visited. *)
Definition intersects (m other : UtxoCollection) : bool :=
  let '(keys, other) := if (size m <=? size other)%nat then (hash_iter m, other) else (hash_iter other, m) in
  existsb (λ kv, bool_decide (is_Some (other !! kv.1))) keys.

(** The first that meets the rule, in the order of the visit. *)
Fixpoint first_key (f : TransactionOutpoint → UtxoEntry → bool) (l : list (TransactionOutpoint * UtxoEntry)) : option TransactionOutpoint :=
  match l with
  | [] => None
  | (k, v) :: l => if f k v then Some k else first_key f l
  end.

Definition intersects_with_rule (m other : UtxoCollection) (rule : TransactionOutpoint → UtxoEntry → UtxoEntry → bool) :
    option TransactionOutpoint :=
  if (size m <=? size other)%nat
  then first_key (λ k v1, match other !! k with Some v2 => rule k v1 v2 | None => false end) (hash_iter m)
  else first_key (λ k v2, match m !! k with Some v1 => rule k v1 v2 | None => false end) (hash_iter other).

(** The loops of the diff algebra return the collections that they update. *)
Definition intersection_with_remainder_having_daa_score_in_place (this other result remainder : UtxoCollection) :
    UtxoCollection * UtxoCollection :=
  foldl (λ '(result, remainder) kv,
    if contains_with_daa_score other kv.1 (block_daa_score kv.2)
    then (<[kv.1 := kv.2]> result, remainder) else (result, <[kv.1 := kv.2]> remainder)) (result, remainder) (hash_iter this).

Definition subtraction_having_daa_score_in_place (this other result : UtxoCollection) : UtxoCollection :=
  foldl (λ result kv,
    if negb (contains_with_daa_score other kv.1 (block_daa_score kv.2)) then <[kv.1 := kv.2]> result else result) result (hash_iter this).

Definition subtraction_with_remainder_having_daa_score_in_place (this other result remainder : UtxoCollection) :
    UtxoCollection * UtxoCollection :=
  foldl (λ '(result, remainder) kv,
    if negb (contains_with_daa_score other kv.1 (block_daa_score kv.2))
    then (<[kv.1 := kv.2]> result, remainder) else (result, <[kv.1 := kv.2]> remainder)) (result, remainder) (hash_iter this).
End collections.

(** ** Diffs *)

Record UtxoDiff := mkDiff { add : UtxoCollection; remove : UtxoCollection }.
Definition diff_default : UtxoDiff := mkDiff ∅ ∅.
(** [as_reversed] and [to_reversed]. *)
Definition to_reversed (d : UtxoDiff) : UtxoDiff := mkDiff (remove d) (add d).

(** [ComposedUtxoView::get]. *)
Definition composed_get (base : TransactionOutpoint → option UtxoEntry) (d : UtxoDiff) (o : TransactionOutpoint) : option UtxoEntry :=
  match add d !! o with
  | Some entry => Some entry
  | None => match remove d !! o with Some _ => None | None => base o end
  end.

Section diffs.
Context `{HashOrder}.
Abbreviation utxores := (res UtxoAlgebraError).

Definition with_diff_in_place (d other : UtxoDiff) : utxores UtxoDiff :=
  match intersects_with_rule (remove other) (remove d) (λ outpoint entry_to_add _,
          negb (contains_with_daa_score (add d) outpoint (block_daa_score entry_to_add))) with
  | Some o => Err (DuplicateRemovePoint o)
  | None =>
  match intersects_with_rule (add other) (add d) (λ outpoint _ existing_entry,
          negb (contains_with_daa_score (remove other) outpoint (block_daa_score existing_entry))) with
  | Some o => Err (DuplicateAddPoint o)
  | None =>
      let '(intersection, rem) := intersection_with_remainder_having_daa_score_in_place (remove other) (add d) ∅ (remove d) in
      let ad := remove_collection (add d) intersection in
      let '(intersection, ad) := intersection_with_remainder_having_daa_score_in_place (add other) rem ∅ ad in
      let rem := remove_collection rem intersection in
      Ok (mkDiff ad rem)
  end end.
Definition with_diff (d other : UtxoDiff) : utxores UtxoDiff := with_diff_in_place d other.

Definition diff_from (d other : UtxoDiff) : utxores UtxoDiff :=
  let rule_not_added_output_removed_with_daa_score outpoint this_entry other_entry :=
    negb (negb (block_daa_score other_entry =? block_daa_score this_entry) &&
          (contains_with_daa_score (add d) outpoint (block_daa_score other_entry) ||
           contains_with_daa_score (remove other) outpoint (block_daa_score this_entry))) in
  match intersects_with_rule (remove d) (add other) rule_not_added_output_removed_with_daa_score with
  | Some o => Err (DiffIntersectionPoint o)
  | None =>
  let rule_not_removed_output_added_with_daa_score outpoint this_entry other_entry :=
    negb (negb (block_daa_score other_entry =? block_daa_score this_entry) &&
          (contains_with_daa_score (remove d) outpoint (block_daa_score other_entry) ||
           contains_with_daa_score (add other) outpoint (block_daa_score this_entry))) in
  match intersects_with_rule (add d) (remove other) rule_not_removed_output_added_with_daa_score with
  | Some o => Err (DiffIntersectionPoint o)
  | None =>
  match intersects_with_rule (remove d) (remove other) (λ _ this_entry other_entry,
          negb (block_daa_score other_entry =? block_daa_score this_entry)) with
  | Some o => Err (DiffIntersectionPoint o)
  | None =>
      let '(result_remove, in_both_to_add) := subtraction_with_remainder_having_daa_score_in_place (add d) (add other) ∅ ∅ in
      if negb (eqb (intersects in_both_to_add (remove d)) (intersects in_both_to_add (remove other))) then Err General
      else
        let result_remove := subtraction_having_daa_score_in_place (remove other) (remove d) result_remove in
        let result_add := subtraction_having_daa_score_in_place (remove d) (remove other) ∅ in
        let result_add := subtraction_having_daa_score_in_place (add other) (add d) result_add in
        Ok (mkDiff result_add result_remove)
  end end end.

Definition remove_entry (o : TransactionOutpoint) (entry : UtxoEntry) (d : UtxoDiff) : utxores UtxoDiff :=
  if contains_with_daa_score (add d) o (block_daa_score entry) then Ok (mkDiff (delete o (add d)) (remove d))
  else match remove d !! o with
       | None => Ok (mkDiff (add d) (<[o := entry]> (remove d)))
       | Some _ => Err (DoubleRemoveCall o)
       end.

Definition add_entry (o : TransactionOutpoint) (entry : UtxoEntry) (d : UtxoDiff) : utxores UtxoDiff :=
  if contains_with_daa_score (remove d) o (block_daa_score entry) then Ok (mkDiff (add d) (delete o (remove d)))
  else match add d !! o with
       | None => Ok (mkDiff (<[o := entry]> (add d)) (remove d))
       | Some _ => Err (DoubleAddCall o)
       end.

Fixpoint remove_inputs (l : list (TransactionInput * UtxoEntry)) (d : UtxoDiff) : utxores UtxoDiff :=
  match l with
  | [] => Ok d
  | (input, entry) :: l => d ← remove_entry (previous_outpoint input) entry d; remove_inputs l d
  end.

Definition output_entry (t : Transaction) (block_daa_score : Z) (output : TransactionOutput) : UtxoEntry :=
  mkEntry (out_value output) (out_spk output) block_daa_score (is_coinbase t) (binding_covenant_id <$> out_covenant output).
Fixpoint add_outputs (t : Transaction) (id : Hash) (block_daa_score : Z) (i : nat) (l : list TransactionOutput) (d : UtxoDiff) : utxores UtxoDiff :=
  match l with
  | [] => Ok d
  | output :: l =>
      d ← add_entry (mkOutpoint id (Z.of_nat i mod 2 ^ 32)) (output_entry t block_daa_score output) d;
      add_outputs t id block_daa_score (S i) l d
  end.

Definition add_transaction `{KaspaHashes} (p : PopulatedTransaction) (block_daa_score : Z) (d : UtxoDiff) : utxores UtxoDiff :=
  d ← remove_inputs (zip (inputs (ptx p)) (entries p)) d;
  add_outputs (ptx p) (tx_id (ptx p)) block_daa_score 0 (outputs (ptx p)) d.
End diffs.

(** ** What the loops compute *)

Class HashOrderLaws `{HashOrder} : Prop := { hash_iter_perm m : hash_iter m ≡ₚ map_to_list m }.

Lemma foldl_insert_if (c : TransactionOutpoint * UtxoEntry → bool) l (m : UtxoCollection) k :
  NoDup l.*1 →
  foldl (λ m kv, if c kv then <[kv.1 := kv.2]> m else m) m l !! k =
  match (list_to_map l : UtxoCollection) !! k with
  | Some e => if c (k, e) then Some e else m !! k
  | None => m !! k
  end.
Proof.
  revert m. induction l as [|[k' e] l IH]; intros m Hnd; [by rewrite list_to_map_nil, lookup_empty|].
  rewrite list_to_map_cons. cbn [foldl fst snd]. csimpl in Hnd. apply NoDup_cons in Hnd as [Hni Hnd]. rewrite IH by done. destruct (decide (k = k')) as [->|Hne].
  - rewrite lookup_insert_eq, (not_elem_of_list_to_map_1 _ _ Hni). destruct (c (k', e)); [by rewrite lookup_insert_eq|done].
  - rewrite (lookup_insert_ne (list_to_map l)) by done.
    assert ((if c (k', e) then <[k' := e]> m else m) !! k = m !! k) as -> by (destruct (c (k', e)); by rewrite ?lookup_insert_ne by done). done.
Qed.

Lemma foldl_delete l (m : UtxoCollection) k :
  foldl (λ m kv, delete kv.1 m) m l !! k = match (list_to_map l : UtxoCollection) !! k with Some _ => None | None => m !! k end.
Proof.
  revert m. induction l as [|[k' e] l IH]; intros m; [by rewrite list_to_map_nil, lookup_empty|].
  rewrite list_to_map_cons. cbn [foldl fst snd]. rewrite IH.
  destruct (decide (k = k')) as [->|Hne].
  - rewrite lookup_insert_eq, lookup_delete_eq. by destruct (list_to_map l !! k').
  - by rewrite (lookup_insert_ne (list_to_map l)), lookup_delete_ne by done.
Qed.

Lemma foldl_split {A B} (c : B → bool) (f : A → B → A) (l : list B) a b :
  foldl (λ '(a, b) x, if c x then (f a x, b) else (a, f b x)) (a, b) l =
  (foldl (λ a x, if c x then f a x else a) a l, foldl (λ b x, if negb (c x) then f b x else b) b l).
Proof. revert a b. induction l as [|x l IH]; intros a b; [done|]. cbn [foldl]. destruct (c x); by rewrite IH. Qed.

Section loops.
Context `{HashOrderLaws}.

Lemma hash_iter_keys m : NoDup (hash_iter m).*1.
Proof. rewrite hash_iter_perm. apply NoDup_fst_map_to_list. Qed.
Lemma hash_iter_map m : list_to_map (hash_iter m) = m.
Proof. rewrite <- (list_to_map_to_list m) at 2. apply list_to_map_proper; [apply hash_iter_keys|apply hash_iter_perm]. Qed.
Lemma elem_of_hash_iter m k v : (k, v) ∈ hash_iter m ↔ m !! k = Some v.
Proof. by rewrite hash_iter_perm, elem_of_map_to_list. Qed.

(** Whether an entry is there with a given score. *)
Lemma contains_spec m k s : contains_with_daa_score m k s = true ↔ ∃ e, m !! k = Some e ∧ block_daa_score e = s.
Proof. unfold contains_with_daa_score. destruct (m !! k) as [e|]; [rewrite Z.eqb_eq|]; naive_solver. Qed.

Lemma lookup_add_collection m other k : add_collection m other !! k = match other !! k with Some e => Some e | None => m !! k end.
Proof. unfold add_collection. rewrite (foldl_insert_if (λ _, true)), hash_iter_map by apply hash_iter_keys. done. Qed.

Lemma lookup_remove_collection m other k : remove_collection m other !! k = match other !! k with Some _ => None | None => m !! k end.
Proof. unfold remove_collection. by rewrite foldl_delete, hash_iter_map. Qed.

Lemma lookup_intersection this other result remainder k :
  let '(x, y) := intersection_with_remainder_having_daa_score_in_place this other result remainder in
  x !! k = match this !! k with
           | Some e => if contains_with_daa_score other k (block_daa_score e) then Some e else result !! k
           | None => result !! k end ∧
  y !! k = match this !! k with
           | Some e => if contains_with_daa_score other k (block_daa_score e) then remainder !! k else Some e
           | None => remainder !! k end.
Proof.
  unfold intersection_with_remainder_having_daa_score_in_place.
  rewrite (foldl_split (λ kv, contains_with_daa_score other kv.1 (block_daa_score kv.2)) (λ m kv, <[kv.1 := kv.2]> m)).
  rewrite !foldl_insert_if, !hash_iter_map by apply hash_iter_keys. cbn [fst snd].
  split; [done|]. destruct (this !! k) as [e|]; [|done]. by destruct (contains_with_daa_score other k (block_daa_score e)).
Qed.

Lemma lookup_subtraction this other result k :
  subtraction_having_daa_score_in_place this other result !! k =
  match this !! k with
  | Some e => if contains_with_daa_score other k (block_daa_score e) then result !! k else Some e
  | None => result !! k
  end.
Proof.
  unfold subtraction_having_daa_score_in_place.
  rewrite (foldl_insert_if (λ kv, negb (contains_with_daa_score other kv.1 (block_daa_score kv.2)))), hash_iter_map by apply hash_iter_keys.
  destruct (this !! k) as [e|]; [|done]. cbn [fst snd]. by destruct (contains_with_daa_score other k (block_daa_score e)).
Qed.

Lemma lookup_subtraction_remainder this other result remainder k :
  let '(x, y) := subtraction_with_remainder_having_daa_score_in_place this other result remainder in
  x !! k = match this !! k with
           | Some e => if contains_with_daa_score other k (block_daa_score e) then result !! k else Some e
           | None => result !! k end ∧
  y !! k = match this !! k with
           | Some e => if contains_with_daa_score other k (block_daa_score e) then Some e else remainder !! k
           | None => remainder !! k end.
Proof.
  unfold subtraction_with_remainder_having_daa_score_in_place.
  rewrite (foldl_split (λ kv, negb (contains_with_daa_score other kv.1 (block_daa_score kv.2))) (λ m kv, <[kv.1 := kv.2]> m)).
  rewrite !foldl_insert_if, !hash_iter_map by apply hash_iter_keys. cbn [fst snd].
  destruct (this !! k) as [e|]; [|done]. by destruct (contains_with_daa_score other k (block_daa_score e)).
Qed.

Lemma first_key_None f l : first_key f l = None ↔ ∀ k v, (k, v) ∈ l → f k v = false.
Proof.
  induction l as [|[k v] l IH]; cbn [first_key]; [split; [|done]; intros _ k v Hin; by apply elem_of_nil in Hin|].
  destruct (f k v) eqn:Hf.
  - split; [done|]. intros Hall. rewrite (Hall k v) in Hf; [done|apply list_elem_of_here].
  - rewrite IH. setoid_rewrite elem_of_cons. naive_solver.
Qed.

(** No pair of entries meets the rule. *)
Lemma intersects_with_rule_None m other rule :
  intersects_with_rule m other rule = None ↔ ∀ k v1 v2, m !! k = Some v1 → other !! k = Some v2 → rule k v1 v2 = false.
Proof.
  unfold intersects_with_rule. destruct (_ <=? _)%nat; rewrite first_key_None; setoid_rewrite elem_of_hash_iter; split; intros Hall.
  - intros k v1 v2 H1' H2'. specialize (Hall k v1 H1'). by rewrite H2' in Hall.
  - intros k v H1'. destruct (other !! k) as [v2|] eqn:H2'; [by apply Hall|done].
  - intros k v1 v2 H1' H2'. specialize (Hall k v2 H2'). by rewrite H1' in Hall.
  - intros k v H2'. destruct (m !! k) as [v1|] eqn:H1'; [by apply Hall|done].
Qed.

Lemma intersects_spec m other : intersects m other = true ↔ ∃ k, is_Some (m !! k) ∧ is_Some (other !! k).
Proof.
  unfold intersects. destruct (_ <=? _)%nat; rewrite existsb_exists; split.
  - intros ([k v] & Hin%list_elem_of_In%elem_of_hash_iter & Hb%bool_decide_eq_true). eauto.
  - intros (k & [v Hv] & Ho). exists (k, v). rewrite <- list_elem_of_In, elem_of_hash_iter, bool_decide_eq_true. done.
  - intros ([k v] & Hin%list_elem_of_In%elem_of_hash_iter & Hb%bool_decide_eq_true). eauto.
  - intros (k & Ho & [v Hv]). exists (k, v). rewrite <- list_elem_of_In, elem_of_hash_iter, bool_decide_eq_true. done.
Qed.
End loops.

(** ** Diffs as functions on UTXO sets *)

(** The set after a diff. *)
Definition apply_diff (u : UtxoCollection) (d : UtxoDiff) : UtxoCollection := add d ∪ (u ∖ remove d).

Lemma lookup_apply u d k : apply_diff u d !! k = composed_get (λ o, u !! o) d k.
Proof.
  unfold apply_diff, composed_get. destruct (add d !! k) as [e|] eqn:Ha; [by rewrite (lookup_union_Some_l _ _ _ _ Ha)|].
  rewrite lookup_union_r by done. destruct (remove d !! k) as [e|] eqn:Hr.
  - apply lookup_difference_None. right. by eexists.
  - apply option_eq. intros e. rewrite lookup_difference_Some. naive_solver.
Qed.

(** A diff of a set: it removes entries of the set, and adds where there is then room. *)
Record diff_of (u : UtxoCollection) (d : UtxoDiff) : Prop := {
  do_remove k e : remove d !! k = Some e → u !! k = Some e;
  do_add k e : add d !! k = Some e → u !! k = None ∨ is_Some (remove d !! k);
}.

(** It does not remove an entry to add one of the same score. *)
Definition proper (d : UtxoDiff) : Prop :=
  ∀ k a r, add d !! k = Some a → remove d !! k = Some r → block_daa_score a ≠ block_daa_score r.

(** An outpoint and a score determine the entry: the transaction that made it is named by
    the outpoint, and the score is that of the block that accepted it. *)
Definition from (origin : TransactionOutpoint → Z → UtxoEntry) (m : UtxoCollection) : Prop :=
  ∀ k e, m !! k = Some e → e = origin k (block_daa_score e).
Definition diff_from_origin (origin : TransactionOutpoint → Z → UtxoEntry) (d : UtxoDiff) : Prop := from origin (add d) ∧ from origin (remove d).

Lemma from_same origin m m' k e e' :
  from origin m → from origin m' → m !! k = Some e → m' !! k = Some e' → block_daa_score e = block_daa_score e' → e = e'.
Proof. intros Hm Hm' He He' Hs. rewrite (Hm k e He), (Hm' k e' He'). by rewrite Hs. Qed.

(** The reversal undoes a diff. *)
Lemma reversed_undoes u d : diff_of u d → diff_of (apply_diff u d) (to_reversed d) ∧ apply_diff (apply_diff u d) (to_reversed d) = u.
Proof.
  intros [Hr Ha]. split; [split|].
  - intros k e He. rewrite lookup_apply. unfold composed_get. simpl in He. by rewrite He.
  - intros k e He. simpl in *. rewrite lookup_apply. unfold composed_get. destruct (add d !! k); [by right; eexists|]. rewrite He. by left.
  - apply map_eq. intros k. rewrite lookup_apply. unfold composed_get, to_reversed. cbn [add remove].
    destruct (remove d !! k) as [e|] eqn:He; [by rewrite (Hr k e He)|]. destruct (add d !! k) as [e|] eqn:He'.
    + destruct (Ha k e He') as [->|[? ?]]; [done|congruence].
    + rewrite lookup_apply. unfold composed_get. by rewrite He', He.
Qed.

Section algebra.
Context `{HashOrderLaws} (origin : TransactionOutpoint → Z → UtxoEntry).

Definition scored (o : option UtxoEntry) (s : Z) : bool := match o with Some e => block_daa_score e =? s | None => false end.

Lemma lookup_with_diff d other d' :
  with_diff d other = Ok d' →
  ∀ k,
    let r1 := match remove other !! k with
              | Some e => if contains_with_daa_score (add d) k (block_daa_score e) then remove d !! k else Some e
              | None => remove d !! k end in
    let a1 := match remove other !! k with
              | Some e => if contains_with_daa_score (add d) k (block_daa_score e) then None else add d !! k
              | None => add d !! k end in
    add d' !! k = match add other !! k with
                  | Some e => if scored r1 (block_daa_score e) then a1 else Some e
                  | None => a1 end ∧
    remove d' !! k = match add other !! k with
                     | Some e => if scored r1 (block_daa_score e) then None else r1
                     | None => r1 end.
Proof.
  unfold with_diff, with_diff_in_place. destruct (intersects_with_rule (remove other) _ _); [done|].
  destruct (intersects_with_rule (add other) _ _); [done|]. intros Hd k.
  pose proof (lookup_intersection (remove other) (add d) ∅ (remove d) k) as H1'.
  destruct (intersection_with_remainder_having_daa_score_in_place (remove other) (add d) ∅ (remove d)) as [i1 r1]. destruct H1' as [Hi1 Hr1].
  pose proof (lookup_intersection (add other) r1 ∅ (remove_collection (add d) i1) k) as H2'.
  destruct (intersection_with_remainder_having_daa_score_in_place (add other) r1 ∅ _) as [i2 a2]. destruct H2' as [Hi2 Ha2].
  injection Hd as <-. cbn [add remove]. rewrite lookup_remove_collection, Hi2, Ha2, lookup_remove_collection, Hi1, lookup_empty.
  assert (∀ e, contains_with_daa_score r1 k (block_daa_score e) = scored (r1 !! k) (block_daa_score e)) as Hcr by done.
  rewrite <- Hr1. destruct (add other !! k) as [e|]; [rewrite Hcr; destruct (scored _ _)|]; (split; [|done]);
    destruct (remove other !! k) as [e'|]; try done; by destruct (contains_with_daa_score (add d) k (block_daa_score e')).
Qed.

Lemma with_diff_defined u d other : diff_of u d → diff_of (apply_diff u d) other → ∃ d', with_diff d other = Ok d'.
Proof.
  intros Hd [Hr Ha]. unfold with_diff, with_diff_in_place.
  rewrite (proj2 (intersects_with_rule_None (remove other) (remove d) _)).
  2:{ intros k v1 v2 H1' H2'. apply negb_false_iff, contains_spec. apply Hr in H1'. rewrite lookup_apply in H1'. unfold composed_get in H1'.
      rewrite H2' in H1'. destruct (add d !! k) as [e|]; [|done]. injection H1' as ->. by exists v1. }
  rewrite (proj2 (intersects_with_rule_None (add other) (add d) _)).
  2:{ intros k v1 v2 H1' H2'. apply negb_false_iff, contains_spec.
      assert (apply_diff u d !! k = Some v2) as Hk by (rewrite lookup_apply; unfold composed_get; by rewrite H2').
      destruct (Ha k v1 H1') as [Hn|[e He]]; [congruence|]. exists e. split; [done|]. apply Hr in He. congruence. }
  destruct (intersection_with_remainder_having_daa_score_in_place (remove other) (add d) ∅ (remove d)) as [i1 r1].
  destruct (intersection_with_remainder_having_daa_score_in_place (add other) r1 ∅ _) as [i2 a2]. by eexists.
Qed.

(** What the parts of two consecutive diffs are at an outpoint. *)
Inductive two_diffs : option UtxoEntry → option UtxoEntry → option UtxoEntry → option UtxoEntry → option UtxoEntry → Prop :=
| td_untouched u : two_diffs u None None None None
| td_removed e : two_diffs (Some e) None (Some e) None None
| td_added e : two_diffs None (Some e) None None None
| td_replaced e e' : two_diffs (Some e) (Some e') (Some e) None None
| td_then_removed e : two_diffs (Some e) None None None (Some e)
| td_then_added e : two_diffs None None None (Some e) None
| td_then_replaced e e' : two_diffs (Some e) None None (Some e') (Some e)
| td_removed_added e e' : two_diffs (Some e) None (Some e) (Some e') None
| td_added_removed e : two_diffs None (Some e) None None (Some e)
| td_added_replaced e e' : two_diffs None (Some e) None (Some e') (Some e)
| td_replaced_removed e e' : two_diffs (Some e) (Some e') (Some e) None (Some e')
| td_replaced_replaced e e' e'' : two_diffs (Some e) (Some e') (Some e) (Some e'') (Some e').

Lemma two_diffs_at u d other k :
  diff_of u d → diff_of (apply_diff u d) other → two_diffs (u !! k) (add d !! k) (remove d !! k) (add other !! k) (remove other !! k).
Proof.
  intros [Hr Ha] [Hr' Ha']. specialize (Hr k). specialize (Ha k). specialize (Hr' k). specialize (Ha' k).
  rewrite lookup_apply in Hr', Ha'. unfold composed_get in Hr', Ha'.
  destruct (add d !! k) as [a|], (remove d !! k) as [r|], (add other !! k) as [a'|], (remove other !! k) as [r'|];
    try specialize (Hr _ eq_refl); try specialize (Hr' _ eq_refl); try destruct (Ha _ eq_refl) as [Ha1|[? Ha1]];
    try destruct (Ha' _ eq_refl) as [Ha2|[? Ha2]]; simplify_eq; rewrite ?Hr, ?Hr', ?Ha1, ?Ha2; constructor.
Qed.

(** The composition at an outpoint, by the cases. *)
Lemma composed_at u d other d' k :
  diff_of u d → diff_of (apply_diff u d) other → with_diff d other = Ok d' → from origin u → diff_from_origin origin other →
  (∀ e, remove d' !! k = Some e → u !! k = Some e) ∧
  (∀ e, add d' !! k = Some e → u !! k = None ∨ is_Some (remove d' !! k)) ∧
  composed_get (λ o, u !! o) d' k = composed_get (λ o, apply_diff u d !! o) other k ∧
  (∀ e, add d' !! k = Some e → e = origin k (block_daa_score e) ∨ add d !! k = Some e) ∧
  (∀ a r, add d' !! k = Some a → remove d' !! k = Some r →
     block_daa_score a ≠ block_daa_score r ∨ (add d !! k = Some a ∧ remove d !! k = Some r)).
Proof.
  intros Hd Hd' Hw Hu [Ho _]. pose proof (two_diffs_at u d other k Hd Hd') as Hcase.
  pose proof (lookup_with_diff d other d' Hw k) as [Ha Hr]. unfold composed_get. rewrite lookup_apply. unfold composed_get.
  specialize (Ho k). unfold contains_with_daa_score in Ha, Hr. rewrite Ha, Hr. clear Ha Hr.
  assert (∀ e e', u !! k = Some e → add other !! k = Some e' → block_daa_score e = block_daa_score e' → e = e') as Hsame.
  { intros e e' He He' Hs. rewrite (Hu k e He), (Ho e' He'). by rewrite Hs. }
  inversion Hcase; subst; unfold scored; rewrite ?Z.eqb_refl;
    repeat match goal with H : _ = _ !! k |- _ => rewrite <- H in *; clear H end;
    try match goal with |- context [block_daa_score ?a =? block_daa_score ?b] => destruct (Z.eqb_spec (block_daa_score a) (block_daa_score b)) as [Heq|Hneq] end;
    try (specialize (Hsame _ _ eq_refl eq_refl Heq); subst); naive_solver.
Qed.

(** What a diff is at an outpoint. *)
Inductive one_diff (u : option UtxoEntry) : option UtxoEntry → option UtxoEntry → Prop :=
| od_untouched : one_diff u None None
| od_removed e : u = Some e → one_diff u None (Some e)
| od_added e : u = None → one_diff u (Some e) None
| od_replaced e e' : u = Some e → block_daa_score e' ≠ block_daa_score e → one_diff u (Some e') (Some e).

Lemma one_diff_at u d k : diff_of u d → proper d → one_diff (u !! k) (add d !! k) (remove d !! k).
Proof.
  intros [Hr Ha] Hp. specialize (Hr k). specialize (Ha k). specialize (Hp k).
  destruct (add d !! k) as [a|], (remove d !! k) as [r|].
  - apply od_replaced; [by apply Hr|by apply Hp].
  - destruct (Ha a eq_refl) as [Hn|[? ?]]; [|done]. by apply od_added.
  - apply od_removed. by apply Hr.
  - apply od_untouched.
Qed.

Lemma replaced_at u d k e a :
  diff_of u d → proper d → u !! k = Some e → add d !! k = Some a → remove d !! k = Some e ∧ block_daa_score a ≠ block_daa_score e.
Proof.
  intros [Hr Ha] Hp Hu Hk. destruct (Ha k a Hk) as [?|[r Hrk]]; [congruence|]. assert (r = e) as -> by (apply Hr in Hrk; congruence).
  split; [done|]. by apply (Hp k).
Qed.

Lemma diff_from_defined u d other :
  diff_of u d → diff_of u other → proper d → proper other →
  ∃ d', diff_from d other = Ok d' ∧
    ∀ k,
      let rr := match add d !! k with
                | Some e => if scored (add other !! k) (block_daa_score e) then None else Some e
                | None => None end in
      let ra := match remove d !! k with
                | Some e => if scored (remove other !! k) (block_daa_score e) then None else Some e
                | None => None end in
      remove d' !! k = match remove other !! k with Some e => if scored (remove d !! k) (block_daa_score e) then rr else Some e | None => rr end ∧
      add d' !! k = match add other !! k with Some e => if scored (add d !! k) (block_daa_score e) then ra else Some e | None => ra end.
Proof.
  intros Hd Ho Hp Hp'. unfold diff_from.
  rewrite (proj2 (intersects_with_rule_None (remove d) (add other) _)).
  2:{ intros k v1 v2 H1' H2'. apply Hd in H1'. destruct (replaced_at u other k v1 v2 Ho Hp' H1' H2') as [Hr Hne].
      rewrite (proj2 (Z.eqb_neq _ _) Hne). unfold contains_with_daa_score at 2. rewrite Hr, Z.eqb_refl. by rewrite orb_true_r. }
  rewrite (proj2 (intersects_with_rule_None (add d) (remove other) _)).
  2:{ intros k v1 v2 H1' H2'. apply Ho in H2'. destruct (replaced_at u d k v2 v1 Hd Hp H2' H1') as [Hr Hne].
      rewrite (proj2 (Z.eqb_neq _ _)) by done. unfold contains_with_daa_score at 1. by rewrite Hr, Z.eqb_refl. }
  rewrite (proj2 (intersects_with_rule_None (remove d) (remove other) _)).
  2:{ intros k v1 v2 H1' H2'. apply Hd in H1'. apply Ho in H2'. assert (v1 = v2) as -> by congruence. by rewrite Z.eqb_refl. }
  pose proof (λ k, lookup_subtraction_remainder (add d) (add other) ∅ ∅ k) as Hsub.
  destruct (subtraction_with_remainder_having_daa_score_in_place (add d) (add other) ∅ ∅) as [rr both].
  assert (intersects both (remove d) = intersects both (remove other)) as ->.
  { assert (∀ k, is_Some (both !! k) → (is_Some (remove d !! k) ↔ is_Some (remove other !! k))) as Hboth.
    { intros k [e He]. destruct (Hsub k) as [_ Hb]. rewrite Hb, lookup_empty in He. destruct (add d !! k) as [a|] eqn:Ha; [|done].
      unfold contains_with_daa_score in He. destruct (add other !! k) as [a'|] eqn:Ha'; [|done].
      split; intros [r Hr]; [apply Hd in Hr|apply Ho in Hr]; exists r; [by apply (replaced_at u other k r a')|by apply (replaced_at u d k r a)]. }
    apply eq_true_iff_eq. rewrite !intersects_spec. split; intros (k & Hb & Hr); exists k; (split; [done|]); by apply (Hboth k Hb). }
  rewrite eqb_reflx. cbn [negb]. eexists. split; [done|]. intros k. cbn [add remove]. rewrite !lookup_subtraction, lookup_empty.
  destruct (Hsub k) as [-> _]. rewrite lookup_empty. done.
Qed.

Lemma difference_at u d other d' k :
  diff_of u d → diff_of u other → proper d → proper other → from origin (add d) → from origin (add other) →
  remove d' !! k =
    match remove other !! k with
    | Some e => if scored (remove d !! k) (block_daa_score e) then
        match add d !! k with Some e => if scored (add other !! k) (block_daa_score e) then None else Some e | None => None end else Some e
    | None => match add d !! k with Some e => if scored (add other !! k) (block_daa_score e) then None else Some e | None => None end end →
  add d' !! k =
    match add other !! k with
    | Some e => if scored (add d !! k) (block_daa_score e) then
        match remove d !! k with Some e => if scored (remove other !! k) (block_daa_score e) then None else Some e | None => None end else Some e
    | None => match remove d !! k with Some e => if scored (remove other !! k) (block_daa_score e) then None else Some e | None => None end end →
  (∀ e, remove d' !! k = Some e → apply_diff u d !! k = Some e) ∧
  (∀ e, add d' !! k = Some e → apply_diff u d !! k = None ∨ is_Some (remove d' !! k)) ∧
  (∀ a r, add d' !! k = Some a → remove d' !! k = Some r → block_daa_score a ≠ block_daa_score r) ∧
  composed_get (λ o, apply_diff u d !! o) d' k = apply_diff u other !! k.
Proof.
  intros Hd Ho Hp Hp' Hf Hf' Hr Ha. pose proof (one_diff_at u d k Hd Hp) as H1'. pose proof (one_diff_at u other k Ho Hp') as H2'.
  assert (∀ e e', add d !! k = Some e → add other !! k = Some e' → block_daa_score e = block_daa_score e' → e = e') as Hsame.
  { intros e e' He He' Hs. by apply (from_same origin (add d) (add other) k). }
  rewrite !lookup_apply. unfold composed_get. rewrite lookup_apply. unfold composed_get. rewrite Hr, Ha. clear Hr Ha. unfold scored.
  inversion H1'; inversion H2'; subst;
    repeat match goal with H : _ = _ !! k |- _ => rewrite <- H in *; clear H end; simplify_eq;
    repeat match goal with H : u !! k = _ |- _ => rewrite H in *; clear H end; simplify_eq;
    rewrite ?Z.eqb_refl;
    repeat match goal with |- context [block_daa_score ?a =? block_daa_score ?b] => destruct (Z.eqb_spec (block_daa_score a) (block_daa_score b)) end;
    try (assert (False) by (simpl in *; congruence); done);
    try (match goal with Hs : ∀ e e', Some ?x = Some e → Some ?y = Some e' → _ |- _ => assert (x = y) by (apply Hs; congruence); subst end);
    naive_solver.
Qed.

Lemma with_diff_spec u d other :
  diff_of u d → diff_of (apply_diff u d) other → from origin u → diff_from_origin origin other →
  ∃ d', with_diff d other = Ok d' ∧ diff_of u d' ∧ (proper d → proper d') ∧ apply_diff u d' = apply_diff (apply_diff u d) other.
Proof.
  intros Hd Ho Hu Hf. destruct (with_diff_defined u d other Hd Ho) as [d' Hw]. exists d'. split; [done|].
  pose proof (λ k, composed_at u d other d' k Hd Ho Hw Hu Hf) as Hat. split_and!.
  - split; intros k; apply (Hat k).
  - intros Hp k a r Ha Hr. destruct (Hat k) as (_ & _ & _ & _ & Hpr). destruct (Hpr a r Ha Hr) as [?|[? ?]]; [done|]. by apply (Hp k).
  - apply map_eq. intros k. rewrite !lookup_apply. apply (Hat k).
Qed.

Lemma diff_from_spec u d other :
  diff_of u d → diff_of u other → proper d → proper other → from origin (add d) → from origin (add other) →
  ∃ d', diff_from d other = Ok d' ∧ diff_of (apply_diff u d) d' ∧ proper d' ∧ apply_diff (apply_diff u d) d' = apply_diff u other.
Proof.
  intros Hd Ho Hp Hp' Hf Hf'. destruct (diff_from_defined u d other Hd Ho Hp Hp') as (d' & Hw & Hlk). exists d'. split; [done|].
  pose proof (λ k, difference_at u d other d' k Hd Ho Hp Hp' Hf Hf' (proj1 (Hlk k)) (proj2 (Hlk k))) as Hat. split_and!.
  - split; intros k; apply (Hat k).
  - intros k. apply (Hat k).
  - apply map_eq. intros k. rewrite lookup_apply. apply (Hat k).
Qed.
End algebra.

(** C21. The diffs of UTXO sets form an algebra over the sets.  For every order in which the
    hash maps are visited: the composition of a diff of a set with a diff of the result is
    defined, and is a diff of the set with the effect of both; the difference of two diffs
    of one set is defined, and leads from the result of the first to that of the second;
    the reversal of a diff undoes it; and the composed view over a set reads the set that
    the diff leads to.  The entries are those that their outpoint and
    score determine. *)
Theorem utxo_diff_algebra `{HashOrderLaws} origin u d other third :
  diff_of u d → diff_of (apply_diff u d) other → diff_of u third → proper d → proper third →
  from origin u → diff_from_origin origin d → diff_from_origin origin other → diff_from_origin origin third →
  (∃ d', with_diff d other = Ok d' ∧ diff_of u d' ∧ proper d' ∧ apply_diff u d' = apply_diff (apply_diff u d) other) ∧
  (∃ d', diff_from d third = Ok d' ∧ diff_of (apply_diff u d) d' ∧ proper d' ∧ apply_diff (apply_diff u d) d' = apply_diff u third) ∧
  (diff_of (apply_diff u d) (to_reversed d) ∧ apply_diff (apply_diff u d) (to_reversed d) = u) ∧
  (∀ o, composed_get (λ o, u !! o) d o = apply_diff u d !! o).
Proof.
  intros Hd Ho Ht Hp Hp' Hu [Hfd _] Hfo [Hft _]. split_and!.
  - destruct (with_diff_spec origin u d other Hd Ho Hu Hfo) as (d' & ? & ? & Hpr & ?). exists d'. split_and!; auto.
  - by apply (diff_from_spec origin).
  - by apply reversed_undoes.
  - by apply reversed_undoes.
  - intros o. by rewrite lookup_apply.
Qed.

(** ** Transactions *)

Section transactions.
Context (origin : TransactionOutpoint → Z → UtxoEntry) (u : UtxoCollection) (Hu : from origin u).

Definition good (d : UtxoDiff) : Prop := diff_of u d ∧ proper d.

Lemma remove_entry_spec d k e :
  good d → apply_diff u d !! k = Some e →
  ∃ d', remove_entry k e d = Ok d' ∧ good d' ∧ apply_diff u d' = delete k (apply_diff u d).
Proof.
  intros [Hd Hp] Hk. pose proof (one_diff_at u d k Hd Hp) as Hone. rewrite lookup_apply in Hk. unfold composed_get in Hk.
  destruct Hd as [Hr Ha]. unfold remove_entry, contains_with_daa_score. destruct (add d !! k) as [a|] eqn:Hak.
  - injection Hk as ->. rewrite Z.eqb_refl. eexists. split; [done|]. split; [split; [split|unfold proper]|]; cbn [add remove].
    + done.
    + intros k' e' [_ He']%lookup_delete_Some. by apply (Ha k' e').
    + intros k' a r [_ Hk']%lookup_delete_Some. by apply Hp.
    + apply map_eq. intros k'. rewrite lookup_apply. unfold composed_get. cbn [add remove]. destruct (decide (k' = k)) as [->|Hne].
      * rewrite !lookup_delete_eq. inversion Hone; subst; [done|]. by destruct (remove d !! k).
      * rewrite !lookup_delete_ne by done. by rewrite lookup_apply.
  - destruct (remove d !! k) as [r|] eqn:Hrk; [done|]. eexists. split; [done|]. split; [split; [split|unfold proper]|]; cbn [add remove].
    + intros k' e' [[<- <-]|[_ He']]%lookup_insert_Some; [done|by apply Hr].
    + intros k' e' He'. destruct (Ha k' e' He') as [?|Hs]; [by left|right]. destruct (decide (k' = k)) as [->|Hne]; [congruence|by rewrite lookup_insert_ne].
    + intros k' a r Hk' [[<- _]|[_ He']]%lookup_insert_Some; [congruence|by apply (Hp k')].
    + apply map_eq. intros k'. rewrite lookup_apply. unfold composed_get. cbn [add remove]. destruct (decide (k' = k)) as [->|Hne].
      * by rewrite Hak, lookup_insert_eq, lookup_delete_eq.
      * rewrite lookup_insert_ne, lookup_delete_ne by done. by rewrite lookup_apply.
Qed.

Lemma add_entry_spec d k e :
  good d → apply_diff u d !! k = None → e = origin k (block_daa_score e) →
  ∃ d', add_entry k e d = Ok d' ∧ good d' ∧ apply_diff u d' = <[k := e]> (apply_diff u d).
Proof.
  intros [Hd Hp] Hk He. rewrite lookup_apply in Hk. unfold composed_get in Hk. destruct (add d !! k) as [a|] eqn:Hak; [done|].
  destruct Hd as [Hr Ha]. unfold add_entry, contains_with_daa_score. rewrite Hak. destruct (remove d !! k) as [r|] eqn:Hrk.
  - destruct (Z.eqb_spec (block_daa_score r) (block_daa_score e)) as [Hs|Hs].
    + assert (r = e) as ->. { rewrite (Hu k r (Hr k r Hrk)), He. congruence. }
      eexists. split; [done|]. split; [split; [split|unfold proper]|]; cbn [add remove].
      * intros k' e' [_ He']%lookup_delete_Some. by apply Hr.
      * intros k' e' He'. destruct (decide (k' = k)) as [->|Hne]; [congruence|]. rewrite lookup_delete_ne by done. by apply (Ha k' e').
      * intros k' a r Hk' [_ He']%lookup_delete_Some. by apply (Hp k').
      * apply map_eq. intros k'. rewrite lookup_apply. unfold composed_get. cbn [add remove]. destruct (decide (k' = k)) as [->|Hne].
        -- rewrite Hak, lookup_delete_eq, lookup_insert_eq. by apply Hr.
        -- rewrite lookup_delete_ne, lookup_insert_ne by done. by rewrite lookup_apply.
    + eexists. split; [done|]. split; [split; [split|unfold proper]|]; cbn [add remove].
      * done.
      * intros k' e' [[<- _]|[_ He']]%lookup_insert_Some; [right; by eexists|by apply (Ha k' e')].
      * intros k' a r' [[<- <-]|[_ Hk']]%lookup_insert_Some Hr'; [congruence|by apply (Hp k')].
      * apply map_eq. intros k'. rewrite lookup_apply. unfold composed_get. cbn [add remove]. destruct (decide (k' = k)) as [->|Hne].
        -- by rewrite !lookup_insert_eq.
        -- rewrite !lookup_insert_ne by done. by rewrite lookup_apply.
  - eexists. split; [done|]. split; [split; [split|unfold proper]|]; cbn [add remove].
    + done.
    + intros k' e' [[<- _]|[_ He']]%lookup_insert_Some; [by left|by apply (Ha k' e')].
    + intros k' a r' [[<- <-]|[_ Hk']]%lookup_insert_Some Hr'; [congruence|by apply (Hp k')].
    + apply map_eq. intros k'. rewrite lookup_apply. unfold composed_get. cbn [add remove]. destruct (decide (k' = k)) as [->|Hne].
      * by rewrite !lookup_insert_eq.
      * rewrite !lookup_insert_ne by done. by rewrite lookup_apply.
Qed.

(** A transaction on a UTXO set. *)
Definition spent (v : UtxoCollection) (l : list TransactionInput) : UtxoCollection := foldl (λ v i, delete (previous_outpoint i) v) v l.
Fixpoint created (t : Transaction) (id : Hash) (daa : Z) (i : nat) (l : list TransactionOutput) (v : UtxoCollection) : UtxoCollection :=
  match l with
  | [] => v
  | output :: l => created t id daa (S i) l (<[mkOutpoint id (Z.of_nat i) := output_entry t daa output]> v)
  end.

Lemma remove_inputs_spec l d :
  good d → NoDup (previous_outpoint <$> l.*1) → Forall (λ x, apply_diff u d !! previous_outpoint x.1 = Some x.2) l →
  ∃ d', remove_inputs l d = Ok d' ∧ good d' ∧ apply_diff u d' = spent (apply_diff u d) l.*1.
Proof.
  revert d. induction l as [|[inp e] l IH]; intros d Hd Hnd Hf; cbn [remove_inputs]; [by exists d|].
  apply Forall_cons in Hf as [Hx Hf]. csimpl in Hnd. apply NoDup_cons in Hnd as [Hni Hnd].
  destruct (remove_entry_spec d (previous_outpoint inp) e Hd Hx) as (d1 & -> & Hd1 & Ha1). cbn [mbind res_mbind].
  destruct (IH d1 Hd1 Hnd) as (d' & -> & Hd' & Ha').
  - apply Forall_forall. intros [inp' e'] Hin. rewrite Ha1, lookup_delete_ne.
    + rewrite Forall_forall in Hf. by apply (Hf (inp', e')).
    + intros Heq. apply Hni. rewrite Heq. apply (list_elem_of_fmap_2 previous_outpoint), (list_elem_of_fmap_2 fst _ (inp', e')), Hin.
  - exists d'. split; [done|]. split; [done|]. by rewrite Ha', Ha1.
Qed.

Lemma add_outputs_spec t id daa i l d :
  good d → (Z.of_nat (i + length l) < 2 ^ 32) →
  (∀ j o, l !! j = Some o → apply_diff u d !! mkOutpoint id (Z.of_nat (i + j)) = None ∧
    output_entry t daa o = origin (mkOutpoint id (Z.of_nat (i + j))) daa) →
  ∃ d', add_outputs t id daa i l d = Ok d' ∧ good d' ∧ apply_diff u d' = created t id daa i l (apply_diff u d).
Proof.
  revert i d. induction l as [|o l IH]; intros i d Hd Hlen Hfree; cbn [add_outputs created]; [by exists d|]. simpl in Hlen.
  destruct (Hfree 0%nat o eq_refl) as [Hfr Hor]. rewrite Nat.add_0_r in Hfr, Hor. rewrite Z.mod_small by lia.
  destruct (add_entry_spec d (mkOutpoint id (Z.of_nat i)) (output_entry t daa o) Hd Hfr Hor) as (d1 & -> & Hd1 & Ha1). cbn [mbind res_mbind].
  destruct (IH (S i) d1 Hd1 ltac:(lia)) as (d' & -> & Hd' & Ha').
  - intros j o' Hj. rewrite Ha1, lookup_insert_ne by (intros [= ?]; lia). replace (S i + j)%nat with (i + S j)%nat by lia. by apply Hfree.
  - exists d'. split; [done|]. split; [done|]. by rewrite Ha', Ha1.
Qed.
End transactions.

(** C22. Adding a transaction to a diff of a UTXO set, when the entries it spends are those of
    the current set and the outpoints of its outputs are free once they are spent, succeeds;
    the result is a diff of the same set, with the effect of the old one followed by that of
    the transaction: its inputs are deleted and its outputs inserted under its identifier. *)
Theorem add_transaction_refines `{KaspaHashes} origin u d p daa :
  from origin u → diff_of u d → proper d → populated_wf p →
  NoDup (previous_outpoint <$> inputs (ptx p)) →
  Forall (λ x, apply_diff u d !! previous_outpoint x.1 = Some x.2) (zip (inputs (ptx p)) (entries p)) →
  (∀ j o, outputs (ptx p) !! j = Some o →
    spent (apply_diff u d) (inputs (ptx p)) !! mkOutpoint (tx_id (ptx p)) (Z.of_nat j) = None ∧
    output_entry (ptx p) daa o = origin (mkOutpoint (tx_id (ptx p)) (Z.of_nat j)) daa) →
  ∃ d', add_transaction p daa d = Ok d' ∧ diff_of u d' ∧ proper d' ∧
    apply_diff u d' = created (ptx p) (tx_id (ptx p)) daa 0 (outputs (ptx p)) (spent (apply_diff u d) (inputs (ptx p))).
Proof.
  intros Hu Hd Hp Hwf Hnd Hfound Hfree. destruct Hwf as ((_ & _ & _ & _ & _ & _ & _ & _ & _ & Hno) & _ & Hlen). unfold add_transaction.
  assert ((zip (inputs (ptx p)) (entries p)).*1 = inputs (ptx p)) as Hfst by (apply fst_zip; lia).
  destruct (remove_inputs_spec u (zip (inputs (ptx p)) (entries p)) d) as (d1 & -> & Hd1 & Ha1); [done|by rewrite Hfst|done|].
  rewrite Hfst in Ha1. cbn [mbind res_mbind].
  destruct (add_outputs_spec origin u Hu (ptx p) (tx_id (ptx p)) daa 0 (outputs (ptx p)) d1 Hd1) as (d' & Hd' & [Hg Hpr] & Ha'); [simpl; lia| |].
  - intros j o Hj. rewrite Ha1. by apply Hfree.
  - exists d'. split; [done|]. split; [done|]. split; [done|]. by rewrite Ha', Ha1.
Qed.

(** ** An order, and diffs of two entries *)
Module SampleDiffs.
#[export] Instance order : HashOrder := map_to_list.
#[export] Existing Instance SampleHashes.hashes.
#[export] Instance order_laws : HashOrderLaws.
Proof. by constructor. Qed.
Definition outpoint (n : Z) : TransactionOutpoint := mkOutpoint (replicate 32 n) 0.
Definition origin (o : TransactionOutpoint) (daa : Z) : UtxoEntry := mkEntry 25 (mkSpk 0 [81]) daa false None.
Definition base : UtxoCollection := {[ outpoint 1 := origin (outpoint 1) 5 ]}.
(** The entry is spent and another made; then that is spent; or the first is replaced. *)
Definition first : UtxoDiff := mkDiff {[ outpoint 2 := origin (outpoint 2) 6 ]} {[ outpoint 1 := origin (outpoint 1) 5 ]}.
Definition second : UtxoDiff := mkDiff ∅ {[ outpoint 2 := origin (outpoint 2) 6 ]}.
Definition other : UtxoDiff := mkDiff {[ outpoint 1 := origin (outpoint 1) 7 ]} {[ outpoint 1 := origin (outpoint 1) 5 ]}.

Lemma from_origin k s : from origin {[ k := origin k s ]}.
Proof. intros k' e [<- <-]%lookup_singleton_Some. done. Qed.

(** The two entries that a transaction spends, and the one that it makes. *)
Definition input_outpoint (n : Z) : TransactionOutpoint := previous_outpoint (SampleTx.input n).
Definition tx_origin (o : TransactionOutpoint) (daa : Z) : UtxoEntry :=
  if decide (o = input_outpoint 1) then SampleTx.entry 1 else if decide (o = input_outpoint 2) then SampleTx.entry 2 else origin o daa.
Definition tx_base : UtxoCollection := <[input_outpoint 1 := SampleTx.entry 1]> {[ input_outpoint 2 := SampleTx.entry 2 ]}.
Lemma from_tx_origin : from tx_origin tx_base.
Proof. unfold tx_base. intros k e [[<- <-]|[_ [<- <-]%lookup_singleton_Some]]%lookup_insert_Some; vm_compute; reflexivity. Qed.
Lemma from_empty : from origin ∅.
Proof. intros k e He. by rewrite lookup_empty in He. Qed.
End SampleDiffs.
Import SampleDiffs.

Lemma utxo_diff_algebra_witness :
  (∃ d', with_diff first second = Ok d' ∧ diff_of base d' ∧ proper d' ∧ apply_diff base d' = apply_diff (apply_diff base first) second) ∧
  (∃ d', diff_from first other = Ok d' ∧ diff_of (apply_diff base first) d' ∧ proper d' ∧
    apply_diff (apply_diff base first) d' = apply_diff base other) ∧
  (diff_of (apply_diff base first) (to_reversed first) ∧ apply_diff (apply_diff base first) (to_reversed first) = base) ∧
  (∀ o, composed_get (λ o, base !! o) first o = apply_diff base first !! o).
Proof.
  apply (utxo_diff_algebra origin base first second other).
  - split; cbn [add remove first]; intros k e [<- <-]%lookup_singleton_Some; [done|by left].
  - split; cbn [add remove second]; [intros k e [<- <-]%lookup_singleton_Some; by vm_compute|]. intros k e He. by rewrite lookup_empty in He.
  - split; cbn [add remove other]; intros k e [<- <-]%lookup_singleton_Some; [done|by right; vm_compute; eexists].
  - unfold proper; cbn [add remove first]. intros k a r [<- <-]%lookup_singleton_Some [Hk _]%lookup_singleton_Some. by vm_compute in Hk.
  - unfold proper; cbn [add remove other]. intros k a r [<- <-]%lookup_singleton_Some [_ <-]%lookup_singleton_Some. done.
  - apply from_origin.
  - split; apply from_origin.
  - split; [apply from_empty|apply from_origin].
  - split; apply from_origin.
Defined.

Lemma add_transaction_refines_witness :
  ∃ d', add_transaction SampleTx.populated 9 diff_default = Ok d' ∧ diff_of tx_base d' ∧ proper d' ∧
    apply_diff tx_base d' = {[ mkOutpoint (tx_id SampleTx.tx) 0 := origin (mkOutpoint (tx_id SampleTx.tx) 0) 9 ]}.
Proof.
  destruct (add_transaction_refines tx_origin tx_base diff_default SampleTx.populated 9) as (d' & Hd & Hof & Hp & Ha).
  - apply from_tx_origin.
  - split; cbn [add remove diff_default]; intros k e He; by rewrite lookup_empty in He.
  - unfold proper; cbn [add remove diff_default]. intros k a r He. by rewrite lookup_empty in He.
  - apply SampleTx.populated_ok.
  - apply (bool_decide_unpack _). by vm_compute.
  - repeat constructor; vm_compute; reflexivity.
  - intros [|j] o Ho; [|done]. injection Ho as <-. split; vm_compute; reflexivity.
  - exists d'. split; [done|]. split; [done|]. split; [done|]. rewrite Ha. apply (bool_decide_unpack _). by vm_compute.
Defined.
