(* ===== verification/Coinbase.v ===== *)
(** * The coinbase (consensus/src/processes/coinbase.rs)

    The payload of a coinbase transaction, the emission schedule with its perpetual tail,
    and the outputs that reward the blocks that a block merges. *)

From S2P Require Import Prelude Bytes Transaction Sighash Mass TxIsolation StateMonad.

Abbreviation LENGTH_OF_BLUE_SCORE := 8%nat (only parsing).
Abbreviation LENGTH_OF_SUBSIDY := 8%nat (only parsing).
Abbreviation LENGTH_OF_SHIELDED_COMMITMENT := 32%nat (only parsing).
Abbreviation LENGTH_OF_SCRIPT_PUB_KEY_VERSION := 2%nat (only parsing).
Abbreviation LENGTH_OF_SCRIPT_PUB_KEY_LENGTH := 1%nat (only parsing).
Abbreviation MIN_PAYLOAD_LENGTH := 51%nat (only parsing).

Abbreviation SECONDS_PER_MONTH := (2629800)%Z (only parsing).
Abbreviation SUBSIDY_HALVING_INTERVAL_MONTHS := (3)%Z (only parsing).
Abbreviation LEGACY_MONTHS_PER_HALVING := (12)%Z (only parsing).
Abbreviation REWARD_SCALE_NUM := (3)%Z (only parsing).
Abbreviation REWARD_SCALE_DEN := (22)%Z (only parsing).
Abbreviation TAIL_SUBSIDY_INITIAL_PER_SEC_SOMPI := (600000000)%Z (only parsing).
Abbreviation TAIL_SUBSIDY_FINAL_PER_SEC_SOMPI := (60000000)%Z (only parsing).
Abbreviation TAIL_STEP_DOWN_MONTH := (24)%Z (only parsing).

Definition SUBSIDY_BY_MONTH_TABLE : list Z :=
  [44000000000; 41530469757; 39199543598; 36999442271; 34922823143; 32962755691; 31112698372; 29366476791; 27718263097;
   26162556530; 24694165062; 23308188075; 22000000000; 20765234878; 19599771799; 18499721135; 17461411571; 16481377845;
   15556349186; 14683238395; 13859131548; 13081278265; 12347082531; 11654094037; 11000000000; 10382617439; 9799885899;
   9249860567; 8730705785; 8240688922; 7778174593; 7341619197; 6929565774; 6540639132; 6173541265; 5827047018;
   5500000000; 5191308719; 4899942949; 4624930283; 4365352892; 4120344461; 3889087296; 3670809598; 3464782887;
   3270319566; 3086770632; 2913523509; 2750000000; 2595654359; 2449971474; 2312465141; 2182676446; 2060172230;
   1944543648; 1835404799; 1732391443; 1635159783; 1543385316; 1456761754; 1375000000; 1297827179; 1224985737;
   1156232570; 1091338223; 1030086115; 972271824; 917702399; 866195721; 817579891; 771692658; 728380877; 687500000;
   648913589; 612492868; 578116285; 545669111; 515043057; 486135912; 458851199; 433097860; 408789945; 385846329;
   364190438; 343750000; 324456794; 306246434; 289058142; 272834555; 257521528; 243067956; 229425599; 216548930;
   204394972; 192923164; 182095219; 171875000; 162228397; 153123217; 144529071; 136417277; 128760764; 121533978;
   114712799; 108274465; 102197486; 96461582; 91047609; 85937500; 81114198; 76561608; 72264535; 68208638; 64380382;
   60766989; 57356399; 54137232; 51098743; 48230791; 45523804; 42968750; 40557099; 38280804; 36132267; 34104319;
   32190191; 30383494; 28678199; 27068616; 25549371; 24115395; 22761902; 21484375; 20278549; 19140402; 18066133;
   17052159; 16095095; 15191747; 14339099; 13534308; 12774685; 12057697; 11380951; 10742187; 10139274; 9570201; 9033066;
   8526079; 8047547; 7595873; 7169549; 6767154; 6387342; 6028848; 5690475; 5371093; 5069637; 4785100; 4516533; 4263039;
   4023773; 3797936; 3584774; 3383577; 3193671; 3014424; 2845237; 2685546; 2534818; 2392550; 2258266; 2131519; 2011886;
   1898968; 1792387; 1691788; 1596835; 1507212; 1422618; 1342773; 1267409; 1196275; 1129133; 1065759; 1005943; 949484;
   896193; 845894; 798417; 753606; 711309; 671386; 633704; 598137; 564566; 532879; 502971; 474742; 448096; 422947;
   399208; 376803; 355654; 335693; 316852; 299068; 282283; 266439; 251485; 237371; 224048; 211473; 199604; 188401;
   177827; 167846; 158426; 149534; 141141; 133219; 125742; 118685; 112024; 105736; 99802; 94200; 88913; 83923; 79213;
   74767; 70570; 66609; 62871; 59342; 56012; 52868; 49901; 47100; 44456; 41961; 39606; 37383; 35285; 33304; 31435;
   29671; 28006; 26434; 24950; 23550; 22228; 20980; 19803; 18691; 17642; 16652; 15717; 14835; 14003; 13217; 12475;
   11775; 11114; 10490; 9901; 9345; 8821; 8326; 7858; 7417; 7001; 6608; 6237; 5887; 5557; 5245; 4950; 4672; 4410; 4163;
   3929; 3708; 3500; 3304; 3118; 2943; 2778; 2622; 2475; 2336; 2205; 2081; 1964; 1854; 1750; 1652; 1559; 1471; 1389;
   1311; 1237; 1168; 1102; 1040; 982; 927; 875; 826; 779; 735; 694; 655; 618; 584; 551; 520; 491; 463; 437; 413; 389;
   367; 347; 327; 309; 292; 275; 260; 245; 231; 218; 206; 194; 183; 173; 163; 154; 146; 137; 130; 122; 115; 109; 103;
   97; 91; 86; 81; 77; 73; 68; 65; 61; 57; 54; 51; 48; 45; 43; 40; 38; 36; 34; 32; 30; 28; 27; 25; 24; 22; 21; 20; 19;
   18; 17; 16; 15; 14; 13; 12; 12; 11; 10; 10; 9; 9; 8; 8; 7; 7; 6; 6; 6; 5; 5; 5; 4; 4; 4; 4; 3; 3; 3; 3; 3; 2; 2; 2;
   2; 2; 2; 2; 1; 1; 1; 1; 1; 1; 1; 1; 1; 1; 1; 1; 0].

(** [u64::div_ceil], which panics on zero. *)
Definition div_ceil_p {E} (a b : Z) : res E Z := if b =? 0 then Panic else Ok (div_ceil64 a b).

(** The product and the quotient are those of a [u128]. *)
Definition scaled_subsidy {E} (table_value bps : Z) : res E Z :=
  v ← div_ceil_p table_value bps;
  Ok ((v * REWARD_SCALE_NUM / REWARD_SCALE_DEN) mod 2 ^ 64).

(** [ForkedParam::before] and [ForkedParam::after]. *)
Definition forked_before (p : ForkedParam) : Z := if fp_activation p =? 0 then fp_post p else fp_pre p.
Definition forked_after (p : ForkedParam) : Z := if fp_activation p =? 2 ^ 64 - 1 then fp_pre p else fp_post p.

Record CoinbaseManager := mkManager {
  cm_script_public_key_max_len : Z;
  cm_max_coinbase_payload_len : Z;
  deflationary_phase_daa_score : Z;
  pre_deflationary_phase_base_subsidy : Z;
  bps_history : ForkedParam;
  cm_toccata_activation : Z;
  subsidy_by_month_table_before : list Z;
  subsidy_by_month_table_after : list Z;
  crescendo_activation_daa_score : Z;
}.

Fixpoint scaled_table {E} (l : list Z) (bps : Z) : res E (list Z) :=
  match l with
  | [] => Ok []
  | v :: l => s ← scaled_subsidy v bps; t ← scaled_table l bps; Ok (s :: t)
  end.

Definition manager_new {E} (script_max_len max_payload_len deflationary base_subsidy : Z) (bps : ForkedParam) (toccata : Z) :
    res E CoinbaseManager :=
  before ← scaled_table SUBSIDY_BY_MONTH_TABLE (forked_before bps);
  after ← scaled_table SUBSIDY_BY_MONTH_TABLE (forked_after bps);
  Ok (mkManager script_max_len max_payload_len deflationary base_subsidy bps toccata before after (fp_activation bps)).

(** ** The schedule *)

Section schedule.
Context (m : CoinbaseManager) {E : Type}.
Abbreviation cres := (res E).

Definition subsidy_month (daa_score : Z) : cres Z :=
  seconds ←
    (if crescendo_activation_daa_score m <? deflationary_phase_daa_score m then
       d ← sub_p daa_score (deflationary_phase_daa_score m); div_p d (forked_after (bps_history m))
     else if daa_score <? crescendo_activation_daa_score m then
       d ← sub_p daa_score (deflationary_phase_daa_score m); div_p d (forked_before (bps_history m))
     else
       d ← sub_p (crescendo_activation_daa_score m) (deflationary_phase_daa_score m);
       x ← div_p d (forked_before (bps_history m));
       d ← sub_p daa_score (crescendo_activation_daa_score m);
       y ← div_p d (forked_after (bps_history m));
       add_p 64 x y);
  Ok ((seconds * LEGACY_MONTHS_PER_HALVING / (SECONDS_PER_MONTH * SUBSIDY_HALVING_INTERVAL_MONTHS)) mod 2 ^ 64).

Definition tail_subsidy (daa_score : Z) : cres Z :=
  month ← subsidy_month daa_score;
  x ← mul_p 64 month SUBSIDY_HALVING_INTERVAL_MONTHS;
  let real_month := x / LEGACY_MONTHS_PER_HALVING in
  let per_sec := if real_month <? TAIL_STEP_DOWN_MONTH then TAIL_SUBSIDY_INITIAL_PER_SEC_SOMPI else TAIL_SUBSIDY_FINAL_PER_SEC_SOMPI in
  div_ceil_p per_sec (forked_after (bps_history m)).

Definition curve_subsidy (daa_score : Z) : cres Z :=
  month ← subsidy_month daa_score;
  let table := if is_active (fp_activation (bps_history m)) daa_score then subsidy_by_month_table_after m else subsidy_by_month_table_before m in
  idx table (Nat.min (Z.to_nat month) (length table - 1)).

Definition calc_block_subsidy (daa_score : Z) : cres Z :=
  if daa_score <? deflationary_phase_daa_score m then Ok (pre_deflationary_phase_base_subsidy m)
  else
    c ← curve_subsidy daa_score;
    t ← tail_subsidy daa_score;
    Ok (Z.max c t).
End schedule.

(** ** The payload *)

Inductive CoinbaseError :=
| PayloadLenBelowMin (len min : Z)
| PayloadLenAboveMax (len max : Z)
| PayloadScriptPublicKeyLenAboveMax (len max : Z)
| PayloadCantContainScriptPublicKey (len min : Z).

Record MinerData := mkMiner { miner_script_public_key : ScriptPublicKey; extra_data : bytes }.
Record CoinbaseData := mkCoinbase { cb_blue_score : Z; cb_subsidy : Z; shielded_commitment : bytes; miner_data : MinerData }.

(** The part that depends on the miner. *)
Definition miner_payload (d : MinerData) : bytes :=
  let spk := miner_script_public_key d in
  le_bytes 2 (spk_version spk) ++ le_bytes 1 (Z.of_nat (length (spk_script spk)) mod 2 ^ 8) ++ spk_script spk ++ extra_data d.

Definition serialize_coinbase_payload (m : CoinbaseManager) (d : CoinbaseData) : res CoinbaseError bytes :=
  let script_pub_key_len := Z.of_nat (length (spk_script (miner_script_public_key (miner_data d)))) in
  if cm_script_public_key_max_len m <? script_pub_key_len
  then Err (PayloadScriptPublicKeyLenAboveMax script_pub_key_len (cm_script_public_key_max_len m))
  else Ok (le_bytes 8 (cb_blue_score d) ++ le_bytes 8 (cb_subsidy d) ++ shielded_commitment d ++ miner_payload (miner_data d)).

Definition modify_coinbase_payload (m : CoinbaseManager) (payload : bytes) (d : MinerData) : res CoinbaseError bytes :=
  let script_pub_key_len := Z.of_nat (length (spk_script (miner_script_public_key d))) in
  if cm_script_public_key_max_len m <? script_pub_key_len
  then Err (PayloadScriptPublicKeyLenAboveMax script_pub_key_len (cm_script_public_key_max_len m))
  else Ok (take (LENGTH_OF_BLUE_SCORE + LENGTH_OF_SUBSIDY + LENGTH_OF_SHIELDED_COMMITMENT) payload ++ miner_payload d).

(** [PayloadParser::take]: the state is what remains. *)
Definition parser_take {E} (n : nat) : stm E bytes bytes := λ remaining,
  if (n <=? length remaining)%nat then Ok (take n remaining, drop n remaining) else Panic.

Definition parse_coinbase (m : CoinbaseManager) (payload_len : Z) : stm CoinbaseError bytes CoinbaseData :=
  blue_score ← parser_take LENGTH_OF_BLUE_SCORE;
  subsidy ← parser_take LENGTH_OF_SUBSIDY;
  commitment ← parser_take LENGTH_OF_SHIELDED_COMMITMENT;
  version ← parser_take LENGTH_OF_SCRIPT_PUB_KEY_VERSION;
  len ← parser_take LENGTH_OF_SCRIPT_PUB_KEY_LENGTH;
  let script_pub_key_len := of_le_bytes len in
  if cm_script_public_key_max_len m <? script_pub_key_len
  then throw (PayloadScriptPublicKeyLenAboveMax script_pub_key_len (cm_script_public_key_max_len m))
  else
    remaining ← gets (λ r, Z.of_nat (length r));
    if remaining <? script_pub_key_len
    then throw (PayloadCantContainScriptPublicKey payload_len (Z.of_nat MIN_PAYLOAD_LENGTH + script_pub_key_len))
    else
      script ← parser_take (Z.to_nat script_pub_key_len);
      extra_data ← gets id;
      ok (mkCoinbase (of_le_bytes blue_score) (of_le_bytes subsidy) commitment (mkMiner (mkSpk (of_le_bytes version) script) extra_data)).

Definition deserialize_coinbase_payload (m : CoinbaseManager) (payload : bytes) : res CoinbaseError CoinbaseData :=
  let len := Z.of_nat (length payload) in
  if len <? Z.of_nat MIN_PAYLOAD_LENGTH then Err (PayloadLenBelowMin len (Z.of_nat MIN_PAYLOAD_LENGTH))
  else if cm_max_coinbase_payload_len m <? len then Err (PayloadLenAboveMax len (cm_max_coinbase_payload_len m))
  else '(d, _) ← parse_coinbase m len payload; Ok d.

(** ** The transaction *)

Record BlockRewardData := mkReward { rd_subsidy : Z; rd_total_fees : Z; rd_script_public_key : ScriptPublicKey }.

(** The part of [GhostdagData] that the coinbase depends on. *)
Record GhostdagData := mkGhostdag { gd_blue_score : Z; mergeset_blues : list Hash; mergeset_reds : list Hash }.
Record CoinbaseTransactionTemplate := mkTemplate { template_tx : Transaction; has_red_reward : bool }.

Section expected.
Context (m : CoinbaseManager) (rewards : gmap Hash BlockRewardData) (non_daa : gset Hash).

Fixpoint blue_outputs (blues : list Hash) : res CoinbaseError (list TransactionOutput) :=
  match blues with
  | [] => Ok []
  | blue :: blues =>
      if bool_decide (blue ∈ non_daa) then blue_outputs blues
      else
        reward_data ← unwrap (rewards !! blue);
        reward ← add_p 64 (rd_subsidy reward_data) (rd_total_fees reward_data);
        outs ← blue_outputs blues;
        Ok (if 0 <? reward then mkOutput reward (rd_script_public_key reward_data) None :: outs else outs)
  end.

Fixpoint red_rewards (reds : list Hash) (red_reward : Z) : res CoinbaseError Z :=
  match reds with
  | [] => Ok red_reward
  | red :: reds =>
      reward_data ← unwrap (rewards !! red);
      reward ← (if bool_decide (red ∈ non_daa) then Ok (rd_total_fees reward_data)
                else add_p 64 (rd_subsidy reward_data) (rd_total_fees reward_data));
      red_reward ← add_p 64 red_reward reward;
      red_rewards reds red_reward
  end.

Definition expected_coinbase_transaction (daa_score : Z) (miner : MinerData) (ghostdag_data : GhostdagData)
    (shielded_commitment : bytes) : res CoinbaseError CoinbaseTransactionTemplate :=
  outputs ← blue_outputs (mergeset_blues ghostdag_data);
  red_reward ← red_rewards (mergeset_reds ghostdag_data) 0;
  let outputs := if 0 <? red_reward then outputs ++ [mkOutput red_reward (miner_script_public_key miner) None] else outputs in
  subsidy ← calc_block_subsidy m daa_score;
  payload ← serialize_coinbase_payload m (mkCoinbase (gd_blue_score ghostdag_data) subsidy shielded_commitment miner);
  let tx_version := if is_active (cm_toccata_activation m) daa_score then 1 else 0 in
  Ok (mkTemplate (mkTx tx_version [] outputs 0 SUBNETWORK_ID_COINBASE 0 payload 0) (0 <? red_reward)).
End expected.

(** ** Payloads round trip *)

Record coinbase_wf (m : CoinbaseManager) (d : CoinbaseData) : Prop := {
  cw_blue_score : in_u 64 (cb_blue_score d);
  cw_subsidy : in_u 64 (cb_subsidy d);
  cw_commitment : is_array 32 (shielded_commitment d);
  cw_version : in_u 16 (spk_version (miner_script_public_key (miner_data d)));
  cw_script : is_bytes (spk_script (miner_script_public_key (miner_data d)));
  cw_script_len : Z.of_nat (length (spk_script (miner_script_public_key (miner_data d)))) ≤ cm_script_public_key_max_len m;
  cw_extra : is_bytes (extra_data (miner_data d));
}.

Lemma parser_take_app {E} n (a b : bytes) : length a = n → parser_take (E := E) n (a ++ b) = Ok (a, b).
Proof.
  intros <-. unfold parser_take. rewrite length_app, (proj2 (Nat.leb_le _ _)) by lia. by rewrite take_app_length, drop_app_length.
Qed.

Lemma serialize_Ok m d :
  coinbase_wf m d → serialize_coinbase_payload m d =
    Ok (le_bytes 8 (cb_blue_score d) ++ le_bytes 8 (cb_subsidy d) ++ shielded_commitment d ++ miner_payload (miner_data d)).
Proof. intros Hd. unfold serialize_coinbase_payload. by rewrite (proj2 (Z.ltb_ge _ _) (cw_script_len _ _ Hd)). Qed.

Lemma parse_coinbase_serialized m d n :
  cm_script_public_key_max_len m < 2 ^ 8 → coinbase_wf m d →
  parse_coinbase m n (le_bytes 8 (cb_blue_score d) ++ le_bytes 8 (cb_subsidy d) ++ shielded_commitment d ++ miner_payload (miner_data d)) =
  Ok (d, extra_data (miner_data d)).
Proof.
  intros Hm [Hb Hs [Hc _] Hv Hscr Hlen _]. destruct d as [b s c [[v scr] ex]]. unfold parse_coinbase, miner_payload.
  cbn [cb_blue_score cb_subsidy shielded_commitment miner_data miner_script_public_key spk_version spk_script extra_data] in *.
  rewrite (bind_step _ _ _ _ _ (parser_take_app 8 _ _ (length_le_bytes 8 b))).
  rewrite (bind_step _ _ _ _ _ (parser_take_app 8 _ _ (length_le_bytes 8 s))).
  rewrite (bind_step _ _ _ _ _ (parser_take_app 32 _ _ Hc)).
  rewrite (bind_step _ _ _ _ _ (parser_take_app 2 _ _ (length_le_bytes 2 v))).
  rewrite (bind_step _ _ _ _ _ (parser_take_app 1 _ _ (length_le_bytes 1 _))).
  rewrite !of_le_bytes_le_bytes, !Z.mod_small by (try (apply Z.mod_pos_bound; lia); unfold in_u in *; simpl; lia).
  rewrite (proj2 (Z.ltb_ge _ _) Hlen).
  rewrite (bind_step _ _ _ (Z.of_nat (length (scr ++ ex))) (scr ++ ex)) by done.
  rewrite (proj2 (Z.ltb_ge _ _)) by (rewrite length_app; lia). rewrite Nat2Z.id.
  rewrite (bind_step _ _ _ _ _ (parser_take_app (length scr) scr ex eq_refl)). done.
Qed.

Lemma length_serialized m d :
  coinbase_wf m d →
  length (le_bytes 8 (cb_blue_score d) ++ le_bytes 8 (cb_subsidy d) ++ shielded_commitment d ++ miner_payload (miner_data d)) =
  (51 + length (spk_script (miner_script_public_key (miner_data d))) + length (extra_data (miner_data d)))%nat.
Proof. intros [_ _ [Hc _] _ _ _ _]. unfold miner_payload. rewrite !length_app, !length_le_bytes, Hc. lia. Qed.

(** What the parser reads is the encoding of what it returns. *)
Lemma parser_take_inv {E} n (r : bytes) x r' : parser_take (E := E) n r = Ok (x, r') → r = x ++ r' ∧ length x = n.
Proof.
  unfold parser_take. destruct (Nat.leb_spec n (length r)); [|done]. intros [= <- <-]. by rewrite take_drop, length_take_le.
Qed.
Lemma bind_stm_inv {E S A B} (k : stm E S A) (f : A → stm E S B) s y :
  (k ≫= f) s = Ok y → ∃ a s', k s = Ok (a, s') ∧ f a s' = Ok y.
Proof. unfold mbind, stm_mbind. destruct (k s) as [[a s']| |]; [|done..]. by exists a, s'. Qed.

Lemma parse_inv m n payload d r :
  is_bytes payload → parse_coinbase m n payload = Ok (d, r) → coinbase_wf m d ∧
  payload = le_bytes 8 (cb_blue_score d) ++ le_bytes 8 (cb_subsidy d) ++ shielded_commitment d ++ miner_payload (miner_data d).
Proof.
  intros Hpl Hp. unfold parse_coinbase in Hp.
  apply bind_stm_inv in Hp as (b & r1 & [-> Hb]%parser_take_inv & Hp). apply bind_stm_inv in Hp as (s & r2 & [-> Hs]%parser_take_inv & Hp).
  apply bind_stm_inv in Hp as (c & r3 & [-> Hc]%parser_take_inv & Hp). apply bind_stm_inv in Hp as (v & r4 & [-> Hv]%parser_take_inv & Hp).
  apply bind_stm_inv in Hp as (l & r5 & [-> Hl]%parser_take_inv & Hp).
  destruct (Z.ltb_spec (cm_script_public_key_max_len m) (of_le_bytes l)) as [|Hmax]; [done|].
  apply bind_stm_inv in Hp as (n' & r6 & [= <- <-] & Hp). destruct (Z.ltb_spec (Z.of_nat (length r5)) (of_le_bytes l)) as [|Hlen]; [done|].
  apply bind_stm_inv in Hp as (scr & r7 & [-> Hscr]%parser_take_inv & Hp). apply bind_stm_inv in Hp as (ex & r8 & [= <- <-] & Hp).
  injection Hp as <- <-. unfold id, miner_payload. cbn [cb_blue_score cb_subsidy shielded_commitment miner_data miner_script_public_key spk_version spk_script extra_data].
  rewrite !is_bytes_app in Hpl. destruct Hpl as (Hbb & Hsb & Hcb & Hvb & Hlb & Hscrb & Hexb).
  pose proof (of_le_bytes_bound b Hbb) as B1. pose proof (of_le_bytes_bound s Hsb) as B2. pose proof (of_le_bytes_bound v Hvb) as B3.
  pose proof (of_le_bytes_bound l Hlb) as B4. rewrite Hb in B1. rewrite Hs in B2. rewrite Hv in B3. rewrite Hl in B4.
  split; [constructor; cbn; try done|].
  - rewrite Hscr. lia.
  - rewrite Hscr, Z2Nat.id, Z.mod_small by (try apply B4; exact B4).
    assert (∀ k x, length x = k → is_bytes x → le_bytes k (of_le_bytes x) = x) as Hle by (intros k x <-; apply le_bytes_of_le_bytes).
    by rewrite !Hle.
Qed.

Lemma parser_take_ok {E} n (r : bytes) : (n ≤ length r)%nat → parser_take (E := E) n r = Ok (take n r, drop n r).
Proof. intros Hn. unfold parser_take. by rewrite (proj2 (Nat.leb_le _ _)). Qed.

Lemma parse_no_panic m n p : (51 ≤ length p)%nat → parse_coinbase m n p ≠ Panic.
Proof.
  intros Hp. unfold parse_coinbase. do 5 (erewrite bind_step by (apply parser_take_ok; rewrite ?length_drop; lia)).
  destruct (_ <? _); [done|]. rewrite (bind_step _ _ _ _ _ eq_refl).
  match goal with |- context [if ?x <? ?y then _ else _] => destruct (Z.ltb_spec x y) as [|Hlen]; [done|] end.
  erewrite bind_step by (apply parser_take_ok; lia). done.
Qed.

(** The coinbase payload round trips.  A payload that is written, and is not above the
    maximum length, is read back; a payload that is read is the writing of what was read,
    so that no two payloads stand for the same data; reading never panics; and replacing
    the miner's data in a payload is writing it with the other data. *)
Theorem coinbase_payload_roundtrip m :
  0 ≤ cm_script_public_key_max_len m < 2 ^ 8 →
  (∀ d, coinbase_wf m d → ∃ p, serialize_coinbase_payload m d = Ok p ∧
     (Z.of_nat (length p) ≤ cm_max_coinbase_payload_len m → deserialize_coinbase_payload m p = Ok d) ∧
     (∀ miner, coinbase_wf m (mkCoinbase (cb_blue_score d) (cb_subsidy d) (shielded_commitment d) miner) →
        modify_coinbase_payload m p miner =
        serialize_coinbase_payload m (mkCoinbase (cb_blue_score d) (cb_subsidy d) (shielded_commitment d) miner))) ∧
  (∀ p, is_bytes p →
     match deserialize_coinbase_payload m p with
     | Ok d => coinbase_wf m d ∧ serialize_coinbase_payload m d = Ok p
     | Err _ => True
     | Panic => False
     end).
Proof.
  intros Hm. split.
  - intros d Hd. eexists. split; [by apply serialize_Ok|]. split.
    + intros Hmax. unfold deserialize_coinbase_payload. pose proof (length_serialized m d Hd) as Hlen.
      rewrite (proj2 (Z.ltb_ge _ _)) by lia. rewrite (proj2 (Z.ltb_ge _ _) Hmax). by rewrite parse_coinbase_serialized by (done || lia).
    + intros miner Hw. rewrite (serialize_Ok _ _ Hw). cbn [cb_blue_score cb_subsidy shielded_commitment miner_data].
      pose proof (cw_script_len _ _ Hw) as Hl. cbn [miner_data] in Hl.
      unfold modify_coinbase_payload. rewrite (proj2 (Z.ltb_ge _ _) Hl). f_equal. destruct (cw_commitment _ _ Hd) as [Hc _].
      rewrite !(app_assoc (le_bytes 8 _)), !(app_assoc (_ ++ _) (shielded_commitment d)). rewrite take_app_length'; [done|].
      by rewrite !length_app, !length_le_bytes, Hc.
  - intros p Hp. unfold deserialize_coinbase_payload. destruct (Z.ltb_spec (Z.of_nat (length p)) (Z.of_nat MIN_PAYLOAD_LENGTH)) as [|Hmin]; [done|].
    destruct (_ <? _); [done|]. pose proof (parse_no_panic m (Z.of_nat (length p)) p) as Hnp.
    destruct (parse_coinbase m (Z.of_nat (length p)) p) as [[d r]| |] eqn:Hd; [|done|].
    + apply parse_inv in Hd as [Hw ->]; [|done]. split; [done|]. by apply serialize_Ok.
    + destruct Hnp; [lia|done].
Qed.

(** ** The emission schedule *)

(** The blocks per second of a network that only ever speeds up. *)
Record rates_ok (b : ForkedParam) : Prop := {
  ro_pre : 0 < forked_before b;
  ro_faster : forked_before b ≤ forked_after b;
  ro_activation : in_u 64 (fp_activation b);
}.

Lemma div_ceil_spec a b : 0 < b → 0 ≤ a → div_ceil64 a b = (a + b - 1) / b.
Proof.
  intros Hb Ha. unfold div_ceil64. pose proof (Z.div_mod a b ltac:(lia)) as Hd. pose proof (Z.mod_pos_bound a b Hb).
  destruct (Z.ltb_spec 0 (a mod b)); [apply Z.div_unique with (a mod b - 1); lia|].
  assert (a mod b = 0) by lia. apply Z.div_unique with (b - 1); lia.
Qed.

Lemma div_ceil_mono a a' b b' : 0 < b → b ≤ b' → 0 ≤ a' → a' ≤ a → div_ceil64 a' b' ≤ div_ceil64 a b.
Proof.
  intros Hb Hbb Ha' Haa. rewrite !div_ceil_spec by lia.
  replace (a' + b' - 1) with (a' - 1 + 1 * b') by lia. replace (a + b - 1) with (a - 1 + 1 * b) by lia. rewrite !Z.div_add by lia.
  destruct (decide (a' = 0)) as [->|Hne].
  - replace ((0 - 1) / b') with (-1) by (apply Z.div_unique with (b' - 1); lia). assert (-1 ≤ (a - 1) / b); [|lia].
    apply Z.div_le_lower_bound; lia.
  - assert ((a' - 1) / b' ≤ (a - 1) / b); [|lia]. etransitivity; [apply Z.div_le_compat_l with (q := b)|apply Z.div_le_mono]; lia.
Qed.

Lemma div_ceil_range a b : 0 < b → 0 ≤ a → 0 ≤ div_ceil64 a b ≤ a.
Proof.
  intros Hb Ha. rewrite div_ceil_spec by lia. split; [apply Z.div_pos; lia|]. assert ((a + b - 1) / b < a + 1); [|lia]. apply Z.div_lt_upper_bound; nia.
Qed.

(** The subsidy of a month of the table. *)
Definition scaled (v bps : Z) : Z := div_ceil64 v bps * REWARD_SCALE_NUM / REWARD_SCALE_DEN.

Lemma scaled_subsidy_Ok {E} v bps : 0 < bps → 0 ≤ v < 2 ^ 60 → scaled_subsidy (E := E) v bps = Ok (scaled v bps).
Proof.
  intros Hb Hv. unfold scaled_subsidy, div_ceil_p. rewrite (proj2 (Z.eqb_neq _ _)) by lia. cbn [mbind res_mbind]. f_equal. unfold scaled.
  pose proof (div_ceil_range v bps Hb ltac:(lia)). apply Z.mod_small.
  split; [apply Z.div_pos; lia|]. apply Z.div_lt_upper_bound; lia.
Qed.

Lemma scaled_mono v v' b b' : 0 < b → b ≤ b' → 0 ≤ v' → v' ≤ v → scaled v' b' ≤ scaled v b.
Proof. intros. unfold scaled. pose proof (div_ceil_mono v v' b b'). apply Z.div_le_mono; lia. Qed.
Lemma scaled_range v b : 0 < b → 0 ≤ v → 0 ≤ scaled v b ≤ v.
Proof.
  intros Hb Hv. unfold scaled. pose proof (div_ceil_range v b Hb Hv). split; [apply Z.div_pos; lia|]. apply Z.div_le_upper_bound; lia.
Qed.

Lemma scaled_table_Ok {E} l bps : 0 < bps → Forall (λ v, 0 ≤ v < 2 ^ 60) l → scaled_table (E := E) l bps = Ok ((λ v, scaled v bps) <$> l).
Proof.
  intros Hb Hl. induction Hl as [|v l Hv Hl IH]; cbn [scaled_table]; [done|]. rewrite scaled_subsidy_Ok by done. cbn [mbind res_mbind]. by rewrite IH.
Qed.

Lemma table_range : Forall (λ v, 0 ≤ v < 2 ^ 60) SUBSIDY_BY_MONTH_TABLE.
Proof. apply (bool_decide_unpack _). vm_compute. reflexivity. Qed.

Fixpoint nonincreasing (l : list Z) : bool :=
  match l with
  | a :: (b :: _) as l => (b <=? a) && nonincreasing l
  | _ => true
  end.
Lemma nonincreasing_lookup l i j x y :
  nonincreasing l = true → (i ≤ j)%nat → l !! i = Some x → l !! j = Some y → y ≤ x.
Proof.
  revert i j x. induction l as [|a l IH]; intros i j x Hs Hij Hi Hj; [done|].
  assert (nonincreasing l = true) as Hs' by (destruct l; [done|]; by apply andb_true_iff in Hs as [_ ?]).
  destruct i as [|i], j as [|j]; simplify_eq/=; [lia| |lia|].
  - destruct l as [|b l]; [done|]. apply andb_true_iff in Hs as [Hb%Z.leb_le _]. specialize (IH 0%nat j b Hs' ltac:(lia) eq_refl Hj). lia.
  - by apply (IH i j x Hs' ltac:(lia)).
Qed.
Lemma table_sorted : nonincreasing SUBSIDY_BY_MONTH_TABLE = true.
Proof. vm_compute. reflexivity. Qed.

Section emission.
Context {E : Type} (m : CoinbaseManager).
Abbreviation before := (forked_before (bps_history m)).
Abbreviation after := (forked_after (bps_history m)).
Abbreviation start := (deflationary_phase_daa_score m).
Abbreviation fork := (fp_activation (bps_history m)).

(** A manager as it is made. *)
Record made : Prop := {
  md_rates : rates_ok (bps_history m);
  md_start : in_u 64 start;
  md_fork : crescendo_activation_daa_score m = fork;
  md_before : subsidy_by_month_table_before m = (λ v, scaled v before) <$> SUBSIDY_BY_MONTH_TABLE;
  md_after : subsidy_by_month_table_after m = (λ v, scaled v after) <$> SUBSIDY_BY_MONTH_TABLE;
}.
Context (Hm : made).

(** The seconds since the deflationary phase began, and the months of the table. *)
Definition elapsed (daa : Z) : Z :=
  if fork <? start then (daa - start) / after
  else if daa <? fork then (daa - start) / before
  else (fork - start) / before + (daa - fork) / after.
Definition table_month (daa : Z) : Z := elapsed daa * 12 / 7889400.

Lemma rates : 0 < before ∧ before ≤ after.
Proof. destruct (md_rates Hm). lia. Qed.

Lemma elapsed_range daa : start ≤ daa < 2 ^ 64 → 0 ≤ elapsed daa < 2 ^ 64.
Proof.
  intros Hd. pose proof rates. pose proof (md_start Hm) as Hs. unfold elapsed, in_u in *.
  assert (∀ x b, 0 ≤ x → 0 < b → 0 ≤ x / b ≤ x) as Hdiv.
  { intros x b Hx Hb. split; [by apply Z.div_pos|]. apply Z.div_le_upper_bound; nia. }
  destruct (Z.ltb_spec fork start); [pose proof (Hdiv (daa - start) after); lia|].
  destruct (Z.ltb_spec daa fork); [pose proof (Hdiv (daa - start) before); lia|].
  pose proof (Hdiv (fork - start) before). pose proof (Hdiv (daa - fork) after). lia.
Qed.

Lemma elapsed_mono daa daa' : start ≤ daa → daa ≤ daa' → elapsed daa ≤ elapsed daa'.
Proof.
  intros Hs Hd. pose proof rates. unfold elapsed. destruct (Z.ltb_spec fork start); [apply Z.div_le_mono; lia|].
  destruct (Z.ltb_spec daa fork), (Z.ltb_spec daa' fork).
  - apply Z.div_le_mono; lia.
  - assert ((daa - start) / before ≤ (fork - start) / before) by (apply Z.div_le_mono; lia).
    assert (0 ≤ (daa' - fork) / after) by (apply Z.div_pos; lia). lia.
  - lia.
  - assert ((daa - fork) / after ≤ (daa' - fork) / after) by (apply Z.div_le_mono; lia). lia.
Qed.

Lemma table_month_range daa : start ≤ daa < 2 ^ 64 → 0 ≤ table_month daa < 2 ^ 60.
Proof.
  intros Hd. pose proof (elapsed_range daa Hd). unfold table_month. split; [apply Z.div_pos; lia|]. apply Z.div_lt_upper_bound; lia.
Qed.
Lemma table_month_mono daa daa' : start ≤ daa → daa ≤ daa' → table_month daa ≤ table_month daa'.
Proof. intros Hs Hd. pose proof (elapsed_mono daa daa' Hs Hd). apply Z.div_le_mono; lia. Qed.

Lemma sub_p_ok a b : b ≤ a → sub_p (E := E) a b = Ok (a - b).
Proof. intros Hb. by apply sub_p_Ok. Qed.
Lemma div_p_ok a b : 0 < b → div_p (E := E) a b = Ok (a / b).
Proof. intros Hb. unfold div_p. by rewrite (proj2 (Z.eqb_neq _ _)) by lia. Qed.

Lemma subsidy_month_Ok daa : start ≤ daa < 2 ^ 64 → subsidy_month (E := E) m daa = Ok (table_month daa).
Proof.
  intros Hd. pose proof rates. pose proof (elapsed_range daa Hd) as Hr. pose proof (table_month_range daa Hd) as Ht. unfold table_month in *.
  unfold subsidy_month. rewrite (md_fork Hm). unfold elapsed in *.
  destruct (Z.ltb_spec fork start); [rewrite sub_p_ok by lia; cbn [mbind res_mbind]; rewrite div_p_ok by lia|
    destruct (Z.ltb_spec daa fork); [rewrite sub_p_ok by lia; cbn [mbind res_mbind]; rewrite div_p_ok by lia|]].
  1, 2: cbn [mbind res_mbind]; f_equal; apply Z.mod_small; simpl; lia.
  rewrite sub_p_ok by lia. cbn [mbind res_mbind]. rewrite div_p_ok by lia. cbn [mbind res_mbind].
  rewrite sub_p_ok by lia. cbn [mbind res_mbind]. rewrite div_p_ok by lia. cbn [mbind res_mbind].
  rewrite (proj2 (add_p_Ok 64 _ _ _) (conj eq_refl (proj2 Hr))). cbn [mbind res_mbind]. f_equal. apply Z.mod_small. simpl. lia.
Qed.

(** The floor at a month of the table. *)
Definition floor_at (month : Z) : Z := div_ceil64 (if month * 3 / 12 <? 24 then 600000000 else 60000000) after.

Lemma tail_subsidy_Ok daa : start ≤ daa < 2 ^ 64 → tail_subsidy (E := E) m daa = Ok (floor_at (table_month daa)).
Proof.
  intros Hd. pose proof rates. pose proof (table_month_range daa Hd). unfold tail_subsidy. rewrite subsidy_month_Ok by done. cbn [mbind res_mbind].
  rewrite (proj2 (mul_p_Ok 64 (table_month daa) 3 (table_month daa * 3)) ltac:(lia)). cbn [mbind res_mbind].
  unfold div_ceil_p. by rewrite (proj2 (Z.eqb_neq _ _)) by lia.
Qed.

Lemma floor_mono x y : 0 ≤ x ≤ y → floor_at y ≤ floor_at x.
Proof.
  intros Hx. pose proof rates. unfold floor_at. assert (x * 3 / 12 ≤ y * 3 / 12) by (apply Z.div_le_mono; lia).
  destruct (Z.ltb_spec (x * 3 / 12) 24), (Z.ltb_spec (y * 3 / 12) 24); try lia. apply div_ceil_mono; lia.
Qed.

(** The curve at a block: the value of the month under the rate in force. *)
Definition rate_at (daa : Z) : Z := if fork <=? daa then after else before.
Definition month_value (month : Z) : Z := default 0 (SUBSIDY_BY_MONTH_TABLE !! Nat.min (Z.to_nat month) 425).

Lemma table_lookup k : (k < 426)%nat → SUBSIDY_BY_MONTH_TABLE !! k = Some (default 0 (SUBSIDY_BY_MONTH_TABLE !! k)).
Proof.
  intros Hk. destruct (lookup_lt_is_Some_2 SUBSIDY_BY_MONTH_TABLE k) as [v ->]; [|done].
  replace (length SUBSIDY_BY_MONTH_TABLE) with 426%nat by (vm_compute; reflexivity). done.
Qed.

Lemma month_value_range x : 0 ≤ month_value x ≤ 44000000000.
Proof.
  unfold month_value. pose proof (table_lookup (Nat.min (Z.to_nat x) 425) ltac:(lia)) as Hl. split.
  - pose proof table_range as Hr. rewrite Forall_lookup in Hr. by apply (Hr _ _ Hl).
  - by apply (nonincreasing_lookup SUBSIDY_BY_MONTH_TABLE 0 _ _ _ table_sorted ltac:(lia) eq_refl Hl).
Qed.
Lemma month_value_mono x y : x ≤ y → month_value y ≤ month_value x.
Proof.
  intros Hxy. unfold month_value.
  apply (nonincreasing_lookup SUBSIDY_BY_MONTH_TABLE (Nat.min (Z.to_nat x) 425) (Nat.min (Z.to_nat y) 425)); [apply table_sorted|lia|..];
    apply table_lookup; lia.
Qed.

Lemma curve_subsidy_Ok daa : start ≤ daa < 2 ^ 64 → curve_subsidy (E := E) m daa = Ok (scaled (month_value (table_month daa)) (rate_at daa)).
Proof.
  intros Hd. unfold curve_subsidy. rewrite subsidy_month_Ok by done. cbn [mbind res_mbind]. rewrite (md_before Hm), (md_after Hm).
  unfold is_active, rate_at, idx, month_value. pose proof (table_lookup (Nat.min (Z.to_nat (table_month daa)) 425) ltac:(lia)) as Hl.
  assert (length SUBSIDY_BY_MONTH_TABLE = 426%nat) as Hlen by (vm_compute; reflexivity).
  destruct (fork <=? daa); rewrite length_fmap, list_lookup_fmap, Hlen; change (426 - 1)%nat with 425%nat; by rewrite Hl.
Qed.

Lemma block_subsidy_Ok daa :
  start ≤ daa < 2 ^ 64 →
  calc_block_subsidy (E := E) m daa =
  Ok (Z.max (scaled (month_value (table_month daa)) (rate_at daa)) (floor_at (table_month daa))).
Proof.
  intros Hd. unfold calc_block_subsidy. rewrite (proj2 (Z.ltb_ge _ _)) by lia. rewrite curve_subsidy_Ok by done. cbn [mbind res_mbind].
  by rewrite tail_subsidy_Ok.
Qed.

Lemma rate_range daa : 0 < rate_at daa.
Proof. pose proof rates. unfold rate_at. destruct (_ <=? _); lia. Qed.
Lemma rate_mono daa daa' : daa ≤ daa' → rate_at daa ≤ rate_at daa'.
Proof. intros Hd. pose proof rates. unfold rate_at. destruct (Z.leb_spec fork daa), (Z.leb_spec fork daa'); lia. Qed.

(** At the 96th month of the table, which is the 24th of the calendar, the curve is below
    the final floor, at any rate. *)
Lemma curve_below_floor x b : 96 ≤ x → 0 < b → scaled (month_value x) b ≤ div_ceil64 60000000 b.
Proof.
  intros Hx Hb. pose proof (month_value_mono 96 x Hx) as Hv. change (month_value 96) with 171875000 in Hv.
  pose proof (month_value_range x) as Hr. transitivity (scaled 171875000 b); [apply scaled_mono; lia|].
  unfold scaled. rewrite !div_ceil_spec by lia.
  set (q := (171875000 + b - 1) / b). set (t := (60000000 + b - 1) / b).
  assert (b * q ≤ 171875000 + b - 1) by (apply Z.mul_div_le; lia).
  assert (60000000 + b - 1 < b * (t + 1)) by (pose proof (Z.mul_succ_div_gt (60000000 + b - 1) b Hb); unfold t; lia).
  assert (q * 3 / 22 < t + 1); [|lia]. apply Z.div_lt_upper_bound; [lia|]. nia.
Qed.
End emission.

(** C24. The emission schedule, for every network whose block rate does not go down: building
    the manager and every subsidy are free of panics and overflow; before the deflationary
    phase a block is paid the base subsidy; after it the subsidy never increases, is never
    above that of the first month nor, for a slow decay, the first floor, and is never below
    the final floor of the tail, which is positive.  That floor is taken at the rate after
    the fork, also before it.  Once 24 months have passed, the subsidy is at most the final
    rate of the tail at the block rate in force; and it is exactly the floor, forever, once
    the fork is active or if it does not change the rate. *)
Theorem emission_schedule {E} script_max payload_max deflation base bps toccata :
  rates_ok bps → in_u 64 deflation →
  ∃ m, manager_new (E := E) script_max payload_max deflation base bps toccata = Ok m ∧
    let floor := div_ceil64 TAIL_SUBSIDY_FINAL_PER_SEC_SOMPI (forked_after bps) in
    0 < floor ∧
    (∀ daa, daa < deflation → calc_block_subsidy (E := E) m daa = Ok base) ∧
    (∀ daa daa', deflation ≤ daa ≤ daa' → daa' < 2 ^ 64 →
      ∃ s s', calc_block_subsidy (E := E) m daa = Ok s ∧ calc_block_subsidy (E := E) m daa' = Ok s' ∧ floor ≤ s' ≤ s ∧
        s ≤ Z.max (scaled 44000000000 (forked_before bps)) (div_ceil64 TAIL_SUBSIDY_INITIAL_PER_SEC_SOMPI (forked_after bps))) ∧
    (∀ daa, deflation ≤ daa < 2 ^ 64 → TAIL_STEP_DOWN_MONTH * SECONDS_PER_MONTH ≤ elapsed m daa →
      ∃ s, calc_block_subsidy (E := E) m daa = Ok s ∧ floor ≤ s ≤ div_ceil64 TAIL_SUBSIDY_FINAL_PER_SEC_SOMPI (rate_at m daa) ∧
        (fp_activation bps ≤ daa ∨ forked_before bps = forked_after bps → s = floor)).
Proof.
  intros Hr Hd. pose proof Hr as [Hb Hba _]. unfold manager_new.
  rewrite !scaled_table_Ok by (apply table_range || lia). cbn [mbind res_mbind]. eexists. split; [done|].
  set (m := mkManager _ _ _ _ _ _ _ _ _). assert (made m) as Hm by by constructor. cbn zeta.
  assert (∀ x, div_ceil64 60000000 (forked_after bps) ≤ floor_at m x ≤ div_ceil64 600000000 (forked_after bps)) as Hfl.
  { intros x. unfold floor_at. cbn [bps_history m]. assert (div_ceil64 60000000 (forked_after bps) ≤ div_ceil64 600000000 (forked_after bps)) by (apply div_ceil_mono; lia).
    destruct (_ <? _); lia. }
  split_and!.
  - rewrite div_ceil_spec by lia. apply Z.div_str_pos. lia.
  - intros daa Hlt. unfold calc_block_subsidy. by rewrite (proj2 (Z.ltb_lt _ _)).
  - intros daa daa' Hdaa Hlt. eexists _, _. rewrite !(block_subsidy_Ok m Hm) by (simpl; lia). split; [done|]. split; [done|].
    pose proof (table_month_range m Hm daa ltac:(simpl; lia)). pose proof (table_month_mono m Hm daa daa' ltac:(simpl; lia) ltac:(lia)) as Hmon.
    pose proof (floor_mono m Hm _ _ (conj (proj1 H) Hmon)). pose proof (Hfl (table_month m daa')). pose proof (Hfl (table_month m daa)).
    pose proof (month_value_mono _ _ Hmon). pose proof (month_value_range (table_month m daa)). pose proof (month_value_range (table_month m daa')).
    pose proof (rate_range m Hm daa). pose proof (rate_mono m Hm daa daa' ltac:(lia)).
    assert (scaled (month_value (table_month m daa')) (rate_at m daa') ≤ scaled (month_value (table_month m daa)) (rate_at m daa)) by (apply scaled_mono; lia).
    assert (scaled (month_value (table_month m daa)) (rate_at m daa) ≤ scaled 44000000000 (forked_before bps)).
    { apply scaled_mono; [lia| |lia|lia]. unfold rate_at. cbn [bps_history m]. destruct (_ <=? _); lia. }
    lia.
  - intros daa Hdaa He. rewrite (block_subsidy_Ok m Hm) by (simpl; lia). eexists. split; [done|].
    assert (96 ≤ table_month m daa) as Hmon by (unfold table_month; apply Z.div_le_lower_bound; lia).
    pose proof (rate_range m Hm daa) as Hpos. pose proof (curve_below_floor _ _ Hmon Hpos) as Hcurve.
    assert (24 ≤ table_month m daa * 3 / 12) by (apply Z.div_le_lower_bound; lia).
    assert (floor_at m (table_month m daa) = div_ceil64 60000000 (forked_after bps)) as ->.
    { unfold floor_at. by rewrite (proj2 (Z.ltb_ge _ _)) by lia. }
    assert (rate_at m daa ≤ forked_after bps) by (unfold rate_at; cbn [bps_history m]; destruct (_ <=? _); lia).
    assert (div_ceil64 60000000 (forked_after bps) ≤ div_ceil64 60000000 (rate_at m daa)) by (apply div_ceil_mono; lia).
    split; [lia|]. intros Hfork. assert (rate_at m daa = forked_after bps) as Hrate.
    { unfold rate_at. cbn [bps_history m]. destruct (Z.leb_spec (fp_activation bps) daa), Hfork; (done || lia). }
    rewrite Hrate in *. lia.
Qed.

(** ** The reward of a mergeset *)

Section rewards.
Context (m : CoinbaseManager) (rewards : gmap Hash BlockRewardData) (non_daa : gset Hash).

(** What a merged block earns: for its miner when it is blue, for the merging one when it is red. *)
Definition blue_reward (b : Hash) : Z :=
  match rewards !! b with Some r => if bool_decide (b ∈ non_daa) then 0 else rd_subsidy r + rd_total_fees r | None => 0 end.
Definition red_reward (b : Hash) : Z :=
  match rewards !! b with Some r => if bool_decide (b ∈ non_daa) then rd_total_fees r else rd_subsidy r + rd_total_fees r | None => 0 end.

Definition reward_wf (r : BlockRewardData) : Prop := 0 ≤ rd_subsidy r ∧ 0 ≤ rd_total_fees r.
Definition rewarded (l : list Hash) : Prop := Forall (λ b, ∃ r, rewards !! b = Some r ∧ reward_wf r) l.

Lemma blue_reward_nonneg b : (∃ r, rewards !! b = Some r ∧ reward_wf r) → 0 ≤ blue_reward b.
Proof. intros (r & Hr & H1 & H2). unfold blue_reward. rewrite Hr. destruct (bool_decide _); lia. Qed.
Lemma red_reward_nonneg b : (∃ r, rewards !! b = Some r ∧ reward_wf r) → 0 ≤ red_reward b.
Proof. intros (r & Hr & H1 & H2). unfold red_reward. rewrite Hr. destruct (bool_decide _); lia. Qed.
Lemma rewards_nonneg f l : (∀ b, (∃ r, rewards !! b = Some r ∧ reward_wf r) → 0 ≤ f b) → rewarded l → 0 ≤ sumZ (f <$> l).
Proof. intros Hf Hl. apply sumZ_nonneg, Forall_fmap. eapply Forall_impl; [exact Hl|]. intros b. apply Hf. Qed.

(** An output that pays a blue block's miner. *)
Definition pays_blue (blues : list Hash) (o : TransactionOutput) : Prop :=
  0 < out_value o ∧ out_covenant o = None ∧ ∃ b r, b ∈ blues ∧ rewards !! b = Some r ∧ out_spk o = rd_script_public_key r.

Lemma blue_outputs_spec blues :
  rewarded blues → sumZ (blue_reward <$> blues) < 2 ^ 64 →
  ∃ outs, blue_outputs rewards non_daa blues = Ok outs ∧ sumZ (out_value <$> outs) = sumZ (blue_reward <$> blues) ∧
    (length outs ≤ length blues)%nat ∧ Forall (pays_blue blues) outs.
Proof.
  induction 1 as [|b l (r & Hr & Hw) Hl IH]; intros Hsum; cbn [blue_outputs].
  { exists []. split_and!; [done|done|done|constructor]. }
  rewrite fmap_cons, sumZ_cons in Hsum. pose proof (rewards_nonneg blue_reward l blue_reward_nonneg Hl).
  assert (0 ≤ blue_reward b) by (apply blue_reward_nonneg; eauto).
  destruct (IH ltac:(lia)) as (outs & Hout & Hs & Hlen & Hf). rewrite fmap_cons, sumZ_cons.
  assert (Forall (pays_blue (b :: l)) outs) as Hf'.
  { eapply Forall_impl; [exact Hf|]. intros o (? & ? & b' & r' & Hb & ?). split_and!; [done|done|]. exists b', r'. split; [by apply list_elem_of_further|done]. }
  revert Hsum. assert (blue_reward b = if bool_decide (b ∈ non_daa) then 0 else rd_subsidy r + rd_total_fees r) as -> by (unfold blue_reward; by rewrite Hr).
  destruct (bool_decide (b ∈ non_daa)); intros Hsum.
  - exists outs. split_and!; [done|lia|simpl; lia|done].
  - rewrite Hr. cbn [unwrap mbind res_mbind]. rewrite (proj2 (add_p_Ok 64 (rd_subsidy r) (rd_total_fees r) _)) by (split; [done|lia]).
    cbn [mbind res_mbind]. rewrite Hout. cbn [mbind res_mbind]. destruct Hw as [Hw1 Hw2].
    destruct (Z.ltb_spec 0 (rd_subsidy r + rd_total_fees r)).
    + eexists. split; [done|]. rewrite fmap_cons, sumZ_cons. cbn [out_value length]. split_and!; [lia|lia|].
      constructor; [|done]. split_and!; [done|done|]. exists b, r. split; [apply list_elem_of_here|done].
    + exists outs. split_and!; [done|lia|simpl; lia|done].
Qed.

Lemma red_rewards_spec reds acc :
  rewarded reds → 0 ≤ acc → acc + sumZ (red_reward <$> reds) < 2 ^ 64 →
  red_rewards rewards non_daa reds acc = Ok (acc + sumZ (red_reward <$> reds)).
Proof.
  intros Hl. revert acc. induction Hl as [|b l (r & Hr & Hw) Hl IH]; intros acc Hacc Hsum; cbn [red_rewards].
  { rewrite fmap_nil. change (sumZ []) with 0. f_equal. lia. }
  rewrite fmap_cons, sumZ_cons in *. pose proof (rewards_nonneg red_reward l red_reward_nonneg Hl).
  assert (0 ≤ red_reward b) by (apply red_reward_nonneg; eauto). rewrite Hr. cbn [unwrap mbind res_mbind].
  assert ((if bool_decide (b ∈ non_daa) then Ok (rd_total_fees r) else add_p 64 (rd_subsidy r) (rd_total_fees r)) = Ok (E := CoinbaseError) (red_reward b)) as ->.
  { unfold red_reward in *. rewrite Hr in *. destruct (bool_decide _); [done|].
    by rewrite (proj2 (add_p_Ok 64 (rd_subsidy r) (rd_total_fees r) _)) by (split; [done|lia]). }
  cbn [mbind res_mbind]. rewrite (proj2 (add_p_Ok 64 acc (red_reward b) _)) by (split; [done|lia]). cbn [mbind res_mbind].
  rewrite IH by lia. f_equal. lia.
Qed.
End rewards.

(** C23. The expected coinbase pays the mergeset exactly.  When every merged block has its
    reward data and the rewards fit in a [u64], the transaction is built without a panic;
    its outputs add up to the subsidies and fees of the blue blocks in the DAA window, and
    of the red ones, with the fees alone of the red ones outside it; no output is empty;
    its payload reads back as the blue score, the subsidy of the schedule, the shielded
    commitment and the miner's data; and it obeys the coinbase rule of the isolation
    check when the mergeset is within the GHOSTDAG bound. *)
Theorem coinbase_pays_mergeset m v rewards non_daa daa miner gd commitment :
  made m → deflationary_phase_daa_score m ≤ daa < 2 ^ 64 → 0 ≤ cm_script_public_key_max_len m < 2 ^ 8 →
  coinbase_payload_script_public_key_max_len v = cm_script_public_key_max_len m →
  (∀ s, in_u 64 s → coinbase_wf m (mkCoinbase (gd_blue_score gd) s commitment miner)) →
  rewarded rewards (mergeset_blues gd) → rewarded rewards (mergeset_reds gd) →
  sumZ (blue_reward rewards non_daa <$> mergeset_blues gd) + sumZ (red_reward rewards non_daa <$> mergeset_reds gd) < 2 ^ 64 →
  Z.of_nat (length (mergeset_blues gd)) ≤ ghostdag_k v + 1 →
  Forall (λ b, ∀ r, rewards !! b = Some r → zlen (spk_script (rd_script_public_key r)) ≤ cm_script_public_key_max_len m) (mergeset_blues gd) →
  ∃ t s, expected_coinbase_transaction m rewards non_daa daa miner gd commitment = Ok t ∧
    calc_block_subsidy (E := CoinbaseError) m daa = Ok s ∧
    sumZ (out_value <$> outputs (template_tx t)) =
      sumZ (blue_reward rewards non_daa <$> mergeset_blues gd) + sumZ (red_reward rewards non_daa <$> mergeset_reds gd) ∧
    Forall (λ o, 0 < out_value o) (outputs (template_tx t)) ∧
    (Z.of_nat (length (payload (template_tx t))) ≤ cm_max_coinbase_payload_len m →
      deserialize_coinbase_payload m (payload (template_tx t)) = Ok (mkCoinbase (gd_blue_score gd) s commitment miner)) ∧
    is_coinbase (template_tx t) = true ∧ check_coinbase_in_isolation v (template_tx t) = Ok tt.
Proof.
  intros Hm Hdaa Hmax Hv Hminer Hb Hr Hsum Hk Hspk.
  pose proof (rewards_nonneg rewards (red_reward rewards non_daa) _ (red_reward_nonneg rewards non_daa) Hr) as Hrn.
  pose proof (rewards_nonneg rewards (blue_reward rewards non_daa) _ (blue_reward_nonneg rewards non_daa) Hb) as Hbn.
  destruct (blue_outputs_spec rewards non_daa _ Hb ltac:(lia)) as (outs & Hout & Hs & Hlen & Hpays).
  set (red := sumZ (red_reward rewards non_daa <$> mergeset_reds gd)) in *.
  set (subsidy := Z.max (scaled (month_value (table_month m daa)) (rate_at m daa)) (floor_at m (table_month m daa))).
  assert (in_u 64 subsidy) as Hsub.
  { pose proof (month_value_range (table_month m daa)). pose proof (rate_range m Hm daa). pose proof (rates m Hm).
    pose proof (scaled_range (month_value (table_month m daa)) (rate_at m daa) ltac:(lia) ltac:(lia)).
    unfold in_u, subsidy, floor_at. pose proof (div_ceil_range 600000000 (forked_after (bps_history m)) ltac:(lia) ltac:(lia)).
    pose proof (div_ceil_range 60000000 (forked_after (bps_history m)) ltac:(lia) ltac:(lia)). destruct (_ <? 24); lia. }
  pose proof (Hminer subsidy Hsub) as Hw. unfold expected_coinbase_transaction. rewrite Hout. cbn [mbind res_mbind].
  rewrite (red_rewards_spec rewards non_daa _ 0 Hr ltac:(lia)) by (fold red; lia). fold red. rewrite Z.add_0_l. cbn [mbind res_mbind].
  rewrite (block_subsidy_Ok m Hm daa Hdaa). fold subsidy. cbn [mbind res_mbind]. rewrite (serialize_Ok _ _ Hw). cbn [mbind res_mbind].
  set (all := if 0 <? red then _ else _). eexists _, subsidy. split; [done|]. split; [done|]. cbn [template_tx outputs payload].
  assert (sumZ (out_value <$> all) = sumZ (out_value <$> outs) + red ∧ (length all ≤ length outs + 1)%nat ∧ Forall (λ o, 0 < out_value o) all ∧
    Forall (λ o, zlen (spk_script (out_spk o)) ≤ cm_script_public_key_max_len m) all) as (Hall & Hn & Hpos & Hscr).
  { assert (Forall (λ o, 0 < out_value o) outs ∧ Forall (λ o, zlen (spk_script (out_spk o)) ≤ cm_script_public_key_max_len m) outs) as [Hp1 Hp2].
    { split; (eapply Forall_impl; [exact Hpays|]); intros o (Hp & _ & b & r & Hin & Hrb & Ho); [done|].
      simpl. rewrite Ho. rewrite Forall_forall in Hspk. by apply (Hspk b). }
    unfold all. destruct (Z.ltb_spec 0 red); [|split_and!; [lia|lia|done|done]].
    rewrite fmap_app, sumZ_app, length_app. split_and!; [simpl; rewrite sumZ_cons; change (sumZ []) with 0; lia|simpl; lia| |]; apply Forall_app; split; try done;
      repeat constructor; [done|]. exact (cw_script_len _ _ Hw). }
  split_and!; [lia|done| |done|].
  - intros Hmaxlen. unfold deserialize_coinbase_payload. pose proof (length_serialized m _ Hw) as Hlp.
    rewrite (proj2 (Z.ltb_ge _ _)) by lia. rewrite (proj2 (Z.ltb_ge _ _) Hmaxlen). by rewrite parse_coinbase_serialized by (done || lia).
  - apply coinbase_in_isolation_iff. intros _. cbn [inputs storage_mass outputs]. rewrite Hv. split_and!; [done|done|unfold zlen; lia|done].
Qed.

(** ** A network of one block per second *)
Module SampleCoinbase.
Definition bps : ForkedParam := mkForked 1 1 (2 ^ 64 - 1).
Definition manager : CoinbaseManager :=
  mkManager 150 204 0 0 bps 0 ((λ v, scaled v 1) <$> SUBSIDY_BY_MONTH_TABLE) ((λ v, scaled v 1) <$> SUBSIDY_BY_MONTH_TABLE) (2 ^ 64 - 1).
Lemma bps_ok : rates_ok bps.
Proof. by constructor. Qed.
(** [TESTNET_PARAMS]: 24 months pass before the fork. *)
Definition testnet_bps : ForkedParam := mkForked 1 10 88657000.
Lemma testnet_bps_ok : rates_ok testnet_bps.
Proof. by constructor. Qed.
Lemma manager_made : made manager.
Proof. by constructor; [apply bps_ok|..]. Qed.

Definition miner : MinerData := mkMiner (mkSpk 0 [81]) [1; 2].
Definition data (subsidy : Z) : CoinbaseData := mkCoinbase 9 subsidy (replicate 32 3) miner.
Lemma data_wf s : in_u 64 s → coinbase_wf manager (data s).
Proof. intros Hs. constructor; [done|done| |done| |done|]; SampleTx.wf. Qed.

(** Two blue blocks, one of them outside of the window, and a red one. *)
Definition block (n : Z) : Hash := replicate 32 n.
Definition rewards : gmap Hash BlockRewardData :=
  <[block 1 := mkReward 100 5 (mkSpk 0 [82])]> (<[block 2 := mkReward 100 6 (mkSpk 0 [83])]> {[block 3 := mkReward 100 7 (mkSpk 0 [84])]}).
Definition ghostdag : GhostdagData := mkGhostdag 9 [block 1; block 2] [block 3].
End SampleCoinbase.
Import SampleCoinbase.

Lemma coinbase_payload_roundtrip_witness :
  ∃ p, serialize_coinbase_payload manager (data 77) = Ok p ∧ deserialize_coinbase_payload manager p = Ok (data 77).
Proof.
  destruct (proj1 (coinbase_payload_roundtrip manager ltac:(simpl; lia)) (data 77) (data_wf 77 ltac:(done))) as (p & Hp & Hd & _).
  exists p. split; [done|]. apply Hd. injection Hp as <-. by vm_compute.
Defined.

Lemma emission_schedule_witness :
  (∃ m, manager_new (E := CoinbaseError) 150 204 0 0 bps 0 = Ok m ∧ calc_block_subsidy (E := CoinbaseError) m 0 = Ok 6000000000 ∧
    calc_block_subsidy (E := CoinbaseError) m 100000000 = Ok 60000000) ∧
  (∃ m s, manager_new (E := CoinbaseError) 150 204 15519600 50000000000 testnet_bps 0 = Ok m ∧
    calc_block_subsidy (E := CoinbaseError) m 80000000 = Ok s ∧ 6000000 < s ≤ 60000000).
Proof.
  destruct (emission_schedule (E := CoinbaseError) 150 204 0 0 bps 0 bps_ok ltac:(done)) as (m & Hm & _ & _ & _ & Htail).
  destruct (emission_schedule (E := CoinbaseError) 150 204 15519600 50000000000 testnet_bps 0 testnet_bps_ok ltac:(done)) as (m' & Hm' & _ & _ & _ & Htail').
  split.
  - exists m. split; [done|]. injection Hm as <-. split; [vm_compute; reflexivity|].
    destruct (Htail 100000000) as (s & -> & _ & Hs); [done|done|]. rewrite Hs by (by right). done.
  - exists m'. injection Hm' as <-. destruct (Htail' 80000000) as (s & Hs & Hr & _); [done|done|].
    exists s. split; [done|]. split; [done|]. split; [|transitivity (div_ceil64 60000000 1); [apply Hr|done]].
    assert (Ok s = Ok 20880438) as [= ->] by (rewrite <- Hs; vm_compute; reflexivity). done.
Defined.

Lemma coinbase_pays_mergeset_witness :
  ∃ t s, expected_coinbase_transaction manager rewards {[ block 2 ]} 0 miner ghostdag (replicate 32 3) = Ok t ∧
    calc_block_subsidy (E := CoinbaseError) manager 0 = Ok s ∧ sumZ (out_value <$> outputs (template_tx t)) = 105 + 107 ∧
    check_coinbase_in_isolation SampleValidator.validator (template_tx t) = Ok tt.
Proof.
  destruct (coinbase_pays_mergeset manager SampleValidator.validator rewards {[ block 2 ]} 0 miner ghostdag (replicate 32 3)) as (t & s & Ht & Hs & Hsum & _ & _ & _ & Hiso).
  - apply manager_made.
  - simpl. lia.
  - simpl. lia.
  - done.
  - apply data_wf.
  - repeat constructor; (eexists; split; [vm_compute; reflexivity|by split]).
  - repeat constructor; (eexists; split; [vm_compute; reflexivity|by split]).
  - by vm_compute.
  - by vm_compute.
  - repeat constructor; intros r Hr; vm_compute in Hr; injection Hr as <-; by vm_compute.
  - exists t, s. split; [done|]. split; [done|]. split; [|done]. rewrite Hsum. vm_compute. reflexivity.
Defined.
