(* ===== verification/Header.v ===== *)
(** * Block headers (consensus/core/src/header.rs, hashing/header.rs, utils/src/iter.rs)

    The run-length encoding of the parents by level, the header with its optional
    merged-mining witness, and the header hash with what it commits to.  A blue work is a
    [Uint192] of three limbs. *)

From S2P Require Import Prelude Bytes Limbs Uint Transaction Sighash Merkle TxHash.

(** ** Run-length encoding (utils/src/iter.rs) *)

(** [Itertools::dedup_with_count], and what its documentation says. *)
Class Dedup := dedup_with_count : ∀ {A} `{EqDecision A}, list A → list (nat * A).
Class DedupLaws `{Dedup} : Prop := {
  dedup_expands {A} `{EqDecision A} (l : list A) : concat ((λ r, replicate r.1 r.2) <$> dedup_with_count l) = l;
  dedup_counts {A} `{EqDecision A} (l : list A) : Forall (λ r, (0 < r.1)%nat) (dedup_with_count l);
  dedup_adjacent {A} `{EqDecision A} (l : list A) i (a b : nat * A) :
    dedup_with_count l !! i = Some a → dedup_with_count l !! S i = Some b → a.2 ≠ b.2;
}.

Fixpoint cumulate {A} (cumulative : Z) (l : list (nat * A)) : list (Z * A) :=
  match l with
  | [] => []
  | (count, value) :: l => (cumulative + Z.of_nat count, value) :: cumulate (cumulative + Z.of_nat count) l
  end.
Definition rle_cumulative `{Dedup} {A} `{EqDecision A} (l : list A) : list (Z * A) := cumulate 0 (dedup_with_count l).

(** The iterator, run to its end. *)
Fixpoint expand_rle {E A} (prev : Z) (l : list (Z * A)) : res E (list A) :=
  match l with
  | [] => Ok []
  | (cum, item) :: l =>
      count ← unwrap (checked_sub cum prev);
      _ ← assert_p (0 <? count);
      rest ← expand_rle cum l;
      Ok (replicate (Z.to_nat count) item ++ rest)
  end.

(** ** Compressed parents *)

Abbreviation CompressedParents := (list (Z * list Hash)).

Inductive CompressedParentsError := LevelsExceeded | LevelsNotStrictlyIncreasing | NotFullyCompressed.

Definition expanded_len (c : CompressedParents) : Z := match last c with Some (cum, _) => cum | None => 0 end.

(** [partition_point], on a slice that is partitioned: the first run that is not before. *)
Fixpoint partition_point {E} (index : Z) (c : CompressedParents) : res E nat :=
  match c with
  | [] => Ok 0%nat
  | (cum, _) :: c =>
      last_level ← sub_p cum 1;
      if last_level <? index then i ← partition_point index c; Ok (S i) else Ok 0%nat
  end.

Definition parents_get {E} (c : CompressedParents) (index : Z) : res E (option (list Hash)) :=
  if expanded_len c <=? index then Ok None
  else if index =? 0 then r ← idx c 0; Ok (Some r.2)
  else
    i ← partition_point index c;
    r ← idx c i;
    Ok (Some r.2).

Definition expanded_iter {E} (c : CompressedParents) : res E (list (list Hash)) := expand_rle 0 c.

Definition parents_push {E} (c : CompressedParents) (parents_at_level : list Hash) : res E CompressedParents :=
  match last c with
  | Some (count, last_parents) =>
      next_cum ← unwrap (checked_add 8 count 1);
      if bool_decide (last_parents = parents_at_level) then Ok (take (length c - 1) c ++ [(next_cum, last_parents)])
      else Ok (c ++ [(next_cum, parents_at_level)])
  | None => Ok [(1, parents_at_level)]
  end.

(** [TryFrom<Vec<Vec<Hash>>>]. *)
Definition parents_of_levels `{Dedup} (parents : list (list Hash)) : res CompressedParentsError CompressedParents :=
  if (255 <? length parents)%nat then Err LevelsExceeded
  else Ok ((λ r, (r.1 mod 2 ^ 8, r.2)) <$> rle_cumulative parents).

(** [TryFrom<Vec<(u8, Vec<Hash>)>>], the check of each run against the one before. *)
Fixpoint check_runs (last_cumulative_level : Z) (last_parents : list Hash) (runs : CompressedParents) : res CompressedParentsError () :=
  match runs with
  | [] => Ok tt
  | (cumulative_level, parents) :: runs =>
      if cumulative_level <=? last_cumulative_level then Err LevelsNotStrictlyIncreasing
      else if bool_decide (last_parents = parents) then Err NotFullyCompressed
      else check_runs cumulative_level parents runs
  end.
Definition parents_of_runs (runs : CompressedParents) : res CompressedParentsError CompressedParents :=
  match runs with
  | [] => Ok []
  | (cum, parents) :: rest => if cum =? 0 then Err LevelsNotStrictlyIncreasing else _ ← check_runs cum parents rest; Ok runs
  end.

(** *** Their meaning *)

(** Runs that follow a level and its parents: increasing, within a [u8], fully compressed. *)
Fixpoint runs_after {A} (prev : Z) (last : option A) (l : list (Z * A)) : Prop :=
  match l with
  | [] => True
  | (cum, x) :: l => prev < cum < 256 ∧ Some x ≠ last ∧ runs_after cum (Some x) l
  end.
Definition parents_valid (c : CompressedParents) : Prop := runs_after 0 None c.

(** The levels that the runs stand for. *)
Fixpoint levels_after {A} (prev : Z) (l : list (Z * A)) : list A :=
  match l with
  | [] => []
  | (cum, x) :: l => replicate (Z.to_nat (cum - prev)) x ++ levels_after cum l
  end.

Section runs.
Context {E A : Type}.
Implicit Types l : list (Z * A).

Lemma expand_runs prev la l : runs_after prev la l → expand_rle (E := E) prev l = Ok (levels_after prev l).
Proof.
  revert prev la. induction l as [|[cum x] l IH]; intros prev la; [done|]. intros (Hp & _ & Hl). simpl.
  unfold checked_sub. rewrite (proj2 (Z.leb_le _ _)) by lia. cbn [unwrap mbind res_mbind]. unfold assert_p.
  rewrite (proj2 (Z.ltb_lt _ _)) by lia. cbn [mbind res_mbind]. by rewrite (IH _ _ Hl).
Qed.

Lemma runs_last prev la l cum x :
  runs_after prev la l → last l = Some (cum, x) → prev < cum < 256 ∧ Z.of_nat (length (levels_after prev l)) = cum - prev.
Proof.
  revert prev la. induction l as [|[cum' y] l IH]; intros prev la; [done|]. intros (Hp & _ & Hl) Hlast.
  cbn [levels_after]. rewrite length_app, length_replicate. destruct l as [|r l].
  - injection Hlast as -> ->. simpl. lia.
  - destruct (IH _ _ Hl Hlast). lia.
Qed.

Lemma runs_after_app prev la l cum x r :
  runs_after prev la (l ++ [(cum, x)]) → runs_after prev la l ∧ (runs_after cum (Some x) r → runs_after prev la (l ++ (cum, x) :: r)).
Proof.
  revert prev la. induction l as [|[cum' y] l IH]; intros prev la; simpl; [by intros (? & ? & _)|].
  intros (Hp & Hx & Hl). destruct (IH _ _ Hl) as [Hi Hr]. split; [done|]. intros Hrr. split_and!; [lia..|done|by apply Hr].
Qed.

(** Run-length encodings are unique. *)
Lemma runs_unique prev la l l' :
  runs_after prev la l → runs_after prev la l' → levels_after prev l = levels_after prev l' → l = l'.
Proof.
  revert prev la l'. induction l as [|[cum x] l IH]; intros prev la [|[cum' x'] l']; [done|..].
  - intros _ (Hp & _). cbn [levels_after]. intros Heq. apply (f_equal length) in Heq. rewrite length_app, length_replicate in Heq. simpl in Heq. lia.
  - intros (Hp & _) _. cbn [levels_after]. intros Heq. apply (f_equal length) in Heq. rewrite length_app, length_replicate in Heq. simpl in Heq. lia.
  - intros (Hp & Hx & Hl) (Hp' & Hx' & Hl') Heq. cbn [levels_after] in Heq.
    assert (x = x') as <-.
    { replace (Z.to_nat (cum - prev)) with (S (Z.to_nat (cum - prev - 1))) in Heq by lia.
      replace (Z.to_nat (cum' - prev)) with (S (Z.to_nat (cum' - prev - 1))) in Heq by lia. by injection Heq. }
    assert (∀ a b (k k' : list (Z * A)), prev < a < b → runs_after a (Some x) k →
      replicate (Z.to_nat (a - prev)) x ++ levels_after a k = replicate (Z.to_nat (b - prev)) x ++ levels_after b k' → False) as Hlt.
    { intros a b k k' Hab Hk Heq'. replace (Z.to_nat (b - prev)) with (Z.to_nat (a - prev) + S (Z.to_nat (b - a - 1)))%nat in Heq' by lia.
      rewrite replicate_add, <- app_assoc in Heq'. apply app_inv_head in Heq'. destruct k as [|[c y] k]; [done|].
      destruct Hk as (? & Hne & _). cbn [levels_after] in Heq'. replace (Z.to_nat (c - a)) with (S (Z.to_nat (c - a - 1))) in Heq' by lia.
      injection Heq' as -> _. done. }
    destruct (Z.lt_trichotomy cum cum') as [Hc|[<-|Hc]]; [by destruct (Hlt cum cum' l l' ltac:(lia) Hl Heq)| |by destruct (Hlt cum' cum l' l ltac:(lia) Hl' (eq_sym Heq))].
    apply app_inv_head in Heq. f_equal. by apply (IH cum (Some x)).
Qed.
End runs.

(** What [dedup_with_count] gives is a valid encoding. *)
Lemma cumulate_levels {A} prev (d : list (nat * A)) :
  levels_after prev (cumulate prev d) = concat ((λ r, replicate r.1 r.2) <$> d).
Proof.
  revert prev. induction d as [|[n x] d IH]; intros prev; [done|]. csimpl. rewrite IH. do 2 f_equal. lia.
Qed.

Lemma cumulate_runs {A} prev la (d : list (nat * A)) :
  Forall (λ r, (0 < r.1)%nat) d → (∀ i a b, d !! i = Some a → d !! S i = Some b → a.2 ≠ b.2) →
  (∀ a, head d = Some a → Some a.2 ≠ la) →
  prev + Z.of_nat (length (concat ((λ r, replicate r.1 r.2) <$> d))) < 256 →
  runs_after prev la (cumulate prev d).
Proof.
  intros Hc. revert prev la. induction Hc as [|[n x] d Hn Hc IH]; intros prev la Hadj Hhd Hlen; [done|].
  csimpl in *. rewrite length_app, length_replicate in Hlen. split_and!; [lia|lia|by apply (Hhd (n, x))|].
  apply IH; [intros i a b Ha Hb; by apply (Hadj (S i) a b)| |lia].
  intros a Ha [= Heq]. destruct d as [|b d]; [done|]. injection Ha as ->. by apply (Hadj 0%nat (n, x) a).
Qed.

Lemma mod256_runs {A} prev la (l : list (Z * A)) : runs_after prev la l → 0 ≤ prev → (λ r, (r.1 mod 2 ^ 8, r.2)) <$> l = l.
Proof.
  revert prev la. induction l as [|[c x] l IH]; intros prev la; [done|]. intros (Hp & _ & Hl) H0. csimpl.
  rewrite Z.mod_small by (change (2 ^ 8) with 256; lia). f_equal. eapply IH; [done|lia].
Qed.

Lemma parents_of_levels_spec `{DedupLaws} ls :
  (length ls ≤ 255)%nat →
  ∃ c, parents_of_levels ls = Ok c ∧ parents_valid c ∧ levels_after 0 c = ls.
Proof.
  intros Hl. unfold parents_of_levels, rle_cumulative. rewrite (proj2 (Nat.ltb_ge _ _)) by lia.
  assert (runs_after 0 None (cumulate 0 (dedup_with_count ls))) as Hr.
  { apply cumulate_runs; [apply dedup_counts|apply dedup_adjacent|done|]. rewrite dedup_expands. lia. }
  eexists. split; [done|]. rewrite (mod256_runs 0 None) by done. split; [done|]. by rewrite cumulate_levels, dedup_expands.
Qed.

Lemma check_runs_spec cum p c : 0 ≤ cum → Forall (λ r, in_u 8 r.1) c → check_runs cum p c = Ok tt ↔ runs_after cum (Some p) c.
Proof.
  intros H0 Hf. revert cum p H0. induction Hf as [|[cum' p'] c Hc Hf IH]; intros cum p H0; [done|]. simpl in *. unfold in_u in Hc.
  destruct (Z.leb_spec cum' cum); [split; [done|lia]|]. case_bool_decide as Hd; [subst; split; [done|naive_solver]|].
  rewrite IH by lia. split; [|by intros (_ & _ & ?)]. intros Hr. split_and!; [lia..| |done]. congruence.
Qed.

Lemma runs_u8 {A} prev la (c : list (Z * A)) : 0 ≤ prev → runs_after prev la c → Forall (λ r, in_u 8 r.1) c.
Proof.
  revert prev la. induction c as [|[cum p] c IH]; intros prev la Hp; [constructor|]. intros (? & _ & Hc).
  constructor; [simpl; unfold in_u; lia|]. eapply IH; [|done]. lia.
Qed.

Lemma parents_of_runs_spec c : Forall (λ r, in_u 8 r.1) c → parents_of_runs c = Ok c ↔ parents_valid c.
Proof.
  intros Hf. destruct Hf as [|[cum p] c Hc Hf]; [done|]. simpl in Hc. unfold in_u in Hc. cbn [parents_of_runs parents_valid].
  unfold parents_valid. simpl. destruct (Z.eqb_spec cum 0) as [->|Hne]; [split; [done|lia]|].
  pose proof (check_runs_spec cum p c ltac:(lia) Hf) as Hs. destruct (check_runs cum p c) as [[]| |].
  - split; [|done]. intros _. split_and!; [lia..|done|by apply Hs].
  - split; [done|]. intros (_ & _ & ?). by apply Hs in H.
  - split; [done|]. intros (_ & _ & ?). by apply Hs in H.
Qed.

Lemma partition_point_spec {E} prev la c index :
  runs_after prev la c → 0 ≤ prev ≤ index →
  index - prev < Z.of_nat (length (levels_after prev c)) →
  ∃ i r, partition_point (E := E) index c = Ok i ∧ c !! i = Some r ∧ levels_after prev c !! Z.to_nat (index - prev) = Some r.2.
Proof.
  revert prev la. induction c as [|[cum p] c IH]; intros prev la; [simpl; lia|].
  intros (Hp & _ & Hc) Hi Hlen. cbn [levels_after] in *. rewrite length_app, length_replicate in Hlen. cbn [partition_point].
  unfold sub_p, checked_sub. rewrite (proj2 (Z.leb_le _ _)) by lia. cbn [unwrap mbind res_mbind].
  destruct (Z.ltb_spec (cum - 1) index) as [Hlt|Hge].
  - destruct (IH cum _ Hc ltac:(lia) ltac:(lia)) as (i & r & -> & Hr & Hl). exists (S i), r. split; [done|]. split; [done|].
    rewrite lookup_app_r by (rewrite length_replicate; lia). rewrite length_replicate.
    by replace (Z.to_nat (index - prev) - Z.to_nat (cum - prev))%nat with (Z.to_nat (index - cum)) by lia.
  - exists 0%nat, (cum, p). split; [done|]. split; [done|]. rewrite lookup_app_l by (rewrite length_replicate; lia).
    apply lookup_replicate. split; [done|lia].
Qed.

Lemma expanded_len_spec c : parents_valid c → expanded_len c = Z.of_nat (length (levels_after 0 c)).
Proof.
  intros Hc. unfold expanded_len. destruct (last c) as [[cum p]|] eqn:Hl; [|by apply last_None in Hl as ->].
  destruct (runs_last _ _ _ _ _ Hc Hl). lia.
Qed.

Lemma parents_get_spec {E} c index :
  parents_valid c → 0 ≤ index → parents_get (E := E) c index = Ok (levels_after 0 c !! Z.to_nat index).
Proof.
  intros Hc Hi. unfold parents_get. rewrite (expanded_len_spec c Hc). destruct (Z.leb_spec (Z.of_nat (length (levels_after 0 c))) index).
  { by rewrite lookup_ge_None_2 by lia. }
  destruct (Z.eqb_spec index 0) as [->|Hne].
  - destruct c as [|[cum p] c]; [simpl in *; lia|]. destruct Hc as (Hp & _). simpl.
    by replace (Z.to_nat (cum - 0)) with (S (Z.to_nat (cum - 1))) by lia.
  - destruct (partition_point_spec (E := E) 0 None c index Hc ltac:(lia) ltac:(lia)) as (i & r & -> & Hr & Hl).
    cbn [mbind res_mbind]. rewrite (idx_Ok _ _ _ Hr). cbn [mbind res_mbind]. rewrite Z.sub_0_r in Hl. by rewrite Hl.
Qed.

Lemma levels_after_app {A} prev (l : list (Z * A)) cum x :
  levels_after prev (l ++ [(cum, x)]) = levels_after prev l ++ replicate (Z.to_nat (cum - match last l with Some r => r.1 | None => prev end)) x.
Proof.
  revert prev. induction l as [|[c y] l IH]; intros prev; [simpl; by rewrite app_nil_r|]. cbn [levels_after app]. rewrite IH, <- app_assoc.
  rewrite last_cons. by destruct (last l).
Qed.

Lemma runs_after_snoc {A} prev la (l : list (Z * A)) cum x :
  runs_after prev la l → match last l with Some r => r.1 | None => prev end < cum < 256 →
  Some x ≠ match last l with Some r => Some r.2 | None => la end → runs_after prev la (l ++ [(cum, x)]).
Proof.
  revert prev la. induction l as [|[c y] l IH]; intros prev la; [done|]. intros (Hp & Hy & Hl) Hc Hx. cbn [app runs_after].
  rewrite last_cons in Hc, Hx. split_and!; [lia..|done|]. apply IH; [done|by destruct (last l)..].
Qed.

Lemma parents_push_spec {E} c p :
  parents_valid c → (length (levels_after 0 c) < 255)%nat →
  ∃ c', parents_push (E := E) c p = Ok c' ∧ parents_valid c' ∧ levels_after 0 c' = levels_after 0 c ++ [p].
Proof.
  intros Hc Hlen. pose proof (expanded_len_spec c Hc) as He. unfold parents_push. unfold expanded_len in He.
  destruct (last c) as [[cum q]|] eqn:Hl.
  2:{ apply last_None in Hl as ->. eexists. split; [done|]. split; [|done]. by split_and!. }
  pose proof (runs_last _ _ _ _ _ Hc Hl) as [Hcum _].
  unfold checked_add. rewrite (proj2 (Z.ltb_lt _ _)) by (change (2 ^ 8) with 256; lia). cbn [unwrap mbind res_mbind].
  case_bool_decide as Hq; eexists; (split; [done|]).
  - subst q. apply last_Some in Hl as [l ->]. rewrite length_app, Nat.add_sub, take_app_length. unfold parents_valid in *.
    assert (runs_after 0 None l ∧ match last l with Some r => r.1 | None => 0 end < cum ∧ Some p ≠ match last l with Some r => Some r.2 | None => None end) as (Hr & Hlt & Hne).
    { clear -Hc. revert Hc. generalize 0 (@None (list Hash)). induction l as [|[c y] l IH]; intros prev la; simpl.
      - intros (? & ? & _). split_and!; [done|lia|done].
      - intros (? & ? & Hl). destruct (IH _ _ Hl) as (? & ? & ?). rewrite last_cons. by destruct (last l). }
    split; [apply runs_after_snoc; [done|lia|done]|]. rewrite !levels_after_app, <- app_assoc. f_equal.
    change [p] with (replicate 1 p). rewrite <- replicate_add. f_equal. lia.
  - split.
    + apply runs_after_snoc; [done|rewrite Hl; simpl; lia|rewrite Hl; simpl; congruence].
    + rewrite levels_after_app, Hl. f_equal. simpl. by replace (Z.to_nat (cum + 1 - cum)) with 1%nat by lia.
Qed.

Lemma levels_bound c : parents_valid c → (length (levels_after 0 c) ≤ 255)%nat.
Proof.
  intros Hc. destruct (last c) as [[cum p]|] eqn:Hl; [|apply last_None in Hl as ->; simpl; lia]. destruct (runs_last _ _ _ _ _ Hc Hl). lia.
Qed.

Lemma parents_of_levels_back `{DedupLaws} c : parents_valid c → parents_of_levels (levels_after 0 c) = Ok c.
Proof.
  intros Hc. destruct (parents_of_levels_spec _ (levels_bound c Hc)) as (c' & -> & Hc' & Hl'). f_equal. by apply (runs_unique 0 None).
Qed.

(** The compressed parents are a canonical encoding of the levels.  Up to 255 levels are
    compressed to runs that expand to them again; runs that pass the validation are exactly
    such encodings, and compressing what they expand to gives them back; on them no
    operation panics, the length and the lookup are those of the list of levels, and adding
    a level appends it. *)
Theorem compressed_parents_canonical `{DedupLaws} {E} :
  (∀ ls, (length ls ≤ 255)%nat → ∃ c, parents_of_levels ls = Ok c ∧ parents_of_runs c = Ok c ∧ expanded_iter (E := E) c = Ok ls) ∧
  (∀ c, Forall (λ r, in_u 8 r.1) c → parents_of_runs c = Ok c → ∃ ls,
     expanded_iter (E := E) c = Ok ls ∧ (length ls ≤ 255)%nat ∧ parents_of_levels ls = Ok c ∧ expanded_len c = Z.of_nat (length ls) ∧
     (∀ i, parents_get (E := E) c (Z.of_nat i) = Ok (ls !! i)) ∧
     (∀ p, (length ls < 255)%nat → ∃ c', parents_push (E := E) c p = Ok c' ∧ parents_of_levels (ls ++ [p]) = Ok c')).
Proof.
  split.
  - intros ls Hlen. destruct (parents_of_levels_spec ls Hlen) as (c & Hp & Hc & Hls). exists c. split; [done|].
    split; [apply parents_of_runs_spec; [by apply (runs_u8 0 None)|done]|]. unfold expanded_iter. by rewrite (expand_runs 0 None) , Hls.
  - intros c Hf Hc. apply parents_of_runs_spec in Hc; [|done]. exists (levels_after 0 c).
    split_and!; [by apply (expand_runs 0 None)|by apply levels_bound|by apply parents_of_levels_back|by apply expanded_len_spec| |].
    + intros i. rewrite parents_get_spec by (done || lia). by rewrite Nat2Z.id.
    + intros p Hlt. destruct (parents_push_spec (E := E) c p Hc Hlt) as (c' & Hp & Hc' & Hls). exists c'. split; [done|].
      rewrite <- Hls. by apply parents_of_levels_back.
Qed.

(** ** Headers *)

(** The merged-mining witness of consensus/core/src/auxpow.rs, over the type of
    headers: its parent is a header again. *)
Record AuxPowOf (header : Type) := mkAuxPow {
  parent_header : header;
  parent_coinbase : Transaction;
  coinbase_merkle_branch : list Hash;
}.
Arguments mkAuxPow {header} _ _ _.
Arguments parent_header {header} _.
Arguments parent_coinbase {header} _.
Arguments coinbase_merkle_branch {header} _.

(** The cached hash is a field; [aux_pow] is the witness. *)
Inductive Header := mkHeader {
  hdr_hash : Hash;
  hdr_version : Z;
  parents_by_level : CompressedParents;
  hash_merkle_root : Hash;
  accepted_id_merkle_root : Hash;
  utxo_commitment : Hash;
  timestamp : Z;
  bits : Z;
  nonce : Z;
  daa_score : Z;
  blue_work : list Z;
  blue_score : Z;
  pruning_point : Hash;
  aux_pow : option (AuxPowOf Header);
}.
Definition AuxPow : Type := AuxPowOf Header.

(** [write_var_array] and [write_blue_work] of hashing/mod.rs. *)
Definition write_var_array (h : bytes) (arr : list Hash) : bytes := foldl (++) (write_len h (length arr)) arr.
Definition write_blue_work (h : bytes) (work : list Z) : bytes := write_var_bytes h (skip_zeros (uint_to_be_bytes work)).

Section header_hash.
Context `{KaspaHashes}.

Definition header_preimage {E} (h : Header) (nonce timestamp : Z) : res E bytes :=
  levels ← expanded_iter (parents_by_level h);
  let b := le_bytes 2 (hdr_version h) ++ le_bytes 8 (expanded_len (parents_by_level h)) in
  let b := foldl write_var_array b levels in
  let b := b ++ hash_merkle_root h ++ accepted_id_merkle_root h ++ utxo_commitment h ++
    le_bytes 8 timestamp ++ le_bytes 4 (bits h) ++ le_bytes 8 nonce ++ le_bytes 8 (daa_score h) ++ le_bytes 8 (blue_score h) in
  Ok (write_blue_work b (blue_work h) ++ pruning_point h).

Definition hash_override_nonce_time {E} (h : Header) (nonce timestamp : Z) : res E Hash :=
  b ← header_preimage h nonce timestamp;
  Ok (kaspa_digest BlockHash b).
Definition header_hash {E} (h : Header) : res E Hash := hash_override_nonce_time h (nonce h) (timestamp h).

Definition set_hash (x : Hash) (h : Header) : Header :=
  mkHeader x (hdr_version h) (parents_by_level h) (hash_merkle_root h) (accepted_id_merkle_root h) (utxo_commitment h)
    (timestamp h) (bits h) (nonce h) (daa_score h) (blue_work h) (blue_score h) (pruning_point h) (aux_pow h).
Definition finalize {E} (h : Header) : res E Header := x ← header_hash h; Ok (set_hash x h).

Definition new_finalized {E} (version : Z) (parents_by_level : CompressedParents) (hash_merkle_root accepted_id_merkle_root utxo_commitment : Hash)
    (timestamp bits nonce daa_score : Z) (blue_work : list Z) (blue_score : Z) (pruning_point : Hash) : res E Header :=
  finalize (mkHeader ZERO_HASH version parents_by_level hash_merkle_root accepted_id_merkle_root utxo_commitment timestamp bits nonce daa_score
              blue_work blue_score pruning_point None).

(** The witness is attached to a header whose hash stays. *)
Definition with_aux_pow (aux : AuxPow) (h : Header) : Header :=
  mkHeader (hdr_hash h) (hdr_version h) (parents_by_level h) (hash_merkle_root h) (accepted_id_merkle_root h) (utxo_commitment h)
    (timestamp h) (bits h) (nonce h) (daa_score h) (blue_work h) (blue_score h) (pruning_point h) (Some aux).

Definition direct_parents {E} (h : Header) : res E (list Hash) :=
  p ← parents_get (parents_by_level h) 0;
  Ok (default [] p).
End header_hash.

(** *** What the hash commits to *)

(** The widths of the fields. *)
Record header_wf (h : Header) : Prop := {
  hw_version : in_u 16 (hdr_version h);
  hw_parents : parents_valid (parents_by_level h);
  hw_levels : Forall (λ r, Z.of_nat (length r.2) < 2 ^ 64 ∧ Forall (is_array 32) r.2) (parents_by_level h);
  hw_roots : is_array 32 (hash_merkle_root h) ∧ is_array 32 (accepted_id_merkle_root h) ∧ is_array 32 (utxo_commitment h);
  hw_scores : in_u 64 (timestamp h) ∧ in_u 32 (bits h) ∧ in_u 64 (nonce h) ∧ in_u 64 (daa_score h) ∧ in_u 64 (blue_score h);
  hw_work : is_limbs 3 (blue_work h);
  hw_pruning : is_array 32 (pruning_point h);
}.

(** Everything but the cached hash, the witness, and what the caller overrides. *)
Definition header_view (h : Header) :=
  (hdr_version h, parents_by_level h, hash_merkle_root h, accepted_id_merkle_root h, utxo_commitment h, bits h, daa_score h,
   blue_score h, blue_work h, pruning_point h).

Definition enc_level (l : list Hash) : bytes := le_bytes 8 (Z.of_nat (length l)) ++ concat l.

Lemma hashes_prefix (l l' : list Hash) k k' :
  length l = length l' → Forall (is_array 32) l → Forall (is_array 32) l' → concat l ++ k = concat l' ++ k' → l = l' ∧ k = k'.
Proof.
  revert l'. induction l as [|x l IH]; intros [|y l'] Hlen Hl Hl'; simpl; intros Heq; [done|done|done|].
  apply Forall_cons in Hl as [[Hx _] Hl]. apply Forall_cons in Hl' as [[Hy _] Hl']. rewrite <- !app_assoc in Heq.
  apply fixed_prefix in Heq as [-> Heq]; [|congruence]. injection Hlen as Hlen. by destruct (IH l' Hlen Hl Hl' Heq) as [-> ->].
Qed.

Lemma level_prefix :
  prefix_code (λ l : list Hash, Z.of_nat (length l) < 2 ^ 64 ∧ Forall (is_array 32) l) enc_level id.
Proof.
  intros x y k k' [Hx Hfx] [Hy Hfy]. unfold enc_level. rewrite <- !app_assoc. intros Heq.
  apply int_prefix in Heq as [Hl Heq]; [|unfold in_u; lia..]. apply hashes_prefix in Heq; [done|lia|done|done].
Qed.

Lemma levels_Forall {A} (P : A → Prop) prev (l : list (Z * A)) : Forall (λ r, P r.2) l → Forall P (levels_after prev l).
Proof.
  intros Hf. revert prev. induction Hf as [|[c x] l Hx Hf IH]; intros prev; [constructor|]. simpl. apply Forall_app. split; [|done].
  by apply Forall_replicate.
Qed.

Lemma skip_zeros_inj a b : is_bytes a → is_bytes b → length a = length b → skip_zeros a = skip_zeros b → a = b.
Proof.
  intros Ha Hb Hl Heq. apply (f_equal of_be_bytes) in Heq. rewrite !skip_zeros_value in Heq.
  rewrite <- (be_bytes_of_be_bytes a), <- (be_bytes_of_be_bytes b) by done. congruence.
Qed.

Lemma blue_work_inj w w' : is_limbs 3 w → is_limbs 3 w' → skip_zeros (uint_to_be_bytes w) = skip_zeros (uint_to_be_bytes w') → w = w'.
Proof.
  intros Hw Hw'. rewrite !(uint_to_be_bytes_spec 3) by done. intros Heq. apply skip_zeros_inj in Heq; [|apply be_bytes_is_bytes..|by rewrite !length_be_bytes].
  apply (f_equal of_be_bytes) in Heq. destruct Hw as [Hn Hw], Hw' as [Hn' Hw'].
  pose proof (uval_bound _ Hw). pose proof (uval_bound _ Hw'). rewrite Hn in *. rewrite Hn' in *.
  rewrite !of_be_bytes_be_bytes in Heq by (unfold in_u; simpl in *; lia). apply uval_inj; [congruence|done..].
Qed.

Lemma work_length w : is_limbs 3 w → Z.of_nat (length (skip_zeros (uint_to_be_bytes w))) < 2 ^ 64.
Proof.
  intros Hw. rewrite (uint_to_be_bytes_spec 3) by done. pose proof (skip_zeros_sub _ (be_bytes_is_bytes (8 * 3) (uval w))) as [_ Hl].
  rewrite length_be_bytes in Hl. lia.
Qed.

Lemma header_preimage_enc {E} h n t :
  header_wf h → header_preimage (E := E) h n t =
  Ok (le_bytes 2 (hdr_version h) ++ le_bytes 8 (Z.of_nat (length (levels_after 0 (parents_by_level h)))) ++
      concat (enc_level <$> levels_after 0 (parents_by_level h)) ++
      hash_merkle_root h ++ accepted_id_merkle_root h ++ utxo_commitment h ++ le_bytes 8 t ++ le_bytes 4 (bits h) ++ le_bytes 8 n ++
      le_bytes 8 (daa_score h) ++ le_bytes 8 (blue_score h) ++
      le_bytes 8 (Z.of_nat (length (skip_zeros (uint_to_be_bytes (blue_work h))))) ++ skip_zeros (uint_to_be_bytes (blue_work h)) ++ pruning_point h).
Proof.
  intros Hw. unfold header_preimage, expanded_iter. rewrite (expand_runs 0 None) by apply Hw. cbn [mbind res_mbind].
  rewrite (expanded_len_spec _ (hw_parents _ Hw)). rewrite (foldl_concat _ enc_level).
  2:{ intros b l. unfold write_var_array, write_len, enc_level. rewrite app_assoc. generalize (b ++ le_bytes 8 (Z.of_nat (length l))) as c.
      induction l as [|x l IH]; intros c; simpl; [by rewrite app_nil_r|]. by rewrite IH, <- app_assoc. }
  unfold write_blue_work, write_var_bytes, write_len. by rewrite <- !app_assoc.
Qed.

(** Equal preimages come from equal headers, up to the cached hash and the witness. *)
Lemma header_preimage_inj {E} h h' n n' t t' b :
  header_wf h → header_wf h' → in_u 64 n → in_u 64 n' → in_u 64 t → in_u 64 t' →
  header_preimage (E := E) h n t = Ok b → header_preimage (E := E) h' n' t' = Ok b → header_view h = header_view h' ∧ n = n' ∧ t = t'.
Proof.
  intros Hw Hw' Hn Hn' Ht Ht'. rewrite !header_preimage_enc by done. intros Heq Hb. rewrite <- Hb in Heq. apply (inj Ok) in Heq. clear Hb.
  destruct Hw as [Hv Hp Hl ([Hr1 _] & [Hr2 _] & [Hr3 _]) (Hs1 & Hs2 & Hs3 & Hs4 & Hs5) Hbw Hpp].
  destruct Hw' as [Hv' Hp' Hl' ([Hr1' _] & [Hr2' _] & [Hr3' _]) (Hs1' & Hs2' & Hs3' & Hs4' & Hs5') Hbw' Hpp'].
  apply int_prefix in Heq as [Hver Heq]; [|done..].
  assert (∀ c, parents_valid c → in_u 64 (Z.of_nat (length (levels_after 0 c)))) as Hlv.
  { intros c Hc. rewrite <- expanded_len_spec by done. unfold expanded_len. destruct (last c) as [[cum p]|] eqn:Hlast; [|done].
    destruct (runs_last _ _ _ _ _ Hc Hlast). unfold in_u. lia. }
  apply int_prefix in Heq as [Hlen Heq]; [|by apply Hlv..]. apply Nat2Z.inj in Hlen.
  apply (prefix_code_list _ _ _ _ _ _ _ level_prefix Hlen) in Heq as [Hlevels Heq]; [|by apply levels_Forall..].
  rewrite !list_fmap_id in Hlevels. apply (runs_unique 0 None) in Hlevels; [|done..].
  do 3 (apply fixed_prefix in Heq as [? Heq]; [|congruence]).
  do 5 (apply int_prefix in Heq as [? Heq]; [|done..]).
  apply var_prefix in Heq as [Hwork Heq]; [|by apply work_length..]. apply blue_work_inj in Hwork; [|done..].
  split_and!; [|done..]. unfold header_view. congruence.
Qed.

Section binding.
Context `{KaspaHashesLaws}.

(** The message that is hashed for a header with a given nonce and time. *)
Definition header_messages (h : Header) (n t : Z) : list (HashDomain * bytes) :=
  match header_preimage (E := Empty_set) h n t with Ok b => [(BlockHash, b)] | _ => [] end.

Lemma header_message {E} h n t b : header_wf h → header_preimage (E := E) h n t = Ok b → (BlockHash, b) ∈ header_messages h n t.
Proof.
  intros Hw. unfold header_messages. rewrite !header_preimage_enc by done. intros Heq. apply (inj Ok) in Heq. rewrite Heq. apply list_elem_of_here.
Qed.

Lemma hash_override_inj {E} L h h' n n' t t' x :
  header_messages h n t ⊆ L → header_messages h' n' t' ⊆ L → header_wf h → header_wf h' → in_u 64 n → in_u 64 n' → in_u 64 t → in_u 64 t' →
  hash_override_nonce_time (E := E) h n t = Ok x → hash_override_nonce_time (E := E) h' n' t' = Ok x →
  kaspa_collision L ∨ (header_view h = header_view h' ∧ n = n' ∧ t = t').
Proof.
  intros Hs Hs' Hw Hw' Hn Hn' Ht Ht'. unfold hash_override_nonce_time. intros (b & Hb & Hx)%bind_Ok (b' & Hb' & Hx')%bind_Ok.
  injection Hx as <-. injection Hx' as Hx'. apply (digest_inj L) in Hx' as [?|[_ ->]]; [by left| |by eapply Hs', header_message|by eapply Hs, header_message].
  right. by eapply header_preimage_inj.
Qed.
End binding.

(** C26. The block hash is defined for every well-formed header and commits to all of it but the
    witness: two headers of one hash agree in version, parents at every level, commitments,
    time, target, nonce, scores, work and pruning point, unless their
    preimages differ and have one digest, or one has the zero digest.  The hash cached by [finalize] is that of the header, and attaching a witness keeps it. *)
Theorem header_hash_binding `{KaspaHashesLaws} {E} h h' aux :
  header_wf h → header_wf h' →
  ∃ x x', header_hash (E := E) h = Ok x ∧ header_hash (E := E) h' = Ok x' ∧
    finalize (E := E) h = Ok (set_hash x h) ∧ header_hash (E := E) (with_aux_pow aux (set_hash x h)) = Ok x ∧
    (x = x' → kaspa_collision (header_messages h (nonce h) (timestamp h) ++ header_messages h' (nonce h') (timestamp h')) ∨
       (header_view h = header_view h' ∧ nonce h = nonce h' ∧ timestamp h = timestamp h')).
Proof.
  intros Hw Hw'. unfold finalize, header_hash.
  assert (∀ h n t, header_wf h → ∃ x, hash_override_nonce_time (E := E) h n t = Ok x) as Hex.
  { intros h0 n t H0'. unfold hash_override_nonce_time. rewrite header_preimage_enc by done. by eexists. }
  destruct (Hex h (nonce h) (timestamp h) Hw) as [x Hx]. destruct (Hex h' (nonce h') (timestamp h') Hw') as [x' Hx'].
  exists x, x'. rewrite Hx. split_and!; [done|done|done|by rewrite <- Hx|].
  intros <-. destruct Hw as [? ? ? ? (? & ? & ? & ?) ? ?], Hw' as [? ? ? ? (? & ? & ? & ?) ? ?].
  eapply hash_override_inj; [set_solver|set_solver|..|exact Hx|exact Hx']; done.
Qed.

(** ** A reference deduplication and a header, to show that the hypotheses can hold *)
Module SampleHeader.
Fixpoint dedup {A} `{EqDecision A} (l : list A) : list (nat * A) :=
  match l with
  | [] => []
  | x :: l =>
      match dedup l with
      | (n, y) :: r => if decide (x = y) then (S n, y) :: r else (1%nat, x) :: (n, y) :: r
      | [] => [(1%nat, x)]
      end
  end.
#[export] Instance dedup_instance : Dedup := @dedup.
#[export] Instance dedup_laws : DedupLaws.
Proof.
  constructor; unfold dedup_with_count, dedup_instance; intros A HA l.
  - induction l as [|x l IH]; [done|]. simpl. destruct (dedup l) as [|[n y] r]; csimpl in *; [by rewrite <- IH|].
    destruct (decide (x = y)) as [->|]; csimpl; by rewrite <- IH.
  - induction l as [|x l IH]; [constructor|]. simpl. destruct (dedup l) as [|[n y] r]; [by repeat constructor|].
    apply Forall_cons in IH as [? ?]. destruct (decide (x = y)); repeat constructor; simpl; try done; lia.
  - induction l as [|x l IH]; [done|]. simpl. destruct (dedup l) as [|[n y] r]; [by intros [|[|]]|].
    destruct (decide (x = y)) as [->|Hne].
    + intros [|i] a b Ha Hb; [|by apply (IH (S i))]. injection Ha as <-. by apply (IH 0%nat (n, y)).
    + intros [|i] a b Ha Hb; [|by apply (IH i)]. injection Ha as <-. by injection Hb as <-.
Qed.

#[export] Existing Instances SampleHashes.hashes SampleHashes.hashes_laws.
Definition root (n : Z) : Hash := replicate 32 n.
Definition header (n : Z) : Header :=
  mkHeader ZERO_HASH 1 [(2, [root 1]); (3, [root 1; root 2])] (root 3) (root 4) (root 5) 1000 545259519 n 7 [9; 0; 0] 7 (root 6) None.
Lemma header_ok n : in_u 64 n → header_wf (header n).
Proof.
  assert (∀ k, in_u 8 k → is_array 32 (root k)) as Hr.
  { intros k Hk. split; [done|]. by apply Forall_replicate. }
  intros Hn. constructor; cbn [header hdr_version parents_by_level hash_merkle_root accepted_id_merkle_root utxo_commitment timestamp bits
    nonce daa_score blue_score blue_work pruning_point];
    try (by repeat split; apply Hr).
  - done.
  - unfold parents_valid. simpl. split_and!; done.
  - apply Forall_cons. split; [|apply Forall_cons; split; [|apply Forall_nil_2]]; (split; [done|]);
      repeat (apply Forall_cons; split; [by apply Hr|]); apply Forall_nil_2.
  - split_and!; done.
  - split; [done|]. repeat (apply Forall_cons; split; [done|]). apply Forall_nil_2.
Qed.
End SampleHeader.
Import SampleHeader.

Lemma compressed_parents_canonical_witness :
  ∃ c, parents_of_levels [[root 1]; [root 1]; [root 2]] = Ok c ∧ parents_of_runs c = Ok c ∧
    expanded_iter (E := unit) c = Ok [[root 1]; [root 1]; [root 2]].
Proof. apply (compressed_parents_canonical (E := unit)). simpl. lia. Defined.

Lemma header_hash_binding_witness :
  ∃ x x', header_hash (E := unit) (header 1) = Ok x ∧ header_hash (E := unit) (header 2) = Ok x' ∧
    finalize (E := unit) (header 1) = Ok (set_hash x (header 1)) ∧
    header_hash (E := unit) (with_aux_pow (mkAuxPow (header 3) SampleTx.tx []) (set_hash x (header 1))) = Ok x ∧
    (x = x' → kaspa_collision (header_messages (header 1) (nonce (header 1)) (timestamp (header 1)) ++
                               header_messages (header 2) (nonce (header 2)) (timestamp (header 2))) ∨
       (header_view (header 1) = header_view (header 2) ∧ nonce (header 1) = nonce (header 2) ∧ timestamp (header 1) = timestamp (header 2))).
Proof. apply (header_hash_binding (E := unit) (header 1) (header 2) (mkAuxPow (header 3) SampleTx.tx [])); apply header_ok; done. Defined.
