(* ===== verification/Pow.v ===== *)
(** * Proof of work (consensus/pow/src/lib.rs, matrix.rs, xoshiro.rs, crypto/hashes/src/pow_hashers.rs)

    kHeavyHash: the keyed Keccak states, the generator and the matrix it fills, the rank
    test in [f64], the matrix product in [u16] with its overflow checks, and the level of a
    block.  The Keccak permutation is a class; [Matrix::generate] may draw any number of
    matrices, so it takes fuel and [None] is a run that has not ended yet. *)

From Stdlib Require Import Floats.SpecFloat.
From S2P Require Import Prelude Bytes Limbs Uint CompactTarget Transaction Sighash Merkle TxHash Header.

Class Keccak := f1600 : list Z → list Z.
Class KeccakLaws `{Keccak} : Prop := { f1600_limbs s : is_limbs 25 s → is_limbs 25 (f1600 s) }.

(** ** The hashers *)

(** [Hash::iter_le_u64] and [Hash::from_le_u64]. *)
Definition iter_le_u64 (h : Hash) : list Z := uint_from_le_bytes 4 h.
Definition from_le_u64 (words : list Z) : Hash := uint_to_le_bytes words.

Fixpoint xor_words (words state : list Z) : list Z :=
  match words, state with
  | w :: words, s :: state => Z.lxor s w :: xor_words words state
  | _, _ => state
  end.

Definition POW_INITIAL_STATE : list Z :=
  [1242148031264380989; 3008272977830772284; 2188519011337848018; 1992179434288343456; 8876506674959887717;
   5399642050693751366; 1745875063082670864; 8605242046444978844; 17936695144567157056; 3343109343542796272;
   1123092876221303306; 4963925045340115282; 17037383077651887893; 16629644495023626889; 12833675776649114147;
   3784524041015224902; 1082795874807940378; 13952716920571277634; 13411128033953605860; 15060696040649351053;
   9928834659948351306; 5237849264682708699; 12825353012139217522; 6706187291358897596; 196324915476054915].
Definition HEAVY_INITIAL_STATE : list Z :=
  [4239941492252378377; 8746723911537738262; 8796936657246353646; 1272090201925444760; 16654558671554924250;
   8270816933120786537; 13907396207649043898; 6782861118970774626; 9239690602118867528; 11582319943599406348;
   17596056728278508070; 15212962468105129023; 7812475424661425213; 3370482334374859748; 5690099369266491460;
   8596393687355028144; 570094237299545110; 9119540418498120711; 16901969272480492857; 13372017233735502424;
   14372891883993151831; 5171152063242093102; 10573107899694386186; 6096431547456407061; 1592359455985097269].

Definition xor_at (i : nat) (x : Z) (state : list Z) : list Z := <[i := Z.lxor (limb state i) x]> state.

Definition pow_hash_new (pre_pow_hash : Hash) (timestamp : Z) : list Z :=
  xor_at 4 timestamp (xor_words (iter_le_u64 pre_pow_hash) POW_INITIAL_STATE).

Section hashers.
Context `{Keccak}.
Definition finalize_with_nonce (hasher : list Z) (nonce : Z) : Hash := from_le_u64 (take 4 (f1600 (xor_at 9 nonce hasher))).
Definition kheavy_hash (in_hash : Hash) : Hash := from_le_u64 (take 4 (f1600 (xor_words (iter_le_u64 in_hash) HEAVY_INITIAL_STATE))).
End hashers.

(** ** The generator (xoshiro.rs) *)

Record XoShiRo256PlusPlus := mkXoshiro { s0 : Z; s1 : Z; s2 : Z; s3 : Z }.
Definition xoshiro_new (hash : Hash) : XoShiRo256PlusPlus :=
  let w := iter_le_u64 hash in mkXoshiro (limb w 0) (limb w 1) (limb w 2) (limb w 3).

Definition wrapping_add64 (a b : Z) : Z := (a + b) mod 2 ^ 64.
Definition rotate_left64 (x k : Z) : Z := Z.lor (shl64 x k) (Z.shiftr x (64 - k)).

Definition xoshiro_u64 (g : XoShiRo256PlusPlus) : Z * XoShiRo256PlusPlus :=
  let res := wrapping_add64 (s0 g) (rotate_left64 (wrapping_add64 (s0 g) (s3 g)) 23) in
  let t := shl64 (s1 g) 17 in
  let x2 := Z.lxor (s2 g) (s0 g) in
  let x3 := Z.lxor (s3 g) (s1 g) in
  let x1 := Z.lxor (s1 g) x2 in
  let x0 := Z.lxor (s0 g) x3 in
  (res, mkXoshiro x0 x1 (Z.lxor x2 t) (rotate_left64 x3 45)).

(** ** The matrix (matrix.rs) *)

Abbreviation Matrix := (list (list Z)).

(** Sixteen entries are the nibbles of a word; a row is four words. *)
Definition word_entries (val : Z) : list Z := (λ shift, Z.land (Z.shiftr val (4 * Z.of_nat shift)) 0x0F) <$> seq 0 16.
Fixpoint draw_entries (words : nat) (g : XoShiRo256PlusPlus) : list Z * XoShiRo256PlusPlus :=
  match words with
  | O => ([], g)
  | S words => let '(val, g) := xoshiro_u64 g in let '(row, g) := draw_entries words g in (word_entries val ++ row, g)
  end.
Fixpoint draw_rows (n : nat) (g : XoShiRo256PlusPlus) : Matrix * XoShiRo256PlusPlus :=
  match n with
  | O => ([], g)
  | S n => let '(row, g) := draw_entries 4 g in let '(rows, g) := draw_rows n g in (row :: rows, g)
  end.
Definition rand_matrix_no_rank_check (g : XoShiRo256PlusPlus) : Matrix * XoShiRo256PlusPlus := draw_rows 64 g.

(** *** Its rank, in floating point *)

Abbreviation f64 := spec_float.
Definition f64_from_u16 (x : Z) : f64 := binary_normalize 53 1024 x 0 false.
(** [1e-9], the nearest double. *)
Definition EPS : f64 := S754_finite false 4835703278458517 (-82).
Definition convert_to_float (m : Matrix) : list (list f64) := map (map f64_from_u16) m.
Definition large (x : f64) : bool := SFltb EPS (SFabs x).

(** The first row from [j] on that is not selected and whose entry in column [i] is large. *)
Fixpoint find_row (i j : nat) (selected : list bool) (m : list (list f64)) : option nat :=
  match selected, m with
  | sel :: selected, row :: m => if negb sel && large (nth i row S754_nan) then Some j else find_row i (S j) selected m
  | _, _ => None
  end.

(** The columns after [i] of the pivot row, and of a row that it is subtracted from. *)
Definition divide_row (i : nat) (row : list f64) : list f64 :=
  let d := nth i row S754_nan in
  take (S i) row ++ map (λ x, SFdiv 53 1024 x d) (drop (S i) row).
Definition eliminate (i : nat) (pivot row : list f64) : list f64 :=
  let f := nth i row S754_nan in
  take (S i) row ++ zip_with (λ x y, SFsub 53 1024 x (SFmul 53 1024 y f)) (drop (S i) row) (drop (S i) pivot).

Definition rank_step (i : nat) (st : nat * list bool * list (list f64)) : nat * list bool * list (list f64) :=
  let '(rank, row_selected, mat_float) := st in
  match find_row i 0 row_selected mat_float with
  | None => st
  | Some j =>
      let pivot := divide_row i (nth j mat_float []) in
      (S rank, <[j := true]> row_selected,
       imap (λ k row, if (k =? j)%nat then pivot else if large (nth i row S754_nan) then eliminate i pivot row else row) mat_float)
  end.
Definition compute_rank (m : Matrix) : nat :=
  (foldl (λ st i, rank_step i st) (0%nat, replicate 64 false, convert_to_float m) (seq 0 64)).1.1.

Fixpoint generate_from (fuel : nat) (g : XoShiRo256PlusPlus) : option Matrix :=
  match fuel with
  | O => None
  | S fuel =>
      let '(mat, g) := rand_matrix_no_rank_check g in
      if (compute_rank mat =? 64)%nat then Some mat else generate_from fuel g
  end.
Definition generate (fuel : nat) (hash : Hash) : option Matrix := generate_from fuel (xoshiro_new hash).

(** *** The product *)

(** The nibbles of the hash, high one first. *)
Definition hash_nibbles (hash : Hash) : list Z := concat ((λ element, [Z.shiftr element 4; Z.land element 0x0F]) <$> hash).

(** [sum += row[j] * elem], in [u16]. *)
Fixpoint row_sum {E} (sum : Z) (row vec : list Z) : res E Z :=
  match row, vec with
  | x :: row, elem :: vec => p ← mul_p 16 x elem; sum ← add_p 16 sum p; row_sum sum row vec
  | _, _ => Ok sum
  end.

Fixpoint product {E} (m : Matrix) (vec : list Z) : res E bytes :=
  match m with
  | row1 :: row2 :: m =>
      sum1 ← row_sum 0 row1 vec;
      sum2 ← row_sum 0 row2 vec;
      rest ← product m vec;
      Ok (Z.lor ((Z.shiftl (Z.shiftr sum1 10) 4) mod 2 ^ 16 mod 2 ^ 8) (Z.shiftr sum2 10 mod 2 ^ 8) :: rest)
  | _ => Ok []
  end.

(** ** The state (lib.rs) *)

Record State := mkPowState { target : list Z; hasher : list Z; matrix : Matrix }.

Section pow.
Context `{KaspaHashes} `{Keccak} {E : Type}.
Abbreviation pres A := (res E (option A)).

Definition heavy_hash (m : Matrix) (hash : Hash) : res E Hash :=
  p ← product m (hash_nibbles hash);
  Ok (kheavy_hash (zip_with Z.lxor p hash)).

Definition pow_state_new (fuel : nat) (h : Header) : pres State :=
  let target := from_compact_target_bits (bits h) in
  pre_pow_hash ← hash_override_nonce_time h 0 0;
  Ok (m ← generate fuel pre_pow_hash; Some (mkPowState target (pow_hash_new pre_pow_hash (timestamp h)) m)).

Definition calculate_pow (s : State) (nonce : Z) : res E (list Z) :=
  hash ← heavy_hash (matrix s) (finalize_with_nonce (hasher s) nonce);
  Ok (uint_from_le_bytes 4 hash).

Definition check_pow (s : State) (nonce : Z) : res E (bool * list Z) :=
  pow ← calculate_pow s nonce;
  Ok (uint_geb (target s) pow, pow).
End pow.

Definition calc_level_from_pow (pow : list Z) (max_block_level : Z) : Z :=
  let signed_block_level := max_block_level - uint_bits pow in
  Z.max signed_block_level 0.

(** ** Shapes and ranges *)

(** A matrix of 64 rows of 64 nibbles. *)
Definition matrix_ok (m : Matrix) : Prop := length m = 64%nat ∧ Forall (λ row, length row = 64%nat ∧ Forall (in_u 4) row) m.

Lemma land_nibble x : in_u 4 (Z.land x 0x0F).
Proof. change 0x0F with (Z.ones 4). rewrite Z.land_ones by done. apply Z.mod_pos_bound. done. Qed.

Lemma draw_entries_ok n g : length (draw_entries n g).1 = (16 * n)%nat ∧ Forall (in_u 4) (draw_entries n g).1.
Proof.
  revert g. induction n as [|n IH]; intros g; [done|]. cbn [draw_entries]. destruct (xoshiro_u64 g) as [val g'].
  specialize (IH g'). destruct (draw_entries n g') as [row g'']. cbn [fst] in *. destruct IH as [Hl Hf]. split.
  - rewrite length_app, Hl. unfold word_entries. rewrite length_fmap, length_seq. lia.
  - apply Forall_app. split; [|done]. apply Forall_fmap, Forall_true. intros i. apply land_nibble.
Qed.

Lemma draw_rows_ok n g : length (draw_rows n g).1 = n ∧ Forall (λ row, length row = 64%nat ∧ Forall (in_u 4) row) (draw_rows n g).1.
Proof.
  revert g. induction n as [|n IH]; intros g; [done|]. cbn [draw_rows]. pose proof (draw_entries_ok 4 g) as He.
  destruct (draw_entries 4 g) as [row g']. specialize (IH g'). destruct (draw_rows n g') as [rows g'']. cbn [fst] in *.
  destruct IH as [Hl Hf]. split; [simpl; by rewrite Hl|by constructor].
Qed.

Lemma generate_ok fuel hash m : generate fuel hash = Some m → matrix_ok m ∧ compute_rank m = 64%nat.
Proof.
  unfold generate. generalize (xoshiro_new hash) as g. induction fuel as [|fuel IH]; intros g; [done|]. cbn [generate_from].
  pose proof (draw_rows_ok 64 g) as Hr. unfold rand_matrix_no_rank_check. destruct (draw_rows 64 g) as [mat g']. cbn [fst] in Hr.
  destruct (Nat.eqb_spec (compute_rank mat) 64) as [Hk|]; [|by apply IH]. intros [= ->]. done.
Qed.

(** More fuel does not change the matrix. *)
Lemma generate_mono fuel fuel' hash m : (fuel ≤ fuel')%nat → generate fuel hash = Some m → generate fuel' hash = Some m.
Proof.
  unfold generate. generalize (xoshiro_new hash) as g. revert fuel'. induction fuel as [|fuel IH]; intros [|fuel'] g Hle; [done|done|lia|].
  cbn [generate_from]. destruct (rand_matrix_no_rank_check g) as [mat g']. destruct (compute_rank mat =? 64)%nat; [done|]. apply IH. lia.
Qed.

Lemma row_sum_ok {E} sum row vec :
  Forall (in_u 4) row → Forall (in_u 4) vec → 0 ≤ sum → sum + 225 * Z.of_nat (length row) < 2 ^ 16 →
  ∃ s, row_sum (E := E) sum row vec = Ok s ∧ 0 ≤ s ≤ sum + 225 * Z.of_nat (length row).
Proof.
  intros Hr. revert sum vec. induction Hr as [|x row Hx Hr IH]; intros sum vec Hv H0 Hs; [exists sum; simpl in *; split; [done|lia]|].
  destruct Hv as [|e vec He Hv]; [exists sum; cbn [row_sum]; split; [done|lia]|]. cbn [length] in Hs. cbn [row_sum]. unfold in_u in Hx, He.
  assert (0 ≤ x * e ≤ 225) by nia.
  rewrite (proj2 (mul_p_Ok 16 x e (x * e))) by lia. cbn [mbind res_mbind].
  rewrite (proj2 (add_p_Ok 16 sum (x * e) (sum + x * e))) by lia. cbn [mbind res_mbind].
  destruct (IH (sum + x * e) vec Hv ltac:(lia) ltac:(lia)) as (s & -> & Hs'). exists s. split; [done|]. cbn [length]. lia.
Qed.

Lemma product_ok {E} m vec n :
  length m = (2 * n)%nat → Forall (λ row, length row = 64%nat ∧ Forall (in_u 4) row) m → Forall (in_u 4) vec →
  ∃ p, product (E := E) m vec = Ok p ∧ is_array n p.
Proof.
  revert m. induction n as [|n IH]; intros m Hl Hf Hv; [destruct m; [|done]; exists []; split; [done|split; [done|constructor]]|].
  destruct m as [|r1 [|r2 m]]; [simpl in Hl; lia..|]. apply Forall_cons in Hf as [[Hl1 Hf1] Hf]. apply Forall_cons in Hf as [[Hl2 Hf2] Hf].
  cbn [product]. destruct (row_sum_ok (E := E) 0 r1 vec Hf1 Hv ltac:(lia) ltac:(rewrite Hl1; lia)) as (a & -> & Ha).
  destruct (row_sum_ok (E := E) 0 r2 vec Hf2 Hv ltac:(lia) ltac:(rewrite Hl2; lia)) as (b & -> & Hb). cbn [mbind res_mbind].
  destruct (IH m ltac:(simpl in Hl; lia) Hf Hv) as (p & -> & Hp & Hpf). eexists. split; [done|]. split; [simpl; lia|]. constructor; [|done].
  assert (∀ x y, in_u 8 x → in_u 8 y → in_u 8 (Z.lor x y)) as Hlor.
  { intros x y Hx Hy. replace (Z.lor x y) with (Z.lor x y mod 2 ^ 8); [apply Z.mod_pos_bound; done|]. apply Z.bits_inj'. intros i Hi.
    destruct (decide (i < 8)); [by rewrite Z.mod_pow2_bits_low|]. rewrite Z.mod_pow2_bits_high by lia.
    by rewrite Z.lor_spec, (testbit_high 8 x), (testbit_high 8 y) by (done || lia). }
  apply Hlor; apply Z.mod_pos_bound; done.
Qed.

Lemma hash_nibbles_ok h : is_array 32 h → Forall (in_u 4) (hash_nibbles h).
Proof.
  intros [_ Hh]. unfold hash_nibbles. induction Hh as [|x h Hx Hh IH]; [constructor|]. csimpl. constructor; [|constructor; [apply land_nibble|done]].
  unfold in_u in *. rewrite Z.shiftr_div_pow2 by lia. split; [apply Z.div_pos; lia|apply Z.div_lt_upper_bound; lia].
Qed.

Lemma iter_le_u64_ok h : is_array 32 h → is_limbs 4 (iter_le_u64 h).
Proof. intros Hh. by apply (words_of_le_bytes 4). Qed.

Lemma xor_words_ok n words state : Forall (in_u 64) words → is_limbs n state → is_limbs n (xor_words words state).
Proof.
  intros Hw [<- Hs]. revert words Hw. induction Hs as [|s state Hs Hf IH]; intros words Hw; [by destruct Hw|].
  destruct Hw as [|w words Hw Hws]; [split; [done|by constructor]|]. cbn [xor_words]. destruct (IH words Hws) as [Hl Hf'].
  split; [simpl; by rewrite Hl|]. constructor; [by apply lxor_range|done].
Qed.

Lemma xor_at_ok n i x state : in_u 64 x → is_limbs n state → is_limbs n (xor_at i x state).
Proof. intros Hx Hs. apply is_limbs_insert; [done|]. apply lxor_range; [done| |done]. apply limb_range, Hs. Qed.

Lemma le_u64_array l : is_limbs 4 l → is_array 32 (from_le_u64 l).
Proof. intros Hl. unfold from_le_u64. rewrite (uint_to_le_bytes_spec 4) by done. split; [apply length_le_bytes|apply le_bytes_is_bytes]. Qed.

Lemma initial_states : is_limbs 25 POW_INITIAL_STATE ∧ is_limbs 25 HEAVY_INITIAL_STATE.
Proof. split; (split; [done|]); apply (bool_decide_unpack _); by vm_compute. Qed.

Lemma pow_hash_new_ok h t : is_array 32 h → in_u 64 t → is_limbs 25 (pow_hash_new h t).
Proof. intros Hh Ht. apply xor_at_ok; [done|]. apply xor_words_ok; [by apply iter_le_u64_ok|apply initial_states]. Qed.

Lemma take4_limbs s : is_limbs 25 s → is_limbs 4 (take 4 s).
Proof. intros [Hl Hf]. split; [rewrite length_take; lia|by apply Forall_take]. Qed.

Section shapes.
Context `{KeccakLaws}.

Lemma finalize_ok s n : is_limbs 25 s → in_u 64 n → is_array 32 (finalize_with_nonce s n).
Proof. intros Hs Hn. by apply le_u64_array, take4_limbs, f1600_limbs, xor_at_ok. Qed.

Lemma kheavy_ok h : is_array 32 h → is_array 32 (kheavy_hash h).
Proof. intros Hh. apply le_u64_array, take4_limbs, f1600_limbs, xor_words_ok; [by apply iter_le_u64_ok|apply initial_states]. Qed.

Lemma heavy_hash_ok {E} m h : matrix_ok m → is_array 32 h → ∃ x, heavy_hash (E := E) m h = Ok x ∧ is_array 32 x.
Proof.
  intros [Hl Hf] Hh. unfold heavy_hash. destruct (product_ok (E := E) m (hash_nibbles h) 32 Hl Hf (hash_nibbles_ok h Hh)) as (p & -> & Hpl & Hpf).
  cbn [mbind res_mbind]. eexists. split; [done|]. apply kheavy_ok. destruct Hh as [Hhl Hhf]. split; [rewrite length_zip_with; lia|].
  clear Hl Hf Hpl Hhl. revert h Hhf. induction Hpf as [|x p Hx Hp IH]; intros h Hhf; [constructor|]. destruct Hhf as [|y h Hy Hh]; [constructor|].
  simpl. constructor; [by apply lxor_range|by apply IH].
Qed.

Lemma calculate_pow_ok {E} s n :
  matrix_ok (matrix s) → is_limbs 25 (hasher s) → in_u 64 n → ∃ pow, calculate_pow (E := E) s n = Ok pow ∧ is_limbs 4 pow.
Proof.
  intros Hm Hs Hn. unfold calculate_pow. destruct (heavy_hash_ok (E := E) (matrix s) _ Hm (finalize_ok _ n Hs Hn)) as (x & -> & Hx).
  eexists. split; [done|]. by apply iter_le_u64_ok.
Qed.
End shapes.
