(* ===== verification/AuxPow.v ===== *)
(** * Merged mining (consensus/core/src/auxpow.rs, consensus/pow/src/auxpow.rs, consensus/pow/src/lib.rs)

    The witness that a block was mined on top of a parent block: the commitment in the
    payload of the parent's coinbase, its inclusion under the parent's Merkle root, the work
    of the parent, and the gate that accepts native or merged work. *)

From Stdlib Require Import Floats.SpecFloat.
From S2P Require Import Prelude Bytes Limbs Uint CompactTarget Transaction Sighash Mass Merkle TxHash Header Pow.

(** ** The commitment *)

Abbreviation MAX_COINBASE_MERKLE_BRANCH := 64%nat (only parsing).
Abbreviation COMMITMENT_HEX_LEN := 64%nat (only parsing).
Definition MERGE_MINE_MAGIC : bytes := [90; 75; 77; 77].

Definition hex_nibble (c : Z) : option Z :=
  if (48 <=? c) && (c <=? 57) then Some (c - 48)
  else if (97 <=? c) && (c <=? 102) then Some (c - 97 + 10)
  else None.

(** The [chunks_exact(2)] of the slice. *)
Fixpoint decode_pairs (s : bytes) : option bytes :=
  match s with
  | hi :: lo :: s =>
      h ← hex_nibble hi;
      l ← hex_nibble lo;
      rest ← decode_pairs s;
      Some (Z.lor (Z.shiftl h 4 mod 2 ^ 8) l :: rest)
  | _ => Some []
  end.
Definition decode_hex32 (s : bytes) : option bytes := if (length s =? COMMITMENT_HEX_LEN)%nat then decode_pairs s else None.

Definition HEX : bytes := [48; 49; 50; 51; 52; 53; 54; 55; 56; 57; 97; 98; 99; 100; 101; 102].
Definition encode_hex32 (b : bytes) : bytes :=
  concat ((λ x, [nth (Z.to_nat (Z.shiftr x 4)) HEX 0; nth (Z.to_nat (Z.land x 0x0f)) HEX 0]) <$> b).

(** The slice [payload[i..j]] of the loop, which is in range. *)
Definition slice (i j : nat) (l : bytes) : bytes := take (j - i) (drop i l).

Fixpoint scan (fuel : nat) (payload : bytes) (i : nat) (found : option Hash) : option Hash :=
  match fuel with
  | O => found
  | S fuel =>
      if (i + length MERGE_MINE_MAGIC <=? length payload)%nat then
        if bool_decide (slice i (i + length MERGE_MINE_MAGIC) payload = MERGE_MINE_MAGIC) then
          match found with
          | Some _ => None
          | None =>
              let start := (i + length MERGE_MINE_MAGIC)%nat in
              let end_ := (start + COMMITMENT_HEX_LEN)%nat in
              if (length payload <? end_)%nat then None
              else
                match decode_hex32 (slice start end_ payload) with
                | None => None
                | Some b => scan fuel payload start (Some b)
                end
          end
        else scan fuel payload (S i) found
      else found
  end.
Definition committed_hash (aux : AuxPow) : option Hash :=
  let payload := payload (parent_coinbase aux) in scan (S (length payload)) payload 0 None.

Definition embed_commitment (prefix : bytes) (commitment : Hash) (suffix : bytes) : bytes :=
  prefix ++ MERGE_MINE_MAGIC ++ encode_hex32 commitment ++ suffix.

Section aux.
Context `{KaspaHashes}.

Definition merkle_hash (left right : Hash) : Hash := merkle_hash_with_hasher left right.

Definition verify_coinbase_inclusion (aux : AuxPow) : bool :=
  if (MAX_COINBASE_MERKLE_BRANCH <? length (coinbase_merkle_branch aux))%nat then false
  else
    let acc := foldl merkle_hash (tx_hash (parent_coinbase aux)) (coinbase_merkle_branch aux) in
    bool_decide (acc = hash_merkle_root (parent_header aux)).

Definition verify_binding (aux : AuxPow) (expected : Hash) : bool :=
  bool_decide (committed_hash aux = Some expected) && verify_coinbase_inclusion aux.

(** ** The gate *)

Context `{Keccak} {E : Type} (fuel : nat).
Abbreviation pres A := (res E (option A)).

Definition and_then {A B} (m : pres A) (f : A → pres B) : pres B :=
  x ← m; match x with Some a => f a | None => Ok None end.

Definition parent_pow (aux : AuxPow) : pres (list Z) :=
  and_then (pow_state_new fuel (parent_header aux)) (λ s, p ← calculate_pow s (nonce (parent_header aux)); Ok (Some p)).

Definition verify_aux_pow (aux : AuxPow) (expected : Hash) (target : list Z) : pres bool :=
  if verify_binding aux expected then and_then (parent_pow aux) (λ p, Ok (Some (uint_geb target p))) else Ok (Some false).

Definition native_pow (h : Header) : pres (bool * list Z) :=
  and_then (pow_state_new fuel h) (λ s, r ← check_pow s (nonce h); Ok (Some r)).

Definition check_pow_dual (h : Header) (aux : option AuxPow) : pres (bool * list Z) :=
  match aux with
  | Some a =>
      let target := from_compact_target_bits (bits h) in
      and_then (parent_pow a) (λ pow, and_then (verify_aux_pow a (hdr_hash h) target) (λ ok, Ok (Some (ok, pow))))
  | None => native_pow h
  end.

Definition check_pow_gated (h : Header) (aux : option AuxPow) (merged_mining_active : bool) : pres (bool * list Z) :=
  and_then (native_pow h) (λ '(native_ok, native_pow),
    if (native_ok : bool) then Ok (Some (true, native_pow))
    else
      match merged_mining_active, aux with
      | true, Some a =>
          let target := from_compact_target_bits (bits h) in
          and_then (verify_aux_pow a (hdr_hash h) target) (λ ok,
            if (ok : bool) then and_then (parent_pow a) (λ pow, Ok (Some (true, pow))) else Ok (Some (false, native_pow)))
      | _, _ => Ok (Some (false, native_pow))
      end).

Definition calc_block_level_check_pow (h : Header) (max_block_level : Z) : pres (Z * bool) :=
  match parents_by_level h with
  | [] => Ok (Some (max_block_level, true))
  | _ => and_then (native_pow h) (λ '(passed, pow), Ok (Some (calc_level_from_pow pow max_block_level, passed)))
  end.

Definition calc_block_level_check_pow_gated (h : Header) (max_block_level : Z) (skip_pow merged_mining_active : bool) : pres (Z * bool) :=
  match parents_by_level h with
  | [] => Ok (Some (max_block_level, true))
  | _ =>
      if skip_pow then and_then (native_pow h) (λ '(_, pow), Ok (Some (calc_level_from_pow pow max_block_level, true)))
      else and_then (check_pow_gated h (aux_pow h) merged_mining_active) (λ '(passed, pow), Ok (Some (calc_level_from_pow pow max_block_level, passed)))
  end.
End aux.

(** ** Hexadecimal *)

Lemma hex_nibble_nth n : 0 ≤ n < 16 → hex_nibble (nth (Z.to_nat n) HEX 0) = Some n.
Proof.
  intros Hn. assert (∀ k, (k < 16)%nat → hex_nibble (nth k HEX 0) = Some (Z.of_nat k)) as Hk.
  { intros k Hk. do 16 (destruct k as [|k]; [done|]). lia. }
  rewrite Hk by lia. f_equal. lia.
Qed.

Lemma hex_nibble_inv c n : hex_nibble c = Some n → 0 ≤ n < 16 ∧ c = nth (Z.to_nat n) HEX 0.
Proof.
  unfold hex_nibble. destruct (Z.leb_spec 48 c), (Z.leb_spec c 57); cbn [andb].
  1: intros [= <-]; split; [lia|]; assert (∃ k, (k < 10)%nat ∧ c = 48 + Z.of_nat k) as (k & Hk & ->) by (exists (Z.to_nat (c - 48)); lia);
     replace (Z.to_nat (48 + Z.of_nat k - 48)) with k by lia; do 10 (destruct k as [|k]; [done|]); lia.
  all: destruct (Z.leb_spec 97 c), (Z.leb_spec c 102); cbn [andb]; intros Heq; try done;
     injection Heq as <-; split; [lia|]; assert (∃ k, (k < 6)%nat ∧ c = 97 + Z.of_nat k) as (k & Hk & ->) by (exists (Z.to_nat (c - 97)); lia);
     replace (Z.to_nat (97 + Z.of_nat k - 97 + 10)) with (10 + k)%nat by lia; do 6 (destruct k as [|k]; [done|]); lia.
Qed.

Lemma nibbles_join h l : 0 ≤ h < 16 → 0 ≤ l < 16 → Z.lor (Z.shiftl h 4 mod 2 ^ 8) l = 16 * h + l.
Proof.
  intros Hh Hl. rewrite Z.shiftl_mul_pow2 by lia. rewrite Z.mod_small by lia. rewrite Z.lor_comm.
  rewrite <- (Z.shiftl_mul_pow2 h 4) by lia. rewrite lor_shiftl_add by (unfold in_u in *; lia). lia.
Qed.

Lemma encode_cons x b :
  encode_hex32 (x :: b) = nth (Z.to_nat (Z.shiftr x 4)) HEX 0 :: nth (Z.to_nat (Z.land x 0x0f)) HEX 0 :: encode_hex32 b.
Proof. done. Qed.

Lemma decode_encode b : is_bytes b → decode_pairs (encode_hex32 b) = Some b.
Proof.
  induction 1 as [|x b Hx Hb IH]; [done|]. rewrite encode_cons. unfold in_u in Hx.
  assert (0 ≤ Z.shiftr x 4 < 16) as H1 by (rewrite Z.shiftr_div_pow2 by lia; split; [apply Z.div_pos; lia|apply Z.div_lt_upper_bound; lia]).
  pose proof (land_nibble x) as H2. unfold in_u in H2. cbn [decode_pairs]. rewrite !hex_nibble_nth by lia.
  cbn [mbind option_bind]. rewrite IH. cbn [mbind option_bind]. rewrite nibbles_join by lia. do 2 f_equal.
  rewrite Z.shiftr_div_pow2 by lia. change 0x0f with (Z.ones 4). rewrite Z.land_ones by lia. pose proof (Z.div_mod x (2 ^ 4)). lia.
Qed.

Lemma encode_decode s b n : length s = (2 * n)%nat → decode_pairs s = Some b → s = encode_hex32 b ∧ is_array n b.
Proof.
  revert s b. induction n as [|n IH]; intros s b Hl; [destruct s; [|done]; intros [= <-]; split; [done|split; [done|constructor]]|].
  destruct s as [|hi [|lo s]]; [simpl in Hl; lia..|]. cbn [decode_pairs]. intros (h & Hh & Heq)%bind_Some.
  apply bind_Some in Heq as (l & Hlo & Heq). apply bind_Some in Heq as (r & Hr & [= <-]).
  apply hex_nibble_inv in Hh as [Hh ->]. apply hex_nibble_inv in Hlo as [Hlo ->].
  destruct (IH s r ltac:(simpl in Hl; lia) Hr) as [-> [Hrl Hrb]]. rewrite nibbles_join by done.
  assert (Z.shiftr (16 * h + l) 4 = h) as E1 by (rewrite Z.shiftr_div_pow2 by lia; change (2 ^ 4) with 16; symmetry; apply (Z.div_unique _ _ _ l); lia).
  assert (Z.land (16 * h + l) 0x0f = l) as E2.
  { change 0x0f with (Z.ones 4). rewrite Z.land_ones by lia. change (2 ^ 4) with 16. symmetry. apply (Z.mod_unique _ _ h); lia. }
  split; [|split; [simpl; by rewrite Hrl|constructor; [unfold in_u; lia|done]]].
  by rewrite encode_cons, E1, E2.
Qed.

Lemma length_encode b : length (encode_hex32 b) = (2 * length b)%nat.
Proof. induction b as [|x b IH]; [done|]. rewrite encode_cons. cbn [length]. lia. Qed.

(** ** The scan finds the only tag *)

(** The tag stands at [i]. *)
Definition tag_at (payload : bytes) (i : nat) : Prop := take 4 (drop i payload) = MERGE_MINE_MAGIC.

#[local] Instance tag_at_dec payload i : Decision (tag_at payload i).
Proof. unfold tag_at. apply _. Defined.

Lemma tag_length payload i : tag_at payload i → (i + 4 ≤ length payload)%nat.
Proof. intros Ht. apply (f_equal length) in Ht. rewrite length_take, length_drop in Ht. change (length MERGE_MINE_MAGIC) with 4%nat in Ht. lia. Qed.

Lemma tag_bytes payload i : tag_at payload i ↔ ∀ k, (k < 4)%nat → payload !! (i + k)%nat = MERGE_MINE_MAGIC !! k.
Proof.
  unfold tag_at. split.
  - intros Ht k Hk. rewrite <- Ht, lookup_take, lookup_drop. by rewrite decide_True by lia.
  - intros Hl. apply list_eq. intros k. rewrite lookup_take, lookup_drop. case_decide as Hk; [by apply Hl|]. 
    by do 4 (destruct k as [|k]; [lia|]).
Qed.

(** The tag does not overlap itself. *)
Lemma tag_apart payload i j : tag_at payload i → tag_at payload j → (i < j)%nat → (i + 4 ≤ j)%nat.
Proof.
  rewrite !tag_bytes. intros Hi Hj Hlt. destruct (decide (i + 4 ≤ j)%nat); [done|]. exfalso.
  pose proof (Hj 0%nat ltac:(lia)) as H0. rewrite Nat.add_0_r in H0. replace j with (i + (j - i))%nat in H0 by lia.
  rewrite Hi in H0 by lia. destruct (j - i)%nat as [|[|[|[|k]]]] eqn:Hk; try done; lia.
Qed.

Definition commitment_at (payload : bytes) (i : nat) : bytes := take 64 (drop (i + 4) payload).

Lemma slice_tag payload i : bool_decide (slice i (i + length MERGE_MINE_MAGIC) payload = MERGE_MINE_MAGIC) = true ↔ tag_at payload i.
Proof.
  rewrite bool_decide_eq_true. unfold slice, tag_at. change (length MERGE_MINE_MAGIC) with 4%nat.
  by replace (i + 4 - i)%nat with 4%nat by lia.
Qed.

(** One step of the loop. *)
Lemma scan_step fuel payload i found :
  scan (S fuel) payload i found =
  if decide (tag_at payload i) then
    match found with
    | Some _ => None
    | None => match decode_hex32 (commitment_at payload i) with None => None | Some b => scan fuel payload (i + 4) (Some b) end
    end
  else if (i + 4 <=? length payload)%nat then scan fuel payload (S i) found else found.
Proof.
  cbn [scan]. pose proof (slice_tag payload i) as Hs. change (length MERGE_MINE_MAGIC) with 4%nat in *.
  destruct (decide (tag_at payload i)) as [Ht|Ht].
  - rewrite (proj2 Hs Ht). pose proof (tag_length _ _ Ht). rewrite (proj2 (Nat.leb_le _ _)) by lia. destruct found; [done|].
    unfold slice. replace (i + 4 + 64 - (i + 4))%nat with 64%nat by lia. fold (commitment_at payload i).
    destruct (Nat.ltb_spec (length payload) (i + 4 + 64)); [|done]. unfold decode_hex32.
    rewrite (proj2 (Nat.eqb_neq _ _)); [done|]. unfold commitment_at. rewrite length_take, length_drop. lia.
  - destruct (Nat.leb_spec (i + 4) (length payload)); [|done]. destruct (bool_decide _) eqn:Hb; [|done]. by destruct Ht; apply Hs.
Qed.

Lemma no_tag_after payload i j : (length payload < i + 4)%nat → (i ≤ j)%nat → ¬ tag_at payload j.
Proof. intros Hl Hj Ht. apply tag_length in Ht. lia. Qed.

Lemma no_tag_S payload i : ¬ tag_at payload i → (∀ j, (i ≤ j)%nat → ¬ tag_at payload j) ↔ (∀ j, (S i ≤ j)%nat → ¬ tag_at payload j).
Proof.
  intros Hi. split; intros Hj j Hle; [apply Hj; lia|]. destruct (decide (j = i)) as [->|]; [done|]. apply Hj. lia.
Qed.

Lemma scan_found fuel payload i h r :
  (length payload < i + fuel)%nat → scan fuel payload i (Some h) = Some r ↔ h = r ∧ ∀ j, (i ≤ j)%nat → ¬ tag_at payload j.
Proof.
  revert i. induction fuel as [|fuel IH]; intros i Hf.
  { simpl. split; [intros [= ->]|by intros [-> _]]. split; [done|]. intros j Hj. apply (no_tag_after payload i); lia. }
  rewrite scan_step. destruct (decide (tag_at payload i)) as [Ht|Ht]; [split; [done|intros [_ Hn]; by destruct (Hn i)]|].
  rewrite no_tag_S by done. destruct (Nat.leb_spec (i + 4) (length payload)); [apply IH; lia|].
  split; [intros [= ->]|by intros [-> _]]. split; [done|]. intros j Hj. apply (no_tag_after payload i); lia.
Qed.

(** The only tag stands at [j]. *)
Definition only_tag (payload : bytes) (i j : nat) : Prop :=
  (i ≤ j)%nat ∧ tag_at payload j ∧ ∀ k, (i ≤ k)%nat → tag_at payload k → k = j.

Lemma decode_commitment payload j r : decode_hex32 (commitment_at payload j) = Some r ↔ commitment_at payload j = encode_hex32 r ∧ is_array 32 r.
Proof.
  unfold decode_hex32. destruct (Nat.eqb_spec (length (commitment_at payload j)) 64) as [Hl|Hl].
  - split; [intros Hd; by apply (encode_decode _ _ 32) in Hd|]. intros [-> [_ Hb]]. by apply decode_encode.
  - split; [done|]. intros [Hc [Hr _]]. rewrite Hc, length_encode, Hr in Hl. done.
Qed.

Lemma scan_none fuel payload i r :
  (length payload < i + fuel)%nat →
  scan fuel payload i None = Some r ↔ ∃ j, only_tag payload i j ∧ commitment_at payload j = encode_hex32 r ∧ is_array 32 r.
Proof.
  revert i. induction fuel as [|fuel IH]; intros i Hf.
  { simpl. split; [done|]. intros (j & (Hj & Ht & _) & _). by destruct (no_tag_after payload i j ltac:(lia) Hj). }
  rewrite scan_step. destruct (decide (tag_at payload i)) as [Ht|Ht].
  - assert (∀ j, only_tag payload i j ↔ j = i ∧ ∀ k, (i + 4 ≤ k)%nat → ¬ tag_at payload k) as Honly.
    { intros j. split.
      - intros (Hj & Htj & Hu). split; [by symmetry; apply Hu|]. intros k Hk Htk. pose proof (Hu i ltac:(lia) Ht). pose proof (Hu k ltac:(lia) Htk). lia.
      - intros [-> Hn]. split_and!; [done|done|]. intros k Hk Htk. destruct (decide (k = i)); [done|].
        pose proof (tag_apart payload i k Ht Htk ltac:(lia)). by destruct (Hn k). }
    setoid_rewrite Honly. setoid_rewrite <- decode_commitment.
    destruct (decode_hex32 (commitment_at payload i)) as [b|] eqn:Hd.
    + rewrite scan_found by (pose proof (tag_length _ _ Ht); lia). split.
      * intros [-> Hn]. by exists i.
      * intros (j & [-> Hn] & Hj). split; [congruence|done].
    + split; [done|]. intros (j & [-> _] & Hj). congruence.
  - assert (∀ j, only_tag payload i j ↔ only_tag payload (S i) j) as Honly.
    { intros j. unfold only_tag. split; intros (Hj & Htj & Hu); split_and!; try done; try (intros k Hk Htk; apply Hu; [lia|done]); try lia.
      - destruct (decide (j = i)) as [->|]; [done|lia].
      - intros k Hk Htk. destruct (decide (k = i)) as [->|]; [done|]. apply Hu; [lia|done]. }
    setoid_rewrite Honly. destruct (Nat.leb_spec (i + 4) (length payload)); [apply IH; lia|].
    split; [done|]. intros (j & (Hj & Htj & _) & _). by destruct (no_tag_after payload i j ltac:(lia) ltac:(lia)).
Qed.

(** The commitment is what follows the only tag of the payload. *)
Lemma committed_hash_spec aux h :
  committed_hash aux = Some h ↔
  ∃ j, only_tag (payload (parent_coinbase aux)) 0 j ∧ commitment_at (payload (parent_coinbase aux)) j = encode_hex32 h ∧ is_array 32 h.
Proof. apply scan_none. lia. Qed.

(** ** What a witness binds *)

Section binding.
Context `{KaspaHashesLaws}.

Definition branch_root (leaf : Hash) (branch : list Hash) : Hash := foldl merkle_hash leaf branch.

Lemma branch_root_length leaf branch : length leaf = 32%nat → length (branch_root leaf branch) = 32%nat.
Proof. intros Hl. destruct branch as [|s branch _] using rev_ind; [done|]. unfold branch_root. rewrite foldl_snoc. apply kaspa_digest_length. Qed.

Lemma branch_root_snoc leaf branch s :
  branch_root leaf (branch ++ [s]) = kaspa_digest MerkleBranchHash (branch_root leaf branch ++ s).
Proof. unfold branch_root. by rewrite foldl_snoc. Qed.

(** The messages that are hashed on the way from a leaf to the root. *)
Fixpoint branch_messages (leaf : Hash) (branch : list Hash) : list bytes :=
  match branch with [] => [] | s :: branch => (leaf ++ s) :: branch_messages (merkle_hash leaf s) branch end.
Lemma branch_messages_snoc leaf branch s :
  branch_messages leaf (branch ++ [s]) = branch_messages leaf branch ++ [branch_root leaf branch ++ s].
Proof. revert leaf. induction branch as [|x branch IH]; intros leaf; simpl; [done|]. by rewrite IH. Qed.

(** What is hashed when the inclusion of a coinbase is checked. *)
Definition inclusion_messages (t : Transaction) (branch : list Hash) : list (HashDomain * bytes) :=
  hash_message t :: (pair MerkleBranchHash <$> branch_messages (tx_hash t) branch).

(** Leaves and branches that lead to one root are the same, or a leaf is a digest of the
    branch domain. *)
Lemma branch_root_inj L leaf branch leaf' branch' :
  pair MerkleBranchHash <$> branch_messages leaf branch ⊆ L → pair MerkleBranchHash <$> branch_messages leaf' branch' ⊆ L →
  length leaf = 32%nat → length leaf' = 32%nat → branch_root leaf branch = branch_root leaf' branch' →
  kaspa_collision L ∨ (leaf = leaf' ∧ branch = branch') ∨
  (∃ m, (MerkleBranchHash, m) ∈ L ∧ leaf = kaspa_digest MerkleBranchHash m) ∨
  ∃ m, (MerkleBranchHash, m) ∈ L ∧ leaf' = kaspa_digest MerkleBranchHash m.
Proof.
  intros Hs Hs' Hl Hl'. revert Hs branch' Hs'. induction branch as [|s branch IH] using rev_ind; intros Hs branch' Hs';
    destruct branch' as [|s' branch' _] using rev_ind; rewrite ?branch_root_snoc;
    rewrite ?branch_messages_snoc, ?fmap_app in Hs; rewrite ?branch_messages_snoc, ?fmap_app in Hs'; csimpl in *.
  - intros Heq. right. left. by split.
  - intros Heq. right. right. left. eexists. split; [|exact Heq]. set_solver.
  - intros Heq. right. right. right. eexists. split; [|symmetry; exact Heq]. set_solver.
  - intros Heq. apply (digest_inj L MerkleBranchHash _ MerkleBranchHash) in Heq as [?|[_ Heq]]; [by left| |set_solver..].
    apply fixed_prefix in Heq as [Heq ->]; [|by rewrite !branch_root_length].
    destruct (IH ltac:(set_solver) branch' ltac:(set_solver) Heq) as [?|[[-> ->]|?]]; auto.
Qed.

Lemma tx_hash_no_branch L t m :
  hash_message t ∈ L → (MerkleBranchHash, m) ∈ L → tx_hash t = kaspa_digest MerkleBranchHash m → kaspa_collision L.
Proof. intros Ht Hm Heq. by destruct (digest_inj L TransactionHash _ MerkleBranchHash _ Ht Hm Heq) as [?|[? _]]. Qed.

Lemma inclusion_root aux : verify_coinbase_inclusion aux = true →
  branch_root (tx_hash (parent_coinbase aux)) (coinbase_merkle_branch aux) = hash_merkle_root (parent_header aux).
Proof. unfold verify_coinbase_inclusion. destruct (_ <? _)%nat; [done|]. apply bool_decide_eq_true. Qed.

Lemma included_same L t t' branch branch' :
  inclusion_messages t branch ⊆ L → inclusion_messages t' branch' ⊆ L →
  hashable t → hashable t' → branch_root (tx_hash t) branch = branch_root (tx_hash t') branch' →
  kaspa_collision L ∨ encoded_view FULL t = encoded_view FULL t'.
Proof.
  unfold inclusion_messages. intros Hs Hs' Ht Ht' Heq.
  assert (hash_message t ∈ L) as Hm by set_solver. assert (hash_message t' ∈ L) as Hm' by set_solver.
  destruct (branch_root_inj L (tx_hash t) branch (tx_hash t') branch' ltac:(set_solver) ltac:(set_solver)
    ltac:(apply kaspa_digest_length) ltac:(apply kaspa_digest_length) Heq)
    as [?|[[Hh _]|[(m & Hin & Heqm)|(m & Hin & Heqm)]]]; [by left|by apply tx_hash_inj|left; by apply (tx_hash_no_branch L t m)|left; by apply (tx_hash_no_branch L t' m)].
Qed.

Lemma committed_payload aux aux' : payload (parent_coinbase aux) = payload (parent_coinbase aux') → committed_hash aux = committed_hash aux'.
Proof. unfold committed_hash. by intros ->. Qed.

(** What is hashed when a witness is checked. *)
Definition witness_messages (aux : AuxPow) : list (HashDomain * bytes) :=
  inclusion_messages (parent_coinbase aux) (coinbase_merkle_branch aux).

(** Two witnesses under one Merkle root commit to one block. *)
Lemma binding_same_root L aux aux' e e' :
  witness_messages aux ⊆ L → witness_messages aux' ⊆ L →
  hashable (parent_coinbase aux) → hashable (parent_coinbase aux') →
  hash_merkle_root (parent_header aux) = hash_merkle_root (parent_header aux') →
  verify_binding aux e = true → verify_binding aux' e' = true → kaspa_collision L ∨ e = e'.
Proof.
  intros Hs Hs' Ht Ht' Hroot. unfold verify_binding. rewrite !andb_true_iff, !bool_decide_eq_true. intros [Hc Hi] [Hc' Hi'].
  apply inclusion_root in Hi. apply inclusion_root in Hi'.
  destruct (included_same L _ _ _ _ Hs Hs' Ht Ht' (eq_trans Hi (eq_trans Hroot (eq_sym Hi')))) as [?|Hv]; [by left|right].
  assert (payload (parent_coinbase aux) = payload (parent_coinbase aux')) as Hp.
  { unfold encoded_view in Hv. cbn [FULL EXCLUDE_PAYLOAD] in Hv. congruence. }
  apply committed_payload in Hp. congruence.
Qed.

(** *** The branch of the first transaction *)

(** The right siblings on the way of the first leaf, for a tree of depth [d]. *)
Fixpoint first_branch (d : nat) (l : list Hash) : list Hash :=
  match d with
  | O => []
  | S d => first_branch d (take (2 ^ d) l) ++ [default ZERO_HASH (tree d (drop (2 ^ d) l))]
  end.

Lemma first_branch_root d x l : tree d (x :: l) = Some (branch_root x (first_branch d (x :: l))).
Proof.
  revert l. induction d as [|d IH]; intros l; [done|]. cbn [tree first_branch].
  pose proof (Nat.pow_nonzero 2 d ltac:(lia)). destruct (2 ^ d)%nat as [|n] eqn:Hn; [done|]. cbn [take drop]. rewrite IH.
  unfold node. cbn [fmap option_fmap option_map]. unfold branch_root. by rewrite foldl_snoc.
Qed.

Lemma first_branch_length d l : length (first_branch d l) = d.
Proof. revert l. induction d as [|d IH]; intros l; [done|]. cbn [first_branch]. rewrite length_app, IH. simpl. lia. Qed.

Lemma padded_root_first x l : padded_root (x :: l) = branch_root x (first_branch (Nat.log2_up (length (x :: l))) (x :: l)).
Proof. unfold padded_root. by rewrite first_branch_root. Qed.

Lemma first_branch_messages d x l : branch_messages x (first_branch d (x :: l)) ⊆ tree_messages d (x :: l).
Proof.
  revert l. induction d as [|d IH]; intros l; [done|]. cbn [tree_messages first_branch]. rewrite branch_messages_snoc.
  pose proof (Nat.pow_nonzero 2 d ltac:(lia)). destruct (2 ^ d)%nat as [|n] eqn:Hn; [done|]. cbn [take drop].
  rewrite first_branch_root. specialize (IH (take n l)). cbn. set_solver.
Qed.

Lemma first_inclusion_messages t rest :
  inclusion_messages t (first_branch (Nat.log2_up (length (tx_hash <$> t :: rest))) (tx_hash <$> t :: rest)) ⊆ body_messages (t :: rest).
Proof.
  unfold inclusion_messages, body_messages, root_messages. csimpl. pose proof (first_branch_messages (Nat.log2_up (S (length (tx_hash <$> rest)))) (tx_hash t) (tx_hash <$> rest)).
  set_solver.
Qed.

(** A witness under the root of a body is a witness of its first transaction. *)
Lemma included_first {E} t branch txs :
  hashable t → Forall hashable txs → calc_hash_merkle_root (E := E) txs = Ok (branch_root (tx_hash t) branch) →
  kaspa_collision (inclusion_messages t branch ++ body_messages txs) ∨
  ∃ first rest, txs = first :: rest ∧ encoded_view FULL first = encoded_view FULL t.
Proof.
  intros Ht Hf Hroot. unfold calc_hash_merkle_root in Hroot. rewrite calc_merkle_root_spec in Hroot. apply (inj Ok) in Hroot.
  destruct Hf as [|first rest Hfirst Hrest].
  - left. destruct branch as [|s branch _] using rev_ind.
    + apply (collides_zero _ _ (hash_message t)); [set_solver|done].
    + rewrite branch_root_snoc in Hroot. apply (collides_zero _ _ (MerkleBranchHash, branch_root (tx_hash t) branch ++ s)); [|done].
      unfold inclusion_messages. rewrite branch_messages_snoc, fmap_app. set_solver.
  - pose proof (first_inclusion_messages first rest). csimpl in Hroot. rewrite padded_root_first in Hroot.
    eapply included_same in Hroot as [?|Hv]; [by left| |set_solver|set_solver|done|done]. right. by exists first, rest.
Qed.

(** An honest miner's witness is accepted. *)
Lemma honest_binding {E} h cb rest j e :
  only_tag (payload cb) 0 j → commitment_at (payload cb) j = encode_hex32 e → is_array 32 e →
  Z.of_nat (length (cb :: rest)) ≤ 2 ^ 64 → calc_hash_merkle_root (E := E) (cb :: rest) = Ok (hash_merkle_root h) →
  verify_binding (mkAuxPow h cb (first_branch (Nat.log2_up (length (cb :: rest))) (tx_hash <$> cb :: rest))) e = true.
Proof.
  intros Htag Hc He Hlen Hroot. unfold calc_hash_merkle_root in Hroot. rewrite calc_merkle_root_spec in Hroot. apply (inj Ok) in Hroot.
  unfold verify_binding. apply andb_true_iff. split; [apply bool_decide_eq_true, committed_hash_spec; by exists j|].
  unfold verify_coinbase_inclusion. cbn [coinbase_merkle_branch parent_coinbase parent_header]. rewrite first_branch_length.
  assert (Nat.log2_up (length (cb :: rest)) ≤ 64)%nat as Hd.
  { transitivity (Nat.log2_up (2 ^ 64)); [|rewrite Nat.log2_up_pow2 by apply Nat.le_0_l; apply Nat.le_refl]. apply Nat.log2_up_le_mono.
    apply Nat2Z.inj_le. rewrite Nat2Z.inj_pow. exact Hlen. }
  rewrite (proj2 (Nat.ltb_ge _ _)) by done. apply bool_decide_eq_true. rewrite <- Hroot. csimpl. rewrite padded_root_first.
  cbn [length]. rewrite length_fmap. done.
Qed.
End binding.

(** C15. Merged mining binds one unit of work to one block.  Two accepted witnesses whose parent
    headers have the same hash before the nonce and the time, so that their work is one,
    commit to the same block; a witness under the root of a parent body is a witness of its
    first transaction; both unless, among the messages that are hashed for the parent
    headers, the coinbases, their branches and the body, two have one digest or one has the
    zero digest.  And a miner
    who puts the tag and the hash of a block once in the payload of the coinbase has an
    accepted witness for it, for every parent body of up to 2^64 transactions. *)
Theorem aux_pow_binding `{KaspaHashesLaws} {E} :
  (∀ aux aux' e e' x,
     header_wf (parent_header aux) → header_wf (parent_header aux') → hashable (parent_coinbase aux) → hashable (parent_coinbase aux') →
     hash_override_nonce_time (E := E) (parent_header aux) 0 0 = Ok x → hash_override_nonce_time (E := E) (parent_header aux') 0 0 = Ok x →
     verify_binding aux e = true → verify_binding aux' e' = true →
     kaspa_collision (header_messages (parent_header aux) 0 0 ++ witness_messages aux ++
                      header_messages (parent_header aux') 0 0 ++ witness_messages aux') ∨ e = e') ∧
  (∀ aux e txs,
     hashable (parent_coinbase aux) → Forall hashable txs → verify_binding aux e = true →
     calc_hash_merkle_root (E := E) txs = Ok (hash_merkle_root (parent_header aux)) →
     kaspa_collision (witness_messages aux ++ body_messages txs) ∨
     ∃ first rest, txs = first :: rest ∧ encoded_view FULL first = encoded_view FULL (parent_coinbase aux)) ∧
  (∀ h cb rest prefix suffix e,
     is_array 32 e → payload cb = embed_commitment prefix e suffix → (∀ j, tag_at (payload cb) j → j = length prefix) →
     Z.of_nat (length (cb :: rest)) ≤ 2 ^ 64 → calc_hash_merkle_root (E := E) (cb :: rest) = Ok (hash_merkle_root h) →
     ∃ branch, verify_binding (mkAuxPow h cb branch) e = true).
Proof.
  split_and!.
  - intros aux aux' e e' x Hw Hw' Ht Ht' Hx Hx' Hv Hv'.
    match goal with |- kaspa_collision ?M ∨ _ =>
      assert (header_messages (parent_header aux) 0 0 ⊆ M ∧ header_messages (parent_header aux') 0 0 ⊆ M ∧
              witness_messages aux ⊆ M ∧ witness_messages aux' ⊆ M) as (Hs1 & Hs2 & Hs3 & Hs4) by set_solver end.
    eapply hash_override_inj in Hx' as [?|[Hview _]]; [by left| |exact Hs1|exact Hs2|done..].
    eapply binding_same_root; [exact Hs3|exact Hs4|exact Ht|exact Ht'| |done|done]. unfold header_view in Hview. congruence.
  - intros aux e txs Ht Hf Hv Hroot. unfold verify_binding in Hv. apply andb_true_iff in Hv as [_ Hi]. apply inclusion_root in Hi.
    rewrite <- Hi in Hroot. by eapply included_first.
  - intros h cb rest prefix suffix e He Hp Honly Hlen Hroot. eexists. eapply (honest_binding h cb rest (length prefix)); [|..|done|done].
    + split_and!; [lia| |by intros k _ Hk; apply Honly]. unfold tag_at. rewrite Hp. unfold embed_commitment. by rewrite drop_app_length.
    + unfold commitment_at. rewrite Hp. unfold embed_commitment. rewrite drop_app_ge by lia.
      replace (length prefix + 4 - length prefix)%nat with (length MERGE_MINE_MAGIC) by (simpl; lia). rewrite drop_app_length.
      replace 64%nat with (length (encode_hex32 e)) by (rewrite length_encode, (proj1 He); done). apply take_app_length.
    + done.
Qed.

(** ** The gate is exact *)

Lemma compact_limbs b : in_u 32 b → is_limbs 4 (from_compact_target_bits b).
Proof.
  intros Hb. unfold in_u in Hb. pose proof (Z.div_mod b (2 ^ 24) ltac:(lia)) as Hd. pose proof (Z.mod_pos_bound b (2 ^ 24) ltac:(lia)) as Hm.
  assert (0 ≤ b / 2 ^ 24 < 2 ^ 8) as Hs by (split; [apply Z.div_pos; lia|apply Z.div_lt_upper_bound; lia]).
  pose proof (from_compact_value b) as Hv. pose proof (compact_parts_spec _ _ Hm Hs) as Hp.
  replace (b mod 2 ^ 24 + 2 ^ 24 * (b / 2 ^ 24)) with b in Hp by lia. rewrite Hp in Hv.
  destruct (Z.leb_spec (b / 2 ^ 24) 3); apply Hv; try lia.
  split; [apply Z.div_pos; lia|]. apply Z.div_lt_upper_bound; [lia|]. pose proof (Z.pow_pos_nonneg 2 (8 * (3 - b / 2 ^ 24))). nia.
Qed.

Section gate.
Context `{KaspaHashesLaws} `{KeccakLaws} {E : Type} (fuel : nat).

(** The fuel is enough for the matrix of a header. *)
Definition enough (h : Header) : Prop :=
  match hash_override_nonce_time (E := E) h 0 0 with Ok x => generate fuel x ≠ None | _ => False end.

(** [BlockHash] digests are 32 bytes of a [u8] each. *)
Definition digests_are_bytes : Prop := ∀ m, is_bytes (kaspa_digest BlockHash m).

Lemma pow_state_new_ok h :
  digests_are_bytes → header_wf h → enough h →
  ∃ s, pow_state_new (E := E) fuel h = Ok (Some s) ∧ matrix_ok (matrix s) ∧ is_limbs 25 (hasher s) ∧ target s = from_compact_target_bits (bits h).
Proof.
  intros Hd Hw Hen. unfold enough in Hen. unfold pow_state_new. destruct (hash_override_nonce_time h 0 0) as [x| |] eqn:Hx; [|done..].
  destruct (generate fuel x) as [m|] eqn:Hg; [|done]. cbn. rewrite Hg. cbn. eexists. split; [done|]. cbn.
  split; [by apply generate_ok in Hg as [? _]|]. split; [|done]. apply pow_hash_new_ok; [|apply Hw].
  unfold hash_override_nonce_time in Hx. apply bind_Ok in Hx as (b & _ & [= <-]). split; [apply kaspa_digest_length|apply Hd].
Qed.

Lemma parent_pow_ok aux :
  digests_are_bytes → header_wf (parent_header aux) → enough (parent_header aux) →
  ∃ p, parent_pow (E := E) fuel aux = Ok (Some p) ∧ is_limbs 4 p.
Proof.
  intros Hd Hw Hen. destruct (pow_state_new_ok _ Hd Hw Hen) as (s & Hs & Hm & Hh & _). unfold parent_pow, and_then. rewrite Hs.
  cbn [mbind res_mbind]. destruct (calculate_pow_ok (E := E) s (nonce (parent_header aux)) Hm Hh) as (p & -> & Hp); [apply Hw|]. by exists p.
Qed.

Lemma native_pow_ok h :
  digests_are_bytes → header_wf h → enough h →
  ∃ p, native_pow (E := E) fuel h = Ok (Some (uval p <=? uval (from_compact_target_bits (bits h)), p)) ∧ is_limbs 4 p.
Proof.
  intros Hd Hw Hen. destruct (pow_state_new_ok _ Hd Hw Hen) as (s & Hs & Hm & Hh & Ht). unfold native_pow, and_then, check_pow. rewrite Hs.
  cbn [mbind res_mbind]. destruct (calculate_pow_ok (E := E) s (nonce h) Hm Hh) as (p & -> & Hp); [apply Hw|]. exists p. cbn [mbind res_mbind].
  rewrite Ht. rewrite (uint_geb_spec 4); [done| |done]. apply compact_limbs, Hw.
Qed.
End gate.

(** The level of a block is the number of bits by which its work beats the widest one. *)
Lemma level_spec pow max_level level :
  is_limbs 4 pow → 0 ≤ max_level → 0 < level →
  0 ≤ calc_level_from_pow pow max_level ≤ max_level ∧ (level ≤ calc_level_from_pow pow max_level ↔ level ≤ max_level ∧ uval pow < 2 ^ (max_level - level)).
Proof.
  intros Hp Hm Hl. unfold calc_level_from_pow. rewrite (uint_bits_spec 4) by done. destruct Hp as [Hn Hf].
  pose proof (uval_bound _ Hf) as Hb. set (v := uval pow) in *.
  assert (0 ≤ bit_length v) as H0 by (unfold bit_length; destruct (v =? 0); [done|pose proof (Z.log2_nonneg v); lia]).
  split; [lia|]. split.
  - intros Hle. split; [lia|]. destruct (decide (v = 0)) as [->|Hv]; [apply Z.pow_pos_nonneg; lia|].
    pose proof (bit_length_bounds v ltac:(lia)). pose proof (Z.pow_le_mono_r 2 (bit_length v) (max_level - level) ltac:(lia) ltac:(lia)). lia.
  - intros [Hle Hlt]. pose proof (bit_length_le v (max_level - level) ltac:(lia) ltac:(lia)). lia.
Qed.

Lemma gate_outcome `{KaspaHashesLaws} `{KeccakLaws} {E} fuel h active np target :
  digests_are_bytes → header_wf h → target = uval (from_compact_target_bits (bits h)) → is_limbs 4 np →
  (∀ a, aux_pow h = Some a → header_wf (parent_header a) ∧ enough (E := E) fuel (parent_header a)) →
  native_pow (E := E) fuel h = Ok (Some (uval np <=? target, np)) →
  ∃ work passed, check_pow_gated (E := E) fuel h (aux_pow h) active = Ok (Some (passed, work)) ∧ is_limbs 4 work ∧
  (passed = true ↔ uval np ≤ target ∨
     active = true ∧ ∃ a p, aux_pow h = Some a ∧ verify_binding a (hdr_hash h) = true ∧ parent_pow (E := E) fuel a = Ok (Some p) ∧ uval p ≤ target) ∧
  (uval np ≤ target → work = np) ∧ (passed = true → uval work ≤ target).
Proof.
  intros Hd Hw Htarget Hlnp Haux Hnp.
  unfold check_pow_gated, and_then. rewrite Hnp. cbn [mbind res_mbind]. destruct (Z.leb_spec (uval np) target) as [Hle|Hgt].
  { exists np, true. split_and!; try done. split; [by left|done]. }
  destruct active; [|exists np, false; split_and!; try done; split; [done|intros [?|[? _]]; [lia|done]]].
  destruct (aux_pow h) as [a|] eqn:Ha; [|exists np, false; split_and!; try done; split; [done|intros [?|(_ & ? & ? & ? & _)]; [lia|done]]].
  destruct (Haux a eq_refl) as [Hwa Hena]. destruct (parent_pow_ok fuel a Hd Hwa Hena) as (p & Hp & Hlp).
  unfold verify_aux_pow, and_then. destruct (verify_binding a (hdr_hash h)) eqn:Hb.
  2:{ exists np, false. cbn. split_and!; try done. split; [done|]. intros [?|(_ & a' & ? & [= <-] & ? & _)]; [lia|congruence]. }
  rewrite Hp. cbn [mbind res_mbind]. rewrite (uint_geb_spec 4); [|apply compact_limbs, Hw|done]. rewrite <- Htarget.
  destruct (Z.leb_spec (uval p) target) as [Hple|Hpgt].
  - exists p, true. split_and!; try done; [|lia]. split; [|done]. intros _. right. split; [done|]. by exists a, p.
  - exists np, false. split_and!; try done. split; [done|]. intros [?|(_ & a' & p' & [= <-] & _ & Hp' & ?)]; [lia|].
    rewrite Hp in Hp'. injection Hp' as <-. lia.
Qed.


(** ** A family of digests and headers, to show that the hypotheses can hold

    Every block hashes to the seed of the unit test of matrix.rs, whose first matrix has full
    rank; the permutation is the identity. *)
Module SampleAux.
#[export] Instance hashes : KaspaHashes := λ d m, match d with BlockHash => replicate 32 42 | _ => SampleHashes.hashes d m end.
#[export] Instance hashes_laws : KaspaHashesLaws.
Proof.
  constructor; [|done]. intros d m. pose proof (@kaspa_digest_length SampleHashes.hashes SampleHashes.hashes_laws d m). by destruct d.
Qed.
#[export] Instance keccak : Keccak := λ s, s.
#[export] Instance keccak_laws : KeccakLaws.
Proof. by constructor. Qed.

Lemma seed_ok : is_some (generate 1 (replicate 32 42)) = true.
Proof. vm_cast_no_check (eq_refl true). Qed.

Lemma seed_enough h : header_wf h → enough (E := unit) 1 h.
Proof.
  intros Hw. unfold enough, hash_override_nonce_time. rewrite header_preimage_enc by done. cbn [mbind res_mbind].
  change (generate 1 (replicate 32 42) ≠ None). intros Hnone. pose proof seed_ok as Hs. by rewrite Hnone in Hs.
Qed.

Definition block : Hash := SampleHeader.root 7.
Definition coinbase : Transaction := mkTx 0 [] [] 0 SUBNETWORK_ID_COINBASE 0 (embed_commitment [1; 2] block [9]) 0.
Definition parent : Header :=
  mkHeader ZERO_HASH 1 [(1, [SampleHeader.root 1])] (tx_hash coinbase) (SampleHeader.root 4) (SampleHeader.root 5) 1000 545259519 3 7 [9; 0; 0] 7
    (SampleHeader.root 6) None.

Definition header : Header := with_aux_pow (mkAuxPow parent coinbase []) (SampleHeader.header 1).
Lemma aux_header_ok : header_wf header.
Proof. destruct (SampleHeader.header_ok 1 ltac:(done)). by constructor. Qed.
Lemma parent_ok : header_wf parent.
Proof.
  destruct (SampleHeader.header_ok 3 ltac:(done)) as [? ? ? (? & ? & ?) ? ? ?]. constructor; try done.
  - apply Forall_cons. split; [|apply Forall_nil_2]. split; [done|]. apply Forall_cons. split; [|apply Forall_nil_2]. split; [done|]. by apply Forall_replicate.
  - split_and!; try done. split; [apply kaspa_digest_length|]. apply (bool_decide_unpack _). by vm_compute.
Qed.

Lemma coinbase_tag j : tag_at (payload coinbase) j → j = 2%nat.
Proof.
  intros Ht. pose proof (tag_length _ _ Ht) as Hl. change (length (payload coinbase)) with 71%nat in Hl.
  assert (Forall (λ j, tag_at (payload coinbase) j → j = 2%nat) (seq 0 71)) as Hall by (apply (bool_decide_unpack _); by vm_compute).
  rewrite Forall_forall in Hall. apply Hall; [|done]. apply elem_of_seq. lia.
Qed.
End SampleAux.
Import SampleAux.

Lemma aux_pow_binding_witness : ∃ branch, verify_binding (mkAuxPow parent coinbase branch) block = true.
Proof.
  apply (aux_pow_binding (E := unit)) with (rest := []) (prefix := [1; 2]) (suffix := [9]).
  - split; [done|]. by apply Forall_replicate.
  - done.
  - apply coinbase_tag.
  - done.
  - done.
Defined.

