(* ===== verification/BlockBody.v ===== *)
(** * Validation of a block body (consensus/src/pipeline/body_processor/
    body_validation_in_isolation.rs and body_validation_in_context.rs,
    consensus/core/src/{errors/block.rs, blockstatus.rs, mass/mod.rs})

    The rules that a body must keep by itself and against its header, up to
    and including the canonical payout of a shielded coinbase, and their
    declarative description.  What the window manager answers (the past median
    time of a block) is a parameter. *)

From S2P Require Import Prelude Bytes Transaction Sighash Mass ScriptNum TxIsolation Merkle TxHash Coinbase Header.

(** ** Data *)

Inductive BlockStatus :=
| StatusInvalid
| StatusUTXOValid
| StatusUTXOPendingVerification
| StatusDisqualifiedFromChain
| StatusHeaderOnly.

#[global] Instance block_status_eq_dec : EqDecision BlockStatus.
Proof. solve_decision. Defined.

Definition has_block_header (s : BlockStatus) : bool :=
  match s with
  | StatusHeaderOnly | StatusUTXOValid | StatusUTXOPendingVerification | StatusDisqualifiedFromChain => true
  | StatusInvalid => false
  end.
Definition has_block_body (s : BlockStatus) : bool :=
  match s with
  | StatusUTXOValid | StatusUTXOPendingVerification | StatusDisqualifiedFromChain => true
  | StatusInvalid | StatusHeaderOnly => false
  end.
Definition is_utxo_valid_or_pending (s : BlockStatus) : bool :=
  match s with StatusUTXOValid | StatusUTXOPendingVerification => true | _ => false end.

(** The errors of block processing; the texts of [InvalidShieldedState] are bytes. *)
Inductive RuleError :=
| WrongBlockVersion (got expected : Z)
| TimeTooFarIntoTheFuture (time max : Z)
| NoParents
| TooManyParents (n max : Z)
| OriginParent
| InvalidParentsRelation (a b : Hash)
| InvalidParent (p : Hash)
| MissingParents (missing : list Hash)
| PruningViolation (p : Hash)
| UnexpectedHeaderDaaScore (expected got : Z)
| UnexpectedHeaderBlueScore (expected got : Z)
| UnexpectedHeaderBlueWork (expected got : list Z)
| UnexpectedDifficulty (block : Hash) (got expected : Z)
| TimeTooOld (time min : Z)
| KnownInvalid
| MergeSetTooBig (n max : Z)
| ViolatingBoundedMergeDepth
| BadMerkleRoot (header calculated : Hash)
| NoTransactions
| FirstTxNotCoinbase
| MultipleCoinbases (i : nat)
| BadCoinbasePayload (e : CoinbaseError)
| BadCoinbasePayloadBlueScore (got expected : Z)
| BadShieldedCoinbasePayout
| TxInIsolationValidationFailed (id : Hash) (e : TxRuleError)
| ExceedsComputeMassLimit (mass limit : Z)
| ExceedsTransientMassLimit (mass limit : Z)
| ExceedsStorageMassLimit (mass limit : Z)
| ExceedsLanesPerBlockLimit (lanes limit : Z)
| ExceedsGasPerLaneLimit (lane : bytes) (gas limit : Z)
| DoubleSpendInSameBlock (o : TransactionOutpoint)
| ChainedTransaction (o : TransactionOutpoint)
| TxInContextFailed (id : Hash) (e : TxRuleError)
| WrongSubsidy (expected got : Z)
| DuplicateTransactions (id : Hash)
| InvalidPoW
| WrongHeaderPruningPoint (expected got : Hash)
| WrongSelectedParentOrder (block selected first : Hash)
| UnexpectedIndirectParents (expected got : list (list Hash))
| BadUTXOCommitment (block header calculated : Hash)
| BadAcceptedIDMerkleRoot (block header calculated : Hash)
| BadCoinbaseTransaction
| InvalidTransactionsInUtxoContext (invalid total : Z)
| InvalidShieldedState (block : Hash) (text : bytes)
| InvalidTransactionsInNewBlock (invalid : gmap Hash TxRuleError)
| InsufficientDaaWindowSize (n : Z)
| PrunedBlock.

Abbreviation bres := (res RuleError).

Record BlockMassLimits := mkMassLimits { storage_limit : Z; compute_limit : Z; transient_limit : Z }.
Record BlockLaneLimits := mkLaneLimits { lanes_per_block : Z; gas_per_lane : Z }.

Record Block := mkBlock { block_header : Header; block_transactions : list Transaction }.
Definition block_hash (b : Block) : Hash := hdr_hash (block_header b).

(** What [BlockBodyProcessor::new] takes from the parameters of the network.
    [Params::block_mass_limits] changes the transient limit at an activation. *)
Record BodyConfig := mkBodyConfig {
  prior_block_mass_limits : BlockMassLimits;
  new_transient_mass_limit : Z;
  limits_activation : Z;
  block_lane_limits : BlockLaneLimits;
  genesis_hash : Hash;
  shielded_coinbase : bool;
  coinbase_manager : CoinbaseManager;
  body_mass_calculator : MassCalculator;
  transaction_validator : TransactionValidator;
}.

Definition block_mass_limits (c : BodyConfig) (daa : Z) : BlockMassLimits :=
  let prior := prior_block_mass_limits c in
  if is_active (limits_activation c) daa
  then mkMassLimits (storage_limit prior) (compute_limit prior) (new_transient_mass_limit c)
  else prior.

(** [orchard::Address::from_raw_address_bytes(..).is_some()]. *)
Class OrchardAddresses := orchard_address : bytes → bool.

Section validation.
Context `{KaspaHashes} `{OrchardAddresses} (c : BodyConfig).

(** [shielded-core/src/coinbase.rs]. *)
Definition is_canonical_orchard_payout (script : bytes) : bool :=
  if (length script =? 43)%nat then orchard_address script else false.

(** ** Isolation *)

Definition check_has_transactions (b : Block) : bres () :=
  match block_transactions b with [] => Err NoTransactions | _ => Ok tt end.

Definition check_hash_merkle_root (b : Block) : bres () :=
  calculated ← calc_hash_merkle_root (block_transactions b);
  if bool_decide (calculated = hash_merkle_root (block_header b)) then Ok tt
  else Err (BadMerkleRoot (hash_merkle_root (block_header b)) calculated).

Definition check_only_one_coinbase (b : Block) : bres () :=
  first ← idx (block_transactions b) 0;
  if negb (is_coinbase first) then Err FirstTxNotCoinbase
  else
    match position is_coinbase (drop 1 (block_transactions b)) with
    | Some i => Err (MultipleCoinbases i)
    | None => Ok tt
    end.

Fixpoint transactions_in_isolation (txs : list Transaction) : bres () :=
  match txs with
  | [] => Ok tt
  | tx :: txs =>
      match validate_tx_in_isolation (transaction_validator c) tx with
      | Err e => Err (TxInIsolationValidationFailed (tx_id tx) e)
      | Panic => Panic
      | Ok _ => transactions_in_isolation txs
      end
  end.
Definition check_transactions_in_isolation (b : Block) : bres () := transactions_in_isolation (block_transactions b).

(** The gas that a transaction brings its lane to. *)
Definition lane_gas (lanes : gmap bytes Z) (tx : Transaction) : bres Z :=
  let occupied_lanes := Z.of_nat (size lanes) in
  match lanes !! subnetwork_id tx with
  | Some gas' => Ok (sat_add64 gas' (gas tx))
  | None =>
      if lanes_per_block (block_lane_limits c) <=? occupied_lanes
      then Err (ExceedsLanesPerBlockLimit (occupied_lanes + 1) (lanes_per_block (block_lane_limits c)))
      else Ok (gas tx)
  end.

Fixpoint block_masses (limits : BlockMassLimits) (txs : list Transaction) (total : NonContextualMasses) (total_storage : Z)
    (lanes : gmap bytes Z) : bres (NonContextualMasses * Z) :=
  match txs with
  | [] => Ok (total, total_storage)
  | tx :: txs =>
      masses ← calc_non_contextual_masses (body_mass_calculator c) tx;
      let total_compute := sat_add64 (compute_mass total) (compute_mass masses) in
      let total_transient := sat_add64 (transient_mass total) (transient_mass masses) in
      let total_storage := sat_add64 total_storage (storage_mass tx) in
      if compute_limit limits <? total_compute then Err (ExceedsComputeMassLimit total_compute (compute_limit limits))
      else if transient_limit limits <? total_transient then Err (ExceedsTransientMassLimit total_transient (transient_limit limits))
      else if storage_limit limits <? total_storage then Err (ExceedsStorageMassLimit total_storage (storage_limit limits))
      else
        lanes ←
          (if is_coinbase tx then Ok lanes
           else
             gas' ← lane_gas lanes tx;
             if gas_per_lane (block_lane_limits c) <? gas'
             then Err (ExceedsGasPerLaneLimit (subnetwork_id tx) gas' (gas_per_lane (block_lane_limits c)))
             else Ok (<[subnetwork_id tx := gas']> lanes));
        block_masses limits txs (mkMasses total_compute total_transient) total_storage lanes
  end.
Definition check_block_mass (b : Block) : bres (NonContextualMasses * Z) :=
  block_masses (block_mass_limits c (daa_score (block_header b))) (block_transactions b) (mkMasses 0 0) 0 ∅.

(** A loop that inserts into a hash set and fails on the first element already there. *)
Fixpoint all_new {A} `{Countable A} (e : A → RuleError) (existing : gset A) (l : list A) : bres () :=
  match l with
  | [] => Ok tt
  | x :: l => if bool_decide (x ∈ existing) then Err (e x) else all_new e ({[x]} ∪ existing) l
  end.

Definition block_outpoints (txs : list Transaction) : list TransactionOutpoint :=
  txs ≫= λ tx, previous_outpoint <$> inputs tx.

Definition check_block_double_spends (b : Block) : bres () :=
  all_new DoubleSpendInSameBlock ∅ (block_outpoints (block_transactions b)).

Definition created_outpoints (tx : Transaction) : list TransactionOutpoint :=
  imap (λ index _, mkOutpoint (tx_id tx) (Z.of_nat index mod 2 ^ 32)) (outputs tx).

Definition check_no_chained_transactions (b : Block) : bres () :=
  let block_created_outpoints : gset TransactionOutpoint := list_to_set (block_transactions b ≫= created_outpoints) in
  match filter (λ o, o ∈ block_created_outpoints) (block_outpoints (block_transactions b)) with
  | o :: _ => Err (ChainedTransaction o)
  | [] => Ok tt
  end.

Definition check_duplicate_transactions (b : Block) : bres () :=
  all_new DuplicateTransactions ∅ (tx_id <$> block_transactions b).

Definition validate_body_in_isolation (b : Block) : bres (NonContextualMasses * Z) :=
  _ ← check_has_transactions b;
  _ ← check_hash_merkle_root b;
  _ ← check_only_one_coinbase b;
  _ ← check_transactions_in_isolation b;
  mass ← check_block_mass b;
  _ ← check_duplicate_transactions b;
  _ ← check_block_double_spends b;
  _ ← check_no_chained_transactions b;
  Ok mass.

(** ** Context *)

(** [WindowManager::calc_past_median_time_for_known_hash]. *)
Context (past_median_time : Hash → bres Z).

(** The median time is computed when the first transaction needs it. *)
Fixpoint transactions_in_context (h : Hash) (daa : Z) (txs : list Transaction) : bres () :=
  match txs with
  | [] => Ok tt
  | tx :: txs =>
      lock_time_arg ←
        match get_lock_time_type tx with
        | LT_Finalized => Ok LTA_Finalized
        | LT_DaaScore => Ok (LTA_DaaScore daa)
        | LT_Time => pmt ← past_median_time h; Ok (LTA_MedianTime pmt)
        end;
      match validate_tx_in_header_context (transaction_validator c) tx lock_time_arg daa with
      | Err e => Err (TxInContextFailed (tx_id tx) e)
      | Panic => Panic
      | Ok _ => transactions_in_context h daa txs
      end
  end.
Definition check_block_transactions_in_context (b : Block) : bres () :=
  transactions_in_context (block_hash b) (daa_score (block_header b)) (block_transactions b).

Definition check_parent_bodies_exist (statuses : gmap Hash BlockStatus) (b : Block) : bres () :=
  parents ← direct_parents (block_header b);
  match filter (λ p, from_option has_block_body false (statuses !! p) = false) parents with
  | [] => Ok tt
  | missing => Err (MissingParents missing)
  end.

Definition check_coinbase_blue_score_and_subsidy (b : Block) : bres () :=
  let header := block_header b in
  coinbase ← idx (block_transactions b) 0;
  match deserialize_coinbase_payload (coinbase_manager c) (payload coinbase) with
  | Panic => Panic
  | Err e => Err (BadCoinbasePayload e)
  | Ok data =>
      if negb (cb_blue_score data =? blue_score header) then Err (BadCoinbasePayloadBlueScore (cb_blue_score data) (blue_score header))
      else
        expected_subsidy ← calc_block_subsidy (coinbase_manager c) (daa_score header);
        if negb (cb_subsidy data =? expected_subsidy) then Err (WrongSubsidy expected_subsidy (cb_subsidy data))
        else if shielded_coinbase c && negb (bool_decide (block_hash b = genesis_hash c))
                && negb (is_canonical_orchard_payout (spk_script (miner_script_public_key (miner_data data))))
        then Err BadShieldedCoinbasePayout
        else Ok tt
  end.

Definition validate_body_in_context (statuses : gmap Hash BlockStatus) (b : Block) : bres () :=
  _ ← check_parent_bodies_exist statuses b;
  _ ← check_coinbase_blue_score_and_subsidy b;
  check_block_transactions_in_context b.

Definition validate_trusted_body_in_context (b : Block) : bres () := check_coinbase_blue_score_and_subsidy b.

(** [BlockBodyProcessor::validate_body]. *)
Definition validate_body (statuses : gmap Hash BlockStatus) (b : Block) (is_trusted : bool) : bres (NonContextualMasses * Z) :=
  mass ← validate_body_in_isolation b;
  _ ← (if is_trusted then validate_trusted_body_in_context b else validate_body_in_context statuses b);
  Ok mass.
End validation.

(** ** What the rules in isolation say *)

(** A check before the rest. *)
Lemma check_bind {E A} (m : res E ()) (k : res E A) (P Q : Prop) :
  m ≠ Panic ∧ (m = Ok tt ↔ P) → (P → k ≠ Panic ∧ (is_ok k = true ↔ Q)) →
  (_ ← m; k) ≠ Panic ∧ (is_ok (_ ← m; k) = true ↔ P ∧ Q).
Proof. intros [Hp Hi] Hk. destruct m as [[]| |]; cbn [mbind res_mbind is_ok]; naive_solver. Qed.
Lemma check_assoc {E A} (k : res E A) (P Q : Prop) :
  P → k ≠ Panic ∧ (is_ok k = true ↔ Q) → k ≠ Panic ∧ (is_ok k = true ↔ P ∧ Q).
Proof. naive_solver. Qed.

Section rules.
Context `{KaspaHashes} (c : BodyConfig).

Definition masses_of (t : Transaction) : NonContextualMasses :=
  match calc_non_contextual_masses (E := RuleError) (body_mass_calculator c) t with Ok m => m | _ => mkMasses 0 0 end.

Definition laned (txs : list Transaction) : list Transaction := filter (λ t, is_coinbase t = false) txs.
Definition lane_set (txs : list Transaction) : gset bytes := list_to_set (subnetwork_id <$> laned txs).
Definition lane_total (lane : bytes) (txs : list Transaction) : Z := sumZ (gas <$> filter (λ t, subnetwork_id t = lane) (laned txs)).

Record body_rules (b : Block) : Prop := {
  br_coinbase : ∃ first rest, block_transactions b = first :: rest ∧ is_coinbase first = true ∧ Forall (λ t, is_coinbase t = false) rest;
  br_root : calc_hash_merkle_root (E := RuleError) (block_transactions b) = Ok (hash_merkle_root (block_header b));
  br_isolated : Forall (isolated (transaction_validator c)) (block_transactions b);
  br_compute : sumZ ((λ t, compute_mass (masses_of t)) <$> block_transactions b) ≤ compute_limit (block_mass_limits c (daa_score (block_header b)));
  br_transient : sumZ ((λ t, transient_mass (masses_of t)) <$> block_transactions b) ≤ transient_limit (block_mass_limits c (daa_score (block_header b)));
  br_storage : sumZ (storage_mass <$> block_transactions b) ≤ storage_limit (block_mass_limits c (daa_score (block_header b)));
  br_lanes : Z.of_nat (size (lane_set (block_transactions b))) ≤ lanes_per_block (block_lane_limits c);
  br_gas : ∀ lane, lane_total lane (block_transactions b) ≤ gas_per_lane (block_lane_limits c);
  br_ids : NoDup (tx_id <$> block_transactions b);
  br_spends : NoDup (block_outpoints (block_transactions b));
  br_unchained : ∀ t o, t ∈ block_transactions b → o ∈ block_outpoints (block_transactions b) →
    ¬ (transaction_id o = tx_id t ∧ 0 ≤ outpoint_index o < zlen (outputs t));
}.

(** The limits are below the value at which the sums saturate, and the masses
    are those that the transaction rules bound. *)
Record body_config_ok : Prop := {
  bc_limits : Forall (λ l, 0 ≤ l < U64_MAX) [storage_limit (prior_block_mass_limits c); compute_limit (prior_block_mass_limits c);
                transient_limit (prior_block_mass_limits c); new_transient_mass_limit c];
  bc_lanes : 0 ≤ lanes_per_block (block_lane_limits c) ∧ 0 ≤ gas_per_lane (block_lane_limits c) < U64_MAX;
  bc_calculator : body_mass_calculator c = mass_calculator (transaction_validator c);
  bc_validator : limits_ok (transaction_validator c);
  bc_manager : made (coinbase_manager c);
}.

Lemma sat_add_le a b limit : limit < U64_MAX → sat_add64 a b ≤ limit ↔ a + b ≤ limit.
Proof. unfold sat_add64, U64_MAX. lia. Qed.
Lemma sat_add_eq a b limit : limit < U64_MAX → a + b ≤ limit → sat_add64 a b = a + b.
Proof. unfold sat_add64, U64_MAX. lia. Qed.

(** *** The loop over the masses *)

Definition mass_known (t : Transaction) : Prop :=
  hashable t ∧ ∃ m, calc_non_contextual_masses (E := RuleError) (body_mass_calculator c) t = Ok m ∧ 0 ≤ compute_mass m ∧ 0 ≤ transient_mass m.

(** The limits, and the lanes filled before the loop. *)
Record masses_inv (limits : BlockMassLimits) (lanes : gmap bytes Z) : Prop := {
  mi_limits : compute_limit limits < U64_MAX ∧ transient_limit limits < U64_MAX ∧ storage_limit limits < U64_MAX ∧
    gas_per_lane (block_lane_limits c) < U64_MAX;
  mi_lanes : Z.of_nat (size lanes) ≤ lanes_per_block (block_lane_limits c);
  mi_gas : ∀ lane, 0 ≤ default 0 (lanes !! lane) ≤ gas_per_lane (block_lane_limits c);
}.

(** What remains fits. *)
Record masses_fit (limits : BlockMassLimits) (txs : list Transaction) (total : NonContextualMasses) (storage : Z) (lanes : gmap bytes Z) : Prop := {
  mf_compute : compute_mass total + sumZ ((λ t, compute_mass (masses_of t)) <$> txs) ≤ compute_limit limits;
  mf_transient : transient_mass total + sumZ ((λ t, transient_mass (masses_of t)) <$> txs) ≤ transient_limit limits;
  mf_storage : storage + sumZ (storage_mass <$> txs) ≤ storage_limit limits;
  mf_lanes : Z.of_nat (size (dom lanes ∪ lane_set txs)) ≤ lanes_per_block (block_lane_limits c);
  mf_gas : ∀ lane, default 0 (lanes !! lane) + lane_total lane txs ≤ gas_per_lane (block_lane_limits c);
}.

Lemma known_masses t :
  mass_known t → calc_non_contextual_masses (E := RuleError) (body_mass_calculator c) t = Ok (masses_of t) ∧
    0 ≤ compute_mass (masses_of t) ∧ 0 ≤ transient_mass (masses_of t) ∧ 0 ≤ storage_mass t ∧ 0 ≤ gas t.
Proof.
  intros [[Hwf [? _]] (m & Hm & ? & ?)]. unfold masses_of. rewrite Hm. destruct Hwf as (_ & _ & _ & _ & _ & [? _] & _). done.
Qed.

Lemma lane_set_cons t txs : is_coinbase t = false → lane_set (t :: txs) = {[subnetwork_id t]} ∪ lane_set txs.
Proof. intros Ht. unfold lane_set, laned. by rewrite filter_cons_True. Qed.
Lemma lane_total_cons lane t txs :
  is_coinbase t = false → lane_total lane (t :: txs) = (if decide (subnetwork_id t = lane) then gas t else 0) + lane_total lane txs.
Proof. intros Ht. unfold lane_total, laned. rewrite filter_cons_True by done. rewrite filter_cons. by case_decide. Qed.
Lemma laned_coinbase t txs : is_coinbase t = true → laned (t :: txs) = laned txs.
Proof. intros Ht. unfold laned. apply filter_cons_False. by rewrite Ht. Qed.
Lemma lane_total_nonneg lane txs : Forall mass_known txs → 0 ≤ lane_total lane txs.
Proof.
  intros Hf. apply sumZ_nonneg, Forall_fmap, Forall_forall. intros t [_ [_ Ht]%list_elem_of_filter]%list_elem_of_filter.
  rewrite Forall_forall in Hf. by apply known_masses, Hf.
Qed.
Lemma sums_nonneg f txs : (∀ t, mass_known t → 0 ≤ f t) → Forall mass_known txs → 0 ≤ sumZ (f <$> txs).
Proof. intros Hf Ht. apply sumZ_nonneg, Forall_fmap. eapply Forall_impl; [exact Ht|]. exact Hf. Qed.

Definition lane_step (lanes : gmap bytes Z) (tx : Transaction) : bres (gmap bytes Z) :=
  if is_coinbase tx then Ok lanes
  else
    gas' ← lane_gas c lanes tx;
    if gas_per_lane (block_lane_limits c) <? gas'
    then Err (ExceedsGasPerLaneLimit (subnetwork_id tx) gas' (gas_per_lane (block_lane_limits c)))
    else Ok (<[subnetwork_id tx := gas']> lanes).

Lemma lane_step_spec limits lanes tx :
  masses_inv limits lanes → mass_known tx → is_coinbase tx = false →
  match lane_step lanes tx with
  | Ok lanes' => lanes' = <[subnetwork_id tx := default 0 (lanes !! subnetwork_id tx) + gas tx]> lanes ∧ masses_inv limits lanes'
  | Err _ => lanes_per_block (block_lane_limits c) < Z.of_nat (size ({[subnetwork_id tx]} ∪ dom lanes)) ∨
             gas_per_lane (block_lane_limits c) < default 0 (lanes !! subnetwork_id tx) + gas tx
  | Panic => False
  end.
Proof.
  intros [Hl Hs Hg] Hk Hcb. pose proof (known_masses _ Hk) as (_ & _ & _ & _ & Hgas). unfold lane_step, lane_gas. rewrite Hcb.
  pose proof (Hg (subnetwork_id tx)) as Hgt. destruct Hl as (Hlc & Hlt & Hls & Hlg).
  assert (∀ x, 0 ≤ x ≤ gas_per_lane (block_lane_limits c) → Z.of_nat (size ({[subnetwork_id tx]} ∪ dom lanes)) ≤ lanes_per_block (block_lane_limits c) →
            masses_inv limits (<[subnetwork_id tx := x]> lanes)) as Hinv.
  { intros x Hx Hsz. constructor; [done| |].
    - by rewrite <- size_dom, dom_insert_L.
    - intros lane. destruct (decide (lane = subnetwork_id tx)) as [->|]; [by rewrite lookup_insert_eq|by rewrite lookup_insert_ne]. }
  destruct (lanes !! subnetwork_id tx) as [g|] eqn:Hlk; cbn [default from_option id mbind res_mbind] in *.
  - destruct (Z.ltb_spec (gas_per_lane (block_lane_limits c)) (sat_add64 g (gas tx))) as [Hlt'|Hle].
    + right. pose proof (sat_add_le g (gas tx) _ Hlg). lia.
    + pose proof Hle as Hle'%sat_add_le; [|done]. rewrite (sat_add_eq _ _ _ Hlg Hle'). split; [done|]. apply Hinv; [lia|].
      assert ({[subnetwork_id tx]} ∪ dom lanes = dom lanes) as -> by (apply elem_of_dom_2 in Hlk; set_solver). by rewrite size_dom.
  - assert (size ({[subnetwork_id tx]} ∪ dom lanes) = S (size lanes)) as Hsz.
    { rewrite size_union by (apply not_elem_of_dom in Hlk; set_solver). by rewrite size_singleton, size_dom. }
    rewrite Hsz in *. destruct (Z.leb_spec (lanes_per_block (block_lane_limits c)) (Z.of_nat (size lanes))); [left; lia|]. cbn [mbind res_mbind].
    destruct (Z.ltb_spec (gas_per_lane (block_lane_limits c)) (gas tx)); [right; lia|]. split; [done|]. apply Hinv; lia.
Qed.

Lemma masses_fit_cons limits t txs total storage lanes lanes' :
  (if is_coinbase t then lanes' = lanes else lanes' = <[subnetwork_id t := default 0 (lanes !! subnetwork_id t) + gas t]> lanes) →
  masses_fit limits (t :: txs) total storage lanes ↔
  masses_fit limits txs (mkMasses (compute_mass total + compute_mass (masses_of t)) (transient_mass total + transient_mass (masses_of t)))
    (storage + storage_mass t) lanes'.
Proof.
  intros Hl.
  assert (dom lanes ∪ lane_set (t :: txs) = dom lanes' ∪ lane_set txs) as Hd.
  { destruct (is_coinbase t) eqn:Hcb; subst lanes'; [unfold lane_set; by rewrite laned_coinbase|].
    rewrite lane_set_cons, dom_insert_L by done. set_solver. }
  assert (∀ lane, default 0 (lanes !! lane) + lane_total lane (t :: txs) = default 0 (lanes' !! lane) + lane_total lane txs) as Hg.
  { intros lane. destruct (is_coinbase t) eqn:Hcb; subst lanes'; [unfold lane_total; by rewrite laned_coinbase|].
    rewrite lane_total_cons by done. case_decide as Hd'; [subst lane; rewrite lookup_insert_eq|rewrite lookup_insert_ne by done]; cbn [default from_option id]; lia. }
  split; intros [Hc Ht Hs Hn Hgs]; constructor; rewrite ?fmap_cons, ?sumZ_cons in *; cbn [compute_mass transient_mass] in *; try lia;
    rewrite ?Hd in *; try done; intros lane; specialize (Hgs lane); rewrite ?Hg in *; lia.
Qed.

Lemma masses_fit_first limits t txs total storage lanes :
  mass_known t → Forall mass_known txs → masses_fit limits (t :: txs) total storage lanes →
  compute_mass total + compute_mass (masses_of t) ≤ compute_limit limits ∧
  transient_mass total + transient_mass (masses_of t) ≤ transient_limit limits ∧ storage + storage_mass t ≤ storage_limit limits ∧
  (is_coinbase t = false → Z.of_nat (size ({[subnetwork_id t]} ∪ dom lanes)) ≤ lanes_per_block (block_lane_limits c) ∧
     default 0 (lanes !! subnetwork_id t) + gas t ≤ gas_per_lane (block_lane_limits c)).
Proof.
  intros Ht Hf [Hc Htr Hs Hn Hg]. rewrite !fmap_cons, !sumZ_cons in *.
  pose proof (sums_nonneg (λ t, compute_mass (masses_of t)) txs (λ t Hk, proj1 (proj2 (known_masses t Hk))) Hf).
  pose proof (sums_nonneg (λ t, transient_mass (masses_of t)) txs (λ t Hk, proj1 (proj2 (proj2 (known_masses t Hk)))) Hf).
  pose proof (sums_nonneg storage_mass txs (λ t Hk, proj1 (proj2 (proj2 (proj2 (known_masses t Hk))))) Hf).
  split_and!; [lia..|]. intros Hcb. split.
  - rewrite lane_set_cons in Hn by done. etrans; [|exact Hn]. apply inj_le, subseteq_size. set_solver.
  - specialize (Hg (subnetwork_id t)). rewrite lane_total_cons, decide_True in Hg by done.
    pose proof (lane_total_nonneg (subnetwork_id t) txs Hf). lia.
Qed.

Lemma block_masses_spec limits txs total storage lanes :
  masses_inv limits lanes → Forall mass_known txs →
  block_masses c limits txs total storage lanes ≠ Panic ∧
  (is_ok (block_masses c limits txs total storage lanes) = true ↔
   txs = [] ∨ masses_fit limits txs total storage lanes).
Proof.
  intros Hinv Hf. revert total storage lanes Hinv.
  induction Hf as [|t txs Ht Hf IH]; intros total storage lanes Hinv; [split; [done|]; split; [by left|done]|].
  destruct (known_masses t Ht) as (Hm & Hc0 & Ht0 & Hs0 & Hg0). cbn [block_masses]. rewrite Hm. cbn [mbind res_mbind].
  destruct (mi_limits _ _ Hinv) as (Hlc & Hlt & Hls & Hlg).
  assert (∀ P : Prop, (masses_fit limits (t :: txs) total storage lanes → P) → ¬ P → (false = true ↔ t :: txs = [] ∨ masses_fit limits (t :: txs) total storage lanes)) as Hno
    by naive_solver.
  pose proof (masses_fit_first limits t txs total storage lanes Ht Hf) as Hfirst.
  destruct (Z.ltb_spec (compute_limit limits) (sat_add64 (compute_mass total) (compute_mass (masses_of t)))) as [H1|H1%sat_add_le]; [| |done].
  { split; [done|]. pose proof (sat_add_le (compute_mass total) (compute_mass (masses_of t)) _ Hlc). apply (Hno _ Hfirst). lia. }
  destruct (Z.ltb_spec (transient_limit limits) (sat_add64 (transient_mass total) (transient_mass (masses_of t)))) as [H2|H2%sat_add_le]; [| |done].
  { split; [done|]. pose proof (sat_add_le (transient_mass total) (transient_mass (masses_of t)) _ Hlt). apply (Hno _ Hfirst). lia. }
  destruct (Z.ltb_spec (storage_limit limits) (sat_add64 storage (storage_mass t))) as [H3|H3%sat_add_le]; [| |done].
  { split; [done|]. pose proof (sat_add_le storage (storage_mass t) _ Hls). apply (Hno _ Hfirst). lia. }
  rewrite (sat_add_eq _ _ _ Hlc H1), (sat_add_eq _ _ _ Hlt H2), (sat_add_eq _ _ _ Hls H3). fold (lane_step lanes t).
  assert (∀ lanes', masses_inv limits lanes' →
            (if is_coinbase t then lanes' = lanes else lanes' = <[subnetwork_id t := default 0 (lanes !! subnetwork_id t) + gas t]> lanes) →
            ∀ r, r = block_masses c limits txs (mkMasses (compute_mass total + compute_mass (masses_of t)) (transient_mass total + transient_mass (masses_of t)))
                       (storage + storage_mass t) lanes' →
            r ≠ Panic ∧ (is_ok r = true ↔ t :: txs = [] ∨ masses_fit limits (t :: txs) total storage lanes)) as Hrest.
  { intros lanes' Hinv' Hl r ->. destruct (IH (mkMasses (compute_mass total + compute_mass (masses_of t)) (transient_mass total + transient_mass (masses_of t)))
      (storage + storage_mass t) lanes' Hinv') as [Hp Hi]. split; [done|]. rewrite Hi, (masses_fit_cons _ _ _ _ _ _ _ Hl).
    split; [intros [->|?]; right; [|done]|naive_solver].
    destruct Hinv' as [_ Hn Hg]. constructor; cbn [compute_mass transient_mass]; rewrite ?fmap_nil; change (sumZ []) with 0; try lia.
    - change (lane_set []) with (∅ : gset bytes). rewrite union_empty_r_L, size_dom. lia.
    - intros lane. change (lane_total lane []) with 0. specialize (Hg lane). lia. }
  destruct (is_coinbase t) eqn:Hcb.
  - unfold lane_step. rewrite Hcb. cbn [mbind res_mbind]. by apply (Hrest lanes).
  - pose proof (lane_step_spec limits lanes t Hinv Ht Hcb) as Hstep. destruct (lane_step lanes t) as [lanes'|e|]; cbn [mbind res_mbind]; [|split; [done|]|done].
    + destruct Hstep as [-> Hinv']. by eapply (Hrest _ Hinv').
    + apply (Hno _ Hfirst). naive_solver lia.
Qed.

(** *** The other checks *)

Lemma all_new_spec {A} `{Countable A} (e : A → RuleError) existing l :
  all_new e existing l ≠ Panic ∧ (all_new e existing l = Ok tt ↔ NoDup l ∧ ∀ x, x ∈ l → x ∉ existing).
Proof.
  revert existing. induction l as [|x l IH]; intros existing; [split; [done|]; split; [|done]; split; [constructor|set_solver]|].
  cbn [all_new]. case_bool_decide as Hx; [split; [done|]; split; [done|]; intros [_ Hn]; by destruct (Hn x); [left|]|].
  destruct (IH ({[x]} ∪ existing)) as [Hp Hi]. split; [done|]. rewrite Hi, NoDup_cons. set_solver.
Qed.

Lemma created_outpoints_spec t o :
  hashable t → o ∈ created_outpoints t ↔ transaction_id o = tx_id t ∧ 0 ≤ outpoint_index o < zlen (outputs t).
Proof.
  intros [(_ & _ & _ & _ & _ & _ & _ & _ & _ & Hlen) _]. unfold created_outpoints, zlen. rewrite list_elem_of_lookup. split.
  - intros [i Hi]. apply list_lookup_imap_Some in Hi as (out & Hout & ->). apply lookup_lt_Some in Hout. cbn [transaction_id outpoint_index].
    rewrite Z.mod_small by lia. split; [done|lia].
  - intros [Hid Hi]. exists (Z.to_nat (outpoint_index o)). rewrite list_lookup_imap.
    destruct (lookup_lt_is_Some_2 (outputs t) (Z.to_nat (outpoint_index o)) ltac:(lia)) as [out ->]. simpl.
    rewrite Z2Nat.id, Z.mod_small by lia. destruct o. simpl in *. by subst.
Qed.

Lemma no_chained_spec b :
  Forall hashable (block_transactions b) →
  check_no_chained_transactions b ≠ Panic ∧
  (check_no_chained_transactions b = Ok tt ↔
   ∀ t o, t ∈ block_transactions b → o ∈ block_outpoints (block_transactions b) →
     ¬ (transaction_id o = tx_id t ∧ 0 ≤ outpoint_index o < zlen (outputs t))).
Proof.
  intros Hf. unfold check_no_chained_transactions. rewrite Forall_forall in Hf.
  assert (∀ o, o ∈ (list_to_set (block_transactions b ≫= created_outpoints) : gset TransactionOutpoint) ↔
            ∃ t, t ∈ block_transactions b ∧ transaction_id o = tx_id t ∧ 0 ≤ outpoint_index o < zlen (outputs t)) as Hc.
  { intros o. rewrite elem_of_list_to_set, list_elem_of_bind. split; intros (t & ? & ?); exists t.
    - rewrite <- created_outpoints_spec by (by apply Hf). done.
    - rewrite created_outpoints_spec by (by apply Hf). done. }
  destruct (filter _ _) as [|o l] eqn:Hl; (split; [done|]); split; [|done|done|].
  - intros _ t o Ht Ho Hco. assert (o ∈ @nil TransactionOutpoint) as Hin; [|by apply not_elem_of_nil in Hin].
    rewrite <- Hl, list_elem_of_filter, Hc. naive_solver.
  - intros Hno. exfalso. assert (o ∈ o :: l) as Hin by left. rewrite <- Hl, list_elem_of_filter, Hc in Hin.
    destruct Hin as [(t & Ht & Hco) Ho]. by apply (Hno t o).
Qed.

Lemma transactions_in_isolation_spec txs :
  Forall hashable txs →
  transactions_in_isolation c txs ≠ Panic ∧
  (transactions_in_isolation c txs = Ok tt ↔ Forall (isolated (transaction_validator c)) txs).
Proof.
  induction 1 as [|t txs [Ht _] Hf [IHp IHi]]; [done|]. cbn [transactions_in_isolation]. rewrite Forall_cons, <- IHi, <- isolation_iff by done.
  pose proof (isolation_no_panic (transaction_validator c) t). destruct (validate_tx_in_isolation _ t) as [[]| |]; [|split; [done|]; split; [done|by intros [? _]]|done].
  split; [done|]. split; [by intros ?|by intros [_ ?]].
Qed.

Lemma one_coinbase_spec b :
  check_has_transactions b = Ok tt →
  check_only_one_coinbase b ≠ Panic ∧
  (check_only_one_coinbase b = Ok tt ↔
   ∃ first rest, block_transactions b = first :: rest ∧ is_coinbase first = true ∧ Forall (λ t, is_coinbase t = false) rest).
Proof.
  unfold check_has_transactions, check_only_one_coinbase. destruct (block_transactions b) as [|first rest]; [done|]. intros _.
  cbn [idx lookup list_lookup unwrap mbind res_mbind drop]. destruct (is_coinbase first) eqn:Hf; cbn [negb].
  2:{ split; [done|]. split; [done|]. intros (f & r & [= -> ->] & ? & _). congruence. }
  rewrite drop_0. unfold position. destruct (position_from is_coinbase 0 rest) as [i|] eqn:Hp.
  - split; [done|]. split; [done|]. intros (f & r & [= -> ->] & _ & Hr). apply position_from_None with (i := 0%nat) in Hr. congruence.
  - split; [done|]. split; [|done]. intros _. apply position_from_None in Hp. by eexists _, _.
Qed.

Lemma merkle_root_spec b :
  check_hash_merkle_root b ≠ Panic ∧
  (check_hash_merkle_root b = Ok tt ↔ calc_hash_merkle_root (E := RuleError) (block_transactions b) = Ok (hash_merkle_root (block_header b))).
Proof.
  unfold check_hash_merkle_root. unfold calc_hash_merkle_root at 1 2. rewrite calc_merkle_root_spec. cbn [mbind res_mbind].
  unfold calc_hash_merkle_root. rewrite calc_merkle_root_spec, (inj_iff Ok). case_bool_decide; naive_solver.
Qed.

Context (Hc : body_config_ok).

Lemma limits_bound daa :
  0 ≤ compute_limit (block_mass_limits c daa) < U64_MAX ∧ 0 ≤ transient_limit (block_mass_limits c daa) < U64_MAX ∧
  0 ≤ storage_limit (block_mass_limits c daa) < U64_MAX.
Proof.
  pose proof (bc_limits Hc) as Hl. rewrite !Forall_cons in Hl. destruct Hl as (Hs & Hco & Ht & Hn & _).
  unfold block_mass_limits. by case_match.
Qed.

Lemma isolated_known t : hashable t → isolated (transaction_validator c) t → mass_known t.
Proof.
  intros Hh Hi. split; [done|]. rewrite (bc_calculator Hc).
  destruct (isolated_masses (E := RuleError) (transaction_validator c) t (proj1 Hh) Hi (bc_validator Hc)) as (m & Hm & [? _] & [? _]). by exists m.
Qed.

Lemma block_mass_spec b :
  Forall hashable (block_transactions b) → Forall (isolated (transaction_validator c)) (block_transactions b) →
  check_has_transactions b = Ok tt →
  check_block_mass c b ≠ Panic ∧
  (is_ok (check_block_mass c b) = true ↔
   masses_fit (block_mass_limits c (daa_score (block_header b))) (block_transactions b) (mkMasses 0 0) 0 ∅).
Proof.
  intros Hh Hi Hne. unfold check_block_mass.
  destruct (block_masses_spec (block_mass_limits c (daa_score (block_header b))) (block_transactions b) (mkMasses 0 0) 0 ∅) as [Hp Hs].
  - pose proof (limits_bound (daa_score (block_header b))). destruct (bc_lanes Hc) as [? ?].
    constructor; [tauto|by rewrite map_size_empty|]. intros lane. rewrite lookup_empty. simpl. lia.
  - apply Forall_forall. intros t Ht. rewrite Forall_forall in Hh, Hi. by apply isolated_known; [apply Hh|apply Hi].
  - split; [done|]. rewrite Hs. unfold check_has_transactions in Hne. destruct (block_transactions b); [done|]. naive_solver.
Qed.

Lemma has_transactions_spec b : check_has_transactions b ≠ Panic ∧ (check_has_transactions b = Ok tt ↔ block_transactions b ≠ []).
Proof. unfold check_has_transactions. by destruct (block_transactions b). Qed.

Lemma body_rules_conj b :
  body_rules b ↔
  block_transactions b ≠ [] ∧
  calc_hash_merkle_root (E := RuleError) (block_transactions b) = Ok (hash_merkle_root (block_header b)) ∧
  (∃ first rest, block_transactions b = first :: rest ∧ is_coinbase first = true ∧ Forall (λ t, is_coinbase t = false) rest) ∧
  Forall (isolated (transaction_validator c)) (block_transactions b) ∧
  masses_fit (block_mass_limits c (daa_score (block_header b))) (block_transactions b) (mkMasses 0 0) 0 ∅ ∧
  (NoDup (tx_id <$> block_transactions b) ∧ ∀ x, x ∈ tx_id <$> block_transactions b → x ∉ (∅ : gset Hash)) ∧
  (NoDup (block_outpoints (block_transactions b)) ∧ ∀ x, x ∈ block_outpoints (block_transactions b) → x ∉ (∅ : gset TransactionOutpoint)) ∧
  (∀ t o, t ∈ block_transactions b → o ∈ block_outpoints (block_transactions b) →
     ¬ (transaction_id o = tx_id t ∧ 0 ≤ outpoint_index o < zlen (outputs t))).
Proof.
  assert (∀ lane, default 0 ((∅ : gmap bytes Z) !! lane) = 0) as Hz by (intros; by rewrite lookup_empty).
  assert (dom (∅ : gmap bytes Z) ∪ lane_set (block_transactions b) = lane_set (block_transactions b)) as Hd by set_solver.
  split.
  - intros [(f & r & Hf & ? & ?) ? ? Hco Htr Hst Hla Hga ? ? ?]. split_and!; [by rewrite Hf|done|by eexists _, _|done| |set_solver..|done].
    constructor; cbn [compute_mass transient_mass]; rewrite ?Z.add_0_l, ?Hd; [done..|]. intros lane. rewrite Hz. apply Hga.
  - intros (_ & ? & ? & ? & [Hco Htr Hst Hla Hga] & [? _] & [? _] & ?). cbn [compute_mass transient_mass] in *. rewrite ?Z.add_0_l, ?Hd in *.
    by constructor.
Qed.

Lemma body_isolation_spec b :
  Forall hashable (block_transactions b) →
  validate_body_in_isolation c b ≠ Panic ∧ (is_ok (validate_body_in_isolation c b) = true ↔ body_rules b).
Proof.
  intros Hh. rewrite body_rules_conj. unfold validate_body_in_isolation.
  apply check_bind; [apply has_transactions_spec|]. intros Hne%has_transactions_spec.
  apply check_bind; [apply merkle_root_spec|]. intros _.
  apply check_bind; [by apply one_coinbase_spec|]. intros _.
  apply check_bind; [by apply transactions_in_isolation_spec|]. intros Hi.
  destruct (block_mass_spec b Hh Hi Hne) as [Hp Hm].
  destruct (check_block_mass c b) as [mass| |]; cbn [mbind res_mbind is_ok] in *; [|split; [done|]; split; [done|]; by intros [?%Hm _]|done].
  apply check_assoc; [by apply Hm|].
  apply check_bind; [apply all_new_spec|]. intros _.
  apply check_bind; [apply all_new_spec|]. intros _.
  destruct (no_chained_spec b Hh) as [Hp8 <-]. by destruct (check_no_chained_transactions b) as [[]| |].
Qed.

(** ** What the rules in context say *)

Context `{OrchardAddresses} (past_median_time : Hash → bres Z).

Definition parents_of (h : Header) : list Hash := default [] (levels_after 0 (parents_by_level h) !! 0%nat).
Definition final_inputs (t : Transaction) : Prop := Forall (λ i, sequence i = U64_MAX) (inputs t).

Record tx_context_rules (h : Hash) (daa : Z) (t : Transaction) : Prop := {
  tc_lock :
    match get_lock_time_type t with
    | LT_Finalized => True
    | LT_DaaScore => lock_time t < daa ∨ final_inputs t
    | LT_Time => ∃ p, past_median_time h = Ok p ∧ (lock_time t < p ∨ final_inputs t)
    end;
  tc_version : version t = 0 ∨ version t = 2 ∨ (toccata_activation (transaction_validator c) ≤ daa ∧ version t = 1);
  tc_scripts : Forall (λ i, zlen (signature_script i) ≤ forked_get (max_signature_script_len (transaction_validator c)) daa) (inputs t);
}.

Definition coinbase_rules (b : Block) : Prop :=
  ∃ first rest data, block_transactions b = first :: rest ∧
    deserialize_coinbase_payload (coinbase_manager c) (payload first) = Ok data ∧ cb_blue_score data = blue_score (block_header b) ∧
    calc_block_subsidy (E := RuleError) (coinbase_manager c) (daa_score (block_header b)) = Ok (cb_subsidy data) ∧
    (shielded_coinbase c = true → block_hash b ≠ genesis_hash c →
     let script := spk_script (miner_script_public_key (miner_data data)) in length script = 43%nat ∧ orchard_address script = true).

Definition bodied (statuses : gmap Hash BlockStatus) (h : Hash) : Prop := ∃ s, statuses !! h = Some s ∧ has_block_body s = true.

Record context_rules (statuses : gmap Hash BlockStatus) (b : Block) : Prop := {
  cr_parents : Forall (bodied statuses) (parents_of (block_header b));
  cr_coinbase : coinbase_rules b;
  cr_transactions : Forall (tx_context_rules (block_hash b) (daa_score (block_header b))) (block_transactions b);
}.

Lemma finalized_spec t arg :
  check_tx_is_finalized t arg ≠ Panic ∧
  (check_tx_is_finalized t arg = Ok tt ↔
   match arg with LTA_Finalized => True | LTA_DaaScore x | LTA_MedianTime x => lock_time t < x ∨ final_inputs t end).
Proof.
  assert (match position (λ i, negb (sequence i =? U64_MAX)) (inputs t) with Some i => Err (NotFinalized i) | None => Ok tt end = Ok tt ↔ final_inputs t) as Hf.
  { rewrite position_check. apply Forall_iff. intros i. rewrite negb_false_iff. apply Z.eqb_eq. }
  unfold check_tx_is_finalized. destruct arg as [|x|x]; [done|..]; (destruct (Z.ltb_spec (lock_time t) x); [split; [done|]; split; [by left|done]|]);
    (split; [by case_match|]); rewrite Hf; (split; [by right|]); intros [?|?]; [lia|done|lia|done].
Qed.

Lemma header_version_spec t daa :
  in_u 16 (version t) →
  check_transaction_version_in_header (transaction_validator c) t daa ≠ Panic ∧
  (check_transaction_version_in_header (transaction_validator c) t daa = Ok tt ↔
   version t = 0 ∨ version t = 2 ∨ (toccata_activation (transaction_validator c) ≤ daa ∧ version t = 1)).
Proof.
  intros [? _]. unfold check_transaction_version_in_header, is_active.
  repeat match goal with |- context [if ?x then _ else _] => destruct x eqn:? end; (split; [done|]); (split; [|try done]); try done; lia.
Qed.

Lemma signature_scripts_spec t daa :
  check_signature_scripts_in_header_context (transaction_validator c) t daa ≠ Panic ∧
  (check_signature_scripts_in_header_context (transaction_validator c) t daa = Ok tt ↔
   Forall (λ i, zlen (signature_script i) ≤ forked_get (max_signature_script_len (transaction_validator c)) daa) (inputs t)).
Proof.
  unfold check_signature_scripts_in_header_context. split; [by case_match|]. rewrite position_check. apply Forall_ltb.
Qed.

Lemma header_context_spec t arg daa :
  in_u 16 (version t) →
  validate_tx_in_header_context (transaction_validator c) t arg daa ≠ Panic ∧
  (validate_tx_in_header_context (transaction_validator c) t arg daa = Ok tt ↔
   match arg with LTA_Finalized => True | LTA_DaaScore x | LTA_MedianTime x => lock_time t < x ∨ final_inputs t end ∧
   (version t = 0 ∨ version t = 2 ∨ (toccata_activation (transaction_validator c) ≤ daa ∧ version t = 1)) ∧
   Forall (λ i, zlen (signature_script i) ≤ forked_get (max_signature_script_len (transaction_validator c)) daa) (inputs t)).
Proof.
  intros Hv. unfold validate_tx_in_header_context.
  destruct (finalized_spec t arg) as [Hp1 <-]. destruct (header_version_spec t daa Hv) as [Hp2 <-]. destruct (signature_scripts_spec t daa) as [Hp3 <-].
  rewrite !bind_unit_Ok. split; [|done]. apply bind_no_panic; [done|]. intros _ _. by apply bind_no_panic.
Qed.

Context (Hpmt : ∀ h, past_median_time h ≠ Panic).

Lemma transactions_in_context_spec h daa txs :
  Forall hashable txs →
  transactions_in_context c past_median_time h daa txs ≠ Panic ∧
  (transactions_in_context c past_median_time h daa txs = Ok tt ↔ Forall (tx_context_rules h daa) txs).
Proof.
  induction 1 as [|t txs [(Hv & _) _] Hf [IHp IHi]]; [done|]. cbn [transactions_in_context]. rewrite Forall_cons.
  set (arg := match get_lock_time_type t with LT_Finalized => _ | _ => _ end).
  assert (arg ≠ Panic ∧ (tx_context_rules h daa t ↔ ∃ a, arg = Ok a ∧ validate_tx_in_header_context (transaction_validator c) t a daa = Ok tt)) as [Hp Hi].
  { subst arg. pose proof (Hpmt h). destruct (past_median_time h) as [p|e|] eqn:Hm; [| |done].
    all: destruct (get_lock_time_type t) eqn:Hl; cbn [mbind res_mbind]; (split; [done|]).
    6:{ split; [intros [Hlock _ _]; rewrite Hl, Hm in Hlock; naive_solver|naive_solver]. }
    all: (split; [intros [Hlock ? ?]; rewrite Hl in Hlock; eexists; split; [done|]; apply header_context_spec; [done|]; split; [|done];
                  first [done|rewrite Hm in Hlock; naive_solver]
                 |intros (a & [= <-] & (Ha & ? & ?)%header_context_spec); [|done]; constructor; [rewrite Hl|done..]; first [done|by rewrite Hm; eauto]]). }
  clearbody arg. destruct arg as [a|e|]; cbn [mbind res_mbind]; [|split; [done|]; split; [done|]; intros [(a & ? & _)%Hi _]; done|done].
  destruct (header_context_spec t a daa Hv) as [Hpv _].
  destruct (validate_tx_in_header_context _ t a daa) as [[]|e|] eqn:Hvd; [|split; [done|]; split; [done|]; intros [(a' & [= <-] & ?)%Hi _]; congruence|done].
  split; [done|]. rewrite IHi, Hi. naive_solver.
Qed.

Lemma parent_bodies_spec statuses b :
  parents_valid (parents_by_level (block_header b)) →
  check_parent_bodies_exist statuses b ≠ Panic ∧
  (check_parent_bodies_exist statuses b = Ok tt ↔ Forall (bodied statuses) (parents_of (block_header b))).
Proof.
  intros Hv. unfold check_parent_bodies_exist, direct_parents. rewrite parents_get_spec by done. cbn [mbind res_mbind Z.to_nat]. fold (parents_of (block_header b)).
  assert (∀ p, bodied statuses p ↔ from_option has_block_body false (statuses !! p) = true) as Hb.
  { intros p. unfold bodied. destruct (statuses !! p); naive_solver. }
  rewrite (Forall_iff _ _ _ Hb). destruct (filter _ _) as [|m ms] eqn:Hf; (split; [done|]); split; try done; intros Hall.
  - apply Forall_forall. intros p Hp. apply not_false_iff_true. intros Hn. assert (p ∈ @nil Hash) as Hin; [|by apply not_elem_of_nil in Hin].
    rewrite <- Hf. by apply list_elem_of_filter.
  - exfalso. assert (m ∈ m :: ms) as Hin by left. rewrite <- Hf in Hin. apply list_elem_of_filter in Hin as [Hn Hin].
    rewrite Forall_forall in Hall. specialize (Hall _ Hin). congruence.
Qed.

Lemma subsidy_no_panic daa : in_u 64 daa → calc_block_subsidy (E := RuleError) (coinbase_manager c) daa ≠ Panic.
Proof.
  intros [? ?]. destruct (Z.ltb_spec daa (deflationary_phase_daa_score (coinbase_manager c))) as [Hl|Hl].
  - unfold calc_block_subsidy. by rewrite (proj2 (Z.ltb_lt _ _) Hl).
  - by rewrite (block_subsidy_Ok (coinbase_manager c) (bc_manager Hc)) by lia.
Qed.

Lemma deserialize_no_panic p : deserialize_coinbase_payload (coinbase_manager c) p ≠ Panic.
Proof.
  unfold deserialize_coinbase_payload. destruct (Z.ltb_spec (Z.of_nat (length p)) (Z.of_nat MIN_PAYLOAD_LENGTH)); [done|].
  destruct (_ <? _); [done|]. apply bind_no_panic; [apply parse_no_panic; lia|]. by intros [].
Qed.

Lemma coinbase_spec b :
  block_transactions b ≠ [] → in_u 64 (daa_score (block_header b)) →
  check_coinbase_blue_score_and_subsidy c b ≠ Panic ∧ (check_coinbase_blue_score_and_subsidy c b = Ok tt ↔ coinbase_rules b).
Proof.
  intros Hne Hdaa. unfold check_coinbase_blue_score_and_subsidy, coinbase_rules. destruct (block_transactions b) as [|first rest]; [done|].
  cbn [idx lookup list_lookup unwrap mbind res_mbind]. pose proof (deserialize_no_panic (payload first)).
  destruct (deserialize_coinbase_payload _ (payload first)) as [data|e|] eqn:Hd; [|split; [done|]; split; [done|]; intros (? & ? & ? & [= <- <-] & ? & _); congruence|done].
  destruct (Z.eqb_spec (cb_blue_score data) (blue_score (block_header b))) as [Hbs|Hbs]; cbn [negb].
  2:{ split; [done|]. split; [done|]. intros (? & ? & ? & [= <- <-] & ? & ? & _). congruence. }
  pose proof (subsidy_no_panic _ Hdaa). destruct (calc_block_subsidy _ _) as [sub|e|] eqn:Hs; cbn [mbind res_mbind]; [|split; [done|]; split; [done|]; naive_solver|done].
  destruct (Z.eqb_spec (cb_subsidy data) sub) as [<-|Hne']; cbn [negb]; [|split; [done|]; split; [done|]; intros (? & ? & ? & [= <- <-] & ? & ? & ? & _); congruence].
  unfold is_canonical_orchard_payout.
  set (script := spk_script _). destruct (shielded_coinbase c && _ && _) eqn:Hb; (split; [done|]).
  - split; [done|]. intros (? & ? & d & [= <- <-] & ? & ? & _ & Hp). replace d with data in Hp by congruence. fold script in Hp.
    apply andb_true_iff in Hb as [[Hsh Hg%negb_true_iff%bool_decide_eq_false]%andb_true_iff Hcan%negb_true_iff].
    destruct (Hp Hsh Hg) as [Hlen Hor]. rewrite Hlen in Hcan. simpl in Hcan. congruence.
  - split; [|done]. intros _. exists first, rest, data. split_and!; [done..|]. intros Hsh Hg. cbn zeta. fold script.
    rewrite Hsh, bool_decide_eq_false_2 in Hb by done. cbn [andb negb] in Hb. apply negb_false_iff in Hb.
    destruct (Nat.eqb_spec (length script) 43); done.
Qed.

Lemma validate_body_spec statuses b is_trusted :
  parents_valid (parents_by_level (block_header b)) → in_u 64 (daa_score (block_header b)) → Forall hashable (block_transactions b) →
  validate_body c past_median_time statuses b is_trusted ≠ Panic ∧
  (is_ok (validate_body c past_median_time statuses b is_trusted) = true ↔
   body_rules b ∧ if is_trusted then coinbase_rules b else context_rules statuses b).
Proof.
  intros Hpar Hdaa Hh. unfold validate_body. destruct (body_isolation_spec b Hh) as [Hp Hi].
  destruct (validate_body_in_isolation c b) as [mass| |] eqn:Hiso; cbn [mbind res_mbind is_ok] in *; [|split; [done|]; split; [done|]; by intros [?%Hi _]|done].
  apply check_assoc; [by apply Hi|].
  assert (block_transactions b ≠ []) as Hne by (destruct (br_coinbase _ (proj1 Hi eq_refl)) as (? & ? & -> & _); done).
  destruct (coinbase_spec b Hne Hdaa) as [Hpc Hcc]. destruct is_trusted; [unfold validate_trusted_body_in_context; rewrite <- Hcc|].
  { by destruct (check_coinbase_blue_score_and_subsidy c b) as [[]| |]. }
  assert (validate_body_in_context c past_median_time statuses b ≠ Panic ∧ (validate_body_in_context c past_median_time statuses b = Ok tt ↔ context_rules statuses b)) as [Hv <-].
  { destruct (parent_bodies_spec statuses b Hpar) as [Hpp Hcp].
    destruct (transactions_in_context_spec (block_hash b) (daa_score (block_header b)) _ Hh) as [Hpt Hct]. unfold validate_body_in_context. split.
    - apply bind_no_panic; [done|]. intros _ _. by apply bind_no_panic.
    - rewrite !bind_unit_Ok, Hcp, Hcc. unfold check_block_transactions_in_context. rewrite Hct. split; [by intros (? & ? & ?)|by intros []]. }
  by destruct (validate_body_in_context c past_median_time statuses b) as [[]| |].
Qed.
End rules.

(** C2. Validation of a block body never panics, and accepts exactly the bodies that keep the
    rules: one coinbase, in front; the body that the header's root commits to; transactions
    valid by themselves, with distinct identifiers, that spend no outpoint twice and none
    created in the block; masses, lanes and gas within the limits of the block; and, in
    context, parents with bodies, a coinbase that states the blue score and the subsidy of
    the block and, on a shielded network, pays a canonical Orchard address, and locks that
    have expired.  For a trusted body the parents and the locks are not asked for. *)
Theorem body_validation_exact `{KaspaHashes} `{OrchardAddresses} c past_median_time statuses b :
  body_config_ok c → (∀ h, past_median_time h ≠ Panic) → header_wf (block_header b) → Forall hashable (block_transactions b) →
  validate_body c past_median_time statuses b false ≠ Panic ∧ validate_body c past_median_time statuses b true ≠ Panic ∧
  (is_ok (validate_body c past_median_time statuses b false) = true ↔ body_rules c b ∧ context_rules c past_median_time statuses b) ∧
  (is_ok (validate_body c past_median_time statuses b true) = true ↔ body_rules c b ∧ coinbase_rules c b).
Proof.
  intros Hc Hp Hw Hh. assert (in_u 64 (daa_score (block_header b))) as Hd by apply Hw. pose proof (hw_parents _ Hw) as Hpar.
  destruct (validate_body_spec c Hc past_median_time Hp statuses b false Hpar Hd Hh) as [? ?].
  by destruct (validate_body_spec c Hc past_median_time Hp statuses b true Hpar Hd Hh) as [? ?].
Qed.

(** ** A block, for the witnesses *)
Module SampleBody.
#[export] Existing Instances SampleHashes.hashes SampleHashes.hashes_laws.
#[export] Instance addresses : OrchardAddresses := λ a, bool_decide (head a = Some 1).
Definition limits : BlockMassLimits := mkMassLimits 500000 500000 500000.
Definition config : BodyConfig :=
  mkBodyConfig limits 1000000 100 (mkLaneLimits 4 1000) (replicate 32 9) true SampleCoinbase.manager
    (mass_calculator SampleValidator.validator) SampleValidator.validator.
Lemma config_ok : body_config_ok config.
Proof.
  constructor; [repeat constructor; done|done|done|by constructor; vm_compute|apply SampleCoinbase.manager_made].
Qed.

(** A coinbase that pays an address, and a transfer. *)
Definition coinbase_payload : bytes :=
  match serialize_coinbase_payload SampleCoinbase.manager (mkCoinbase 7 6000000000 (replicate 32 3) (mkMiner (mkSpk 0 (replicate 43 1)) [])) with
  | Ok p => p
  | _ => []
  end.
Definition coinbase : Transaction := mkTx 0 [] [mkOutput 5 (mkSpk 0 [81]) None] 0 SUBNETWORK_ID_COINBASE 0 coinbase_payload 0.
Definition txs : list Transaction := [coinbase; SampleTx.tx].
Definition root_of (txs : list Transaction) : Hash := match calc_hash_merkle_root (E := unit) txs with Ok r => r | _ => [] end.
Definition header : Header :=
  mkHeader (replicate 32 8) 1 [(1, [replicate 32 9])] (root_of txs) (replicate 32 4) (replicate 32 5) 1000 545259519 0 7 [9; 0; 0] 7 (replicate 32 6) None.
Definition block : Block := mkBlock header txs.
Definition statuses : gmap Hash BlockStatus := <[replicate 32 8 := StatusHeaderOnly]> {[replicate 32 9 := StatusUTXOValid]}.
Definition pmt : Hash → bres Z := λ _, Ok 900.

Lemma body_header_ok : header_wf header.
Proof.
  assert (∀ k, in_u 8 k → is_array 32 (replicate 32 k)) as Hr.
  { intros k Hk. split; [done|]. by apply Forall_replicate. }
  constructor; try done; try (by apply Hr).
  - apply Forall_cons. split; [|apply Forall_nil_2]. split; [done|]. apply Forall_cons. split; [by apply Hr|apply Forall_nil_2].
  - split; [|by split; apply Hr]. split; [by vm_compute|]. vm_compute. repeat constructor; done.
  - split; [done|]. by repeat constructor.
Qed.
Lemma txs_ok : Forall hashable txs.
Proof. repeat constructor; first [apply SampleTx.populated_ok|done|by vm_compute]. Qed.
End SampleBody.
Import (hints) SampleBody.

Lemma body_validation_exact_witness :
  body_rules SampleBody.config SampleBody.block ∧ context_rules SampleBody.config SampleBody.pmt SampleBody.statuses SampleBody.block.
Proof.
  apply (body_validation_exact SampleBody.config SampleBody.pmt SampleBody.statuses SampleBody.block).
  - apply SampleBody.config_ok.
  - done.
  - apply SampleBody.body_header_ok.
  - apply SampleBody.txs_ok.
  - vm_compute. reflexivity.
Defined.
