(* ===== verification/BodyPipeline.v ===== *)
(** * The body processor (consensus/src/pipeline/body_processor/processor.rs,
    consensus/src/model/stores/{statuses,tips,block_transactions}.rs)

    [process_body] with the stores it reads and writes: the statuses of the
    blocks, their transactions, the tips of the body DAG, the counters and the
    notifications.  The statuses are written by the header processor (before
    a body comes) and by the virtual processor (after it) as well; the step
    relation has a rule for each.  A body comes as ordinary or, during the
    initial download of blocks, as trusted.  Left out are the pruning of blocks
    and the moves of the pruning point, which delete bodies and reset the tips.
    The theorems are the invariant of the stores and what the status
    [StatusInvalid] can be relied on to mean. *)

From S2P Require Import Prelude Bytes Transaction Sighash Mass ScriptNum TxIsolation Merkle TxHash Coinbase Header BlockBody.

(** ** Stores *)

Record BodyCounters := mkCounters {
  body_counts : Z; txs_counts : Z; storage_mass_counts : Z; compute_mass_counts : Z; transient_mass_counts : Z;
}.

Record BodyStores := mkStores {
  statuses : gmap Hash BlockStatus;
  bodies : gmap Hash (list Transaction);
  body_tips : gset Hash;
  counters : BodyCounters;
  added : list Block;
}.

Definition set_status (h : Hash) (st : BlockStatus) (s : BodyStores) : BodyStores :=
  mkStores (<[h := st]> (statuses s)) (bodies s) (body_tips s) (counters s) (added s).

(** [AtomicU64::fetch_add] wraps. *)
Definition fetch_add (a b : Z) : Z := (a + b) mod 2 ^ 64.

(** [BlockTransactionsStore::insert_batch] on a new hash. *)
Definition insert_body (h : Hash) (txs : list Transaction) (s : BodyStores) : option BodyStores :=
  if bool_decide (h ∈ dom (bodies s)) then None
  else Some (mkStores (statuses s) (<[h := txs]> (bodies s)) (body_tips s) (counters s) (added s)).

(** [TipsStore::add_tip_batch]: what is removed goes before what is added. *)
Definition add_tip (new_tip : Hash) (parents : list Hash) (tips : gset Hash) : gset Hash :=
  {[new_tip]} ∪ (tips ∖ list_to_set parents).

Definition commit_body {E} (h : Hash) (parents : list Hash) (txs : list Transaction) (s : BodyStores) : res E BodyStores :=
  s ← unwrap (insert_body h txs s);
  let s := mkStores (statuses s) (bodies s) (add_tip h parents (body_tips s)) (counters s) (added s) in
  Ok (set_status h StatusUTXOPendingVerification s).

Definition report (b : Block) (mass : NonContextualMasses * Z) (s : BodyStores) : BodyStores :=
  let k := counters s in
  mkStores (statuses s) (bodies s) (body_tips s)
    (mkCounters (fetch_add (body_counts k) 1) (fetch_add (txs_counts k) (zlen (block_transactions b)))
       (fetch_add (storage_mass_counts k) mass.2) (fetch_add (compute_mass_counts k) (compute_mass mass.1))
       (fetch_add (transient_mass_counts k) (transient_mass mass.1)))
    (added s ++ [b]).

(** The errors after which a block is not marked: another body may come, or its parents. *)
Definition recoverable (e : RuleError) : bool :=
  match e with BadMerkleRoot _ _ | MissingParents _ | PrunedBlock => true | _ => false end.

Section process.
Context `{KaspaHashes} `{OrchardAddresses} (c : BodyConfig) (past_median_time : Hash → bres Z).

(** The answer and the stores; the stores change also when the answer is an error. *)
Definition process_body {E} (b : Block) (is_trusted : bool) (s : BodyStores) : res E ((RuleError + BlockStatus) * BodyStores) :=
  status ← unwrap (statuses s !! block_hash b);
  match status with
  | StatusInvalid => Ok (inl KnownInvalid, s)
  | StatusHeaderOnly =>
      match validate_body c past_median_time (statuses s) b is_trusted with
      | Panic => Panic
      | Err e => Ok (inl e, if recoverable e then s else set_status (block_hash b) StatusInvalid s)
      | Ok mass =>
          parents ← direct_parents (block_header b);
          s ← commit_body (block_hash b) parents (block_transactions b) s;
          Ok (inr StatusUTXOPendingVerification, report b mass s)
      end
  | _ => if has_block_body status then Ok (inr status, s) else Panic
  end.

Definition process_genesis {E} (genesis_transactions : list Transaction) (s : BodyStores) : res E BodyStores :=
  commit_body (genesis_hash c) [] genesis_transactions (mkStores (statuses s) (bodies s) (body_tips s ∪ list_to_set []) (counters s) (added s)).

(** ** Steps of a node *)

(** The headers that the header processor has committed; and, for the statements
    only, the blocks whose stored body came as trusted. *)
Record Node := mkNode { headers : gmap Hash Header; stores : BodyStores; trusted : gset Hash }.

Definition note_trusted (is_trusted : bool) (h : Hash) (s s' : BodyStores) (t : gset Hash) : gset Hash :=
  if is_trusted && bool_decide (h ∉ dom (bodies s) ∧ h ∈ dom (bodies s')) then {[h]} ∪ t else t.

Inductive node_step : Node → Node → Prop :=
| step_header n h hd :
    (** a new header is committed *)
    hdr_hash hd = h → statuses (stores n) !! h = None → header_wf hd →
    node_step n (mkNode (<[h := hd]> (headers n)) (set_status h StatusHeaderOnly (stores n)) (trusted n))
| step_invalid_header n h :
    (** a new header is found invalid *)
    statuses (stores n) !! h = None →
    node_step n (mkNode (headers n) (set_status h StatusInvalid (stores n)) (trusted n))
| step_body n b is_trusted r s' :
    (** a body comes for a header, as trusted or not *)
    headers n !! block_hash b = Some (block_header b) → Forall hashable (block_transactions b) →
    process_body (E := Empty_set) b is_trusted (stores n) = Ok (r, s') →
    node_step n (mkNode (headers n) s' (note_trusted is_trusted (block_hash b) (stores n) s' (trusted n)))
| step_virtual n h st st' :
    (** the virtual processor decides on a block with a body *)
    statuses (stores n) !! h = Some st → has_block_body st = true → has_block_body st' = true →
    node_step n (mkNode (headers n) (set_status h st' (stores n)) (trusted n)).

(** A node with the genesis header, at the start of the body processor. *)
Definition initial (genesis_header : Header) : Node :=
  mkNode {[genesis_hash c := genesis_header]}
    (mkStores {[genesis_hash c := StatusHeaderOnly]} ∅ ∅ (mkCounters 0 0 0 0 0) []) ∅.

Inductive reachable (genesis_header : Header) (genesis_transactions : list Transaction) : Node → Prop :=
| reach_genesis s :
    process_genesis (E := Empty_set) genesis_transactions (stores (initial genesis_header)) = Ok s →
    reachable genesis_header genesis_transactions (mkNode (headers (initial genesis_header)) s ∅)
| reach_step n n' : reachable genesis_header genesis_transactions n → node_step n n' → reachable genesis_header genesis_transactions n'.

(** ** The invariant *)

(** A stored block and its parents. *)
Definition child_of (n : Node) (h p : Hash) : Prop :=
  h ∈ dom (bodies (stores n)) ∧ ∃ hd, headers n !! h = Some hd ∧ p ∈ parents_of hd.

Record node_ok (n : Node) : Prop := {
  no_headers : ∀ h hd, headers n !! h = Some hd → hdr_hash hd = h ∧ header_wf hd;
  no_known : ∀ h, is_Some (headers n !! h) → is_Some (statuses (stores n) !! h);
  no_status : ∀ h st, statuses (stores n) !! h = Some st → st ≠ StatusInvalid → is_Some (headers n !! h);
  no_bodies : ∀ h, h ∈ dom (bodies (stores n)) ↔ bodied (statuses (stores n)) h;
  no_valid : ∀ h hd txs, headers n !! h = Some hd → bodies (stores n) !! h = Some txs → h ≠ genesis_hash c →
    body_rules c (mkBlock hd txs) ∧ coinbase_rules c (mkBlock hd txs);
  no_trusted : trusted n ⊆ dom (bodies (stores n));
  no_closed : ∀ h p, child_of n h p → p ∈ dom (bodies (stores n)) ∨ h ∈ trusted n;
  no_tips : ∀ h, h ∈ body_tips (stores n) → h ∈ dom (bodies (stores n)) ∧ ∀ h', child_of n h' h → h' ∈ trusted n;
  no_childless : ∀ h, h ∈ dom (bodies (stores n)) → (¬ ∃ h', child_of n h' h) → h ∈ body_tips (stores n);
  no_genesis : genesis_hash c ∈ dom (bodies (stores n));
}.

(** The stores after an accepted body. *)
Definition committed (b : Block) (mass : NonContextualMasses * Z) (s : BodyStores) : BodyStores :=
  report b mass
    (mkStores (<[block_hash b := StatusUTXOPendingVerification]> (statuses s)) (<[block_hash b := block_transactions b]> (bodies s))
       (add_tip (block_hash b) (parents_of (block_header b)) (body_tips s)) (counters s) (added s)).

Lemma direct_parents_spec {E} hd : parents_valid (parents_by_level hd) → direct_parents (E := E) hd = Ok (parents_of hd).
Proof. intros Hv. unfold direct_parents. by rewrite parents_get_spec. Qed.

(** The three things that a body can do. *)
Inductive body_effect (b : Block) (is_trusted : bool) (s : BodyStores) : RuleError + BlockStatus → BodyStores → Prop :=
| effect_none r : (∀ e, r = inl e → e = KnownInvalid ∨ recoverable e = true) → body_effect b is_trusted s r s
| effect_invalid e :
    statuses s !! block_hash b = Some StatusHeaderOnly → validate_body c past_median_time (statuses s) b is_trusted = Err e →
    recoverable e = false → body_effect b is_trusted s (inl e) (set_status (block_hash b) StatusInvalid s)
| effect_committed mass :
    statuses s !! block_hash b = Some StatusHeaderOnly → validate_body c past_median_time (statuses s) b is_trusted = Ok mass →
    block_hash b ∉ dom (bodies s) → body_effect b is_trusted s (inr StatusUTXOPendingVerification) (committed b mass s).

Lemma process_body_effect {E} b is_trusted s r s' :
  parents_valid (parents_by_level (block_header b)) →
  process_body (E := E) b is_trusted s = Ok (r, s') → body_effect b is_trusted s r s'.
Proof.
  intros Hv. unfold process_body. destruct (statuses s !! block_hash b) as [st|] eqn:Hst; [|done]. cbn [unwrap mbind res_mbind].
  destruct st; cbn [has_block_body]; try (intros [= <- <-]; constructor; naive_solver).
  destruct (validate_body c past_median_time (statuses s) b is_trusted) as [mass|e|] eqn:Hval; [| |done].
  - rewrite direct_parents_spec by done. cbn [mbind res_mbind]. unfold commit_body, insert_body.
    case_bool_decide as Hin; [done|]. cbn [unwrap mbind res_mbind]. intros [= <- <-]. by apply effect_committed.
  - intros [= <- <-]. destruct (recoverable e) eqn:He; [constructor; naive_solver|by apply effect_invalid].
Qed.

(** Statuses that change and keep whether there is a body. *)
Lemma set_status_ok n h st :
  node_ok n → is_Some (headers n !! h) ∨ (st = StatusInvalid ∧ statuses (stores n) !! h = None) →
  (bodied (statuses (stores n)) h ↔ has_block_body st = true) →
  node_ok (mkNode (headers n) (set_status h st (stores n)) (trusted n)).
Proof.
  intros [Hh Hk Hs Hb Hv Htr Hcl Ht Hno Hg] Hhd Hst.
  assert (∀ h', bodied (<[h := st]> (statuses (stores n))) h' ↔ bodied (statuses (stores n)) h') as Hbod.
  { intros h'. destruct (decide (h' = h)) as [->|]; [|unfold bodied; by rewrite lookup_insert_ne]. rewrite Hst. unfold bodied. rewrite lookup_insert_eq. naive_solver. }
  constructor; cbn [stores headers trusted set_status statuses bodies body_tips]; try done.
  - intros h' Hh'. destruct (decide (h' = h)) as [->|]; [by rewrite lookup_insert_eq|]. rewrite lookup_insert_ne by done. by apply Hk.
  - intros h' st' Hl Hne. destruct (decide (h' = h)) as [->|].
    + rewrite lookup_insert_eq in Hl. destruct Hhd as [?|[-> _]]; [done|congruence].
    + rewrite lookup_insert_ne in Hl by done. by eapply Hs.
  - intros h'. by rewrite Hbod.
Qed.

Lemma header_step_ok n h hd :
  node_ok n → hdr_hash hd = h → statuses (stores n) !! h = None → header_wf hd →
  node_ok (mkNode (<[h := hd]> (headers n)) (set_status h StatusHeaderOnly (stores n)) (trusted n)).
Proof.
  intros Hn Hhash Hnone Hwf. pose proof Hn as [Hh Hk Hs Hb Hv Htr Hcl Ht Hno Hg].
  assert (headers n !! h = None) as Hnew.
  { destruct (headers n !! h) eqn:E; [|done]. destruct (Hk h) as [? ?]; [by rewrite E|congruence]. }
  assert (∀ h', h' ∈ dom (bodies (stores n)) → h' ≠ h) as Hne.
  { intros h' (st & Hst & _)%Hb ->. congruence. }
  assert (∀ h' p, child_of (mkNode (<[h := hd]> (headers n)) (set_status h StatusHeaderOnly (stores n)) (trusted n)) h' p ↔ child_of n h' p) as Hchild.
  { intros h' p. unfold child_of. cbn [stores headers set_status bodies]. split; intros [Hd Hp]; (split; [done|]);
      [rewrite lookup_insert_ne in Hp by (apply not_eq_sym; by apply Hne); done|rewrite lookup_insert_ne by (apply not_eq_sym; by apply Hne); done]. }
  constructor; cbn [stores headers trusted set_status statuses bodies body_tips]; try done.
  - intros h' hd'. destruct (decide (h' = h)) as [->|]; [rewrite lookup_insert_eq; by intros [= <-]|rewrite lookup_insert_ne by done; apply Hh].
  - intros h'. destruct (decide (h' = h)) as [->|]; [by rewrite !lookup_insert_eq|rewrite !lookup_insert_ne by done; apply Hk].
  - intros h' st'. destruct (decide (h' = h)) as [->|]; [by rewrite !lookup_insert_eq|rewrite !lookup_insert_ne by done; apply Hs].
  - intros h'. rewrite Hb. unfold bodied. destruct (decide (h' = h)) as [->|]; [rewrite lookup_insert_eq, Hnone; naive_solver|by rewrite lookup_insert_ne].
  - intros h' hd' txs Hhd' Hl. assert (h' ≠ h) by (apply Hne; by eapply elem_of_dom_2). rewrite lookup_insert_ne in Hhd' by done. by apply Hv.
  - intros h' p. rewrite Hchild. apply Hcl.
  - intros h'. setoid_rewrite Hchild. apply Ht.
  - intros h'. setoid_rewrite Hchild. apply Hno.
Qed.

Lemma child_insert n b mass t h p :
  headers n !! block_hash b = Some (block_header b) →
  child_of (mkNode (headers n) (committed b mass (stores n)) t) h p ↔
  child_of n h p ∨ (h = block_hash b ∧ p ∈ parents_of (block_header b)).
Proof.
  intros Hb. unfold child_of, committed. cbn [stores headers report bodies]. rewrite dom_insert, elem_of_union, elem_of_singleton. split.
  - intros [[->|Hd] (hd & Hhd & Hp)]; [right; split; [done|]; congruence|left; eauto].
  - intros [[Hd Hp]|[-> Hp]]; [eauto|split; [by left|eauto]].
Qed.

Lemma note_unchanged is_trusted h s s' t : bodies s' = bodies s → note_trusted is_trusted h s s' t = t.
Proof. intros Hb. unfold note_trusted. rewrite Hb, bool_decide_eq_false_2 by naive_solver. by rewrite andb_false_r. Qed.

Lemma note_committed is_trusted b mass s t :
  block_hash b ∉ dom (bodies s) →
  note_trusted is_trusted (block_hash b) s (committed b mass s) t = if is_trusted then {[block_hash b]} ∪ t else t.
Proof.
  intros Hnew. unfold note_trusted. rewrite bool_decide_eq_true_2; [by rewrite andb_true_r|].
  split; [done|]. unfold committed. cbn [report bodies]. set_solver.
Qed.

(** A trusted body may come before those of its parents. *)
Lemma committed_ok n b is_trusted mass :
  node_ok n → headers n !! block_hash b = Some (block_header b) → block_hash b ∉ dom (bodies (stores n)) →
  body_rules c b → coinbase_rules c b →
  (is_trusted = false → Forall (bodied (statuses (stores n))) (parents_of (block_header b))) →
  node_ok (mkNode (headers n) (committed b mass (stores n)) (if is_trusted then {[block_hash b]} ∪ trusted n else trusted n)).
Proof.
  intros Hn Hhd Hnew Hr Hcb Hpar. pose proof Hn as [Hh Hk Hs Hb Hv Htr Hcl Ht Hno Hg]. set (h := block_hash b) in *.
  set (t := if is_trusted then {[h]} ∪ trusted n else trusted n).
  pose proof (λ h p, child_insert n b mass t h p Hhd) as Hch. fold h in Hch.
  assert (trusted n ⊆ t) as Hsub by (unfold t; destruct is_trusted; set_solver).
  assert (∀ p, p ∈ parents_of (block_header b) → p ∈ dom (bodies (stores n)) ∨ h ∈ t) as Hparents.
  { intros p Hp. unfold t. destruct is_trusted; [right; set_solver|left]. apply Hb. by eapply Forall_forall in Hpar. }
  constructor; cbn [stores headers trusted committed report statuses bodies body_tips]; fold h.
  - done.
  - intros h' Hh'. destruct (decide (h' = h)) as [->|]; [by rewrite lookup_insert_eq|rewrite lookup_insert_ne by done; by apply Hk].
  - intros h' st'. destruct (decide (h' = h)) as [->|]; [by rewrite Hhd|rewrite lookup_insert_ne by done; apply Hs].
  - intros h'. rewrite dom_insert, elem_of_union, elem_of_singleton, Hb. unfold bodied.
    destruct (decide (h' = h)) as [->|]; [rewrite lookup_insert_eq; naive_solver|rewrite lookup_insert_ne by done; naive_solver].
  - intros h' hd txs Hhd'. destruct (decide (h' = h)) as [->|]; [|rewrite lookup_insert_ne by done; by apply Hv].
    rewrite lookup_insert_eq. intros [= <-] _. rewrite Hhd in Hhd'. injection Hhd' as <-. by destruct b.
  - unfold t. rewrite dom_insert. destruct is_trusted; set_solver.
  - intros h' p Hc'%Hch. rewrite dom_insert, elem_of_union.
    destruct Hc' as [[?|?]%Hcl|[-> [?|?]%Hparents]]; [by left; right|right; set_solver|by left; right|by right].
  - intros h'. unfold add_tip. rewrite elem_of_union, elem_of_singleton, elem_of_difference, elem_of_list_to_set, dom_insert, elem_of_union, elem_of_singleton.
    intros [->|[[Hd Hall]%Ht Hp]]; (split; [by auto|]); intros h'' [Hc'|[-> Hc']]%Hch; [|by destruct (Hparents _ Hc')|by apply Hsub, Hall|done].
    apply Hcl in Hc' as [?|?]; [done|by apply Hsub].
  - intros h'. unfold add_tip. rewrite elem_of_union, elem_of_singleton, elem_of_difference, elem_of_list_to_set, dom_insert, elem_of_union, elem_of_singleton.
    setoid_rewrite Hch. intros [->|Hd] Hnone; [by left|right]. split; [apply Hno; [done|naive_solver]|]. intros Hp. apply Hnone. exists h. by right.
  - rewrite dom_insert, elem_of_union. by right.
Qed.

Lemma genesis_ok genesis_header genesis_transactions s :
  hdr_hash genesis_header = genesis_hash c → header_wf genesis_header → parents_of genesis_header = [] →
  process_genesis (E := Empty_set) genesis_transactions (stores (initial genesis_header)) = Ok s →
  node_ok (mkNode (headers (initial genesis_header)) s ∅).
Proof.
  intros Hhash Hwf Hpar Hs. unfold process_genesis, commit_body, insert_body in Hs. rewrite bool_decide_eq_false_2 in Hs by (cbn; set_solver).
  cbn [unwrap mbind res_mbind] in Hs. apply (inj Ok) in Hs as <-. unfold initial. cbn [stores headers set_status statuses bodies body_tips].
  assert (∀ s h p, ¬ child_of (mkNode {[genesis_hash c := genesis_header]} s ∅) h p) as Hno.
  { intros s h p (_ & hd & Hl & Hp). cbn [headers] in Hl. apply lookup_singleton_Some in Hl as [<- <-]. rewrite Hpar in Hp. by apply not_elem_of_nil in Hp. }
  unfold set_status. cbn [initial stores set_status statuses bodies body_tips counters added]. rewrite (insert_singleton_eq (M := gmap Hash) (genesis_hash c) StatusUTXOPendingVerification StatusHeaderOnly).
  constructor; cbn [stores headers trusted statuses bodies body_tips].
  - by intros h hd [<- <-]%lookup_singleton_Some.
  - intros h [hd [<- _]%lookup_singleton_Some]. by rewrite lookup_singleton_eq.
  - intros h st [<- <-]%lookup_singleton_Some _. by rewrite lookup_singleton_eq.
  - intros h. unfold bodied. rewrite dom_insert_L, dom_empty_L, elem_of_union, elem_of_singleton. setoid_rewrite lookup_singleton_Some. set_solver.
  - by intros h hd txs [<- <-]%lookup_singleton_Some.
  - set_solver.
  - intros h p []%Hno.
  - intros h. unfold add_tip. rewrite dom_insert_L, dom_empty_L. intros Hh. split; [set_solver|]. intros h' []%Hno.
  - intros h. unfold add_tip. rewrite dom_insert_L, dom_empty_L. set_solver.
  - rewrite dom_insert_L. set_solver.
Qed.

Context (Hc : body_config_ok c) (Hpmt : ∀ h, past_median_time h ≠ Panic).

Lemma header_wf_daa hd : header_wf hd → in_u 64 (daa_score hd).
Proof. intros Hw. apply Hw. Qed.

Lemma step_ok n n' : node_ok n → node_step n n' → node_ok n'.
Proof.
  intros Hn Hstep. destruct Hstep as [n h hd Hhash Hnone Hwf|n h Hnone|n b is_trusted r s' Hhd Hh Hproc|n h st st' Hst Hb Hb'].
  - by apply header_step_ok.
  - apply set_status_ok; [done|by right|]. unfold bodied. rewrite Hnone. naive_solver.
  - destruct (no_headers _ Hn _ _ Hhd) as [_ Hwf].
    destruct (process_body_effect b is_trusted (stores n) r s' (hw_parents _ Hwf) Hproc) as [r Hr|e Hst Hval He|mass Hst Hval Hnew].
    + rewrite note_unchanged by done. by destruct n.
    + rewrite note_unchanged by done. apply set_status_ok; [done|by left; rewrite Hhd|]. unfold bodied. rewrite Hst. naive_solver.
    + rewrite note_committed by done.
      destruct (validate_body_spec c Hc past_median_time Hpmt (statuses (stores n)) b is_trusted (hw_parents _ Hwf) (header_wf_daa _ Hwf) Hh) as [_ Hiff].
      rewrite Hval in Hiff. destruct (proj1 Hiff eq_refl) as [Hr Hctx]. apply committed_ok; [done..| |]; destruct is_trusted; by (done || destruct Hctx).
  - apply set_status_ok; [done|left; eapply (no_status _ Hn); [done|by destruct st]|]. split; [done|]. intros _. by exists st.
Qed.

Lemma reachable_ok genesis_header genesis_transactions n :
  hdr_hash genesis_header = genesis_hash c → header_wf genesis_header → parents_of genesis_header = [] →
  reachable genesis_header genesis_transactions n → node_ok n.
Proof. intros Hh Hw Hp. induction 1 as [s Hs|n n' _ IH Hs]; [by eapply genesis_ok|by eapply step_ok]. Qed.

Lemma process_body_total {E} n b is_trusted :
  node_ok n → headers n !! block_hash b = Some (block_header b) → Forall hashable (block_transactions b) →
  ∃ r s', process_body (E := E) b is_trusted (stores n) = Ok (r, s').
Proof.
  intros Hn Hhd Hh. destruct (no_headers _ Hn _ _ Hhd) as [_ Hwf]. destruct (no_known _ Hn (block_hash b)) as [st Hst]; [by rewrite Hhd|].
  unfold process_body. rewrite Hst. cbn [unwrap mbind res_mbind]. destruct st; cbn [has_block_body]; eauto.
  destruct (validate_body_spec c Hc past_median_time Hpmt (statuses (stores n)) b is_trusted (hw_parents _ Hwf) (header_wf_daa _ Hwf) Hh) as [Hp _].
  destruct (validate_body _ _ _ b is_trusted) as [mass|e|]; [|eauto|done]. rewrite direct_parents_spec by apply Hwf. cbn [mbind res_mbind].
  unfold commit_body, insert_body. rewrite bool_decide_eq_false_2; [cbn [unwrap mbind res_mbind]; eauto|].
  intros (st & Hst' & Hb)%(no_bodies _ Hn). rewrite Hst in Hst'. by injection Hst' as <-.
Qed.

Lemma invalid_stays n n' h :
  node_ok n → node_step n n' → statuses (stores n) !! h = Some StatusInvalid → statuses (stores n') !! h = Some StatusInvalid.
Proof.
  intros Hn Hstep Hinv. destruct Hstep as [n h' hd _ Hnone _|n h' Hnone|n b is_trusted r s' Hhd _ Hproc|n h' st st' Hst Hb _]; cbn [stores set_status statuses].
  - rewrite lookup_insert_ne; [done|congruence].
  - rewrite lookup_insert_ne; [done|congruence].
  - destruct (process_body_effect b is_trusted (stores n) r s' (hw_parents _ (proj2 (no_headers _ Hn _ _ Hhd))) Hproc) as [| |mass Hst]; [done|..];
      cbn [set_status committed report statuses].
    + destruct (decide (h = block_hash b)) as [->|]; [by rewrite lookup_insert_eq|by rewrite lookup_insert_ne].
    + rewrite lookup_insert_ne; [done|congruence].
  - rewrite lookup_insert_ne; [done|]. intros ->. rewrite Hinv in Hst. by injection Hst as <-.
Qed.
End process.

(** C3. In every state that a node can reach from its genesis by headers, bodies, ordinary
    and trusted, and decisions on the virtual chain, in any order, before anything is pruned:
    a block has a stored body exactly when its status says so; every stored body but the
    genesis' keeps the rules of its header; the parents of a stored block have bodies, unless
    its own body came as trusted; a block with a body and without a child with one is a tip,
    and a tip has a body and no child but trusted ones, so that without trusted bodies the
    tips are exact; a body for a known header, trusted or not, is processed without a panic;
    and a block once invalid stays so. *)
Theorem body_store_invariant `{KaspaHashes} `{OrchardAddresses} c past_median_time genesis_header genesis_transactions n :
  body_config_ok c → (∀ h, past_median_time h ≠ Panic) →
  hdr_hash genesis_header = genesis_hash c → header_wf genesis_header → parents_of genesis_header = [] →
  reachable c past_median_time genesis_header genesis_transactions n →
  let s := stores n in
  (∀ h, h ∈ dom (bodies s) ↔ bodied (statuses s) h) ∧
  (∀ h hd txs, headers n !! h = Some hd → bodies s !! h = Some txs → h ≠ genesis_hash c →
     body_rules c (mkBlock hd txs) ∧ coinbase_rules c (mkBlock hd txs)) ∧
  (∀ h p, child_of n h p → p ∈ dom (bodies s) ∨ h ∈ trusted n) ∧
  (∀ h, h ∈ dom (bodies s) → (¬ ∃ h', child_of n h' h) → h ∈ body_tips s) ∧
  (∀ h, h ∈ body_tips s → h ∈ dom (bodies s) ∧ ∀ h', child_of n h' h → h' ∈ trusted n) ∧
  (∀ b is_trusted, headers n !! block_hash b = Some (block_header b) → Forall hashable (block_transactions b) →
     ∃ r s', process_body (E := Empty_set) c past_median_time b is_trusted s = Ok (r, s')) ∧
  (∀ n' h, node_step c past_median_time n n' → statuses s !! h = Some StatusInvalid → statuses (stores n') !! h = Some StatusInvalid).
Proof.
  intros Hc Hp Hh Hw Hpar Hr. assert (node_ok c n) as Hn by (by eapply reachable_ok). cbn zeta.
  split_and!; [apply Hn|apply Hn|apply Hn|apply Hn|apply Hn| |].
  - intros b is_trusted. by apply process_body_total.
  - intros n' h. by apply invalid_stays.
Qed.

(** ** What an invalid body says about its block *)

(** The fields that the version of a transaction has, and no others. *)
Definition version_fields (t : Transaction) : Prop :=
  if 0 <? version t then Forall (λ i, is_Some (compute_budget (compute_commit i))) (inputs t)
  else Forall (λ i, is_Some (sig_op_count (compute_commit i))) (inputs t) ∧ Forall (λ o, out_covenant o = None) (outputs t).

Lemma fmap_inj_Forall {A B} (f : A → B) (P : A → Prop) l l' :
  (∀ x y, P x → P y → f x = f y → x = y) → Forall P l → Forall P l' → f <$> l = f <$> l' → l = l'.
Proof.
  intros Hf Hl. revert l'. induction Hl as [|x l Hx Hl IH]; intros [|y l'] Hl' Heq; [done|done|done|].
  apply Forall_cons in Hl' as [Hy Hl']. csimpl in *. injection Heq as Heq Hs. f_equal; [by apply Hf|by apply IH].
Qed.

Definition input_fields (v : Z) (i : TransactionInput) : Prop :=
  is_Some (if 0 <? v then compute_budget (compute_commit i) else sig_op_count (compute_commit i)).
Definition output_fields (v : Z) (o : TransactionOutput) : Prop := v ≤ 0 → out_covenant o = None.

Lemma version_fields_iff_each t :
  version_fields t ↔ Forall (input_fields (version t)) (inputs t) ∧ Forall (output_fields (version t)) (outputs t).
Proof.
  unfold version_fields, input_fields, output_fields. destruct (Z.ltb_spec 0 (version t)).
  - split; [intros ?; split; [done|]; apply Forall_true; lia|by intros []].
  - split; intros [Hi Ho]; (split; [done|]); (eapply Forall_impl; [exact Ho|]); cbn; [done|auto].
Qed.

Lemma input_key_inj v i i' : 0 ≤ v → input_fields v i → input_fields v i' → input_key v FULL i = input_key v FULL i' → i = i'.
Proof.
  intros Hv. destruct i as [po ss sq [n|n]], i' as [po' ss' sq' [n'|n']]; unfold input_fields, input_key; cbn [FULL EXCLUDE_SIGNATURE_SCRIPT EXCLUDE_MASS_COMMIT
    compute_commit compute_budget sig_op_count previous_outpoint signature_script sequence default from_option];
    (destruct (Z.ltb_spec 0 v); [rewrite (proj2 (Z.leb_le 1 v)) by lia|rewrite (proj2 (Z.leb_gt 1 v)) by lia]); intros [? ?] [? ?] [=]; by subst.
Qed.

Lemma output_key_inj v o o' : 0 ≤ v → output_fields v o → output_fields v o' → output_key v o = output_key v o' → o = o'.
Proof.
  intros Hv Ho Ho'. destruct o as [va sp co], o' as [va' sp' co']; unfold output_fields, output_key in *; cbn [out_value out_spk out_covenant] in *.
  destruct (Z.leb_spec 1 v); intros [= -> ->]; [by subst|]. by rewrite Ho, Ho' by lia.
Qed.

Lemma encoded_view_inj t t' :
  in_u 16 (version t) → version_fields t → version_fields t' → encoded_view FULL t = encoded_view FULL t' → t = t'.
Proof.
  intros [Hv _] [Hi Ho]%version_fields_iff_each [Hi' Ho']%version_fields_iff_each Heq. unfold encoded_view in Heq. cbn [FULL EXCLUDE_PAYLOAD EXCLUDE_MASS_COMMIT] in Heq.
  destruct t as [v ins outs lt sub g pl m], t' as [v' ins' outs' lt' sub' g' pl' m']; cbn [version inputs outputs lock_time subnetwork_id gas payload storage_mass] in *.
  apply pair_equal_spec in Heq as [Heq [= ->]]. apply pair_equal_spec in Heq as [Heq ->]. do 3 apply pair_equal_spec in Heq as [Heq ->].
  apply pair_equal_spec in Heq as [Heq Hout]. apply pair_equal_spec in Heq as [-> Hin].
  f_equal.
  - eapply fmap_inj_Forall; [intros x y; by apply (input_key_inj v')|exact Hi|exact Hi'|exact Hin].
  - eapply fmap_inj_Forall; [intros x y; by apply (output_key_inj v')|exact Ho|exact Ho'|exact Hout].
Qed.

Section rejection.
Context `{KaspaHashesLaws} `{OrchardAddresses} (c : BodyConfig) (past_median_time : Hash → bres Z).

(** Two bodies of one header with the fields of their versions are the same. *)
Lemma bodies_equal txs txs' r :
  Forall hashable txs → Forall hashable txs' → Forall version_fields txs → Forall version_fields txs' →
  calc_hash_merkle_root (E := RuleError) txs = Ok r → calc_hash_merkle_root (E := RuleError) txs' = Ok r →
  kaspa_collision (body_messages txs ++ body_messages txs') ∨ txs = txs'.
Proof.
  intros Hh Hh' Hf Hf' Hr Hr'. destruct (hash_merkle_root_inj txs txs' r Hh Hh' Hr Hr') as [?|Hv]; [by left|right].
  eapply (fmap_inj_Forall _ (λ t, hashable t ∧ version_fields t)); [|by apply Forall_and..|exact Hv].
  intros x y [[(Hx & _) _] Hxf] [_ Hyf]. by apply encoded_view_inj.
Qed.

Lemma isolated_fields v t : isolated v t → version_fields t.
Proof. intros Hi. apply (iso_commitments _ _ Hi). Qed.

Lemma rejected_root statuses b e :
  block_transactions b ≠ [] → validate_body c past_median_time statuses b false = Err e → recoverable e = false →
  calc_hash_merkle_root (E := RuleError) (block_transactions b) = Ok (hash_merkle_root (block_header b)).
Proof.
  intros Hne Hval Hrec. apply merkle_root_spec. destruct (merkle_root_spec b) as [Hp _]. revert Hval. unfold validate_body, validate_body_in_isolation.
  rewrite (proj2 (proj2 (has_transactions_spec b)) Hne). cbn [mbind res_mbind]. destruct (check_hash_merkle_root b) as [[]|e'|] eqn:Hm; [done| |done].
  intros [= ->]. unfold check_hash_merkle_root in Hm. revert Hm. unfold calc_hash_merkle_root. rewrite calc_merkle_root_spec. cbn [mbind res_mbind].
  case_bool_decide; [done|]. intros [= <-]. done.
Qed.

(** The statuses matter to the parents only. *)
Lemma rejected_anyway statuses statuses' b e mass :
  validate_body c past_median_time statuses b false = Err e → recoverable e = false →
  validate_body c past_median_time statuses' b false = Ok mass → False.
Proof.
  unfold validate_body, validate_body_in_context, check_parent_bodies_exist.
  destruct (validate_body_in_isolation c b) as [mass'| |]; cbn [mbind res_mbind]; [|done..].
  destruct (direct_parents (E := RuleError) (block_header b)) as [ps| |]; cbn [mbind res_mbind]; [|done..].
  destruct (filter _ ps) as [|m ms]; cbn [mbind res_mbind]; [|by intros [= <-]].
  destruct (check_coinbase_blue_score_and_subsidy c b); cbn [mbind res_mbind]; intros He _; [|by case_match..].
  case_match; cbn [mbind res_mbind]; [|done]. by destruct (check_block_transactions_in_context c past_median_time b).
Qed.

Context (Hc : body_config_ok c) (Hpmt : ∀ h, past_median_time h ≠ Panic).

Lemma rejected_final statuses statuses' b b' e :
  header_wf (block_header b) → block_header b' = block_header b → block_transactions b ≠ [] →
  Forall hashable (block_transactions b) → Forall hashable (block_transactions b') → Forall version_fields (block_transactions b) →
  validate_body c past_median_time statuses b false = Err e → recoverable e = false →
  is_ok (validate_body c past_median_time statuses' b' false) = true →
  kaspa_collision (body_messages (block_transactions b) ++ body_messages (block_transactions b')).
Proof.
  intros Hw Hhd Hne Hh Hh' Hf Hval Hrec [mass Hok]%is_ok_true.
  assert (body_rules c b') as Hr.
  { apply (proj1 (proj2 (validate_body_spec c Hc past_median_time Hpmt statuses' b' false ltac:(rewrite Hhd; apply Hw) ltac:(rewrite Hhd; by apply header_wf_daa) Hh'))).
    by rewrite Hok. }
  assert (Forall version_fields (block_transactions b')) as Hf' by (eapply Forall_impl; [apply (br_isolated _ _ Hr)|apply isolated_fields]).
  pose proof (br_root _ _ Hr) as Hroot. rewrite Hhd in Hroot.
  destruct (bodies_equal _ _ _ Hh Hh' Hf Hf' (rejected_root _ _ _ Hne Hval Hrec) Hroot) as [?|Heq]; [done|exfalso].
  assert (b' = b) as -> by (destruct b, b'; cbn in *; congruence). by eapply rejected_anyway.
Qed.
End rejection.

(** C4. A block is marked invalid only for good.  If the processor marks a block because of a
    body, and the transactions of that body have the fields of their versions and no others,
    then no body for the same header is accepted in any state of the stores, unless, among
    the messages that are hashed for the Merkle roots of the two bodies, two have one digest
    or one has the zero digest: the mark does not turn away a valid block. *)
Theorem rejected_body_final `{KaspaHashesLaws} `{OrchardAddresses} {E} c past_median_time b e s s' :
  body_config_ok c → (∀ h, past_median_time h ≠ Panic) → header_wf (block_header b) → block_transactions b ≠ [] →
  Forall hashable (block_transactions b) → Forall version_fields (block_transactions b) →
  process_body (E := E) c past_median_time b false s = Ok (inl e, s') →
  statuses s !! block_hash b ≠ Some StatusInvalid → statuses s' !! block_hash b = Some StatusInvalid →
  ∀ b' statuses', block_header b' = block_header b → Forall hashable (block_transactions b') →
    is_ok (validate_body c past_median_time statuses' b' false) = true →
    kaspa_collision (body_messages (block_transactions b) ++ body_messages (block_transactions b')).
Proof.
  intros Hc Hp Hw Hne Hh Hf Hproc Hs Hs' b' statuses' Hhd Hh'.
  remember (inl e : RuleError + BlockStatus) as r eqn:Hr.
  destruct (process_body_effect c past_median_time b false s r s' (hw_parents _ Hw) Hproc) as [r _|e' Hst Hval Hrec|]; [done| |done].
  by apply (rejected_final c past_median_time Hc Hp (statuses s) statuses' b b' e').
Qed.

(** ** A node, for the witnesses *)
Module SampleNode.
Import (hints) SampleBody.
Definition genesis_header : Header :=
  mkHeader (replicate 32 9) 1 [] (replicate 32 1) (replicate 32 4) (replicate 32 5) 1 545259519 0 0 [0; 0; 0] 0 (replicate 32 6) None.
Lemma array_replicate k : in_u 8 k → is_array 32 (replicate 32 k).
Proof. intros Hk. split; [done|]. by apply Forall_replicate. Qed.
Lemma genesis_header_ok : header_wf genesis_header.
Proof.
  constructor; try done; try (by apply array_replicate).
  - by split_and!; apply array_replicate.
  - split; [done|]. repeat (apply Forall_cons; split; [done|]). apply Forall_nil_2.
Qed.
Definition genesis_txs : list Transaction := [SampleBody.coinbase].
Definition run {A} (d : A) (m : res Empty_set A) : A := match m with Ok x => x | _ => d end.
Definition start : Node := initial SampleBody.config genesis_header.
Definition node0 : Node := mkNode (headers start) (run (stores start) (process_genesis SampleBody.config genesis_txs (stores start))) ∅.
Definition node1 : Node :=
  mkNode (<[replicate 32 8 := SampleBody.header]> (headers node0)) (set_status (replicate 32 8) StatusHeaderOnly (stores node0)) ∅.
Definition accepted (b : Block) (is_trusted : bool) (s : BodyStores) : (RuleError + BlockStatus) * BodyStores :=
  run (inl KnownInvalid, s) (process_body SampleBody.config SampleBody.pmt b is_trusted s).
Definition node2 : Node := mkNode (headers node1) (accepted SampleBody.block false (stores node1)).2 ∅.

(** A block whose parent is not known, and its body, as trusted. *)
Definition orphan_header : Header :=
  mkHeader (replicate 32 7) 1 [(1, [replicate 32 5])] (SampleBody.root_of SampleBody.txs) (replicate 32 4) (replicate 32 5) 1000 545259519 0 7
    [9; 0; 0] 7 (replicate 32 6) None.
Definition orphan : Block := mkBlock orphan_header SampleBody.txs.
Lemma orphan_header_ok : header_wf orphan_header.
Proof.
  constructor; try done; try (by apply array_replicate).
  - apply Forall_cons. split; [|apply Forall_nil_2]. split; [done|]. apply Forall_cons. split; [by apply array_replicate|apply Forall_nil_2].
  - split; [|by split; apply array_replicate]. split; [by vm_compute|]. vm_compute. repeat constructor; done.
  - split; [done|]. by repeat constructor.
Qed.
Definition node3 : Node :=
  mkNode (<[replicate 32 7 := orphan_header]> (headers node2)) (set_status (replicate 32 7) StatusHeaderOnly (stores node2)) ∅.
Definition node4 : Node :=
  let s := (accepted orphan true (stores node3)).2 in
  mkNode (headers node3) s (note_trusted true (block_hash orphan) (stores node3) s (trusted node3)).

Lemma node2_reachable : reachable SampleBody.config SampleBody.pmt genesis_header genesis_txs node2.
Proof.
  eapply reach_step; [eapply reach_step; [eapply (reach_genesis _ _ _ _ (stores node0))|]|].
  - vm_compute. reflexivity.
  - apply (step_header _ _ node0 (replicate 32 8) SampleBody.header); [done|by vm_compute|apply SampleBody.body_header_ok].
  - apply (step_body _ _ node1 SampleBody.block false (accepted SampleBody.block false (stores node1)).1); [by vm_compute|apply SampleBody.txs_ok|].
    vm_compute. reflexivity.
Qed.
Lemma node4_reachable : reachable SampleBody.config SampleBody.pmt genesis_header genesis_txs node4.
Proof.
  eapply reach_step; [eapply reach_step; [apply node2_reachable|]|].
  - apply (step_header _ _ node2 (replicate 32 7) orphan_header); [done|by vm_compute|apply orphan_header_ok].
  - apply (step_body _ _ node3 orphan true (accepted orphan true (stores node3)).1); [by vm_compute|apply SampleBody.txs_ok|].
    vm_compute. reflexivity.
Qed.

(** A body whose coinbase claims another subsidy. *)
Definition bad_coinbase : Transaction :=
  mkTx 0 [] [] 0 SUBNETWORK_ID_COINBASE 0
    (match serialize_coinbase_payload SampleCoinbase.manager (mkCoinbase 7 1 (replicate 32 3) (mkMiner (mkSpk 0 (replicate 43 1)) [])) with
     | Ok p => p | _ => [] end) 0.
Definition bad_header : Header :=
  mkHeader (replicate 32 8) 1 [(1, [replicate 32 9])] (SampleBody.root_of [bad_coinbase]) (replicate 32 4) (replicate 32 5) 1000 545259519 0 7
    [9; 0; 0] 7 (replicate 32 6) None.
Definition bad_block : Block := mkBlock bad_header [bad_coinbase].
Lemma bad_header_ok : header_wf bad_header.
Proof.
  constructor; try done; try (by apply array_replicate).
  - apply Forall_cons. split; [|apply Forall_nil_2]. split; [done|]. apply Forall_cons. split; [by apply array_replicate|apply Forall_nil_2].
  - split; [|by split; apply array_replicate]. split; [by vm_compute|]. vm_compute. repeat constructor; done.
  - split; [done|]. by repeat constructor.
Qed.
Lemma bad_txs_ok : Forall hashable [bad_coinbase].
Proof. repeat constructor; first [done|by vm_compute]. Qed.
End SampleNode.
Import (hints) SampleBody.

Lemma body_store_invariant_witness :
  bodied (statuses (stores SampleNode.node4)) (replicate 32 8) ∧ replicate 32 7 ∈ body_tips (stores SampleNode.node4) ∧
  child_of SampleNode.node4 (replicate 32 7) (replicate 32 5) ∧ replicate 32 5 ∉ dom (bodies (stores SampleNode.node4)) ∧
  replicate 32 7 ∈ trusted SampleNode.node4.
Proof.
  destruct (body_store_invariant SampleBody.config SampleBody.pmt SampleNode.genesis_header SampleNode.genesis_txs SampleNode.node4)
    as (Hb & _ & Hcl & _ & Ht & _).
  - apply SampleBody.config_ok.
  - done.
  - done.
  - apply SampleNode.genesis_header_ok.
  - done.
  - apply SampleNode.node4_reachable.
  - assert (replicate 32 8 ∈ body_tips (stores SampleNode.node4)) as Hin by (by apply (bool_decide_unpack _); vm_compute).
    assert (replicate 32 7 ∈ body_tips (stores SampleNode.node4)) as Hin7 by (by apply (bool_decide_unpack _); vm_compute).
    assert (replicate 32 5 ∉ dom (bodies (stores SampleNode.node4))) as Hout by (by apply (bool_decide_unpack _); vm_compute).
    assert (child_of SampleNode.node4 (replicate 32 7) (replicate 32 5)) as Hchild.
    { split; [by apply Ht|]. exists SampleNode.orphan_header. split; [by vm_compute|]. by apply (bool_decide_unpack _); vm_compute. }
    split_and!; [by apply Hb, Ht|done|done|done|]. by destruct (Hcl _ _ Hchild).
Defined.

Lemma rejected_body_final_witness :
  process_body (E := Empty_set) SampleBody.config SampleBody.pmt SampleNode.bad_block false (stores SampleNode.node1) =
    Ok (inl (WrongSubsidy 6000000000 1), set_status (replicate 32 8) StatusInvalid (stores SampleNode.node1)) ∧
  (∀ b' statuses', block_header b' = SampleNode.bad_header → Forall hashable (block_transactions b') →
    is_ok (validate_body SampleBody.config SampleBody.pmt statuses' b' false) = true →
    kaspa_collision (body_messages (block_transactions SampleNode.bad_block) ++ body_messages (block_transactions b'))).
Proof.
  assert (process_body (E := Empty_set) SampleBody.config SampleBody.pmt SampleNode.bad_block false (stores SampleNode.node1) =
    Ok (inl (WrongSubsidy 6000000000 1), set_status (replicate 32 8) StatusInvalid (stores SampleNode.node1))) as Hp by (vm_compute; reflexivity).
  split; [exact Hp|].
  apply (rejected_body_final (E := Empty_set) SampleBody.config SampleBody.pmt SampleNode.bad_block (WrongSubsidy 6000000000 1) (stores SampleNode.node1)
    (set_status (replicate 32 8) StatusInvalid (stores SampleNode.node1))).
  - apply SampleBody.config_ok.
  - done.
  - apply SampleNode.bad_header_ok.
  - done.
  - apply SampleNode.bad_txs_ok.
  - by repeat constructor.
  - exact Hp.
  - by vm_compute.
  - by vm_compute.
Defined.
