(* ===== verification/Wire.v ===== *)
(** * Blocks on the wire (protocol/p2p/src/convert/{tx,header,block,hash,
    subnets,option,error}.rs and the messages of protocol/p2p/proto/p2p.proto)

    The conversions between the peer-to-peer messages and the consensus types.
    A message is a record whose sub-messages are optional, as the generated
    code has it; a message of one [bytes] field is that field.  The borsh
    encoding of the merged-mining witness is a parameter.  The theorems are the
    round trip, what a peer can vary without changing the block's hash, and what
    follows for the body processor and the gate. *)

From S2P Require Import Prelude Bytes Limbs Uint Transaction Sighash Mass ScriptNum TxIsolation Merkle TxHash Coinbase Header Pow AuxPow BlockBody BodyPipeline.

(** ** Messages *)

Record PbOutpoint := mkPbOutpoint { pb_transaction_id : option bytes; pb_index : Z }.
Record PbInput := mkPbInput {
  pb_previous_outpoint : option PbOutpoint;
  pb_signature_script : bytes;
  pb_sequence : Z;
  pb_compute_commit : Z;
}.
Record PbSpk := mkPbSpk { pb_script : bytes; pb_spk_version : Z }.
Record PbCovenant := mkPbCovenant { pb_authorizing_input : Z; pb_covenant_id : option bytes }.
Record PbOutput := mkPbOutput { pb_value : Z; pb_script_public_key : option PbSpk; pb_covenant : option PbCovenant }.
Record PbTransaction := mkPbTransaction {
  pb_version : Z;
  pb_inputs : list PbInput;
  pb_outputs : list PbOutput;
  pb_lock_time : Z;
  pb_subnetwork_id : option bytes;
  pb_gas : Z;
  pb_payload : bytes;
  pb_storage_mass : Z;
}.
Record PbLevelParents := mkPbLevel { pb_parent_hashes : list bytes; pb_cumulative_level : Z }.
Record PbHeader := mkPbHeader {
  pbh_version : Z;
  pb_parents : list PbLevelParents;
  pb_hash_merkle_root : option bytes;
  pb_accepted_id_merkle_root : option bytes;
  pb_utxo_commitment : option bytes;
  pb_timestamp : Z;
  pb_bits : Z;
  pb_nonce : Z;
  pb_daa_score : Z;
  pb_blue_work : bytes;
  pb_blue_score : Z;
  pb_pruning_point : option bytes;
  pb_aux_pow : bytes;
}.
Record PbBlock := mkPbBlock { pb_header : option PbHeader; pb_transactions : list PbTransaction }.
Record PbUtxoEntry := mkPbUtxoEntry {
  pb_amount : Z;
  pb_entry_spk : option PbSpk;
  pb_block_daa_score : Z;
  pb_is_coinbase : bool;
  pb_entry_covenant_id : option bytes;
}.

(** The errors that these conversions raise. *)
Inductive ConversionError :=
| NoneValue
| ArrayBytesSizeError
| UintBytesSizeError
| IntCastingError
| SubnetParsingError
| ParentsError (e : CompressedParentsError)
| BorshDecodeError
| BranchTooLong (len : Z).

Abbreviation wres := (res ConversionError).

(** ** To the wire *)

Definition outpoint_to_pb (o : TransactionOutpoint) : PbOutpoint := mkPbOutpoint (Some (transaction_id o)) (outpoint_index o).
Definition spk_to_pb (s : ScriptPublicKey) : PbSpk := mkPbSpk (spk_script s) (spk_version s).
Definition input_to_pb (i : TransactionInput) : PbInput :=
  mkPbInput (Some (outpoint_to_pb (previous_outpoint i))) (signature_script i) (sequence i)
    match compute_commit i with SigopCount n => n | ComputeBudget n => n end.
Definition covenant_to_pb (b : CovenantBinding) : PbCovenant := mkPbCovenant (authorizing_input b) (Some (binding_covenant_id b)).
Definition output_to_pb (o : TransactionOutput) : PbOutput :=
  mkPbOutput (out_value o) (Some (spk_to_pb (out_spk o))) (covenant_to_pb <$> out_covenant o).
Definition tx_to_pb (t : Transaction) : PbTransaction :=
  mkPbTransaction (version t) (input_to_pb <$> inputs t) (output_to_pb <$> outputs t) (lock_time t) (Some (subnetwork_id t)) (gas t)
    (payload t) (storage_mass t).
Definition entry_to_pb (e : UtxoEntry) : PbUtxoEntry :=
  mkPbUtxoEntry (amount e) (Some (spk_to_pb (entry_spk e))) (block_daa_score e) (is_coinbase_entry e) (entry_covenant_id e).

Inductive HeaderFormat := Legacy | Compressed.
Definition header_format (version : Z) : HeaderFormat := if 9 <=? version then Compressed else Legacy.

(** [borsh::to_vec] and [borsh::from_slice] on witnesses. *)
Class AuxCodec := { aux_to_vec : AuxPow → bytes; aux_from_slice : bytes → option AuxPow }.

Definition parents_to_pb {E} (f : HeaderFormat) (c : CompressedParents) : res E (list PbLevelParents) :=
  match f with
  | Legacy => levels ← expanded_iter (E := E) c; Ok (map (λ l, mkPbLevel l 0) levels)
  | Compressed => Ok (map (λ r, mkPbLevel r.2 r.1) c)
  end.

(** The time must fit an [i64]. *)
Definition header_to_pb `{AuxCodec} {E} (f : HeaderFormat) (h : Header) : res E PbHeader :=
  parents ← parents_to_pb f (parents_by_level h);
  time ← (if timestamp h <? 2 ^ 63 then Ok (timestamp h) else Panic);
  Ok (mkPbHeader (hdr_version h) parents (Some (hash_merkle_root h)) (Some (accepted_id_merkle_root h)) (Some (utxo_commitment h)) time
        (bits h) (nonce h) (daa_score h) (uint_to_be_bytes_var (blue_work h)) (blue_score h) (Some (pruning_point h))
        match aux_pow h with Some a => aux_to_vec a | None => [] end).

Definition block_to_pb `{AuxCodec} {E} (f : HeaderFormat) (b : Block) : res E PbBlock :=
  h ← header_to_pb f (block_header b);
  Ok (mkPbBlock (Some h) (tx_to_pb <$> block_transactions b)).

(** ** From the wire *)

(** [TryFrom] between integers, and from slices to arrays. *)
Definition try_int (w x : Z) : wres Z := if in_ub w x then Ok x else Err IntCastingError.
Definition try_array (n : nat) (b : bytes) : wres bytes := if (length b =? n)%nat then Ok b else Err ArrayBytesSizeError.
Definition hash_of_pb (b : bytes) : wres Hash := try_array 32 b.
Definition subnetwork_of_pb (b : bytes) : wres bytes := if (length b =? 20)%nat then Ok b else Err SubnetParsingError.

(** [try_into_ex]: an absent sub-message is an error. *)
Definition try_ex {A B} (f : A → wres B) (o : option A) : wres B :=
  match o with Some x => f x | None => Err NoneValue end.

(** [Option::map(..).transpose()]. *)
Definition transpose {A B} (f : A → wres B) (o : option A) : wres (option B) :=
  match o with Some x => y ← f x; Ok (Some y) | None => Ok None end.

(** [map(..).collect::<Result<Vec<_>, _>>()]. *)
Fixpoint collect {A B} (f : A → wres B) (l : list A) : wres (list B) :=
  match l with
  | [] => Ok []
  | x :: l => y ← f x; ys ← collect f l; Ok (y :: ys)
  end.

Definition outpoint_of_pb (o : PbOutpoint) : wres TransactionOutpoint :=
  id ← try_ex hash_of_pb (pb_transaction_id o);
  Ok (mkOutpoint id (pb_index o)).
Definition spk_of_pb (s : PbSpk) : wres ScriptPublicKey :=
  v ← try_int 16 (pb_spk_version s);
  Ok (mkSpk v (pb_script s)).

(** The version of the transaction, cut to 16 bits, says what the commitment is. *)
Definition input_of_pb (version : Z) (i : PbInput) : wres TransactionInput :=
  o ← try_ex outpoint_of_pb (pb_previous_outpoint i);
  commit ←
    (if version_expects_compute_budget_field (version mod 2 ^ 16)
     then n ← try_int 16 (pb_compute_commit i); Ok (ComputeBudget n)
     else n ← try_int 8 (pb_compute_commit i); Ok (SigopCount n));
  Ok (mkInput o (pb_signature_script i) (pb_sequence i) commit).

Definition covenant_of_pb (b : PbCovenant) : wres CovenantBinding :=
  i ← try_int 16 (pb_authorizing_input b);
  id ← try_ex hash_of_pb (pb_covenant_id b);
  Ok (mkBinding i id).

Definition output_of_pb (o : PbOutput) : wres TransactionOutput :=
  spk ← try_ex spk_of_pb (pb_script_public_key o);
  cov ← transpose covenant_of_pb (pb_covenant o);
  Ok (mkOutput (pb_value o) spk cov).

(** [Transaction::new] computes the cached identifier, which is not carried. *)
Definition tx_of_pb (t : PbTransaction) : wres Transaction :=
  v ← try_int 16 (pb_version t);
  ins ← collect (input_of_pb (pb_version t)) (pb_inputs t);
  outs ← collect output_of_pb (pb_outputs t);
  sub ← try_ex subnetwork_of_pb (pb_subnetwork_id t);
  Ok (mkTx v ins outs (pb_lock_time t) sub (pb_gas t) (pb_payload t) (pb_storage_mass t)).

Definition entry_of_pb (e : PbUtxoEntry) : wres UtxoEntry :=
  spk ← try_ex spk_of_pb (pb_entry_spk e);
  cov ← transpose hash_of_pb (pb_entry_covenant_id e);
  Ok (mkEntry (pb_amount e) spk (pb_block_daa_score e) (pb_is_coinbase e) cov).

Definition parents_of_pb `{Dedup} (f : HeaderFormat) (l : list PbLevelParents) : wres CompressedParents :=
  match f with
  | Compressed =>
      runs ← collect (λ p, cum ← try_int 8 (pb_cumulative_level p); hs ← collect hash_of_pb (pb_parent_hashes p); Ok (cum, hs)) l;
      map_err ParentsError (parents_of_runs runs)
  | Legacy =>
      levels ← collect (λ p, collect hash_of_pb (pb_parent_hashes p)) l;
      map_err ParentsError (parents_of_levels levels)
  end.

(** The header is made, which computes its hash, before the witness is attached. *)
Definition header_of_pb `{KaspaHashes} `{Dedup} `{AuxCodec} (f : HeaderFormat) (h : PbHeader) : wres Header :=
  parents ← parents_of_pb f (pb_parents h);
  v ← try_int 16 (pbh_version h);
  merkle ← try_ex hash_of_pb (pb_hash_merkle_root h);
  accepted ← try_ex hash_of_pb (pb_accepted_id_merkle_root h);
  utxo ← try_ex hash_of_pb (pb_utxo_commitment h);
  time ← try_int 64 (pb_timestamp h);
  work ← map_err (λ _, UintBytesSizeError) (uint_from_be_bytes_var 3 (pb_blue_work h));
  pruning ← try_ex hash_of_pb (pb_pruning_point h);
  header ← new_finalized v parents merkle accepted utxo time (pb_bits h) (pb_nonce h) (pb_daa_score h) work (pb_blue_score h) pruning;
  match pb_aux_pow h with
  | [] => Ok header
  | _ =>
      match aux_from_slice (pb_aux_pow h) with
      | None => Err BorshDecodeError
      | Some aux =>
          if (MAX_COINBASE_MERKLE_BRANCH <? length (coinbase_merkle_branch aux))%nat
          then Err (BranchTooLong (zlen (coinbase_merkle_branch aux)))
          else Ok (with_aux_pow aux header)
      end
  end.

Definition block_of_pb `{KaspaHashes} `{Dedup} `{AuxCodec} (f : HeaderFormat) (b : PbBlock) : wres Block :=
  header ← ok_or NoneValue (pb_header b);
  h ← header_of_pb f header;
  txs ← collect tx_of_pb (pb_transactions b);
  Ok (mkBlock h txs).

Definition body_of_pb (l : list PbTransaction) : wres (list Transaction) := collect tx_of_pb l.

(** ** Lemmas *)

Lemma collect_map {A B} (f : A → wres B) (g : B → A) l : Forall (λ x, f (g x) = Ok x) l → collect f (g <$> l) = Ok l.
Proof. induction 1 as [|x l Hx Hl IH]; [done|]. rewrite fmap_cons. cbn [collect]. rewrite Hx. cbn [mbind res_mbind]. by rewrite IH. Qed.

Lemma collect_Ok {A B} (f : A → wres B) l k : collect f l = Ok k ↔ Forall2 (λ x y, f x = Ok y) l k.
Proof.
  revert k. induction l as [|x l IH]; intros k; cbn [collect]; [split; [intros [= <-]; constructor|by inversion_clear 1]|]. split.
  - intros (y & Hy & (ys & Hys & [= <-])%bind_Ok)%bind_Ok. constructor; [done|by apply IH].
  - inversion_clear 1 as [|? y ? ys Hy Hys]. rewrite Hy. cbn [mbind res_mbind]. by rewrite (proj2 (IH _) Hys).
Qed.

Lemma try_int_Ok w x y : try_int w x = Ok y ↔ x = y ∧ in_u w x.
Proof. unfold try_int. destruct (in_ub w x) eqn:H; [apply in_ub_spec in H|rewrite <- not_true_iff_false, in_ub_spec in H]; naive_solver. Qed.
Lemma try_array_Ok n b x : try_array n b = Ok x ↔ b = x ∧ length b = n.
Proof. unfold try_array. destruct (Nat.eqb_spec (length b) n); naive_solver. Qed.
Lemma subnetwork_Ok b x : subnetwork_of_pb b = Ok x ↔ b = x ∧ length b = 20%nat.
Proof. unfold subnetwork_of_pb. destruct (Nat.eqb_spec (length b) 20); naive_solver. Qed.
Lemma try_ex_Ok {A B} (f : A → wres B) o y : try_ex f o = Ok y ↔ ∃ x, o = Some x ∧ f x = Ok y.
Proof. destruct o; simpl; naive_solver. Qed.
Lemma transpose_Ok {A B} (f : A → wres B) o y :
  transpose f o = Ok y ↔ match o, y with Some x, Some z => f x = Ok z | None, None => True | _, _ => False end.
Proof. destruct o as [x|], y as [z|]; simpl; [|destruct (f x); naive_solver|naive_solver..]. destruct (f x); simpl; naive_solver. Qed.

Lemma hash_of_array h : is_array 32 h → hash_of_pb h = Ok h.
Proof. intros [Hl _]. by apply try_array_Ok. Qed.
Lemma spk_roundtrip s : spk_wf s → spk_of_pb (spk_to_pb s) = Ok s.
Proof. intros [Hv _]. unfold spk_of_pb, spk_to_pb. cbn [pb_spk_version]. rewrite (proj2 (try_int_Ok 16 _ _) (conj eq_refl Hv)). by destruct s. Qed.

(** *** Transactions *)

Lemma input_roundtrip v i : in_u 16 v → input_wf i → input_fields v i → input_of_pb v (input_to_pb i) = Ok i.
Proof.
  intros [Hv0 Hv] ((Hid & _) & _ & _ & _ & Hc) Hf. unfold input_of_pb, input_to_pb, outpoint_of_pb, outpoint_to_pb.
  cbn [pb_previous_outpoint pb_signature_script pb_sequence pb_compute_commit try_ex pb_transaction_id pb_index].
  rewrite (hash_of_array _ Hid). cbn [mbind res_mbind]. rewrite Z.mod_small by done. unfold input_fields, version_expects_compute_budget_field in *.
  destruct i as [[oid oi] ss sq [n|n]]; cbn in *; (destruct (Z.ltb_spec 0 v); [rewrite (proj2 (Z.leb_le 1 v)) by lia|rewrite (proj2 (Z.leb_gt 1 v)) by lia]);
    destruct Hf as [? [=]]; by rewrite (proj2 (try_int_Ok _ _ _) (conj eq_refl Hc)).
Qed.

Lemma output_roundtrip o : output_wf o → output_of_pb (output_to_pb o) = Ok o.
Proof.
  intros (_ & Hs & Hc). unfold output_of_pb, output_to_pb. cbn [pb_script_public_key try_ex pb_covenant pb_value]. rewrite (spk_roundtrip _ Hs). cbn [mbind res_mbind].
  destruct o as [v sp [[ai id]|]]; cbn [out_covenant out_value out_spk] in *; [|done]. destruct Hc as [Hi Hid]. cbn [authorizing_input binding_covenant_id] in *.
  change (covenant_to_pb <$> Some (mkBinding ai id)) with (Some (mkPbCovenant ai (Some id))). cbn [transpose]. unfold covenant_of_pb.
  cbn [pb_authorizing_input pb_covenant_id try_ex].
  rewrite (proj2 (try_int_Ok _ _ _) (conj eq_refl Hi)). cbn [mbind res_mbind]. by rewrite (hash_of_array _ Hid).
Qed.

Lemma tx_roundtrip t : hashable t → Forall (input_fields (version t)) (inputs t) → tx_of_pb (tx_to_pb t) = Ok t.
Proof.
  intros [(Hv & Hi & Ho & _ & [Hs _] & _) _] Hf. unfold tx_of_pb, tx_to_pb.
  cbn [pb_version pb_inputs pb_outputs pb_lock_time pb_subnetwork_id pb_gas pb_payload pb_storage_mass try_ex].
  rewrite (proj2 (try_int_Ok _ _ _) (conj eq_refl Hv)). cbn [mbind res_mbind].
  rewrite (collect_map _ input_to_pb); cbn [mbind res_mbind].
  2:{ rewrite Forall_forall in *. intros i Hin. by apply input_roundtrip; auto. }
  rewrite (collect_map _ output_to_pb); cbn [mbind res_mbind]; [|eapply Forall_impl; [exact Ho|apply output_roundtrip]].
  rewrite (proj2 (subnetwork_Ok _ _) (conj eq_refl Hs)). by destruct t.
Qed.

(** The widths of the fields of a message. *)
Definition pb_hash_wf (o : option bytes) : Prop := match o with Some b => is_bytes b | None => True end.
Definition pb_spk_wf (o : option PbSpk) : Prop :=
  match o with Some s => is_bytes (pb_script s) ∧ Z.of_nat (length (pb_script s)) < 2 ^ 32 | None => True end.
Definition pb_input_wf (i : PbInput) : Prop :=
  match pb_previous_outpoint i with Some o => pb_hash_wf (pb_transaction_id o) ∧ in_u 32 (pb_index o) | None => True end ∧
  is_bytes (pb_signature_script i) ∧ Z.of_nat (length (pb_signature_script i)) < 2 ^ 32 ∧ in_u 64 (pb_sequence i).
Definition pb_output_wf (o : PbOutput) : Prop :=
  in_u 64 (pb_value o) ∧ pb_spk_wf (pb_script_public_key o) ∧ match pb_covenant o with Some b => pb_hash_wf (pb_covenant_id b) | None => True end.
Record pb_tx_wf (t : PbTransaction) : Prop := {
  pt_inputs : Forall pb_input_wf (pb_inputs t) ∧ Z.of_nat (length (pb_inputs t)) < 2 ^ 31;
  pt_outputs : Forall pb_output_wf (pb_outputs t) ∧ Z.of_nat (length (pb_outputs t)) < 2 ^ 31;
  pt_ints : in_u 64 (pb_lock_time t) ∧ in_u 64 (pb_gas t) ∧ in_u 64 (pb_storage_mass t);
  pt_bytes : pb_hash_wf (pb_subnetwork_id t) ∧ is_bytes (pb_payload t) ∧ Z.of_nat (length (pb_payload t)) < 2 ^ 32;
}.

Lemma input_of_pb_inv v p i :
  in_u 16 v → pb_input_wf p → input_of_pb v p = Ok i → input_wf i ∧ input_fields v i ∧ input_to_pb i = p.
Proof.
  intros [Hv0 Hv] Hw. unfold input_of_pb. rewrite Z.mod_small by done. intros (o & (po & Hpo & Ho)%try_ex_Ok & (cm & Hcm & [= <-])%bind_Ok)%bind_Ok.
  unfold outpoint_of_pb in Ho. apply bind_Ok in Ho as (id & (b & Hb & [-> Hl]%try_array_Ok)%try_ex_Ok & [= <-]).
  destruct p as [ppo pss psq pcm]. cbn in *. subst ppo. destruct po as [pid pi]. cbn in *. subst pid. destruct Hw as ([Hid Hidx] & Hss & Hsl & Hsq).
  unfold version_expects_compute_budget_field, input_fields, input_wf in *. cbn [compute_commit]. destruct (Z.ltb_spec 0 v).
  - rewrite (proj2 (Z.leb_le 1 v)) in Hcm by lia. apply bind_Ok in Hcm as (n & [-> Hn]%try_int_Ok & [= <-]). done.
  - rewrite (proj2 (Z.leb_gt 1 v)) in Hcm by lia. apply bind_Ok in Hcm as (n & [-> Hn]%try_int_Ok & [= <-]). done.
Qed.

Lemma output_of_pb_inv p o : pb_output_wf p → output_of_pb p = Ok o → output_wf o ∧ output_to_pb o = p.
Proof.
  intros (Hv & Hs & Hc). unfold output_of_pb. intros (spk & (ps & Hps & (sv & [<- Hsv]%try_int_Ok & [= <-])%bind_Ok)%try_ex_Ok & (cov & Hcov & [= <-])%bind_Ok)%bind_Ok.
  destruct p as [pv pspk pcov]. cbn in *. subst pspk. destruct ps as [scr psv]. cbn in *. apply transpose_Ok in Hcov.
  destruct pcov as [[pai pid]|], cov as [cov|]; [|done|done|done].
  unfold covenant_of_pb in Hcov. apply bind_Ok in Hcov as (ai & [<- Hai]%try_int_Ok & (id & (b & Hb & [-> Hl]%try_array_Ok)%try_ex_Ok & [= <-])%bind_Ok).
  cbn in *. by subst pid.
Qed.

Lemma tx_of_pb_inv p t :
  pb_tx_wf p → tx_of_pb p = Ok t → hashable t ∧ Forall (input_fields (version t)) (inputs t) ∧ tx_to_pb t = p.
Proof.
  intros [[Hi Hil] [Ho Hol] (Hlt & Hg & Hm) (Hs & Hp & Hpl)]. unfold tx_of_pb.
  intros (v & [<- Hv]%try_int_Ok & (ins & Hins%collect_Ok & (outs & Houts%collect_Ok & (sub & (b & Hb & [-> Hsl]%subnetwork_Ok)%try_ex_Ok & [= <-])%bind_Ok)%bind_Ok)%bind_Ok)%bind_Ok.
  destruct p as [pv pins pouts plt psub pg pp pm]. cbn in *. subst psub.
  assert (Forall (λ i, input_wf i ∧ input_fields pv i) ins ∧ input_to_pb <$> ins = pins) as [Hin Hinp].
  { clear Hil. induction Hins as [|x y l k Hx Hl IH]; [done|]. apply Forall_cons in Hi as [Hxw Hi]. destruct (input_of_pb_inv _ _ _ Hv Hxw Hx) as (? & ? & <-).
    destruct (IH Hi) as [? <-]. by split; [constructor|]. }
  assert (Forall output_wf outs ∧ output_to_pb <$> outs = pouts) as [Hout Houtp].
  { clear Hol. induction Houts as [|x y l k Hx Hl IH]; [done|]. apply Forall_cons in Ho as [Hxw Ho]. destruct (output_of_pb_inv _ _ Hxw Hx) as (? & <-).
    destruct (IH Ho) as [? <-]. by split; [constructor|]. }
  apply Forall_and in Hin as [Hin Hf].
  split_and!; [|done|unfold tx_to_pb; cbn [version inputs outputs]; by rewrite <- Hinp, <- Houtp].
  split; [|done]. unfold tx_wf. cbn [version inputs outputs lock_time subnetwork_id gas payload].
  apply Forall2_length in Hins, Houts. split_and!; try done; lia.
Qed.

(** *** Headers *)

Lemma collect_id {A} (f : A → wres A) l : Forall (λ x, f x = Ok x) l → collect f l = Ok l.
Proof. intros Hl. rewrite <- (list_fmap_id l) at 1. by apply collect_map. Qed.

Lemma hashes_of_pb l : Forall (is_array 32) l → collect hash_of_pb l = Ok l.
Proof. intros Hl. apply collect_id. eapply Forall_impl; [exact Hl|apply hash_of_array]. Qed.

Section headers.
Context `{KaspaHashesLaws} `{DedupLaws} `{AuxCodec}.

Lemma parents_roundtrip {E} f c :
  parents_valid c → Forall (λ r, Z.of_nat (length r.2) < 2 ^ 64 ∧ Forall (is_array 32) r.2) c →
  ∃ l, parents_to_pb (E := E) f c = Ok l ∧ parents_of_pb f l = Ok c.
Proof.
  intros Hc Hl. destruct f; cbn [parents_to_pb parents_of_pb].
  - unfold expanded_iter. rewrite (expand_runs 0 None) by done. cbn [mbind res_mbind]. eexists. split; [done|].
    change (map ?g ?l) with (g <$> l). rewrite collect_map.
    + cbn [mbind res_mbind]. by rewrite parents_of_levels_back.
    + assert (Forall (λ l : list Hash, Z.of_nat (length l) < 2 ^ 64 ∧ Forall (is_array 32) l) (levels_after 0 c)) as Hf by (by apply levels_Forall).
      eapply Forall_impl; [exact Hf|]. intros l [_ Hl']. by apply hashes_of_pb.
  - eexists. split; [done|]. change (map ?g ?l) with (g <$> l). rewrite collect_map.
    + cbn [mbind res_mbind]. rewrite (proj2 (parents_of_runs_spec c (runs_u8 0 None c ltac:(lia) Hc)) Hc). done.
    + cbn [pb_parent_hashes pb_cumulative_level]. pose proof (runs_u8 0 None c ltac:(lia) Hc) as Hu.
      rewrite Forall_forall in *. intros r Hr. rewrite (proj2 (try_int_Ok 8 _ _) (conj eq_refl (Hu r Hr))). cbn [mbind res_mbind].
      rewrite (hashes_of_pb _ (proj2 (Hl r Hr))). by destruct r.
Qed.

(** A witness that travels. *)
Definition aux_travels (a : AuxPow) : Prop :=
  aux_from_slice (aux_to_vec a) = Some a ∧ aux_to_vec a ≠ [] ∧ (length (coinbase_merkle_branch a) ≤ MAX_COINBASE_MERKLE_BRANCH)%nat.

Lemma header_roundtrip {E} f h :
  header_wf h → timestamp h < 2 ^ 63 → header_hash (E := ConversionError) h = Ok (hdr_hash h) →
  (∀ a, aux_pow h = Some a → aux_travels a) →
  ∃ m, header_to_pb (E := E) f h = Ok m ∧ header_of_pb f m = Ok h.
Proof.
  intros Hw Ht Hh Ha. destruct (parents_roundtrip (E := E) f _ (hw_parents _ Hw) (hw_levels _ Hw)) as (l & Hl & Hlb).
  unfold header_to_pb. rewrite Hl. cbn [mbind res_mbind]. rewrite (proj2 (Z.ltb_lt _ _) Ht). cbn [mbind res_mbind]. eexists. split; [done|].
  unfold header_of_pb. cbn [pbh_version pb_parents pb_hash_merkle_root pb_accepted_id_merkle_root pb_utxo_commitment pb_timestamp pb_bits pb_nonce
    pb_daa_score pb_blue_work pb_blue_score pb_pruning_point pb_aux_pow try_ex]. rewrite Hlb. cbn [mbind res_mbind].
  destruct Hw as [Hv _ _ (Hm & Hacc & Hu) (Hti & _) Hwo Hpp].
  rewrite (proj2 (try_int_Ok _ _ _) (conj eq_refl Hv)). cbn [mbind res_mbind]. rewrite (hash_of_array _ Hm). cbn [mbind res_mbind].
  rewrite (hash_of_array _ Hacc). cbn [mbind res_mbind]. rewrite (hash_of_array _ Hu). cbn [mbind res_mbind].
  rewrite (proj2 (try_int_Ok _ _ _) (conj eq_refl Hti)). cbn [mbind res_mbind].
  rewrite (proj2 (proj2 (proj2 (proj2 (uint_bytes_roundtrip 3 _ Hwo))))). cbn [map_err mbind res_mbind]. rewrite (hash_of_array _ Hpp). cbn [mbind res_mbind].
  unfold new_finalized, finalize. replace (header_hash (E := ConversionError) _) with (header_hash (E := ConversionError) h) by (by destruct h).
  rewrite Hh. cbn [mbind res_mbind]. destruct (aux_pow h) as [a|] eqn:Hax.
  - destruct (Ha a eq_refl) as (Hd & Hne & Hb). destruct (aux_to_vec a) eqn:Hv'; [done|]. rewrite Hd, (proj2 (Nat.ltb_ge _ _) Hb). f_equal.
    destruct h. cbn in *. by subst.
  - f_equal. destruct h. cbn in *. by subst.
Qed.

Record pb_header_wf (m : PbHeader) : Prop := {
  ph_levels : Forall (λ p, Z.of_nat (length (pb_parent_hashes p)) < 2 ^ 64 ∧ Forall is_bytes (pb_parent_hashes p)) (pb_parents m);
  ph_hashes : pb_hash_wf (pb_hash_merkle_root m) ∧ pb_hash_wf (pb_accepted_id_merkle_root m) ∧ pb_hash_wf (pb_utxo_commitment m) ∧ pb_hash_wf (pb_pruning_point m);
  ph_ints : in_u 32 (pb_bits m) ∧ in_u 64 (pb_nonce m) ∧ in_u 64 (pb_daa_score m) ∧ in_u 64 (pb_blue_score m);
  ph_work : is_bytes (pb_blue_work m);
}.

Lemma hashes_of_pb_inv l hs : Forall is_bytes l → collect hash_of_pb l = Ok hs → Forall (is_array 32) hs ∧ length hs = length l.
Proof.
  intros Hl Hc%collect_Ok. split; [|by apply Forall2_length in Hc]. induction Hc as [|x y l k [-> Hx]%try_array_Ok Hc IH]; [constructor|].
  apply Forall_cons in Hl as [? ?]. constructor; [done|by apply IH].
Qed.

Lemma hash_field_inv o h : pb_hash_wf o → try_ex hash_of_pb o = Ok h → is_array 32 h.
Proof. intros Hw (b & -> & [-> Hl]%try_array_Ok)%try_ex_Ok. done. Qed.

Lemma parents_received f l c :
  Forall (λ p, Z.of_nat (length (pb_parent_hashes p)) < 2 ^ 64 ∧ Forall is_bytes (pb_parent_hashes p)) l →
  parents_of_pb f l = Ok c →
  parents_valid c ∧ Forall (λ r, Z.of_nat (length r.2) < 2 ^ 64 ∧ Forall (is_array 32) r.2) c.
Proof.
  intros Hl. destruct f; cbn [parents_of_pb].
  - intros (ls & Hls%collect_Ok & Hc%map_err_Ok)%bind_Ok.
    assert (Forall (λ l : list Hash, Z.of_nat (length l) < 2 ^ 64 ∧ Forall (is_array 32) l) ls) as Hf.
    { clear Hc. induction Hls as [|x y l k Hx Hk IH]; [constructor|]. apply Forall_cons in Hl as [[Hxl Hxb] Hl].
      destruct (hashes_of_pb_inv _ _ Hxb Hx) as [Ha Hlen]. constructor; [split; [lia|done]|by apply IH]. }
    assert (length ls ≤ 255)%nat as Hlen.
    { unfold parents_of_levels in Hc. destruct (Nat.ltb_spec 255 (length ls)); [done|lia]. }
    destruct (parents_of_levels_spec ls Hlen) as (c' & Hc' & Hv & Hlev). rewrite Hc in Hc'. apply (inj Ok) in Hc' as <-.
    split; [done|]. rewrite <- Hlev in Hf. clear -Hv Hf. unfold parents_valid in Hv. assert (∃ la : option (list Hash), runs_after 0 la c) as [la Hr] by (by exists None).
    clear Hv. revert la Hr Hf. generalize 0 as prev. induction c as [|[cum x] c IH]; intros prev la; [constructor|]. intros (Hp & _ & Hr) Hf.
    cbn [levels_after] in Hf. apply Forall_app in Hf as [Hx Hf]. constructor; [|by eapply IH].
    replace (Z.to_nat (cum - prev)) with (S (Z.to_nat (cum - prev - 1))) in Hx by lia. by apply Forall_cons in Hx as [? _].
  - intros (runs & Hruns%collect_Ok & Hc%map_err_Ok)%bind_Ok.
    assert (Forall (λ r, in_u 8 r.1) runs ∧ Forall (λ r, Z.of_nat (length r.2) < 2 ^ 64 ∧ Forall (is_array 32) r.2) runs) as [Hu Hf].
    { clear Hc. induction Hruns as [|x y l k Hx Hk IH]; [split; constructor|]. apply Forall_cons in Hl as [[Hxl Hxb] Hl]. destruct (IH Hl) as [? ?].
      apply bind_Ok in Hx as (cum & [<- Hcum]%try_int_Ok & (hs & Hhs & [= <-])%bind_Ok). destruct (hashes_of_pb_inv _ _ Hxb Hhs) as [Ha Hlen].
      split; constructor; [done|done| |done]. split; [simpl; lia|done]. }
    assert (runs = c) as <-.
    { destruct runs as [|[cum p] runs]; cbn [parents_of_runs] in Hc; [by apply (inj Ok) in Hc|]. destruct (cum =? 0); [done|].
      apply bind_Ok in Hc as (_ & _ & Hc). by apply (inj Ok) in Hc. }
    split; [by apply parents_of_runs_spec|done].
Qed.

Lemma header_received f m h :
  pb_header_wf m → header_of_pb f m = Ok h → header_wf h ∧ header_hash (E := ConversionError) h = Ok (hdr_hash h) ∧
    (∀ a, aux_pow h = Some a → (length (coinbase_merkle_branch a) ≤ MAX_COINBASE_MERKLE_BRANCH)%nat).
Proof.
  intros [Hl (Hm & Ha & Hu & Hp) (Hb & Hn & Hd & Hbs) Hw]. unfold header_of_pb.
  intros (par & Hpar & (v & [<- Hv]%try_int_Ok & (mr & Hmr & (ar & Har & (ur & Hur & (ti & [<- Hti]%try_int_Ok & (wo & Hwo & (pr & Hpr & (hd & Hhd & Hres)%bind_Ok)%bind_Ok)%bind_Ok)%bind_Ok)%bind_Ok)%bind_Ok)%bind_Ok)%bind_Ok)%bind_Ok.
  destruct (parents_received _ _ _ Hl Hpar) as [Hpv Hpl]. unfold new_finalized, finalize in Hhd. apply bind_Ok in Hhd as (x & Hx & Hhd). apply (inj Ok) in Hhd as <-.
  assert (is_limbs 3 wo) as Hwl.
  { apply map_err_Ok in Hwo. unfold uint_from_be_bytes_var in Hwo. destruct (Nat.ltb_spec (8 * 3) (length (pb_blue_work m))); [done|]. apply (inj Ok) in Hwo as <-.
    apply words_of_be_bytes. split; [rewrite length_app, length_replicate; lia|]. apply Forall_app. split; [by apply Forall_replicate|done]. }
  assert (∀ h', h' = set_hash x (mkHeader ZERO_HASH (pbh_version m) par mr ar ur (pb_timestamp m) (pb_bits m) (pb_nonce m) (pb_daa_score m) wo (pb_blue_score m) pr None) →
            header_wf h' ∧ header_hash (E := ConversionError) h' = Ok (hdr_hash h')) as Hok.
  { pose proof (hash_field_inv _ _ Hm Hmr). pose proof (hash_field_inv _ _ Ha Har). pose proof (hash_field_inv _ _ Hu Hur). pose proof (hash_field_inv _ _ Hp Hpr).
    intros h' ->. split; [|done]. by constructor. }
  destruct (pb_aux_pow m) as [|b0 bs].
  - apply (inj Ok) in Hres as <-. by destruct (Hok _ eq_refl).
  - destruct (aux_from_slice (b0 :: bs)) as [aux|]; [|done]. destruct (Nat.ltb_spec MAX_COINBASE_MERKLE_BRANCH (length (coinbase_merkle_branch aux))); [done|].
    apply (inj Ok) in Hres as <-. destruct (Hok _ eq_refl) as [[] Hh]. split_and!; [by constructor|exact Hh|]. by intros a [= <-].
Qed.
End headers.

(** C11. What a node sends it can read, and what it reads is well formed.  A transaction whose
    inputs have the commitments of its version, and a block of such transactions with a
    finalized header and a witness that the encoder can decode, are read back from their
    messages in either format of the header, without a panic.  Conversely a transaction
    that is read is within its widths, its inputs have the commitments of its version, and
    writing it gives the message again; a header that is read is well formed and carries its
    own hash, so that a peer cannot choose it. *)
Theorem wire_roundtrip `{KaspaHashesLaws} `{DedupLaws} `{AuxCodec} {E} f :
  (∀ b, header_wf (block_header b) → timestamp (block_header b) < 2 ^ 63 →
     header_hash (E := ConversionError) (block_header b) = Ok (block_hash b) →
     (∀ a, aux_pow (block_header b) = Some a → aux_travels a) →
     Forall (λ t, hashable t ∧ Forall (input_fields (version t)) (inputs t)) (block_transactions b) →
     ∃ m, block_to_pb (E := E) f b = Ok m ∧ block_of_pb f m = Ok b) ∧
  (∀ p t, pb_tx_wf p → tx_of_pb p = Ok t → hashable t ∧ Forall (input_fields (version t)) (inputs t) ∧ tx_to_pb t = p) ∧
  (∀ m h, pb_header_wf m → header_of_pb f m = Ok h → header_wf h ∧ header_hash (E := ConversionError) h = Ok (hdr_hash h)).
Proof.
  split_and!; [|apply tx_of_pb_inv|].
  - intros [h txs] Hw Ht Hh Ha Htx. cbn in *. destruct (header_roundtrip (E := E) f h Hw Ht Hh Ha) as (m & Hm & Hmb).
    unfold block_to_pb. cbn [block_header block_transactions]. rewrite Hm. cbn [mbind res_mbind]. eexists. split; [done|].
    unfold block_of_pb. cbn [pb_header pb_transactions ok_or mbind res_mbind]. rewrite Hmb. cbn [mbind res_mbind].
    rewrite (collect_map _ tx_to_pb); [done|]. eapply Forall_impl; [exact Htx|]. intros t [? ?]. by apply tx_roundtrip.
  - intros m h Hm Hh. by destruct (header_received f m h Hm Hh) as (? & ? & _).
Qed.

(** ** A body that a peer has changed *)

Definition with_covenant (j : nat) (cov : CovenantBinding) (t : Transaction) : Transaction :=
  mkTx (version t) (inputs t) (alter (λ o, mkOutput (out_value o) (out_spk o) (Some cov)) j (outputs t)) (lock_time t) (subnetwork_id t)
    (gas t) (payload t) (storage_mass t).

Lemma fmap_alter_same {A B} (g : A → B) (f : A → A) (j : nat) (l : list A) : (∀ x, g (f x) = g x) → g <$> alter f j l = g <$> l.
Proof.
  intros Hg. apply list_eq. intros k. rewrite !list_lookup_fmap. destruct (decide (j = k)) as [<-|Hne].
  - rewrite list_lookup_alter_eq. destruct (l !! j); simpl; [by rewrite Hg|done].
  - by rewrite list_lookup_alter_ne.
Qed.

(** The hash of version 0 does not see it. *)
Lemma covenant_same_hash `{KaspaHashes} j cov t : version t = 0 → tx_hash (with_covenant j cov t) = tx_hash t.
Proof.
  intros Hv. unfold tx_hash. f_equal. rewrite !write_transaction_enc. cbn [with_covenant version inputs outputs lock_time subnetwork_id gas payload storage_mass].
  by rewrite length_alter, fmap_alter_same by (intros o; unfold enc_output; by rewrite Hv).
Qed.

Lemma covenant_hashable j cov t : binding_wf cov → hashable t → hashable (with_covenant j cov t).
Proof.
  intros Hc [(Hv & Hi & Ho & Hl & Hs & Hg & Hp & Hpl & Hil & Hol) Hm]. split; [|done].
  unfold tx_wf, with_covenant. cbn [version inputs outputs lock_time subnetwork_id gas payload]. rewrite length_alter. split_and!; try done.
  apply Forall_alter; [done|]. intros o _ (? & ? & _). done.
Qed.

Lemma covenant_not_isolated v j cov t o : version t = 0 → outputs t !! j = Some o → ¬ isolated v (with_covenant j cov t).
Proof.
  intros Hv Ho Hi. pose proof (iso_commitments _ _ Hi) as Hc. unfold with_covenant in Hc. cbn [version outputs] in Hc. rewrite Hv in Hc. destruct Hc as [_ Hc].
  pose proof (Forall_lookup_1 _ _ j (mkOutput (out_value o) (out_spk o) (Some cov)) Hc) as Hn.
  rewrite list_lookup_alter_eq, Ho in Hn. discriminate (Hn eq_refl).
Qed.

Lemma isolation_error `{KaspaHashes} c txs e : transactions_in_isolation c txs = Err e → recoverable e = false.
Proof.
  induction txs as [|t txs IH]; cbn [transactions_in_isolation]; [done|].
  destruct (validate_tx_in_isolation _ t); [done|by intros [= <-]|done].
Qed.

Section malleation.
Context `{KaspaHashesLaws} `{OrchardAddresses} (c : BodyConfig) (past_median_time : Hash → bres Z).
Context (b : Block) (i j : nat) (t : Transaction) (o : TransactionOutput) (cov : CovenantBinding).
Context (Hh : Forall hashable (block_transactions b)) (Hr : body_rules c b) (Hcov : binding_wf cov).
Context (Ht : block_transactions b !! i = Some t) (Hv : version t = 0) (Ho : outputs t !! j = Some o).

Definition malleated : Block := mkBlock (block_header b) (<[i := with_covenant j cov t]> (block_transactions b)).

Lemma malleated_hashable : Forall hashable (block_transactions malleated).
Proof. apply Forall_insert; [done|]. apply covenant_hashable; [done|]. by eapply Forall_lookup_1. Qed.

Lemma malleated_rejected statuses : ∃ e, validate_body c past_median_time statuses malleated false = Err e ∧ recoverable e = false.
Proof.
  assert (check_has_transactions malleated = Ok tt) as Hk1.
  { apply has_transactions_spec. destruct (br_coinbase _ _ Hr) as (f & r & Hf & _). cbn. rewrite Hf in *. by destruct i. }
  assert (check_hash_merkle_root malleated = Ok tt) as Hk2.
  { apply merkle_root_spec. cbn [malleated block_header block_transactions]. rewrite <- (br_root _ _ Hr). unfold calc_hash_merkle_root. f_equal.
    rewrite list_fmap_insert, covenant_same_hash by done. apply list_insert_id. by rewrite list_lookup_fmap, Ht. }
  assert (check_only_one_coinbase malleated = Ok tt) as Hk3.
  { apply one_coinbase_spec; [done|]. destruct (br_coinbase _ _ Hr) as (f & r & Hf & Hcb & Hrest). cbn [malleated block_transactions]. rewrite Hf in *.
    destruct i as [|k]; cbn in *; [injection Ht as ->|]; eexists _, _; (split; [done|]); [done|]. split; [done|].
    apply Forall_insert; [done|]. exact (Forall_lookup_1 _ _ _ _ Hrest Ht). }
  destruct (transactions_in_isolation_spec c _ malleated_hashable) as [Hp Hi].
  unfold validate_body, validate_body_in_isolation, check_transactions_in_isolation. rewrite Hk1, Hk2, Hk3. cbn [mbind res_mbind].
  destruct (transactions_in_isolation c (block_transactions malleated)) as [[]|e|] eqn:Hiso; [|exists e; split; [done|by eapply isolation_error]|done].
  exfalso. apply (covenant_not_isolated (transaction_validator c) j cov t o Hv Ho). eapply (Forall_lookup_1 _ _ i); [by apply Hi|].
  cbn. apply list_lookup_insert_eq. by eapply lookup_lt_Some.
Qed.
End malleation.

(** C12. A peer can have a valid block rejected for good.  Let a block be accepted by the body
    processor, with a version 0 transaction that has an output.  Version 0 is hashed without
    covenants, and the conversion from the wire lets an output of any version carry one; so
    the block with a covenant added to that output has the same header and the same hash,
    travels in a message, fits the Merkle root, and fails the isolation rules, an error that
    marks the block: the genuine block, accepted before, is then [KnownInvalid]. *)
Theorem malleated_body_poisons `{KaspaHashesLaws} `{DedupLaws} `{AuxCodec} `{OrchardAddresses} {E} c past_median_time f b i j t o cov s mass :
  body_config_ok c → (∀ h, past_median_time h ≠ Panic) → header_wf (block_header b) → timestamp (block_header b) < 2 ^ 63 →
  header_hash (E := ConversionError) (block_header b) = Ok (block_hash b) → (∀ a, aux_pow (block_header b) = Some a → aux_travels a) →
  Forall hashable (block_transactions b) →
  statuses s !! block_hash b = Some StatusHeaderOnly → block_hash b ∉ dom (bodies s) →
  validate_body c past_median_time (statuses s) b false = Ok mass →
  block_transactions b !! i = Some t → version t = 0 → outputs t !! j = Some o → binding_wf cov →
  let b' := malleated b i j t cov in
  let s' := set_status (block_hash b) StatusInvalid s in
  block_hash b' = block_hash b ∧
  (∃ m, block_to_pb (E := E) f b' = Ok m ∧ block_of_pb f m = Ok b') ∧
  process_body (E := E) c past_median_time b false s = Ok (inr StatusUTXOPendingVerification, committed b mass s) ∧
  (∃ e, process_body (E := E) c past_median_time b' false s = Ok (inl e, s')) ∧
  process_body (E := E) c past_median_time b false s' = Ok (inl KnownInvalid, s').
Proof.
  intros Hc Hp Hw Htime Hhash Haux Hh Hst Hnew Hval Ht Hv Ho Hcov b' s'.
  assert (body_rules c b) as Hr.
  { apply (proj1 (proj2 (validate_body_spec c Hc past_median_time Hp (statuses s) b false (hw_parents _ Hw) (header_wf_daa _ Hw) Hh))). by rewrite Hval. }
  split; [done|]. split; [|split; [|split]].
  - destruct (header_roundtrip (E := E) f _ Hw Htime Hhash Haux) as (m & Hm & Hmb). unfold block_to_pb. subst b'. cbn [malleated block_header block_transactions].
    rewrite Hm. cbn [mbind res_mbind]. eexists. split; [done|]. unfold block_of_pb. cbn [pb_header pb_transactions ok_or mbind res_mbind]. rewrite Hmb. cbn [mbind res_mbind].
    rewrite (collect_map _ tx_to_pb); [done|]. apply Forall_forall. intros x Hx. apply tx_roundtrip.
    + pose proof (malleated_hashable b i j t cov Hh Hcov Ht) as Hm'. rewrite Forall_forall in Hm'. by apply Hm'.
    + apply list_elem_of_lookup in Hx as [k Hk]. apply list_lookup_insert_Some in Hk as [(<- & <- & _)|[_ Hk]];
        pose proof (br_isolated _ _ Hr) as Hiso; [pose proof (Forall_lookup_1 _ _ _ _ Hiso Ht) as Hx|pose proof (Forall_lookup_1 _ _ _ _ Hiso Hk) as Hx];
        by apply isolated_fields, version_fields_iff_each in Hx as [? _].
  - unfold process_body. rewrite Hst. cbn [unwrap mbind res_mbind]. rewrite Hval, direct_parents_spec by apply Hw. cbn [mbind res_mbind].
    unfold commit_body, insert_body. by rewrite bool_decide_eq_false_2.
  - destruct (malleated_rejected c past_median_time b i j t o cov Hh Hr Hcov Ht Hv Ho (statuses s)) as (e & He & Hrec). exists e.
    unfold process_body. change (block_hash b') with (block_hash b). rewrite Hst. cbn [unwrap mbind res_mbind]. subst b'. by rewrite He, Hrec.
  - unfold process_body. subst s'. cbn [set_status statuses]. by rewrite lookup_insert_eq.
Qed.

(** ** A witness that a peer has changed *)

(** How deep the witnesses of a header are nested. *)
Fixpoint header_depth (h : Header) : nat :=
  match h with mkHeader _ _ _ _ _ _ _ _ _ _ _ _ _ ax => match ax with Some (mkAuxPow h _ _) => S (header_depth h) | None => 0 end end.
Definition aux_depth (a : AuxPow) : nat := header_depth (parent_header a).

(** A witness inside of the parent of a witness. *)
Definition nest (inner a : AuxPow) : AuxPow := mkAuxPow (with_aux_pow inner (parent_header a)) (parent_coinbase a) (coinbase_merkle_branch a).
Fixpoint nested (n : nat) (a : AuxPow) : AuxPow := match n with O => a | S n => nest (nested n a) a end.

Lemma with_aux_depth a h : header_depth (with_aux_pow a h) = S (aux_depth a).
Proof. by destruct a, h. Qed.

Lemma nested_depth n a : (n ≤ aux_depth (nested n a))%nat.
Proof. induction n as [|n IH]; [lia|]. unfold aux_depth. cbn [nested nest parent_header]. rewrite with_aux_depth. lia. Qed.

Definition set_aux_bytes (v : bytes) (m : PbHeader) : PbHeader :=
  mkPbHeader (pbh_version m) (pb_parents m) (pb_hash_merkle_root m) (pb_accepted_id_merkle_root m) (pb_utxo_commitment m) (pb_timestamp m) (pb_bits m)
    (pb_nonce m) (pb_daa_score m) (pb_blue_work m) (pb_blue_score m) (pb_pruning_point m) v.

Lemma verify_nested `{KaspaHashes} `{Keccak} {E} fuel n a expected target :
  verify_aux_pow (E := E) fuel (nested n a) expected target = verify_aux_pow fuel a expected target ∧
  parent_pow (E := E) fuel (nested n a) = parent_pow fuel a.
Proof. destruct n; by destruct a as [[] ? ?]. Qed.


Lemma native_any_aux `{KaspaHashes} `{Keccak} {E} fuel a h : native_pow (E := E) fuel (with_aux_pow a h) = native_pow fuel h.
Proof. by destruct h. Qed.

Lemma gate_nested `{KaspaHashes} `{Keccak} {E} fuel n a h active :
  aux_pow h = Some a →
  check_pow_gated (E := E) fuel (with_aux_pow (nested n a) h) (Some (nested n a)) active = check_pow_gated (E := E) fuel h (aux_pow h) active.
Proof.
  intros ->. unfold check_pow_gated. rewrite native_any_aux. destruct (native_pow fuel h) as [[[[] np]|]| |]; cbn [and_then mbind res_mbind]; [done| |done..].
  destruct active; [|done]. change (bits (with_aux_pow (nested n a) h)) with (bits h). change (hdr_hash (with_aux_pow (nested n a) h)) with (hdr_hash h).
  destruct (verify_nested (E := E) fuel n a (hdr_hash h) (CompactTarget.from_compact_target_bits (bits h))) as [-> ->]. done.
Qed.

Lemma gate_native_any `{KaspaHashes} `{Keccak} {E} fuel a h active p :
  check_pow_gated (E := E) fuel h None active = Ok (Some (true, p)) →
  check_pow_gated (E := E) fuel (with_aux_pow a h) (Some a) active = Ok (Some (true, p)).
Proof.
  unfold check_pow_gated. rewrite native_any_aux. destruct (native_pow fuel h) as [[[[] np]|]| |]; cbn [and_then mbind res_mbind]; [done| |done..].
  by destruct active.
Qed.

(** C17. The witness of merged mining is not bounded by the conversion that means to bound it.
    Take a header that a peer sends.  For every depth there is a message for the same hash
    whose witness has a parent header with a witness, and so on, to that depth: if its
    bytes decode, the conversion accepts it, for it limits the Merkle branch of the
    outermost witness only.  The gate answers as it does for the witness that the header
    had; and it lets pass a natively mined block with any witness whatever. *)
Theorem witness_unbounded `{KaspaHashesLaws} `{Keccak} `{Dedup} `{AuxCodec} {E} fuel f m h a active n v :
  header_of_pb f m = Ok h → (length (coinbase_merkle_branch a) ≤ MAX_COINBASE_MERKLE_BRANCH)%nat →
  v ≠ [] → aux_from_slice v = Some (nested n a) →
  let h' := with_aux_pow (nested n a) h in
  header_of_pb f (set_aux_bytes v m) = Ok h' ∧ hdr_hash h' = hdr_hash h ∧ (n < header_depth h')%nat ∧
  (aux_pow h = Some a → check_pow_gated (E := E) fuel h' (aux_pow h') active = check_pow_gated (E := E) fuel h (aux_pow h) active) ∧
  (∀ p, check_pow_gated (E := E) fuel h None active = Ok (Some (true, p)) → check_pow_gated (E := E) fuel h' (aux_pow h') active = Ok (Some (true, p))).
Proof.
  intros Hm Hb Hv Hd h'. split_and!; [|done|pose proof (nested_depth n a); subst h'; rewrite with_aux_depth; lia|intros Ha; by apply gate_nested|intros p; apply gate_native_any].
  revert Hm. unfold header_of_pb. cbn [set_aux_bytes pbh_version pb_parents pb_hash_merkle_root pb_accepted_id_merkle_root pb_utxo_commitment pb_timestamp
    pb_bits pb_nonce pb_daa_score pb_blue_work pb_blue_score pb_pruning_point pb_aux_pow].
  intros (par & -> & (ve & -> & (mr & -> & (ar & -> & (ur & -> & (ti & -> & (wo & -> & (pr & -> & (hd & Hhd & Hres)%bind_Ok)%bind_Ok)%bind_Ok)%bind_Ok)%bind_Ok)%bind_Ok)%bind_Ok)%bind_Ok)%bind_Ok.
  cbn [mbind res_mbind]. rewrite Hhd. cbn [mbind res_mbind]. destruct v as [|x v]; [done|]. rewrite Hd.
  assert (length (coinbase_merkle_branch (nested n a)) = length (coinbase_merkle_branch a)) as -> by (by destruct n).
  rewrite (proj2 (Nat.ltb_ge _ _) Hb). subst h'. clear Hd. destruct (pb_aux_pow m); [by apply (inj Ok) in Hres as <-|].
  destruct (aux_from_slice _); [|done]. destruct (_ <? _)%nat; [done|]. by apply (inj Ok) in Hres as <-.
Qed.

(** ** A block that travels, for the witnesses *)
Module SampleWire.
Import (hints) SampleBody SampleHeader.
Definition bare : AuxPow := mkAuxPow SampleAux.parent SampleAux.coinbase [].
(** A codec that knows a witness and what it is nested to. *)
#[export] Instance codec : AuxCodec :=
  {| aux_to_vec := λ _, [8];
     aux_from_slice := λ v, if bool_decide (v = [7]) then Some (nested 3 bare) else if bool_decide (v = [8]) then Some bare else None |}.
Definition header : Header :=
  match new_finalized (E := unit) 1 [(1, [replicate 32 9])] (SampleBody.root_of SampleBody.txs) (replicate 32 4) (replicate 32 5) 1000 545259519 0 7
          [9; 0; 0] 7 (replicate 32 6) with Ok h => h | _ => SampleBody.header end.
Definition block : Block := mkBlock header SampleBody.txs.
Lemma wire_header_ok : header_wf header.
Proof. destruct SampleBody.body_header_ok. by constructor. Qed.
Lemma header_hashed : header_hash (E := ConversionError) header = Ok (hdr_hash header).
Proof. vm_compute. reflexivity. Qed.
Definition stores : BodyStores :=
  mkStores (<[hdr_hash header := StatusHeaderOnly]> {[replicate 32 9 := StatusUTXOValid]}) ∅ ∅ (mkCounters 0 0 0 0 0) [].
Definition covenant : CovenantBinding := mkBinding 0 (replicate 32 5).
Definition mass : NonContextualMasses * Z :=
  match validate_body SampleBody.config SampleBody.pmt (statuses stores) block false with Ok m => m | _ => (mkMasses 0 0, 0) end.
Definition merged : Header := with_aux_pow bare header.
Definition message : PbHeader :=
  match header_to_pb (E := unit) Compressed merged with Ok m => m | _ => mkPbHeader 0 [] None None None 0 0 0 0 [] 0 None [] end.
End SampleWire.
Import (hints) SampleBody SampleHeader SampleWire.
#[local] Existing Instance SampleAux.keccak.

Lemma wire_roundtrip_witness :
  (∃ m, block_to_pb (E := unit) Legacy SampleWire.block = Ok m ∧ block_of_pb Legacy m = Ok SampleWire.block) ∧
  (∃ m, block_to_pb (E := unit) Compressed SampleWire.block = Ok m ∧ block_of_pb Compressed m = Ok SampleWire.block).
Proof.
  assert (Forall (λ t, hashable t ∧ Forall (input_fields (version t)) (inputs t)) SampleBody.txs) as Htx.
  { apply Forall_and. split; [apply SampleBody.txs_ok|]. by repeat constructor; vm_compute; eauto. }
  split.
  - apply (proj1 (wire_roundtrip (E := unit) Legacy) SampleWire.block); [apply SampleWire.wire_header_ok|done|apply SampleWire.header_hashed|done|exact Htx].
  - apply (proj1 (wire_roundtrip (E := unit) Compressed) SampleWire.block); [apply SampleWire.wire_header_ok|done|apply SampleWire.header_hashed|done|exact Htx].
Defined.

Lemma malleated_body_poisons_witness :
  ∃ e, process_body (E := unit) SampleBody.config SampleBody.pmt (malleated SampleWire.block 1 0 SampleTx.tx SampleWire.covenant) false SampleWire.stores =
         Ok (inl e, set_status (hdr_hash SampleWire.header) StatusInvalid SampleWire.stores).
Proof.
  apply (malleated_body_poisons (E := unit) SampleBody.config SampleBody.pmt Compressed SampleWire.block 1 0 SampleTx.tx
    (mkOutput 25 (mkSpk 0 [81]) None) SampleWire.covenant SampleWire.stores SampleWire.mass).
  - apply SampleBody.config_ok.
  - done.
  - apply SampleWire.wire_header_ok.
  - done.
  - apply SampleWire.header_hashed.
  - done.
  - apply SampleBody.txs_ok.
  - by vm_compute.
  - by vm_compute.
  - vm_compute. reflexivity.
  - done.
  - done.
  - done.
  - split; [done|]. split; [done|]. by apply Forall_replicate.
Defined.

Lemma witness_unbounded_witness :
  header_of_pb Compressed (set_aux_bytes [7] SampleWire.message) = Ok (with_aux_pow (nested 3 SampleWire.bare) SampleWire.merged) ∧
  (3 < header_depth (with_aux_pow (nested 3 SampleWire.bare) SampleWire.merged))%nat ∧
  check_pow_gated (E := unit) 1 (with_aux_pow (nested 3 SampleWire.bare) SampleWire.merged) (Some (nested 3 SampleWire.bare)) true =
    check_pow_gated (E := unit) 1 SampleWire.merged (Some SampleWire.bare) true.
Proof.
  destruct (witness_unbounded (E := unit) 1 Compressed SampleWire.message SampleWire.merged SampleWire.bare true 3 [7]) as (Hm & _ & Hd & Hg & _).
  - vm_compute. reflexivity.
  - simpl. lia.
  - done.
  - done.
  - split; [exact Hm|]. split; [exact Hd|]. exact (Hg eq_refl).
Defined.
